(* ===== verification/_CoqProject ===== *)
-Q . S2P
Prelude.v
Gas.v
Types.v
Tipset.v
BaseFee.v
StateTree.v
VM.v
VMState.v
VMSafety.v
VMApply.v
VMFuel.v
VMTheorems.v
SectorTypes.v
SectorEvents.v
SectorStats.v
SectorFSM.v
SectorProps.v
SectorTheorems.v
ChainIndex.v
MsgSet.v
MessagePool.v
PoolProps.v
MsgChains.v
MsgSelect.v
ChainProps.v
SelectProps.v
OptimalProps.v
SelectTheorems.v
Upkeep.v
UpkeepProps.v
Cbor.v
CborProps.v
CborTheorems.v
FundManager.v
FundProps.v
FundTheorems.v
SyncManager.v
SyncProps.v
WdPost.v
WdPostProps.v
WdPostTheorems.v
WdPostRun.v
WdPostRunProps.v
WdPostRunTheorems.v
Paych.v
PaychProps.v
PaychFunds.v
PaychFundsProps.v
PaychStore.v
PaychTheorems.v
TsCache.v
Election.v
SlashFilter.v
Fr32.v
Fr32Props.v
Fr32Stream.v
