(* ===== verification/Prelude.v ===== *)
(** * Verification of a Filecoin node (lotus)

    The node keeps a chain of tipsets, executes their messages on a tree of
    actors, gathers pending messages for the next block, and, for a storage
    miner, drives sectors through sealing.  This library models parts of each as
    Rocq functions translated from the Go sources under src/ and proves what
    makes them correct.

    ** Files and the code they model

    - [Prelude]: shared vocabulary.  [int64] and [uint64] are [Z] with the
      wrap-around written out, [big.Int] is [Z] with the Euclidean division of
      [math/big], a value-and-error pair is a [result].
    - [Gas]: price lists, the gas counter and settlement (src/chain/vm/gas.go,
      gas_v0.go, burn.go).
    - [Types], [Tipset]: messages, actors, headers, tipsets and their keys
      (src/chain/types).
    - [BaseFee]: src/chain/store/basefee.go.
    - [StateTree]: the layered snapshots over the actors of a state root
      (src/chain/state/statetree.go).
    - [VM]: message application, nested sends and the runtime of actor code
      (src/chain/vm/vm.go, runtime.go, mkactor.go, invoker.go,
      src/chain/actors/aerrors).  [VMState], [VMSafety], [VMApply], [VMFuel] and
      [VMTheorems] hold its theory.
    - [SectorTypes], [SectorEvents], [SectorStats], [SectorFSM]: the sealing state
      machine (src/storage/pipeline/types.go, sector_state.go, fsm_events.go,
      stats.go, fsm.go).  [SectorProps] and [SectorTheorems] hold its theory.
    - [ChainIndex]: the skip list that finds tipsets by height
      (src/chain/store/index.go).
    - [MsgSet], [MessagePool]: pending messages of an actor and the pool over them
      (src/chain/messagepool/messagepool.go); [PoolProps] holds the theory.
    - [MsgChains], [MsgSelect]: chains of dependent messages and the selection of
      messages for a block (src/chain/messagepool/selection.go).  [ChainProps],
      [SelectProps], [OptimalProps] and [SelectTheorems] hold the theory.
    - [Upkeep], [UpkeepProps]: pruning and republication of pending messages and
      the loop that starts them (src/chain/messagepool/pruning.go, repub.go).
    - [Cbor], [CborProps], [CborTheorems]: the CBOR codecs of the chain types
      (src/chain/types/cbor_gen.go) and the functions that use them.
    - [FundManager], [FundProps], [FundTheorems]: the funds of addresses in the
      storage market (src/chain/market/fundmanager.go, store.go).
    - [SyncManager], [SyncProps]: the scheduling of sync workers
      (src/chain/sync_manager.go).
    - [WdPost], [WdPostProps], [WdPostTheorems]: the handlers that decide when the
      proofs of a deadline are generated and submitted
      (src/storage/wdpost/wdpost_changehandler.go, wdpost_sched.go).
    - [WdPostRun], [WdPostRunProps], [WdPostRunTheorems]: the cycle that proves a
      deadline, and the declarations of recoveries and faults
      (src/storage/wdpost/wdpost_run.go, wdpost_run_faults.go).
    - [Paych], [PaychProps]: the store of payment channels, their lanes and vouchers
      (src/paychmgr/store.go, paych.go, state.go, manager.go, util.go).
    - [PaychFunds], [PaychFundsProps]: the queue of requests for the funds of a
      channel (src/paychmgr/simple.go).  [PaychStore] has the invariant of the store
      over the operations of both, [PaychTheorems] their theorems.
    - [TsCache]: the ring of recent tipsets (src/chain/events/tscache.go).
    - [Election]: win counts of a miner (src/chain/types/electionproof.go).
    - [SlashFilter]: the guard against consensus faults of the miner's own
      (src/chain/gen/slashfilter/slashfilter.go).
    - [Fr32], [Fr32Props], [Fr32Stream]: padding of pieces to field elements
      (src/storage/sealer/fr32).

    ** How the parts meet

    The virtual machine uses its state through the class [StateAccess]; the
    theorems of the machine are proved from [StateLaws], and [VMState] discharges
    these laws for [StateTree], whose own laws about the actors' HAMT and the init
    actor are the classes [AdtMapLaws] and [InitActorLaws].  The machine settles
    gas with [Gas].  The pool checks messages with [Types], prices them with
    [Gas], stores them in the sets of [MsgSet], and walks tipsets of [Tipset]; the
    node behind it is the record [Provider], with [ProviderLaws].  Selection takes
    the sets of the pool; Go's sorting, the order of its maps and its random
    numbers are the class [GoRuntime] with [GoRuntimeLaws], [float64] is the
    [spec_float] of the Standard Library at 53 bits, and pointers between chains
    are addresses in a store.  The index
    reads tipsets through a loading function and an ARC cache
    ([ARCCacheLaws]).  Pruning and republication use the pool and its chains;
    the order in which Go walks their maps is the class [GoCidRange].  The codecs
    take the libraries under them as [CborLib] with [CborLibLaws], where a signature
    is read back when its type is known and it is not too long.  The ring of
    tipsets asks the node behind it through [tsCacheAPI], the fund manager through
    [fundManagerAPI]; its goroutines are steps of [fm_step].  In the same way
    the events of the sync scheduler are steps of [sm_step], heads, proofs and
    results of the window PoSt handlers steps of [wd_step], which [wd_run] puts
    together with their history, and requests and messages of a payment channel
    steps of [fund_step] and [store_step], in any order.  A query of the datastore
    has its number in the operation, as one may fail where another does not.  Deadlines of go-state-types are the class [Dline] with [DlineLaws],
    bitfields [BitFields] with [BitFieldLaws], the node and the datastore behind
    the channels [PaychNode] with [PaychNodeLaws]; what proving calls is the
    record [services], in a monad of errors and panics over the world it acts
    on.

    ** What the theorems show

    - Funds: whatever actor code does, applying a message mints nothing, keeps
      balances nonnegative and leaves outer snapshots alone; a failed message only
      pays for gas; plain transfers conserve the total exactly; settlement splits
      the gas fee without loss.
    - State: the layered tree refines a stack of plain maps; address caches agree
      with full scans; flushing writes the visible actors.
    - Termination: nested sends end within the call depth limit; the loops of the
      index end on every stored chain.
    - Sealing: sectors stay in the table of planners, batches of events make
      progress and move a sector once, a sector proves only after the chain
      confirmed its proof, aborted upgrades restore the sector.
    - Chain: tipsets do not depend on the order of their blocks, keys round trip,
      the base fee moves by at most an eighth, the index agrees with a walk over
      the parents whatever its cache evicts.
    - Pool: sets and counters stay consistent over every sequence of operations,
      an accepted message is valid and its sender can pay for all it has pending,
      and the messages of new blocks leave the pool.
    - Selection: the chains of an actor have consistent totals and strictly
      decreasing performance; whatever the strategy, a selected block keeps within
      the limits of a block and takes of every actor messages that it can send
      one after the other.
    - Upkeep: pruning keeps every message of a protected actor and, of the others,
      messages that can be sent one after the other; what is republished is
      pending and local, fits in a block and follows the nonces of its actor.
    - Codecs: signed messages and gossiped blocks survive serialisation, the bytes
      a miner signs determine the block, and what decodes is in range and within the
      limits.
    - Market funds: reserved amounts are exact, withdrawals never touch them, every
      reachable state is consistent, the queues empty; one theorem says when a run
      panics.
    - Sync: never more workers than the limit, none on a tipset that was synced
      recently; a theorem shows how deferred targets are lost.
    - Window PoSt: a submission has proofs that were generated for its deadline,
      falls within its window and is the only one that was not aborted; a proof
      starts exactly when none is in the way and the head is above the challenge
      height of the first deadline without one; a cycle returns proofs that were
      verified on the sectors and the challenge they were made for, of distinct
      partitions; batches and recoveries respect their limits.  Further
      theorems show overlapping proofs, a panic that completes a deadline and a loop
      that does not end.
    - Payment channels: stored vouchers are covered by the balance and grow along a
      lane, a voucher is submitted once whatever follows, available funds are never
      negative and exceed confirmed ones only after an off-chain request was cancelled
      while the queue was merged, and a run over the requests answers each at most
      once.  Further theorems show that two runs can answer the same request, that
      such a cancellation leaves more available than there is, and that a failed read
      lets vouchers exceed the balance.
    - Ring of tipsets: it answers like the node behind it for the epochs it holds;
      a separate theorem shows the epoch at which it does not.
    - Mining: the win count is the number of thresholds above the hash, and a
      miner that obeys the filter signs no two blocks that can be slashed.
    - Pieces: padding and unpadding are inverse, in memory and as streams.

    ** Bounds and fuel

    Recursion that is not structural takes fuel.  [send] needs
    [MaxCallDepth + 2] ([send_fuel_enough]).  The loops of [ChainIndex] need the
    height of the start plus one; the theorem states it.  [fill_gaps] uses one
    step per pending message, which [fill_gaps_free] shows to be enough.  In
    [MsgChains], merging chains takes one pass per chain, and following links one
    step per cell of the store.  In [MsgSelect], every round of the greedy tail
    loop drops a message, and every round of the optimal one drops a message or
    moves past a chain; [SelectMessages_sound] shows that the fuel they start
    with never runs out.  [repub_loop] drops a message or moves past a chain in
    each round, and starts with the number of both plus one.  The scan of the ring
    of tipsets takes one step per slot.  [next_unproved] takes one step per cached
    deadline plus one, which [proofs_sound] rests on; [deferred_loop] takes one per
    deferred bucket and [ramp_up] one per worker.  The retries of [prove_batch] have
    no bound in the code, nor has [manual_batches]: their theorems hold for any fuel.
    [ReorgOps] takes the fuel of its caller: without a
    common ancestor it follows parents until loading fails.

    ** Not modelled

    Actor code, HAMTs and AMTs, the CBOR library, CIDs, signatures, proofs and
    caches of other repositories are parameters with their documented behaviour;
    so are the block probabilities of block_proba.go, which only order the chains.
    The pool's configuration, diagnostic checks and subscriptions are not modelled,
    nor are its timers, whose ticks are the events of [run_event].  The handlers
    that seal sectors (storage/pipeline/states_*.go) and the workers behind them
    are calls to native provers, represented by their names.  Networking
    (chain/exchange, chain/sub, libp2p) and what a sync worker fetches, disk stores (blockstore), the RPC layer
    (api, node, gateway), the command line (cli, cmd) and code generated from
    templates (chain/actors) are I/O or generated.  The JSON codecs, which work by
    reflection, are left out.  Of window PoSt, the journal and the gas of its
    messages are not modelled, and its epochs are unbounded integers; of payment
    channels the listeners for messages, the cache of accessors, restarts and the
    settler are not.  Actor code does not ask for the circulating supply.  Locks are not modelled: each operation of the pool
    runs under its lock and is one step. *)

From Stdlib Require Export ZArith Lia.
From stdpp Require Export base tactics list gmap sorting strings.

#[global] Open Scope Z_scope.

(** * Machine integers *)

(** Go's [int64] arithmetic wraps modulo 2^64 into the signed range. *)
Definition wrap64 (z : Z) : Z := (z + 2 ^ 63) mod 2 ^ 64 - 2 ^ 63.

(** Go's [uint64] arithmetic wraps modulo 2^64. *)
Definition wrapu64 (z : Z) : Z := z mod 2 ^ 64.

Definition in_i64 (z : Z) : Prop := - 2 ^ 63 <= z < 2 ^ 63.
Definition in_u64 (z : Z) : Prop := 0 <= z < 2 ^ 64.

Definition i64_add (a b : Z) : Z := wrap64 (a + b).
Definition i64_sub (a b : Z) : Z := wrap64 (a - b).
Definition i64_mul (a b : Z) : Z := wrap64 (a * b).
(** Go's integer division truncates towards zero. *)
Definition i64_quot (a b : Z) : Z := wrap64 (Z.quot a b).

Declare Scope go_scope.
Delimit Scope go_scope with go.
Infix "⊞" := i64_add (at level 50, left associativity) : go_scope.
Infix "⊟" := i64_sub (at level 50, left associativity) : go_scope.
Infix "⊠" := i64_mul (at level 40, left associativity) : go_scope.
Infix "⊘" := i64_quot (at level 40, left associativity) : go_scope.
#[global] Open Scope go_scope.

(** [math/big]'s [Int.Div] is Euclidean division: the remainder is never
    negative, whatever the sign of the divisor. *)
Definition big_div (a b : Z) : Z := if b <? 0 then - (a / - b) else a / b.

Create HintDb go_arith.

Lemma wrap64_id z : in_i64 z -> wrap64 z = z.
Proof. unfold in_i64, wrap64. intros. rewrite Z.mod_small; lia. Qed.

Lemma wrap64_range z : in_i64 (wrap64 z).
Proof.
  unfold in_i64, wrap64. pose proof (Z.mod_pos_bound (z + 2 ^ 63) (2 ^ 64)). lia.
Qed.

Lemma wrapu64_id z : in_u64 z -> wrapu64 z = z.
Proof. unfold in_u64, wrapu64. intros. by apply Z.mod_small. Qed.

Lemma i64_add_id a b : in_i64 (a + b) -> a ⊞ b = a + b.
Proof. apply wrap64_id. Qed.

Lemma i64_sub_id a b : in_i64 (a - b) -> a ⊟ b = a - b.
Proof. apply wrap64_id. Qed.

Lemma i64_mul_id a b : in_i64 (a * b) -> a ⊠ b = a * b.
Proof. apply wrap64_id. Qed.

(** Truncating division of in-range operands only leaves the range for the
    quotient of the least integer by -1; the divisors of this code base are
    positive. *)
Lemma i64_quot_id a b : in_i64 a -> 0 < b -> a ⊘ b = Z.quot a b.
Proof.
  intros Ha Hb. apply wrap64_id. unfold in_i64 in *.
  destruct (Z.le_gt_cases 0 a).
  - pose proof (Z.quot_pos a b). pose proof (Z.quot_le_upper_bound a b a). nia.
  - rewrite <- (Z.opp_involutive a), Z.quot_opp_l by lia.
    pose proof (Z.quot_pos (- a) b).
    pose proof (Z.quot_le_upper_bound (- a) b (- a)). nia.
Qed.

#[export] Hint Resolve wrap64_range : go_arith.
#[export] Hint Rewrite wrap64_id i64_add_id i64_sub_id i64_mul_id
  using (unfold in_i64 in *; lia) : go_arith.

(** Removes every wrap-around whose operands are linear and in range. *)
Ltac no_overflow := autorewrite with go_arith.

(** * Results *)

(** A Go function's [(value, error)] result, with errors of type [E]. *)
Inductive result (E A : Type) :=
  | Ok (a : A)
  | Err (e : E).
Arguments Ok {E A} a.
Arguments Err {E A} e.

Definition bind_result {E A B} (m : result E A) (f : A -> result E B) : result E B :=
  match m with Ok a => f a | Err e => Err e end.

Notation "'let?' x := m 'in' k" := (bind_result m (fun x => k))
  (at level 200, x pattern, m at level 100, k at level 200, right associativity) : go_scope.

Lemma bind_result_ok {E A B} (m : result E A) (f : A -> result E B) b :
  bind_result m f = Ok b <-> exists a, m = Ok a /\ f a = Ok b.
Proof. destruct m; simpl; naive_solver. Qed.

(** * Sorting *)

(** [sort.Slice] promises a permutation ordered by its comparison and nothing
    else.  Insertion sort computes one; where the comparison is a strict total
    order on the slice every sorted permutation is the same list
    ([sort_by_unique]), so the choice of algorithm does not show. *)
Section SortBy.
Context {A : Type} (less : A -> A -> bool).

Fixpoint insert_by (x : A) (l : list A) : list A :=
  match l with
  | [] => [x]
  | y :: l' => if less y x then y :: insert_by x l' else x :: l
  end.

Fixpoint sort_by (l : list A) : list A :=
  match l with
  | [] => []
  | x :: l => insert_by x (sort_by l)
  end.

(** [x] may come before [y]. *)
Definition not_after (x y : A) : Prop := less y x = false.

Lemma insert_by_perm x l : insert_by x l ≡ₚ x :: l.
Proof.
  induction l as [|y l IH]; simpl; [done|].
  destruct (less y x); [|done]. rewrite IH. apply Permutation_swap.
Qed.

Lemma sort_by_perm l : sort_by l ≡ₚ l.
Proof. induction l as [|x l IH]; simpl; [done|]. by rewrite insert_by_perm, IH. Qed.

Context (P : A -> Prop).
Hypothesis less_asym : forall x y, P x -> P y -> less x y = true -> less y x = false.
Hypothesis not_after_trans :
  forall x y z, P x -> P y -> P z -> not_after x y -> not_after y z -> not_after x z.

Lemma insert_by_sorted x l :
  P x -> Forall P l -> StronglySorted not_after l -> StronglySorted not_after (insert_by x l).
Proof.
  intros Hx HP Hs. induction Hs as [|y l Hs IH Hall]; simpl; [by repeat constructor|].
  apply Forall_cons in HP as [Hy HP]. destruct (less y x) eqn:E.
  - constructor; [by apply IH|]. rewrite insert_by_perm. constructor; [|done].
    by apply less_asym.
  - constructor; [by constructor|]. constructor; [done|].
    rewrite Forall_forall in *. intros z Hz. apply (not_after_trans x y z); auto.
Qed.

Lemma sort_by_sorted l : Forall P l -> StronglySorted not_after (sort_by l).
Proof.
  induction 1 as [|x l Hx HP IH]; simpl; [constructor|].
  apply insert_by_sorted; [done| |done]. by rewrite sort_by_perm.
Qed.

(** When the comparison also separates the elements, sorting forgets the order
    of its input. *)
Lemma sort_by_unique l1 l2 :
  Forall P l1 -> l1 ≡ₚ l2 ->
  (forall x y, x ∈ l1 -> y ∈ l1 -> not_after x y -> not_after y x -> x = y) ->
  sort_by l1 = sort_by l2.
Proof.
  intros HP Hperm Hanti. apply (StronglySorted_unique_strong not_after).
  - intros x1 x2 H1 H2. rewrite sort_by_perm in H1. rewrite sort_by_perm, <- Hperm in H2. auto.
  - by apply sort_by_sorted.
  - apply sort_by_sorted. by rewrite <- Hperm.
  - by rewrite !sort_by_perm.
Qed.
End SortBy.

(** * Sums *)

(** Sum of [f] over a list, over a finite set and over the values of a map. *)
Definition sumZ {A} (f : A -> Z) (l : list A) : Z := foldr (fun x acc => f x + acc) 0 l.

Definition set_sumZ `{Countable K} (f : K -> Z) (X : gset K) : Z := sumZ f (elements X).

Definition map_sumZ `{Countable K} {V} (f : V -> Z) (m : gmap K V) : Z :=
  sumZ (fun kv => f kv.2) (map_to_list m).

Lemma sumZ_perm {A} (f : A -> Z) l1 l2 : l1 ≡ₚ l2 -> sumZ f l1 = sumZ f l2.
Proof. induction 1; simpl in *; unfold sumZ in *; simpl in *; lia. Qed.

Lemma sumZ_app {A} (f : A -> Z) l1 l2 : sumZ f (l1 ++ l2) = sumZ f l1 + sumZ f l2.
Proof. induction l1; unfold sumZ in *; simpl in *; lia. Qed.

Lemma sumZ_cons {A} (f : A -> Z) x l : sumZ f (x :: l) = f x + sumZ f l.
Proof. done. Qed.

Lemma sumZ_nonneg {A} (f : A -> Z) l : Forall (fun x => 0 <= f x) l -> 0 <= sumZ f l.
Proof. induction 1; unfold sumZ in *; simpl; lia. Qed.

Lemma sumZ_ext {A} (f g : A -> Z) l : (forall x, x ∈ l -> f x = g x) -> sumZ f l = sumZ g l.
Proof.
  induction l as [|x l IH]; intros H; [done|]. rewrite !sumZ_cons, IH, (H x); [done|by left|].
  intros y Hy. apply H. by right.
Qed.

Lemma set_sumZ_insert `{Countable K} (f : K -> Z) x (X : gset K) :
  x ∉ X -> set_sumZ f ({[x]} ∪ X) = f x + set_sumZ f X.
Proof.
  intros Hx. unfold set_sumZ. rewrite (sumZ_perm f _ _ (elements_union_singleton X x Hx)).
  apply sumZ_cons.
Qed.

Lemma map_sumZ_empty `{Countable K} {V} (f : V -> Z) : map_sumZ f (∅ : gmap K V) = 0.
Proof. unfold map_sumZ. by rewrite map_to_list_empty. Qed.

Lemma map_sumZ_insert_None `{Countable K} {V} (f : V -> Z) (m : gmap K V) k v :
  m !! k = None -> map_sumZ f (<[k:=v]> m) = f v + map_sumZ f m.
Proof.
  intros Hk. unfold map_sumZ. by rewrite (sumZ_perm _ _ _ (map_to_list_insert m k v Hk)).
Qed.

Lemma map_sumZ_delete `{Countable K} {V} (f : V -> Z) (m : gmap K V) k v :
  m !! k = Some v -> map_sumZ f (delete k m) = map_sumZ f m - f v.
Proof.
  intros Hk. unfold map_sumZ. rewrite <- (sumZ_perm _ _ _ (map_to_list_delete m k v Hk)).
  rewrite sumZ_cons. simpl. lia.
Qed.

Lemma map_sumZ_insert_Some `{Countable K} {V} (f : V -> Z) (m : gmap K V) k v v' :
  m !! k = Some v -> map_sumZ f (<[k:=v']> m) = map_sumZ f m - f v + f v'.
Proof.
  intros Hk. rewrite <- insert_delete_eq.
  rewrite map_sumZ_insert_None by apply lookup_delete_eq.
  rewrite (map_sumZ_delete f m k v) by done. lia.
Qed.
