(* ===== verification/Gas.v ===== *)
(** Gas: price lists (src/chain/vm/gas.go, gas_v0.go), the charging of a
    runtime's gas counter (src/chain/vm/runtime.go) and the settlement of a
    message's gas into burn, tip, penalty and refund (src/chain/vm/burn.go).

    [int64] amounts are [Z] with the wrap-around of [Prelude] written at every
    operation; [abi.TokenAmount] is an unbounded [Z].  Proof types and
    signature types come from go-state-types: they are enumerations whose named
    constants are constructors and whose other values are one more constructor,
    so nothing depends on their numbers but their being distinct. *)

From S2P Require Import Prelude.

(** * Settlement of gas: burn.go *)
Module Burn.

Definition gasOveruseNum : Z := 11.
Definition gasOveruseDenom : Z := 10.

Record GasOutputs := mkGasOutputs {
  BaseFeeBurn : Z;
  OverEstimationBurn : Z;
  MinerPenalty : Z;
  MinerTip : Z;
  Refund : Z;
  GasRefund : Z;
  GasBurned : Z;
}.

Definition ZeroGasOutputs : GasOutputs :=
  {| BaseFeeBurn := 0; OverEstimationBurn := 0; MinerPenalty := 0;
     MinerTip := 0; Refund := 0; GasRefund := 0; GasBurned := 0 |}.

(** Result is (refund, burn).  The product goes through a big integer, the
    other operations are on [int64]; [Int64()] of the quotient keeps its low
    64 bits. *)
Definition ComputeGasOverestimationBurn (gasUsed gasLimit : Z) : Z * Z :=
  if gasUsed =? 0 then (0, gasLimit)
  else
    let over := gasLimit ⊟ (gasOveruseNum ⊠ gasUsed) ⊘ gasOveruseDenom in
    if over <? 0 then (gasLimit ⊟ gasUsed, 0)
    else
      let over := if over >? gasUsed then gasUsed else over in
      let gasToBurn := (gasLimit ⊟ gasUsed) * over in
      let gasToBurn := big_div gasToBurn gasUsed in
      (gasLimit ⊟ gasUsed ⊟ wrap64 gasToBurn, wrap64 gasToBurn).

Definition ComputeGasOutputs (gasUsed gasLimit baseFee feeCap gasPremium : Z)
    (chargeNetworkFee : bool) : GasOutputs :=
  let '(baseFeeToPay, penalty) :=
    if baseFee >? feeCap then (feeCap, (baseFee - feeCap) * gasUsed)
    else (baseFee, MinerPenalty ZeroGasOutputs) in
  let baseFeeBurn :=
    if chargeNetworkFee then baseFeeToPay * gasUsed else BaseFeeBurn ZeroGasOutputs in
  let minerTip :=
    if baseFeeToPay + gasPremium >? feeCap then feeCap - baseFeeToPay else gasPremium in
  let tip := minerTip * gasLimit in
  let '(gasRefund, gasBurned) := ComputeGasOverestimationBurn gasUsed gasLimit in
  let '(overEstimationBurn, penalty) :=
    if negb (gasBurned =? 0) then
      (baseFeeToPay * gasBurned, penalty + (baseFee - baseFeeToPay) * gasBurned)
    else (OverEstimationBurn ZeroGasOutputs, penalty) in
  let requiredFunds := gasLimit * feeCap in
  let refund := requiredFunds - baseFeeBurn - tip - overEstimationBurn in
  {| BaseFeeBurn := baseFeeBurn; OverEstimationBurn := overEstimationBurn;
     MinerPenalty := penalty; MinerTip := tip; Refund := refund;
     GasRefund := gasRefund; GasBurned := gasBurned |}.

(** The gas that execution may report for a message: nonnegative, at most its
    limit, and small enough that eleven times it is an [int64].  The block gas
    limit of every network (10^10) is far below the bound. *)
Definition gas_in_range (gasUsed gasLimit : Z) : Prop :=
  0 <= gasUsed <= gasLimit /\ gasLimit < 2 ^ 59.

(** ** Lemmas on the overestimation burn *)

(** Without overflow the function is the rational formula of its comment:
    [burn = (limit - used) * min(limit - 11*used/10, used) / used]. *)
Lemma overestimation_burn_eq gasUsed gasLimit :
  gas_in_range gasUsed gasLimit -> gasUsed <> 0 ->
  ComputeGasOverestimationBurn gasUsed gasLimit =
    let over := gasLimit - 11 * gasUsed / 10 in
    let burn := if over <? 0 then 0
                else (gasLimit - gasUsed) * Z.min over gasUsed / gasUsed in
    (gasLimit - gasUsed - burn, burn).
Proof.
  unfold gas_in_range, ComputeGasOverestimationBurn, gasOveruseNum, gasOveruseDenom.
  intros [Hu Hl] Hnz.
  destruct (Z.eqb_spec gasUsed 0); [done|].
  rewrite (i64_mul_id 11 gasUsed) by (unfold in_i64; lia).
  rewrite i64_quot_id by (unfold in_i64; lia).
  rewrite Z.quot_div_nonneg by lia.
  assert (0 <= 11 * gasUsed / 10 <= 2 * gasUsed) by
    (split; [apply Z.div_pos; lia | apply Z.div_le_upper_bound; lia]).
  rewrite (i64_sub_id gasLimit) by (unfold in_i64; lia).
  rewrite (i64_sub_id gasLimit gasUsed) by (unfold in_i64; lia).
  cbv zeta. destruct (Z.ltb_spec (gasLimit - 11 * gasUsed / 10) 0) as [Hlt|Hge].
  { f_equal; lia. }
  replace (if _ >? _ then _ else _)
    with (Z.min (gasLimit - 11 * gasUsed / 10) gasUsed)
    by (destruct (Z.gtb_spec (gasLimit - 11 * gasUsed / 10) gasUsed); lia).
  unfold big_div. destruct (Z.ltb_spec gasUsed 0); [lia|].
  set (b := (gasLimit - gasUsed) * _ / gasUsed).
  assert (0 <= b <= gasLimit - gasUsed).
  { unfold b. split; [apply Z.div_pos; nia|].
    apply Z.div_le_upper_bound; nia. }
  rewrite (wrap64_id b) by (unfold in_i64; lia).
  by rewrite i64_sub_id by (unfold in_i64; lia).
Qed.

Lemma overestimation_burn_bounds gasUsed gasLimit refund burn :
  gas_in_range gasUsed gasLimit ->
  ComputeGasOverestimationBurn gasUsed gasLimit = (refund, burn) ->
  0 <= burn /\ 0 <= refund /\ gasUsed + refund + burn = gasLimit.
Proof.
  intros Hr. destruct (Z.eq_dec gasUsed 0) as [->|Hnz].
  - intros [= <- <-]. unfold gas_in_range in Hr. lia.
  - rewrite overestimation_burn_eq by done. cbv zeta.
    destruct Hr as [Hu Hl].
    destruct (Z.ltb_spec (gasLimit - 11 * gasUsed / 10) 0); intros [= <- <-]; [lia|].
    assert (0 <= (gasLimit - gasUsed) * Z.min (gasLimit - 11 * gasUsed / 10) gasUsed
              / gasUsed <= gasLimit - gasUsed).
    { split; [apply Z.div_pos; nia | apply Z.div_le_upper_bound; nia]. }
    lia.
Qed.

(** The components of the outputs in closed form. *)
Lemma gas_outputs_eq gasUsed gasLimit baseFee feeCap gasPremium burnFee :
  let out := ComputeGasOutputs gasUsed gasLimit baseFee feeCap gasPremium burnFee in
  let toPay := Z.min baseFee feeCap in
  let over := snd (ComputeGasOverestimationBurn gasUsed gasLimit) in
  BaseFeeBurn out = (if burnFee then toPay * gasUsed else 0) /\
  OverEstimationBurn out = toPay * over /\
  MinerTip out = Z.min gasPremium (feeCap - toPay) * gasLimit /\
  MinerPenalty out = (baseFee - toPay) * (gasUsed + over) /\
  Refund out = gasLimit * feeCap - BaseFeeBurn out - MinerTip out - OverEstimationBurn out /\
  (GasRefund out, GasBurned out) = ComputeGasOverestimationBurn gasUsed gasLimit.
Proof.
  cbv zeta. unfold ComputeGasOutputs. simpl.
  destruct (ComputeGasOverestimationBurn gasUsed gasLimit) as [r b]. simpl.
  destruct (Z.gtb_spec baseFee feeCap);
    [rewrite (Z.min_r baseFee feeCap), Z.sub_diag by lia;
     destruct (Z.gtb_spec (feeCap + gasPremium) feeCap)
    |rewrite (Z.min_l baseFee feeCap) by lia;
     destruct (Z.gtb_spec (baseFee + gasPremium) feeCap)];
  destruct (Z.eqb_spec b 0); destruct burnFee; simpl; subst;
  repeat split; first [done | lia | nia | f_equal; lia].
Qed.

(** The burn as a function of the gas limit, without machine integers. *)
Definition burn_of (gasUsed gasLimit : Z) : Z :=
  (gasLimit - gasUsed) * Z.max 0 (Z.min (gasLimit - 11 * gasUsed / 10) gasUsed) / gasUsed.

Lemma burn_of_spec gasUsed gasLimit :
  gas_in_range gasUsed gasLimit -> gasUsed <> 0 ->
  snd (ComputeGasOverestimationBurn gasUsed gasLimit) = burn_of gasUsed gasLimit.
Proof.
  intros Hr Hnz. rewrite overestimation_burn_eq by done. unfold burn_of. cbv zeta. simpl.
  destruct Hr. destruct (Z.ltb_spec (gasLimit - 11 * gasUsed / 10) 0).
  - rewrite Z.max_l by lia. by rewrite Z.mul_0_r, Z.div_0_l.
  - by rewrite Z.max_r by lia.
Qed.

(** ** Properties *)

(** C36: settling a message splits the funds withdrawn from the sender
    ([gasLimit * feeCap]) exactly into base-fee burn, overestimation burn, miner
    tip and refund, none of them negative, and the gas into used, refunded and
    burned gas; the miner penalty is the part of the base fee that the fee cap
    does not cover, on all gas used and burned. *)
Theorem gas_settlement_sound gasUsed gasLimit baseFee feeCap gasPremium burnFee :
  gas_in_range gasUsed gasLimit ->
  0 <= baseFee -> 0 <= feeCap -> 0 <= gasPremium ->
  let out := ComputeGasOutputs gasUsed gasLimit baseFee feeCap gasPremium burnFee in
  (BaseFeeBurn out + OverEstimationBurn out + MinerTip out + Refund out = gasLimit * feeCap) /\
  0 <= BaseFeeBurn out /\ 0 <= OverEstimationBurn out /\ 0 <= MinerTip out /\
  0 <= Refund out /\ 0 <= MinerPenalty out /\
  gasUsed + GasRefund out + GasBurned out = gasLimit /\
  MinerPenalty out = Z.max 0 (baseFee - feeCap) * (gasUsed + GasBurned out).
Proof.
  intros Hr Hb Hf Hp. cbv zeta.
  destruct (gas_outputs_eq gasUsed gasLimit baseFee feeCap gasPremium burnFee)
    as (E1 & E2 & E3 & E4 & E5 & E6).
  destruct (ComputeGasOverestimationBurn gasUsed gasLimit) as [r b] eqn:Eb.
  simpl in *. injection E6 as -> ->.
  destruct (overestimation_burn_bounds _ _ _ _ Hr Eb) as (? & ? & ?).
  destruct Hr as [? _].
  rewrite E5, E1, E2, E3, E4.
  assert (0 <= Z.min baseFee feeCap <= feeCap) by lia.
  assert (0 <= Z.min gasPremium (feeCap - Z.min baseFee feeCap)
          <= feeCap - Z.min baseFee feeCap) by lia.
  replace (baseFee - Z.min baseFee feeCap) with (Z.max 0 (baseFee - feeCap)) by lia.
  assert (0 <= Z.max 0 (baseFee - feeCap)) by lia.
  generalize dependent (Z.max 0 (baseFee - feeCap)).
  generalize dependent (Z.min gasPremium (feeCap - Z.min baseFee feeCap)).
  generalize dependent (Z.min baseFee feeCap). intros toPay ??? tip ?? pen ?.
  destruct burnFee; repeat split; nia.
Qed.

Lemma gas_settlement_sound_witness :
  let out := ComputeGasOutputs 100 250 7 5 3 true in
  Refund out = 0 /\ OverEstimationBurn out = 750 /\ MinerPenalty out = 500 /\
  BaseFeeBurn out + OverEstimationBurn out + MinerTip out + Refund out = 250 * 5.
Proof.
  do 3 (split; [reflexivity|]).
  apply (gas_settlement_sound 100 250 7 5 3 true); unfold gas_in_range; lia.
Defined.

(** Overestimating gas costs nothing up to ten percent, burns at most the
    unused gas, burns all of it once the limit reaches 2.1 times the gas used,
    and a larger limit never burns less; the [int64] arithmetic of the code does
    not overflow for any gas below 2^59. *)
Theorem overestimation_burn_shape gasUsed gasLimit gasLimit' :
  gas_in_range gasUsed gasLimit -> gas_in_range gasUsed gasLimit' ->
  0 < gasUsed -> gasLimit <= gasLimit' ->
  let burn l := snd (ComputeGasOverestimationBurn gasUsed l) in
  0 <= burn gasLimit <= gasLimit - gasUsed /\
  (10 * gasLimit <= 11 * gasUsed -> burn gasLimit = 0) /\
  (21 * gasUsed <= 10 * gasLimit -> burn gasLimit = gasLimit - gasUsed) /\
  burn gasLimit <= burn gasLimit'.
Proof.
  intros Hr Hr' Hpos Hle. cbv beta zeta.
  rewrite !burn_of_spec by (done || lia). unfold burn_of.
  destruct Hr as [Hu Hl].
  assert (Hd : 10 * (11 * gasUsed / 10) <= 11 * gasUsed < 10 * (11 * gasUsed / 10) + 10).
  { pose proof (Z.div_mod (11 * gasUsed) 10). pose proof (Z.mod_pos_bound (11 * gasUsed) 10). lia. }
  set (o := gasLimit - 11 * gasUsed / 10). set (o' := gasLimit' - 11 * gasUsed / 10).
  repeat split.
  - apply Z.div_pos; nia.
  - apply Z.div_le_upper_bound; nia.
  - intros. rewrite Z.max_l by lia. by rewrite Z.mul_0_r, Z.div_0_l by lia.
  - intros. replace (Z.max 0 (Z.min o gasUsed)) with gasUsed by lia.
    by rewrite Z.div_mul by lia.
  - apply Z.div_le_mono; [lia|].
    assert (0 <= Z.max 0 (Z.min o gasUsed) <= Z.max 0 (Z.min o' gasUsed)) by lia. nia.
Qed.

Lemma overestimation_burn_shape_witness :
  snd (ComputeGasOverestimationBurn 1000 1100) = 0 /\
  snd (ComputeGasOverestimationBurn 1000 2100) = 1100 /\
  snd (ComputeGasOverestimationBurn 1000 1100) <= snd (ComputeGasOverestimationBurn 1000 1500).
Proof.
  split; [reflexivity|]. split; [reflexivity|].
  apply (overestimation_burn_shape 1000 1100 1500); unfold gas_in_range; lia.
Defined.

End Burn.

(** * Price lists: gas.go and gas_v0.go *)
Module Prices.

(** What the code stores in a charge's [Extra]: nothing, a string, a count, or
    a type name with a size. *)
Inductive Extra :=
  | NoExtra
  | ExtraString (s : string)
  | ExtraInt (n : Z)
  | ExtraTypeSize (ty : string) (size : Z).

Record GasCharge := mkGasCharge {
  Name : string;
  ExtraInfo : Extra;
  ComputeGas : Z;
  StorageGas : Z;
  VirtualCompute : Z;
  VirtualStorage : Z;
}.

Definition Total (g : GasCharge) : Z := ComputeGas g ⊞ StorageGas g.

Definition WithVirtual (g : GasCharge) (compute storage : Z) : GasCharge :=
  {| Name := Name g; ExtraInfo := ExtraInfo g; ComputeGas := ComputeGas g;
     StorageGas := StorageGas g; VirtualCompute := compute; VirtualStorage := storage |}.

Definition WithExtra (g : GasCharge) (extra : Extra) : GasCharge :=
  {| Name := Name g; ExtraInfo := extra; ComputeGas := ComputeGas g;
     StorageGas := StorageGas g; VirtualCompute := VirtualCompute g;
     VirtualStorage := VirtualStorage g |}.

Definition newGasCharge (name : string) (computeGas storageGas : Z) : GasCharge :=
  {| Name := name; ExtraInfo := NoExtra; ComputeGas := computeGas;
     StorageGas := storageGas; VirtualCompute := 0; VirtualStorage := 0 |}.

Inductive SigType := SigTypeSecp256k1 | SigTypeBLS | SigTypeOther (n : Z).
Inductive RegisteredSealProof :=
  | StackedDrg32GiBV1_1 | StackedDrg64GiBV1_1 | SealProofOther (n : Z).
Inductive RegisteredPoStProof :=
  | StackedDrgWindow512MiBV1 | StackedDrgWindow32GiBV1 | StackedDrgWindow64GiBV1
  | PoStProofOther (n : Z).

#[export] Instance SigType_eq_dec : EqDecision SigType.
Proof. solve_decision. Defined.
#[export] Instance RegisteredSealProof_eq_dec : EqDecision RegisteredSealProof.
Proof. solve_decision. Defined.
#[export] Instance RegisteredPoStProof_eq_dec : EqDecision RegisteredPoStProof.
Proof. solve_decision. Defined.

(** stepLookup in a map literal: its keys are distinct. *)
Fixpoint assoc {K V} `{EqDecision K} (k : K) (l : list (K * V)) : option V :=
  match l with
  | [] => None
  | (k', v) :: l => if decide (k = k') then Some v else assoc k l
  end.

Record scalingCost := mkScalingCost { flat : Z; scale : Z }.
Record step := mkStep { start : Z; cost : Z }.

(** The loop stops at the first step that starts after [x] and returns the cost
    of the step before it; [prev] is that previous cost, 0 when there is none. *)
Fixpoint stepLookup_from (prev : Z) (sc : list step) (x : Z) : Z :=
  match sc with
  | [] => prev
  | s :: sc => if start s >? x then prev else stepLookup_from (cost s) sc x
  end.
Definition stepLookup (sc : list step) (x : Z) : Z := stepLookup_from 0 sc x.

Record pricelistV0 := mkPricelistV0 {
  computeGasMulti : Z;
  storageGasMulti : Z;
  onChainMessageComputeBase : Z;
  onChainMessageStorageBase : Z;
  onChainMessageStoragePerByte : Z;
  onChainReturnValuePerByte : Z;
  sendBase : Z;
  sendTransferFunds : Z;
  sendTransferOnlyPremium : Z;
  sendInvokeMethod : Z;
  ipldGetBase : Z;
  ipldPutBase : Z;
  ipldPutPerByte : Z;
  createActorCompute : Z;
  createActorStorage : Z;
  deleteActor : Z;
  verifySignature : list (SigType * Z);
  hashingBase : Z;
  computeUnsealedSectorCidBase : Z;
  verifySealBase : Z;
  verifyAggregateSealBase : Z;
  verifyAggregateSealPer : list (RegisteredSealProof * Z);
  verifyAggregateSealSteps : list (RegisteredSealProof * list step);
  verifyPostLookup : list (RegisteredPoStProof * scalingCost);
  verifyPostDiscount : bool;
  verifyConsensusFault : Z;
  verifyReplicaUpdate : Z;
}.

Definition OnChainMessage (pl : pricelistV0) (msgSize : Z) : GasCharge :=
  newGasCharge "OnChainMessage" (onChainMessageComputeBase pl)
    ((onChainMessageStorageBase pl ⊞ onChainMessageStoragePerByte pl ⊠ msgSize)
       ⊠ storageGasMulti pl).

Definition OnChainReturnValue (pl : pricelistV0) (dataSize : Z) : GasCharge :=
  newGasCharge "OnChainReturnValue" 0
    (dataSize ⊠ onChainReturnValuePerByte pl ⊠ storageGasMulti pl).

(** [MethodSend] is the method number of a bare transfer (specs-actors). *)
Definition OnMethodInvocation (MethodSend : Z) (pl : pricelistV0) (value methodNum : Z)
    : GasCharge :=
  let ret := sendBase pl in
  let extra := ""%string in
  let '(ret, extra) :=
    if negb (value =? 0) then
      let ret := ret ⊞ sendTransferFunds pl in
      let ret := if methodNum =? MethodSend then ret ⊞ sendTransferOnlyPremium pl else ret in
      (ret, extra +:+ "t")
    else (ret, extra) in
  let '(ret, extra) :=
    if negb (methodNum =? MethodSend) then (ret ⊞ sendInvokeMethod pl, extra +:+ "i")
    else (ret, extra) in
  WithExtra (newGasCharge "OnMethodInvocation" ret 0) (ExtraString extra).

Definition OnIpldGet (pl : pricelistV0) : GasCharge :=
  WithVirtual (newGasCharge "OnIpldGet" (ipldGetBase pl) 0) 114617 0.

Definition OnIpldPut (pl : pricelistV0) (dataSize : Z) : GasCharge :=
  WithVirtual
    (WithExtra
       (newGasCharge "OnIpldPut" (ipldPutBase pl)
          (dataSize ⊠ ipldPutPerByte pl ⊠ storageGasMulti pl))
       (ExtraInt dataSize))
    400000 (dataSize ⊠ 1300).

Definition OnCreateActor (pl : pricelistV0) : GasCharge :=
  newGasCharge "OnCreateActor" (createActorCompute pl)
    (createActorStorage pl ⊠ storageGasMulti pl).

Definition OnDeleteActor (pl : pricelistV0) : GasCharge :=
  newGasCharge "OnDeleteActor" 0 (deleteActor pl ⊠ storageGasMulti pl).

(** [None] is the error "cost function for signature type not supported". *)
Definition OnVerifySignature (sigName : SigType -> string) (pl : pricelistV0)
    (sigType : SigType) (planTextSize : Z) : option GasCharge :=
  match assoc sigType (verifySignature pl) with
  | None => None
  | Some cost =>
      Some (WithExtra (newGasCharge "OnVerifySignature" cost 0)
              (ExtraTypeSize (sigName sigType) planTextSize))
  end.

Definition OnHashing (pl : pricelistV0) (dataSize : Z) : GasCharge :=
  WithExtra (newGasCharge "OnHashing" (hashingBase pl) 0) (ExtraInt dataSize).

Definition OnComputeUnsealedSectorCid (pl : pricelistV0) : GasCharge :=
  newGasCharge "OnComputeUnsealedSectorCid" (computeUnsealedSectorCidBase pl) 0.

Definition OnVerifySeal (pl : pricelistV0) : GasCharge :=
  newGasCharge "OnVerifySeal" (verifySealBase pl) 0.

(** A missing map entry reads as the zero value: 0, or the empty step list. *)
Definition OnVerifyAggregateSeals (pl : pricelistV0) (proofType : RegisteredSealProof)
    (numInfos : Z) : GasCharge :=
  let perProof :=
    match assoc proofType (verifyAggregateSealPer pl) with
    | Some p => p
    | None => default 0 (assoc StackedDrg32GiBV1_1 (verifyAggregateSealPer pl))
    end in
  let steps :=
    match assoc proofType (verifyAggregateSealSteps pl) with
    | Some s => s
    | None => default [] (assoc StackedDrg32GiBV1_1 (verifyAggregateSealSteps pl))
    end in
  newGasCharge "OnVerifyAggregateSeals" (perProof ⊠ numInfos ⊞ stepLookup steps numInfos) 0.

Definition OnVerifyReplicaUpdate (pl : pricelistV0) : GasCharge :=
  newGasCharge "OnVerifyReplicaUpdate" (verifyReplicaUpdate pl) 0.

(** [proofs] are the proof types of [info.Proofs]; [shortSize] is
    [SectorSize().ShortString()], [None] for a proof type without a size. *)
Definition OnVerifyPost (shortSize : RegisteredPoStProof -> option string)
    (pl : pricelistV0) (proofs : list RegisteredPoStProof) (numChallenged : Z) : GasCharge :=
  let '(sectorSize, proofType) :=
    match proofs with
    | [] => ("unknown"%string, PoStProofOther 0)
    | p :: _ => (default "unknown"%string (shortSize p), p)
    end in
  let cost :=
    match assoc proofType (verifyPostLookup pl) with
    | Some c => c
    | None => default (mkScalingCost 0 0) (assoc StackedDrgWindow512MiBV1 (verifyPostLookup pl))
    end in
  let gasUsed := flat cost ⊞ numChallenged ⊠ scale cost in
  let gasUsed := if verifyPostDiscount pl then gasUsed ⊘ 2 else gasUsed in
  WithExtra
    (WithVirtual (newGasCharge "OnVerifyPost" gasUsed 0)
       (117680921 ⊞ 43780 ⊠ numChallenged) 0)
    (ExtraTypeSize sectorSize numChallenged).

Definition OnVerifyConsensusFault (pl : pricelistV0) : GasCharge :=
  newGasCharge "OnVerifyConsensusFault" (verifyConsensusFault pl) 0.

(** ** The two price lists of the [Prices] table *)

Definition pricelist_genesis : pricelistV0 :=
  {| computeGasMulti := 1; storageGasMulti := 1000;
     onChainMessageComputeBase := 38863; onChainMessageStorageBase := 36;
     onChainMessageStoragePerByte := 1; onChainReturnValuePerByte := 1;
     sendBase := 29233; sendTransferFunds := 27500;
     sendTransferOnlyPremium := 159672; sendInvokeMethod := -5377;
     ipldGetBase := 75242; ipldPutBase := 84070; ipldPutPerByte := 1;
     createActorCompute := 1108454; createActorStorage := 36 + 40;
     deleteActor := - (36 + 40);
     verifySignature := [(SigTypeBLS, 16598605); (SigTypeSecp256k1, 1637292)];
     hashingBase := 31355; computeUnsealedSectorCidBase := 98647;
     verifySealBase := 2000; verifyAggregateSealBase := 0;
     verifyAggregateSealPer := []; verifyAggregateSealSteps := [];
     verifyPostLookup :=
       [(StackedDrgWindow512MiBV1, mkScalingCost 123861062 9226981);
        (StackedDrgWindow32GiBV1, mkScalingCost 748593537 85639);
        (StackedDrgWindow64GiBV1, mkScalingCost 748593537 85639)];
     verifyPostDiscount := true; verifyConsensusFault := 495422;
     verifyReplicaUpdate := 0 |}.

Definition pricelist_calico : pricelistV0 :=
  {| computeGasMulti := 1; storageGasMulti := 1300;
     onChainMessageComputeBase := 38863; onChainMessageStorageBase := 36;
     onChainMessageStoragePerByte := 1; onChainReturnValuePerByte := 1;
     sendBase := 29233; sendTransferFunds := 27500;
     sendTransferOnlyPremium := 159672; sendInvokeMethod := -5377;
     ipldGetBase := 114617; ipldPutBase := 353640; ipldPutPerByte := 1;
     createActorCompute := 1108454; createActorStorage := 36 + 40;
     deleteActor := - (36 + 40);
     verifySignature := [(SigTypeBLS, 16598605); (SigTypeSecp256k1, 1637292)];
     hashingBase := 31355; computeUnsealedSectorCidBase := 98647;
     verifySealBase := 2000; verifyAggregateSealBase := 0;
     verifyAggregateSealPer :=
       [(StackedDrg32GiBV1_1, 449900); (StackedDrg64GiBV1_1, 359272)];
     verifyAggregateSealSteps :=
       [(StackedDrg32GiBV1_1,
          [mkStep 4 103994170; mkStep 7 112356810; mkStep 13 122912610;
           mkStep 26 137559930; mkStep 52 162039100; mkStep 103 210960780;
           mkStep 205 318351180; mkStep 410 528274980]);
        (StackedDrg64GiBV1_1,
          [mkStep 4 102581240; mkStep 7 110803030; mkStep 13 120803700;
           mkStep 26 134642130; mkStep 52 157357890; mkStep 103 203017690;
           mkStep 205 304253590; mkStep 410 509880640])];
     verifyPostLookup :=
       [(StackedDrgWindow512MiBV1, mkScalingCost 117680921 43780);
        (StackedDrgWindow32GiBV1, mkScalingCost 117680921 43780);
        (StackedDrgWindow64GiBV1, mkScalingCost 117680921 43780)];
     verifyPostDiscount := false; verifyConsensusFault := 495422;
     verifyReplicaUpdate := 36316136 |}.

(** The table of price lists by first epoch, as a map.  [upgradeCalicoHeight] is
    [build.UpgradeCalicoHeight], which every network sets for itself. *)
Definition Prices (upgradeCalicoHeight : Z) : gmap Z pricelistV0 :=
  <[upgradeCalicoHeight := pricelist_calico]> {[0 := pricelist_genesis]}.

(** One iteration of the loop of [PricelistByEpoch]. *)
Definition better_price (epoch : Z) (best : Z * option pricelistV0) (e : Z * pricelistV0)
    : Z * option pricelistV0 :=
  if (e.1 >? best.1) && (e.1 <=? epoch) then (e.1, Some e.2) else best.

(** Go ranges over the map in an unspecified order, so the model takes the order:
    [entries] is any listing of the map.  [None] is the panic "no gas prices
    available". *)
Definition PricelistByEpoch_in (prices : gmap Z pricelistV0)
    (entries : list (Z * pricelistV0)) (epoch : Z) : option pricelistV0 :=
  (foldl (better_price epoch) (0, prices !! 0) entries).2.

Definition PricelistByEpoch (prices : gmap Z pricelistV0) (epoch : Z) : option pricelistV0 :=
  PricelistByEpoch_in prices (map_to_list prices) epoch.

(** ** Lemmas *)

Lemma stepLookup_from_skip prev sc x :
  Forall (fun s => x < start s) sc -> stepLookup_from prev sc x = prev.
Proof. destruct 1; simpl; [done|]. by destruct (Z.gtb_spec (start x0) x); [|lia]. Qed.

Lemma stepLookup_from_app prev sc1 s sc2 x :
  Forall (fun s => start s <= x) (sc1 ++ [s]) -> Forall (fun s => x < start s) sc2 ->
  stepLookup_from prev (sc1 ++ s :: sc2) x = cost s.
Proof.
  revert prev. induction sc1 as [|s1 sc1 IH]; intros prev H1 H2; simpl in *.
  - apply Forall_cons in H1 as [? _].
    destruct (Z.gtb_spec (start s) x); [lia|]. by apply stepLookup_from_skip.
  - apply Forall_cons in H1 as [? ?].
    destruct (Z.gtb_spec (start s1) x); [lia|]. by apply IH.
Qed.

(** The fold keeps the greatest key seen so far that is positive and not after
    the epoch. *)
Lemma better_price_fold epoch (prices : gmap Z pricelistV0) entries b :
  (forall e p, (e, p) ∈ entries -> prices !! e = Some p) ->
  b.2 = prices !! b.1 -> is_Some b.2 ->
  let r := foldl (better_price epoch) b entries in
  r.2 = prices !! r.1 /\ is_Some r.2 /\
  (r.1 = b.1 \/ b.1 < r.1 <= epoch) /\
  b.1 <= r.1 /\
  (forall e p, (e, p) ∈ entries -> e <= epoch -> e <= r.1 \/ e <= b.1).
Proof.
  cbv zeta. revert b. induction entries as [|[e p] entries IH]; intros b Hin Hb Hs; simpl.
  - repeat split; try done; try lia; try (by left). intros ?? []%not_elem_of_nil.
  - pose proof (Hin e p ltac:(by left)) as He.
    set (b' := better_price epoch b (e, p)).
    assert (b'.2 = prices !! b'.1 /\ is_Some b'.2) as [Hb' Hs'].
    { unfold b', better_price. case_match; simpl; rewrite ?He; eauto. }
    assert (b.1 <= b'.1 /\ (b'.1 = b.1 \/ b.1 < b'.1 <= epoch) /\ (e <= epoch -> e <= b'.1)).
    { unfold b', better_price; simpl. destruct (Z.gtb_spec e b.1), (Z.leb_spec e epoch); simpl; lia. }
    destruct (IH b') as (H1 & Hr & H2 & H3 & H4); [intros; apply Hin; by right|done..|].
    repeat split; try done; try lia.
    intros e' p' [?|?]%elem_of_cons ?; simplify_eq; [left; lia|].
    destruct (H4 _ _ ltac:(done) ltac:(done)); left; lia.
Qed.

(** ** Properties *)

(** For a step table whose starts increase, [stepLookup] charges the cost of the
    last step that starts at or before the number of proofs, and nothing below
    the first step. *)
Theorem stepLookup_last sc x :
  StronglySorted (fun a b => start a < start b) sc ->
  (Forall (fun s => x < start s) sc -> stepLookup sc x = 0) /\
  (forall s, s ∈ sc -> start s <= x ->
     (forall s', s' ∈ sc -> start s' <= x -> start s' <= start s) -> stepLookup sc x = cost s).
Proof.
  intros Hs. split; [apply stepLookup_from_skip|].
  intros s Hin Hle Hmax. apply list_elem_of_split in Hin as (l1 & l2 & ->).
  apply stepLookup_from_app.
  - apply Forall_app; split; [|by repeat constructor].
    apply Forall_forall. intros s' Hs'.
    pose proof (StronglySorted_app_1_elem_of _ _ _ s' s Hs Hs' ltac:(by left)). simpl in *. lia.
  - apply StronglySorted_app_1_r in Hs. inversion_clear Hs as [|?? _ Hall].
    rewrite Forall_forall in Hall |- *. intros s' Hs'. specialize (Hall s' Hs'). simpl in Hall.
    destruct (Z.le_gt_cases (start s') x); [|lia].
    specialize (Hmax s' ltac:(apply elem_of_app; right; by right) ltac:(lia)). lia.
Qed.

Lemma stepLookup_last_witness :
  stepLookup [mkStep 4 100; mkStep 7 200; mkStep 13 300] 12 = cost (mkStep 7 200).
Proof.
  apply (stepLookup_last [mkStep 4 100; mkStep 7 200; mkStep 13 300] 12).
  - repeat constructor; simpl; lia.
  - right. by left.
  - simpl; lia.
  - intros s' H. rewrite !elem_of_cons, elem_of_nil in H.
    destruct H as [->|[->|[->|[]]]]; simpl; lia.
Defined.

(** Whatever order Go ranges over the price table in, [PricelistByEpoch]
    returns the entry of the table with the greatest first epoch that is not
    after the given epoch (never a negative one, and the epoch-0 entry when no
    other applies); it never panics when the table has an epoch-0 entry. *)
Theorem PricelistByEpoch_greatest (prices : gmap Z pricelistV0) entries epoch :
  entries ≡ₚ map_to_list prices -> is_Some (prices !! 0) ->
  exists e, PricelistByEpoch_in prices entries epoch = prices !! e /\
    is_Some (prices !! e) /\ (e = 0 \/ 0 < e <= epoch) /\
    (forall e', is_Some (prices !! e') -> 0 <= e' -> e' <= epoch -> e' <= e).
Proof.
  intros Hperm H0. unfold PricelistByEpoch_in.
  assert (Hin : forall e p, (e, p) ∈ entries <-> prices !! e = Some p).
  { intros e p. rewrite Hperm. apply elem_of_map_to_list. }
  destruct (better_price_fold epoch prices entries (0, prices !! 0)) as (H1 & Hr & H2 & H3 & H4);
    [intros; by apply Hin|done..|]. simpl in *.
  exists (foldl (better_price epoch) (0, prices !! 0) entries).1.
  split; [done|]. split; [by rewrite <- H1|split; [done|]].
  intros e' [p' Hp'] ? ?. destruct (H4 e' p'); [by apply Hin|lia..].
Qed.

Lemma PricelistByEpoch_greatest_witness :
  PricelistByEpoch (Prices 265200) 300000 = Some pricelist_calico /\
  exists e, PricelistByEpoch_in (Prices 265200)
              [(265200, pricelist_calico); (0, pricelist_genesis)] 300000
            = Prices 265200 !! e /\ (e = 0 \/ 0 < e <= 300000).
Proof.
  split; [vm_compute; reflexivity|].
  destruct (PricelistByEpoch_greatest (Prices 265200)
              [(265200, pricelist_calico); (0, pricelist_genesis)] 300000)
    as (e & H1 & _ & H2 & _); [|by eexists|by exists e].
  unfold Prices. rewrite map_to_list_insert, map_to_list_singleton; done.
Defined.

End Prices.

(** * The gas counter of a runtime: chargeGasInternal in runtime.go *)
Module Meter.
Import Prices.

Record meter := mkMeter { gasAvailable : Z; gasUsed : Z }.

(** The boolean is false for the actor error [SysErrOutOfGas]; the tracing branch, which only
    records the charge, is not modelled. *)
Definition chargeGasInternal (m : meter) (gas : GasCharge) : meter * bool :=
  let toUse := Total gas in
  if gasUsed m >? gasAvailable m ⊟ toUse then
    ({| gasAvailable := gasAvailable m; gasUsed := gasAvailable m |}, false)
  else
    ({| gasAvailable := gasAvailable m; gasUsed := gasUsed m ⊞ toUse |}, true).

(** Charges that the price lists issue: a refund (deleting an actor) is small. *)
Definition meter_ok (m : meter) : Prop :=
  0 <= gasAvailable m < 2 ^ 63 /\ - 2 ^ 62 <= gasUsed m <= gasAvailable m.

(** A sequence of charges, stopping at the first failure as the panicking
    callers do. *)
Fixpoint chargeAll (m : meter) (gs : list GasCharge) : meter * bool :=
  match gs with
  | [] => (m, true)
  | g :: gs =>
      let '(m, ok) := chargeGasInternal m g in
      if ok then chargeAll m gs else (m, false)
  end.

Lemma charge_spec m gas :
  meter_ok m -> 0 <= Total gas < 2 ^ 63 ->
  chargeGasInternal m gas =
    if gasUsed m + Total gas <=? gasAvailable m
    then ({| gasAvailable := gasAvailable m; gasUsed := gasUsed m + Total gas |}, true)
    else ({| gasAvailable := gasAvailable m; gasUsed := gasAvailable m |}, false).
Proof.
  intros [? ?] ?. unfold chargeGasInternal.
  rewrite i64_sub_id by (unfold in_i64; lia).
  destruct (Z.gtb_spec (gasUsed m) (gasAvailable m - Total gas)),
    (Z.leb_spec (gasUsed m + Total gas) (gasAvailable m)); try lia; [done|].
  by rewrite i64_add_id by (unfold in_i64; lia).
Qed.

Lemma charge_ok_preserved m gas :
  meter_ok m -> 0 <= Total gas < 2 ^ 63 -> meter_ok (chargeGasInternal m gas).1.
Proof.
  intros Hm Hg. rewrite charge_spec by done. destruct Hm.
  unfold meter_ok. destruct (Z.leb_spec (gasUsed m + Total gas) (gasAvailable m)); simpl; lia.
Qed.

(** charging is overflow safe, as its comment claims: for every sequence of
    nonnegative charges from a well-formed counter, it succeeds exactly when the
    gas used plus the sum of the charges is within the available gas, and then
    the counter has grown by that sum; the first charge that does not fit sets
    the counter to the available gas.  The counter never exceeds the limit. *)
Theorem chargeAll_exact m gs :
  meter_ok m -> Forall (fun g => 0 <= Total g < 2 ^ 63) gs ->
  let sum := foldr (fun g acc => Total g + acc) 0 gs in
  let r := chargeAll m gs in
  meter_ok r.1 /\ gasAvailable r.1 = gasAvailable m /\
  (r.2 = true <-> gasUsed m + sum <= gasAvailable m) /\
  gasUsed r.1 = (if r.2 then gasUsed m + sum else gasAvailable m).
Proof.
  intros Hm Hgs. revert m Hm. induction Hgs as [|g gs Hg Hgs IH]; intros m Hm; simpl.
  { destruct Hm. split; [done|]. split; [done|]. split; [split; [lia|done]|lia]. }
  pose proof (charge_ok_preserved m g Hm Hg) as Hm'.
  assert (Hsum : 0 <= foldr (fun g acc => Total g + acc) 0 gs).
  { clear -Hgs. induction Hgs; simpl; lia. }
  rewrite charge_spec in * by done.
  destruct (Z.leb_spec (gasUsed m + Total g) (gasAvailable m)); simpl in *.
  - specialize (IH _ Hm'). destruct (chargeAll _ gs) as [m'' ok]. simpl in *.
    destruct IH as (Hok & Hav & Hiff & ->).
    split; [done|]. split; [done|]. split; [rewrite Hiff; lia|destruct ok; lia].
  - split; [done|]. split; [done|]. split; [|done]. split; [done|lia].
Qed.

Lemma chargeAll_exact_witness :
  chargeAll (mkMeter 100 0) [newGasCharge "a" 40 0; newGasCharge "b" 0 50] =
    (mkMeter 100 90, true) /\
  (chargeAll (mkMeter 100 0) [newGasCharge "a" 40 0; newGasCharge "b" 0 70]).2 = false /\
  meter_ok (chargeAll (mkMeter 100 0) [newGasCharge "a" 40 0; newGasCharge "b" 0 50]).1.
Proof.
  do 2 (split; [reflexivity|]).
  apply (chargeAll_exact (mkMeter 100 0) [newGasCharge "a" 40 0; newGasCharge "b" 0 50]).
  - unfold meter_ok; simpl; lia.
  - repeat apply Forall_cons_2; [vm_compute; done..|apply Forall_nil_2].
Defined.

End Meter.
