(* ===== verification/Types.v ===== *)
(** Chain data: addresses, actors, messages (src/chain/types/message.go,
    signedmessage.go, actor.go), block headers and the comparison of CID lists
    (blockheader.go), tipsets (tipset.go) and tipset keys (tipset_key.go).

    A CID is the byte string go-cid wraps.  Hashing is not part of this
    repository: the CID of a value, the BLAKE2b digest and the CID parser are
    arguments of the definitions that use them. *)

From S2P Require Import Prelude.

Abbreviation cid := string (only parsing).
Abbreviation bytes := string (only parsing).

(** * Addresses *)

(** go-address: one constructor per protocol. *)
Inductive address :=
  | Undef
  | IDAddr (n : Z)
  | SECP256K1Addr (payload : string)
  | ActorAddr (payload : string)
  | BLSAddr (payload : string).

Inductive protocol := ProtoUnknown | ProtoID | ProtoSECP256K1 | ProtoActor | ProtoBLS.

Definition Protocol (a : address) : protocol :=
  match a with
  | Undef => ProtoUnknown
  | IDAddr _ => ProtoID
  | SECP256K1Addr _ => ProtoSECP256K1
  | ActorAddr _ => ProtoActor
  | BLSAddr _ => ProtoBLS
  end.

#[export] Instance protocol_eq_dec : EqDecision protocol.
Proof. solve_decision. Defined.

#[export] Instance address_eq_dec : EqDecision address.
Proof. solve_decision. Defined.

#[export] Instance address_countable : Countable address.
Proof.
  refine (inj_countable'
    (fun a => match a with
              | Undef => inl tt
              | IDAddr n => inr (inl n)
              | SECP256K1Addr p => inr (inr (0%nat, p))
              | ActorAddr p => inr (inr (1%nat, p))
              | BLSAddr p => inr (inr (2%nat, p))
              end)
    (fun x => match x with
              | inl _ => Undef
              | inr (inl n) => IDAddr n
              | inr (inr (0%nat, p)) => SECP256K1Addr p
              | inr (inr (1%nat, p)) => ActorAddr p
              | inr (inr (_, p)) => BLSAddr p
              end) _).
  by intros [].
Defined.

(** * Actors *)

Record Actor := mkActor {
  Code : cid;
  Head : cid;
  Nonce : Z;
  Balance : Z;
}.

#[export] Instance Actor_eq_dec : EqDecision Actor.
Proof. solve_decision. Defined.

(** * Messages *)

(** A [big.Int] field holds a pointer that may be nil: [None] is the empty
    integer. *)
Record Message := mkMessage {
  Version : Z;
  To : address;
  From : address;
  msgNonce : Z;
  Value : option Z;
  GasLimit : Z;
  GasFeeCap : option Z;
  GasPremium : option Z;
  Method : Z;
  Params : bytes;
}.

#[export] Instance Message_eq_dec : EqDecision Message.
Proof. solve_decision. Defined.

Definition FilBase : Z := 2000000000.
Definition FilecoinPrecision : Z := 1000000000000000000.
Definition FromFil (i : Z) : Z := i * FilecoinPrecision.
Definition TotalFilecoinInt : Z := FromFil FilBase.
Definition BlockGasLimit : Z := 10000000000.
Definition BlockGasTarget : Z := BlockGasLimit ⊘ 2.
Definition BaseFeeMaxChangeDenom : Z := 8.
Definition MinimumBaseFee : Z := 100.
Definition PackingEfficiencyNum : Z := 4.
Definition PackingEfficiencyDenom : Z := 5.

(** [NewInt(uint64(m.GasLimit))]: the conversion reads a negative limit as a
    large unsigned number. *)
Definition RequiredFunds (feeCap gasLimit : Z) : Z := feeCap * wrapu64 gasLimit.

Inductive msg_error :=
  | VersionUnsupported | ToEmpty | ToInvalid | FromEmpty
  | ValueNil | ValueNegative | ValueTooLarge
  | FeeCapNil | FeeCapNegative | PremiumNil | PremiumNegative
  | FeeCapBelowPremium | GasLimitTooLarge | GasLimitTooSmall.

(** [None] when the message is valid.  [ZeroAddress] is the all-zero BLS address
    that [build] parses from its string form. *)
Definition ValidForBlockInclusion (ZeroAddress : address) (m : Message)
    (minGas version : Z) : option msg_error :=
  if negb (Version m =? 0) then Some VersionUnsupported
  else if bool_decide (To m = Undef) then Some ToEmpty
  else if bool_decide (To m = ZeroAddress) && (7 <=? version) then Some ToInvalid
  else if bool_decide (From m = Undef) then Some FromEmpty
  else match Value m with
  | None => Some ValueNil
  | Some value =>
  if value <? 0 then Some ValueNegative
  else if value >? TotalFilecoinInt then Some ValueTooLarge
  else match GasFeeCap m with
  | None => Some FeeCapNil
  | Some feeCap =>
  if feeCap <? 0 then Some FeeCapNegative
  else match GasPremium m with
  | None => Some PremiumNil
  | Some premium =>
  if premium <? 0 then Some PremiumNegative
  else if premium >? feeCap then Some FeeCapBelowPremium
  else if GasLimit m >? BlockGasLimit then Some GasLimitTooLarge
  else if GasLimit m <? minGas then Some GasLimitTooSmall
  else None
  end end end.

(** Case analysis on the outermost test of a chain of guards. *)
Ltac split_guard :=
  let on_test b :=
    let E := fresh "E" in
    destruct b eqn:E; [try discriminate|];
    rewrite ?andb_true_iff, ?andb_false_iff, ?negb_false_iff, ?negb_true_iff,
      ?bool_decide_eq_true, ?bool_decide_eq_false, ?Z.eqb_eq, ?Z.eqb_neq,
      ?Z.gtb_ltb, ?Z.ltb_lt, ?Z.ltb_ge, ?Z.leb_le, ?Z.leb_gt in E in
  match goal with
  | |- (if ?b then _ else _) = _ -> _ => on_test b
  | |- (if ?b then _ else _) = _ => on_test b
  | |- match ?o with Some _ => _ | None => _ end = _ -> _ => destruct o; [|try discriminate]
  end.

(** What an included message satisfies. *)
Lemma ValidForBlockInclusion_None zero m minGas version :
  ValidForBlockInclusion zero m minGas version = None <->
  Version m = 0 /\ To m <> Undef /\ (To m = zero -> version < 7) /\ From m <> Undef /\
  exists value feeCap premium,
    Value m = Some value /\ GasFeeCap m = Some feeCap /\ GasPremium m = Some premium /\
    0 <= value <= TotalFilecoinInt /\ 0 <= premium <= feeCap /\
    minGas <= GasLimit m <= BlockGasLimit.
Proof.
  unfold ValidForBlockInclusion. split.
  - repeat split_guard. intros _. split_and!; try done.
    + intros Hz. by destruct E1.
    + eexists _, _, _. split_and!; first [done | lia].
  - intros (Hv & Ht & Hz & Hf & v & f & p & -> & -> & -> & ? & ? & ?).
    repeat (rewrite bool_decide_eq_false_2 by done).
    rewrite Hv. simpl.
    destruct (bool_decide_reflect (To m = zero)) as [He|_]; simpl.
    + specialize (Hz He). destruct (Z.leb_spec 7 version); [lia|].
      repeat split_guard; done || lia.
    + repeat split_guard; done || lia.
Qed.
