(* ===== verification/Tipset.v ===== *)
(** Block headers, tipsets and tipset keys: src/chain/types/blockheader.go,
    tipset.go and tipset_key.go.

    [NewTipSet] sorts its blocks by ticket and checks that they agree on height
    and parents; the theorems show that the result does not depend on the order
    of the blocks given, that a key determines its CIDs, and what the
    order-ignoring comparison of CID lists decides. *)

From S2P Require Import Prelude Types.

(** * CID lists *)

(** The map [s] of the Go code only ever holds [true]: membership in the list. *)
Definition CidArrsEqual (a b : list cid) : bool :=
  if negb (Nat.eqb (length a) (length b)) then false
  else forallb (fun c => bool_decide (c ∈ a)) b.

Definition CidArrsSubset (a b : list cid) : bool :=
  forallb (fun c => bool_decide (c ∈ b)) a.

Definition CidArrsContains (a : list cid) (b : cid) : bool :=
  existsb (fun e => bool_decide (e = b)) a.

Lemma forallb_elem_of (a b : list cid) :
  forallb (fun c => bool_decide (c ∈ a)) b = true <-> b ⊆ a.
Proof.
  rewrite forallb_forall. split.
  - intros H x Hx. apply list_elem_of_In, H in Hx. by apply bool_decide_eq_true in Hx.
  - intros H x Hx. apply bool_decide_eq_true, H. by apply list_elem_of_In.
Qed.

(** A duplicate-free list contained in one of the same length is a permutation
    of it. *)
Lemma NoDup_subset_perm (a b : list cid) :
  NoDup b -> b ⊆ a -> length a = length b -> a ≡ₚ b.
Proof.
  intros Hnd Hsub Hlen. symmetry. apply submseteq_length_Permutation; [|lia].
  apply NoDup_submseteq; [done|]. intros x Hx. by apply Hsub.
Qed.

(** * Block headers *)

Record BlockHeader := mkBlockHeader {
  Miner : address;
  Ticket : bytes;                      (* the ticket's VRFProof *)
  WinCount : Z;                        (* of the election proof *)
  ElectionVRF : bytes;
  BeaconEntries : list (Z * bytes);
  Parents : list cid;
  ParentWeight : Z;
  Height : Z;
  ParentStateRoot : cid;
  ParentMessageReceipts : cid;
  Messages : cid;
  Timestamp : Z;
  ForkSignaling : Z;
  ParentBaseFee : Z;
}.

#[export] Instance BlockHeader_eq_dec : EqDecision BlockHeader.
Proof. solve_decision. Defined.

(** [bytes.Compare(a, b) < 0] *)
Definition bytes_lt (a b : bytes) : bool := String.ltb a b.

Lemma bytes_lt_false a b : bytes_lt a b = false <-> String.le b a.
Proof.
  unfold bytes_lt, String.ltb, String.le, String.leb.
  rewrite (String.compare_antisym b a). by destruct (String.compare a b).
Qed.

Lemma bytes_lt_asym a b : bytes_lt a b = true -> bytes_lt b a = false.
Proof.
  unfold bytes_lt, String.ltb. rewrite (String.compare_antisym b a).
  by destruct (String.compare a b).
Qed.

Section Tipsets.
(** The CID of a header (its CBOR encoding hashed) and the BLAKE2b-256 digest. *)
Context (header_cid : BlockHeader -> cid) (blake2b : bytes -> bytes).

Definition LastTicket (blk : BlockHeader) : bytes := Ticket blk.
Definition Ticket_Equals (t o : bytes) : bool := bool_decide (t = o).
Definition Ticket_Less (t o : bytes) : bool := bytes_lt (blake2b t) (blake2b o).

Definition tipsetSortFunc (bi bj : BlockHeader) : bool :=
  let ti := LastTicket bi in
  let tj := LastTicket bj in
  if Ticket_Equals ti tj then bytes_lt (header_cid bi) (header_cid bj)
  else Ticket_Less ti tj.

Record TipSet := mkTipSet {
  Cids : list cid;
  Blocks : list BlockHeader;
  ts_height : Z;
}.

Inductive ts_error := NoBlocks | MismatchingHeights | MismatchingNumParents | MismatchingParents.

(** The loop over [blks[1:]], accumulating the CIDs. *)
Fixpoint check_blocks (b0 : BlockHeader) (cids : list cid) (blks : list BlockHeader)
    : result ts_error (list cid) :=
  match blks with
  | [] => Ok cids
  | b :: blks =>
      if negb (Height b =? Height b0) then Err MismatchingHeights
      else if negb (Nat.eqb (length (Parents b0)) (length (Parents b)))
      then Err MismatchingNumParents
      else if negb (bool_decide (Parents b = Parents b0)) then Err MismatchingParents
      else check_blocks b0 (cids ++ [header_cid b]) blks
  end.

Definition NewTipSet (blks : list BlockHeader) : result ts_error TipSet :=
  match sort_by tipsetSortFunc blks with
  | [] => Err NoBlocks
  | b0 :: rest =>
      let? cids := check_blocks b0 [header_cid b0] rest in
      Ok {| Cids := cids; Blocks := b0 :: rest; ts_height := Height b0 |}
  end.

Definition TipSet_Equals (ts ots : option TipSet) : bool :=
  match ts, ots with
  | None, None => true
  | Some ts, Some ots =>
      if negb (ts_height ts =? ts_height ots) then false
      else if negb (Nat.eqb (length (Cids ts)) (length (Cids ots))) then false
      else bool_decide (Cids ts = Cids ots)
  | _, _ => false
  end.

Definition MinTimestamp (b0 : BlockHeader) (rest : list BlockHeader) : Z :=
  foldl (fun m b => if Timestamp b <? m then Timestamp b else m) (Timestamp b0) rest.

Definition MinTicketBlock (b0 : BlockHeader) (rest : list BlockHeader) : BlockHeader :=
  foldl (fun m b => if Ticket_Less (LastTicket b) (LastTicket m) then b else m) b0 rest.

Definition Contains (ts : TipSet) (oc : cid) : bool :=
  existsb (fun c => bool_decide (c = oc)) (Cids ts).

Definition IsChildOf (tsParents : list cid) (height : Z) (parent : TipSet) : bool :=
  CidArrsEqual tsParents (Cids parent) && (height >? ts_height parent).

(** ** Lemmas *)

(** Blocks that can be told apart: different blocks have different CIDs and
    different tickets have different digests. *)
Definition distinguishable (blks : list BlockHeader) : Prop :=
  (forall a b, a ∈ blks -> b ∈ blks -> header_cid a = header_cid b -> a = b) /\
  (forall a b, a ∈ blks -> b ∈ blks -> blake2b (Ticket a) = blake2b (Ticket b) ->
     Ticket a = Ticket b).

Context (all : list BlockHeader) (Hall : distinguishable all).

(** On such blocks the comparison is the lexicographic order of (digest, CID). *)
Lemma not_after_iff x y :
  x ∈ all -> y ∈ all ->
  not_after tipsetSortFunc x y <->
  String.le (blake2b (Ticket x)) (blake2b (Ticket y)) /\
  (blake2b (Ticket x) = blake2b (Ticket y) -> String.le (header_cid x) (header_cid y)).
Proof.
  intros Hx Hy. unfold not_after, tipsetSortFunc, Ticket_Equals, Ticket_Less, LastTicket.
  case_bool_decide as E.
  - rewrite bytes_lt_false, E. naive_solver.
  - rewrite bytes_lt_false. split; [|naive_solver]. intros Hle. split; [done|].
    intros Hd. destruct E. symmetry. by apply Hall.
Qed.

Lemma sortfunc_asym x y : tipsetSortFunc x y = true -> tipsetSortFunc y x = false.
Proof.
  unfold tipsetSortFunc, Ticket_Equals, Ticket_Less, LastTicket.
  do 2 case_bool_decide; try congruence; apply bytes_lt_asym.
Qed.

Lemma not_after_trans_blocks x y z :
  x ∈ all -> y ∈ all -> z ∈ all ->
  not_after tipsetSortFunc x y -> not_after tipsetSortFunc y z ->
  not_after tipsetSortFunc x z.
Proof.
  intros Hx Hy Hz. rewrite !not_after_iff by done. intros [H1 H2] [H3 H4].
  split; [by transitivity (blake2b (Ticket y))|]. intros E. rewrite E in *.
  assert (blake2b (Ticket y) = blake2b (Ticket z)) as E' by (by apply (anti_symm String.le)).
  transitivity (header_cid y); auto.
Qed.

Lemma not_after_antisym x y :
  x ∈ all -> y ∈ all ->
  not_after tipsetSortFunc x y -> not_after tipsetSortFunc y x -> x = y.
Proof.
  intros Hx Hy. rewrite !not_after_iff by done. intros [H1 H2] [H3 H4].
  assert (E : blake2b (Ticket x) = blake2b (Ticket y)) by (by apply (anti_symm String.le)).
  apply Hall; [done..|]. apply (anti_symm String.le); auto.
Qed.

Lemma sort_blocks_perm blks : blks ≡ₚ all ->
  sort_by tipsetSortFunc blks = sort_by tipsetSortFunc all.
Proof.
  intros Hperm. symmetry. apply (sort_by_unique tipsetSortFunc (fun b => b ∈ all)).
  - intros. by apply sortfunc_asym.
  - apply not_after_trans_blocks.
  - by apply Forall_forall.
  - done.
  - intros. by apply not_after_antisym.
Qed.

Lemma check_blocks_ok b0 cids blks r :
  check_blocks b0 cids blks = Ok r <->
  Forall (fun b => Height b = Height b0 /\ Parents b = Parents b0) blks /\
  r = cids ++ (header_cid <$> blks).
Proof.
  revert cids. induction blks as [|b blks IH]; intros cids; simpl.
  - rewrite app_nil_r. split; [intros [= ->]; auto|intros [_ ->]; done].
  - rewrite Forall_cons.
    destruct (Z.eqb_spec (Height b) (Height b0)); simpl; [|intuition congruence].
    destruct (Nat.eqb_spec (length (Parents b0)) (length (Parents b))); simpl;
      [|intuition congruence].
    case_bool_decide; simpl; [|intuition congruence].
    rewrite IH, <- app_assoc. simpl. intuition congruence.
Qed.

(** The well-formedness of a tipset. *)
Definition tipset_wf (ts : TipSet) : Prop :=
  Blocks ts <> [] /\ Cids ts = header_cid <$> Blocks ts /\
  Forall (fun b => Height b = ts_height ts) (Blocks ts) /\
  (forall a b, a ∈ Blocks ts -> b ∈ Blocks ts -> Parents a = Parents b).

Lemma NewTipSet_ok blks ts :
  NewTipSet blks = Ok ts ->
  tipset_wf ts /\ Blocks ts = sort_by tipsetSortFunc blks.
Proof.
  unfold NewTipSet. destruct (sort_by tipsetSortFunc blks) as [|b0 rest]; [done|].
  intros (cids & Hc & [= <-])%bind_result_ok. simpl.
  apply check_blocks_ok in Hc as [Hf ->].
  split; [|done]. split_and!; simpl; [done|done| |].
  - constructor; [done|]. eapply Forall_impl; [done|]. naive_solver.
  - assert (Hp : forall b, b ∈ b0 :: rest -> Parents b = Parents b0).
    { intros b [->|Hb]%elem_of_cons; [done|].
      rewrite Forall_forall in Hf. naive_solver. }
    intros a b Ha Hb. by rewrite (Hp a), (Hp b).
Qed.
End Tipsets.

(** * Tipset keys *)

Fixpoint string_drop (n : nat) (s : string) : string :=
  match n, s with
  | O, _ => s
  | S n, EmptyString => EmptyString
  | S n, String _ s => string_drop n s
  end.

Section Keys.
#[local] Arguments String.append !_ _ /.

(** go-cid's [CidFromBytes]: the length read and the CID, or an error. *)
Context (CidFromBytes : bytes -> option (nat * cid)).

Definition encodeKey (cids : list cid) : bytes := foldl String.append EmptyString cids.

Inductive key_error := InvalidKey | OutOfFuel.

(** The loop of [decodeKey] on the bytes not yet read. *)
Fixpoint decodeKey_loop (fuel : nat) (cids : list cid) (encoded : bytes)
    : result key_error (list cid) :=
  match encoded with
  | EmptyString => Ok cids
  | _ =>
      match fuel with
      | O => Err OutOfFuel
      | S fuel =>
          match CidFromBytes encoded with
          | None => Err InvalidKey
          | Some (nr, c) => decodeKey_loop fuel (cids ++ [c]) (string_drop nr encoded)
          end
      end
  end.

Definition decodeKey (encoded : bytes) : result key_error (list cid) :=
  decodeKey_loop (String.length encoded) [] encoded.

Definition NewTipSetKey (cids : list cid) : bytes := encodeKey cids.
Definition TipSetKeyFromBytes (encoded : bytes) : result key_error bytes :=
  let? _ := decodeKey encoded in Ok encoded.
Definition IsEmpty (k : bytes) : bool := Nat.eqb (String.length k) 0.

(** CIDs are self-describing: the parser reads back a CID followed by anything. *)
Definition self_describing (c : cid) : Prop :=
  c <> EmptyString /\ forall rest, CidFromBytes (c +:+ rest) = Some (String.length c, c).

Lemma string_append_assoc (a b c : string) : (a +:+ b) +:+ c = a +:+ (b +:+ c).
Proof. induction a as [|x a IH]; simpl; congruence. Qed.

Lemma string_append_nil (a : string) : a +:+ EmptyString = a.
Proof. induction a as [|x a IH]; simpl; congruence. Qed.

Lemma string_drop_app a b : string_drop (String.length a) (a +:+ b) = b.
Proof. induction a; simpl; done. Qed.

Lemma string_length_app a b :
  String.length (a +:+ b) = (String.length a + String.length b)%nat.
Proof. induction a; simpl; auto. Qed.

Lemma foldl_append_acc acc cids :
  foldl String.append acc cids = acc +:+ foldl String.append EmptyString cids.
Proof.
  revert acc. induction cids as [|c cids IH]; intros acc; simpl; [by rewrite string_append_nil|].
  rewrite IH, (IH c). apply string_append_assoc.
Qed.

Lemma decodeKey_loop_encode fuel acc cids :
  Forall self_describing cids -> (String.length (encodeKey cids) <= fuel)%nat ->
  decodeKey_loop fuel acc (encodeKey cids) = Ok (acc ++ cids).
Proof.
  intros Hs. revert fuel acc. induction Hs as [|c cids [Hne Hc] Hs IH]; intros fuel acc Hf.
  - rewrite app_nil_r. by destruct fuel.
  - unfold encodeKey in *. simpl in *. rewrite foldl_append_acc in *.
    rewrite string_length_app in Hf.
    destruct fuel as [|fuel]; [destruct c; simpl in *; [congruence|lia]|].
    destruct (c +:+ foldl String.append "" cids) as [|x s] eqn:E; [destruct c; simpl in E; congruence|].
    simpl. rewrite <- E, Hc, string_drop_app, IH.
    + by rewrite <- app_assoc.
    + destruct c; simpl in *; [congruence|lia].
Qed.
End Keys.

(** * Properties *)

(** the tipset built from a set of blocks does not depend on the order the
    blocks are given in, provided different blocks have different CIDs and
    different tickets different digests; this is what makes the tipset key
    canonical. *)
Theorem NewTipSet_canonical header_cid blake2b blks blks' :
  distinguishable header_cid blake2b blks -> blks' ≡ₚ blks ->
  NewTipSet header_cid blake2b blks' = NewTipSet header_cid blake2b blks.
Proof. intros Hd Hp. unfold NewTipSet. by rewrite (sort_blocks_perm _ _ blks Hd blks' Hp). Qed.

Definition example_block (ticket : bytes) (height : Z) : BlockHeader :=
  {| Miner := IDAddr 1000; Ticket := ticket; WinCount := 1; ElectionVRF := "";
     BeaconEntries := []; Parents := ["p"%string]; ParentWeight := 0; Height := height;
     ParentStateRoot := "s"; ParentMessageReceipts := "r"; Messages := ticket;
     Timestamp := 0; ForkSignaling := 0; ParentBaseFee := 100 |}.

Lemma NewTipSet_canonical_witness :
  let b1 := example_block "b" 5 in let b2 := example_block "a" 5 in
  NewTipSet Messages id [b1; b2] = NewTipSet Messages id [b2; b1] /\
  NewTipSet Messages id [b2; b1] = Ok (mkTipSet ["a"; "b"]%string [b2; b1] 5).
Proof.
  cbv zeta. split; [|reflexivity].
  apply (NewTipSet_canonical Messages id [example_block "a" 5; example_block "b" 5]).
  - split; intros a b; rewrite !elem_of_cons, !elem_of_nil;
      intros [->|[->|[]]] [->|[->|[]]]; simpl; congruence.
  - apply Permutation_swap.
Defined.

(** [NewTipSet] succeeds exactly on a nonempty list of blocks that agree on
    height and parents, and then returns a well-formed tipset with exactly these
    blocks, their CIDs in block order. *)
Theorem NewTipSet_succeeds_iff header_cid blake2b blks :
  (exists ts, NewTipSet header_cid blake2b blks = Ok ts /\
     tipset_wf header_cid ts /\ Blocks ts ≡ₚ blks) <->
  blks <> [] /\
  (forall a b, a ∈ blks -> b ∈ blks -> Height a = Height b /\ Parents a = Parents b).
Proof.
  split.
  - intros (ts & _ & (Hne & _ & Hh & Hp) & Hperm). split.
    + intros ->. by apply Permutation_nil_r in Hperm.
    + intros a b Ha Hb. rewrite <- Hperm in Ha, Hb. rewrite Forall_forall in Hh.
      split; [by rewrite !Hh|auto].
  - intros [Hne Hagree].
    pose proof (sort_by_perm (tipsetSortFunc header_cid blake2b) blks) as Hperm.
    destruct (sort_by (tipsetSortFunc header_cid blake2b) blks) as [|b0 rest] eqn:E.
    { by apply Permutation_nil_l in Hperm. }
    assert (Hok : check_blocks header_cid b0 [header_cid b0] rest
                  = Ok ([header_cid b0] ++ (header_cid <$> rest))).
    { apply check_blocks_ok. split; [|done]. apply Forall_forall. intros b Hb.
      apply Hagree; rewrite <- Hperm; [by right|by left]. }
    assert (Hnew : NewTipSet header_cid blake2b blks =
                   Ok (mkTipSet (header_cid <$> b0 :: rest) (b0 :: rest) (Height b0))).
    { unfold NewTipSet. rewrite E, Hok. done. }
    eexists. split; [exact Hnew|]. destruct (NewTipSet_ok _ _ _ _ Hnew) as [Hwf _].
    by split.
Qed.

(** The block with the least ticket of a tipset is its first block: the scan
    of [MinTicketBlock] never finds a smaller ticket in a tipset that [NewTipSet]
    built. *)
Theorem MinTicketBlock_first header_cid blake2b blks ts b0 rest :
  distinguishable header_cid blake2b blks ->
  NewTipSet header_cid blake2b blks = Ok ts -> Blocks ts = b0 :: rest ->
  MinTicketBlock blake2b b0 rest = b0.
Proof.
  intros Hd Hnew Hb. apply NewTipSet_ok in Hnew as [_ Hs]. rewrite Hb in Hs.
  pose proof (sort_by_perm (tipsetSortFunc header_cid blake2b) blks) as Hperm.
  assert (Hsorted : StronglySorted (not_after (tipsetSortFunc header_cid blake2b)) (b0 :: rest)).
  { rewrite Hs. apply (sort_by_sorted _ (fun b => b ∈ blks)).
    - intros. by apply sortfunc_asym.
    - by apply not_after_trans_blocks.
    - by apply Forall_forall. }
  rewrite <- Hs in Hperm. inversion_clear Hsorted as [|?? _ Hall].
  assert (Hmin : Forall (fun b => Ticket_Less blake2b (Ticket b) (Ticket b0) = false) rest).
  { rewrite Forall_forall in *. intros b Hin. specialize (Hall b Hin).
    assert (b0 ∈ blks /\ b ∈ blks) as [H0 H1] by (rewrite <- Hperm; split; [by left|by right]).
    apply (not_after_iff _ _ blks Hd b0 b H0 H1) in Hall as [Hle _]. by apply bytes_lt_false. }
  clear -Hmin. unfold MinTicketBlock, LastTicket.
  induction Hmin as [|b rest Hlt _ IH]; simpl; [done|]. by rewrite Hlt.
Qed.

Lemma MinTicketBlock_first_witness :
  MinTicketBlock id (example_block "a" 5) [example_block "b" 5] = example_block "a" 5.
Proof.
  apply (MinTicketBlock_first Messages id [example_block "b" 5; example_block "a" 5]
           (mkTipSet ["a"; "b"]%string [example_block "a" 5; example_block "b" 5] 5)).
  - split; intros a b; rewrite !elem_of_cons, !elem_of_nil;
      intros [->|[->|[]]] [->|[->|[]]]; simpl; congruence.
  - reflexivity.
  - reflexivity.
Defined.

(** decoding the key of a list of self-describing CIDs gives the list back;
    in particular different lists of CIDs have different keys, and the decoding
    loop terminates. *)
Theorem TipSetKey_roundtrip CidFromBytes cids cids' :
  Forall (self_describing CidFromBytes) cids -> Forall (self_describing CidFromBytes) cids' ->
  decodeKey CidFromBytes (NewTipSetKey cids) = Ok cids /\
  TipSetKeyFromBytes CidFromBytes (NewTipSetKey cids) = Ok (NewTipSetKey cids) /\
  (NewTipSetKey cids = NewTipSetKey cids' -> cids = cids').
Proof.
  intros H H'. unfold TipSetKeyFromBytes, NewTipSetKey, decodeKey.
  pose proof (decodeKey_loop_encode CidFromBytes _ [] cids H (le_n _)) as E.
  pose proof (decodeKey_loop_encode CidFromBytes _ [] cids' H' (le_n _)) as E'.
  split_and!; [done|by rewrite E|]. intros Hk. rewrite Hk, E' in E. by injection E.
Qed.

(** A parser of one-byte CIDs, to instantiate the hypothesis. *)
Definition one_byte_cid (s : bytes) : option (nat * cid) :=
  match s with EmptyString => None | String c _ => Some (1%nat, String c EmptyString) end.

Lemma TipSetKey_roundtrip_witness :
  decodeKey one_byte_cid (NewTipSetKey ["x"; "y"]%string) = Ok ["x"; "y"]%string.
Proof.
  apply (TipSetKey_roundtrip one_byte_cid ["x"; "y"]%string []);
    repeat apply Forall_cons_2; try apply Forall_nil_2; by split.
Defined.

(** The order-ignoring comparison of CID lists decides equality up to order
    when the second list has no duplicates; with duplicates it also accepts
    lists that are not permutations of each other. *)
Theorem CidArrsEqual_perm a b :
  (NoDup b -> CidArrsEqual a b = true <-> a ≡ₚ b) /\
  (exists x y, CidArrsEqual [x; y] [x; x] = true /\ ~ [x; y] ≡ₚ [x; x]).
Proof.
  split.
  - intros Hnd. unfold CidArrsEqual. destruct (Nat.eqb_spec (length a) (length b)) as [Hl|Hl]; simpl.
    + rewrite forallb_elem_of. split; [intros; by apply NoDup_subset_perm|].
      intros Hp x Hx. by rewrite Hp.
    + split; [done|]. intros Hp%Permutation_length. done.
  - exists "x"%string, "y"%string. split; [reflexivity|].
    intros Hp. assert (Hin : "y"%string ∈ ["x"; "x"]%string) by (rewrite <- Hp; right; by left).
    rewrite !elem_of_cons, elem_of_nil in Hin. naive_solver.
Qed.
