(* ===== verification/BaseFee.v ===== *)
(** The base fee: src/chain/store/basefee.go.

    [ComputeNextBaseFee] moves the fee towards its equilibrium by at most an
    eighth per epoch; [ComputeBaseFee] feeds it the gas limits of the distinct
    messages of a tipset. *)

From S2P Require Import Prelude Types Tipset.

(** [upgradeSmokeHeight] is [build.UpgradeSmokeHeight].  A tipset has at least
    one block, so the Go division by [noOfBlocks] does not panic. *)
Definition ComputeNextBaseFee (upgradeSmokeHeight : Z)
    (baseFee gasLimitUsed noOfBlocks epoch : Z) : Z :=
  let delta :=
    if epoch >? upgradeSmokeHeight then
      gasLimitUsed ⊘ noOfBlocks ⊟ BlockGasTarget
    else
      (PackingEfficiencyDenom ⊠ gasLimitUsed) ⊘ (noOfBlocks ⊠ PackingEfficiencyNum)
        ⊟ BlockGasTarget in
  let delta := if delta >? BlockGasTarget then BlockGasTarget else delta in
  let delta := if delta <? - BlockGasTarget then - BlockGasTarget else delta in
  let change := baseFee * delta in
  let change := big_div change BlockGasTarget in
  let change := big_div change BaseFeeMaxChangeDenom in
  let nextBaseFee := baseFee + change in
  if nextBaseFee <? MinimumBaseFee then MinimumBaseFee else nextBaseFee.

Section ComputeBaseFee.
(** Network constants, and the messages of a block with their CIDs and gas
    limits as the chain store loads them: BLS messages, then secp messages;
    [None] is a load error. *)
Context (upgradeSmokeHeight upgradeBreezeHeight breezeGasTampingDuration : Z).
Context (MessagesForBlock : BlockHeader -> option (list (cid * Z) * list (cid * Z))).

(** One iteration of the inner loops: a message not seen yet adds its limit. *)
Definition count_message (st : Z * gset cid) (m : cid * Z) : Z * gset cid :=
  if bool_decide (m.1 ∈ st.2) then st else (st.1 ⊞ m.2, {[m.1]} ∪ st.2).

Fixpoint count_blocks (st : Z * gset cid) (blks : list BlockHeader) : option (Z * gset cid) :=
  match blks with
  | [] => Some st
  | b :: blks =>
      match MessagesForBlock b with
      | None => None
      | Some (msg1, msg2) =>
          count_blocks (foldl count_message (foldl count_message st msg1) msg2) blks
      end
  end.

(** The epochs after the Breeze upgrade in which the fee is fixed. *)
Definition in_tamping_window (height : Z) : bool :=
  (0 <=? upgradeBreezeHeight) && (height >? upgradeBreezeHeight)
  && (height <? upgradeBreezeHeight ⊞ breezeGasTampingDuration).

(** [None] is an error loading messages (the fee returned with it is unused). *)
Definition ComputeBaseFee (ts : TipSet) : option Z :=
  if in_tamping_window (ts_height ts) then Some 100
  else
    match count_blocks (0, ∅) (Blocks ts), Blocks ts with
    | Some (totalLimit, _), b0 :: _ =>
        Some (ComputeNextBaseFee upgradeSmokeHeight (ParentBaseFee b0) totalLimit
                (Z.of_nat (length (Blocks ts))) (ts_height ts))
    | _, _ => None
    end.

(** The messages of the blocks, in the order they are visited. *)
Definition tipset_messages (blks : list BlockHeader) : list (cid * Z) :=
  blks ≫= (fun b => match MessagesForBlock b with
                    | Some (m1, m2) => m1 ++ m2
                    | None => [] end).

(** ** Lemmas *)

Lemma count_blocks_fold st blks :
  (forall b, b ∈ blks -> is_Some (MessagesForBlock b)) ->
  count_blocks st blks = Some (foldl count_message st (tipset_messages blks)).
Proof.
  revert st. induction blks as [|b blks IH]; intros st Hok; [done|].
  cbn. destruct (Hok b ltac:(by left)) as [[m1 m2] E]. rewrite E.
  rewrite IH by (intros; apply Hok; by right). by rewrite !foldl_app.
Qed.

(** The counter after a list of messages, when every CID has one gas limit
    [lim] and the sum over the distinct CIDs is an [int64]. *)
Lemma count_messages_sum (lim : cid -> Z) (seen : gset cid) ms :
  Forall (fun m => m.2 = lim m.1 /\ 0 <= m.2) ms ->
  set_sumZ lim (seen ∪ list_to_set ms.*1) < 2 ^ 63 -> 0 <= set_sumZ lim seen ->
  foldl count_message (set_sumZ lim seen, seen) ms =
    (set_sumZ lim (seen ∪ list_to_set ms.*1), seen ∪ list_to_set ms.*1).
Proof.
  intros Hms. revert seen. induction Hms as [|[c l] ms [Hl Hpos] Hms IH]; intros seen Hlt Hs.
  { cbn. by rewrite union_empty_r_L. }
  cbn [foldl fmap list_fmap fst] in *. rewrite list_to_set_cons in *. simpl in Hl, Hpos.
  assert (Hassoc : forall X : gset cid, X ∪ ({[c]} ∪ list_to_set ms.*1) =
            ({[c]} ∪ X) ∪ list_to_set ms.*1) by set_solver.
  unfold count_message at 2. cbn [fst snd]. case_bool_decide as Hin.
  - rewrite Hassoc in *. replace ({[c]} ∪ seen) with seen in * by set_solver. by apply IH.
  - rewrite Hassoc in *.
    assert (Hle : set_sumZ lim ({[c]} ∪ seen) <= set_sumZ lim ({[c]} ∪ seen ∪ list_to_set ms.*1)).
    { clear -Hms. generalize ({[c]} ∪ seen). intros X.
      revert X. induction Hms as [|[c' l'] ms [? ?] _ IH]; intros X; cbn.
      - by rewrite union_empty_r_L.
      - replace (X ∪ ({[c']} ∪ list_to_set ms.*1))
          with (({[c']} ∪ X) ∪ list_to_set ms.*1) by set_solver.
        etrans; [|apply IH]. destruct (decide (c' ∈ X)).
        + by replace ({[c']} ∪ X) with X by set_solver.
        + rewrite set_sumZ_insert by done. simpl in *. lia. }
    rewrite set_sumZ_insert in Hle by done.
    rewrite <- IH; [|done|by rewrite set_sumZ_insert by done; lia].
    rewrite set_sumZ_insert by done. f_equal. f_equal. simpl.
    rewrite i64_add_id by (unfold in_i64; lia). lia.
Qed.
End ComputeBaseFee.

(** The change of the fee for a clamped [delta], without the code's steps. *)
Definition fee_after (baseFee delta : Z) : Z :=
  Z.max MinimumBaseFee (baseFee + baseFee * delta / BlockGasTarget / BaseFeeMaxChangeDenom).

(** The [delta] of the code before it is clamped, when nothing overflows. *)
Definition gas_delta (afterSmoke : bool) (gasLimitUsed noOfBlocks : Z) : Z :=
  (if afterSmoke then gasLimitUsed / noOfBlocks
   else 5 * gasLimitUsed / (noOfBlocks * 4)) - BlockGasTarget.

Definition clamp (delta : Z) : Z := Z.max (- BlockGasTarget) (Z.min delta BlockGasTarget).

Lemma BlockGasTarget_eq : BlockGasTarget = 5000000000.
Proof. reflexivity. Qed.

(** The clamping and the division steps of the code compute [fee_after]. *)
Lemma fee_steps baseFee d :
  (let delta := if d >? BlockGasTarget then BlockGasTarget else d in
   let delta := if delta <? - BlockGasTarget then - BlockGasTarget else delta in
   let change := big_div (baseFee * delta) BlockGasTarget in
   let change := big_div change BaseFeeMaxChangeDenom in
   let nextBaseFee := baseFee + change in
   if nextBaseFee <? MinimumBaseFee then MinimumBaseFee else nextBaseFee)
  = fee_after baseFee (clamp d).
Proof.
  cbv zeta. unfold fee_after, clamp. rewrite BlockGasTarget_eq.
  change (Z.opp 5000000000) with (-5000000000).
  replace (if (if d >? 5000000000 then _ else d) <? _ then _ else _)
    with (Z.max (- 5000000000) (Z.min d 5000000000)).
  - unfold big_div, BaseFeeMaxChangeDenom.
    change (5000000000 <? 0) with false. change (8 <? 0) with false. cbv iota.
    match goal with |- (if ?x <? _ then _ else _) = _ => destruct (Z.ltb_spec x MinimumBaseFee) end;
      lia.
  - destruct (Z.gtb_spec d 5000000000); [destruct (Z.ltb_spec 5000000000 (- 5000000000))
      |destruct (Z.ltb_spec d (- 5000000000))]; lia.
Qed.

Lemma ComputeNextBaseFee_clamped smoke baseFee gas blocks epoch :
  exists delta, - BlockGasTarget <= delta <= BlockGasTarget /\
    ComputeNextBaseFee smoke baseFee gas blocks epoch = fee_after baseFee delta.
Proof.
  eexists (clamp _). split; [|apply fee_steps].
  unfold clamp. rewrite BlockGasTarget_eq. lia.
Qed.

Lemma ComputeNextBaseFee_exact smoke baseFee gas blocks epoch :
  0 < blocks < 2 ^ 32 -> 0 <= gas < 2 ^ 60 ->
  ComputeNextBaseFee smoke baseFee gas blocks epoch =
    fee_after baseFee (clamp (gas_delta (epoch >? smoke) gas blocks)).
Proof.
  intros Hb Hg. rewrite <- fee_steps. unfold ComputeNextBaseFee.
  replace (gas_delta (epoch >? smoke) gas blocks)
    with (if epoch >? smoke then gas ⊘ blocks ⊟ BlockGasTarget
          else (PackingEfficiencyDenom ⊠ gas) ⊘ (blocks ⊠ PackingEfficiencyNum) ⊟ BlockGasTarget);
    [done|].
  unfold gas_delta, PackingEfficiencyDenom, PackingEfficiencyNum. rewrite BlockGasTarget_eq.
  rewrite (i64_mul_id 5 gas), (i64_mul_id blocks 4) by (unfold in_i64; lia).
  rewrite !i64_quot_id by (unfold in_i64; lia). rewrite !Z.quot_div_nonneg by lia.
  assert (0 <= gas / blocks <= gas) by
    (split; [apply Z.div_pos; lia|apply Z.div_le_upper_bound; nia]).
  assert (0 <= 5 * gas / (blocks * 4) <= 5 * gas) by
    (split; [apply Z.div_pos; lia|apply Z.div_le_upper_bound; nia]).
  destruct (epoch >? smoke); by rewrite i64_sub_id by (unfold in_i64; lia).
Qed.

Lemma fee_after_mono baseFee d d' : 0 <= baseFee -> d <= d' -> fee_after baseFee d <= fee_after baseFee d'.
Proof.
  intros ? ?. unfold fee_after, BaseFeeMaxChangeDenom. rewrite BlockGasTarget_eq.
  enough (baseFee * d / 5000000000 / 8 <= baseFee * d' / 5000000000 / 8) by lia.
  apply Z.div_le_mono; [lia|]. apply Z.div_le_mono; [lia|]. nia.
Qed.

(** * Properties *)

(** from one epoch to the next the base fee moves by at most an eighth of
    itself (rounded down when it rises, up when it falls) and never below the
    minimum fee, whatever gas, block count and epoch are given, overflowing ones
    included. *)
Theorem next_base_fee_bounded smoke baseFee gas blocks epoch :
  0 <= baseFee ->
  let next := ComputeNextBaseFee smoke baseFee gas blocks epoch in
  MinimumBaseFee <= next /\
  next <= Z.max MinimumBaseFee (baseFee + baseFee / 8) /\
  baseFee - (baseFee + 7) / 8 <= next.
Proof.
  intros Hb. cbv zeta.
  destruct (ComputeNextBaseFee_clamped smoke baseFee gas blocks epoch) as (d & Hd & ->).
  pose proof (fee_after_mono baseFee _ _ Hb (proj1 Hd)) as Hlo.
  pose proof (fee_after_mono baseFee _ _ Hb (proj2 Hd)) as Hhi.
  unfold fee_after, BaseFeeMaxChangeDenom in *. rewrite BlockGasTarget_eq in *.
  rewrite Z.div_mul in Hhi by lia.
  change (Z.opp 5000000000) with (-5000000000) in Hlo.
  replace (baseFee * -5000000000) with (- baseFee * 5000000000) in Hlo by lia.
  rewrite Z.div_mul in Hlo by lia.
  assert (- baseFee / 8 = - ((baseFee + 7) / 8)).
  { pose proof (Z.div_mod (- baseFee) 8). pose proof (Z.mod_pos_bound (- baseFee) 8).
    pose proof (Z.div_mod (baseFee + 7) 8). pose proof (Z.mod_pos_bound (baseFee + 7) 8). lia. }
  lia.
Qed.

Lemma next_base_fee_bounded_witness :
  ComputeNextBaseFee 51000 1000 20000000000 2 60000 = 1125 /\
  ComputeNextBaseFee 51000 1000 20000000000 2 60000 <= Z.max MinimumBaseFee (1000 + 1000 / 8).
Proof.
  split; [reflexivity|]. apply (next_base_fee_bounded 51000 1000 20000000000 2 60000). lia.
Defined.

(** The base fee does not react to blocks that are full to the target, rises
    by exactly an eighth (rounded down) when the blocks are full to the limit,
    and never falls when more gas is used; the [int64] arithmetic does not
    overflow for up to 2^32 blocks and 2^60 gas. *)
Theorem next_base_fee_equilibrium smoke baseFee gas gas' blocks epoch :
  MinimumBaseFee <= baseFee -> 0 < blocks < 2 ^ 26 -> 0 <= gas <= gas' -> gas' < 2 ^ 60 ->
  epoch > smoke ->
  ComputeNextBaseFee smoke baseFee (blocks * BlockGasTarget) blocks epoch = baseFee /\
  ComputeNextBaseFee smoke baseFee (blocks * BlockGasLimit) blocks epoch
    = baseFee + baseFee / 8 /\
  ComputeNextBaseFee smoke baseFee gas blocks epoch
    <= ComputeNextBaseFee smoke baseFee gas' blocks epoch.
Proof.
  intros Hb Hn Hg Hg' He. assert (Hs : (epoch >? smoke) = true) by (apply Z.gtb_lt; lia).
  rewrite !ComputeNextBaseFee_exact by
    (try lia; rewrite ?BlockGasTarget_eq; unfold BlockGasLimit; lia).
  rewrite Hs. unfold gas_delta, clamp. split_and!.
  - rewrite Z.mul_comm, Z.div_mul, Z.sub_diag by lia.
    change (Z.max _ (Z.min 0 _)) with 0. unfold fee_after. rewrite Z.mul_0_r.
    change (0 / _ / _) with 0. lia.
  - rewrite Z.mul_comm, Z.div_mul by lia.
    change (Z.max _ (Z.min (BlockGasLimit - _) _)) with 5000000000.
    unfold fee_after, BaseFeeMaxChangeDenom. rewrite BlockGasTarget_eq, Z.div_mul by lia.
    assert (0 <= baseFee / 8) by (apply Z.div_pos; unfold MinimumBaseFee in *; lia). lia.
  - apply fee_after_mono; [unfold MinimumBaseFee in *; lia|].
    assert (gas / blocks <= gas' / blocks) by (apply Z.div_le_mono; lia). lia.
Qed.

Lemma next_base_fee_equilibrium_witness :
  ComputeNextBaseFee 51000 1000 (5 * BlockGasTarget) 5 60000 = 1000.
Proof.
  apply (next_base_fee_equilibrium 51000 1000 0 0 5 60000); unfold MinimumBaseFee; lia.
Defined.

(** [ComputeBaseFee] charges every distinct message of the tipset once: the
    gas it passes on is the sum of the gas limits over the set of message CIDs,
    however often and in whatever order the blocks repeat them; it fails exactly
    when loading the messages of a block fails. *)
Theorem ComputeBaseFee_distinct smoke breeze tamping load lim ts b0 rest :
  Blocks ts = b0 :: rest ->
  (forall b, b ∈ Blocks ts -> is_Some (load b)) ->
  Forall (fun m => m.2 = lim m.1 /\ 0 <= m.2) (tipset_messages load (Blocks ts)) ->
  let cids := list_to_set (tipset_messages load (Blocks ts)).*1 in
  set_sumZ lim cids < 2 ^ 63 -> in_tamping_window breeze tamping (ts_height ts) = false ->
  ComputeBaseFee smoke breeze tamping load ts =
    Some (ComputeNextBaseFee smoke (ParentBaseFee b0) (set_sumZ lim cids)
            (Z.of_nat (length (Blocks ts))) (ts_height ts)).
Proof.
  cbv zeta. intros Hblk Hload Hms Hlt Hbr. unfold ComputeBaseFee.
  rewrite Hbr, count_blocks_fold by done.
  change (0, ∅) with (set_sumZ lim ∅, ∅ : gset cid).
  rewrite count_messages_sum; [|done|by rewrite union_empty_l_L|done].
  by rewrite union_empty_l_L, Hblk.
Qed.

Lemma ComputeBaseFee_distinct_witness :
  let load := fun _ : BlockHeader => Some ([("m"%string, 7000000000)], [("n"%string, 5)]) in
  let ts := mkTipSet ["a"; "b"]%string [example_block "a" 5; example_block "b" 5] 5 in
  ComputeBaseFee (-1) (-1) 120 load ts =
    Some (ComputeNextBaseFee (-1) 100 7000000005 2 5).
Proof.
  cbv zeta. etrans.
  - apply (ComputeBaseFee_distinct (-1) (-1) 120
      (fun _ => Some ([("m"%string, 7000000000)], [("n"%string, 5)]))
      (fun c => if decide (c = "m"%string) then 7000000000 else 5)
      (mkTipSet ["a"; "b"]%string [example_block "a" 5; example_block "b" 5] 5)
      (example_block "a" 5) [example_block "b" 5]).
    + reflexivity.
    + intros. by eexists.
    + repeat apply Forall_cons_2; try apply Forall_nil_2; vm_compute; done.
    + vm_compute. done.
    + reflexivity.
  - vm_compute. reflexivity.
Defined.
