(* ===== verification/StateTree.v ===== *)
(** The state tree (src/chain/state/statetree.go): the actors of a state root
    seen through a stack of snapshot layers, with the cache of resolved
    addresses each layer carries.

    [stateSnaps.layers] is held with the top layer first, so Go's index [i] is
    the position [length layers - 1 - i] from the head of the list.  The HAMT
    that stores the actors ([adt.Map]) and the init actor's state are code of
    the actors library: they enter as the classes [AdtMap] and [InitActor],
    with the documented behaviour in [AdtMapLaws] and [InitActorLaws]. *)

From S2P Require Import Prelude Types.

(** * Interfaces of the actors library *)

(** Errors of the state tree.  [fmt]/[xerrors] wrapping is dropped, since callers only
    ask whether [ErrActorNotFound] is in the chain; [IndexPanic] is Go's
    out-of-range panic. *)
Inductive st_error :=
  | ErrActorNotFound
  | ErrUndefAddress
  | ErrInitState
  | ErrHamt
  | ErrSnapshotsOnStack
  | ErrNotEnoughFunds
  | IndexPanic.

#[export] Instance st_error_eq_dec : EqDecision st_error.
Proof. solve_decision. Defined.

(** [adt.Map] with [abi.AddrKey] keys and [types.Actor] values. *)
Class AdtMap (H : Type) := {
  adt_Get : H -> address -> result st_error (option Actor);
  adt_Put : H -> address -> Actor -> result st_error H;
  adt_Delete : H -> address -> result st_error H;
  adt_ForEach : H -> list (address * Actor);
  adt_Root : H -> result st_error cid;
}.

(** What the map promises over a complete block store: it behaves as a finite
    map, and [Delete] expects its key to exist. *)
Class AdtMapLaws (H : Type) `{AdtMap H} := {
  adt_contents : H -> gmap address Actor;
  adt_Get_ok h a : adt_Get h a = Ok (adt_contents h !! a);
  adt_Put_ok h a act : exists h',
    adt_Put h a act = Ok h' /\ adt_contents h' = <[a := act]> (adt_contents h);
  adt_Delete_ok h a : is_Some (adt_contents h !! a) -> exists h',
    adt_Delete h a = Ok h' /\ adt_contents h' = delete a (adt_contents h);
  adt_Delete_absent h a : adt_contents h !! a = None -> adt_Delete h a = Err ErrHamt;
  adt_ForEach_ok h : adt_ForEach h ≡ₚ map_to_list (adt_contents h);
}.

(** The init actor's state behind a head CID: [init_.Load] followed by
    [ResolveAddress], and by [MapAddressToNewID] and the [Put] of the result. *)
Class InitActor := {
  init_ResolveAddress : cid -> address -> result st_error (option address);
  init_MapAddressToNewID : cid -> address -> result st_error (cid * address);
}.

Class InitActorLaws `{InitActor} := {
  init_resolve_ID hd a i : init_ResolveAddress hd a = Ok (Some i) -> Protocol i = ProtoID;
  init_map_new hd a hd' i : init_MapAddressToNewID hd a = Ok (hd', i) ->
    init_ResolveAddress hd' a = Ok (Some i);
  init_map_keeps hd a hd' i b j : init_MapAddressToNewID hd a = Ok (hd', i) -> b <> a ->
    init_ResolveAddress hd b = Ok (Some j) -> init_ResolveAddress hd' b = Ok (Some j);
}.

(** [init_.Address]: the actor f01. *)
Definition init_Address : address := IDAddr 1.

(** * Snapshot layers *)

Record streeOp := mkOp { Act : Actor; Delete : bool }.

Record stateSnapLayer := mkLayer {
  actors : gmap address streeOp;
  resolveCache : gmap address address;
}.

Definition newStateSnapLayer : stateSnapLayer := mkLayer ∅ ∅.

Record stateSnaps := mkSnaps {
  layers : list stateSnapLayer;
  lastMaybeNonEmptyResolveCache : Z;
}.

Definition zlen {A} (l : list A) : Z := Z.of_nat (length l).

Definition addLayer (ss : stateSnaps) : stateSnaps :=
  mkSnaps (newStateSnapLayer :: layers ss) (lastMaybeNonEmptyResolveCache ss).

Definition newStateSnaps : stateSnaps := addLayer (mkSnaps [] 0).

Definition dropLayer (ss : stateSnaps) : option stateSnaps :=
  match layers ss with
  | [] => None
  | _ :: ls =>
      Some (mkSnaps ls
        (if lastMaybeNonEmptyResolveCache ss =? zlen ls
         then zlen ls - 1 else lastMaybeNonEmptyResolveCache ss))
  end.

(** [m[k] = v] for every entry of [last]: the later map wins. *)
Definition mergeLastLayer (ss : stateSnaps) : option stateSnaps :=
  match layers ss with
  | last :: nextLast :: ls =>
      let merged := mkLayer (actors last ∪ actors nextLast)
                            (resolveCache last ∪ resolveCache nextLast) in
      dropLayer (mkSnaps (last :: merged :: ls) (lastMaybeNonEmptyResolveCache ss))
  | _ => None
  end.

(** The loop of [resolveAddress] over the layers from index [i = zlen ls - 1]
    down to 0; it returns the new value of [lastMaybeNonEmptyResolveCache]. *)
Fixpoint resolve_scan (last : Z) (ls : list stateSnapLayer) (addr : address)
    : option address * Z :=
  match ls with
  | [] => (None, last)
  | l :: ls' =>
      let i := zlen ls' in
      if decide (resolveCache l = ∅)
      then resolve_scan (if last =? i then i - 1 else last) ls' addr
      else match resolveCache l !! addr with
           | Some resa => (Some resa, last)
           | None => resolve_scan last ls' addr
           end
  end.

Definition resolveAddress (ss : stateSnaps) (addr : address) : option address * stateSnaps :=
  let last := lastMaybeNonEmptyResolveCache ss in
  let skipped := Z.to_nat (zlen (layers ss) - 1 - last) in
  let '(r, last') := resolve_scan last (drop skipped (layers ss)) addr in
  (r, mkSnaps (layers ss) last').

Definition update_top (f : stateSnapLayer -> stateSnapLayer) (ss : stateSnaps)
    : option stateSnaps :=
  match layers ss with
  | [] => None
  | l :: ls => Some (mkSnaps (f l :: ls) (lastMaybeNonEmptyResolveCache ss))
  end.

Definition cacheResolveAddress (ss : stateSnaps) (addr resa : address) : option stateSnaps :=
  match update_top (fun l => mkLayer (actors l) (<[addr := resa]> (resolveCache l))) ss with
  | None => None
  | Some ss' => Some (mkSnaps (layers ss') (zlen (layers ss') - 1))
  end.

(** [Ok None] is Go's [nil, nil]: no layer knows the address. *)
Fixpoint getActor_in (ls : list stateSnapLayer) (addr : address) : result st_error (option Actor) :=
  match ls with
  | [] => Ok None
  | l :: ls' =>
      match actors l !! addr with
      | Some op => if Delete op then Err ErrActorNotFound else Ok (Some (Act op))
      | None => getActor_in ls' addr
      end
  end.

Definition getActor (ss : stateSnaps) (addr : address) : result st_error (option Actor) :=
  getActor_in (layers ss) addr.

Definition setActor (ss : stateSnaps) (addr : address) (act : Actor) : option stateSnaps :=
  update_top (fun l => mkLayer (<[addr := mkOp act false]> (actors l)) (resolveCache l)) ss.

(** The zero actor that [streeOp{Delete: true}] carries is never read. *)
Definition zeroActor : Actor := {| Code := ""; Head := ""; Nonce := 0; Balance := 0 |}.

Definition deleteActor (ss : stateSnaps) (addr : address) : option stateSnaps :=
  update_top (fun l => mkLayer (<[addr := mkOp zeroActor true]> (actors l)) (resolveCache l)) ss.

(** * State tree versions *)

Definition VersionForNetwork (ver : Z) : option Z :=
  if (0 <=? ver) && (ver <=? 3) then Some 0
  else if (4 <=? ver) && (ver <=? 9) then Some 1
  else if (10 <=? ver) && (ver <=? 11) then Some 2
  else if ver =? 12 then Some 3
  else if (13 <=? ver) && (ver <=? 17) then Some 4
  else None.

(** * Operations of the state tree *)

Record StateTree (H : Type) := mkTree {
  root : H;
  version : Z;
  info : cid;
  snaps : stateSnaps;
}.
Arguments mkTree {H}.
Arguments root {H}.
Arguments version {H}.
Arguments info {H}.
Arguments snaps {H}.

Section Operations.
Context {H : Type} `{AdtMap H} `{InitActor}.

Definition with_snaps (st : StateTree H) (ss : stateSnaps) : StateTree H :=
  mkTree (root st) (version st) (info st) ss.

(** A layer operation that indexes [layers[len-1]]: the panic of an empty stack. *)
Definition on_top (st : StateTree H) (o : option stateSnaps) : result st_error unit * StateTree H :=
  match o with
  | Some ss => (Ok tt, with_snaps st ss)
  | None => (Err IndexPanic, st)
  end.

(** [GetActor] past the address resolution; a read of the HAMT is recorded in
    the top layer. *)
Definition GetActor_resolved (st : StateTree H) (addr : address)
    : result st_error Actor * StateTree H :=
  match getActor (snaps st) addr with
  | Err e => (Err e, st)
  | Ok (Some act) => (Ok act, st)
  | Ok None =>
      match adt_Get (root st) addr with
      | Err e => (Err e, st)
      | Ok None => (Err ErrActorNotFound, st)
      | Ok (Some act) =>
          match on_top st (setActor (snaps st) addr act) with
          | (Ok _, st') => (Ok act, st')
          | (Err e, st') => (Err e, st')
          end
      end
  end.

(** The init actor's address is an ID address, so [GetActor(init_.Address)]
    needs no resolution. *)
Definition lookupIDinternal (st : StateTree H) (addr : address)
    : result st_error address * StateTree H :=
  match GetActor_resolved st init_Address with
  | (Err e, st') => (Err e, st')
  | (Ok act, st') =>
      match init_ResolveAddress (Head act) addr with
      | Err e => (Err e, st')
      | Ok None => (Err ErrActorNotFound, st')
      | Ok (Some a) => (Ok a, st')
      end
  end.

Definition LookupID (st : StateTree H) (addr : address)
    : result st_error address * StateTree H :=
  match Protocol addr with
  | ProtoID => (Ok addr, st)
  | _ =>
      let '(r, ss) := resolveAddress (snaps st) addr in
      let st := with_snaps st ss in
      match r with
      | Some resa => (Ok resa, st)
      | None =>
          match lookupIDinternal st addr with
          | (Err e, st') => (Err e, st')
          | (Ok a, st') =>
              match on_top st' (cacheResolveAddress (snaps st') addr a) with
              | (Ok _, st'') => (Ok a, st'')
              | (Err e, st'') => (Err e, st'')
              end
          end
      end
  end.

Definition SetActor (st : StateTree H) (addr : address) (act : Actor)
    : result st_error unit * StateTree H :=
  match LookupID st addr with
  | (Err e, st') => (Err e, st')
  | (Ok iaddr, st') => on_top st' (setActor (snaps st') iaddr act)
  end.

Definition GetActor (st : StateTree H) (addr : address)
    : result st_error Actor * StateTree H :=
  if decide (addr = Undef) then (Err ErrUndefAddress, st)
  else match LookupID st addr with
       | (Err e, st') => (Err e, st')
       | (Ok iaddr, st') => GetActor_resolved st' iaddr
       end.

Definition DeleteActor (st : StateTree H) (addr : address)
    : result st_error unit * StateTree H :=
  if decide (addr = Undef) then (Err ErrUndefAddress, st)
  else match LookupID st addr with
       | (Err e, st') => (Err e, st')
       | (Ok iaddr, st') =>
           match GetActor st' iaddr with
           | (Err e, st'') => (Err e, st'')
           | (Ok _, st'') => on_top st'' (deleteActor (snaps st'') iaddr)
           end
       end.

Definition Snapshot (st : StateTree H) : StateTree H := with_snaps st (addLayer (snaps st)).

Definition ClearSnapshot (st : StateTree H) : result st_error unit * StateTree H :=
  on_top st (mergeLastLayer (snaps st)).

Definition Revert (st : StateTree H) : result st_error unit * StateTree H :=
  match dropLayer (snaps st) with
  | None => (Err IndexPanic, st)
  | Some ss => (Ok tt, with_snaps st (addLayer ss))
  end.

(** The callback changes the actor it is given and may leave a value of its own. *)
Definition MutateActor {S} (st : StateTree H) (addr : address)
    (f : Actor -> result st_error (Actor * S)) : result st_error S * StateTree H :=
  match GetActor st addr with
  | (Err e, st') => (Err e, st')
  | (Ok act, st') =>
      match f act with
      | Err e => (Err e, st')
      | Ok (act', s) =>
          match SetActor st' addr act' with
          | (Err e, st'') => (Err e, st'')
          | (Ok _, st'') => (Ok s, st'')
          end
      end
  end.

Definition RegisterNewAddress (st : StateTree H) (addr : address)
    : result st_error address * StateTree H :=
  MutateActor st init_Address (fun initact =>
    match init_MapAddressToNewID (Head initact) addr with
    | Err e => Err e
    | Ok (ncid, oaddr) =>
        Ok (mkActor (Code initact) ncid (Nonce initact) (Balance initact), oaddr)
    end).

(** Go ranges over [layers[0].actors] in an unspecified order: [order] is the
    listing the range produced.  The HAMT is changed in place, so an error
    leaves the writes made before it. *)
Fixpoint flush_ops (h : H) (order : list (address * streeOp)) : result st_error unit * H :=
  match order with
  | [] => (Ok tt, h)
  | (addr, sto) :: rest =>
      match (if Delete sto then adt_Delete h addr else adt_Put h addr (Act sto)) with
      | Err e => (Err e, h)
      | Ok h' => flush_ops h' rest
      end
  end.

(** [put_StateRoot] is [Store.Put] of a [types.StateRoot]. *)
Definition Flush (put_StateRoot : Z -> cid -> cid -> result st_error cid)
    (st : StateTree H) (order : list (address * streeOp)) : result st_error cid * StateTree H :=
  match layers (snaps st) with
  | [_] =>
      let '(r, h') := flush_ops (root st) order in
      let st' := mkTree h' (version st) (info st) (snaps st) in
      match r with
      | Err e => (Err e, st')
      | Ok _ =>
          match adt_Root h' with
          | Err e => (Err e, st')
          | Ok r => (if version st =? 0 then Ok r else put_StateRoot (version st) r (info st), st')
          end
      end
  | _ => (Err ErrSnapshotsOnStack, st)
  end.

(** One layer of [ForEach]: the entries not seen in a higher layer. *)
Fixpoint forEach_layer (seen : gset address) (order : list (address * streeOp))
    : list (address * Actor) * gset address :=
  match order with
  | [] => ([], seen)
  | (addr, op) :: rest =>
      if decide (addr ∈ seen) then forEach_layer seen rest
      else let '(out, seen') := forEach_layer ({[addr]} ∪ seen) rest in
           (if Delete op then out else (addr, Act op) :: out, seen')
  end.

Fixpoint forEach_layers (seen : gset address) (orders : list (list (address * streeOp)))
    : list (address * Actor) * gset address :=
  match orders with
  | [] => ([], seen)
  | o :: rest =>
      let '(out, seen') := forEach_layer seen o in
      let '(outs, seen'') := forEach_layers seen' rest in
      (out ++ outs, seen'')
  end.

(** The calls [f(addr, act)] a walk makes when [f] never fails, in order; one
    listing per layer, top layer first. *)
Definition ForEach (st : StateTree H) (orders : list (list (address * streeOp)))
    : list (address * Actor) :=
  let '(out, seen) := forEach_layers ∅ orders in
  out ++ filter (fun e => e.1 ∉ seen) (adt_ForEach (root st)).

End Operations.

(** * Views: what each layer of the stack shows *)

(** The effect of a layer's entries on the map below it. *)
Definition apply_ops (ops : gmap address streeOp) (v : gmap address Actor) : gmap address Actor :=
  merge (fun op old => match op with
                       | Some o => if Delete o then None else Some (Act o)
                       | None => old
                       end) ops v.

Fixpoint views (base : gmap address Actor) (ls : list stateSnapLayer) : list (gmap address Actor) :=
  match ls with
  | [] => [base]
  | l :: ls' => apply_ops (actors l) (hd base (views base ls')) :: views base ls'
  end.

Definition view (base : gmap address Actor) (ls : list stateSnapLayer) : gmap address Actor :=
  hd base (views base ls).

(** Layers above [lastMaybeNonEmptyResolveCache] have an empty cache, the stack
    is not empty, and caches hold ID addresses. *)
Record snaps_wf (ss : stateSnaps) : Prop := {
  wf_layers : layers ss <> [];
  wf_last : -1 <= lastMaybeNonEmptyResolveCache ss < zlen (layers ss);
  wf_above : Forall (fun l => resolveCache l = ∅)
    (take (Z.to_nat (zlen (layers ss) - 1 - lastMaybeNonEmptyResolveCache ss)) (layers ss));
  wf_ids : Forall (fun l => forall a i, resolveCache l !! a = Some i -> Protocol i = ProtoID)
    (layers ss);
}.

(** The reference for [resolveAddress]: the top-most layer whose cache has the
    address, every layer inspected. *)
Fixpoint resolve_all (ls : list stateSnapLayer) (addr : address) : option address :=
  match ls with
  | [] => None
  | l :: ls' => match resolveCache l !! addr with
                | Some r => Some r
                | None => resolve_all ls' addr
                end
  end.

Lemma apply_ops_lookup ops v a :
  apply_ops ops v !! a =
    match ops !! a with
    | Some o => if Delete o then None else Some (Act o)
    | None => v !! a
    end.
Proof. unfold apply_ops. rewrite lookup_merge. by destruct (ops !! a), (v !! a). Qed.

Lemma apply_ops_empty v : apply_ops ∅ v = v.
Proof. apply map_eq. intros a. by rewrite apply_ops_lookup, lookup_empty. Qed.

Lemma views_cons base ls : views base ls = view base ls :: tl (views base ls).
Proof. by destruct ls. Qed.

Lemma view_cons base l ls : view base (l :: ls) = apply_ops (actors l) (view base ls).
Proof. done. Qed.

Lemma apply_ops_insert ops v a o :
  apply_ops (<[a := o]> ops) v =
    if Delete o then delete a (apply_ops ops v) else <[a := Act o]> (apply_ops ops v).
Proof.
  apply map_eq. intros b. rewrite apply_ops_lookup.
  destruct (decide (a = b)) as [<-|Hne].
  - rewrite lookup_insert_eq. destruct (Delete o); by simplify_map_eq.
  - rewrite lookup_insert_ne by done.
    destruct (Delete o); simplify_map_eq; by rewrite apply_ops_lookup.
Qed.

Lemma apply_ops_union last next v :
  apply_ops (last ∪ next) v = apply_ops last (apply_ops next v).
Proof.
  apply map_eq. intros a. rewrite !apply_ops_lookup, lookup_union.
  destruct (last !! a), (next !! a); done.
Qed.

Lemma getActor_in_view ls base a :
  match getActor_in ls a with
  | Ok (Some act) => view base ls !! a = Some act
  | Ok None => view base ls !! a = base !! a
  | Err e => e = ErrActorNotFound /\ view base ls !! a = None
  end.
Proof.
  induction ls as [|l ls IH]; [done|].
  rewrite view_cons, apply_ops_lookup. simpl.
  destruct (actors l !! a) as [[act d]|]; [by destruct d|done].
Qed.

(** The shortcut of [resolveAddress] through the scan. *)
Lemma resolve_scan_spec ls last a :
  zlen ls - 1 <= last ->
  let '(r, last') := resolve_scan last ls a in
  r = resolve_all ls a /\
  (if decide (last = zlen ls - 1)
   then -1 <= last' <= last /\ Forall (fun l => resolveCache l = ∅) (take (Z.to_nat (last - last')) ls)
   else last' = last).
Proof.
  revert last. induction ls as [|l ls IH]; intros last Hlast; unfold zlen in *; simpl in *.
  { split; [done|]. case_decide; [|done]. subst. split; [lia|]. by rewrite take_nil. }
  case_decide as Hempty.
  - rewrite Hempty, lookup_empty.
    destruct (Z.eqb_spec last (zlen ls)) as [->|Hne]; unfold zlen in *.
    + specialize (IH (Z.of_nat (length ls) - 1) ltac:(lia)).
      destruct (resolve_scan _ ls a) as [r last'] eqn:E. destruct IH as [Hr IH].
      split; [done|]. rewrite decide_True in IH by done. rewrite decide_True by lia.
      destruct IH as [Hb Hall]. split; [lia|].
      replace (Z.to_nat (Z.of_nat (length ls) - last'))
        with (S (Z.to_nat (Z.of_nat (length ls) - 1 - last'))) by lia.
      by constructor.
    + specialize (IH last ltac:(lia)).
      destruct (resolve_scan _ ls a) as [r last'] eqn:E. destruct IH as [Hr IH].
      split; [done|]. rewrite decide_False in IH by lia. by rewrite decide_False by lia.
  - destruct (resolveCache l !! a) as [resa|] eqn:El.
    + split; [done|]. case_decide; [|done]. split; [lia|]. by replace (Z.to_nat (last - last)) with 0%nat by lia.
    + specialize (IH last ltac:(lia)).
      destruct (resolve_scan _ ls a) as [r last'] eqn:E. destruct IH as [Hr IH].
      split; [done|]. rewrite decide_False in IH by lia. subst last'.
      case_decide; [|done]. split; [lia|]. by replace (Z.to_nat (last - last)) with 0%nat by lia.
Qed.

Lemma resolve_all_empty pre ls a :
  Forall (fun l => resolveCache l = ∅) pre -> resolve_all (pre ++ ls) a = resolve_all ls a.
Proof. induction 1 as [|l pre Hl _ IH]; [done|]. simpl. by rewrite Hl, lookup_empty. Qed.

Lemma resolve_all_some ls a i :
  resolve_all ls a = Some i -> exists l, l ∈ ls /\ resolveCache l !! a = Some i.
Proof.
  induction ls as [|l ls IH]; [done|]. simpl. destruct (resolveCache l !! a) eqn:E.
  - intros [= <-]. exists l. split; [left|done].
  - intros (l' & ? & ?)%IH. exists l'. split; [by right|done].
Qed.

(** * The layer operations on the views *)

Lemma take_nested {A} (k : nat) (l : list A) (n : nat) :
  take (k + n) l = take k l ++ take n (drop k l).
Proof. by rewrite take_take_drop. Qed.

Lemma resolveAddress_spec ss a :
  snaps_wf ss ->
  (resolveAddress ss a).1 = resolve_all (layers ss) a /\
  layers (resolveAddress ss a).2 = layers ss /\
  snaps_wf (resolveAddress ss a).2.
Proof.
  intros [Hne Hlast Habove Hids]. unfold resolveAddress.
  set (last := lastMaybeNonEmptyResolveCache ss) in *.
  set (k := Z.to_nat (zlen (layers ss) - 1 - last)) in *.
  assert (Hlen : zlen (drop k (layers ss)) = last + 1)
    by (unfold k, zlen in *; rewrite length_drop; lia).
  pose proof (resolve_scan_spec (drop k (layers ss)) last a ltac:(lia)) as Hscan.
  destruct (resolve_scan _ _ a) as [r last']. destruct Hscan as [-> Hscan].
  rewrite decide_True in Hscan by lia. destruct Hscan as [Hb Hall]. simpl. split_and!.
  - rewrite <- (take_drop k (layers ss)) at 2. by rewrite resolve_all_empty.
  - done.
  - split; simpl; [done|lia| |done].
    replace (Z.to_nat (zlen (layers ss) - 1 - last')) with (k + Z.to_nat (last - last'))%nat
      by (unfold k; lia).
    rewrite take_nested. by apply Forall_app_2.
Qed.

(** Changing the top layer without touching its cache. *)
Lemma update_top_wf f ss :
  snaps_wf ss -> (forall l, resolveCache (f l) = resolveCache l) ->
  exists l ls ss', layers ss = l :: ls /\ update_top f ss = Some ss' /\
    layers ss' = f l :: ls /\ snaps_wf ss'.
Proof.
  intros [Hne Hlast Habove Hids] Hf. unfold update_top.
  destruct ss as [[|l ls] last]; simpl in *; [done|].
  exists l, ls. eexists. split_and!; [done..|]. split; simpl; [done|unfold zlen in *; simpl in *; lia| |].
  - unfold zlen in *. simpl in *. destruct (Z.to_nat _); simpl in *; [constructor|].
    inversion Habove; subst. constructor; [by rewrite Hf|done].
  - inversion Hids; subst. constructor; [by rewrite Hf|done].
Qed.

Lemma setActor_spec base ss a act :
  snaps_wf ss ->
  exists ss', setActor ss a act = Some ss' /\ snaps_wf ss' /\
    map resolveCache (layers ss') = map resolveCache (layers ss) /\
    tl (layers ss') = tl (layers ss) /\
    views base (layers ss') = <[a := act]> (view base (layers ss)) :: tl (views base (layers ss)).
Proof.
  intros Hwf. unfold setActor.
  destruct (update_top_wf (fun l => mkLayer (<[a := mkOp act false]> (actors l)) (resolveCache l)) ss Hwf)
    as (l & ls & ss' & Hl & -> & Hl' & Hwf'); [done|].
  exists ss'. rewrite Hl, Hl'. split_and!; [done..|]. simpl. by rewrite apply_ops_insert.
Qed.

Lemma deleteActor_spec base ss a :
  snaps_wf ss ->
  exists ss', deleteActor ss a = Some ss' /\ snaps_wf ss' /\
    map resolveCache (layers ss') = map resolveCache (layers ss) /\
    tl (layers ss') = tl (layers ss) /\
    views base (layers ss') = delete a (view base (layers ss)) :: tl (views base (layers ss)).
Proof.
  intros Hwf. unfold deleteActor.
  destruct (update_top_wf (fun l => mkLayer (<[a := mkOp zeroActor true]> (actors l)) (resolveCache l)) ss Hwf)
    as (l & ls & ss' & Hl & -> & Hl' & Hwf'); [done|].
  exists ss'. rewrite Hl, Hl'. split_and!; [done..|]. simpl. by rewrite apply_ops_insert.
Qed.

Lemma cacheResolveAddress_spec base ss a i :
  snaps_wf ss -> Protocol i = ProtoID ->
  exists ss', cacheResolveAddress ss a i = Some ss' /\ snaps_wf ss' /\
    resolve_all (layers ss') a = Some i /\ views base (layers ss') = views base (layers ss) /\
    exists l ls, layers ss = l :: ls /\
      layers ss' = mkLayer (actors l) (<[a := i]> (resolveCache l)) :: ls.
Proof.
  intros [Hne Hlast Habove Hids] Hi. unfold cacheResolveAddress, update_top.
  destruct ss as [[|l ls] last]; simpl in *; [done|].
  eexists. split; [done|]. simpl. split_and!.
  - split; simpl; [done|unfold zlen in *; simpl in *; lia| |].
    + replace (Z.to_nat _) with 0%nat by lia. constructor.
    + inversion Hids; subst. constructor; [|done]. simpl. intros b j.
      destruct (decide (a = b)) as [<-|]; [|rewrite lookup_insert_ne by done; eauto].
      rewrite lookup_insert_eq. congruence.
  - by rewrite lookup_insert_eq.
  - done.
  - by exists l, ls.
Qed.

Lemma addLayer_wf ls last :
  -1 <= last <= zlen ls - 1 ->
  Forall (fun l => resolveCache l = ∅) (take (Z.to_nat (zlen ls - 1 - last)) ls) ->
  Forall (fun l => forall a i, resolveCache l !! a = Some i -> Protocol i = ProtoID) ls ->
  snaps_wf (addLayer (mkSnaps ls last)).
Proof.
  intros Hlast Habove Hids. unfold zlen in *. split; unfold zlen; simpl; [done|lia| |].
  - replace (Z.to_nat (Z.of_nat (S (length ls)) - 1 - last))
      with (S (Z.to_nat (Z.of_nat (length ls) - 1 - last))) by lia.
    by constructor.
  - constructor; [|done]. simpl. intros ?? []%lookup_empty_Some.
Qed.

Lemma addLayer_views base ss :
  views base (layers (addLayer ss)) = view base (layers ss) :: views base (layers ss).
Proof. simpl. by rewrite apply_ops_empty. Qed.

(** Dropping the top layer; the result may be empty, so this states the
    invariant on what is left. *)
Lemma dropLayer_eq l ls last :
  snaps_wf (mkSnaps (l :: ls) last) ->
  exists last', dropLayer (mkSnaps (l :: ls) last) = Some (mkSnaps ls last') /\
    -1 <= last' <= zlen ls - 1 /\
    Forall (fun l => resolveCache l = ∅) (take (Z.to_nat (zlen ls - 1 - last')) ls) /\
    (resolveCache l <> ∅ -> last' = zlen ls - 1).
Proof.
  intros [Hne Hlast Habove Hids]. unfold dropLayer. simpl in *. eexists. split; [done|].
  unfold zlen in *. simpl in *. destruct (Z.eqb_spec last (Z.of_nat (length ls))) as [->|Hn].
  - split_and!; [lia..| |done]. replace (Z.to_nat _) with 0%nat by lia. constructor.
  - replace (Z.to_nat (Z.of_nat (S (length ls)) - 1 - last))
      with (S (Z.to_nat (Z.of_nat (length ls) - 1 - last))) in Habove by lia.
    cbn [take] in Habove; apply Forall_cons in Habove as [Hl Habove].
    split_and!; [lia|lia|done|intros Hc; congruence].
Qed.

Lemma mergeLastLayer_spec base ss :
  snaps_wf ss ->
  match layers ss with
  | last :: next :: ls =>
      exists ss', mergeLastLayer ss = Some ss' /\ snaps_wf ss' /\
        layers ss' = mkLayer (actors last ∪ actors next) (resolveCache last ∪ resolveCache next) :: ls /\
        views base (layers ss') = view base (layers ss) :: tl (tl (views base (layers ss)))
  | _ => mergeLastLayer ss = None
  end.
Proof.
  intros Hwf. destruct ss as [[|l [|n ls]] last]; [done..|]. simpl.
  set (m := mkLayer _ _).
  destruct (dropLayer_eq l (n :: ls) last Hwf) as (last' & Hd & Hb & Habove & Hne).
  assert (Hm : mergeLastLayer (mkSnaps (l :: n :: ls) last) = Some (mkSnaps (m :: ls) last')).
  { unfold mergeLastLayer, dropLayer in *. simpl in *. by injection Hd as <-. }
  exists (mkSnaps (m :: ls) last'). split_and!; [done| |done|].
  - destruct Hwf as [_ _ _ Hids]. simpl in Hids.
    apply Forall_cons in Hids as [Hl [Hn Hls]%Forall_cons].
    split; simpl; [done|unfold zlen in *; simpl in *; lia| |].
    + unfold zlen in *. simpl in *. destruct (Z.to_nat _) eqn:Ek; simpl in *; [constructor|].
      apply Forall_cons in Habove as [Hnc Habove]. constructor; [|done].
      simpl. rewrite Hnc, (right_id_L ∅ (∪)).
      destruct (decide (resolveCache l = ∅)) as [|Hl']; [done|]. specialize (Hne Hl'). lia.
    + constructor; [|done]. simpl. intros a i. rewrite lookup_union_Some_raw. naive_solver.
  - simpl. by rewrite apply_ops_union.
Qed.

(** * The tree operations on the views *)

Section Laws.
Context {H : Type} `{AdtMapLaws H} `{InitActorLaws}.
Implicit Types st : StateTree H.

Definition base st : gmap address Actor := adt_contents (root st).
Definition stack st : list (gmap address Actor) := views (base st) (layers (snaps st)).
Definition top st : gmap address Actor := view (base st) (layers (snaps st)).
Definition tree_wf st : Prop := snaps_wf (snaps st).

(** The address resolution that a view determines: what [lookupIDinternal]
    computes. *)
Definition resolve_in (v : gmap address Actor) (a : address) : result st_error address :=
  match v !! init_Address with
  | None => Err ErrActorNotFound
  | Some act =>
      match init_ResolveAddress (Head act) a with
      | Err e => Err e
      | Ok None => Err ErrActorNotFound
      | Ok (Some i) => Ok i
      end
  end.

(** [v'] resolves every address that [v] resolves, to the same ID: the init
    actor's map only grows. *)
Definition extends (v v' : gmap address Actor) : Prop :=
  forall a i, resolve_in v a = Ok i -> resolve_in v' a = Ok i.

(** Every cached resolution is one the layer's own view gives, and views extend
    the ones below them. *)
Fixpoint coherent_with (caches : list (gmap address address)) (vs : list (gmap address Actor)) : Prop :=
  match caches, vs with
  | c :: cs, v :: vs' =>
      (forall a i, c !! a = Some i -> resolve_in v a = Ok i) /\
      (forall w, hd_error vs' = Some w -> extends w v) /\ coherent_with cs vs'
  | _, _ => True
  end.

Definition caches st : list (gmap address address) := map resolveCache (layers (snaps st)).
Definition coherent st : Prop := coherent_with (caches st) (stack st).

Definition lookup_in (ls : list stateSnapLayer) (v : gmap address Actor) (a : address)
    : result st_error address :=
  match Protocol a with
  | ProtoID => Ok a
  | _ => match resolve_all ls a with Some i => Ok i | None => resolve_in v a end
  end.

Definition lookup_result st a : result st_error address :=
  lookup_in (layers (snaps st)) (top st) a.

(** A step that at most fills caches. *)
Record quiet st st' : Prop := {
  quiet_wf : tree_wf st';
  quiet_root : root st' = root st;
  quiet_stack : stack st' = stack st;
  quiet_below : tl (layers (snaps st')) = tl (layers (snaps st));
  quiet_lookup : forall b, lookup_result st' b = lookup_result st b;
  quiet_coherent : coherent st -> coherent st';
}.

Lemma stack_top st : stack st = top st :: tl (stack st).
Proof. apply views_cons. Qed.

Lemma quiet_top st st' : quiet st st' -> top st' = top st.
Proof. intros Hq. pose proof (quiet_stack _ _ Hq) as Hs. rewrite (stack_top st), (stack_top st') in Hs. by injection Hs. Qed.

Lemma quiet_refl st : tree_wf st -> quiet st st.
Proof. by split. Qed.

Lemma quiet_trans st1 st2 st3 : quiet st1 st2 -> quiet st2 st3 -> quiet st1 st3.
Proof. intros [_ Hr Hs Hb Hl Hc] [Hw Hr' Hs' Hb' Hl' Hc']. split; [done|congruence..|auto]. Qed.

Lemma resolve_all_caches ls ls' a :
  map resolveCache ls = map resolveCache ls' -> resolve_all ls a = resolve_all ls' a.
Proof.
  revert ls'. induction ls as [|l ls IH]; intros [|l' ls']; [done..|].
  intros [= Hl Hls]. simpl. rewrite Hl. by rewrite (IH ls').
Qed.

(** Same caches and same views. *)
Lemma quiet_same_caches st st' :
  tree_wf st' -> root st' = root st -> stack st' = stack st -> caches st' = caches st ->
  tl (layers (snaps st')) = tl (layers (snaps st)) -> quiet st st'.
Proof.
  intros Hwf Hr Hs Hc Hb. split; [done..| |unfold coherent; by rewrite Hs, Hc].
  intros b. unfold lookup_result, lookup_in. rewrite (resolve_all_caches _ _ b Hc).
  rewrite (stack_top st), (stack_top st') in Hs. by injection Hs as -> _.
Qed.

Lemma GetActor_resolved_spec st a :
  tree_wf st ->
  let '(r, st') := GetActor_resolved st a in
  quiet st st' /\ map resolveCache (layers (snaps st')) = map resolveCache (layers (snaps st)) /\
  r = match top st !! a with Some act => Ok act | None => Err ErrActorNotFound end.
Proof.
  intros Hwf. unfold GetActor_resolved, getActor.
  pose proof (getActor_in_view (layers (snaps st)) (base st) a) as Hget.
  fold (top st) in Hget. destruct (getActor_in _ a) as [[act|]|e].
  - rewrite Hget. split_and!; [by apply quiet_refl|done..].
  - rewrite adt_Get_ok, Hget. fold (base st). destruct (base st !! a) as [act|] eqn:Hb.
    + destruct (setActor_spec (base st) (snaps st) a act Hwf) as (ss' & -> & Hwf' & Hc & Hb' & Hv).
      simpl. split_and!; [|done..]. apply quiet_same_caches; [done..| |done|done].
      unfold stack. simpl. etrans; [apply Hv|]. rewrite views_cons at 2. f_equal.
      apply insert_id. unfold top in *. congruence.
    + split_and!; [by apply quiet_refl|done..].
  - destruct Hget as [-> ->]. split_and!; [by apply quiet_refl|done..].
Qed.

Lemma lookupIDinternal_spec st a :
  tree_wf st ->
  let '(r, st') := lookupIDinternal st a in
  quiet st st' /\ map resolveCache (layers (snaps st')) = map resolveCache (layers (snaps st)) /\
  r = resolve_in (top st) a.
Proof.
  intros Hwf. unfold lookupIDinternal, resolve_in.
  pose proof (GetActor_resolved_spec st init_Address Hwf) as Hg.
  destruct (GetActor_resolved st init_Address) as [r st']. destruct Hg as (Hq & Hc & ->).
  destruct (top st !! init_Address) as [act|]; [|by split_and!].
  destruct (init_ResolveAddress (Head act) a) as [[i|]|e]; by split_and!.
Qed.

Lemma resolve_in_ID v a i : resolve_in v a = Ok i -> Protocol i = ProtoID.
Proof.
  unfold resolve_in. destruct (v !! init_Address) as [act|]; [|done].
  destruct (init_ResolveAddress (Head act) a) as [[j|]|] eqn:E; [|done..].
  intros [= <-]. by eapply init_resolve_ID.
Qed.

(** Caching a resolution that the top view gives. *)
Lemma coherent_cache st ss' a i l ls :
  layers (snaps st) = l :: ls ->
  layers ss' = mkLayer (actors l) (<[a := i]> (resolveCache l)) :: ls ->
  views (base st) (layers ss') = views (base st) (layers (snaps st)) ->
  resolve_in (top st) a = Ok i -> coherent st -> coherent (with_snaps st ss').
Proof.
  intros Hl Hl' Hv Hr. unfold coherent, stack, caches. simpl.
  change (base (with_snaps st ss')) with (base st). rewrite Hv.
  rewrite views_cons. fold (top st). rewrite Hl, Hl'. simpl. intros (Hc & Hw & Hrest).
  split_and!; [|done..]. intros b j. destruct (decide (a = b)) as [<-|Hne].
  - rewrite lookup_insert_eq. by intros [= <-].
  - rewrite lookup_insert_ne by done. apply Hc.
Qed.

(** Caching a resolution changes no resolution. *)
Lemma cache_lookup st ss' a i l ls b :
  layers (snaps st) = l :: ls ->
  layers ss' = mkLayer (actors l) (<[a := i]> (resolveCache l)) :: ls ->
  views (base st) (layers ss') = views (base st) (layers (snaps st)) ->
  Protocol a <> ProtoID -> lookup_result st a = Ok i ->
  lookup_result (with_snaps st ss') b = lookup_result st b.
Proof.
  intros Hl Hl' Hv Hp Hi. unfold lookup_result, lookup_in in *. simpl.
  replace (top (with_snaps st ss')) with (top st).
  2: { unfold top, view. simpl. change (base (with_snaps st ss')) with (base st). by rewrite Hv. }
  rewrite Hl', Hl in *. cbn [resolve_all resolveCache] in *.
  destruct (decide (a = b)) as [<-|Hne]; [|by rewrite lookup_insert_ne].
  rewrite lookup_insert_eq. by destruct (Protocol a).
Qed.

(** [LookupID] answers from the caches, or from the init actor of the view; it
    changes caches only. *)
Lemma LookupID_spec st a :
  tree_wf st ->
  let '(r, st') := LookupID st a in
  quiet st st' /\ r = lookup_result st a /\ (forall i, r = Ok i -> Protocol i = ProtoID).
Proof.
  intros Hwf. unfold LookupID, lookup_result, lookup_in.
  destruct (Protocol a) eqn:Ep.
  2: { split_and!; [by apply quiet_refl|done|]. by intros i [= <-]. }
  all: pose proof (resolveAddress_spec (snaps st) a Hwf) as (Hr & Hls & Hwf1);
    destruct (resolveAddress (snaps st) a) as [r ss]; cbn [fst snd] in *; subst r;
    assert (Hq1 : quiet st (with_snaps st ss))
      by (apply quiet_same_caches; unfold stack, caches; simpl; by rewrite ?Hls);
    destruct (resolve_all (layers (snaps st)) a) as [i|] eqn:Er.
  1,3,5,7: split_and!; [done..|]; intros j [= <-];
    destruct (resolve_all_some _ _ _ Er) as (l & Hl & Hi);
    by eapply (proj1 (List.Forall_forall _ _) (wf_ids _ Hwf)); [apply list_elem_of_In|].
  all: pose proof (lookupIDinternal_spec (with_snaps st ss) a Hwf1) as Hl;
    destruct (lookupIDinternal _ a) as [r2 st2]; destruct Hl as (Hq2 & Hc2 & ->);
    rewrite (quiet_top _ _ Hq1);
    pose proof (quiet_trans _ _ _ Hq1 Hq2) as Hq;
    destruct (resolve_in (top st) a) as [i|e] eqn:Ei; [|by split_and!].
  all: destruct (cacheResolveAddress_spec (base st2) (snaps st2) a i (quiet_wf _ _ Hq)
      (resolve_in_ID _ _ _ Ei)) as (ss3 & -> & Hwf3 & Hr3 & Hv3 & l3 & ls3 & El & El');
    simpl; split_and!; [|done|intros j [= <-]; by eapply resolve_in_ID].
  all: eapply quiet_trans; [exact Hq|]; split; [done..|by simpl; rewrite El, El'| |];
    [intros b; apply (cache_lookup st2 ss3 a i l3 ls3 b El El' Hv3); [by rewrite Ep|];
       rewrite (quiet_lookup _ _ Hq); unfold lookup_result, lookup_in; by rewrite Ep, Er, Ei
    |apply (coherent_cache st2 ss3 a i l3 ls3 El El' Hv3); by rewrite (quiet_top _ _ Hq)].
Qed.

(** A step that replaces the top view. *)
Record replaced st st' (v : gmap address Actor) : Prop := {
  replaced_wf : tree_wf st';
  replaced_root : root st' = root st;
  replaced_stack : stack st' = v :: tl (stack st);
  replaced_below : tl (layers (snaps st')) = tl (layers (snaps st));
  replaced_lookup : Head <$> v !! init_Address = Head <$> top st !! init_Address ->
    forall b, lookup_result st' b = lookup_result st b;
  replaced_coherent : coherent st -> extends (top st) v -> coherent st';
}.

Lemma replaced_top st st' v : replaced st st' v -> top st' = v.
Proof. intros [_ _ Hs _ _ _]. rewrite (stack_top st') in Hs. by injection Hs. Qed.

Lemma replaced_quiet st st1 st2 v : quiet st st1 -> replaced st1 st2 v -> replaced st st2 v.
Proof.
  intros Hq [Hw Hr' Hs' Hb' Hl' Hc']. rewrite (quiet_top _ _ Hq) in *.
  destruct Hq as [_ Hr Hs Hb Hl Hc].
  split; [done|congruence..|intros Hi b; rewrite Hl'; auto|auto].
Qed.

(** Replacing the top view under the same caches. *)
Lemma replaced_same_caches st st' v :
  tree_wf st' -> root st' = root st -> caches st' = caches st ->
  tl (layers (snaps st')) = tl (layers (snaps st)) ->
  stack st' = v :: tl (stack st) -> replaced st st' v.
Proof.
  intros Hwf Hr Hc Hb Hs. split; [done..| |].
  { intros Hi b. unfold lookup_result, lookup_in, resolve_in. rewrite (resolve_all_caches _ _ b Hc).
    rewrite (stack_top st') in Hs. injection Hs as -> _.
    destruct (v !! init_Address), (top st !! init_Address); simpl in Hi; try done. by injection Hi as ->. }
  unfold coherent. rewrite Hs, Hc, (stack_top st). simpl.
  destruct (caches st) as [|c cs]; [done|]. simpl. intros (Hc1 & Hw & Hrest) Hext.
  split_and!; [by eauto| |done]. intros w Hw' a i Hi. by eapply Hext, Hw.
Qed.

Lemma setActor_replaced st a act :
  tree_wf st ->
  exists st', on_top st (setActor (snaps st) a act) = (Ok tt, st') /\
    replaced st st' (<[a := act]> (top st)).
Proof.
  intros Hwf. destruct (setActor_spec (base st) (snaps st) a act Hwf) as (ss & -> & Hwf' & Hc & Hb & Hv).
  eexists. split; [done|]. by apply replaced_same_caches.
Qed.

Lemma deleteActor_replaced st a :
  tree_wf st ->
  exists st', on_top st (deleteActor (snaps st) a) = (Ok tt, st') /\
    replaced st st' (delete a (top st)).
Proof.
  intros Hwf. destruct (deleteActor_spec (base st) (snaps st) a Hwf) as (ss & -> & Hwf' & Hc & Hb & Hv).
  eexists. split; [done|]. by apply replaced_same_caches.
Qed.

Definition get_result st a : result st_error Actor :=
  if decide (a = Undef) then Err ErrUndefAddress
  else match lookup_result st a with
       | Err e => Err e
       | Ok i => match top st !! i with Some act => Ok act | None => Err ErrActorNotFound end
       end.

Lemma lookup_result_ID st a : Protocol a = ProtoID -> lookup_result st a = Ok a.
Proof. unfold lookup_result, lookup_in. by intros ->. Qed.

Lemma lookup_result_proto st a i : tree_wf st -> lookup_result st a = Ok i -> Protocol i = ProtoID.
Proof.
  intros Hwf. pose proof (LookupID_spec st a Hwf) as Hl.
  destruct (LookupID st a) as [r st']. destruct Hl as (_ & <- & Hi). apply Hi.
Qed.

Lemma GetActor_spec st a :
  tree_wf st ->
  let '(r, st') := GetActor st a in quiet st st' /\ r = get_result st a.
Proof.
  intros Hwf. unfold GetActor, get_result. case_decide as Ha; [split; [by apply quiet_refl|done]|].
  pose proof (LookupID_spec st a Hwf) as Hl. destruct (LookupID st a) as [r st1].
  destruct Hl as (Hq1 & <- & Hi). destruct r as [i|e]; [|done].
  pose proof (GetActor_resolved_spec st1 i (quiet_wf _ _ Hq1)) as Hg.
  destruct (GetActor_resolved st1 i) as [r2 st2]. destruct Hg as (Hq2 & _ & ->).
  rewrite (quiet_top _ _ Hq1). split; [by eapply quiet_trans|done].
Qed.

Lemma SetActor_spec st a act :
  tree_wf st ->
  let '(r, st') := SetActor st a act in
  match lookup_result st a with
  | Err e => r = Err e /\ quiet st st'
  | Ok i => r = Ok tt /\ replaced st st' (<[i := act]> (top st))
  end.
Proof.
  intros Hwf. unfold SetActor. pose proof (LookupID_spec st a Hwf) as Hl.
  destruct (LookupID st a) as [r st1]. destruct Hl as (Hq1 & <- & _). destruct r as [i|e]; [|done].
  destruct (setActor_replaced st1 i act (quiet_wf _ _ Hq1)) as (st2 & -> & Hr).
  split; [done|]. rewrite <- (quiet_top _ _ Hq1). by eapply replaced_quiet.
Qed.

Lemma DeleteActor_spec st a :
  tree_wf st -> a <> Undef ->
  let '(r, st') := DeleteActor st a in
  match get_result st a with
  | Err e => r = Err e /\ quiet st st'
  | Ok _ => r = Ok tt /\ exists i, lookup_result st a = Ok i /\ replaced st st' (delete i (top st))
  end.
Proof.
  intros Hwf Ha. unfold DeleteActor, get_result. rewrite !decide_False by done.
  pose proof (LookupID_spec st a Hwf) as Hl. destruct (LookupID st a) as [r st1].
  destruct Hl as (Hq1 & <- & Hi). destruct r as [i|e]; [|done].
  pose proof (Hi i eq_refl) as Hp.
  pose proof (GetActor_spec st1 i (quiet_wf _ _ Hq1)) as Hg.
  destruct (GetActor st1 i) as [r2 st2]. destruct Hg as [Hq2 ->].
  unfold get_result. rewrite (lookup_result_ID st1 i Hp), (quiet_top _ _ Hq1).
  rewrite decide_False by (by intros ->).
  pose proof (quiet_trans _ _ _ Hq1 Hq2) as Hq.
  destruct (top st !! i) as [act|]; [|done].
  destruct (deleteActor_replaced st2 i (quiet_wf _ _ Hq)) as (st3 & -> & Hr).
  split; [done|]. exists i. split; [done|]. rewrite <- (quiet_top _ _ Hq). by eapply replaced_quiet.
Qed.

Lemma MutateActor_spec {S} st a (f : Actor -> result st_error (Actor * S)) :
  tree_wf st ->
  let '(r, st') := MutateActor st a f in
  match get_result st a with
  | Err e => r = Err e /\ quiet st st'
  | Ok act =>
      match f act with
      | Err e => r = Err e /\ quiet st st'
      | Ok (act', s) => r = Ok s /\ exists i, lookup_result st a = Ok i /\
          top st !! i = Some act /\ replaced st st' (<[i := act']> (top st))
      end
  end.
Proof.
  intros Hwf. unfold MutateActor. pose proof (GetActor_spec st a Hwf) as Hg.
  destruct (GetActor st a) as [r st1]. destruct Hg as [Hq1 ->].
  destruct (get_result st a) as [act|e] eqn:Eg; [|done].
  destruct (f act) as [[act' s]|e]; [|done].
  pose proof (SetActor_spec st1 a act' (quiet_wf _ _ Hq1)) as Hs.
  destruct (SetActor st1 a act') as [r2 st2]. unfold get_result in Eg. case_decide; [done|].
  rewrite (quiet_lookup _ _ Hq1) in Hs. destruct (lookup_result st a) as [i|] eqn:El; [|done].
  destruct Hs as [-> Hr]. split; [done|]. exists i. split; [done|].
  destruct (top st !! i) eqn:Et; [|done]. injection Eg as ->. split; [done|].
  rewrite <- (quiet_top _ _ Hq1). by eapply replaced_quiet.
Qed.

Lemma Snapshot_spec st :
  tree_wf st -> tree_wf (Snapshot st) /\ root (Snapshot st) = root st /\
    stack (Snapshot st) = top st :: stack st /\ (coherent st -> coherent (Snapshot st)).
Proof.
  intros [Hne Hlast Habove Hids]. split_and!; [|done|apply addLayer_views|].
  - unfold tree_wf. simpl. destruct (snaps st). apply addLayer_wf; simpl in *; [lia|done..].
  - unfold coherent, caches, stack. cbn [Snapshot with_snaps snaps]. rewrite addLayer_views. simpl.
    intros Hc. split_and!; [by intros ?? []%lookup_empty_Some| |done].
    intros w. rewrite views_cons. simpl. intros [= <-] b j Hj. exact Hj.
Qed.

(** [Revert] leaves the layers under the top one as they are and an empty layer
    over them. *)
Lemma Revert_spec st :
  tree_wf st ->
  exists st', Revert st = (Ok tt, st') /\ tree_wf st' /\ root st' = root st /\
    layers (snaps st') = newStateSnapLayer :: tl (layers (snaps st)) /\ (coherent st -> coherent st').
Proof.
  intros Hwf. unfold Revert, tree_wf in *. destruct (snaps st) as [[|l ls] last] eqn:Es;
    [by destruct (wf_layers _ Hwf)|].
  destruct (dropLayer_eq l ls last Hwf) as (last' & Hd & Hb & Habove & _).
  rewrite Hd. exists (with_snaps st (addLayer (mkSnaps ls last'))).
  split_and!; [done| |done|done|].
  - apply addLayer_wf; [done..|]. apply wf_ids in Hwf. by apply Forall_cons in Hwf as [_ ?].
  - unfold coherent, caches, stack. rewrite Es. cbn [with_snaps snaps]. rewrite addLayer_views. simpl.
    intros (_ & _ & Hrest). split_and!; [by intros ?? []%lookup_empty_Some| |done].
    intros w. rewrite views_cons. simpl. intros [= <-] b j Hj. exact Hj.
Qed.

Lemma empty_layer_views st ls :
  layers (snaps st) = newStateSnapLayer :: ls ->
  top st = view (base st) ls /\ stack st = view (base st) ls :: views (base st) ls /\
  forall a, lookup_result st a = lookup_in ls (view (base st) ls) a.
Proof.
  intros Hl. unfold lookup_result, top, stack. rewrite Hl. simpl. rewrite view_cons. simpl.
  rewrite !apply_ops_empty. split_and!; [done..|]. intros a. unfold lookup_in. simpl.
  by rewrite lookup_empty.
Qed.

Lemma ClearSnapshot_spec st :
  tree_wf st ->
  match layers (snaps st) with
  | _ :: _ :: _ => exists st', ClearSnapshot st = (Ok tt, st') /\ tree_wf st' /\
      root st' = root st /\ stack st' = top st :: tl (tl (stack st)) /\
      tl (layers (snaps st')) = tl (tl (layers (snaps st))) /\ (coherent st -> coherent st')
  | _ => ClearSnapshot st = (Err IndexPanic, st)
  end.
Proof.
  intros Hwf. pose proof (mergeLastLayer_spec (base st) (snaps st) Hwf) as Hm.
  unfold ClearSnapshot. destruct (layers (snaps st)) as [|l [|n ls]] eqn:El; [by rewrite Hm..|].
  destruct Hm as (ss' & -> & Hwf' & Hl & Hv). eexists. split; [done|].
  split_and!; [done..| |by simpl; rewrite Hl|].
  - unfold stack, top. simpl. rewrite El. exact Hv.
  - unfold coherent, caches, stack. simpl. change (base (with_snaps st ss')) with (base st).
    rewrite Hv, Hl, El. simpl. intros (Hc1 & Hw1 & Hc2 & Hw2 & Hrest).
    split_and!; [|intros w Hw a i Hi; by eapply Hw1, Hw2|done].
    intros a i [Hi|[_ Hi]]%lookup_union_Some_raw; [by apply Hc1|]. by eapply Hw1, Hc2.
Qed.
End Laws.

(** * Flush and ForEach *)

Section Walks.
Context {H : Type} `{AdtMapLaws H}.

(** Every address deleted in [ops] is stored in [v]. *)
Definition tombstones_stored (ops : gmap address streeOp) (v : gmap address Actor) : Prop :=
  forall a op, ops !! a = Some op -> Delete op = true -> is_Some (v !! a).

Lemma flush_op_spec (h : H) a op :
  match (if Delete op then adt_Delete h a else adt_Put h a (Act op)) with
  | Ok h' => (Delete op = true -> is_Some (adt_contents h !! a)) /\
             adt_contents h' = apply_ops {[a := op]} (adt_contents h)
  | Err _ => Delete op = true /\ adt_contents h !! a = None
  end.
Proof.
  assert (Hops : apply_ops {[a := op]} (adt_contents h) =
    if Delete op then delete a (adt_contents h) else <[a := Act op]> (adt_contents h)).
  { by rewrite <- insert_empty, apply_ops_insert, apply_ops_empty. }
  rewrite Hops. destruct (Delete op).
  - destruct (adt_contents h !! a) eqn:E.
    + destruct (adt_Delete_ok h a) as (h' & -> & ->); [by rewrite E|]. by split.
    + by rewrite adt_Delete_absent.
  - destruct (adt_Put_ok h a (Act op)) as (h' & -> & ->). by split.
Qed.

Lemma flush_ops_spec order (h : H) :
  NoDup order.*1 ->
  let '(r, h') := flush_ops h order in
  (r = Ok tt <-> tombstones_stored (list_to_map order) (adt_contents h)) /\
  (r = Ok tt -> adt_contents h' = apply_ops (list_to_map order) (adt_contents h)).
Proof.
  revert h. induction order as [|[a op] rest IH]; intros h Hnd; simpl in *.
  { split; [split; [by intros _ ?? ?%lookup_empty_Some|done]|].
    intros _. by rewrite apply_ops_empty. }
  apply NoDup_cons in Hnd as [Ha Hnd].
  assert (Hnone : (list_to_map rest : gmap address streeOp) !! a = None)
    by by apply not_elem_of_list_to_map_1.
  pose proof (flush_op_spec h a op) as Hop.
  destruct (if Delete op then _ else _) as [h1|e].
  - destruct Hop as [Hst Hh1]. specialize (IH h1 Hnd).
    destruct (flush_ops h1 rest) as [r h']. destruct IH as [IHr IHh]. rewrite Hh1 in IHr, IHh.
    assert (Heq : forall b, b <> a -> apply_ops {[a := op]} (adt_contents h) !! b = adt_contents h !! b).
    { intros b Hb. by rewrite apply_ops_lookup, lookup_singleton_ne. }
    split.
    + rewrite IHr. split; intros Hts b o Hb Hd.
      * apply lookup_insert_Some in Hb as [[<- <-]|[Hne Hb]]; [auto|].
        rewrite <- Heq by done. by eapply Hts.
      * assert (b <> a) by (intros ->; congruence). rewrite Heq by done.
        eapply Hts; [by rewrite lookup_insert_ne|done].
    + intros Hr. rewrite IHh by done. rewrite <- apply_ops_union. f_equal.
      rewrite <- insert_union_singleton_r by done. done.
  - destruct Hop as [Hd Hno]. split; [|done]. split; [done|]. intros Hts.
    destruct (Hts a op) as [x Hx]; [by rewrite lookup_insert_eq|done|congruence].
Qed.

End Walks.

Lemma listing_NoDup {A} (m : gmap address A) order : order ≡ₚ map_to_list m -> NoDup order.*1.
Proof. intros ->. apply NoDup_fst_map_to_list. Qed.

Lemma listing_to_map {A} (m : gmap address A) order :
  order ≡ₚ map_to_list m -> list_to_map order = m.
Proof.
  intros Hp. rewrite (list_to_map_proper order (map_to_list m)); [apply list_to_map_to_list| |done].
  by eapply listing_NoDup.
Qed.

Lemma listing_elem {A} (m : gmap address A) order a x :
  order ≡ₚ map_to_list m -> (a, x) ∈ order <-> m !! a = Some x.
Proof. intros ->. apply elem_of_map_to_list. Qed.

Lemma forEach_layer_spec seen order :
  NoDup order.*1 ->
  let '(out, seen') := forEach_layer seen order in
  NoDup out.*1 /\
  (forall a act, (a, act) ∈ out <-> a ∉ seen /\ (a, mkOp act false) ∈ order) /\
  (forall a, a ∈ seen' <-> a ∈ seen \/ a ∈ order.*1).
Proof.
  revert seen. induction order as [|[a op] rest IH]; intros seen Hnd; simpl in *.
  { split_and!; [constructor|set_solver|set_solver]. }
  apply NoDup_cons in Hnd as [Ha Hnd]. case_decide as Hs.
  - specialize (IH seen Hnd). destruct (forEach_layer seen rest) as [out seen'].
    destruct IH as (IH1 & IH2 & IH3). split_and!; [done| |set_solver].
    intros b act. rewrite IH2, elem_of_cons. split; [naive_solver|].
    intros [Hb [[= -> _]|Hin]]; [done|]. by split.
  - specialize (IH ({[a]} ∪ seen) Hnd). destruct (forEach_layer _ rest) as [out seen'].
    destruct IH as (IH1 & IH2 & IH3). split_and!; [| |set_solver].
    + destruct (Delete op); [done|]. simpl. apply NoDup_cons. split; [|done].
      intros ([b act] & Hb & Hin)%list_elem_of_fmap. simpl in Hb. subst b.
      apply IH2 in Hin as [Hin _]. set_solver.
    + intros b act. assert (Hrest : (a, mkOp act false) ∉ rest).
      { intros Hin. apply Ha. apply list_elem_of_fmap. by exists (a, mkOp act false). }
      destruct op as [x d]. destruct d; simpl; rewrite ?elem_of_cons, IH2; set_solver.
Qed.

(** One listing per layer, each a permutation of the layer's entries. *)
Definition listings (ls : list stateSnapLayer) (orders : list (list (address * streeOp))) : Prop :=
  Forall2 (fun l o => o ≡ₚ map_to_list (actors l)) ls orders.

Lemma forEach_layers_spec ls orders seen :
  listings ls orders ->
  let '(out, seen') := forEach_layers seen orders in
  NoDup out.*1 /\
  (forall a act, (a, act) ∈ out <-> a ∉ seen /\ getActor_in ls a = Ok (Some act)) /\
  (forall a, a ∉ seen' <-> a ∉ seen /\ getActor_in ls a = Ok None).
Proof.
  intros Hl. revert seen. induction Hl as [|l o ls orders Ho _ IH]; intros seen; simpl.
  { split_and!; [constructor|set_solver|set_solver]. }
  pose proof (forEach_layer_spec seen o (listing_NoDup _ _ Ho)) as Hlay.
  destruct (forEach_layer seen o) as [out seen1]. destruct Hlay as (Hnd1 & Hin1 & Hs1).
  specialize (IH seen1). destruct (forEach_layers seen1 orders) as [outs seen2].
  destruct IH as (Hnd2 & Hin2 & Hs2).
  assert (Hdom : forall a, a ∈ o.*1 <-> is_Some (actors l !! a)).
  { intros a. rewrite list_elem_of_fmap. split.
    - intros ([b op] & -> & Hb). apply (listing_elem _ _ _ _ Ho) in Hb. by exists op.
    - intros [op Hop]. exists (a, op). split; [done|]. by apply (listing_elem _ _ _ _ Ho). }
  split_and!.
  - rewrite fmap_app. apply NoDup_app. split_and!; [done| |done].
    intros a ([b act] & -> & Hb)%list_elem_of_fmap ([c act'] & Hc & Hin)%list_elem_of_fmap.
    simpl in *. subst c. apply Hin1 in Hb as [_ Hb]. apply Hin2 in Hin as [Hin _].
    apply Hin, Hs1. right. apply list_elem_of_fmap. by exists (b, mkOp act false).
  - intros a act. rewrite elem_of_app, Hin1, Hin2, Hs1, Hdom, (listing_elem _ _ _ _ Ho).
    destruct (actors l !! a) as [[x d]|] eqn:Ea; [|naive_solver].
    destruct d; naive_solver.
  - intros a. rewrite Hs2, Hs1, Hdom.
    destruct (actors l !! a) as [[x d]|] eqn:Ea; [|naive_solver].
    destruct d; naive_solver.
Qed.

Lemma map_to_list_unique (l : list (address * Actor)) (m : gmap address Actor) :
  NoDup l.*1 -> (forall a act, (a, act) ∈ l <-> m !! a = Some act) -> l ≡ₚ map_to_list m.
Proof.
  intros Hnd Hin. apply NoDup_Permutation; [by eapply NoDup_fmap_1|apply NoDup_map_to_list|].
  intros [a act]. by rewrite Hin, elem_of_map_to_list.
Qed.

(** * The abstract stack of maps *)

(** Operations on ID addresses, as a client issues them. *)
Inductive st_op :=
  | OpGet (n : Z)
  | OpSet (n : Z) (act : Actor)
  | OpDelete (n : Z)
  | OpSnapshot
  | OpRevert
  | OpClear.

Inductive st_out :=
  | OutActor (r : result st_error Actor)
  | OutUnit (r : result st_error unit).

Definition run_op {H} `{AdtMap H} `{InitActor} (st : StateTree H) (op : st_op) : st_out * StateTree H :=
  match op with
  | OpGet n => let '(r, st') := GetActor st (IDAddr n) in (OutActor r, st')
  | OpSet n act => let '(r, st') := SetActor st (IDAddr n) act in (OutUnit r, st')
  | OpDelete n => let '(r, st') := DeleteActor st (IDAddr n) in (OutUnit r, st')
  | OpSnapshot => (OutUnit (Ok tt), Snapshot st)
  | OpRevert => let '(r, st') := Revert st in (OutUnit r, st')
  | OpClear => let '(r, st') := ClearSnapshot st in (OutUnit r, st')
  end.

(** The specification: a stack of plain maps, the stored state at the bottom. *)
Definition spec_op (vs : list (gmap address Actor)) (op : st_op) : st_out * list (gmap address Actor) :=
  match vs with
  | v :: rest =>
      match op with
      | OpGet n => (OutActor (match v !! IDAddr n with
                              | Some act => Ok act
                              | None => Err ErrActorNotFound
                              end), vs)
      | OpSet n act => (OutUnit (Ok tt), <[IDAddr n := act]> v :: rest)
      | OpDelete n => match v !! IDAddr n with
                      | Some _ => (OutUnit (Ok tt), delete (IDAddr n) v :: rest)
                      | None => (OutUnit (Err ErrActorNotFound), vs)
                      end
      | OpSnapshot => (OutUnit (Ok tt), v :: vs)
      | OpRevert => match rest with
                    | w :: _ => (OutUnit (Ok tt), w :: rest)
                    | [] => (OutUnit (Err IndexPanic), vs)
                    end
      | OpClear => match rest with
                   | _ :: w :: rest' => (OutUnit (Ok tt), v :: w :: rest')
                   | _ => (OutUnit (Err IndexPanic), vs)
                   end
      end
  | [] => (OutUnit (Err IndexPanic), vs)
  end.

Fixpoint run_all {S} (step : S -> st_op -> st_out * S) (s : S) (ops : list st_op) : list st_out * S :=
  match ops with
  | [] => ([], s)
  | op :: ops' =>
      let '(o, s') := step s op in
      let '(os, s'') := run_all step s' ops' in
      (o :: os, s'')
  end.

Section Refinement.
Context {H : Type} `{AdtMapLaws H} `{InitActorLaws}.
Implicit Types st : StateTree H.

Lemma get_result_ID st n :
  get_result st (IDAddr n) =
    match top st !! IDAddr n with Some act => Ok act | None => Err ErrActorNotFound end.
Proof. unfold get_result. rewrite decide_False by done. by rewrite lookup_result_ID. Qed.

Lemma run_op_refines st op :
  tree_wf st ->
  let '(o, st') := run_op st op in
  tree_wf st' /\ spec_op (stack st) op = (o, stack st').
Proof.
  intros Hwf. rewrite stack_top. destruct op as [n|n act|n| | |]; simpl.
  - pose proof (GetActor_spec st (IDAddr n) Hwf) as Hs. destruct (GetActor st _) as [r st'].
    destruct Hs as [Hq ->]. rewrite get_result_ID, (quiet_stack _ _ Hq), <- stack_top.
    split; [apply Hq|done].
  - pose proof (SetActor_spec st (IDAddr n) act Hwf) as Hs. destruct (SetActor st _ _) as [r st'].
    rewrite lookup_result_ID in Hs by done. destruct Hs as [-> [Hw _ -> _ _ _]]. done.
  - pose proof (DeleteActor_spec st (IDAddr n) Hwf) as Hs. destruct (DeleteActor st _) as [r st'].
    rewrite get_result_ID in Hs. specialize (Hs ltac:(done)).
    destruct (top st !! IDAddr n) as [act|].
    + destruct Hs as [-> (i & Hi & [Hw _ -> _ _ _])]. rewrite lookup_result_ID in Hi by done.
      by injection Hi as <-.
    + destruct Hs as [-> Hq]. rewrite (quiet_stack _ _ Hq), <- stack_top. split; [apply Hq|done].
  - destruct (Snapshot_spec st Hwf) as (Hw & _ & -> & _). by rewrite <- stack_top.
  - destruct (Revert_spec st Hwf) as (st' & -> & Hw & Hroot & Hl & _). split; [done|].
    destruct (empty_layer_views st' _ Hl) as (_ & -> & _). unfold stack, base. rewrite Hroot.
    destruct (layers (snaps st)) as [|l ls] eqn:El; [by destruct (wf_layers _ Hwf)|]. simpl.
    by rewrite views_cons.
  - pose proof (ClearSnapshot_spec st Hwf) as Hc.
    assert (Hlen : stack st = top st :: tl (stack st)) by apply stack_top.
    unfold stack in Hlen |- * at 2. destruct (layers (snaps st)) as [|l [|m ls]] eqn:El.
    + by destruct (wf_layers _ Hwf).
    + rewrite Hc. simpl. split; [done|]. unfold stack, top. by rewrite El.
    + destruct Hc as (st' & -> & Hw & _ & -> & _ & _). split; [done|].
      unfold stack. rewrite El. simpl. by rewrite (views_cons (base st) ls).
Qed.
End Refinement.

(** Steps on the layers from a fresh tree; resolutions cached are ID addresses. *)
Inductive snaps_reachable : stateSnaps -> Prop :=
  | reach_new : snaps_reachable newStateSnaps
  | reach_add ss : snaps_reachable ss -> snaps_reachable (addLayer ss)
  | reach_revert ss ss' : snaps_reachable ss -> dropLayer ss = Some ss' ->
      snaps_reachable (addLayer ss')
  | reach_merge ss ss' : snaps_reachable ss -> mergeLastLayer ss = Some ss' -> snaps_reachable ss'
  | reach_set ss ss' a act : snaps_reachable ss -> setActor ss a act = Some ss' -> snaps_reachable ss'
  | reach_delete ss ss' a : snaps_reachable ss -> deleteActor ss a = Some ss' -> snaps_reachable ss'
  | reach_cache ss ss' a i : snaps_reachable ss -> Protocol i = ProtoID ->
      cacheResolveAddress ss a i = Some ss' -> snaps_reachable ss'
  | reach_resolve ss a : snaps_reachable ss -> snaps_reachable (resolveAddress ss a).2.

Lemma snaps_reachable_wf ss : snaps_reachable ss -> snaps_wf ss.
Proof.
  induction 1 as [|ss _ IH|ss ss' _ IH Hd|ss ss' _ IH Hm|ss ss' a act _ IH Hs|ss ss' a _ IH Hs
                 |ss ss' a i _ IH Hi Hs|ss a _ IH].
  - split; simpl; [done|done|constructor|]. constructor; [|done]. simpl. by intros ?? ?%lookup_empty_Some.
  - destruct ss, IH as [? Hl Ha Hids]. apply addLayer_wf; simpl in *; [lia|done..].
  - destruct ss as [[|l ls] last]; [done|]. destruct (dropLayer_eq l ls last IH) as (last' & Hd' & ? & ? & _).
    rewrite Hd in Hd'. injection Hd' as ->. apply addLayer_wf; [done..|].
    apply wf_ids in IH. by apply Forall_cons in IH as [_ ?].
  - pose proof (mergeLastLayer_spec ∅ ss IH) as Hspec.
    destruct (layers ss) as [|l [|n ls]]; [congruence..|].
    destruct Hspec as (ss'' & Hm' & Hwf & _). congruence.
  - destruct (setActor_spec ∅ ss a act IH) as (ss'' & Hs' & Hwf & _). congruence.
  - destruct (deleteActor_spec ∅ ss a IH) as (ss'' & Hs' & Hwf & _). congruence.
  - destruct (cacheResolveAddress_spec ∅ ss a i IH Hi) as (ss'' & Hs' & Hwf & _). congruence.
  - by apply resolveAddress_spec.
Qed.

(** Steps of the tree that respect the init actor: its address map only grows. *)
Inductive tree_step {H} `{AdtMapLaws H} `{InitActorLaws} : StateTree H -> StateTree H -> Prop :=
  | step_lookup st a : tree_step st (LookupID st a).2
  | step_get st a : tree_step st (GetActor st a).2
  | step_set st a act i : lookup_result st a = Ok i -> extends (top st) (<[i := act]> (top st)) ->
      tree_step st (SetActor st a act).2
  | step_delete st a i : lookup_result st a = Ok i -> i <> init_Address -> a <> Undef ->
      tree_step st (DeleteActor st a).2
  | step_register st a e : resolve_in (top st) a = Err e -> tree_step st (RegisterNewAddress st a).2
  | step_snapshot st : tree_step st (Snapshot st)
  | step_revert st : tree_step st (Revert st).2
  | step_clear st : tree_step st (ClearSnapshot st).2.

Section Coherence.
Context {H : Type} `{AdtMapLaws H} `{InitActorLaws}.
Implicit Types st : StateTree H.

Lemma coherent_resolve_all st a i :
  coherent st -> resolve_all (layers (snaps st)) a = Some i -> resolve_in (top st) a = Ok i.
Proof.
  unfold coherent, caches, stack, top. induction (layers (snaps st)) as [|l ls IH]; [done|].
  cbn [map views coherent_with resolve_all]. rewrite view_cons. intros (Hc & Hw & Hrest).
  destruct (resolveCache l !! a) eqn:E; [intros [= <-]; by apply Hc|].
  intros Hr. eapply Hw; [by rewrite views_cons|]. by apply IH.
Qed.

Lemma coherent_new h ver inf : coherent (mkTree h ver inf newStateSnaps : StateTree H).
Proof.
  unfold coherent. simpl. split_and!; [by intros ?? []%lookup_empty_Some| |done].
  intros w [= <-]. unfold base. simpl. rewrite apply_ops_empty. by intros b j Hj.
Qed.

Lemma coherent_lookup st a :
  coherent st ->
  lookup_result st a = match Protocol a with ProtoID => Ok a | _ => resolve_in (top st) a end.
Proof.
  intros Hc. unfold lookup_result, lookup_in.
  destruct (Protocol a), (resolve_all (layers (snaps st)) a) eqn:E; try done;
    by rewrite (coherent_resolve_all st a _ Hc E).
Qed.

Lemma extends_other v i (x : option Actor) :
  i <> init_Address -> extends v (partial_alter (fun _ => x) i v).
Proof. intros Hi a j. unfold resolve_in. by rewrite lookup_partial_alter_ne. Qed.

Lemma register_extends v act hd' a i e :
  v !! init_Address = Some act -> resolve_in v a = Err e ->
  init_MapAddressToNewID (Head act) a = Ok (hd', i) ->
  extends v (<[init_Address := mkActor (Code act) hd' (Nonce act) (Balance act)]> v) /\
  resolve_in (<[init_Address := mkActor (Code act) hd' (Nonce act) (Balance act)]> v) a = Ok i.
Proof.
  intros Hv Hno Hmap. unfold extends, resolve_in in *. rewrite Hv in *. rewrite lookup_insert_eq. simpl.
  split; [|by rewrite (init_map_new _ _ _ _ Hmap)].
  intros b j. destruct (init_ResolveAddress (Head act) b) as [[k|]|] eqn:E; [|done..].
  intros [= ->]. destruct (decide (b = a)) as [->|Hne]; [by rewrite E in Hno|].
  by rewrite (init_map_keeps _ _ _ _ _ _ Hmap Hne E).
Qed.

Lemma RegisterNewAddress_spec st a e :
  tree_wf st -> resolve_in (top st) a = Err e ->
  let '(r, st') := RegisterNewAddress st a in
  tree_wf st' /\ (coherent st -> coherent st') /\
  (forall i, r = Ok i -> resolve_in (top st') a = Ok i).
Proof.
  intros Hwf Hno. unfold RegisterNewAddress.
  match goal with |- context [MutateActor st init_Address ?f] =>
    pose proof (MutateActor_spec st init_Address f Hwf) as Hm;
    destruct (MutateActor st init_Address f) as [r st'] end.
  unfold init_Address in Hm at 1. rewrite get_result_ID in Hm. fold init_Address in Hm.
  destruct (top st !! init_Address) as [act|] eqn:Ea.
  2: { destruct Hm as [-> Hq]. split_and!; [apply Hq..|done]. }
  destruct (init_MapAddressToNewID (Head act) a) as [[hd' i]|e'] eqn:Em.
  2: { destruct Hm as [-> Hq]. split_and!; [apply Hq..|done]. }
  destruct Hm as [-> (j & Hj & Hact & Hr)]. rewrite lookup_result_ID in Hj by done.
  injection Hj as <-. destruct (register_extends _ _ _ _ _ _ Ea Hno Em) as [Hext Hres].
  split_and!; [apply Hr|intros Hc; by eapply replaced_coherent|].
  intros k [= <-]. by rewrite (replaced_top _ _ _ Hr).
Qed.

Lemma tree_step_coherent st st' :
  tree_step st st' -> tree_wf st -> coherent st -> tree_wf st' /\ coherent st'.
Proof.
  destruct 1 as [st a|st a|st a act i Hi Hext|st a i Hi Hne Ha|st a e He|st|st|st]; intros Hwf Hc.
  - pose proof (LookupID_spec st a Hwf) as Hs. destruct (LookupID st a).
    destruct Hs as (Hq & _). split; [apply Hq|by eapply quiet_coherent].
  - pose proof (GetActor_spec st a Hwf) as Hs. destruct (GetActor st a).
    destruct Hs as (Hq & _). split; [apply Hq|by eapply quiet_coherent].
  - pose proof (SetActor_spec st a act Hwf) as Hs. destruct (SetActor st a act).
    rewrite Hi in Hs. destruct Hs as [_ Hr]. split; [apply Hr|by eapply replaced_coherent].
  - pose proof (DeleteActor_spec st a Hwf Ha) as Hs. destruct (DeleteActor st a).
    destruct (get_result st a).
    + destruct Hs as [_ (j & Hj & Hr)]. assert (j = i) as -> by congruence.
      split; [apply Hr|]. eapply replaced_coherent; [done..|]. by apply extends_other.
    + destruct Hs as [_ Hq]. split; [apply Hq|by eapply quiet_coherent].
  - pose proof (RegisterNewAddress_spec st a e Hwf He) as Hs. destruct (RegisterNewAddress st a).
    destruct Hs as (? & Hc' & _). auto.
  - destruct (Snapshot_spec st Hwf) as (? & _ & _ & Hc'). auto.
  - destruct (Revert_spec st Hwf) as (st' & -> & Hw & _ & _ & Hc'). auto.
  - pose proof (ClearSnapshot_spec st Hwf) as Hs.
    destruct (layers (snaps st)) as [|l [|n ls]]; [by rewrite Hs..|].
    destruct Hs as (st' & -> & ? & _ & _ & _ & Hc'). auto.
Qed.
End Coherence.

(** * A concrete store and init actor *)

Module Example.

(** The HAMT as a plain map. *)
Definition mem_map : AdtMap (gmap address Actor) := {|
  adt_Get := fun h a => Ok (h !! a);
  adt_Put := fun h a act => Ok (<[a := act]> h);
  adt_Delete := fun h a => match h !! a with Some _ => Ok (delete a h) | None => Err ErrHamt end;
  adt_ForEach := fun h => map_to_list h;
  adt_Root := fun _ => Ok "root"%string;
|}.

#[local] Existing Instance mem_map.

#[refine] Definition mem_map_laws : AdtMapLaws (gmap address Actor) := {|
  adt_contents := fun h => h
|}.
Proof.
  - done.
  - intros h a act. by eexists.
  - intros h a [x Hx]. simpl. rewrite Hx. by eexists.
  - intros h a Hn. simpl. by rewrite Hn.
  - done.
Defined.

(** An init actor with two states: "h0" knows alice, "h1" also bob. *)
Definition two_heads : InitActor := {|
  init_ResolveAddress := fun hd a =>
    if decide (a = BLSAddr "alice") then Ok (Some (IDAddr 100))
    else if decide (a = BLSAddr "bob" /\ hd = "h1"%string) then Ok (Some (IDAddr 101))
    else Ok None;
  init_MapAddressToNewID := fun hd a =>
    if decide (a = BLSAddr "bob" /\ hd = "h0"%string) then Ok ("h1"%string, IDAddr 101)
    else Err ErrInitState;
|}.

#[local] Existing Instance two_heads.

Definition two_heads_laws : InitActorLaws.
Proof.
  split; simpl.
  - intros hd a i. repeat case_decide; naive_solver.
  - intros hd a hd' i. repeat case_decide; naive_solver.
  - intros hd a hd' i b j. repeat case_decide; naive_solver.
Defined.

Definition account (bal : Z) : Actor :=
  {| Code := "account"; Head := "empty"; Nonce := 0; Balance := bal |}.

Definition genesis : gmap address Actor :=
  {[ IDAddr 1 := {| Code := "init"; Head := "h0"; Nonce := 0; Balance := 0 |};
     IDAddr 100 := account 50 ]}.

Definition tree0 : StateTree (gmap address Actor) :=
  mkTree genesis 4 "info"%string newStateSnaps.

Lemma tree0_wf : @tree_wf (gmap address Actor) tree0.
Proof. apply snaps_reachable_wf, reach_new. Qed.
End Example.

(** * Main theorems *)

(** C2: The state tree refines a stack of plain maps: for every sequence of
    GetActor, SetActor and DeleteActor on ID addresses, Snapshot, Revert and
    ClearSnapshot, the layered tree with its cached reads returns the same
    results and errors as the stack of maps, and its layers show that stack. *)
Theorem StateTree_refines_stack {H} `{AdtMapLaws H} `{InitActorLaws} (st : StateTree H) ops :
  tree_wf st ->
  (run_all run_op st ops).1 = (run_all spec_op (stack st) ops).1 /\
  stack (run_all run_op st ops).2 = (run_all spec_op (stack st) ops).2 /\
  tree_wf (run_all run_op st ops).2.
Proof.
  revert st. induction ops as [|op ops IH]; intros st Hwf; [done|]. simpl.
  pose proof (run_op_refines st op Hwf) as Hop. destruct (run_op st op) as [o st'].
  destruct Hop as [Hwf' ->]. specialize (IH st' Hwf').
  destruct (run_all run_op st' ops), (run_all spec_op (stack st') ops). simpl in *.
  destruct IH as (-> & -> & ?). done.
Qed.

Lemma StateTree_refines_stack_witness :
  let ops := [OpSnapshot; OpSet 100 (Example.account 7); OpGet 100; OpRevert; OpGet 100;
              OpDelete 100; OpClear; OpGet 100; OpClear] in
  (run_all (@run_op _ Example.mem_map Example.two_heads) Example.tree0 ops).1 =
    [OutUnit (Ok tt); OutUnit (Ok tt); OutActor (Ok (Example.account 7)); OutUnit (Ok tt);
     OutActor (Ok (Example.account 50)); OutUnit (Ok tt); OutUnit (Ok tt);
     OutActor (Err ErrActorNotFound); OutUnit (Err IndexPanic)].
Proof.
  intros ops. etrans.
  - apply (@StateTree_refines_stack _ Example.mem_map Example.mem_map_laws Example.two_heads
      Example.two_heads_laws Example.tree0 ops Example.tree0_wf).
  - vm_compute. reflexivity.
Defined.

(** The bookkeeping index of the resolve caches is a pure optimisation: in
    every reachable stack of layers resolveAddress, which starts at
    lastMaybeNonEmptyResolveCache and moves that index past empty caches,
    returns what a scan of every layer from the top returns. *)
Theorem resolveAddress_full_scan ss a :
  snaps_reachable ss ->
  (resolveAddress ss a).1 = resolve_all (layers ss) a /\ layers (resolveAddress ss a).2 = layers ss.
Proof. intros Hr. destruct (resolveAddress_spec ss a (snaps_reachable_wf ss Hr)) as (? & ? & _). done. Qed.

Lemma resolveAddress_full_scan_witness :
  let ss := addLayer (addLayer newStateSnaps) in
  exists ss', cacheResolveAddress newStateSnaps (BLSAddr "alice") (IDAddr 100) = Some ss' /\
    (resolveAddress (addLayer (addLayer ss')) (BLSAddr "alice")).1 = Some (IDAddr 100).
Proof.
  eexists. split; [reflexivity|]. etrans.
  - apply resolveAddress_full_scan. do 2 apply reach_add.
    eapply reach_cache; [apply reach_new| |reflexivity]. reflexivity.
  - vm_compute. reflexivity.
Defined.

(** Cached address resolution never goes stale: after any sequence of tree
    operations in which the init actor's address map only grows (reverted
    snapshots included), LookupID returns what a fresh lookup in the current
    init actor state returns, errors included. *)
Theorem LookupID_fresh {H} `{AdtMapLaws H} `{InitActorLaws} (st st' : StateTree H) a :
  tree_wf st -> coherent st -> rtc tree_step st st' ->
  (LookupID st' a).1 = match Protocol a with ProtoID => Ok a | _ => resolve_in (top st') a end.
Proof.
  intros Hwf Hc Hsteps. revert Hwf Hc. induction Hsteps as [st|st1 st2 st3 Hstep _ IH]; intros Hwf Hc.
  - rewrite <- (coherent_lookup st a Hc). pose proof (LookupID_spec st a Hwf) as Hs.
    destruct (LookupID st a). by destruct Hs as (_ & -> & _).
  - destruct (tree_step_coherent _ _ Hstep Hwf Hc). by apply IH.
Qed.

Lemma LookupID_fresh_witness :
  let reg := @RegisterNewAddress _ Example.mem_map Example.two_heads
               (Snapshot Example.tree0) (BLSAddr "bob") in
  reg.1 = Ok (IDAddr 101) /\
  (@LookupID _ Example.mem_map Example.two_heads reg.2 (BLSAddr "bob")).1 = Ok (IDAddr 101).
Proof.
  split; [vm_compute; reflexivity|]. etrans.
  - apply (@LookupID_fresh _ Example.mem_map Example.mem_map_laws Example.two_heads
      Example.two_heads_laws Example.tree0).
    + apply Example.tree0_wf.
    + apply coherent_new.
    + eapply rtc_l; [apply step_snapshot|]. eapply rtc_l; [|apply rtc_refl].
      apply (step_register _ _ ErrActorNotFound). vm_compute. reflexivity.
  - vm_compute. reflexivity.
Defined.

(** Flush writes the view: with one layer and a store that answers, Flush
    succeeds exactly when every address deleted in the layer is stored in the
    HAMT, whatever order Go's map iteration takes, and then the HAMT holds
    exactly the actors the tree showed. *)
Theorem Flush_writes_view {H} `{AdtMapLaws H} (put : Z -> cid -> cid -> result st_error cid)
    (st : StateTree H) l order :
  layers (snaps st) = [l] -> order ≡ₚ map_to_list (actors l) ->
  (forall h, exists c, adt_Root h = Ok c) -> (forall v c i, exists c', put v c i = Ok c') ->
  ((exists c, (Flush put st order).1 = Ok c) <-> tombstones_stored (actors l) (base st)) /\
  (tombstones_stored (actors l) (base st) ->
   base (Flush put st order).2 = top st /\ stack (Flush put st order).2 = [top st; top st]).
Proof.
  intros Hl Hord Hroot Hput. unfold Flush. rewrite Hl.
  pose proof (flush_ops_spec order (root st) (listing_NoDup _ _ Hord)) as Hf.
  rewrite (listing_to_map _ _ Hord) in Hf. fold (base st) in Hf.
  destruct (flush_ops (root st) order) as [r h']. destruct Hf as [Hr Hh].
  assert (Htop : top st = apply_ops (actors l) (base st)) by (unfold top; by rewrite Hl).
  destruct r as [[]|e].
  - destruct (Hroot h') as [c Hc]. rewrite Hc. split.
    + split; [by intros _; apply Hr|]. intros _. simpl. destruct (version st =? 0); [by exists c|].
      apply Hput.
    + intros _. specialize (Hh eq_refl). unfold stack, base. simpl. rewrite Hl. simpl.
      fold (base st) in Hh. rewrite Hh, Htop. split; [done|]. f_equal.
      apply map_eq. intros a. rewrite !apply_ops_lookup. by destruct (actors l !! a).
  - split; [|intros Hts; by apply Hr in Hts]. split; [by intros [c ?]|]. intros Hts. by apply Hr in Hts.
Qed.

Lemma Flush_writes_view_witness :
  let st := (@SetActor _ Example.mem_map Example.two_heads Example.tree0 (IDAddr 100) (Example.account 7)).2 in
  @base _ _ Example.mem_map_laws
    (@Flush _ Example.mem_map (fun _ r _ => Ok r) st [(IDAddr 100, mkOp (Example.account 7) false)]).2
    !! IDAddr 100 = Some (Example.account 7).
Proof.
  intros st. pose proof (@Flush_writes_view _ Example.mem_map Example.mem_map_laws
    (fun _ r _ => Ok r) st (mkLayer {[IDAddr 100 := mkOp (Example.account 7) false]} ∅)
    [(IDAddr 100, mkOp (Example.account 7) false)]) as Hf.
  destruct Hf as [_ Hf].
  - vm_compute. reflexivity.
  - simpl. by rewrite map_to_list_singleton.
  - intros h. by exists "root"%string.
  - intros v c i. by exists c.
  - destruct Hf as [Hb _].
    + intros a op. simpl. rewrite lookup_singleton_Some. intros [_ <-]. discriminate.
    + rewrite Hb. vm_compute. reflexivity.
Defined.

(** A flushed deletion cannot be flushed again: when Flush succeeds on a
    layer that holds a deletion, the tombstone stays in the layer while the
    address is gone from the HAMT, so the next Flush of the same tree fails. *)
Theorem Flush_twice_after_delete_fails {H} `{AdtMapLaws H}
    (put : Z -> cid -> cid -> result st_error cid) (st : StateTree H) l order order' a op :
  layers (snaps st) = [l] -> order ≡ₚ map_to_list (actors l) -> order' ≡ₚ map_to_list (actors l) ->
  actors l !! a = Some op -> Delete op = true -> (exists c, (Flush put st order).1 = Ok c) ->
  exists e, (Flush put (Flush put st order).2 order').1 = Err e.
Proof.
  intros Hl Hord Hord' Ha Hd [c Hc]. unfold Flush in *. rewrite Hl in *.
  pose proof (flush_ops_spec order (root st) (listing_NoDup _ _ Hord)) as Hf.
  rewrite (listing_to_map _ _ Hord) in Hf.
  destruct (flush_ops (root st) order) as [r h']. destruct Hf as [_ Hh].
  destruct r as [[]|e]; [|done]. specialize (Hh eq_refl).
  set (st' := mkTree h' _ _ _) in *.
  assert (Hst' : forall x, (match adt_Root h' with
    | Ok r0 => ((if version st =? 0 then Ok r0 else x r0), st') | Err e => (Err e, st') end).2 = st')
    by (intros x; by destruct (adt_Root h')).
  rewrite Hst'. simpl. rewrite Hl.
  pose proof (flush_ops_spec order' h' (listing_NoDup _ _ Hord')) as Hf.
  rewrite (listing_to_map _ _ Hord') in Hf. destruct (flush_ops h' order') as [r' h''].
  destruct Hf as [Hr' _]. destruct r' as [[]|e]; [|by exists e].
  destruct (proj1 Hr' eq_refl a op Ha Hd) as [x Hx].
  rewrite Hh, apply_ops_lookup, Ha, Hd in Hx. done.
Qed.

Lemma Flush_twice_after_delete_fails_witness :
  let st := (@DeleteActor _ Example.mem_map Example.two_heads Example.tree0 (IDAddr 100)).2 in
  let flush s := @Flush _ Example.mem_map (fun _ r _ => Ok r) s [(IDAddr 100, mkOp zeroActor true)] in
  exists e, (flush (flush st).2).1 = Err e.
Proof.
  intros st flush. apply (@Flush_twice_after_delete_fails _ Example.mem_map Example.mem_map_laws
    (fun _ r _ => Ok r) st (mkLayer {[IDAddr 100 := mkOp zeroActor true]} ∅)
    [(IDAddr 100, mkOp zeroActor true)] [(IDAddr 100, mkOp zeroActor true)]
    (IDAddr 100) (mkOp zeroActor true)).
  - vm_compute. reflexivity.
  - simpl. by rewrite map_to_list_singleton.
  - simpl. by rewrite map_to_list_singleton.
  - reflexivity.
  - reflexivity.
  - exists "root"%string. vm_compute. reflexivity.
Defined.

(** ForEach visits every live actor exactly once: over any number of layers
    and in any iteration order of the maps, the calls it makes are a
    permutation of the top view's entries, shadowed and deleted ones excluded. *)
Theorem ForEach_visits_view {H} `{AdtMapLaws H} (st : StateTree H) orders :
  listings (layers (snaps st)) orders -> ForEach st orders ≡ₚ map_to_list (top st).
Proof.
  intros Hord. unfold ForEach. pose proof (forEach_layers_spec _ _ ∅ Hord) as Hf.
  destruct (forEach_layers ∅ orders) as [out seen]. destruct Hf as (Hnd & Hin & Hseen).
  assert (Hroot : forall a act, (a, act) ∈ adt_ForEach (root st) <-> base st !! a = Some act)
    by (intros a act; apply listing_elem, adt_ForEach_ok).
  apply map_to_list_unique.
  - rewrite fmap_app. apply NoDup_app. split_and!; [done| |].
    + intros a ([b act] & -> & Hb)%list_elem_of_fmap ([c act'] & Hc & Hfil)%list_elem_of_fmap.
      simpl in *. subst c. apply list_elem_of_filter in Hfil as [Hns _]. apply Hin in Hb as [_ Hb].
      apply Hseen in Hns as [_ Hns]. simpl in *; congruence.
    + eapply sublist_NoDup; [|apply fmap_sublist, sublist_filter].
      eapply listing_NoDup, adt_ForEach_ok.
  - intros a act. rewrite elem_of_app, list_elem_of_filter, Hin, Hroot. simpl. rewrite Hseen.
    pose proof (getActor_in_view (layers (snaps st)) (base st) a) as Hv. fold (top st) in Hv.
    destruct (getActor_in (layers (snaps st)) a) as [[x|]|e]; rewrite ?Hv;
      [set_solver|set_solver|]. destruct Hv as [_ ->]. set_solver.
Qed.

Lemma ForEach_visits_view_witness :
  let st := (@DeleteActor _ Example.mem_map Example.two_heads Example.tree0 (IDAddr 100)).2 in
  @ForEach _ Example.mem_map st [[(IDAddr 100, mkOp zeroActor true)]]
    ≡ₚ [(IDAddr 1, {| Code := "init"; Head := "h0"; Nonce := 0; Balance := 0 |})].
Proof.
  intros st. etrans.
  - apply (@ForEach_visits_view _ Example.mem_map Example.mem_map_laws). constructor; [|constructor].
    replace (actors _) with ({[IDAddr 100 := mkOp zeroActor true]} : gmap address streeOp)
      by (vm_compute; reflexivity).
    by rewrite map_to_list_singleton.
  - vm_compute. reflexivity.
Defined.
