(* ===== verification/VM.v ===== *)
(** The legacy virtual machine: message application, sends and the runtime that
    actor code calls (src/chain/vm/vm.go, runtime.go, mkactor.go, invoker.go,
    src/chain/actors/aerrors).

    The machine works on any state that implements [StateAccess]; the laws it
    relies on are [StateLaws], which StateTree.v discharges (see [tree_access]
    in VMState.v).  Actor code is not part of this repository: it is an
    arbitrary [prog], the tree of runtime calls it makes, with Go's panics as
    outcomes.  Nested sends are bounded by fuel; [MaxCallDepth] makes
    [MaxCallDepth + 2] enough (theorem [send_fuel_enough]). *)

From S2P Require Import Prelude Types Gas StateTree.
Import Gas.Prices Gas.Meter Gas.Burn.

(** * Actor errors *)

Record actorError := mkActorError { fatal : bool; retCode : Z }.

(** [New], [Newf] and [NewfSkip]: an exit code of 0 makes the error fatal. *)
Definition Newf (code : Z) : actorError :=
  if code =? 0 then mkActorError true 0 else mkActorError false code.
Definition Fatalf : actorError := mkActorError true 0.
Definition Escalate : actorError := mkActorError true 0.
Definition Wrap (e : actorError) : actorError := mkActorError (fatal e) (retCode e).

(** [Absorb] of an error that is not itself an actor error. *)
Definition Absorb (code : Z) : actorError :=
  if code =? 0 then mkActorError true 0 else mkActorError false code.

Definition RetCode (e : option actorError) : Z :=
  match e with None => 0 | Some e => retCode e end.
Definition IsFatal (e : option actorError) : bool :=
  match e with None => false | Some e => fatal e end.

(** Exit codes of go-state-types. *)
Definition SysErrSenderInvalid : Z := 1.
Definition SysErrSenderStateInvalid : Z := 2.
Definition SysErrInvalidMethod : Z := 3.
Definition SysErrIllegalInstruction : Z := 4.
Definition SysErrInvalidReceiver : Z := 5.
Definition SysErrInsufficientFunds : Z := 6.
Definition SysErrOutOfGas : Z := 7.
Definition SysErrForbidden : Z := 8.
Definition SysErrorIllegalActor : Z := 9.
Definition SysErrorIllegalArgument : Z := 10.
Definition ErrIllegalArgument : Z := 16.
Definition ErrSerialization : Z := 21.

(** * The state the machine runs on *)

Class StateAccess (T : Type) := {
  s_LookupID : T -> address -> result st_error address * T;
  s_GetActor : T -> address -> result st_error Actor * T;
  s_SetActor : T -> address -> Actor -> result st_error unit * T;
  s_DeleteActor : T -> address -> result st_error unit * T;
  s_MutateActor : forall S, T -> address -> (Actor -> result st_error (Actor * S)) ->
    result st_error S * T;
  s_RegisterNewAddress : T -> address -> result st_error address * T;
  s_Snapshot : T -> T;
  s_Revert : T -> result st_error unit * T;
  s_ClearSnapshot : T -> result st_error unit * T;
}.
Arguments s_MutateActor {T _ S}.

(** * Actor code *)

(** What a method returns: bytes, nothing, or a value that fails to marshal or
    has no known marshaller. *)
Inductive rval := RBytes (b : bytes) | RNil | RUnmarshalable | RUnknown.

(** A method body as the tree of its runtime calls. *)
Inductive prog :=
  | Return (r : rval)
  | Abortf (code : Z)
  | GoPanic
  | Caller (k : address -> prog)
  | Receiver (k : address -> prog)
  | ValueReceived (k : option Z -> prog)
  | ValidateImmediateCallerAcceptAny (k : prog)
  | ValidateImmediateCallerIs (addrs : list address) (k : prog)
  | ValidateImmediateCallerType (codes : list cid) (k : prog)
  | CurrentBalance (k : Z -> prog)
  | ResolveAddress (a : address) (k : option address -> prog)
  | GetActorCodeCID (a : address) (k : option cid -> prog)
  | NewActorAddress (k : address -> prog)
  | CreateActor (code : cid) (a : address) (k : prog)
  | DeleteSelf (beneficiary : address) (k : prog)
  | Send (to : address) (method : Z) (params : option bytes) (value : Z)
         (unmarshals : bytes -> bool) (k : Z -> bytes -> prog)
  | StateCreate (c : cid) (k : prog)
  | StateReadonly (k : cid -> prog)
  | StateTransaction (f : cid -> prog) (newHead : rval -> cid) (k : rval -> prog)
  | ChargeGas (name : string) (compute virtual : Z) (k : prog).

(** One exported method: whether its parameters decode, and its body. *)
Record native := mkNative { decodes : bytes -> bool; body : bytes -> prog }.

Record actorInfo := mkActorInfo {
  methods : gmap Z native;
  predicate : Z -> bool;
}.

(** What the machine is built with; code CIDs, hashes and the contents of actor
    states come from the actors libraries. *)
Record Env := mkEnv {
  networkVersion : Z;
  blockHeight : Z;
  baseFee : Z;
  pricelist : pricelistV0;
  areg : gmap cid actorInfo;
  IsAccountActor : cid -> bool;
  IsStorageMinerActor : cid -> bool;
  UpgradeClausHeight : Z;
  actors_VersionForNetwork : Z -> option Z;
  AccountActorCodeID : Z -> cid;
  EmptyObjectCid : cid;
  ZeroAddress : address;
  account_PubkeyAddress : cid -> option address;
  NewActorAddress_of : address -> Z -> Z -> address;
  SerializeParams : address -> option bytes;
  block_size : cid -> Z;
  code_at_version : Z -> cid -> option cid;
}.

(** Singleton actors. *)
Definition SystemActorAddr : address := IDAddr 0.
Definition RewardActorAddr : address := IDAddr 2.
Definition BurntFundsActorAddr : address := IDAddr 99.

Definition MaxCallDepth : Z := 4096.
Definition MethodSend : Z := 0.
Definition MethodConstructor : Z := 1.
Definition SubmitWindowedPoSt : Z := 5.

(** * Runtime *)

(** [rt.Message]: from network version 4 on the accessors insist on ID
    addresses. *)
Record rtMessage := mkRtMessage {
  m_From : address;
  m_To : address;
  m_Value : option Z;
  m_checked : bool;
}.

Record Runtime := mkRuntime {
  rt_Message : rtMessage;
  origin : address;
  originNonce : Z;
  gas : meter;
  depth : Z;
  numActorsCreated : Z;
  allowInternal : bool;
  callerValidated : bool;
}.

Definition set_gas (rt : Runtime) (m : meter) : Runtime :=
  mkRuntime (rt_Message rt) (origin rt) (originNonce rt) m (depth rt)
    (numActorsCreated rt) (allowInternal rt) (callerValidated rt).
Definition set_created (rt : Runtime) (n : Z) : Runtime :=
  mkRuntime (rt_Message rt) (origin rt) (originNonce rt) (gas rt) (depth rt)
    n (allowInternal rt) (callerValidated rt).
Definition set_message (rt : Runtime) (m : rtMessage) : Runtime :=
  mkRuntime m (origin rt) (originNonce rt) (gas rt) (depth rt)
    (numActorsCreated rt) (allowInternal rt) (callerValidated rt).
Definition set_internal (rt : Runtime) (b : bool) : Runtime :=
  mkRuntime (rt_Message rt) (origin rt) (originNonce rt) (gas rt) (depth rt)
    (numActorsCreated rt) b (callerValidated rt).
Definition set_validated (rt : Runtime) : Runtime :=
  mkRuntime (rt_Message rt) (origin rt) (originNonce rt) (gas rt) (depth rt)
    (numActorsCreated rt) (allowInternal rt) true.

(** How a piece of Go code ends: a value, a panic that carries an actor error,
    another panic; [NoFuel] when the nesting exceeds the fuel. *)
Inductive outcome (A : Type) :=
  | Val (a : A)
  | Panic (e : actorError)
  | PanicOther
  | NoFuel.
Arguments Val {A}.
Arguments Panic {A}.
Arguments PanicOther {A}.
Arguments NoFuel {A}.

(** Code that runs on the runtime and the state tree. *)
Definition M (T A : Type) : Type := Runtime * T -> outcome A * (Runtime * T).

Definition bind {T A B} (m : M T A) (f : A -> M T B) : M T B := fun s =>
  match m s with
  | (Val a, s') => f a s'
  | (Panic e, s') => (Panic e, s')
  | (PanicOther, s') => (PanicOther, s')
  | (NoFuel, s') => (NoFuel, s')
  end.
Definition throw {T A} (e : actorError) : M T A := fun s => (Panic e, s).
Definition panic {T A} : M T A := fun s => (PanicOther, s).
Definition get_rt {T} : M T Runtime := fun s => (Val s.1, s).
Definition put_rt {T} (rt : Runtime) : M T unit := fun s => (Val tt, (rt, s.2)).

(** A state tree operation: Go's error becomes a value. *)
Definition lift {T A} (f : T -> result st_error A * T) : M T (result st_error A) := fun s =>
  let '(r, t) := f s.2 in (Val r, (s.1, t)).

#[export] Instance M_ret {T} : MRet (M T) := fun A a s => (Val a, s).
#[export] Instance M_bind {T} : MBind (M T) := fun A B f m => bind m f.

Definition gasOnActorExec : GasCharge := newGasCharge "OnActorExec" 0 0.

Definition chargeGasSafe {T} (g : GasCharge) : M T (option actorError) := fun s =>
  let '(m, ok) := chargeGasInternal (gas s.1) g in
  (Val (if ok then None else Some (Newf SysErrOutOfGas)), (set_gas s.1 m, s.2)).

Definition chargeGas {T} (g : GasCharge) : M T unit :=
  r ← chargeGasSafe g ;
  match r with None => mret tt | Some e => throw e end.

Definition msg_Caller {T} : M T address :=
  rt ← get_rt ;
  if m_checked (rt_Message rt) && negb (bool_decide (Protocol (m_From (rt_Message rt)) = ProtoID))
  then panic else mret (m_From (rt_Message rt)).

Definition msg_Receiver {T} : M T address :=
  rt ← get_rt ;
  let to := m_To (rt_Message rt) in
  if m_checked (rt_Message rt) && negb (bool_decide (to = Undef)) &&
     negb (bool_decide (Protocol to = ProtoID))
  then panic else mret to.

Section Machine.
Context {T : Type} `{StateAccess T} (vm : Env).
Abbreviation nv := (networkVersion vm).

(** * Funds *)

Definition deductFunds (act : Actor) (amt : Z) : result st_error Actor :=
  if Balance act <? amt then Err ErrNotEnoughFunds
  else Ok (mkActor (Code act) (Head act) (Nonce act) (Balance act - amt)).

Definition depositFunds (act : Actor) (amt : Z) : Actor :=
  mkActor (Code act) (Head act) (Nonce act) (Balance act + amt).

(** The tail of [transfer] once both IDs are known: load the receiver, move the
    funds, store both. *)
Definition transfer_resolved (t : T) (fromID toID : address) (f : Actor) (amt : Z)
    : option actorError * T :=
  match s_GetActor t toID with
  | (Err _, t) => (Some Fatalf, t)
  | (Ok tact, t) =>
      match deductFunds f amt with
      | Err _ => (Some (Newf SysErrInsufficientFunds), t)
      | Ok f' =>
          let t' := depositFunds tact amt in
          match s_SetActor t fromID f' with
          | (Err _, t) => (Some Fatalf, t)
          | (Ok _, t) =>
              match s_SetActor t toID t' with
              | (Err _, t) => (Some Fatalf, t)
              | (Ok _, t) => (None, t)
              end
          end
      end
  end.

Definition transfer (t : T) (from to : address) (amt : Z) : option actorError * T :=
  if 15 <=? nv then
    if amt <? 0 then (Some (Newf SysErrForbidden), t)
    else match s_LookupID t from with
    | (Err _, t) => (Some Fatalf, t)
    | (Ok fromID, t) =>
        match s_GetActor t fromID with
        | (Err _, t) => (Some Fatalf, t)
        | (Ok f, t) =>
            if Balance f <? amt then (Some (Newf SysErrInsufficientFunds), t)
            else if decide (from = to) then (None, t)
            else match s_LookupID t to with
            | (Err _, t) => (Some Fatalf, t)
            | (Ok toID, t) =>
                if decide (fromID = toID) then (None, t)
                else transfer_resolved t fromID toID f amt
            end
        end
    end
  else
    if decide (from = to) then (None, t)
    else match s_LookupID t from with
    | (Err _, t) => (Some Fatalf, t)
    | (Ok fromID, t) =>
        match s_LookupID t to with
        | (Err _, t) => (Some Fatalf, t)
        | (Ok toID, t) =>
            if decide (fromID = toID) then (None, t)
            else if amt <? 0 then (Some (Newf SysErrForbidden), t)
            else match s_GetActor t fromID with
            | (Err _, t) => (Some Fatalf, t)
            | (Ok f, t) => transfer_resolved t fromID toID f amt
            end
        end
    end.

(** The gas holder is an actor outside the state; its balance is passed along. *)
Definition transferToGasHolder (t : T) (addr : address) (holder : Actor) (amt : Z)
    : result st_error Actor * T :=
  if amt <? 0 then (Err ErrNotEnoughFunds, t)
  else s_MutateActor t addr (fun a =>
    let? a' := deductFunds a amt in Ok (a', depositFunds holder amt)).

Definition transferFromGasHolder (t : T) (addr : address) (holder : Actor) (amt : Z)
    : result st_error Actor * T :=
  if amt <? 0 then (Err ErrNotEnoughFunds, t)
  else if amt =? 0 then (Ok holder, t)
  else s_MutateActor t addr (fun a =>
    let? holder' := deductFunds holder amt in Ok (depositFunds a amt, holder')).

(** [a.Nonce++] on a uint64. *)
Definition incrementNonce (t : T) (addr : address) : result st_error unit * T :=
  s_MutateActor t addr (fun a =>
    Ok (mkActor (Code a) (Head a) (wrapu64 (Nonce a + 1)) (Balance a), tt)).

(** * Runtime calls that do not nest *)

(** [rt.ResolveAddress]: [None] when the actor is not found. *)
Definition rt_ResolveAddress (a : address) : M T (option address) :=
  r ← lift (fun t => s_LookupID t a) ;
  match r with
  | Ok i => mret (Some i)
  | Err ErrActorNotFound => mret None
  | Err _ => throw Fatalf
  end.

Definition rt_GetActorCodeCID (a : address) : M T (option cid) :=
  r ← lift (fun t => s_GetActor t a) ;
  match r with
  | Ok act => mret (Some (Code act))
  | Err ErrActorNotFound => mret None
  | Err _ => throw Fatalf
  end.

Definition abortIfAlreadyValidated : M T unit :=
  rt ← get_rt ;
  if callerValidated rt then throw (Newf SysErrorIllegalActor) else put_rt (set_validated rt).

Definition rt_ValidateIs (addrs : list address) : M T unit :=
  abortIfAlreadyValidated ;;
  imm ← msg_Caller ;
  if bool_decide (imm ∈ addrs) then mret tt
  else throw (Newf SysErrForbidden).

(** The loop over the accepted code CIDs; from network version 16 on the code of
    the same actor at the network's actors version is accepted too. *)
Fixpoint match_codes (callerCid : cid) (ts : list cid) : M T unit :=
  match ts with
  | [] => throw (Newf SysErrForbidden)
  | t :: ts' =>
      if decide (t = callerCid) then mret tt
      else if 16 <=? nv then
        match actors_VersionForNetwork vm nv with
        | None => throw Fatalf
        | Some av => if decide (code_at_version vm av t = Some callerCid) then mret tt
                     else match_codes callerCid ts'
        end
      else match_codes callerCid ts'
  end.

Definition rt_ValidateType (ts : list cid) : M T unit :=
  abortIfAlreadyValidated ;;
  caller ← msg_Caller ;
  c ← rt_GetActorCodeCID caller ;
  match c with
  | None => throw Fatalf
  | Some callerCid => match_codes callerCid ts
  end.

(** [GetBalance] tells a missing actor from a failed resolution by comparing the
    error value: only the unwrapped [ErrActorNotFound] counts as balance 0. *)
Definition GetBalance (a : address) : M T (option Z) :=
  if decide (a = Undef) then mret None
  else r ← lift (fun t => s_LookupID t a) ;
       match r with
       | Err _ => mret None
       | Ok _ => r ← lift (fun t => s_GetActor t a) ;
                 match r with
                 | Ok act => mret (Some (Balance act))
                 | Err ErrActorNotFound => mret (Some 0)
                 | Err _ => mret None
                 end
       end.

Definition rt_CurrentBalance : M T Z :=
  a ← msg_Receiver ;
  b ← GetBalance a ;
  match b with Some b => mret b | None => throw (Newf 0) end.

Definition ResolveToKeyAddr (addr : address) : M T address :=
  match Protocol addr with
  | ProtoBLS | ProtoSECP256K1 => mret addr
  | _ =>
      r ← lift (fun t => s_GetActor t addr) ;
      match r with
      | Err _ => mret Undef
      | Ok act => match account_PubkeyAddress vm (Head act) with
                  | Some k => mret k
                  | None => mret Undef
                  end
      end
  end.

(** [oa.MarshalCBOR] refuses the undefined address that a failed
    [ResolveToKeyAddr] leaves. *)
Definition rt_NewActorAddress : M T address :=
  rt ← get_rt ;
  oa ← ResolveToKeyAddr (origin rt) ;
  rt ← get_rt ;
  if decide (oa = Undef) then throw Fatalf
  else
    put_rt (set_created rt (wrapu64 (numActorsCreated rt + 1))) ;;
    mret (NewActorAddress_of vm oa (originNonce rt) (numActorsCreated rt)).

(** [ActorRegistry.Create]. *)
Definition areg_Create (codeCid : cid) : result actorError Actor :=
  match areg vm !! codeCid with
  | None => Err (Newf SysErrorIllegalArgument)
  | Some info =>
      if predicate info nv then Ok (mkActor codeCid (EmptyObjectCid vm) 0 0)
      else Err (Newf SysErrorIllegalArgument)
  end.

Definition rt_CreateActor (codeID : cid) (addr : address) : M T unit :=
  if bool_decide (addr = Undef) && (7 <=? nv) then throw (Newf SysErrorIllegalArgument)
  else match areg_Create codeID with
  | Err e => throw (Newf (retCode e))
  | Ok act =>
      r ← lift (fun t => s_GetActor t addr) ;
      match r with
      | Ok _ => throw (Newf SysErrorIllegalArgument)
      | Err _ =>
          chargeGas (OnCreateActor (pricelist vm)) ;;
          r ← lift (fun t => s_SetActor t addr act) ;
          match r with
          | Err _ => throw Fatalf
          | Ok _ => chargeGasSafe gasOnActorExec ;; mret tt
          end
      end
  end.

Definition transfer_or_panic (from to : address) (amt : Z) : M T unit := fun s =>
  let '(e, t) := transfer s.2 from to amt in
  (match e with Some _ => Panic Fatalf | None => Val tt end, (s.1, t)).

Definition rt_DeleteActor (beneficiary : address) : M T unit :=
  chargeGas (OnDeleteActor (pricelist vm)) ;;
  self ← msg_Receiver ;
  r ← lift (fun t => s_GetActor t self) ;
  match r with
  | Err ErrActorNotFound => throw (Newf SysErrorIllegalActor)
  | Err _ => throw Fatalf
  | Ok act =>
      (if Balance act =? 0 then mret tt
       else
         (if 7 <=? nv then
            b ← rt_ResolveAddress beneficiary ;
            match b with
            | None => throw (Newf SysErrorIllegalArgument)
            | Some beneficiaryId =>
                if decide (beneficiaryId = self) then throw (Newf SysErrorIllegalArgument)
                else mret tt
            end
          else mret tt) ;;
         transfer_or_panic self beneficiary (Balance act)) ;;
      r ← lift (fun t => s_DeleteActor t self) ;
      match r with
      | Err _ => throw Fatalf
      | Ok _ => chargeGasSafe gasOnActorExec ;; mret tt
      end
  end.

(** [gasChargingBlocks.Get] and [Put] around the block store. *)
Definition store_Get : M T unit :=
  chargeGas (OnIpldGet (pricelist vm)) ;;
  chargeGas (newGasCharge "OnIpldGetEnd" 0 0) ;;
  chargeGas gasOnActorExec.

Definition store_Put (c : cid) : M T unit :=
  chargeGas (OnIpldPut (pricelist vm) (block_size vm c)) ;;
  chargeGas gasOnActorExec.

Definition stateCommit (oldh newh : cid) : M T (option actorError) :=
  self ← msg_Receiver ;
  r ← lift (fun t => s_GetActor t self) ;
  match r with
  | Err _ => mret (Some Escalate)
  | Ok act =>
      if decide (Head act = oldh) then
        r ← lift (fun t => s_SetActor t self (mkActor (Code act) newh (Nonce act) (Balance act))) ;
        match r with
        | Err _ => mret (Some Fatalf)
        | Ok _ => mret None
        end
      else mret (Some Fatalf)
  end.

(** A failed commit panics with a plain error, not with an actor error. *)
Definition commit_or_panic (oldh newh : cid) : M T unit :=
  e ← stateCommit oldh newh ;
  match e with None => mret tt | Some _ => panic end.

Definition rt_StateCreate (c : cid) : M T unit :=
  store_Put c ;; commit_or_panic (EmptyObjectCid vm) c.

Definition rt_StateReadonly : M T cid :=
  self ← msg_Receiver ;
  r ← lift (fun t => s_GetActor t self) ;
  match r with
  | Err _ => throw (Newf SysErrorIllegalArgument)
  | Ok act => store_Get ;; mret (Head act)
  end.

(** [StateTransaction] around the callback [f], which runs with internal sends
    disabled and leaves the new state's CID. *)
Definition rt_StateTransaction {A} (f : cid -> M T A) (newHead : A -> cid) : M T A :=
  self ← msg_Receiver ;
  r ← lift (fun t => s_GetActor t self) ;
  match r with
  | Err _ => throw (Newf SysErrorIllegalActor)
  | Ok act =>
      store_Get ;;
      rt ← get_rt ;
      put_rt (set_internal rt false) ;;
      a ← f (Head act) ;
      rt ← get_rt ;
      put_rt (set_internal rt true) ;;
      store_Put (newHead a) ;;
      commit_or_panic (Head act) (newHead a) ;;
      mret a
  end.

(** * Sends *)

Definition set_gasUsed (rt : Runtime) (used : Z) : Runtime :=
  set_gas rt (mkMeter (gasAvailable (gas rt)) used).

(** The runtime's initial fields, inherited from the parent call. *)
Definition initial_runtime (msg : Message) (parent : option Runtime) : Runtime :=
  let no_message := mkRtMessage Undef Undef None false in
  match parent with
  | None => mkRuntime no_message (From msg) (msgNonce msg) (mkMeter (GasLimit msg) 0) 0 0 true false
  | Some p => mkRuntime no_message (origin p) (originNonce p)
                (mkMeter (GasLimit msg) (gasUsed (gas p))) (depth p + 1) (numActorsCreated p) true false
  end.

Definition internal_disabled (parent : option Runtime) : bool :=
  match parent with Some p => negb (allowInternal p) && (7 <=? nv) | None => false end.

(** [makeRuntime]: its aborts panic in the caller's frame. *)
Definition makeRuntime (msg : Message) (parent : option Runtime) (t : T) : outcome Runtime * T :=
  let rt := initial_runtime msg parent in
  if internal_disabled parent then (Panic (Newf SysErrForbidden), t)
  else if (depth rt >? MaxCallDepth) && (6 <=? nv) then (Panic (Newf SysErrForbidden), t)
  else match s_LookupID t (From msg) with
  | (Err ErrActorNotFound, t) => (Panic (Newf SysErrInvalidReceiver), t)
  | (Err _, t) => (Panic Fatalf, t)
  | (Ok resF, t) =>
      if nv <=? 3 then (Val (set_message rt (mkRtMessage resF (To msg) (Value msg) false)), t)
      else match s_LookupID t (To msg) with
      | (Ok resT, t) => (Val (set_message rt (mkRtMessage resF resT (Value msg) true)), t)
      | (Err ErrActorNotFound, t) => (Val (set_message rt (mkRtMessage resF Undef (Value msg) true)), t)
      | (Err _, t) => (Panic Fatalf, t)
      end
  end.

(** How a send ended, the runtime it used once there was one, and the state. *)
Record sent := mkSent {
  sent_result : outcome (bytes * option actorError);
  sent_rt : option Runtime;
  sent_state : T;
}.

Section WithSend.
(** The nested [vm.send] of a call one level deeper. *)
Variable send' : Message -> Runtime -> T -> sent.

(** [internalSend]: the deferred [ClearSnapshot] also runs when the nested send
    panics, without a revert; [send] hands its gas back to the parent. *)
Definition internalSend (from to : address) (method value : Z) (params : bytes)
    : M T (bytes * option actorError) := fun '(rt, t) =>
  let msg := mkMessage 0 to from 0 (Some value) (gasAvailable (gas rt)) None None method params in
  let r := send' msg rt (s_Snapshot t) in
  let rt1 := match sent_rt r with
             | Some sub => set_gasUsed rt (gasUsed (gas sub))
             | None => rt
             end in
  match sent_result r with
  | NoFuel => (NoFuel, (rt1, (s_ClearSnapshot (sent_state r)).2))
  | Panic e => (Panic e, (rt1, (s_ClearSnapshot (sent_state r)).2))
  | PanicOther => (PanicOther, (rt1, (s_ClearSnapshot (sent_state r)).2))
  | Val (ret, errSend) =>
      let '(rerr, t1) := match errSend with
                         | None => (Ok tt, sent_state r)
                         | Some _ => s_Revert (sent_state r)
                         end in
      let rt2 := match sent_rt r with
                 | Some sub => set_created rt1 (numActorsCreated sub)
                 | None => rt1
                 end in
      let t2 := (s_ClearSnapshot t1).2 in
      match rerr with
      | Err _ => (Val (EmptyString, Some Escalate), (rt1, t2))
      | Ok _ => (Val (ret, errSend), (rt2, t2))
      end
  end.

Definition rt_Send (to : address) (method : Z) (params : option bytes) (value : Z)
    (unmarshals : bytes -> bool) : M T (Z * bytes) :=
  rt ← get_rt ;
  if negb (allowInternal rt) then throw (Newf SysErrorIllegalActor)
  else match params with
  | None => throw (Newf ErrSerialization)
  | Some p =>
      self ← msg_Receiver ;
      r ← internalSend self to method value p ;
      match r.2 with
      | Some e => if fatal e then throw e else mret (retCode e, EmptyString)
      | None =>
          chargeGasSafe gasOnActorExec ;;
          if unmarshals r.1 then mret (0, r.1) else throw (Newf ErrSerialization)
      end
  end.

(** A method body against the runtime. *)
Fixpoint run (p : prog) : M T rval :=
  match p with
  | Return r => mret r
  | Abortf code => throw (Newf code)
  | GoPanic => panic
  | Caller k => a ← msg_Caller ; run (k a)
  | Receiver k => a ← msg_Receiver ; run (k a)
  | ValueReceived k => rt ← get_rt ; run (k (m_Value (rt_Message rt)))
  | ValidateImmediateCallerAcceptAny k => abortIfAlreadyValidated ;; run k
  | ValidateImmediateCallerIs addrs k => rt_ValidateIs addrs ;; run k
  | ValidateImmediateCallerType codes k => rt_ValidateType codes ;; run k
  | CurrentBalance k => b ← rt_CurrentBalance ; run (k b)
  | ResolveAddress a k => r ← rt_ResolveAddress a ; run (k r)
  | GetActorCodeCID a k => r ← rt_GetActorCodeCID a ; run (k r)
  | NewActorAddress k => a ← rt_NewActorAddress ; run (k a)
  | CreateActor code a k => rt_CreateActor code a ;; run k
  | DeleteSelf beneficiary k => rt_DeleteActor beneficiary ;; run k
  | Send to method params value um k => r ← rt_Send to method params value um ; run (k r.1 r.2)
  | StateCreate c k => rt_StateCreate c ;; run k
  | StateReadonly k => c ← rt_StateReadonly ; run (k c)
  | StateTransaction f newHead k => a ← rt_StateTransaction (fun c => run (f c)) newHead ; run (k a)
  | ChargeGas name compute virtual k =>
      chargeGas (WithVirtual (newGasCharge name compute 0) virtual 0) ;; run k
  end.

(** The code of [shimCall] under its recover: run the method, then insist on
    the caller having been validated. *)
Definition shim_body (p : prog) : M T rval :=
  r ← run p ;
  rt ← get_rt ;
  if callerValidated rt then mret r else throw (Newf SysErrorIllegalActor).

Definition shimCall (p : prog) : M T (bytes * option actorError) := fun s =>
  match shim_body p s with
  | (Panic e, s) => (Val (EmptyString, Some e), s)
  | (PanicOther, s) =>
      (Val (EmptyString, Some (Newf (if nv <=? 3 then 1 else SysErrIllegalInstruction))), s)
  | (NoFuel, s) => (NoFuel, s)
  | (Val (RBytes b), s) => (Val (b, None), s)
  | (Val RNil, s) => (Val (EmptyString, None), s)
  | (Val RUnmarshalable, s) => (Val (EmptyString, Some (Absorb 2)), s)
  | (Val RUnknown, s) => (Val (EmptyString, Some (Newf 3)), s)
  end.

(** [ActorRegistry.Invoke] and the wrapper [transform] puts around a method. *)
Definition areg_Invoke (codeCid : cid) (method : Z) (params : bytes)
    : M T (bytes * option actorError) :=
  match areg vm !! codeCid with
  | None => mret (EmptyString, Some (Newf SysErrorIllegalActor))
  | Some info =>
      if negb (predicate info nv) then mret (EmptyString, Some (Newf SysErrorIllegalActor))
      else match methods info !! method with
      | None => mret (EmptyString, Some (Newf SysErrInvalidMethod))
      | Some m =>
          if decodes m params then shimCall (body m params)
          else mret (EmptyString, Some (Absorb (if nv <? 7 then 1 else ErrSerialization)))
      end
  end.

(** [vm.Invoke] drops the return value of a failed call. *)
Definition Invoke (act : Actor) (method : Z) (params : bytes) : M T (bytes * option actorError) :=
  r ← areg_Invoke (Code act) method params ;
  mret (match r.2 with Some e => (EmptyString, Some e) | None => (r.1, None) end).

(** * Account creation *)

Definition newAccountActor (ver : Z) : outcome Actor :=
  if (ver =? 0) || ((2 <=? ver) && (ver <=? 7))
  then Val (mkActor (AccountActorCodeID vm ver) (EmptyObjectCid vm) 0 0)
  else PanicOther.

Definition makeAccountActor (ver : Z) (addr : address) : outcome (result actorError Actor) :=
  match Protocol addr with
  | ProtoBLS | ProtoSECP256K1 =>
      match newAccountActor ver with
      | Val a => Val (Ok a)
      | _ => PanicOther
      end
  | _ => Val (Err (Newf SysErrInvalidReceiver))
  end.

Definition TryCreateAccountActor (addr : address) : M T (result actorError (Actor * address)) :=
  e ← chargeGasSafe (OnCreateActor (pricelist vm)) ;
  match e with
  | Some e => mret (Err e)
  | None =>
  if bool_decide (addr = ZeroAddress vm) && (10 <=? nv) then mret (Err (Newf ErrIllegalArgument))
  else
  r ← lift (fun t => s_RegisterNewAddress t addr) ;
  match r with
  | Err _ => mret (Err Escalate)
  | Ok addrID =>
  match actors_VersionForNetwork vm nv with
  | None => mret (Err Escalate)
  | Some av =>
  match makeAccountActor av addr with
  | Panic e => throw e
  | PanicOther => panic
  | NoFuel => panic
  | Val (Err e) => mret (Err e)
  | Val (Ok act) =>
  r ← lift (fun t => s_SetActor t addrID act) ;
  match r with
  | Err _ => mret (Err Escalate)
  | Ok _ =>
  match SerializeParams vm addr with
  | None => mret (Err Escalate)
  | Some p =>
  r ← internalSend SystemActorAddr addrID MethodConstructor 0 p ;
  match r.2 with
  | Some e => mret (Err (Wrap e))
  | None =>
  r ← lift (fun t => s_GetActor t addrID) ;
  match r with
  | Err _ => mret (Err Escalate)
  | Ok act => mret (Ok (act, addrID))
  end end end end end end end end.

(** * send *)

(** A deferred zero charge that only logs; it runs however the code ends. *)
Definition finally_charge {A} (g : GasCharge) (m : M T A) : M T A := fun s =>
  let '(o, (rt, t)) := m s in (o, (set_gas rt (chargeGasInternal (gas rt) g).1, t)).

Definition send_transfer (msg : Message) (value : Z) : M T (option actorError) := fun s =>
  if value =? 0 then (Val None, s)
  else let '(e, t) := transfer s.2 (From msg) (To msg) value in (Val e, (s.1, t)).

(** The recipient, created as an account when it does not exist. *)
Definition send_recipient (msg : Message) : M T (result actorError Actor) :=
  r ← lift (fun t => s_GetActor t (To msg)) ;
  match r with
  | Ok act => mret (Ok act)
  | Err ErrActorNotFound =>
      r ← TryCreateAccountActor (To msg) ;
      match r with
      | Err e => mret (Err (Wrap e))
      | Ok (a, aid) =>
          if nv <=? 3 then mret (Ok a)
          else
            caller ← msg_Caller ;
            rt ← get_rt ;
            put_rt (set_message rt (mkRtMessage caller aid (m_Value (rt_Message rt)) true)) ;;
            mret (Ok a)
      end
  | Err _ => mret (Err Escalate)
  end.

Definition send_body (msg : Message) : M T (bytes * option actorError) :=
  chargeGasSafe (newGasCharge "OnGetActor" 0 0) ;;
  r ← send_recipient msg ;
  match r, Value msg with
  | Err e, _ => mret (EmptyString, Some e)
  | Ok _, None => panic
  | Ok toActor, Some value =>
      e ← chargeGasSafe (OnMethodInvocation MethodSend (pricelist vm) value (Method msg)) ;
      match e with
      | Some e => mret (EmptyString, Some (Wrap e))
      | None =>
          finally_charge (newGasCharge "OnMethodInvocationDone" 0 0) (
            e ← send_transfer msg value ;
            match e with
            | Some e => mret (EmptyString, Some (Wrap e))
            | None =>
                if Method msg =? 0 then mret (EmptyString, None)
                else chargeGasSafe gasOnActorExec ;; Invoke toActor (Method msg) (Params msg)
            end)
      end
  end.

(** [send] once the runtime exists: the on-chain charge, then the body. *)
Definition send_with (msg : Message) (gasCharge : option GasCharge)
    : M T (bytes * option actorError) :=
  match gasCharge with
  | None => send_body msg
  | Some g =>
      e ← chargeGasSafe g ;
      match e with
      | Some e => mret (EmptyString, Some (Wrap e))
      | None => send_body msg
      end
  end.
End WithSend.

Fixpoint send (fuel : nat) (msg : Message) (parent : option Runtime)
    (gasCharge : option GasCharge) (t : T) : sent :=
  match fuel with
  | O => mkSent NoFuel None t
  | S n =>
      match makeRuntime msg parent t with
      | (Val rt, t) =>
          let '(o, (rt', t')) :=
            send_with (fun m p t => send n m (Some p) None t) msg gasCharge (rt, t) in
          mkSent o (Some rt') t'
      | (Panic e, t) => mkSent (Panic e) None t
      | (PanicOther, t) => mkSent PanicOther None t
      | (NoFuel, t) => mkSent NoFuel None t
      end
  end.

(** * Message application *)

Inductive check_error :=
  | NoGasLimit | NegativeGasLimit | FeeCapNotSet | PremiumNotSet | ValueNotSet.

Definition checkMessage (msg : Message) : option check_error :=
  if GasLimit msg =? 0 then Some NoGasLimit
  else if GasLimit msg <? 0 then Some NegativeGasLimit
  else match GasFeeCap msg, GasPremium msg, Value msg with
  | None, _, _ => Some FeeCapNotSet
  | _, None, _ => Some PremiumNotSet
  | _, _, None => Some ValueNotSet
  | _, _, _ => None
  end.

Record ApplyRet := mkApplyRet {
  ExitCode : Z;
  ReturnValue : bytes;
  GasUsed : Z;
  GasCosts : option GasOutputs;
  ActorErr : option actorError;
}.

(** [Failed] is a Go error, [Crashed] a panic that nothing recovers. *)
Inductive applied :=
  | Applied (r : ApplyRet)
  | Failed
  | Crashed
  | ApplyNoFuel.

(** Go returns the actor error a second time as its error result. *)
Definition ApplyImplicitMessage (fuel : nat) (msg : Message) (t : T) : applied * T :=
  let s := send fuel msg None None t in
  (match sent_result s with
   | Val (ret, actorErr) =>
       Applied (mkApplyRet (RetCode actorErr) ret 0 None actorErr)
   | NoFuel => ApplyNoFuel
   | _ => Crashed
   end, sent_state s).

Definition ShouldBurn (msg : Message) (errcode : Z) (t : T) : result st_error bool * T :=
  if nv <=? 12 then
    if (blockHeight vm >? UpgradeClausHeight vm) && (errcode =? 0) &&
       (Method msg =? SubmitWindowedPoSt)
    then match s_GetActor t (To msg) with
         | (Err ErrActorNotFound, t) => (Ok true, t)
         | (Err e, t) => (Err e, t)
         | (Ok toActor, t) => (Ok (negb (IsStorageMinerActor vm (Code toActor))), t)
         end
    else (Ok true, t)
  else (Ok true, t).

(** A message refused before execution: the miner pays. *)
Definition penalised (code penalty : Z) : applied :=
  Applied (mkApplyRet code EmptyString 0
    (Some (mkGasOutputs 0 0 penalty 0 0 0 0)) (Some (Newf code))).

(** Payments out of the gas holder, in order, up to the first that fails. *)
Fixpoint pay_all (t : T) (holder : Actor) (payments : list (address * Z)) : result st_error Actor * T :=
  match payments with
  | [] => (Ok holder, t)
  | (addr, amt) :: rest =>
      match transferFromGasHolder t addr holder amt with
      | (Err e, t) => (Err e, t)
      | (Ok holder, t) => pay_all t holder rest
      end
  end.

(** The four payments and the check that the gas holder is empty. *)
Definition settle (msg : Message) (out : GasOutputs) (holder : Actor) (t : T)
    : result st_error unit * T :=
  match pay_all t holder [(BurntFundsActorAddr, BaseFeeBurn out);
                          (RewardActorAddr, MinerTip out);
                          (BurntFundsActorAddr, OverEstimationBurn out);
                          (From msg, Refund out)] with
  | (Err e, t) => (Err e, t)
  | (Ok holder, t) => (if Balance holder =? 0 then Ok tt else Err ErrNotEnoughFunds, t)
  end.

(** [ApplyMessage] from the send to its return; the deferred [ClearSnapshot] is
    run by the caller. *)
Definition execute (fuel : nat) (msg : Message) (feeCap premium : Z) (msgGas : GasCharge)
    (holder : Actor) (t : T) : applied * T :=
  let s := send fuel msg None (Some msgGas) t in
  let t := sent_state s in
  match sent_result s, sent_rt s with
  | NoFuel, _ => (ApplyNoFuel, t)
  | Val (ret, actorErr), Some rt =>
      if IsFatal actorErr then (Failed, t)
      else if bool_decide (actorErr <> None) && negb (bool_decide (ret = EmptyString)) then (Failed, t)
      else
        let '(ret, actorErr, rt) :=
          if bool_decide (ret = EmptyString) then (ret, actorErr, rt)
          else match chargeGasSafe (OnChainReturnValue (pricelist vm) (Z.of_nat (String.length ret)))
                       (rt, t) with
               | (Val (Some e), (rt, _)) => (EmptyString, Some e, rt)
               | (_, (rt, _)) => (ret, None, rt)
               end in
        let errcode := RetCode actorErr in
        let '(rerr, t) := if errcode =? 0 then (Ok tt, t) else s_Revert t in
        match rerr with
        | Err _ => (Failed, t)
        | Ok _ =>
            let used := if gasUsed (gas rt) <? 0 then 0 else gasUsed (gas rt) in
            match ShouldBurn msg errcode t with
            | (Err _, t) => (Failed, t)
            | (Ok burn, t) =>
                let out := ComputeGasOutputs used (GasLimit msg) (baseFee vm) feeCap premium burn in
                match settle msg out holder t with
                | (Err _, t) => (Failed, t)
                | (Ok _, t) => (Applied (mkApplyRet errcode ret used (Some out) actorErr), t)
                end
            end
        end
  | _, _ => (Crashed, t)
  end.

Definition ApplyMessage (fuel : nat) (msg : Message) (chainLength : Z) (t : T) : applied * T :=
  match checkMessage msg, GasFeeCap msg, GasPremium msg with
  | None, Some feeCap, Some premium =>
      let msgGas := OnChainMessage (pricelist vm) chainLength in
      let msgGasCost := Total msgGas in
      if msgGasCost >? GasLimit msg then (penalised SysErrOutOfGas (baseFee vm * msgGasCost), t)
      else
        let minerPenaltyAmount := baseFee vm * GasLimit msg in
        match s_GetActor t (From msg) with
        | (Err ErrActorNotFound, t) => (penalised SysErrSenderInvalid minerPenaltyAmount, t)
        | (Err _, t) => (Failed, t)
        | (Ok fromActor, t) =>
            if negb (IsAccountActor vm (Code fromActor)) then
              (penalised SysErrSenderInvalid minerPenaltyAmount, t)
            else if negb (msgNonce msg =? Nonce fromActor) then
              (penalised SysErrSenderStateInvalid minerPenaltyAmount, t)
            else
              let gascost := wrapu64 (GasLimit msg) * feeCap in
              if Balance fromActor <? gascost then
                (penalised SysErrSenderStateInvalid minerPenaltyAmount, t)
              else
                match transferToGasHolder t (From msg) (mkActor "" "" 0 0) gascost with
                | (Err _, t) => (Failed, t)
                | (Ok holder, t) =>
                    match incrementNonce t (From msg) with
                    | (Err _, t) => (Failed, t)
                    | (Ok _, t) =>
                        let '(r, t) := execute fuel msg feeCap premium msgGas holder (s_Snapshot t) in
                        (r, (s_ClearSnapshot t).2)
                    end
                end
        end
  | _, _, _ => (Failed, t)
  end.
End Machine.
