(* ===== verification/VMState.v ===== *)
(** What the virtual machine relies on of its state ([StateLaws]), the proof
    that the state tree provides it ([tree_access], [tree_laws]), and the steps
    that neither mint funds nor touch the snapshots below the top. *)

From S2P Require Import Prelude Types StateTree VM.

(** * The laws of the state *)

(** [s_rest] holds the frames below the current one, each with the view and the
    address resolution a revert to it restores. *)
Class StateLaws (T : Type) `{StateAccess T} := {
  Frame : Type;
  f_view : Frame -> gmap address Actor;
  f_lookup : Frame -> address -> result st_error address;
  s_inv : T -> Prop;
  s_top : T -> gmap address Actor;
  s_rest : T -> list Frame;
  s_lookup : T -> address -> result st_error address;
  s_quiet t t' := s_inv t' /\ s_top t' = s_top t /\ s_rest t' = s_rest t /\
    (forall a, s_lookup t' a = s_lookup t a);
  s_replaced t t' v := s_inv t' /\ s_top t' = v /\ s_rest t' = s_rest t /\
    (Head <$> v !! init_Address = Head <$> s_top t !! init_Address ->
     forall a, s_lookup t' a = s_lookup t a);
  s_get t a :=
    if decide (a = Undef) then Err ErrUndefAddress
    else match s_lookup t a with
         | Err e => Err e
         | Ok i => match s_top t !! i with Some act => Ok act | None => Err ErrActorNotFound end
         end;
  law_rest t : s_inv t -> s_rest t <> [];
  law_lookup_ID t a : Protocol a = ProtoID -> s_lookup t a = Ok a;
  law_LookupID t a : s_inv t ->
    let '(r, t') := s_LookupID t a in
    s_quiet t t' /\ r = s_lookup t a /\ (forall i, r = Ok i -> Protocol i = ProtoID);
  law_GetActor t a : s_inv t ->
    let '(r, t') := s_GetActor t a in
    s_quiet t t' /\ r = s_get t a;
  law_SetActor t a act : s_inv t ->
    let '(r, t') := s_SetActor t a act in
    match s_lookup t a with
    | Err e => r = Err e /\ s_quiet t t'
    | Ok i => r = Ok tt /\ s_replaced t t' (<[i := act]> (s_top t))
    end;
  law_DeleteActor t a : s_inv t ->
    let '(r, t') := s_DeleteActor t a in
    match s_get t a with
    | Err e => r = Err e /\ s_quiet t t'
    | Ok _ => r = Ok tt /\ exists i, s_lookup t a = Ok i /\ s_replaced t t' (delete i (s_top t))
    end;
  law_MutateActor S t a (f : Actor -> result st_error (Actor * S)) : s_inv t ->
    let '(r, t') := s_MutateActor t a f in
    match s_get t a with
    | Err e => r = Err e /\ s_quiet t t'
    | Ok act =>
        match f act with
        | Err e => r = Err e /\ s_quiet t t'
        | Ok (act', s) => r = Ok s /\ exists i, s_lookup t a = Ok i /\
            s_top t !! i = Some act /\ s_replaced t t' (<[i := act']> (s_top t))
        end
    end;
  law_Register t a : s_inv t ->
    let '(r, t') := s_RegisterNewAddress t a in
    match r with
    | Err _ => s_quiet t t'
    | Ok _ => exists act hd, s_top t !! init_Address = Some act /\
        s_replaced t t' (<[init_Address := mkActor (Code act) hd (Nonce act) (Balance act)]> (s_top t))
    end;
  law_Snapshot t : s_inv t ->
    exists fr, s_rest (s_Snapshot t) = fr :: s_rest t /\ f_view fr = s_top t /\
      (forall a, f_lookup fr a = s_lookup t a) /\
      s_inv (s_Snapshot t) /\ s_top (s_Snapshot t) = s_top t /\
      (forall a, s_lookup (s_Snapshot t) a = s_lookup t a);
  law_Revert t fr rest : s_inv t -> s_rest t = fr :: rest ->
    exists t', s_Revert t = (Ok tt, t') /\ s_inv t' /\ s_top t' = f_view fr /\
      s_rest t' = s_rest t /\ (forall a, s_lookup t' a = f_lookup fr a);
  law_Clear t fr fr' rest : s_inv t -> s_rest t = fr :: fr' :: rest ->
    exists t', s_ClearSnapshot t = (Ok tt, t') /\ s_inv t' /\ s_top t' = s_top t /\
      s_rest t' = fr' :: rest /\ (forall a, s_lookup t' a = s_lookup t a);
}.

(** * The state tree provides them *)

Section Tree.
Context {H : Type} `{AdtMapLaws H} `{InitActorLaws}.

#[export] Instance tree_access : StateAccess (StateTree H) := {|
  s_LookupID := LookupID;
  s_GetActor := GetActor;
  s_SetActor := SetActor;
  s_DeleteActor := DeleteActor;
  s_MutateActor S := MutateActor;
  s_RegisterNewAddress := RegisterNewAddress;
  s_Snapshot := Snapshot;
  s_Revert := Revert;
  s_ClearSnapshot := ClearSnapshot;
|}.

(** The suffixes of a stack of layers, each over the stored state. *)
Fixpoint frames (b : gmap address Actor) (ls : list stateSnapLayer)
    : list (list stateSnapLayer * gmap address Actor) :=
  (ls, b) :: match ls with [] => [] | _ :: ls' => frames b ls' end.

Definition tree_rest (st : StateTree H) : list (list stateSnapLayer * gmap address Actor) :=
  frames (base st) (tl (layers (snaps st))).

Lemma tree_rest_same (st st' : StateTree H) :
  root st' = root st -> tl (layers (snaps st')) = tl (layers (snaps st)) -> tree_rest st' = tree_rest st.
Proof. unfold tree_rest, base. by intros -> ->. Qed.

Lemma quiet_access st st' :
  quiet st st' -> tree_wf st' /\ top st' = top st /\ tree_rest st' = tree_rest st /\
    (forall a, lookup_result st' a = lookup_result st a).
Proof.
  intros Hq. split; [apply Hq|]. split; [by apply quiet_top|]. split; [|by apply quiet_lookup].
  apply tree_rest_same; apply Hq.
Qed.

Lemma replaced_access st st' v :
  replaced st st' v -> tree_wf st' /\ top st' = v /\ tree_rest st' = tree_rest st /\
    (Head <$> v !! init_Address = Head <$> top st !! init_Address ->
     forall a, lookup_result st' a = lookup_result st a).
Proof.
  intros Hr. split; [apply Hr|]. split; [by eapply replaced_top|].
  split; [|by eapply replaced_lookup]. apply tree_rest_same; apply Hr.
Qed.

(** Merging two layers changes no resolution. *)
Lemma merged_lookup l n ls v a :
  lookup_in (mkLayer (actors l ∪ actors n) (resolveCache l ∪ resolveCache n) :: ls) v a =
  lookup_in (l :: n :: ls) v a.
Proof.
  unfold lookup_in. simpl. rewrite lookup_union.
  by destruct (Protocol a), (resolveCache l !! a), (resolveCache n !! a).
Qed.

#[refine] #[export] Instance tree_laws : StateLaws (StateTree H) := {|
  Frame := list stateSnapLayer * gmap address Actor;
  f_view fr := view fr.2 fr.1;
  f_lookup fr := lookup_in fr.1 (view fr.2 fr.1);
  s_inv := tree_wf;
  s_top := top;
  s_rest := tree_rest;
  s_lookup := lookup_result;
|}.
Proof.
  all: cbv zeta.
  - intros st _. unfold tree_rest. by destruct (tl _).
  - intros st a. apply lookup_result_ID.
  - intros st a Hwf. pose proof (LookupID_spec st a Hwf) as Hs. simpl.
    destruct (LookupID st a). destruct Hs as (Hq & ? & ?). split; [by apply quiet_access|by split].
  - intros st a Hwf. pose proof (GetActor_spec st a Hwf) as Hs. simpl.
    destruct (GetActor st a). destruct Hs as [Hq ?]. split; [by apply quiet_access|done].
  - intros st a act Hwf. pose proof (SetActor_spec st a act Hwf) as Hs. simpl.
    destruct (SetActor st a act). destruct (lookup_result st a);
      destruct Hs as [? Hq]; (split; [done|]); [by apply replaced_access|by apply quiet_access].
  - intros st a Hwf. simpl. destruct (decide (a = Undef)) as [->|Ha].
    { unfold DeleteActor. rewrite !decide_True by done. simpl. by split_and!. }
    pose proof (DeleteActor_spec st a Hwf Ha) as Hs. destruct (DeleteActor st a).
    unfold get_result in Hs. rewrite decide_False in Hs by done.
    destruct (lookup_result st a) as [i|]; [|destruct Hs as [? Hq]; split; [done|by apply quiet_access]].
    destruct (top st !! i); [|destruct Hs as [? Hq]; split; [done|by apply quiet_access]].
    destruct Hs as [? (j & ? & Hr)]. split; [done|]. exists j. split; [done|]. by apply replaced_access.
  - intros S st a f Hwf. pose proof (MutateActor_spec st a f Hwf) as Hs. simpl.
    destruct (MutateActor st a f) as [r st']. fold (get_result st a). destruct (get_result st a) as [act|];
      [|destruct Hs as [? Hq]; split; [done|by apply quiet_access]].
    destruct (f act) as [[act' x]|]; [|destruct Hs as [? Hq]; split; [done|by apply quiet_access]].
    destruct Hs as [? (j & ? & ? & Hr)]. split; [done|]. exists j. do 2 (split; [done|]).
    by apply replaced_access.
  - intros st a Hwf. unfold s_RegisterNewAddress. simpl. unfold RegisterNewAddress.
    match goal with |- context [MutateActor st init_Address ?f] =>
      pose proof (MutateActor_spec st init_Address f Hwf) as Hm;
      destruct (MutateActor st init_Address f) as [r st'] end.
    destruct (get_result st init_Address) as [act|];
      [|destruct Hm as [-> Hq]; by apply quiet_access].
    destruct (init_MapAddressToNewID (Head act) a) as [[hd' i]|];
      [|destruct Hm as [-> Hq]; by apply quiet_access].
    destruct Hm as [-> (j & Hj & Hact & Hr)]. rewrite lookup_result_ID in Hj by done.
    injection Hj as <-. exists act, hd'. split; [done|]. by apply replaced_access.
  - intros st Hwf. destruct (Snapshot_spec st Hwf) as (Hw & _ & _ & _).
    destruct (empty_layer_views (Snapshot st) (layers (snaps st)) eq_refl) as (Htop & _ & Hlk).
    exists (layers (snaps st), base st). split_and!; [|done|done|exact Hw|exact Htop|exact Hlk].
    unfold tree_rest. simpl. by destruct (layers (snaps st)) eqn:E; [destruct (wf_layers _ Hwf)|].
  - intros st fr rest Hwf Hrest. destruct (Revert_spec st Hwf) as (st' & Hrev & Hw & Hroot & Hl & _).
    destruct (empty_layer_views st' _ Hl) as (Htop & _ & Hlk).
    assert (fr = (tl (layers (snaps st)), base st)) as ->
      by (unfold tree_rest in Hrest; by destruct (tl _); injection Hrest).
    exists st'. assert (base st' = base st) as Hb by (unfold base; congruence). rewrite Hb in *.
    split_and!; [exact Hrev|exact Hw|exact Htop| |exact Hlk].
    apply tree_rest_same; [done|]. by rewrite Hl.
  - intros st fr fr' rest Hwf Hrest.
    pose proof (mergeLastLayer_spec (base st) (snaps st) Hwf) as Hm.
    unfold tree_rest in Hrest. destruct (layers (snaps st)) as [|l [|n ls]] eqn:El; [done..|].
    destruct Hm as (ss' & Hm & Hw & Hl & Hv). exists (with_snaps st ss').
    assert (Htop : top (with_snaps st ss') = top st).
    { unfold top, view. change (base (with_snaps st ss')) with (base st). simpl.
      rewrite Hv, El. done. }
    split_and!; [by unfold s_ClearSnapshot, tree_access, ClearSnapshot; rewrite Hm|done|exact Htop| |].
    + unfold tree_rest. change (base (with_snaps st ss')) with (base st). simpl. rewrite Hl.
      simpl in *. by injection Hrest.
    + intros a. unfold lookup_result. rewrite Htop. simpl. rewrite Hl, El. apply merged_lookup.
Defined.
End Tree.
