(* ===== verification/VMSafety.v ===== *)
(** Funds and snapshots under the virtual machine: whatever actor code does,
    applying a message mints nothing, keeps every balance nonnegative and leaves
    the snapshots below the message untouched. *)

From S2P Require Import Prelude Types Gas StateTree VM VMState.
Import Gas.Prices Gas.Meter Gas.Burn.

(** * Totals of a view *)

Definition total (v : gmap address Actor) : Z := map_sumZ Balance v.
Definition nonneg (v : gmap address Actor) : Prop := forall a act, v !! a = Some act -> 0 <= Balance act.
Definition balance_at (v : gmap address Actor) (a : address) : Z :=
  match v !! a with Some act => Balance act | None => 0 end.

Lemma total_insert v a act : total (<[a := act]> v) = total v - balance_at v a + Balance act.
Proof.
  unfold total, balance_at. destruct (v !! a) as [old|] eqn:E.
  - by rewrite (map_sumZ_insert_Some Balance v a old act E).
  - rewrite (map_sumZ_insert_None Balance v a act E). lia.
Qed.

Lemma nonneg_insert v a act : nonneg v -> 0 <= Balance act -> nonneg (<[a := act]> v).
Proof. intros Hv Ha b x [[<- <-]|[_ Hx]]%lookup_insert_Some; [done|]. by eapply Hv. Qed.

Lemma nonneg_delete v a : nonneg v -> nonneg (delete a v).
Proof. intros Hv b x [_ Hx]%lookup_delete_Some. by eapply Hv. Qed.

Lemma total_delete v a : total (delete a v) = total v - balance_at v a.
Proof.
  unfold total, balance_at. destruct (v !! a) as [act|] eqn:E.
  - by rewrite (map_sumZ_delete Balance v a act E).
  - rewrite delete_id by done. lia.
Qed.

Lemma balance_at_nonneg v a : nonneg v -> 0 <= balance_at v a.
Proof. intros Hv. unfold balance_at. destruct (v !! a) eqn:E; [by eapply Hv|lia]. Qed.

Lemma balance_at_Some v a act : v !! a = Some act -> balance_at v a = Balance act.
Proof. unfold balance_at. by intros ->. Qed.

Section Steps.
Context {T : Type} `{StateLaws T}.

(** A step that moves funds without minting. *)
Record safe_step (t t' : T) : Prop := {
  step_inv : s_inv t';
  step_rest : s_rest t' = s_rest t;
  step_nonneg : nonneg (s_top t) -> nonneg (s_top t');
  step_total : nonneg (s_top t) -> total (s_top t') <= total (s_top t);
}.

Lemma safe_refl t : s_inv t -> safe_step t t.
Proof. by split. Qed.

Lemma safe_trans t1 t2 t3 : safe_step t1 t2 -> safe_step t2 t3 -> safe_step t1 t3.
Proof.
  intros [_ Hr1 Hn1 Ht1] [Hi2 Hr2 Hn2 Ht2]. split; [done|congruence|auto|].
  intros Hn. specialize (Ht1 Hn). specialize (Ht2 (Hn1 Hn)). lia.
Qed.

Lemma safe_quiet t t' : s_quiet t t' -> safe_step t t'.
Proof. intros (Hi & Ht & Hr & _). split; [done..|by rewrite Ht|by rewrite Ht]. Qed.

(** The top view becomes [v], whatever happens to resolutions. *)
Definition updated (t t' : T) (v : gmap address Actor) : Prop :=
  s_inv t' /\ s_top t' = v /\ s_rest t' = s_rest t.

Lemma updated_replaced t t' v : s_replaced t t' v -> updated t t' v.
Proof. by intros (? & ? & ? & _). Qed.

Lemma safe_updated t t' v :
  updated t t' v -> (nonneg (s_top t) -> nonneg v /\ total v <= total (s_top t)) -> safe_step t t'.
Proof. intros (Hi & Ht & Hr) Hv. split; [done..|rewrite Ht|rewrite Ht]; intros Hn; by apply Hv. Qed.

(** Overwriting an actor with one that holds no more. *)
Lemma safe_insert t t' i act :
  s_replaced t t' (<[i := act]> (s_top t)) ->
  (nonneg (s_top t) -> 0 <= Balance act <= balance_at (s_top t) i) -> safe_step t t'.
Proof.
  intros Hr Hb. eapply safe_updated; [by apply updated_replaced|]. intros Hn. specialize (Hb Hn).
  split; [apply nonneg_insert; [done|lia]|]. rewrite total_insert. lia.
Qed.

Lemma safe_delete t t' i : s_replaced t t' (delete i (s_top t)) -> safe_step t t'.
Proof.
  intros Hr. eapply safe_updated; [by apply updated_replaced|]. intros Hn.
  split; [by apply nonneg_delete|].
  rewrite total_delete. pose proof (balance_at_nonneg _ i Hn). lia.
Qed.

(** Code on the runtime all of whose runs are safe steps. *)
Definition safe {A} (m : M T A) : Prop :=
  forall s, s_inv s.2 -> safe_step s.2 (m s).2.2.

Lemma safe_mret {A} (a : A) : safe (mret a).
Proof. intros s Hs. by apply safe_refl. Qed.

Lemma safe_bind {A B} (m : M T A) (f : A -> M T B) :
  safe m -> (forall a, safe (f a)) -> safe (m ≫= f).
Proof.
  intros Hm Hf s Hs. specialize (Hm s Hs). unfold mbind, M_bind, bind.
  destruct (m s) as [o s'] eqn:E. simpl in Hm. destruct o as [a|e| |]; simpl; try done.
  eapply safe_trans; [done|]. apply Hf. apply Hm.
Qed.

Lemma safe_throw {A} e : safe (throw (T := T) (A := A) e).
Proof. intros s Hs. by apply safe_refl. Qed.

Lemma safe_panic {A} : safe (panic (T := T) (A := A)).
Proof. intros s Hs. by apply safe_refl. Qed.

Lemma safe_get_rt : safe get_rt.
Proof. intros s Hs. by apply safe_refl. Qed.

Lemma safe_put_rt rt : safe (put_rt rt).
Proof. intros s Hs. by apply safe_refl. Qed.

Lemma safe_lift {A} (f : T -> result st_error A * T) :
  (forall t, s_inv t -> safe_step t (f t).2) -> safe (lift f).
Proof. intros Hf [rt t] Ht. specialize (Hf t Ht). unfold lift. simpl. by destruct (f t). Qed.

Lemma safe_chargeGasSafe g : safe (chargeGasSafe g).
Proof. intros [rt t] Ht. unfold chargeGasSafe. destruct (chargeGasInternal _ g). by apply safe_refl. Qed.

Lemma safe_LookupID t a : s_inv t -> safe_step t (s_LookupID t a).2.
Proof.
  intros Ht. pose proof (law_LookupID t a Ht) as Hl. destruct (s_LookupID t a).
  apply safe_quiet, Hl.
Qed.

Lemma safe_GetActor t a : s_inv t -> safe_step t (s_GetActor t a).2.
Proof.
  intros Ht. pose proof (law_GetActor t a Ht) as Hl. destruct (s_GetActor t a).
  apply safe_quiet, Hl.
Qed.

(** Storing an actor without funds, as creation does. *)
Lemma safe_SetActor_new t a act : s_inv t -> Balance act = 0 -> safe_step t (s_SetActor t a act).2.
Proof.
  intros Ht Hb. pose proof (law_SetActor t a act Ht) as Hl. destruct (s_SetActor t a act).
  destruct (s_lookup t a) as [i|]; [|apply safe_quiet, Hl].
  destruct Hl as [_ Hr]. eapply safe_insert; [done|]. intros Hn. rewrite Hb.
  split; [done|]. by apply balance_at_nonneg.
Qed.

Lemma safe_DeleteActor t a : s_inv t -> safe_step t (s_DeleteActor t a).2.
Proof.
  intros Ht. pose proof (law_DeleteActor t a Ht) as Hl. destruct (s_DeleteActor t a).
  destruct (s_get t a); [|apply safe_quiet, Hl].
  destruct Hl as [_ (i & _ & Hr)]. by eapply safe_delete.
Qed.

Lemma safe_Register t a : s_inv t -> safe_step t (s_RegisterNewAddress t a).2.
Proof.
  intros Ht. pose proof (law_Register t a Ht) as Hl. destruct (s_RegisterNewAddress t a) as [[]?];
    [|apply safe_quiet, Hl].
  destruct Hl as (act & hd & Hact & Hr). eapply safe_insert; [done|]. intros Hn.
  rewrite (balance_at_Some _ _ _ Hact). simpl. split; [by eapply Hn|done].
Qed.

(** The state read by [GetActor], after it. *)
Lemma get_then t a r t' :
  s_inv t -> s_GetActor t a = (r, t') ->
  s_quiet t t' /\ match r with
                  | Ok act => exists i, s_lookup t' a = Ok i /\ s_top t' !! i = Some act
                  | Err e => s_get t a = Err e
                  end.
Proof.
  intros Ht E. pose proof (law_GetActor t a Ht) as Hl. rewrite E in Hl.
  destruct Hl as [Hq ->]. split; [done|]. destruct Hq as (_ & Htop & _ & Hkeep).
  unfold s_get. case_decide; [done|]. destruct (s_lookup t a) as [i|] eqn:Ea; [|done].
  rewrite Htop. destruct (s_top t !! i) eqn:Ei; [|done]. exists i. by rewrite Hkeep.
Qed.
End Steps.

Create HintDb vm_safe.
#[export] Hint Resolve safe_mret safe_throw safe_panic safe_get_rt safe_put_rt
  safe_chargeGasSafe safe_LookupID safe_GetActor safe_DeleteActor safe_Register
  safe_SetActor_new : vm_safe.

(** Safety of code built from safe pieces, by its shape. *)
Ltac safe_tac :=
  repeat first
    [ progress intros
    | solve [eauto with vm_safe]
    | apply safe_bind
    | apply safe_lift
    | case_match
    | done ].

Section Operations.
Context {T : Type} `{StateLaws T} (vm : Env).

(** * Transfers *)

(** What a transfer did: nothing, or moved [amt] between two actors. *)
Inductive transfer_effect (t t' : T) (amt : Z) : Prop :=
  | transfer_none : s_quiet t t' -> transfer_effect t t' amt
  | transfer_moved i j f g :
      i <> j -> 0 <= amt <= Balance f ->
      s_top t !! i = Some f -> s_top t !! j = Some g ->
      updated t t' (<[j := depositFunds g amt]>
        (<[i := mkActor (Code f) (Head f) (Nonce f) (Balance f - amt)]> (s_top t))) ->
      transfer_effect t t' amt.

Lemma quiet_trans_s (t1 t2 t3 : T) : s_quiet t1 t2 -> s_quiet t2 t3 -> s_quiet t1 t3.
Proof. intros (_ & ? & ? & ?) (? & ? & ? & ?). split_and!; congruence. Qed.

Lemma effect_quiet (t1 t2 t3 : T) amt :
  s_quiet t1 t2 -> transfer_effect t2 t3 amt -> transfer_effect t1 t3 amt.
Proof.
  intros Hq [Hq'|i j f g Hne Ha Hi Hj Hr].
  - apply transfer_none. by eapply quiet_trans_s.
  - destruct Hq as (_ & Htop & Hrest & Hlk). rewrite Htop in *.
    eapply transfer_moved; [done..|]. destruct Hr as (? & ? & ?). split_and!; [done|done|congruence].
Qed.

Lemma transfer_resolved_effect t i j f amt :
  s_inv t -> Protocol i = ProtoID -> Protocol j = ProtoID -> i <> j -> 0 <= amt ->
  s_top t !! i = Some f ->
  transfer_effect t (transfer_resolved t i j f amt).2 amt.
Proof.
  intros Ht Hpi Hpj Hne Ha Hi. unfold transfer_resolved.
  destruct (s_GetActor t j) as [r t1] eqn:E1. destruct (get_then _ _ _ _ Ht E1) as [Hq1 Hr1].
  destruct r as [g|]; [|by apply transfer_none].
  destruct Hr1 as (j' & Hj' & Hg). rewrite law_lookup_ID in Hj' by done. injection Hj' as <-.
  unfold deductFunds. destruct (Z.ltb_spec (Balance f) amt); [by apply transfer_none|].
  apply (effect_quiet t t1); [done|]. destruct Hq1 as (Hi1 & Htop1 & _). rewrite <- Htop1 in Hi.
  pose proof (law_SetActor t1 i (mkActor (Code f) (Head f) (Nonce f) (Balance f - amt)) Hi1) as H2.
  destruct (s_SetActor t1 i _) as [r2 t2]. rewrite law_lookup_ID in H2 by done.
  destruct H2 as [-> (Hi2 & Htop2 & Hrest2 & Hlk2)].
  pose proof (law_SetActor t2 j (depositFunds g amt) Hi2) as H3.
  destruct (s_SetActor t2 j _) as [r3 t3]. rewrite law_lookup_ID in H3 by done.
  destruct H3 as [-> (Hi3 & Htop3 & Hrest3 & Hlk3)]. simpl.
  eapply (transfer_moved _ _ _ i j f g); [done|lia|done..|]. split_and!; [done|congruence..].
Qed.

Lemma lookup_then t a r t' :
  s_inv t -> s_LookupID t a = (r, t') ->
  s_quiet t t' /\ r = s_lookup t a /\ (forall i, r = Ok i -> Protocol i = ProtoID).
Proof.
  intros Ht E. pose proof (law_LookupID t a Ht) as Hl. rewrite E in Hl.
  destruct Hl as (Hq & Hr & Hi). by split_and!.
Qed.

Lemma quiet_inv (t t' : T) : s_quiet t t' -> s_inv t'.
Proof. by intros [? _]. Qed.

(** Follow the state through a lookup or a read, leaving the effect of the rest. *)
Ltac follow :=
  match goal with
  | Ht : s_inv ?t |- context [s_LookupID ?t ?a] =>
      let r := fresh "r" in let t' := fresh "t" in let E := fresh "E" in
      let Hq := fresh "Hq" in
      destruct (s_LookupID t a) as [r t'] eqn:E;
      destruct (lookup_then _ _ _ _ Ht E) as (Hq & _ & ?);
      pose proof (quiet_inv _ _ Hq); destruct r; simpl; [|by apply transfer_none];
      apply (effect_quiet t t'); [done|]
  | Ht : s_inv ?t |- context [s_GetActor ?t ?a] =>
      let r := fresh "r" in let t' := fresh "t" in let E := fresh "E" in
      let Hq := fresh "Hq" in
      destruct (s_GetActor t a) as [r t'] eqn:E;
      destruct (get_then _ _ _ _ Ht E) as [Hq ?];
      pose proof (quiet_inv _ _ Hq); destruct r; simpl; [|by apply transfer_none];
      apply (effect_quiet t t'); [done|]
  end.

Lemma get_ID t i f t' :
  s_inv t -> Protocol i = ProtoID -> s_GetActor t i = (Ok f, t') -> s_top t !! i = Some f.
Proof.
  intros Ht Hp E. destruct (get_then _ _ _ _ Ht E) as [(_ & <- & _) (j & Hj & Hf)].
  rewrite law_lookup_ID in Hj by done. by injection Hj as <-.
Qed.

(** The sender read earlier is still in the view. *)
Ltac sender :=
  match goal with
  | E : s_GetActor _ ?i = (Ok ?f, _) |- s_top _ !! ?i = Some ?f =>
      apply get_ID in E; [|done|by eauto];
      repeat match goal with Hq : s_quiet _ _ |- _ => destruct Hq as (_ & ? & _) end; congruence
  end.

Lemma transfer_spec t from to amt :
  s_inv t -> transfer_effect t (transfer vm t from to amt).2 amt.
Proof.
  intros Ht. unfold transfer. destruct (15 <=? networkVersion vm).
  - destruct (Z.ltb_spec amt 0); [by apply transfer_none|]. follow. follow.
    case_match; [by apply transfer_none|]. case_decide; [by apply transfer_none|]. follow.
    case_decide; [by apply transfer_none|]. apply transfer_resolved_effect; eauto. sender.
  - case_decide; [by apply transfer_none|]. follow. follow.
    case_decide; [by apply transfer_none|]. destruct (Z.ltb_spec amt 0); [by apply transfer_none|].
    follow. apply transfer_resolved_effect; eauto. sender.
Qed.

Lemma effect_safe t t' amt : s_inv t -> transfer_effect t t' amt -> safe_step t t'.
Proof.
  intros Ht [Hq|i j f g Hne Ha Hi Hj Hr]; [by apply safe_quiet|].
  eapply safe_updated; [done|]. intros Hn. pose proof (Hn i f Hi). pose proof (Hn j g Hj).
  split; [apply nonneg_insert; [apply nonneg_insert; [done|]|]; simpl; lia|].
  rewrite !total_insert. unfold balance_at. rewrite lookup_insert_ne, Hi, Hj by done. simpl. lia.
Qed.

(** * Runtime calls *)

Lemma safe_chargeGas g : safe (chargeGas (T := T) g).
Proof. unfold chargeGas. safe_tac. Qed.
#[local] Hint Resolve safe_chargeGas : vm_safe.

Lemma safe_msg_Caller : safe (msg_Caller (T := T)).
Proof. unfold msg_Caller. safe_tac. Qed.
Lemma safe_msg_Receiver : safe (msg_Receiver (T := T)).
Proof. unfold msg_Receiver. safe_tac. Qed.
#[local] Hint Resolve safe_msg_Caller safe_msg_Receiver : vm_safe.

Lemma safe_ResolveAddress a : safe (rt_ResolveAddress a).
Proof. unfold rt_ResolveAddress. safe_tac. Qed.
Lemma safe_GetActorCodeCID a : safe (rt_GetActorCodeCID a).
Proof. unfold rt_GetActorCodeCID. safe_tac. Qed.
Lemma safe_abortIfAlreadyValidated : safe (abortIfAlreadyValidated (T := T)).
Proof. unfold abortIfAlreadyValidated. safe_tac. Qed.
Lemma safe_match_codes c ts : safe (match_codes (T := T) vm c ts).
Proof. induction ts; simpl; safe_tac. Qed.
#[local] Hint Resolve safe_ResolveAddress safe_GetActorCodeCID safe_abortIfAlreadyValidated
  safe_match_codes : vm_safe.

Lemma safe_ValidateIs addrs : safe (rt_ValidateIs (T := T) addrs).
Proof. unfold rt_ValidateIs. safe_tac. Qed.
Lemma safe_ValidateType codes : safe (rt_ValidateType (T := T) vm codes).
Proof. unfold rt_ValidateType. safe_tac. Qed.
Lemma safe_CurrentBalance : safe (rt_CurrentBalance (T := T)).
Proof. unfold rt_CurrentBalance, GetBalance. safe_tac. Qed.
Lemma safe_NewActorAddress : safe (rt_NewActorAddress (T := T) vm).
Proof. unfold rt_NewActorAddress, ResolveToKeyAddr. safe_tac. Qed.
Lemma safe_store_Get : safe (store_Get (T := T) vm).
Proof. unfold store_Get. safe_tac. Qed.
Lemma safe_store_Put c : safe (store_Put (T := T) vm c).
Proof. unfold store_Put. safe_tac. Qed.
#[local] Hint Resolve safe_ValidateIs safe_ValidateType safe_CurrentBalance safe_NewActorAddress
  safe_store_Get safe_store_Put : vm_safe.

Lemma areg_Create_balance c act : areg_Create vm c = Ok act -> Balance act = 0.
Proof. unfold areg_Create. repeat case_match; intros; by simplify_eq. Qed.
#[local] Hint Resolve areg_Create_balance : vm_safe.

Lemma safe_CreateActor c a : safe (rt_CreateActor (T := T) vm c a).
Proof. unfold rt_CreateActor. safe_tac. Qed.

Lemma safe_transfer_or_panic from to amt : safe (transfer_or_panic (T := T) vm from to amt).
Proof.
  intros [rt t] Ht. unfold transfer_or_panic. simpl.
  pose proof (transfer_spec t from to amt Ht) as He. destruct (transfer vm t from to amt) as [e t'].
  by eapply effect_safe.
Qed.
#[local] Hint Resolve safe_CreateActor safe_transfer_or_panic : vm_safe.

Lemma safe_DeleteSelf b : safe (rt_DeleteActor (T := T) vm b).
Proof. unfold rt_DeleteActor. safe_tac. Qed.

(** Reading an actor and storing it with another head. *)
Lemma safe_stateCommit o n : safe (stateCommit (T := T) o n).
Proof.
  unfold stateCommit. apply safe_bind; [safe_tac|]. intros self [rt t] Ht.
  unfold mbind, M_bind, bind, lift. simpl in *.
  destruct (s_GetActor t self) as [r t1] eqn:E. destruct (get_then _ _ _ _ Ht E) as [Hq Hr].
  destruct r as [act|]; [|by apply safe_quiet]. destruct Hr as (i & Hi & Hact).
  destruct (decide (Head act = o)); [|by apply safe_quiet].
  apply (safe_trans t t1); [by apply safe_quiet|].
  pose proof (law_SetActor t1 self (mkActor (Code act) n (Nonce act) (Balance act))
    (quiet_inv _ _ Hq)) as Hs.
  simpl. destruct (s_SetActor t1 self _) as [r2 t2]. rewrite Hi in Hs. destruct Hs as [-> Hs].
  simpl. eapply safe_insert; [done|]. intros Hn. rewrite (balance_at_Some _ _ _ Hact). simpl.
  split; [by eapply Hn|done].
Qed.

Lemma safe_commit_or_panic o n : safe (commit_or_panic (T := T) o n).
Proof. unfold commit_or_panic. pose proof safe_stateCommit. safe_tac. Qed.
#[local] Hint Resolve safe_DeleteSelf safe_commit_or_panic : vm_safe.

Lemma safe_StateCreate c : safe (rt_StateCreate (T := T) vm c).
Proof. unfold rt_StateCreate. safe_tac. Qed.
Lemma safe_StateReadonly : safe (rt_StateReadonly (T := T) vm).
Proof. unfold rt_StateReadonly. safe_tac. Qed.
Lemma safe_StateTransaction {A} (f : cid -> M T A) hd :
  (forall c, safe (f c)) -> safe (rt_StateTransaction vm f hd).
Proof. intros Hf. unfold rt_StateTransaction. safe_tac. Qed.
#[local] Hint Resolve safe_StateCreate safe_StateReadonly : vm_safe.

(** * Sends *)

Definition safe_sends (send' : Message -> Runtime -> T -> sent) : Prop :=
  forall msg rt t, s_inv t -> safe_step t (sent_state (send' msg rt t)).

(** Closing the snapshot opened before a step that kept the frames below. *)
Lemma clear_snapshot t t1 :
  s_inv t -> s_inv t1 -> s_rest t1 = s_rest (s_Snapshot t) ->
  exists t2, s_ClearSnapshot t1 = (Ok tt, t2) /\ s_inv t2 /\ s_top t2 = s_top t1 /\
    s_rest t2 = s_rest t /\ (forall a, s_lookup t2 a = s_lookup t1 a).
Proof.
  intros Ht Hi Hr. destruct (law_Snapshot t Ht) as (fr & Hrest & _). rewrite Hrest in Hr.
  destruct (s_rest t) as [|w rest] eqn:Er; [by destruct (law_rest t Ht)|].
  by apply (law_Clear t1 fr w rest Hi Hr).
Qed.

Lemma snapshot_top t : s_inv t -> s_top (s_Snapshot t) = s_top t.
Proof. intros Ht. by destruct (law_Snapshot t Ht) as (fr & _ & _ & _ & _ & ? & _). Qed.

Lemma safe_clear t t1 :
  s_inv t -> safe_step (s_Snapshot t) t1 -> safe_step t (s_ClearSnapshot t1).2.
Proof.
  intros Ht [Hi Hr Hn Htot]. rewrite (snapshot_top t Ht) in *.
  destruct (clear_snapshot t t1 Ht Hi Hr) as (t2 & -> & Hi2 & Htop2 & Hrest2 & _).
  simpl. split; [done..|by rewrite Htop2|by rewrite Htop2].
Qed.

(** Reverting to it first. *)
Lemma safe_revert t t1 : safe_step (s_Snapshot t) t1 -> s_inv t -> safe_step (s_Snapshot t) (s_Revert t1).2.
Proof.
  intros [Hi Hr _ _] Ht. destruct (law_Snapshot t Ht) as (fr & Hrest & Hview & _ & _ & Htop & _).
  rewrite Hrest in Hr. destruct (law_Revert t1 fr _ Hi Hr) as (t2 & -> & Hi2 & Htop2 & Hrest2 & _).
  simpl. rewrite Hview in Htop2. split; [done|congruence|by rewrite Htop2, Htop|by rewrite Htop2, Htop].
Qed.

Section Nested.
Context (send' : Message -> Runtime -> T -> sent) (Hsend : safe_sends send').

Lemma safe_internalSend from to method value params :
  safe (internalSend send' from to method value params).
Proof.
  intros [rt t] Ht. unfold internalSend. simpl in *.
  set (msg := mkMessage _ _ _ _ _ _ _ _ _ _).
  destruct (law_Snapshot t Ht) as (_ & _ & _ & _ & Hsnap & _ & _).
  pose proof (Hsend msg rt (s_Snapshot t) Hsnap) as Hs.
  destruct (send' msg rt (s_Snapshot t)) as [o ort t1]. simpl in *.
  pose proof (safe_clear t t1 Ht Hs) as Hc. pose proof (safe_revert t t1 Hs Ht) as Hv.
  destruct o as [[b e]|e| |]; simpl; [|done..].
  destruct e as [e|]; [destruct (s_Revert t1) as [re t2]|]; simpl in *; [|done].
  apply (safe_clear t t2 Ht) in Hv. by destruct re.
Qed.
#[local] Hint Resolve safe_internalSend : vm_safe.

Lemma safe_Send to method params value um : safe (rt_Send send' to method params value um).
Proof. unfold rt_Send. safe_tac. Qed.
#[local] Hint Resolve safe_Send : vm_safe.

Lemma safe_run p : safe (run vm send' p).
Proof. induction p; simpl; safe_tac. Qed.

Lemma safe_shimCall p : safe (shimCall vm send' p).
Proof.
  assert (Hb : safe (shim_body vm send' p)) by (unfold shim_body; pose proof safe_run; safe_tac).
  intros s Hs. specialize (Hb s Hs). unfold shimCall.
  destruct (shim_body vm send' p s) as [o s']. by destruct o as [[]| | |].
Qed.
#[local] Hint Resolve safe_shimCall : vm_safe.

Lemma safe_Invoke act method params : safe (Invoke vm send' act method params).
Proof. unfold Invoke, areg_Invoke. safe_tac. Qed.

Lemma makeAccountActor_balance ver a act : makeAccountActor vm ver a = Val (Ok act) -> Balance act = 0.
Proof. unfold makeAccountActor, newAccountActor. repeat case_match; intros; by simplify_eq. Qed.
#[local] Hint Resolve safe_Invoke makeAccountActor_balance : vm_safe.

Lemma safe_TryCreate a : safe (TryCreateAccountActor vm send' a).
Proof. unfold TryCreateAccountActor. safe_tac. Qed.
#[local] Hint Resolve safe_TryCreate : vm_safe.

Lemma safe_finally {A} g (m : M T A) : safe m -> safe (finally_charge g m).
Proof.
  intros Hm s Hs. specialize (Hm s Hs). unfold finally_charge. by destruct (m s) as [o [rt t]].
Qed.

Lemma safe_send_transfer msg value : safe (send_transfer (T := T) vm msg value).
Proof.
  intros [rt t] Ht. unfold send_transfer. destruct (value =? 0); [by apply safe_refl|]. simpl.
  pose proof (transfer_spec t (From msg) (To msg) value Ht) as He.
  destruct (transfer vm t (From msg) (To msg) value). by eapply effect_safe.
Qed.
#[local] Hint Resolve safe_send_transfer : vm_safe.

Lemma safe_send_recipient msg : safe (send_recipient vm send' msg).
Proof. unfold send_recipient. safe_tac. Qed.
#[local] Hint Resolve safe_send_recipient : vm_safe.

Lemma safe_send_body msg : safe (send_body vm send' msg).
Proof. unfold send_body. repeat (safe_tac; try apply safe_finally). Qed.
#[local] Hint Resolve safe_send_body : vm_safe.

Lemma safe_send_with msg g : safe (send_with vm send' msg g).
Proof. unfold send_with. safe_tac. Qed.
End Nested.

Lemma makeRuntime_quiet msg parent t : s_inv t -> s_quiet t (makeRuntime vm msg parent t).2.
Proof.
  intros Ht. unfold makeRuntime. destruct (internal_disabled vm parent); [done|].
  destruct (_ && _); [done|]. destruct (s_LookupID t (From msg)) as [r1 t1] eqn:E1.
  destruct (lookup_then _ _ _ _ Ht E1) as (Hq1 & _ & _).
  destruct r1 as [i|[]]; simpl in *; try done. case_match; [done|].
  destruct (s_LookupID t1 (To msg)) as [r2 t2] eqn:E2.
  destruct (lookup_then _ _ _ _ (quiet_inv _ _ Hq1) E2) as (Hq2 & _ & _).
  destruct r2 as [j|[]]; simpl; by eapply quiet_trans_s.
Qed.

(** Whatever the code of the actors it reaches, a send mints nothing. *)
Lemma safe_send fuel msg parent g t :
  s_inv t -> safe_step t (sent_state (send vm fuel msg parent g t)).
Proof.
  revert msg parent g t. induction fuel as [|n IH]; intros msg parent g t Ht; simpl.
  { by apply safe_refl. }
  pose proof (safe_quiet _ _ (makeRuntime_quiet msg parent t Ht)) as Hs1.
  destruct (makeRuntime vm msg parent t) as [o t1]. destruct o as [rt|e| |]; [|done..].
  pose proof (safe_send_with (fun m p t => send vm n m (Some p) None t) (fun m p t => IH m (Some p) None t)
    msg g (rt, t1) (step_inv _ _ Hs1)) as Hs2.
  destruct (send_with vm _ msg g (rt, t1)) as [o [rt' t2]]. by eapply safe_trans.
Qed.
End Operations.
