(* ===== verification/VMApply.v ===== *)
(** Message application: gas settlement around a send, what a failed message
    leaves behind, exact conservation for plain transfers, and the fuel that
    the call depth limit makes sufficient. *)

From S2P Require Import Prelude Types Gas StateTree VM VMState VMSafety.
Import Gas.Prices Gas.Meter Gas.Burn.

Section Apply.
Context {T : Type} `{StateLaws T} (vm : Env).

(** * Steps that only move gas money *)

Definition code_head (a : Actor) : cid * cid := (Code a, Head a).

(** The balances of actors in [X] change by [g] in total; nothing else does but
    their nonces. *)
Record gas_step (X : address -> Prop) (g : Z) (t t' : T) : Prop := {
  gas_inv : s_inv t';
  gas_rest : s_rest t' = s_rest t;
  gas_lookup : forall a, s_lookup t' a = s_lookup t a;
  gas_others : forall i, ~ X i -> s_top t' !! i = s_top t !! i;
  gas_code : forall i, code_head <$> s_top t' !! i = code_head <$> s_top t !! i;
  gas_nonneg : nonneg (s_top t) -> nonneg (s_top t');
  gas_total : total (s_top t') = total (s_top t) + g;
}.

Lemma gas_quiet X t t' : s_quiet t t' -> gas_step X 0 t t'.
Proof. intros (Hi & Ht & Hr & Hl). split; rewrite ?Ht; [done..|lia]. Qed.

Lemma gas_trans X g1 g2 t1 t2 t3 :
  gas_step X g1 t1 t2 -> gas_step X g2 t2 t3 -> gas_step X (g1 + g2) t1 t3.
Proof.
  intros [_ Hr Hl Ho Hc Hn Ht] [Hi' Hr' Hl' Ho' Hc' Hn' Ht'].
  split; [done|congruence|congruence| | |auto|lia]; intros i.
  - intros Hi. by rewrite Ho', Ho.
  - by rewrite Hc', Hc.
Qed.

(** Storing an actor that was read, with another balance or nonce. *)
Lemma gas_replaced (X : address -> Prop) t t' i act act' :
  X i -> s_top t !! i = Some act -> code_head act' = code_head act ->
  (nonneg (s_top t) -> 0 <= Balance act') ->
  s_replaced t t' (<[i := act']> (s_top t)) -> gas_step X (Balance act' - Balance act) t t'.
Proof.
  intros HX Hact Hc Hb (Hi & Ht & Hr & Hl).
  assert (Hcode : forall j, code_head <$> <[i := act']> (s_top t) !! j = code_head <$> s_top t !! j).
  { intros j. destruct (decide (i = j)) as [<-|]; [|by rewrite lookup_insert_ne].
    rewrite lookup_insert_eq, Hact. simpl. by rewrite Hc. }
  split; [done|done| | | | |]; rewrite ?Ht.
  - apply Hl. specialize (Hcode init_Address).
    destruct (<[i := act']> (s_top t) !! init_Address), (s_top t !! init_Address); simpl in *; try done.
    injection Hcode as _ ->. done.
  - intros j Hj. rewrite lookup_insert_ne; [done|]. by intros ->.
  - done.
  - intros Hn. apply nonneg_insert; auto.
  - rewrite total_insert, (balance_at_Some _ _ _ Hact). lia.
Qed.

Lemma MutateActor_then {S} t a (f : Actor -> result st_error (Actor * S)) r t' :
  s_inv t -> s_MutateActor t a f = (r, t') ->
  match r with
  | Err _ => s_quiet t t'
  | Ok s => exists i act act', s_lookup t a = Ok i /\ s_top t !! i = Some act /\
      f act = Ok (act', s) /\ s_replaced t t' (<[i := act']> (s_top t))
  end.
Proof.
  intros Ht E. pose proof (law_MutateActor S t a f Ht) as Hm. rewrite E in Hm.
  destruct (s_get t a) as [act|]; [|by destruct Hm as [-> ?]].
  destruct (f act) as [[act' s]|] eqn:Ef; [|by destruct Hm as [-> ?]].
  destruct Hm as [-> (i & Hi & Hact & Hr)]. by exists i, act, act'.
Qed.

Lemma transferToGasHolder_step t a h amt r t' :
  s_inv t -> transferToGasHolder t a h amt = (r, t') ->
  match r with
  | Err _ => s_quiet t t'
  | Ok h' => exists i, s_lookup t a = Ok i /\ 0 <= amt /\ Balance h' = Balance h + amt /\
      gas_step (eq i) (- amt) t t'
  end.
Proof.
  intros Ht. unfold transferToGasHolder.
  destruct (Z.ltb_spec amt 0); [by intros [= <- <-]|]. intros E.
  apply (MutateActor_then t a) in E; [|done]. destruct r as [h'|]; [|done].
  destruct E as (i & act & act' & Hi & Hact & Hf & Hr). unfold deductFunds, bind_result in Hf.
  destruct (Z.ltb_spec (Balance act) amt); [done|]. injection Hf as <- <-. exists i.
  split_and!; [done|lia|done|].
  replace (- amt) with (Balance act - amt - Balance act) by lia.
  eapply (gas_replaced _ t t' i act (mkActor (Code act) (Head act) (Nonce act) (Balance act - amt)));
    [done|done|done|simpl; lia|done].
Qed.

Lemma transferFromGasHolder_step (X : address -> Prop) t a h amt r t' :
  s_inv t -> (forall j, s_lookup t a = Ok j -> X j) ->
  transferFromGasHolder t a h amt = (r, t') ->
  match r with
  | Err _ => s_quiet t t'
  | Ok h' => 0 <= amt /\ Balance h' = Balance h - amt /\ (0 <= Balance h -> 0 <= Balance h') /\
      gas_step X amt t t'
  end.
Proof.
  intros Ht HX. unfold transferFromGasHolder.
  destruct (Z.ltb_spec amt 0); [by intros [= <- <-]|].
  destruct (Z.eqb_spec amt 0) as [->|Hnz].
  { intros [= <- <-]. split_and!; [done|lia|done|]. by apply gas_quiet. }
  intros E. apply (MutateActor_then t a) in E; [|done]. destruct r as [h'|]; [|done].
  destruct E as (i & act & act' & Hi & Hact & Hf & Hr). unfold deductFunds, bind_result in Hf.
  destruct (Z.ltb_spec (Balance h) amt); [done|]. injection Hf as <- <-. simpl.
  split_and!; [lia|done|lia|].
  replace amt with (Balance (depositFunds act amt) - Balance act) at 1 by (simpl; lia).
  eapply gas_replaced; [by apply HX|done|done| |done]. simpl. intros Hn. specialize (Hn i act Hact). lia.
Qed.

Lemma incrementNonce_step t a r t' :
  s_inv t -> incrementNonce t a = (r, t') ->
  match r with
  | Err _ => s_quiet t t'
  | Ok _ => exists i, s_lookup t a = Ok i /\ gas_step (eq i) 0 t t'
  end.
Proof.
  intros Ht E. unfold incrementNonce in E. apply (MutateActor_then t a) in E; [|done].
  destruct r as [[]|]; [|done]. destruct E as (i & act & act' & Hi & Hact & Hf & Hr).
  injection Hf as <-. exists i. split; [done|].
  replace 0 with (Balance act - Balance act) at 1 by lia.
  eapply (gas_replaced _ t t' i act (mkActor (Code act) (Head act) (wrapu64 (Nonce act + 1)) (Balance act)));
    [done|done|done| |done].
  simpl. intros Hn. by eapply Hn.
Qed.

(** The actors a settlement pays: burnt funds, reward and the sender. *)
Definition gas_actor (c i : address) : Prop :=
  i = BurntFundsActorAddr \/ i = RewardActorAddr \/ i = c.

Lemma pay_all_step (X : address -> Prop) payments t h r t' :
  s_inv t -> 0 <= Balance h ->
  Forall (fun p => forall j, s_lookup t p.1 = Ok j -> X j) payments ->
  pay_all t h payments = (r, t') ->
  exists g, g <= Balance h /\ gas_step X g t t' /\
    match r with Ok h' => 0 <= Balance h' /\ Balance h' = Balance h - g | Err _ => True end.
Proof.
  revert t h. induction payments as [|[a amt] rest IH]; intros t h Ht Hh Hall; simpl.
  { intros [= <- <-]. exists 0. split_and!; [done|by apply gas_quiet|done|lia]. }
  apply Forall_cons in Hall as [HX Hall].
  destruct (transferFromGasHolder t a h amt) as [r1 t1] eqn:E.
  apply (transferFromGasHolder_step X) in E; [|done..].
  destruct r1 as [h1|]; [|intros [= <- <-]; exists 0; by split_and!; [|apply gas_quiet|]].
  destruct E as (? & Hh1 & Hpos & Hs). intros E.
  apply IH in E; [|apply Hs|auto|].
  - destruct E as (g & Hg & Hstep & Hr). exists (amt + g).
    split_and!; [lia|by eapply gas_trans|]. destruct r; [|done]. lia.
  - eapply Forall_impl; [done|]. intros p Hp j. rewrite (gas_lookup _ _ _ _ Hs). apply Hp.
Qed.

Lemma settle_step (X : address -> Prop) msg out h t r t' :
  s_inv t -> X BurntFundsActorAddr -> X RewardActorAddr ->
  (forall j, s_lookup t (From msg) = Ok j -> X j) -> 0 <= Balance h ->
  settle msg out h t = (r, t') ->
  exists g, g <= Balance h /\ gas_step X g t t' /\ (r = Ok tt -> g = Balance h).
Proof.
  intros Ht Hb Hrw Hc Hh. unfold settle. destruct (pay_all t h _) as [r1 t1] eqn:E.
  apply (pay_all_step X) in E; [|done..|].
  - destruct E as (g & Hg & Hs & Hr). destruct r1 as [h1|]; intros [= <- <-]; exists g; [|done].
    split_and!; [done..|]. destruct (Z.eqb_spec (Balance h1) 0); [lia|done].
  - repeat apply Forall_cons_2; [..|by apply Forall_nil_2]; simpl; [..|done];
      intros j; rewrite law_lookup_ID by done; by intros [= <-].
Qed.

(** * The send of a message *)

Lemma ShouldBurn_quiet msg code t : s_inv t -> s_quiet t (ShouldBurn vm msg code t).2.
Proof.
  intros Ht. unfold ShouldBurn. destruct (networkVersion vm <=? 12); [|done].
  destruct (_ && _); [|done]. destruct (s_GetActor t (To msg)) as [r t1] eqn:E.
  destruct (get_then _ _ _ _ Ht E) as [Hq _]. by destruct r as [|[]].
Qed.

(** [safe_step] followed by payments from a holder of [h]. *)
Record funded_step (h : Z) (t t' : T) : Prop := {
  funded_inv : s_inv t';
  funded_rest : s_rest t' = s_rest t;
  funded_nonneg : nonneg (s_top t) -> nonneg (s_top t');
  funded_total : nonneg (s_top t) -> total (s_top t') <= total (s_top t) + h;
}.

Lemma funded_safe h t t' : 0 <= h -> safe_step t t' -> funded_step h t t'.
Proof. intros Hh [Hi Hr Hn Ht]. split; [done..|]. intros Hv. specialize (Ht Hv). lia. Qed.

Lemma funded_gas X h g t1 t2 t3 :
  safe_step t1 t2 -> gas_step X g t2 t3 -> g <= h -> funded_step h t1 t3.
Proof.
  intros [_ Hr Hn Ht] [Hi' Hr' _ _ _ Hn' Ht'] Hg. split; [done|congruence|auto|].
  intros Hv. specialize (Ht Hv). lia.
Qed.

(** The state after the send and, for an error, the revert. *)
Lemma reverted t0 t1 :
  s_inv t0 -> safe_step (s_Snapshot t0) t1 ->
  exists t2, s_Revert t1 = (Ok tt, t2) /\ s_quiet (s_Snapshot t0) t2.
Proof.
  intros Ht [Hi Hr _ _].
  destruct (law_Snapshot t0 Ht) as (fr & Hrest & Hview & Hlk & _ & Htop & Hlk').
  rewrite Hrest in Hr. destruct (law_Revert t1 fr _ Hi Hr) as (t2 & Hrev & Hi2 & Htop2 & Hrest2 & Hlk2).
  exists t2. split; [done|]. split_and!; [done|congruence|congruence|].
  intros a. by rewrite Hlk2, Hlk, Hlk'.
Qed.

Lemma execute_step fuel msg feeCap premium g h t0 c r t' :
  s_inv t0 -> s_lookup t0 (From msg) = Ok c -> 0 <= Balance h ->
  execute vm fuel msg feeCap premium g h (s_Snapshot t0) = (r, t') ->
  funded_step (Balance h) (s_Snapshot t0) t' /\
  (forall ret, r = Applied ret -> ExitCode ret <> 0 ->
    gas_step (gas_actor c) (Balance h) (s_Snapshot t0) t').
Proof.
  intros Ht Hc Hh. unfold execute.
  destruct (law_Snapshot t0 Ht) as (_ & _ & _ & _ & Hsi & _ & Hsl).
  pose proof (safe_send vm fuel msg None (Some g) (s_Snapshot t0) Hsi) as Hs.
  destruct (send vm fuel msg None (Some g) (s_Snapshot t0)) as [o ort t1]. simpl in *.
  pose proof (funded_safe (Balance h) _ _ Hh Hs) as Hfs.
  destruct o as [[b e]|e| |]; [|by destruct ort; intros [= <- <-]..|by intros [= <- <-]].
  destruct ort as [rt|]; [|by intros [= <- <-]].
  destruct (IsFatal e); [by intros [= <- <-]|]. destruct (_ && _); [by intros [= <- <-]|].
  match goal with |- context [if bool_decide (b = ""%string) then ?x else ?y] =>
    destruct (if bool_decide (b = ""%string) then x else y) as [[b' e'] rt'] end.
  destruct (Z.eqb_spec (RetCode e') 0) as [Hz|Hnz].
  - pose proof (ShouldBurn_quiet msg (RetCode e') t1 (step_inv _ _ Hs)) as Hq.
    destruct (ShouldBurn vm msg (RetCode e') t1) as [[burn|] t2]; simpl in Hq;
      [|intros [= <- <-]; split; [|done]; eapply funded_safe, safe_trans; [done|done|by apply safe_quiet]].
    destruct (settle msg _ h t2) as [r3 t3] eqn:E3.
    apply (settle_step (fun _ => True)) in E3; [|apply Hq|done..].
    destruct E3 as (g' & Hg' & Hgas & _).
    assert (Hf : funded_step (Balance h) (s_Snapshot t0) t3)
      by (eapply funded_gas; [|exact Hgas|done]; eapply safe_trans; [done|by apply safe_quiet]).
    destruct r3; intros [= <- <-]; split; try done. by intros ret [= <-].
  - destruct (reverted t0 t1 Ht Hs) as (t2 & -> & Hq2).
    pose proof (ShouldBurn_quiet msg (RetCode e') t2 (quiet_inv _ _ Hq2)) as Hq.
    destruct (ShouldBurn vm msg (RetCode e') t2) as [[burn|] t3]; simpl in Hq;
      pose proof (quiet_trans_s _ _ _ Hq2 Hq) as Hq3;
      [|intros [= <- <-]; split; [|done]; by apply funded_safe, safe_quiet].
    destruct (settle msg _ h t3) as [r4 t4] eqn:E4.
    apply (settle_step (gas_actor c)) in E4; [|apply Hq|by unfold gas_actor; eauto..| |done].
    + destruct E4 as (g' & Hg' & Hgas & Hall).
      assert (Hf : funded_step (Balance h) (s_Snapshot t0) t4)
        by (eapply funded_gas; [|exact Hgas|done]; by apply safe_quiet).
      destruct r4 as [[]|]; intros [= <- <-]; split; try done.
      intros ret [= <-] _. rewrite <- (Hall eq_refl), <- (Z.add_0_l g').
      eapply gas_trans; [by apply gas_quiet|done].
    + intros j. destruct Hq3 as (_ & _ & _ & ->). rewrite Hsl, Hc. intros [= <-]. unfold gas_actor. auto.
Qed.

(** * Message application by cases *)

(** What applying a message did: nothing, nothing but a charge that was lost to
    an error, or an execution after the charge of [Balance h]. *)
Inductive apply_case (fuel : nat) (msg : Message) (t : T) : applied -> T -> Prop :=
  | refused r t' :
      s_quiet t t' -> (forall ret, r = Applied ret -> ExitCode ret <> 0) ->
      apply_case fuel msg t r t'
  | charge_lost c g t' :
      0 <= g -> gas_step (eq c) (- g) t t' -> apply_case fuel msg t Failed t'
  | executed r c t1 t2 h feeCap premium msgGas :
      0 <= Balance h -> s_lookup t (From msg) = Ok c ->
      gas_step (eq c) (- Balance h) t t1 ->
      execute vm fuel msg feeCap premium msgGas h (s_Snapshot t1) = (r, t2) ->
      apply_case fuel msg t r (s_ClearSnapshot t2).2.

Lemma penalised_code code penalty ret :
  code <> 0 -> penalised code penalty = Applied ret -> ExitCode ret <> 0.
Proof. by intros ? [= <-]. Qed.

Lemma ApplyMessage_cases fuel msg len t :
  s_inv t ->
  apply_case fuel msg t (ApplyMessage vm fuel msg len t).1 (ApplyMessage vm fuel msg len t).2.
Proof.
  intros Ht. unfold ApplyMessage.
  destruct (checkMessage msg), (GasFeeCap msg) as [feeCap|], (GasPremium msg) as [premium|];
    try (by apply refused).
  destruct (_ >? _); [by apply refused; [|intros ?; apply penalised_code]|].
  destruct (s_GetActor t (From msg)) as [r1 t1] eqn:E1. destruct (get_then _ _ _ _ Ht E1) as [Hq1 _].
  destruct r1 as [act|[]]; simpl; try (by apply refused);
    [|by apply refused; [|intros ?; apply penalised_code]].
  destruct (negb (IsAccountActor _ _)); [by apply refused; [|intros ?; apply penalised_code]|].
  destruct (negb _); [by apply refused; [|intros ?; apply penalised_code]|].
  destruct (_ <? _); [by apply refused; [|intros ?; apply penalised_code]|].
  destruct (transferToGasHolder t1 _ _ _) as [r2 t2] eqn:E2.
  apply transferToGasHolder_step in E2; [|apply Hq1].
  destruct r2 as [h|]; [|apply refused; [by eapply quiet_trans_s|done]].
  destruct E2 as (c & Hc & Hpos & Hh & Hg2). simpl in Hh.
  apply (gas_quiet (eq c)) in Hq1 as Hg1. pose proof (gas_trans _ _ _ _ _ _ Hg1 Hg2) as Hg12.
  rewrite Z.add_0_l in Hg12.
  destruct (incrementNonce t2 (From msg)) as [r3 t3] eqn:E3.
  apply incrementNonce_step in E3; [|apply Hg12].
  destruct r3 as [[]|].
  - destruct E3 as (c' & Hc' & Hg3). rewrite (gas_lookup _ _ _ _ Hg2), Hc in Hc'. injection Hc' as <-.
    pose proof (gas_trans _ _ _ _ _ _ Hg12 Hg3) as Hg. rewrite Z.add_0_r in Hg.
    destruct (execute _ _ _ _ _ _ _ _) as [r4 t4] eqn:E4. simpl.
    eapply (executed _ _ _ r4 c t3 t4 h); [lia| | |exact E4].
    + by rewrite (gas_lookup _ _ _ _ Hg1) in Hc.
    + by replace (- Balance h) with (- (wrapu64 (GasLimit msg) * feeCap)) by lia.
  - pose proof (gas_trans _ _ _ _ _ _ Hg12 (gas_quiet _ _ _ E3)) as Hg. rewrite Z.add_0_r in Hg.
    by eapply charge_lost; [|exact Hg].
Qed.

(** * Plain transfers *)

Lemma send_body_plain send' msg rt t a :
  s_inv t -> Method msg = 0 -> s_get t (To msg) = Ok a ->
  exists amt, transfer_effect t (send_body vm send' msg (rt, t)).2.2 amt.
Proof.
  intros Ht Hm Hget. unfold send_body, send_recipient, chargeGasSafe, lift, mbind, M_bind, bind, mret, M_ret.
  simpl. destruct (chargeGasInternal _ _) as [m1 ok1]. simpl.
  destruct (s_GetActor t (To msg)) as [r t1] eqn:E. pose proof (law_GetActor t (To msg) Ht) as Hl.
  rewrite E in Hl. destruct Hl as [Hq ->]. rewrite Hget. simpl.
  destruct (Value msg) as [value|]; [|by exists 0; apply transfer_none].
  destruct (chargeGasInternal _ _) as [m2 ok2]. destruct ok2; simpl; [|by exists 0; apply transfer_none].
  unfold finally_charge, send_transfer. simpl. exists value.
  destruct (value =? 0); [rewrite Hm; by apply transfer_none|].
  pose proof (transfer_spec vm t1 (From msg) (To msg) value (quiet_inv _ _ Hq)) as He.
  destruct (transfer vm t1 (From msg) (To msg) value) as [e t2]. apply (effect_quiet t) in He; [|done].
  destruct e; [done|]. by rewrite Hm.
Qed.

Lemma send_plain fuel msg g t a :
  s_inv t -> Method msg = 0 -> s_get t (To msg) = Ok a ->
  exists amt, transfer_effect t (sent_state (send vm fuel msg None g t)) amt.
Proof.
  intros Ht Hm Hget. destruct fuel as [|n]; simpl; [by exists 0; apply transfer_none|].
  pose proof (makeRuntime_quiet vm msg None t Ht) as Hq.
  destruct (makeRuntime vm msg None t) as [o t1]. simpl in Hq.
  destruct o as [rt|e| |]; [|by exists 0; apply transfer_none..].
  assert (Hget1 : s_get t1 (To msg) = Ok a).
  { destruct Hq as (_ & Htop & _ & Hlk). unfold s_get in *. by rewrite Hlk, Htop. }
  set (send' := fun m p t => send vm n m (Some p) None t).
  assert (Hb : forall rt, exists amt, transfer_effect t (send_body vm send' msg (rt, t1)).2.2 amt).
  { intros rt'. destruct (send_body_plain send' msg rt' t1 a (quiet_inv _ _ Hq) Hm Hget1) as [amt He].
    exists amt. by eapply effect_quiet. }
  unfold send_with. destruct g as [g|]; simpl.
  - unfold chargeGasSafe, mbind, M_bind, bind. simpl. destruct (chargeGasInternal _ g) as [m ok].
    destruct ok; simpl; [|by exists 0; apply transfer_none].
    specialize (Hb (set_gas rt m)). by destruct (send_body vm send' msg _) as [? [??]].
  - specialize (Hb rt). by destruct (send_body vm send' msg _) as [? [??]].
Qed.

Lemma effect_total t t' amt : transfer_effect t t' amt -> total (s_top t') = total (s_top t).
Proof.
  intros [(_ & -> & _)|i j f g Hne Ha Hi Hj (_ & -> & _)]; [done|].
  rewrite !total_insert. unfold balance_at. rewrite lookup_insert_ne, Hi, Hj by done. simpl. lia.
Qed.

Lemma execute_plain fuel msg feeCap premium g h t0 c ret t' a :
  s_inv t0 -> s_lookup t0 (From msg) = Ok c -> 0 <= Balance h ->
  Method msg = 0 -> s_get t0 (To msg) = Ok a ->
  execute vm fuel msg feeCap premium g h (s_Snapshot t0) = (Applied ret, t') ->
  total (s_top t') = total (s_top t0) + Balance h.
Proof.
  intros Ht Hc Hh Hm Hget Hex. destruct (decide (ExitCode ret = 0)) as [Hz|Hnz].
  2: { destruct (execute_step _ _ _ _ _ _ _ _ _ _ Ht Hc Hh Hex) as [_ Hg].
       rewrite (gas_total _ _ _ _ (Hg ret eq_refl Hnz)). by rewrite snapshot_top. }
  destruct (law_Snapshot t0 Ht) as (_ & _ & _ & _ & Hsi & Hst & Hsl).
  assert (Hget1 : s_get (s_Snapshot t0) (To msg) = Ok a) by (unfold s_get in *; by rewrite Hsl, Hst).
  destruct (send_plain fuel msg (Some g) (s_Snapshot t0) a Hsi Hm Hget1) as [amt He].
  unfold execute in Hex. pose proof (safe_send vm fuel msg None (Some g) _ Hsi) as Hs.
  destruct (send vm fuel msg None (Some g) (s_Snapshot t0)) as [o ort t1]. simpl in *.
  apply effect_total in He. rewrite Hst in He.
  destruct o as [[b e]|e| |], ort as [rt|]; try done.
  destruct (IsFatal e); [done|]. destruct (_ && _); [done|].
  match type of Hex with context [if bool_decide (b = ""%string) then ?x else ?y] =>
    destruct (if bool_decide (b = ""%string) then x else y) as [[b' e'] rt'] end.
  destruct (Z.eqb_spec (RetCode e') 0) as [Hz'|Hnz'].
  - pose proof (ShouldBurn_quiet msg (RetCode e') t1 (step_inv _ _ Hs)) as Hq.
    destruct (ShouldBurn vm msg (RetCode e') t1) as [[burn|] t2]; simpl in Hq; [|done].
    destruct (settle msg _ h t2) as [r3 t3] eqn:E3.
    apply (settle_step (fun _ => True)) in E3; [|apply Hq|done..].
    destruct r3 as [[]|]; [|done]. injection Hex as <- <-.
    destruct E3 as (g' & Hg' & Hgas & Hall). rewrite (gas_total _ _ _ _ Hgas), (Hall eq_refl).
    destruct Hq as (_ & -> & _). lia.
  - destruct (s_Revert t1) as [[]t2]; [|done].
    destruct (ShouldBurn vm msg (RetCode e') t2) as [[burn|] t3]; [|done].
    destruct (settle msg _ h t3) as [[[]|] t4]; [|done]. by injection Hex as <- <-.
Qed.
End Apply.
