(* ===== verification/VMFuel.v ===== *)
(** Termination of sends: the call depth limit bounds the nesting, so a fuel of
    [MaxCallDepth + 2] is enough for every message and all actor code. *)

From S2P Require Import Prelude Types Gas StateTree VM.
Import Gas.Prices Gas.Meter.

Section Fuel.
Context {T : Type} `{StateAccess T} (vm : Env).

(** Code that keeps its runtime's depth and does not run out of fuel. *)
Definition fueled {A} (d : Z) (m : M T A) : Prop :=
  forall s, depth s.1 = d -> depth (m s).2.1 = d /\ (m s).1 <> NoFuel.

Lemma fueled_mret {A} d (a : A) : fueled d (mret a).
Proof. by intros s Hs. Qed.
Lemma fueled_throw {A} d e : fueled d (throw (T := T) (A := A) e).
Proof. by intros s Hs. Qed.
Lemma fueled_panic {A} d : fueled d (panic (T := T) (A := A)).
Proof. by intros s Hs. Qed.
Lemma fueled_lift {A} d (f : T -> result st_error A * T) : fueled d (lift f).
Proof. intros s Hs. unfold lift. by destruct (f s.2). Qed.
Lemma fueled_chargeGasSafe d g : fueled d (chargeGasSafe (T := T) g).
Proof. intros s Hs. unfold chargeGasSafe. by destruct (chargeGasInternal _ g). Qed.
Lemma fueled_bind {A B} d (m : M T A) (f : A -> M T B) :
  fueled d m -> (forall a, fueled d (f a)) -> fueled d (m ≫= f).
Proof.
  intros Hm Hf s Hs. destruct (Hm s Hs) as [Hd Hn]. unfold mbind, M_bind, bind.
  destruct (m s) as [[a|e| |] s']; simpl in *; [by apply Hf|done..].
Qed.

(** Reading the runtime and storing one of the same depth. *)
Lemma fueled_get_rt {B} d (f : Runtime -> M T B) :
  (forall rt, depth rt = d -> fueled d (f rt)) -> fueled d (get_rt ≫= f).
Proof. intros Hf s Hs. unfold mbind, M_bind, bind, get_rt. by apply Hf. Qed.
Lemma fueled_put_rt d rt : depth rt = d -> fueled d (put_rt (T := T) rt).
Proof. by intros Hd s Hs. Qed.
End Fuel.

Create HintDb vm_fuel.
#[export] Hint Resolve fueled_mret fueled_throw fueled_panic fueled_lift fueled_chargeGasSafe
  fueled_put_rt : vm_fuel.

Ltac fuel_tac :=
  repeat first
    [ progress intros
    | solve [eauto with vm_fuel]
    | apply fueled_get_rt
    | apply fueled_bind
    | case_match
    | done ].

Section Enough.
Context {T : Type} `{StateAccess T} (vm : Env).

Lemma fueled_chargeGas d g : fueled d (chargeGas (T := T) g).
Proof. unfold chargeGas. fuel_tac. Qed.
Lemma fueled_msg_Caller d : fueled d (msg_Caller (T := T)).
Proof. unfold msg_Caller. fuel_tac. Qed.
Lemma fueled_msg_Receiver d : fueled d (msg_Receiver (T := T)).
Proof. unfold msg_Receiver. fuel_tac. Qed.
Lemma fueled_abortIfAlreadyValidated d : fueled d (abortIfAlreadyValidated (T := T)).
Proof. unfold abortIfAlreadyValidated. fuel_tac. Qed.
Lemma fueled_match_codes d c ts : fueled d (match_codes (T := T) vm c ts).
Proof. induction ts; simpl; fuel_tac. Qed.
Lemma fueled_transfer_or_panic d from to amt : fueled d (transfer_or_panic (T := T) vm from to amt).
Proof. intros s Hs. unfold transfer_or_panic. by destruct (transfer vm s.2 from to amt) as [[]]. Qed.
#[local] Hint Resolve fueled_chargeGas fueled_msg_Caller fueled_msg_Receiver
  fueled_abortIfAlreadyValidated fueled_match_codes fueled_transfer_or_panic : vm_fuel.

(** The runtime calls that do not nest, by their shape. *)
Ltac shape f := unfold f; fuel_tac.

Lemma fueled_ResolveAddress d a : fueled d (rt_ResolveAddress (T := T) a).
Proof. shape @rt_ResolveAddress. Qed.
Lemma fueled_GetActorCodeCID d a : fueled d (rt_GetActorCodeCID (T := T) a).
Proof. shape @rt_GetActorCodeCID. Qed.
#[local] Hint Resolve fueled_ResolveAddress fueled_GetActorCodeCID : vm_fuel.
Lemma fueled_ValidateIs d addrs : fueled d (rt_ValidateIs (T := T) addrs).
Proof. shape @rt_ValidateIs. Qed.
Lemma fueled_ValidateType d codes : fueled d (rt_ValidateType (T := T) vm codes).
Proof. shape @rt_ValidateType. Qed.
Lemma fueled_GetBalance d a : fueled d (GetBalance (T := T) a).
Proof. shape @GetBalance. Qed.
#[local] Hint Resolve fueled_GetBalance : vm_fuel.
Lemma fueled_CurrentBalance d : fueled d (rt_CurrentBalance (T := T)).
Proof. shape @rt_CurrentBalance. Qed.
Lemma fueled_ResolveToKeyAddr d a : fueled d (ResolveToKeyAddr (T := T) vm a).
Proof. shape @ResolveToKeyAddr. Qed.
#[local] Hint Resolve fueled_ResolveToKeyAddr : vm_fuel.
Lemma fueled_NewActorAddress d : fueled d (rt_NewActorAddress (T := T) vm).
Proof. shape @rt_NewActorAddress. Qed.
Lemma fueled_CreateActor d c a : fueled d (rt_CreateActor (T := T) vm c a).
Proof. shape @rt_CreateActor. Qed.
Lemma fueled_DeleteSelf d b : fueled d (rt_DeleteActor (T := T) vm b).
Proof. shape @rt_DeleteActor. Qed.
Lemma fueled_store_Get d : fueled d (store_Get (T := T) vm).
Proof. shape @store_Get. Qed.
Lemma fueled_store_Put d c : fueled d (store_Put (T := T) vm c).
Proof. shape @store_Put. Qed.
Lemma fueled_stateCommit d o n : fueled d (stateCommit (T := T) o n).
Proof. shape @stateCommit. Qed.
#[local] Hint Resolve fueled_ValidateIs fueled_ValidateType fueled_CurrentBalance
  fueled_NewActorAddress fueled_CreateActor fueled_DeleteSelf fueled_store_Get fueled_store_Put
  fueled_stateCommit : vm_fuel.
Lemma fueled_commit_or_panic d o n : fueled d (commit_or_panic (T := T) o n).
Proof. shape @commit_or_panic. Qed.
#[local] Hint Resolve fueled_commit_or_panic : vm_fuel.
Lemma fueled_StateCreate d c : fueled d (rt_StateCreate (T := T) vm c).
Proof. shape @rt_StateCreate. Qed.
Lemma fueled_StateReadonly d : fueled d (rt_StateReadonly (T := T) vm).
Proof. shape @rt_StateReadonly. Qed.
Lemma fueled_StateTransaction {A} d (f : cid -> M T A) hd :
  (forall c, fueled d (f c)) -> fueled d (rt_StateTransaction vm f hd).
Proof. intros Hf. shape @rt_StateTransaction. Qed.
#[local] Hint Resolve fueled_StateCreate fueled_StateReadonly : vm_fuel.

Section Nested.
(** A nested send that does not run out of fuel below depth [d]. *)
Context (d : Z) (send' : Message -> Runtime -> T -> sent (T := T)).
Context (Hsend : forall msg rt t, depth rt = d -> sent_result (send' msg rt t) <> NoFuel).

Lemma fueled_internalSend from to method value params :
  fueled d (internalSend send' from to method value params).
Proof.
  intros [rt t] Hd. unfold internalSend. simpl in Hd. set (msg := mkMessage _ _ _ _ _ _ _ _ _ _).
  specialize (Hsend msg rt (s_Snapshot t) Hd).
  destruct (send' msg rt (s_Snapshot t)) as [o ort t1]. simpl in *.
  destruct o as [[b e]|e| |]; [|by destruct ort..].
  destruct e; [destruct (s_Revert t1) as [[] t2]|]; by destruct ort.
Qed.
#[local] Hint Resolve fueled_internalSend : vm_fuel.

Lemma fueled_Send to method params value um : fueled d (rt_Send send' to method params value um).
Proof. unfold rt_Send. fuel_tac. Qed.
#[local] Hint Resolve fueled_Send : vm_fuel.

Lemma fueled_run p : fueled d (run vm send' p).
Proof. induction p; simpl; fuel_tac. Qed.

Lemma fueled_shimCall p : fueled d (shimCall vm send' p).
Proof.
  assert (Hb : fueled d (shim_body vm send' p)).
  { unfold shim_body. apply fueled_bind; [apply fueled_run|]. fuel_tac. }
  intros s Hs. destruct (Hb s Hs) as [Hd Hn]. unfold shimCall.
  destruct (shim_body vm send' p s) as [o s']. by destruct o as [[]| | |].
Qed.
#[local] Hint Resolve fueled_shimCall : vm_fuel.

Lemma fueled_Invoke act method params : fueled d (Invoke vm send' act method params).
Proof. unfold Invoke, areg_Invoke. fuel_tac. Qed.
Lemma fueled_TryCreate a : fueled d (TryCreateAccountActor vm send' a).
Proof. unfold TryCreateAccountActor. fuel_tac. Qed.
#[local] Hint Resolve fueled_Invoke fueled_TryCreate : vm_fuel.

Lemma fueled_finally {A} g (m : M T A) : fueled d m -> fueled d (finally_charge g m).
Proof.
  intros Hm s Hs. destruct (Hm s Hs) as [Hd Hn]. unfold finally_charge.
  by destruct (m s) as [o [rt t]].
Qed.

Lemma fueled_send_transfer msg value : fueled d (send_transfer (T := T) vm msg value).
Proof.
  intros s Hs. unfold send_transfer. destruct (value =? 0); [done|].
  by destruct (transfer vm s.2 _ _ _).
Qed.

Lemma fueled_send_recipient msg : fueled d (send_recipient vm send' msg).
Proof. unfold send_recipient. fuel_tac. Qed.
#[local] Hint Resolve fueled_send_transfer fueled_send_recipient : vm_fuel.

Lemma fueled_send_with msg g : fueled d (send_with vm send' msg g).
Proof. unfold send_with, send_body. repeat (fuel_tac; try apply fueled_finally). Qed.
End Nested.

(** A runtime is only made within the depth limit, at the depth it should have. *)
Lemma makeRuntime_depth msg parent t rt t' :
  6 <= networkVersion vm -> makeRuntime vm msg parent t = (Val rt, t') ->
  depth rt = depth (initial_runtime msg parent) /\ depth rt <= MaxCallDepth.
Proof.
  intros Hnv. unfold makeRuntime. set (rt0 := initial_runtime msg parent).
  destruct (internal_disabled vm parent); [done|].
  destruct (Z.gtb_spec (depth rt0) MaxCallDepth), (Z.leb_spec 6 (networkVersion vm));
    simpl; try lia; [done|].
  destruct (s_LookupID t (From msg)) as [[i|[]] t1]; try done.
  destruct (networkVersion vm <=? 3); [by intros [= <- <-]|].
  destruct (s_LookupID t1 (To msg)) as [[j|[]] t2]; try done; by intros [= <- <-].
Qed.

Lemma makeRuntime_fuel msg parent t : (makeRuntime vm msg parent t).1 <> NoFuel.
Proof.
  unfold makeRuntime. destruct (internal_disabled vm parent); [done|]. destruct (_ && _); [done|].
  destruct (s_LookupID t (From msg)) as [[i|[]] t1]; try done.
  destruct (networkVersion vm <=? 3); [done|].
  by destruct (s_LookupID t1 (To msg)) as [[j|[]] t2].
Qed.

Lemma send_fueled fuel msg parent g t :
  6 <= networkVersion vm -> (fuel <> 0)%nat ->
  MaxCallDepth + 2 - depth (initial_runtime msg parent) <= Z.of_nat fuel ->
  sent_result (send vm fuel msg parent g t) <> NoFuel.
Proof.
  intros Hnv. revert msg parent g t. induction fuel as [|n IH]; [done|].
  intros msg parent g t _ Hfuel. simpl.
  pose proof (makeRuntime_fuel msg parent t) as Hmk.
  destruct (makeRuntime vm msg parent t) as [o t1] eqn:E. destruct o as [rt|e| |]; try done.
  destruct (makeRuntime_depth _ _ _ _ _ Hnv E) as [Hd Hmax].
  pose proof (fueled_send_with (depth rt) (fun m p t => send vm n m (Some p) None t)) as Hs.
  destruct (Hs) with (msg := msg) (g := g) (s := (rt, t1)) as [_ Hn]; [|done|].
  - intros m p t2 Hp. apply IH; simpl; lia.
  - by destruct (send_with vm _ msg g (rt, t1)) as [o [rt' t2]].
Qed.
End Enough.
