(* ===== verification/VMTheorems.v ===== *)
(** The main theorems on message application, over any state that satisfies
    [StateLaws], with witnesses on a concrete state tree and actor registry. *)

From S2P Require Import Prelude Types Gas StateTree VM VMState VMSafety VMApply VMFuel.
Import Gas.Prices Gas.Meter Gas.Burn.

(** * A concrete machine *)

Module VMExample.
#[local] Existing Instance Example.mem_map.
#[local] Existing Instance Example.mem_map_laws.
#[local] Existing Instance Example.two_heads.
#[local] Existing Instance Example.two_heads_laws.

(** An account constructor, and a method 2 that sends all but one unit of its
    balance back to f0100 and then aborts. *)
Definition account_info : actorInfo := {|
  methods := {[ 1 := mkNative (fun _ => true) (fun _ => ValidateImmediateCallerAcceptAny (Return RNil));
                2 := mkNative (fun _ => true) (fun _ =>
                       ValidateImmediateCallerAcceptAny (CurrentBalance (fun b =>
                         Send (IDAddr 100) 0 (Some ""%string) (b - 1) (fun _ => true)
                           (fun _ _ => Abortf 33)))) ]};
  predicate := fun _ => true;
|}.

Definition env : Env := {|
  networkVersion := 13; blockHeight := 100; baseFee := 3; pricelist := pricelist_genesis;
  areg := {[ "account"%string := account_info ]};
  IsAccountActor := fun c => String.eqb c "account"; IsStorageMinerActor := fun _ => false;
  UpgradeClausHeight := 50; actors_VersionForNetwork := fun _ => Some 5;
  AccountActorCodeID := fun _ => "account"%string; EmptyObjectCid := "empty"%string;
  ZeroAddress := BLSAddr "zero"; account_PubkeyAddress := fun _ => None;
  NewActorAddress_of := fun _ _ _ => ActorAddr "new"; SerializeParams := fun _ => Some "p"%string;
  block_size := fun _ => 10; code_at_version := fun _ _ => None;
|}.

Definition funds : Z := 10 ^ 18.

Definition state0 : gmap address Actor :=
  {[ IDAddr 1 := {| Code := "init"; Head := "h0"; Nonce := 0; Balance := 0 |};
     IDAddr 2 := {| Code := "reward"; Head := "r"; Nonce := 0; Balance := 7 |};
     IDAddr 99 := Example.account 0;
     IDAddr 100 := Example.account funds;
     IDAddr 101 := Example.account 40 ]}.

Definition tree : StateTree (gmap address Actor) := mkTree state0 4 "info"%string newStateSnaps.

Lemma tree_ok : s_inv tree.
Proof. change (snaps_wf newStateSnaps). apply snaps_reachable_wf, reach_new. Qed.

Lemma tree_top : s_top tree = state0.
Proof. change (apply_ops ∅ state0 = state0). apply apply_ops_empty. Qed.

Lemma tree_nonneg : nonneg (s_top tree).
Proof.
  rewrite tree_top. intros a act. unfold state0.
  repeat (rewrite lookup_insert_Some; intros [[_ <-]|[_ H]]; [simpl; unfold funds; lia|revert H]).
  rewrite lookup_singleton_Some. intros [_ <-]. simpl. lia.
Qed.

(** Alice's key address resolves to f0100. *)
Definition message (to : address) (method value : Z) : Message := {|
  Version := 0; To := to; From := BLSAddr "alice"; msgNonce := 0; Value := Some value;
  GasLimit := 10000000; GasFeeCap := Some 5; GasPremium := Some 1; Method := method; Params := ""%string |}.
End VMExample.

#[local] Existing Instance Example.mem_map.
#[local] Existing Instance Example.mem_map_laws.
#[local] Existing Instance Example.two_heads.
#[local] Existing Instance Example.two_heads_laws.

(** * Main theorems *)

(** C1: Applying a message mints nothing: for every actor code, network version
    and outcome, the balances stay nonnegative, their sum does not grow, and
    the snapshots below the message's own are left as they were; the same holds
    of implicit messages. *)
Theorem ApplyMessage_no_minting {T} `{StateLaws T} (vm : Env) fuel msg len (t : T) :
  s_inv t -> nonneg (s_top t) ->
  let safe_after t' := s_inv t' /\ s_rest t' = s_rest t /\ nonneg (s_top t') /\
                       total (s_top t') <= total (s_top t) in
  safe_after (ApplyMessage vm fuel msg len t).2 /\
  safe_after (ApplyImplicitMessage vm fuel msg t).2.
Proof.
  intros Ht Hn. cbv zeta. split.
  2: { destruct (safe_send vm fuel msg None None t Ht) as [Hi Hr Hn' Ht'].
       by split_and!; simpl; [| |apply Hn'|apply Ht']. }
  destruct (ApplyMessage_cases vm fuel msg len t Ht) as
    [r t' Hq _|c g t' Hg Hs|r c t1 t2 h fc pr g Hh Hc Hs Hex].
  - destruct Hq as (Hi & Htop & Hr & _). rewrite Htop. by split_and!.
  - destruct Hs as [Hi Hr _ _ _ Hn' Ht']. split_and!; [done..|auto|lia].
  - assert (Hc1 : s_lookup t1 (From msg) = Ok c) by (by rewrite (gas_lookup _ _ _ _ Hs)).
    destruct (execute_step vm _ _ _ _ _ _ _ _ _ _ (gas_inv _ _ _ _ Hs) Hc1 Hh Hex) as [[Hi Hr Hn2 Ht2] _].
    destruct (clear_snapshot t1 t2 (gas_inv _ _ _ _ Hs) Hi Hr) as (t3 & -> & Hi3 & Htop3 & Hr3 & _).
    rewrite (snapshot_top t1 (gas_inv _ _ _ _ Hs)) in *. destruct Hs as [_ Hrest _ _ _ Hnn Htt].
    simpl. rewrite Htop3. specialize (Ht2 (Hnn Hn)).
    split_and!; [done|congruence|auto|lia].
Qed.

Lemma ApplyMessage_no_minting_witness :
  let t' := (ApplyMessage VMExample.env 4 (VMExample.message (IDAddr 101) 2 1000) 100 VMExample.tree).2 in
  total (s_top t') <= total (s_top VMExample.tree).
Proof.
  apply (ApplyMessage_no_minting VMExample.env 4 (VMExample.message (IDAddr 101) 2 1000) 100
           VMExample.tree VMExample.tree_ok VMExample.tree_nonneg).
Defined.

(** C3: A message that fails pays for gas and changes nothing else: if it was
    applied with a nonzero exit code, then every actor but the sender, the
    burnt-funds actor and the reward actor is exactly as before, no actor's code
    or state head changed anywhere, and the total balance is conserved. *)
Theorem failed_message_only_gas {T} `{StateLaws T} (vm : Env) fuel msg len (t : T) ret :
  s_inv t -> (ApplyMessage vm fuel msg len t).1 = Applied ret -> ExitCode ret <> 0 ->
  let t' := (ApplyMessage vm fuel msg len t).2 in
  (forall i, i <> BurntFundsActorAddr -> i <> RewardActorAddr -> s_lookup t (From msg) <> Ok i ->
     s_top t' !! i = s_top t !! i) /\
  (forall i, code_head <$> s_top t' !! i = code_head <$> s_top t !! i) /\
  total (s_top t') = total (s_top t).
Proof.
  intros Ht Hr Hcode. cbv zeta.
  destruct (ApplyMessage_cases vm fuel msg len t Ht) as
    [r t' Hq _|c g t' Hg Hs|r c t1 t2 h fc pr g Hh Hc Hs Hex]; [|done|].
  { destruct Hq as (_ & -> & _). done. }
  assert (Hi1 := gas_inv _ _ _ _ Hs).
  assert (Hc1 : s_lookup t1 (From msg) = Ok c) by (by rewrite (gas_lookup _ _ _ _ Hs)).
  destruct (execute_step vm _ _ _ _ _ _ _ _ _ _ Hi1 Hc1 Hh Hex) as [[Hi Hrest _ _] Hgas].
  specialize (Hgas ret Hr Hcode).
  destruct (clear_snapshot t1 t2 Hi1 Hi Hrest) as (t3 & -> & _ & Htop3 & _). simpl. rewrite Htop3.
  destruct Hs as [_ _ _ Ho1 Hc1' _ Ht1], Hgas as [_ _ _ Ho2 Hc2 _ Ht2].
  rewrite (snapshot_top t1 Hi1) in *. split_and!.
  - intros i Hb Hrw Hi'. rewrite Ho2, Ho1; [done| |].
    + intros ->. by rewrite Hc in Hi'.
    + intros [->|[->| ->]]; [done..|]. by rewrite Hc in Hi'.
  - intros i. by rewrite Hc2, Hc1'.
  - lia.
Qed.

Lemma failed_message_only_gas_witness :
  let r := ApplyMessage VMExample.env 4 (VMExample.message (IDAddr 101) 2 1000) 100 VMExample.tree in
  exists ret, r.1 = Applied ret /\ ExitCode ret = 33 /\
    s_top r.2 !! IDAddr 101 = s_top VMExample.tree !! IDAddr 101.
Proof.
  eexists. split; [vm_compute; reflexivity|]. split; [reflexivity|].
  eapply (failed_message_only_gas VMExample.env 4 (VMExample.message (IDAddr 101) 2 1000) 100
           VMExample.tree _ VMExample.tree_ok); [vm_compute; reflexivity|discriminate..].
Defined.

(** C5: Plain transfers conserve funds exactly: a message without a method, to
    a recipient that exists, leaves the sum of all balances unchanged whether it
    succeeds or fails; gas payments, tip, burn and refund included. *)
Theorem plain_transfer_conserves {T} `{StateLaws T} (vm : Env) fuel msg len (t : T) ret a :
  s_inv t -> Method msg = 0 -> s_get t (To msg) = Ok a ->
  (ApplyMessage vm fuel msg len t).1 = Applied ret ->
  total (s_top (ApplyMessage vm fuel msg len t).2) = total (s_top t).
Proof.
  intros Ht Hm Hget Hr.
  destruct (ApplyMessage_cases vm fuel msg len t Ht) as
    [r t' Hq _|c g t' Hg Hs|r c t1 t2 h fc pr g Hh Hc Hs Hex]; [|done|].
  { destruct Hq as (_ & -> & _). done. }
  assert (Hi1 := gas_inv _ _ _ _ Hs).
  assert (Hc1 : s_lookup t1 (From msg) = Ok c) by (by rewrite (gas_lookup _ _ _ _ Hs)).
  assert (Hget1 : exists b, s_get t1 (To msg) = Ok b).
  { unfold s_get in *. rewrite (gas_lookup _ _ _ _ Hs). case_decide; [done|].
    destruct (s_lookup t (To msg)) as [i|]; [|done]. pose proof (gas_code _ _ _ _ Hs i) as Hcode.
    destruct (s_top t !! i), (s_top t1 !! i); try done. by eexists. }
  destruct Hget1 as [b Hget1]. rewrite Hr in Hex.
  pose proof (execute_plain vm _ _ _ _ _ _ _ _ _ _ _ Hi1 Hc1 Hh Hm Hget1 Hex) as Htot.
  destruct (execute_step vm _ _ _ _ _ _ _ _ _ _ Hi1 Hc1 Hh Hex) as [[Hi Hrest _ _] _].
  destruct (clear_snapshot t1 t2 Hi1 Hi Hrest) as (t3 & -> & _ & Htop3 & _). simpl. rewrite Htop3.
  pose proof (gas_total _ _ _ _ Hs). lia.
Qed.

Lemma plain_transfer_conserves_witness :
  let r := ApplyMessage VMExample.env 4 (VMExample.message (IDAddr 101) 0 1000) 100 VMExample.tree in
  exists ret, r.1 = Applied ret /\ ExitCode ret = 0 /\
    s_top r.2 !! IDAddr 101 = Some (Example.account 1040) /\
    total (s_top r.2) = total (s_top VMExample.tree).
Proof.
  eexists. split; [vm_compute; reflexivity|]. split; [reflexivity|].
  split; [vm_compute; reflexivity|].
  eapply (plain_transfer_conserves VMExample.env 4 (VMExample.message (IDAddr 101) 0 1000) 100
           VMExample.tree _ (Example.account 40) VMExample.tree_ok); [reflexivity|vm_compute; reflexivity..].
Defined.

(** C32: Sends terminate: from network version 6 on the call depth limit makes a
    fuel of [MaxCallDepth + 2] enough, so for every message, state and actor
    code ApplyMessage and ApplyImplicitMessage return a result, an error or a
    crash, never the model's out-of-fuel answer. *)
Theorem send_fuel_enough {T} `{StateAccess T} (vm : Env) msg len (t : T) :
  6 <= networkVersion vm ->
  let fuel := Z.to_nat (MaxCallDepth + 2) in
  (ApplyMessage vm fuel msg len t).1 <> ApplyNoFuel /\
  (ApplyImplicitMessage vm fuel msg t).1 <> ApplyNoFuel.
Proof.
  intros Hnv fuel.
  assert (Hsend : forall m g t, sent_result (send vm fuel m None g t) <> NoFuel).
  { intros m g t'. apply send_fueled; [done|unfold fuel, MaxCallDepth; lia|].
    unfold fuel. rewrite Z2Nat.id by done. simpl. lia. }
  clearbody fuel. split.
  - unfold ApplyMessage. repeat (case_match; try done).
    match goal with E : execute _ _ _ _ _ ?g _ ?t = (?a, _) |- _ =>
      unfold execute in E; pose proof (Hsend msg (Some g) t);
      destruct (send vm fuel msg None (Some g) t) as [out ort u] end.
    cbn [sent_result sent_rt sent_state] in *. repeat (case_match; simplify_eq; try done).
  - unfold ApplyImplicitMessage. pose proof (Hsend msg None t). simpl. by repeat case_match.
Qed.

Lemma send_fuel_enough_witness :
  (ApplyMessage VMExample.env (Z.to_nat (MaxCallDepth + 2)) (VMExample.message (IDAddr 101) 2 1000)
     100 VMExample.tree).1 <> ApplyNoFuel.
Proof.
  assert (Hnv : 6 <= networkVersion VMExample.env) by (vm_compute; discriminate).
  destruct (send_fuel_enough VMExample.env (VMExample.message (IDAddr 101) 2 1000) 100 VMExample.tree Hnv)
    as [Hw _].
  exact Hw.
Defined.
