(* ===== verification/SectorTypes.v ===== *)
(** Sector data and events of the sealing pipeline
    (src/storage/pipeline/sector_state.go, types.go, fsm_events.go).

    A [SectorState] is a Go string; the constants keep their names.  Pointers to
    CIDs are options, byte strings are strings, a field named [Proof] in the
    source is [SealProof] here. *)

From coqutil Require Import Datatypes.RecordSetters.
From S2P Require Import Prelude Types.
Import DoubleBraceUpdate.
Arguments constant {E} newValue _ /.

(** * States *)

Abbreviation SectorState := string (only parsing).

Definition UndefinedSectorState : SectorState := EmptyString.
Definition Empty : SectorState := "Empty".
Definition WaitDeals : SectorState := "WaitDeals".
Definition AddPiece : SectorState := "AddPiece".
Definition Packing : SectorState := "Packing".
Definition GetTicket : SectorState := "GetTicket".
Definition PreCommit1 : SectorState := "PreCommit1".
Definition PreCommit2 : SectorState := "PreCommit2".
Definition PreCommitting : SectorState := "PreCommitting".
Definition PreCommitWait : SectorState := "PreCommitWait".
Definition SubmitPreCommitBatch : SectorState := "SubmitPreCommitBatch".
Definition PreCommitBatchWait : SectorState := "PreCommitBatchWait".
Definition WaitSeed : SectorState := "WaitSeed".
Definition Committing : SectorState := "Committing".
Definition CommitFinalize : SectorState := "CommitFinalize".
Definition CommitFinalizeFailed : SectorState := "CommitFinalizeFailed".
Definition SubmitCommit : SectorState := "SubmitCommit".
Definition CommitWait : SectorState := "CommitWait".
Definition SubmitCommitAggregate : SectorState := "SubmitCommitAggregate".
Definition CommitAggregateWait : SectorState := "CommitAggregateWait".
Definition FinalizeSector : SectorState := "FinalizeSector".
Definition Proving : SectorState := "Proving".
Definition Available : SectorState := "Available".
Definition SnapDealsWaitDeals : SectorState := "SnapDealsWaitDeals".
Definition SnapDealsAddPiece : SectorState := "SnapDealsAddPiece".
Definition SnapDealsPacking : SectorState := "SnapDealsPacking".
Definition UpdateReplica : SectorState := "UpdateReplica".
Definition ProveReplicaUpdate : SectorState := "ProveReplicaUpdate".
Definition SubmitReplicaUpdate : SectorState := "SubmitReplicaUpdate".
Definition ReplicaUpdateWait : SectorState := "ReplicaUpdateWait".
Definition FinalizeReplicaUpdate : SectorState := "FinalizeReplicaUpdate".
Definition UpdateActivating : SectorState := "UpdateActivating".
Definition ReleaseSectorKey : SectorState := "ReleaseSectorKey".
Definition ReceiveSector : SectorState := "ReceiveSector".
Definition FailedUnrecoverable : SectorState := "FailedUnrecoverable".
Definition AddPieceFailed : SectorState := "AddPieceFailed".
Definition SealPreCommit1Failed : SectorState := "SealPreCommit1Failed".
Definition SealPreCommit2Failed : SectorState := "SealPreCommit2Failed".
Definition PreCommitFailed : SectorState := "PreCommitFailed".
Definition ComputeProofFailed : SectorState := "ComputeProofFailed".
Definition RemoteCommitFailed : SectorState := "RemoteCommitFailed".
Definition CommitFailed : SectorState := "CommitFailed".
Definition PackingFailed : SectorState := "PackingFailed".
Definition FinalizeFailed : SectorState := "FinalizeFailed".
Definition DealsExpired : SectorState := "DealsExpired".
Definition RecoverDealIDs : SectorState := "RecoverDealIDs".
Definition SnapDealsAddPieceFailed : SectorState := "SnapDealsAddPieceFailed".
Definition SnapDealsDealsExpired : SectorState := "SnapDealsDealsExpired".
Definition SnapDealsRecoverDealIDs : SectorState := "SnapDealsRecoverDealIDs".
Definition AbortUpgrade : SectorState := "AbortUpgrade".
Definition ReplicaUpdateFailed : SectorState := "ReplicaUpdateFailed".
Definition ReleaseSectorKeyFailed : SectorState := "ReleaseSectorKeyFailed".
Definition FinalizeReplicaUpdateFailed : SectorState := "FinalizeReplicaUpdateFailed".
Definition Faulty : SectorState := "Faulty".
Definition FaultReported : SectorState := "FaultReported".
Definition FaultedFinal : SectorState := "FaultedFinal".
Definition Terminating : SectorState := "Terminating".
Definition TerminateWait : SectorState := "TerminateWait".
Definition TerminateFinality : SectorState := "TerminateFinality".
Definition TerminateFailed : SectorState := "TerminateFailed".
Definition Removing : SectorState := "Removing".
Definition RemoveFailed : SectorState := "RemoveFailed".
Definition Removed : SectorState := "Removed".

(** The constants in the order of their declaration. *)
Definition declared_states : list SectorState :=
  [UndefinedSectorState; Empty; WaitDeals; AddPiece; Packing; GetTicket; PreCommit1; PreCommit2;
   PreCommitting; PreCommitWait; SubmitPreCommitBatch; PreCommitBatchWait; WaitSeed; Committing;
   CommitFinalize; CommitFinalizeFailed; SubmitCommit; CommitWait; SubmitCommitAggregate;
   CommitAggregateWait; FinalizeSector; Proving; Available; SnapDealsWaitDeals; SnapDealsAddPiece;
   SnapDealsPacking; UpdateReplica; ProveReplicaUpdate; SubmitReplicaUpdate; ReplicaUpdateWait;
   FinalizeReplicaUpdate; UpdateActivating; ReleaseSectorKey; ReceiveSector; FailedUnrecoverable;
   AddPieceFailed; SealPreCommit1Failed; SealPreCommit2Failed; PreCommitFailed; ComputeProofFailed;
   RemoteCommitFailed; CommitFailed; PackingFailed; FinalizeFailed; DealsExpired; RecoverDealIDs;
   SnapDealsAddPieceFailed; SnapDealsDealsExpired; SnapDealsRecoverDealIDs; AbortUpgrade;
   ReplicaUpdateFailed; ReleaseSectorKeyFailed; FinalizeReplicaUpdateFailed; Faulty; FaultReported;
   FaultedFinal; Terminating; TerminateWait; TerminateFinality; TerminateFailed; Removing;
   RemoveFailed; Removed].

Definition ExistSectorStateList : list SectorState :=
  [Empty; WaitDeals; Packing; AddPiece; AddPieceFailed; GetTicket; PreCommit1; PreCommit2;
   PreCommitting; PreCommitWait; SubmitPreCommitBatch; PreCommitBatchWait; WaitSeed; Committing;
   CommitFinalize; CommitFinalizeFailed; SubmitCommit; CommitWait; SubmitCommitAggregate;
   CommitAggregateWait; FinalizeSector; Proving; Available; FailedUnrecoverable;
   SealPreCommit1Failed; SealPreCommit2Failed; PreCommitFailed; ComputeProofFailed;
   RemoteCommitFailed; CommitFailed; PackingFailed; FinalizeFailed; DealsExpired; RecoverDealIDs;
   Faulty; FaultReported; FaultedFinal; Terminating; TerminateWait; TerminateFinality;
   TerminateFailed; Removing; RemoveFailed; Removed; SnapDealsWaitDeals; SnapDealsAddPiece;
   SnapDealsPacking; UpdateReplica; ProveReplicaUpdate; SubmitReplicaUpdate; ReplicaUpdateWait;
   UpdateActivating; ReleaseSectorKey; FinalizeReplicaUpdate; SnapDealsAddPieceFailed;
   SnapDealsDealsExpired; SnapDealsRecoverDealIDs; ReplicaUpdateFailed; ReleaseSectorKeyFailed;
   FinalizeReplicaUpdateFailed; AbortUpgrade; ReceiveSector].

(** The list of existing states has every declared state but the undefined one, once. *)
Lemma ExistSectorStateList_declared :
  NoDup declared_states ∧ declared_states ≡ₚ UndefinedSectorState :: ExistSectorStateList.
Proof.
  assert (Hd : NoDup declared_states) by (apply (bool_decide_unpack _); by vm_compute). split; [done|].
  apply NoDup_Permutation; [done|apply (bool_decide_unpack _); by vm_compute|]. intros x.
  assert (H : ∀ l k : list SectorState, bool_decide (Forall (.∈ k) l) = true -> x ∈ l -> x ∈ k).
  { intros l k Hl%bool_decide_eq_true Hx. rewrite Forall_forall in Hl. by apply Hl. }
  split; apply H; by vm_compute.
Qed.

(** * Statistics classes *)

Inductive statSectorState := sstStaging | sstSealing | sstFailed | sstProving.

#[export] Instance statSectorState_eq_dec : EqDecision statSectorState.
Proof. solve_decision. Defined.

Definition toStatState (st : SectorState) (finEarly : bool) : statSectorState :=
  if bool_decide (st ∈ [UndefinedSectorState; Empty; WaitDeals; AddPiece; AddPieceFailed;
                        SnapDealsWaitDeals; SnapDealsAddPiece]) then sstStaging
  else if bool_decide (st ∈ [Packing; GetTicket; PreCommit1; PreCommit2; PreCommitting;
                             PreCommitWait; SubmitPreCommitBatch; PreCommitBatchWait; WaitSeed;
                             Committing; CommitFinalize; FinalizeSector; SnapDealsPacking;
                             UpdateReplica; ProveReplicaUpdate; FinalizeReplicaUpdate;
                             ReceiveSector]) then sstSealing
  else if bool_decide (st ∈ [SubmitCommit; CommitWait; SubmitCommitAggregate;
                             CommitAggregateWait; SubmitReplicaUpdate; ReplicaUpdateWait])
  then (if finEarly then sstProving else sstSealing)
  else if bool_decide (st ∈ [Proving; Available; UpdateActivating; ReleaseSectorKey; Removed;
                             Removing; Terminating; TerminateWait; TerminateFinality;
                             TerminateFailed]) then sstProving
  else sstFailed.

Definition IsUpgradeState (st : SectorState) : bool :=
  bool_decide (st ∈ [SnapDealsWaitDeals; SnapDealsAddPiece; SnapDealsPacking; UpdateReplica;
                     ProveReplicaUpdate; SubmitReplicaUpdate; SnapDealsAddPieceFailed;
                     SnapDealsDealsExpired; SnapDealsRecoverDealIDs; AbortUpgrade;
                     ReplicaUpdateFailed; ReleaseSectorKeyFailed; FinalizeReplicaUpdateFailed]).

(** * Sector information *)

Record PieceInfo := mkPieceInfo { Size : Z; PieceCID : cid }.

Record PieceDealInfo := mkPieceDealInfo {
  PublishCid : option cid;
  DealID : Z;
  DealProposal : bytes;
  DealStart : Z;
  DealEnd : Z;
  KeepUnsealed : bool;
}.

Record SectorPiece := mkSectorPiece { Piece : PieceInfo; DealInfo : option PieceDealInfo }.

Record Log := mkLog { Timestamp : Z; Trace : string; LogMessage : string; Kind : string }.

(** [ReturnState] constants. *)
Definition RetPreCommit1 : string := PreCommit1.
Definition RetPreCommitting : string := PreCommitting.
Definition RetPreCommitFailed : string := PreCommitFailed.
Definition RetCommitFailed : string := CommitFailed.

Record SectorLocation := mkSectorLocation { Local : bool; URL : string }.

Record SectorInfo := mkSectorInfo {
  State : SectorState;
  SectorNumber : Z;
  SectorType : Z;
  CreationTime : Z;
  Pieces : list SectorPiece;
  TicketValue : bytes;
  TicketEpoch : Z;
  PreCommit1Out : bytes;
  CommD : option cid;
  CommR : option cid;
  SealProof : bytes;
  PreCommitDeposit : Z;
  PreCommitMessage : option cid;
  PreCommitTipSet : bytes;
  PreCommit2Fails : Z;
  SeedValue : bytes;
  SeedEpoch : Z;
  CommitMessage : option cid;
  InvalidProofs : Z;
  CCUpdate : bool;
  CCPieces : list SectorPiece;
  UpdateSealed : option cid;
  UpdateUnsealed : option cid;
  ReplicaUpdateProof : bytes;
  ReplicaUpdateMessage : option cid;
  FaultReportMsg : option cid;
  Return : string;
  TerminateMessage : option cid;
  TerminatedAt : Z;
  RemoteDataUnsealed : option SectorLocation;
  RemoteDataSealed : option SectorLocation;
  RemoteDataCache : option SectorLocation;
  RemoteCommit1Endpoint : string;
  RemoteCommit2Endpoint : string;
  RemoteSealingDoneEndpoint : string;
  RemoteDataFinalized : bool;
  LastErr : string;
  SectorLog : list Log;
}.

(** The zero value of the struct: what a new state machine starts from. *)
Definition zeroSectorInfo : SectorInfo :=
  mkSectorInfo UndefinedSectorState 0 0 0 [] EmptyString 0 EmptyString None None EmptyString 0 None
    EmptyString 0 EmptyString 0 None 0 false [] None None EmptyString None None EmptyString None 0
    None None None EmptyString EmptyString EmptyString false EmptyString [].

Definition pieceInfos (t : SectorInfo) : list PieceInfo := map Piece (Pieces t).

Definition dealIDs (t : SectorInfo) : list Z :=
  omap (fun p => DealID <$> DealInfo p) (Pieces t).

(** [abi.PaddedPieceSize.Unpadded]: 127 bytes of data in 128, on a uint64. *)
Definition Unpadded (s : Z) : Z := s - s / 128.

Definition existingPieceSizes (t : SectorInfo) : list Z := map (fun p => Unpadded (Size (Piece p))) (Pieces t).

Definition hasDeals (t : SectorInfo) : bool :=
  existsb (fun p => match DealInfo p with Some _ => true | None => false end) (Pieces t).

(** The loop of [keepUnsealedRanges] from offset [at_]; ranges are (offset, size). *)
Fixpoint keep_ranges (pieces : list SectorPiece) (invert alwaysKeep : bool) (at_ : Z) : list (Z * Z) :=
  match pieces with
  | [] => []
  | piece :: rest =>
      let psize := Unpadded (Size (Piece piece)) in
      let at' := wrapu64 (at_ + psize) in
      match DealInfo piece with
      | None => keep_ranges rest invert alwaysKeep at'
      | Some d =>
          if Bool.eqb (KeepUnsealed d || alwaysKeep) invert then keep_ranges rest invert alwaysKeep at'
          else (wrapu64 (at' - psize), psize) :: keep_ranges rest invert alwaysKeep at'
      end
  end.

Definition keepUnsealedRanges (pieces : list SectorPiece) (invert alwaysKeep : bool) : list (Z * Z) :=
  keep_ranges pieces invert alwaysKeep 0.
