(* ===== verification/SectorEvents.v ===== *)
(** Events of the sealing state machine and what each does to a sector
    (src/storage/pipeline/fsm_events.go): one definition per [apply] method.

    Events that only move the machine have an [apply] that leaves the sector
    alone.  Errors carried by events are reduced to their text, a map from piece
    index to deal ID to the listing its iteration produced. *)

From coqutil Require Import Datatypes.RecordSetters.
From S2P Require Import Prelude Types SectorTypes.
Import DoubleBraceUpdate.

Inductive Event :=
  | SectorRestart
  | SectorFatalError (e : string)
  | SectorForceState (s : SectorState)
  | SectorStart (id sectorType : Z)
  | SectorStartCC (id sectorType : Z)
  | SectorAddPiece
  | SectorPieceAdded (newPieces : list SectorPiece)
  | SectorAddPieceFailed (e : string)
  | SectorRetryWaitDeals
  | SectorStartPacking
  | SectorPacked (fillerPieces : list PieceInfo)
  | SectorTicket (value : bytes) (epoch : Z)
  | SectorOldTicket
  | SectorPreCommit1 (out : bytes)
  | SectorPreCommit2 (sealed unsealed : cid)
  | SectorPreCommitBatch
  | SectorPreCommitBatchSent (message : cid)
  | SectorPreCommitLanded (tipSet : bytes)
  | SectorSealPreCommit1Failed (e : string)
  | SectorSealPreCommit2Failed (e : string)
  | SectorChainPreCommitFailed (e : string)
  | SectorPreCommitted (message : cid) (deposit : Z)
  | SectorSeedReady (value : bytes) (epoch : Z)
  | SectorRemoteCommit1Failed (e : string)
  | SectorRemoteCommit2Failed (e : string)
  | SectorComputeProofFailed (e : string)
  | SectorCommitFailed (e : string)
  | SectorRetrySubmitCommit
  | SectorDealsExpired (e : string)
  | SectorTicketExpired (e : string)
  | SectorCommitted (proof : bytes)
  | SectorProofReady (proof : bytes)
  | SectorSubmitCommitAggregate
  | SectorCommitSubmitted (message : cid)
  | SectorCommitAggregateSent (message : cid)
  | SectorProving
  | SectorFinalized
  | SectorFinalizedAvailable
  | SectorRetryFinalize
  | SectorFinalizeFailed (e : string)
  | SectorMarkForUpdate
  | SectorStartCCUpdate
  | SectorReplicaUpdate (newSealed newUnsealed : cid)
  | SectorProveReplicaUpdate (proof : bytes)
  | SectorReplicaUpdateSubmitted (message : cid)
  | SectorReplicaUpdateLanded
  | SectorUpdateActive
  | SectorKeyReleased
  | SectorRetrySealPreCommit1
  | SectorRetrySealPreCommit2
  | SectorRetryPreCommit
  | SectorRetryWaitSeed
  | SectorRetryPreCommitWait
  | SectorRetryComputeProof
  | SectorRetryInvalidProof
  | SectorRetryCommitWait
  | SectorInvalidDealIDs (ret : string)
  | SectorUpdateDealIDs (updates : list (nat * Z))
  | SectorRetryReplicaUpdate
  | SectorRetryProveReplicaUpdate
  | SectorUpdateReplicaFailed (e : string)
  | SectorProveReplicaUpdateFailed (e : string)
  | SectorAbortUpgrade (e : string)
  | SectorRevertUpgradeToProving
  | SectorRetrySubmitReplicaUpdateWait
  | SectorRetrySubmitReplicaUpdate
  | SectorSubmitReplicaUpdateFailed
  | SectorReleaseKeyFailed (e : string)
  | SectorFaulty
  | SectorFaultReported (reportMsg : cid)
  | SectorFaultedFinal
  | SectorTerminate
  | SectorTerminating (message : option cid)
  | SectorTerminated (terminatedAt : Z)
  | SectorTerminateFailed (e : string)
  | SectorRemove
  | SectorRemoved
  | SectorRemoveFailed (e : string)
  | SectorReceive (state : SectorInfo)
  | SectorReceived.

(** [reflect.TypeOf]: the event's Go type. *)
Inductive EventType :=
  | TSectorRestart
  | TSectorFatalError
  | TSectorForceState
  | TSectorStart
  | TSectorStartCC
  | TSectorAddPiece
  | TSectorPieceAdded
  | TSectorAddPieceFailed
  | TSectorRetryWaitDeals
  | TSectorStartPacking
  | TSectorPacked
  | TSectorTicket
  | TSectorOldTicket
  | TSectorPreCommit1
  | TSectorPreCommit2
  | TSectorPreCommitBatch
  | TSectorPreCommitBatchSent
  | TSectorPreCommitLanded
  | TSectorSealPreCommit1Failed
  | TSectorSealPreCommit2Failed
  | TSectorChainPreCommitFailed
  | TSectorPreCommitted
  | TSectorSeedReady
  | TSectorRemoteCommit1Failed
  | TSectorRemoteCommit2Failed
  | TSectorComputeProofFailed
  | TSectorCommitFailed
  | TSectorRetrySubmitCommit
  | TSectorDealsExpired
  | TSectorTicketExpired
  | TSectorCommitted
  | TSectorProofReady
  | TSectorSubmitCommitAggregate
  | TSectorCommitSubmitted
  | TSectorCommitAggregateSent
  | TSectorProving
  | TSectorFinalized
  | TSectorFinalizedAvailable
  | TSectorRetryFinalize
  | TSectorFinalizeFailed
  | TSectorMarkForUpdate
  | TSectorStartCCUpdate
  | TSectorReplicaUpdate
  | TSectorProveReplicaUpdate
  | TSectorReplicaUpdateSubmitted
  | TSectorReplicaUpdateLanded
  | TSectorUpdateActive
  | TSectorKeyReleased
  | TSectorRetrySealPreCommit1
  | TSectorRetrySealPreCommit2
  | TSectorRetryPreCommit
  | TSectorRetryWaitSeed
  | TSectorRetryPreCommitWait
  | TSectorRetryComputeProof
  | TSectorRetryInvalidProof
  | TSectorRetryCommitWait
  | TSectorInvalidDealIDs
  | TSectorUpdateDealIDs
  | TSectorRetryReplicaUpdate
  | TSectorRetryProveReplicaUpdate
  | TSectorUpdateReplicaFailed
  | TSectorProveReplicaUpdateFailed
  | TSectorAbortUpgrade
  | TSectorRevertUpgradeToProving
  | TSectorRetrySubmitReplicaUpdateWait
  | TSectorRetrySubmitReplicaUpdate
  | TSectorSubmitReplicaUpdateFailed
  | TSectorReleaseKeyFailed
  | TSectorFaulty
  | TSectorFaultReported
  | TSectorFaultedFinal
  | TSectorTerminate
  | TSectorTerminating
  | TSectorTerminated
  | TSectorTerminateFailed
  | TSectorRemove
  | TSectorRemoved
  | TSectorRemoveFailed
  | TSectorReceive
  | TSectorReceived.

#[export] Instance EventType_eq_dec : EqDecision EventType.
Proof. solve_decision. Defined.

Definition TypeOf (evt : Event) : EventType :=
  match evt with
  | SectorRestart => TSectorRestart
  | SectorFatalError _ => TSectorFatalError
  | SectorForceState _ => TSectorForceState
  | SectorStart _ _ => TSectorStart
  | SectorStartCC _ _ => TSectorStartCC
  | SectorAddPiece => TSectorAddPiece
  | SectorPieceAdded _ => TSectorPieceAdded
  | SectorAddPieceFailed _ => TSectorAddPieceFailed
  | SectorRetryWaitDeals => TSectorRetryWaitDeals
  | SectorStartPacking => TSectorStartPacking
  | SectorPacked _ => TSectorPacked
  | SectorTicket _ _ => TSectorTicket
  | SectorOldTicket => TSectorOldTicket
  | SectorPreCommit1 _ => TSectorPreCommit1
  | SectorPreCommit2 _ _ => TSectorPreCommit2
  | SectorPreCommitBatch => TSectorPreCommitBatch
  | SectorPreCommitBatchSent _ => TSectorPreCommitBatchSent
  | SectorPreCommitLanded _ => TSectorPreCommitLanded
  | SectorSealPreCommit1Failed _ => TSectorSealPreCommit1Failed
  | SectorSealPreCommit2Failed _ => TSectorSealPreCommit2Failed
  | SectorChainPreCommitFailed _ => TSectorChainPreCommitFailed
  | SectorPreCommitted _ _ => TSectorPreCommitted
  | SectorSeedReady _ _ => TSectorSeedReady
  | SectorRemoteCommit1Failed _ => TSectorRemoteCommit1Failed
  | SectorRemoteCommit2Failed _ => TSectorRemoteCommit2Failed
  | SectorComputeProofFailed _ => TSectorComputeProofFailed
  | SectorCommitFailed _ => TSectorCommitFailed
  | SectorRetrySubmitCommit => TSectorRetrySubmitCommit
  | SectorDealsExpired _ => TSectorDealsExpired
  | SectorTicketExpired _ => TSectorTicketExpired
  | SectorCommitted _ => TSectorCommitted
  | SectorProofReady _ => TSectorProofReady
  | SectorSubmitCommitAggregate => TSectorSubmitCommitAggregate
  | SectorCommitSubmitted _ => TSectorCommitSubmitted
  | SectorCommitAggregateSent _ => TSectorCommitAggregateSent
  | SectorProving => TSectorProving
  | SectorFinalized => TSectorFinalized
  | SectorFinalizedAvailable => TSectorFinalizedAvailable
  | SectorRetryFinalize => TSectorRetryFinalize
  | SectorFinalizeFailed _ => TSectorFinalizeFailed
  | SectorMarkForUpdate => TSectorMarkForUpdate
  | SectorStartCCUpdate => TSectorStartCCUpdate
  | SectorReplicaUpdate _ _ => TSectorReplicaUpdate
  | SectorProveReplicaUpdate _ => TSectorProveReplicaUpdate
  | SectorReplicaUpdateSubmitted _ => TSectorReplicaUpdateSubmitted
  | SectorReplicaUpdateLanded => TSectorReplicaUpdateLanded
  | SectorUpdateActive => TSectorUpdateActive
  | SectorKeyReleased => TSectorKeyReleased
  | SectorRetrySealPreCommit1 => TSectorRetrySealPreCommit1
  | SectorRetrySealPreCommit2 => TSectorRetrySealPreCommit2
  | SectorRetryPreCommit => TSectorRetryPreCommit
  | SectorRetryWaitSeed => TSectorRetryWaitSeed
  | SectorRetryPreCommitWait => TSectorRetryPreCommitWait
  | SectorRetryComputeProof => TSectorRetryComputeProof
  | SectorRetryInvalidProof => TSectorRetryInvalidProof
  | SectorRetryCommitWait => TSectorRetryCommitWait
  | SectorInvalidDealIDs _ => TSectorInvalidDealIDs
  | SectorUpdateDealIDs _ => TSectorUpdateDealIDs
  | SectorRetryReplicaUpdate => TSectorRetryReplicaUpdate
  | SectorRetryProveReplicaUpdate => TSectorRetryProveReplicaUpdate
  | SectorUpdateReplicaFailed _ => TSectorUpdateReplicaFailed
  | SectorProveReplicaUpdateFailed _ => TSectorProveReplicaUpdateFailed
  | SectorAbortUpgrade _ => TSectorAbortUpgrade
  | SectorRevertUpgradeToProving => TSectorRevertUpgradeToProving
  | SectorRetrySubmitReplicaUpdateWait => TSectorRetrySubmitReplicaUpdateWait
  | SectorRetrySubmitReplicaUpdate => TSectorRetrySubmitReplicaUpdate
  | SectorSubmitReplicaUpdateFailed => TSectorSubmitReplicaUpdateFailed
  | SectorReleaseKeyFailed _ => TSectorReleaseKeyFailed
  | SectorFaulty => TSectorFaulty
  | SectorFaultReported _ => TSectorFaultReported
  | SectorFaultedFinal => TSectorFaultedFinal
  | SectorTerminate => TSectorTerminate
  | SectorTerminating _ => TSectorTerminating
  | SectorTerminated _ => TSectorTerminated
  | SectorTerminateFailed _ => TSectorTerminateFailed
  | SectorRemove => TSectorRemove
  | SectorRemoved => TSectorRemoved
  | SectorRemoveFailed _ => TSectorRemoveFailed
  | SectorReceive _ => TSectorReceive
  | SectorReceived => TSectorReceived
  end.

(** Events that implement [globalMutator] and [Ignorable]. *)
Definition is_global (t : EventType) : bool :=
  match t with
  | TSectorRestart | TSectorFatalError | TSectorForceState | TSectorTerminate | TSectorRemove => true
  | _ => false
  end.

Definition is_ignorable (t : EventType) : bool :=
  match t with TSectorStartPacking => true | _ => false end.

(** * apply *)

Section Apply.
(** [time.Now().Unix()]. *)
Variable now : Z.

Definition apply_SectorStart (id sectorType : Z) (state : SectorInfo) : SectorInfo :=
  state {{ SectorNumber := id; SectorType := sectorType }}.

Definition apply_SectorStartCC (id sectorType : Z) (state : SectorInfo) : SectorInfo :=
  state {{ SectorNumber := id; SectorType := sectorType }}.

Definition apply_SectorAddPiece (state : SectorInfo) : SectorInfo :=
  if CreationTime state =? 0 then state {{ CreationTime := now }} else state.

Definition apply_SectorPieceAdded (newPieces : list SectorPiece) (state : SectorInfo) : SectorInfo :=
  state {{ Pieces := Pieces state ++ newPieces }}.

Definition apply_SectorPacked (fillerPieces : list PieceInfo) (state : SectorInfo) : SectorInfo :=
  state {{ Pieces := Pieces state ++ map (fun p => mkSectorPiece p None) fillerPieces }}.

Definition apply_SectorTicket (value : bytes) (epoch : Z) (state : SectorInfo) : SectorInfo :=
  state {{ TicketEpoch := epoch; TicketValue := value }}.

Definition apply_SectorPreCommit1 (out : bytes) (state : SectorInfo) : SectorInfo :=
  state {{ PreCommit1Out := out; PreCommit2Fails := 0 }}.

Definition apply_SectorPreCommit2 (sealed unsealed : cid) (state : SectorInfo) : SectorInfo :=
  state {{ CommD := Some unsealed; CommR := Some sealed }}.

Definition apply_SectorPreCommitBatchSent (message : cid) (state : SectorInfo) : SectorInfo :=
  state {{ PreCommitMessage := Some message }}.

Definition apply_SectorPreCommitLanded (tipSet : bytes) (state : SectorInfo) : SectorInfo :=
  state {{ PreCommitTipSet := tipSet }}.

Definition apply_SectorSealPreCommit1Failed (e : string) (state : SectorInfo) : SectorInfo :=
  state {{ InvalidProofs := 0; PreCommit2Fails := 0 }}.

Definition apply_SectorSealPreCommit2Failed (e : string) (state : SectorInfo) : SectorInfo :=
  state {{ InvalidProofs := 0; PreCommit2Fails := wrapu64 (PreCommit2Fails state + 1) }}.

Definition apply_SectorPreCommitted (message : cid) (deposit : Z) (state : SectorInfo) : SectorInfo :=
  state {{ PreCommitMessage := Some message; PreCommitDeposit := deposit }}.

Definition apply_SectorSeedReady (value : bytes) (epoch : Z) (state : SectorInfo) : SectorInfo :=
  state {{ SeedEpoch := epoch; SeedValue := value }}.

Definition apply_SectorCommitted (proof : bytes) (state : SectorInfo) : SectorInfo :=
  state {{ SealProof := proof }}.

Definition apply_SectorProofReady (proof : bytes) (state : SectorInfo) : SectorInfo :=
  if bool_decide (proof = EmptyString) then state else state {{ SealProof := proof }}.

Definition apply_SectorCommitSubmitted (message : cid) (state : SectorInfo) : SectorInfo :=
  state {{ CommitMessage := Some message }}.

Definition apply_SectorCommitAggregateSent (message : cid) (state : SectorInfo) : SectorInfo :=
  state {{ CommitMessage := Some message }}.

Definition apply_SectorStartCCUpdate (state : SectorInfo) : SectorInfo :=
  state {{ CCUpdate := true; CCPieces := Pieces state; Pieces := [] }}.

Definition apply_SectorReplicaUpdate (newSealed newUnsealed : cid) (state : SectorInfo) : SectorInfo :=
  state {{ UpdateSealed := Some newSealed; UpdateUnsealed := Some newUnsealed }}.

Definition apply_SectorProveReplicaUpdate (proof : bytes) (state : SectorInfo) : SectorInfo :=
  state {{ ReplicaUpdateProof := proof }}.

Definition apply_SectorReplicaUpdateSubmitted (message : cid) (state : SectorInfo) : SectorInfo :=
  state {{ ReplicaUpdateMessage := Some message }}.

Definition apply_SectorRetryComputeProof (state : SectorInfo) : SectorInfo :=
  state {{ InvalidProofs := wrapu64 (InvalidProofs state + 1) }}.

Definition apply_SectorRetryInvalidProof (state : SectorInfo) : SectorInfo :=
  state {{ InvalidProofs := wrapu64 (InvalidProofs state + 1) }}.

Definition apply_SectorInvalidDealIDs (ret : string) (state : SectorInfo) : SectorInfo :=
  state {{ Return := ret }}.

(** [state.Pieces[i].DealInfo.DealID = id]: an index out of range or a nil
    [DealInfo] panics ([None]). *)
Definition set_deal_id (pieces : list SectorPiece) (i : nat) (id : Z) : option (list SectorPiece) :=
  match pieces !! i with
  | Some p =>
      match DealInfo p with
      | Some d => Some (<[i := p {{ DealInfo := Some (d {{ DealID := id }}) }}]> pieces)
      | None => None
      end
  | None => None
  end.

Definition apply_SectorUpdateDealIDs (updates : list (nat * Z)) (state : SectorInfo) : option SectorInfo :=
  pieces ← foldl (fun acc u => pieces ← acc; set_deal_id pieces u.1 u.2) (Some (Pieces state)) updates;
  Some (state {{ Pieces := pieces }}).

Definition apply_SectorRevertUpgradeToProving (state : SectorInfo) : SectorInfo :=
  state {{ CCUpdate := false; UpdateSealed := None; UpdateUnsealed := None;
           ReplicaUpdateProof := EmptyString; ReplicaUpdateMessage := None;
           Pieces := CCPieces state; CCPieces := [] }}.

Definition apply_SectorFaultReported (reportMsg : cid) (state : SectorInfo) : SectorInfo :=
  state {{ FaultReportMsg := Some reportMsg }}.

Definition apply_SectorTerminating (message : option cid) (state : SectorInfo) : SectorInfo :=
  state {{ TerminateMessage := message }}.

Definition apply_SectorTerminated (terminatedAt : Z) (state : SectorInfo) : SectorInfo :=
  state {{ TerminatedAt := terminatedAt }}.

Definition apply_SectorReceive (evt_state : SectorInfo) (state : SectorInfo) : SectorInfo :=
  evt_state.

(** [event.User.(mutator).apply(state)]; [None] is a panic, which the type
    assertion raises for events that are no mutators. *)
Definition apply_event (evt : Event) (state : SectorInfo) : option SectorInfo :=
  match evt with
  | SectorStart id sectorType => Some (apply_SectorStart id sectorType state)
  | SectorStartCC id sectorType => Some (apply_SectorStartCC id sectorType state)
  | SectorAddPiece => Some (apply_SectorAddPiece state)
  | SectorPieceAdded newPieces => Some (apply_SectorPieceAdded newPieces state)
  | SectorPacked fillerPieces => Some (apply_SectorPacked fillerPieces state)
  | SectorTicket value epoch => Some (apply_SectorTicket value epoch state)
  | SectorPreCommit1 out => Some (apply_SectorPreCommit1 out state)
  | SectorPreCommit2 sealed unsealed => Some (apply_SectorPreCommit2 sealed unsealed state)
  | SectorPreCommitBatchSent message => Some (apply_SectorPreCommitBatchSent message state)
  | SectorPreCommitLanded tipSet => Some (apply_SectorPreCommitLanded tipSet state)
  | SectorSealPreCommit1Failed e => Some (apply_SectorSealPreCommit1Failed e state)
  | SectorSealPreCommit2Failed e => Some (apply_SectorSealPreCommit2Failed e state)
  | SectorPreCommitted message deposit => Some (apply_SectorPreCommitted message deposit state)
  | SectorSeedReady value epoch => Some (apply_SectorSeedReady value epoch state)
  | SectorCommitted proof => Some (apply_SectorCommitted proof state)
  | SectorProofReady proof => Some (apply_SectorProofReady proof state)
  | SectorCommitSubmitted message => Some (apply_SectorCommitSubmitted message state)
  | SectorCommitAggregateSent message => Some (apply_SectorCommitAggregateSent message state)
  | SectorStartCCUpdate => Some (apply_SectorStartCCUpdate state)
  | SectorReplicaUpdate newSealed newUnsealed => Some (apply_SectorReplicaUpdate newSealed newUnsealed state)
  | SectorProveReplicaUpdate proof => Some (apply_SectorProveReplicaUpdate proof state)
  | SectorReplicaUpdateSubmitted message => Some (apply_SectorReplicaUpdateSubmitted message state)
  | SectorRetryComputeProof => Some (apply_SectorRetryComputeProof state)
  | SectorRetryInvalidProof => Some (apply_SectorRetryInvalidProof state)
  | SectorInvalidDealIDs ret => Some (apply_SectorInvalidDealIDs ret state)
  | SectorUpdateDealIDs updates => apply_SectorUpdateDealIDs updates state
  | SectorRevertUpgradeToProving => Some (apply_SectorRevertUpgradeToProving state)
  | SectorFaultReported reportMsg => Some (apply_SectorFaultReported reportMsg state)
  | SectorTerminating message => Some (apply_SectorTerminating message state)
  | SectorTerminated terminatedAt => Some (apply_SectorTerminated terminatedAt state)
  | SectorReceive s => Some (apply_SectorReceive s state)
  (* the events with an empty [apply] *)
  | SectorAddPieceFailed _ | SectorRetryWaitDeals | SectorStartPacking | SectorOldTicket
  | SectorPreCommitBatch | SectorChainPreCommitFailed _ | SectorRemoteCommit1Failed _
  | SectorRemoteCommit2Failed _ | SectorComputeProofFailed _ | SectorCommitFailed _ | SectorRetrySubmitCommit
  | SectorDealsExpired _ | SectorTicketExpired _ | SectorSubmitCommitAggregate | SectorProving
  | SectorFinalized | SectorFinalizedAvailable | SectorRetryFinalize | SectorFinalizeFailed _
  | SectorMarkForUpdate | SectorReplicaUpdateLanded | SectorUpdateActive | SectorKeyReleased
  | SectorRetrySealPreCommit1 | SectorRetrySealPreCommit2 | SectorRetryPreCommit | SectorRetryWaitSeed
  | SectorRetryPreCommitWait | SectorRetryCommitWait | SectorRetryReplicaUpdate
  | SectorRetryProveReplicaUpdate | SectorUpdateReplicaFailed _ | SectorProveReplicaUpdateFailed _
  | SectorAbortUpgrade _ | SectorRetrySubmitReplicaUpdateWait | SectorRetrySubmitReplicaUpdate
  | SectorSubmitReplicaUpdateFailed | SectorReleaseKeyFailed _ | SectorFaulty | SectorTerminateFailed _
  | SectorRemoved | SectorRemoveFailed _ | SectorReceived => Some state
  | _ => None
  end.
End Apply.
