(* ===== verification/SectorStats.v ===== *)
(** Counts of sectors by state that throttle the sealing pipeline
    (src/storage/pipeline/stats.go).

    [SectorStats_counts] shows that, while [FinalizeEarly] keeps its value, the
    counters are the numbers of tracked sectors in each class and each state, and
    that an update asks for more input exactly when it brings a count below its
    configured limit. *)

From coqutil Require Import Datatypes.RecordSetters.
From S2P Require Import Prelude SectorTypes.
Import DoubleBraceUpdate.

(** The fields of [sealiface.Config] the statistics read. *)
Record Config := mkConfig {
  FinalizeEarly : bool;
  MaxSealingSectorsForDeals : Z;
  MaxWaitDealsSectors : Z;
}.

Record SectorStats := mkSectorStats {
  bySector : gmap (Z * Z) SectorState;
  byState : gmap SectorState Z;
  totals : statSectorState → Z;
}.

Definition newSectorStats : SectorStats := mkSectorStats ∅ ∅ (fun _ => 0).

(** [ss.totals[c] += d] on uint64, [ss.byState[st] += d] on int64 (a missing
    entry reads as zero). *)
Definition add_total (c : statSectorState) (d : Z) (t : statSectorState → Z) : statSectorState → Z :=
  fun c' => if bool_decide (c' = c) then wrapu64 (t c + d) else t c'.

Definition add_state (st : SectorState) (d : Z) (m : gmap SectorState Z) : gmap SectorState Z :=
  <[st := wrap64 (default 0 (m !! st) + d)]> m.

Definition curSealingLocked (ss : SectorStats) : Z :=
  wrapu64 (wrapu64 (totals ss sstStaging + totals ss sstSealing) + totals ss sstFailed).

Definition curStagingLocked (ss : SectorStats) : Z := totals ss sstStaging.

(** Whether a count dipped below a configured limit. *)
Definition dipped (limit before after : Z) : bool :=
  (0 <? limit) && (limit <=? before) && (after <? limit).

Definition forget_old (cfg : Config) (id : Z * Z) (ss : SectorStats) : SectorStats :=
  match bySector ss !! id with
  | Some oldst =>
      ss {{ totals := add_total (toStatState oldst (FinalizeEarly cfg)) (-1) (totals ss);
            byState := add_state oldst (-1) (byState ss) }}
  | None => ss
  end.

Definition updateSector (cfg : Config) (id : Z * Z) (st : SectorState) (ss : SectorStats)
    : bool * SectorStats :=
  let preSealing := curSealingLocked ss in
  let preStaging := curStagingLocked ss in
  let ss1 := forget_old cfg id ss in
  let sst := toStatState st (FinalizeEarly cfg) in
  let ss2 := mkSectorStats (<[id := st]> (bySector ss1)) (add_state st 1 (byState ss1))
               (add_total sst 1 (totals ss1)) in
  let updateInput := dipped (MaxSealingSectorsForDeals cfg) preSealing (curSealingLocked ss2)
                     || dipped (MaxWaitDealsSectors cfg) preStaging (curStagingLocked ss2) in
  (updateInput, ss2).

(** * Counters and counts *)

(** The number of tracked sectors whose state satisfies [P]. *)
Definition number_in (P : SectorState → bool) (m : gmap (Z * Z) SectorState) : Z :=
  map_sumZ (fun st => if P st then 1 else 0) m.

Definition in_class (fin : bool) (c : statSectorState) (st : SectorState) : bool :=
  bool_decide (toStatState st fin = c).

(** A report of the state machine: the configuration read then, the sector and
    its state. *)
Abbreviation report := (Config * (Z * Z) * SectorState)%type.

Definition record_all (reports : list report) (ss : SectorStats) : SectorStats :=
  foldl (fun ss r => (updateSector r.1.1 r.1.2 r.2 ss).2) ss reports.

Definition last_report (id : Z * Z) (reports : list report) : option SectorState :=
  snd <$> last (filter (fun r => r.1.2 = id) reports).

(** The counters of [ss] are right, up to the width of each. *)
Record counting (fin : bool) (ss : SectorStats) : Prop := mkCounting {
  counting_totals c : totals ss c = wrapu64 (number_in (in_class fin c) (bySector ss));
  counting_states st :
    default 0 (byState ss !! st) = wrap64 (number_in (fun s => bool_decide (s = st)) (bySector ss));
}.

Lemma number_in_insert P m id st :
  number_in P (<[id := st]> m) =
  number_in P m - match m !! id with Some old => if P old then 1 else 0 | None => 0 end
  + (if P st then 1 else 0).
Proof.
  unfold number_in. destruct (m !! id) as [old|] eqn:E.
  - by rewrite (map_sumZ_insert_Some _ _ _ _ _ E).
  - rewrite map_sumZ_insert_None by done. lia.
Qed.

Lemma number_in_size P m : 0 <= number_in P m <= Z.of_nat (size m).
Proof.
  induction m as [|id st m Hid IH] using map_ind.
  - unfold number_in. rewrite map_sumZ_empty, map_size_empty. lia.
  - rewrite number_in_insert, Hid, map_size_insert_None by done. destruct (P st); lia.
Qed.

Lemma wrapu64_step a d : wrapu64 (wrapu64 a + d) = wrapu64 (a + d).
Proof. unfold wrapu64. by rewrite Zplus_mod_idemp_l. Qed.

Lemma wrap64_step a d : wrap64 (wrap64 a + d) = wrap64 (a + d).
Proof.
  unfold wrap64. f_equal.
  replace ((a + 2 ^ 63) mod 2 ^ 64 - 2 ^ 63 + d + 2 ^ 63) with ((a + 2 ^ 63) mod 2 ^ 64 + d) by lia.
  rewrite Zplus_mod_idemp_l. f_equal. lia.
Qed.

Lemma add_total_spec c d t c' n :
  t c' = wrapu64 n ->
  add_total c d t c' = wrapu64 (n + if bool_decide (c = c') then d else 0).
Proof.
  intros H. unfold add_total. destruct (decide (c = c')) as [->|Hc].
  - rewrite !bool_decide_true, H by done. apply wrapu64_step.
  - rewrite !bool_decide_false by congruence. by rewrite Z.add_0_r.
Qed.

Lemma add_state_spec st d m st' n :
  default 0 (m !! st') = wrap64 n ->
  default 0 (add_state st d m !! st') = wrap64 (n + if bool_decide (st = st') then d else 0).
Proof.
  intros H. unfold add_state. destruct (decide (st = st')) as [->|Hs].
  - rewrite lookup_insert_eq, bool_decide_true, H by done. apply wrap64_step.
  - rewrite lookup_insert_ne, bool_decide_false, Z.add_0_r by done. done.
Qed.

Lemma forget_old_bySector cfg id ss : bySector (forget_old cfg id ss) = bySector ss.
Proof. unfold forget_old. by destruct (bySector ss !! id). Qed.

Lemma counting_new fin : counting fin newSectorStats.
Proof.
  split; intros; simpl; unfold number_in; rewrite map_sumZ_empty; [done|].
  by rewrite lookup_empty.
Qed.

Lemma counting_updateSector cfg id st ss :
  counting (FinalizeEarly cfg) ss ->
  counting (FinalizeEarly cfg) (updateSector cfg id st ss).2.
Proof.
  intros [Ht Hs]. unfold updateSector.
  split; [intros c|intros st0]; cbn [fst snd bySector byState totals];
    rewrite forget_old_bySector, number_in_insert; unfold forget_old.
  - destruct (bySector ss !! id) as [old|]; cbn [totals byState].
    + erewrite add_total_spec by (eapply add_total_spec, Ht). f_equal. unfold in_class.
      repeat case_bool_decide; lia.
    + erewrite add_total_spec by apply Ht. f_equal. unfold in_class.
      repeat case_bool_decide; lia.
  - destruct (bySector ss !! id) as [old|]; cbn [totals byState].
    + erewrite add_state_spec by (eapply add_state_spec, Hs). f_equal.
      repeat case_bool_decide; lia.
    + erewrite add_state_spec by apply Hs. f_equal. repeat case_bool_decide; lia.
Qed.

Lemma counting_record_all fin reports : ∀ ss,
  Forall (fun r => FinalizeEarly r.1.1 = fin) reports -> counting fin ss ->
  counting fin (record_all reports ss).
Proof.
  induction reports as [|r reports IH]; intros ss Hf Hc; [done|].
  apply Forall_cons in Hf as [<- Hf]. apply IH; [done|]. by apply counting_updateSector.
Qed.

Lemma record_all_snoc reports r ss :
  record_all (reports ++ [r]) ss = (updateSector r.1.1 r.1.2 r.2 (record_all reports ss)).2.
Proof. unfold record_all. by rewrite foldl_app. Qed.

Lemma updateSector_bySector cfg id st ss :
  bySector (updateSector cfg id st ss).2 = <[id := st]> (bySector ss).
Proof. unfold updateSector. cbn [snd bySector]. by rewrite forget_old_bySector. Qed.

Lemma record_all_bySector reports id :
  bySector (record_all reports newSectorStats) !! id = last_report id reports.
Proof.
  induction reports as [|r reports IH] using rev_ind; [done|].
  rewrite record_all_snoc, updateSector_bySector. unfold last_report in *.
  rewrite filter_app, filter_cons, filter_nil. case_decide as E.
  - by rewrite last_snoc, <- E, lookup_insert_eq.
  - by rewrite app_nil_r, lookup_insert_ne, IH.
Qed.

Lemma record_all_size reports :
  (size (bySector (record_all reports newSectorStats)) ≤ length reports)%nat.
Proof.
  induction reports as [|r reports IH] using rev_ind; [done|].
  rewrite record_all_snoc, updateSector_bySector, length_app, map_size_insert.
  change (length [r]) with 1%nat. destruct (_ !! _); simpl; lia.
Qed.

Lemma number_in_reports P reports :
  0 <= number_in P (bySector (record_all reports newSectorStats)) <= Z.of_nat (length reports).
Proof.
  pose proof (number_in_size P (bySector (record_all reports newSectorStats))).
  pose proof (record_all_size reports). lia.
Qed.

(** Sectors the input limit counts: all but those proving. *)
Definition in_pipeline (fin : bool) (st : SectorState) : bool :=
  negb (in_class fin sstProving st).

Lemma number_in_pipeline fin m :
  number_in (in_pipeline fin) m =
  number_in (in_class fin sstStaging) m + number_in (in_class fin sstSealing) m
  + number_in (in_class fin sstFailed) m.
Proof.
  induction m as [|id st m Hid IH] using map_ind; [done|].
  rewrite !number_in_insert, !Hid, IH. unfold in_pipeline, in_class.
  destruct (toStatState st fin); simpl; lia.
Qed.

Lemma curSealing_counts fin reports :
  Forall (fun r => FinalizeEarly r.1.1 = fin) reports -> Z.of_nat (length reports) < 2 ^ 63 ->
  let ss := record_all reports newSectorStats in
  curSealingLocked ss = number_in (in_pipeline fin) (bySector ss).
Proof.
  intros Hf Hlen ss. unfold curSealingLocked.
  pose proof (counting_record_all fin reports _ Hf (counting_new fin)) as [Ht _].
  fold ss in Ht. rewrite !Ht.
  pose proof (number_in_reports (in_pipeline fin) reports) as Hn. fold ss in Hn.
  unfold wrapu64. rewrite <- (Zplus_mod (number_in (in_class fin sstStaging) _)), <- Zplus_mod.
  rewrite <- number_in_pipeline. apply Z.mod_small. lia.
Qed.

Lemma staging_counts fin reports :
  Forall (fun r => FinalizeEarly r.1.1 = fin) reports -> Z.of_nat (length reports) < 2 ^ 63 ->
  let ss := record_all reports newSectorStats in
  curStagingLocked ss = number_in (in_class fin sstStaging) (bySector ss).
Proof.
  intros Hf Hlen ss. unfold curStagingLocked.
  pose proof (counting_record_all fin reports _ Hf (counting_new fin)) as [Ht _].
  fold ss in Ht. rewrite Ht. apply wrapu64_id. unfold in_u64.
  pose proof (number_in_reports (in_class fin sstStaging) reports) as Hn. fold ss in Hn. lia.
Qed.

Lemma dipped_true limit before after :
  dipped limit before after = true ↔ 0 < limit ∧ after < limit <= before.
Proof. unfold dipped. rewrite !andb_true_iff, !Z.ltb_lt, Z.leb_le. lia. Qed.

Lemma updateSector_input cfg id st ss b ss' :
  updateSector cfg id st ss = (b, ss') ->
  b = true ↔
    (0 < MaxSealingSectorsForDeals cfg ∧
       curSealingLocked ss' < MaxSealingSectorsForDeals cfg <= curSealingLocked ss) ∨
    (0 < MaxWaitDealsSectors cfg ∧
       curStagingLocked ss' < MaxWaitDealsSectors cfg <= curStagingLocked ss).
Proof.
  unfold updateSector. intros [= <- <-]. by rewrite orb_true_iff, !dipped_true.
Qed.

(** as long as [FinalizeEarly] keeps its value, after any sequence of state
    reports the statistics track the last state of every sector, the counters of
    the classes and of the states are the numbers of tracked sectors in them (no
    counter under- or overflows), and the next update asks for more input exactly
    when it takes the number of sectors in the pipeline, or of those waiting for
    deals, from at least a configured limit to below it. *)
Theorem SectorStats_counts (fin : bool) (reports : list report) (cfg : Config) (id : Z * Z)
    (st : SectorState) :
  Forall (fun r => FinalizeEarly r.1.1 = fin) reports -> FinalizeEarly cfg = fin ->
  Z.of_nat (length reports) + 1 < 2 ^ 63 ->
  let ss := record_all reports newSectorStats in
  let '(updateInput, ss') := updateSector cfg id st ss in
  let pipeline s := number_in (in_pipeline fin) (bySector s) in
  let staging s := number_in (in_class fin sstStaging) (bySector s) in
  (∀ i, bySector ss !! i = last_report i reports) ∧
  (∀ c, totals ss c = number_in (in_class fin c) (bySector ss)) ∧
  (∀ s, default 0 (byState ss !! s) = number_in (fun s' => bool_decide (s' = s)) (bySector ss)) ∧
  (updateInput = true ↔
     (0 < MaxSealingSectorsForDeals cfg ∧ pipeline ss' < MaxSealingSectorsForDeals cfg <= pipeline ss) ∨
     (0 < MaxWaitDealsSectors cfg ∧ staging ss' < MaxWaitDealsSectors cfg <= staging ss)).
Proof.
  intros Hf Hfin Hlen ss.
  pose proof (counting_record_all fin reports _ Hf (counting_new fin)) as Hc. fold ss in Hc.
  assert (Hf' : Forall (fun r : report => FinalizeEarly r.1.1 = fin) (reports ++ [(cfg, id, st)]))
    by (apply Forall_app; split; [done|by apply Forall_singleton]).
  pose proof (curSealing_counts fin reports Hf ltac:(lia)) as Hp.
  pose proof (curSealing_counts fin _ Hf' ltac:(rewrite length_app; simpl; lia)) as Hp'.
  pose proof (staging_counts fin reports Hf ltac:(lia)) as Hs.
  pose proof (staging_counts fin _ Hf' ltac:(rewrite length_app; simpl; lia)) as Hs'.
  rewrite record_all_snoc in Hp', Hs'. cbn [fst snd] in Hp', Hs'. fold ss in Hp, Hp', Hs, Hs'.
  destruct (updateSector cfg id st ss) as [b ss'] eqn:E. cbn [snd] in Hp', Hs'.
  split; [apply record_all_bySector|]. split; [|split].
  - intros c. rewrite (counting_totals _ _ Hc). apply wrapu64_id.
    pose proof (number_in_reports (in_class fin c) reports). unfold in_u64. fold ss in H. lia.
  - intros s. rewrite (counting_states _ _ Hc). apply wrap64_id.
    pose proof (number_in_reports (fun s' => bool_decide (s' = s)) reports).
    unfold in_i64. fold ss in H. lia.
  - rewrite <- Hp, <- Hp', <- Hs, <- Hs'. apply (updateSector_input _ _ _ _ _ _ E).
Qed.

Lemma SectorStats_counts_witness :
  let cfg := mkConfig false 1 0 in
  let reports := [(cfg, (1000, 1), Packing); (cfg, (1000, 1), CommitWait)] in
  (updateSector cfg (1000, 1) Proving (record_all reports newSectorStats)).1 = true.
Proof.
  intros cfg reports.
  destruct (SectorStats_counts false reports cfg (1000, 1) Proving
    ltac:(by repeat constructor) eq_refl eq_refl) as (_ & _ & _ & Hb).
  apply Hb. left. vm_compute. by split; [|split].
Defined.

(** A changed [FinalizeEarly] is not reflected in the totals: the class the sector
    leaves is computed with the new setting. *)
Lemma SectorStats_config_change_underflows :
  let early := mkConfig true 0 0 in
  let late := mkConfig false 0 0 in
  let ss := record_all [(early, (1000, 1), SubmitCommit); (late, (1000, 1), Proving)] newSectorStats in
  totals ss sstSealing = 2 ^ 64 - 1 ∧ totals ss sstProving = 2.
Proof. done. Qed.
