(* ===== verification/SectorFSM.v ===== *)
(** The sealing state machine (src/storage/pipeline/fsm.go): the planners of
    every state, the events that apply in every state, the sector log and the
    choice of the next handler.

    A planner of the source is a closure built by [planOne] and its helpers; here
    it is the data those helpers receive ([planner], [transition]), interpreted
    by [run_planner].  What planners do outside the sector, notifications to a
    remote sealing service and the set of sectors to drop from the scheduler,
    is recorded in [World]. *)

From coqutil Require Import Datatypes.RecordSetters.
From S2P Require Import Prelude Types SectorTypes SectorEvents SectorStats.
Import DoubleBraceUpdate.

(** * Effects outside the sector *)

(** A POST to [RemoteSealingDoneEndpoint]. *)
Record notification := mkNotification {
  endpoint : string;
  Successful : bool;
  NotifyState : string;
  NotifyCommitMessage : option cid;
}.

(** [RemoveSectors] is the set of the record-task package. *)
Record World := mkWorld {
  notifications : list notification;
  RemoveSectors : gset Z;
}.

Definition emptyWorld : World := mkWorld [] ∅.

Definition maybeNotifyRemoteDone (success : bool) (st : string) (sector : SectorInfo) (w : World) : World :=
  if bool_decide (RemoteSealingDoneEndpoint sector = EmptyString) then w
  else w {{ notifications := notifications w ++
              [mkNotification (RemoteSealingDoneEndpoint sector) success st (CommitMessage sector)] }}.

(** [strings.Contains]. *)
Fixpoint has_prefix (p s : string) : bool :=
  match p, s with
  | EmptyString, _ => true
  | String a p', String b s' => Ascii.eqb a b && has_prefix p' s'
  | String _ _, EmptyString => false
  end.

Fixpoint contains (s sub : string) : bool :=
  has_prefix sub s || match s with EmptyString => false | String _ s' => contains s' sub end.

(** * Global events *)

(** [applyGlobal]: the boolean asks to interrupt event processing. *)
Definition applyGlobal (evt : Event) (state : SectorInfo) (w : World) : bool * SectorInfo * World :=
  match evt with
  | SectorRestart => (false, state, w)
  | SectorFatalError _ => (true, state, w)
  | SectorForceState s =>
      let w := if contains s "SubmitCommit"
               then w {{ RemoveSectors := {[SectorNumber state]} ∪ RemoveSectors w }} else w in
      (true, state {{ State := s }}, w)
  | SectorTerminate => (true, state {{ State := Terminating }}, w)
  | SectorRemove =>
      (true, state {{ State := Removing }}, maybeNotifyRemoteDone false "Removing" state w)
  | _ => (false, state, w)
  end.

(** * Transitions and planners *)

Inductive transition :=
  | on (t : EventType) (next : SectorState)
  | onWithCB (t : EventType) (next : SectorState) (success : bool) (st : string)
  | apply (t : EventType)
  | onReturning (t : EventType).

Definition transition_type (tr : transition) : EventType :=
  match tr with
  | on t _ => t
  | onWithCB t _ _ _ => t
  | apply t => t
  | onReturning t => t
  end.

Inductive plan_error :=
  | UnexpectedEvent | ReturnStateNotSet | CommittingUnknownEvent | NoEventsExpected | PlannerNotFound.

(** The [next] closure of a transition: whether to go on, or an error. *)
Definition next_of (tr : transition) (state : SectorInfo) (w : World)
    : result plan_error bool * SectorInfo * World :=
  match tr with
  | on _ next => (Ok false, state {{ State := next }}, w)
  | onWithCB _ next success st =>
      (Ok false, state {{ State := next }}, maybeNotifyRemoteDone success st state w)
  | apply _ => (Ok true, state, w)
  | onReturning _ =>
      if bool_decide (Return state = EmptyString) then (Err ReturnStateNotSet, state, w)
      else (Ok false, state {{ State := Return state; Return := EmptyString }}, w)
  end.

Inductive planner :=
  | planOne (ts : list transition)
  | planOneOrIgnore (ts : list transition)
  | planCommitting
  | final
  | finalRemoved.

(** What a planner leaves: events processed, error, sector, effects. *)
Record planned := mkPlanned {
  processed : nat;
  plan_err : option plan_error;
  planned_state : SectorInfo;
  planned_world : World;
}.

Definition find_transition (t : EventType) (ts : list transition) : option transition :=
  find (fun tr => bool_decide (transition_type tr = t)) ts.

Section Planning.
Variable now : Z.

(** The event loop of [planOne] from index [i]; [None] is a panic. *)
Fixpoint planOne_loop (ts : list transition) (i : nat) (events : list Event)
    (state : SectorInfo) (w : World) : option planned :=
  match events with
  | [] => Some (mkPlanned i None state w)
  | event :: rest =>
      if is_global (TypeOf event) then
        let '(_, state, w) := applyGlobal event state w in
        Some (mkPlanned (S i) None state w)
      else match find_transition (TypeOf event) ts with
      | Some tr =>
          match apply_event now event state with
          | None => None
          | Some state =>
              match next_of tr state w with
              | (Ok true, state, w) => planOne_loop ts (S i) rest state w
              | (Ok false, state, w) => Some (mkPlanned (S i) None state w)
              | (Err e, state, w) => Some (mkPlanned (S i) (Some e) state w)
              end
          end
      | None =>
          if is_ignorable (TypeOf event) then planOne_loop ts (S i) rest state w
          else Some (mkPlanned (S i) (Some UnexpectedEvent) state w)
      end
  end.

(** What [planCommitting] does with one event: go on, return, or fail. *)
Inductive committing_action :=
  | Continue (state : SectorInfo) (w : World)
  | Stop (state : SectorInfo) (w : World)
  | Unknown.

Definition planCommitting_event (event : Event) (state : SectorInfo) (w : World) : committing_action :=
  match event with
  | SectorRestart | SectorFatalError _ | SectorForceState _ | SectorTerminate | SectorRemove =>
      let '(stop, state, w) := applyGlobal event state w in
      if stop then Stop state w else Continue state w
  | SectorCommitted proof =>
      let state := if bool_decide (proof = EmptyString) then state
                   else apply_SectorCommitted proof state in
      Continue (state {{ State := SubmitCommit }}) w
  | SectorProofReady proof =>
      Continue ((apply_SectorProofReady proof state) {{ State := CommitFinalize }}) w
  | SectorSeedReady value epoch =>
      if (epoch =? SeedEpoch state) && bool_decide (value = SeedValue state) then Continue state w
      else Stop ((apply_SectorSeedReady value epoch state) {{ State := Committing }}) w
  | SectorComputeProofFailed _ => Continue (state {{ State := ComputeProofFailed }}) w
  | SectorRemoteCommit1Failed _ | SectorRemoteCommit2Failed _ =>
      Continue (state {{ State := RemoteCommitFailed }}) w
  | SectorSealPreCommit1Failed _ => Continue (state {{ State := SealPreCommit1Failed }}) w
  | SectorCommitFailed _ => Continue (state {{ State := CommitFailed }}) w
  | SectorRetryCommitWait => Continue (state {{ State := CommitWait }}) w
  | _ => Unknown
  end.

Fixpoint planCommitting_loop (i : nat) (events : list Event) (state : SectorInfo) (w : World)
    : planned :=
  match events with
  | [] => mkPlanned i None state w
  | event :: rest =>
      match planCommitting_event event state w with
      | Continue state w => planCommitting_loop (S i) rest state w
      | Stop state w => mkPlanned (S i) None state w
      | Unknown => mkPlanned i (Some CommittingUnknownEvent) state w
      end
  end.

Definition run_final (events : list Event) (state : SectorInfo) (w : World) : planned :=
  match events with
  | event :: _ =>
      if is_global (TypeOf event) then
        let '(_, state, w) := applyGlobal event state w in mkPlanned 1 None state w
      else mkPlanned 0 (Some NoEventsExpected) state w
  | [] => mkPlanned 0 (Some NoEventsExpected) state w
  end.

Definition run_finalRemoved (events : list Event) (state : SectorInfo) (w : World) : planned :=
  mkPlanned (length events) None state w.

Definition run_planOneOrIgnore (ts : list transition) (events : list Event)
    (state : SectorInfo) (w : World) : option planned :=
  p ← planOne_loop ts 0 events state w;
  Some (mkPlanned (processed p) None (planned_state p) (planned_world p)).

Definition run_planner (p : planner) (events : list Event) (state : SectorInfo) (w : World)
    : option planned :=
  match p with
  | planOne ts => planOne_loop ts 0 events state w
  | planOneOrIgnore ts => run_planOneOrIgnore ts events state w
  | planCommitting => Some (planCommitting_loop 0 events state w)
  | final => Some (run_final events state w)
  | finalRemoved => Some (run_finalRemoved events state w)
  end.
End Planning.

(** * The planner of each state *)

(** External import and sealing. *)
Definition planners_sealing : list (SectorState * planner) := [
  (ReceiveSector, planOne [
     onReturning TSectorReceived]);
  (UndefinedSectorState, planOne [
     on TSectorStart WaitDeals;
     on TSectorStartCC Packing;
     on TSectorReceive ReceiveSector]);
  (Empty, planOne [
     on TSectorAddPiece AddPiece;
     on TSectorStartPacking Packing]);
  (WaitDeals, planOne [
     on TSectorAddPiece AddPiece;
     on TSectorStartPacking Packing]);
  (AddPiece, planOne [
     on TSectorPieceAdded WaitDeals;
     apply TSectorStartPacking;
     apply TSectorAddPiece;
     on TSectorAddPieceFailed AddPieceFailed]);
  (Packing, planOne [
     on TSectorPacked GetTicket]);
  (GetTicket, planOne [
     on TSectorTicket PreCommit1;
     on TSectorCommitFailed CommitFailed]);
  (PreCommit1, planOne [
     on TSectorPreCommit1 PreCommit2;
     on TSectorSealPreCommit1Failed SealPreCommit1Failed;
     on TSectorDealsExpired DealsExpired;
     on TSectorInvalidDealIDs RecoverDealIDs;
     on TSectorOldTicket GetTicket]);
  (PreCommit2, planOne [
     on TSectorPreCommit2 PreCommitting;
     on TSectorSealPreCommit2Failed SealPreCommit2Failed;
     on TSectorSealPreCommit1Failed SealPreCommit1Failed]);
  (PreCommitting, planOne [
     on TSectorPreCommitBatch SubmitPreCommitBatch;
     on TSectorPreCommitted PreCommitWait;
     on TSectorSealPreCommit1Failed SealPreCommit1Failed;
     on TSectorChainPreCommitFailed PreCommitFailed;
     on TSectorPreCommitLanded WaitSeed;
     on TSectorDealsExpired DealsExpired;
     on TSectorInvalidDealIDs RecoverDealIDs]);
  (SubmitPreCommitBatch, planOne [
     on TSectorPreCommitBatchSent PreCommitBatchWait;
     on TSectorSealPreCommit1Failed SealPreCommit1Failed;
     on TSectorChainPreCommitFailed PreCommitFailed;
     on TSectorPreCommitLanded WaitSeed;
     on TSectorDealsExpired DealsExpired;
     on TSectorInvalidDealIDs RecoverDealIDs]);
  (PreCommitBatchWait, planOne [
     on TSectorChainPreCommitFailed PreCommitFailed;
     on TSectorPreCommitLanded WaitSeed;
     on TSectorRetryPreCommit PreCommitting]);
  (PreCommitWait, planOne [
     on TSectorChainPreCommitFailed PreCommitFailed;
     on TSectorPreCommitLanded WaitSeed;
     on TSectorRetryPreCommit PreCommitting]);
  (WaitSeed, planOne [
     on TSectorSeedReady Committing;
     on TSectorChainPreCommitFailed PreCommitFailed]);
  (Committing, planCommitting);
  (CommitFinalize, planOne [
     on TSectorFinalized SubmitCommit;
     on TSectorFinalizedAvailable SubmitCommit;
     on TSectorFinalizeFailed CommitFinalizeFailed]);
  (SubmitCommit, planOne [
     on TSectorCommitSubmitted CommitWait;
     on TSectorSubmitCommitAggregate SubmitCommitAggregate;
     on TSectorCommitFailed CommitFailed]);
  (SubmitCommitAggregate, planOne [
     on TSectorCommitAggregateSent CommitAggregateWait;
     on TSectorCommitFailed CommitFailed;
     on TSectorRetrySubmitCommit SubmitCommit]);
  (CommitWait, planOne [
     on TSectorProving FinalizeSector;
     on TSectorCommitFailed CommitFailed;
     on TSectorRetrySubmitCommit SubmitCommit]);
  (CommitAggregateWait, planOne [
     on TSectorProving FinalizeSector;
     on TSectorCommitFailed CommitFailed;
     on TSectorRetrySubmitCommit SubmitCommit]);
  (FinalizeSector, planOne [
     onWithCB TSectorFinalized Proving true "Proving";
     onWithCB TSectorFinalizedAvailable Available true "Available";
     on TSectorFinalizeFailed FinalizeFailed;
     on TSectorCommitted SubmitCommit])].

(** Snap deals. *)
Definition planners_snap : list (SectorState * planner) := [
  (SnapDealsWaitDeals, planOne [
     on TSectorAddPiece SnapDealsAddPiece;
     on TSectorStartPacking SnapDealsPacking;
     on TSectorAbortUpgrade AbortUpgrade]);
  (SnapDealsAddPiece, planOne [
     on TSectorPieceAdded SnapDealsWaitDeals;
     apply TSectorStartPacking;
     apply TSectorAddPiece;
     on TSectorAddPieceFailed SnapDealsAddPieceFailed;
     on TSectorAbortUpgrade AbortUpgrade]);
  (SnapDealsPacking, planOne [
     on TSectorPacked UpdateReplica;
     on TSectorAbortUpgrade AbortUpgrade]);
  (UpdateReplica, planOne [
     on TSectorReplicaUpdate ProveReplicaUpdate;
     on TSectorUpdateReplicaFailed ReplicaUpdateFailed;
     on TSectorDealsExpired SnapDealsDealsExpired;
     on TSectorInvalidDealIDs SnapDealsRecoverDealIDs;
     on TSectorAbortUpgrade AbortUpgrade]);
  (ProveReplicaUpdate, planOne [
     on TSectorProveReplicaUpdate FinalizeReplicaUpdate;
     on TSectorProveReplicaUpdateFailed ReplicaUpdateFailed;
     on TSectorDealsExpired SnapDealsDealsExpired;
     on TSectorInvalidDealIDs SnapDealsRecoverDealIDs;
     on TSectorAbortUpgrade AbortUpgrade]);
  (FinalizeReplicaUpdate, planOne [
     on TSectorFinalized SubmitReplicaUpdate;
     on TSectorFinalizeFailed FinalizeReplicaUpdateFailed]);
  (SubmitReplicaUpdate, planOne [
     on TSectorReplicaUpdateSubmitted ReplicaUpdateWait;
     on TSectorSubmitReplicaUpdateFailed ReplicaUpdateFailed]);
  (ReplicaUpdateWait, planOne [
     on TSectorReplicaUpdateLanded UpdateActivating;
     on TSectorSubmitReplicaUpdateFailed ReplicaUpdateFailed;
     on TSectorAbortUpgrade AbortUpgrade]);
  (UpdateActivating, planOne [
     on TSectorUpdateActive ReleaseSectorKey]);
  (ReleaseSectorKey, planOne [
     on TSectorKeyReleased Proving;
     on TSectorReleaseKeyFailed ReleaseSectorKeyFailed])].

(** Sealing errors. *)
Definition planners_errors : list (SectorState * planner) := [
  (AddPieceFailed, planOne [
     on TSectorRetryWaitDeals WaitDeals;
     apply TSectorStartPacking;
     apply TSectorAddPiece]);
  (SealPreCommit1Failed, planOne [
     on TSectorRetrySealPreCommit1 PreCommit1]);
  (SealPreCommit2Failed, planOne [
     on TSectorRetrySealPreCommit1 PreCommit1;
     on TSectorRetrySealPreCommit2 PreCommit2]);
  (PreCommitFailed, planOne [
     on TSectorRetryPreCommit PreCommitting;
     on TSectorRetryPreCommitWait PreCommitWait;
     on TSectorRetryWaitSeed WaitSeed;
     on TSectorSealPreCommit1Failed SealPreCommit1Failed;
     on TSectorPreCommitLanded WaitSeed;
     onWithCB TSectorDealsExpired DealsExpired false "DealsExpired";
     on TSectorInvalidDealIDs RecoverDealIDs]);
  (ComputeProofFailed, planOne [
     on TSectorRetryComputeProof Committing;
     on TSectorSealPreCommit1Failed SealPreCommit1Failed]);
  (RemoteCommitFailed, planOne [
     on TSectorRetryComputeProof Committing]);
  (CommitFinalizeFailed, planOne [
     on TSectorRetryFinalize CommitFinalize]);
  (CommitFailed, planOne [
     on TSectorSealPreCommit1Failed SealPreCommit1Failed;
     on TSectorRetryWaitSeed WaitSeed;
     on TSectorRetryComputeProof Committing;
     on TSectorRetryInvalidProof Committing;
     on TSectorRetryPreCommitWait PreCommitWait;
     on TSectorChainPreCommitFailed PreCommitFailed;
     on TSectorRetryPreCommit PreCommitting;
     on TSectorRetryCommitWait CommitWait;
     on TSectorRetrySubmitCommit SubmitCommit;
     onWithCB TSectorDealsExpired DealsExpired false "DealsExpired";
     on TSectorInvalidDealIDs RecoverDealIDs;
     onWithCB TSectorTicketExpired Removing false "Removing"]);
  (FinalizeFailed, planOne [
     on TSectorRetryFinalize FinalizeSector]);
  (PackingFailed, planOne []);
  (DealsExpired, planOne []);
  (RecoverDealIDs, planOne [
     onReturning TSectorUpdateDealIDs])].

(** Snap deals errors. *)
Definition planners_snap_errors : list (SectorState * planner) := [
  (SnapDealsAddPieceFailed, planOne [
     on TSectorRetryWaitDeals SnapDealsWaitDeals;
     apply TSectorStartPacking;
     apply TSectorAddPiece;
     on TSectorAbortUpgrade AbortUpgrade]);
  (SnapDealsDealsExpired, planOne [
     on TSectorAbortUpgrade AbortUpgrade]);
  (SnapDealsRecoverDealIDs, planOne [
     on TSectorUpdateDealIDs SubmitReplicaUpdate;
     on TSectorAbortUpgrade AbortUpgrade]);
  (AbortUpgrade, planOneOrIgnore [
     on TSectorRevertUpgradeToProving Proving]);
  (ReplicaUpdateFailed, planOne [
     on TSectorRetrySubmitReplicaUpdateWait ReplicaUpdateWait;
     on TSectorRetrySubmitReplicaUpdate SubmitReplicaUpdate;
     on TSectorRetryReplicaUpdate UpdateReplica;
     on TSectorRetryProveReplicaUpdate ProveReplicaUpdate;
     on TSectorInvalidDealIDs SnapDealsRecoverDealIDs;
     on TSectorDealsExpired SnapDealsDealsExpired;
     on TSectorAbortUpgrade AbortUpgrade]);
  (ReleaseSectorKeyFailed, planOne [
     on TSectorUpdateActive ReleaseSectorKey]);
  (FinalizeReplicaUpdateFailed, planOne [
     on TSectorRetryFinalize FinalizeReplicaUpdate])].

(** After sealing. *)
Definition planners_postseal : list (SectorState * planner) := [
  (Proving, planOne [
     on TSectorFaultReported FaultReported;
     on TSectorFaulty Faulty;
     on TSectorMarkForUpdate Available]);
  (Available, planOne [
     on TSectorStartCCUpdate SnapDealsWaitDeals;
     on TSectorAbortUpgrade Proving]);
  (Terminating, planOne [
     on TSectorTerminating TerminateWait;
     on TSectorTerminateFailed TerminateFailed]);
  (TerminateWait, planOne [
     on TSectorTerminated TerminateFinality;
     on TSectorTerminateFailed TerminateFailed]);
  (TerminateFinality, planOne [
     on TSectorTerminateFailed TerminateFailed]);
  (TerminateFailed, planOne []);
  (Removing, planOneOrIgnore [
     on TSectorRemoved Removed;
     on TSectorRemoveFailed RemoveFailed]);
  (RemoveFailed, planOne []);
  (Faulty, planOne [
     on TSectorFaultReported FaultReported]);
  (FaultReported, final);
  (FaultedFinal, final);
  (Removed, finalRemoved);
  (FailedUnrecoverable, final)].

Definition fsmPlanners : list (SectorState * planner) :=
  planners_sealing ++ planners_snap ++ planners_errors ++ planners_snap_errors ++ planners_postseal.

(** Indexing the map. *)
Definition planner_of (st : SectorState) : option planner :=
  snd <$> find (fun e => bool_decide (e.1 = st)) fsmPlanners.

(** * Handlers *)

(** The handlers [plan] can return; what each does is in states_*.go. *)
Inductive handler :=
  | handleReceiveSector | handleWaitDeals | handleAddPiece | handlePacking | handleGetTicket
  | handlePreCommit1 | handlePreCommit2 | handlePreCommitting | handleSubmitPreCommitBatch
  | handlePreCommitWait | handleWaitSeed | handleCommitting | handleSubmitCommit
  | handleSubmitCommitAggregate | handleCommitWait | handleFinalizeSector
  | handleReplicaUpdate | handleProveReplicaUpdate | handleSubmitReplicaUpdate
  | handleReplicaUpdateWait | handleFinalizeReplicaUpdate | handleUpdateActivating
  | handleReleaseSectorKey | handleAddPieceFailed | handleSealPrecommit1Failed
  | handleSealPrecommit2Failed | handlePreCommitFailed | handleComputeProofFailed
  | handleRemoteCommitFailed | handleCommitFailed | handleFinalizeFailed | handleDealsExpired
  | HandleRecoverDealIDs | handleDealsExpiredSnapDeals | handleSnapDealsRecoverDealIDs
  | handleSubmitReplicaUpdateFailed | handleReleaseSectorKeyFailed | handleAbortUpgrade
  | handleProvingSector | handleAvailableSector | handleTerminating | handleTerminateWait
  | handleTerminateFinality | handleTerminateFailed | handleRemoving | handleRemoveFailed
  | handleFaulty | handleFaultReported.

#[export] Instance handler_eq_dec : EqDecision handler.
Proof. solve_decision. Defined.

(** The cases of the switch of [plan] that return a handler, in order. *)
Definition handlers : list (SectorState * handler) := [
  (ReceiveSector, handleReceiveSector);
  (Empty, handleWaitDeals);
  (WaitDeals, handleWaitDeals);
  (AddPiece, handleAddPiece);
  (Packing, handlePacking);
  (GetTicket, handleGetTicket);
  (PreCommit1, handlePreCommit1);
  (PreCommit2, handlePreCommit2);
  (PreCommitting, handlePreCommitting);
  (SubmitPreCommitBatch, handleSubmitPreCommitBatch);
  (PreCommitBatchWait, handlePreCommitWait);
  (PreCommitWait, handlePreCommitWait);
  (WaitSeed, handleWaitSeed);
  (Committing, handleCommitting);
  (SubmitCommit, handleSubmitCommit);
  (SubmitCommitAggregate, handleSubmitCommitAggregate);
  (CommitAggregateWait, handleCommitWait);
  (CommitWait, handleCommitWait);
  (CommitFinalize, handleFinalizeSector);
  (FinalizeSector, handleFinalizeSector);
  (SnapDealsWaitDeals, handleWaitDeals);
  (SnapDealsAddPiece, handleAddPiece);
  (SnapDealsPacking, handlePacking);
  (UpdateReplica, handleReplicaUpdate);
  (ProveReplicaUpdate, handleProveReplicaUpdate);
  (SubmitReplicaUpdate, handleSubmitReplicaUpdate);
  (ReplicaUpdateWait, handleReplicaUpdateWait);
  (FinalizeReplicaUpdate, handleFinalizeReplicaUpdate);
  (UpdateActivating, handleUpdateActivating);
  (ReleaseSectorKey, handleReleaseSectorKey);
  (AddPieceFailed, handleAddPieceFailed);
  (SealPreCommit1Failed, handleSealPrecommit1Failed);
  (SealPreCommit2Failed, handleSealPrecommit2Failed);
  (PreCommitFailed, handlePreCommitFailed);
  (ComputeProofFailed, handleComputeProofFailed);
  (RemoteCommitFailed, handleRemoteCommitFailed);
  (CommitFailed, handleCommitFailed);
  (CommitFinalizeFailed, handleFinalizeFailed);
  (FinalizeFailed, handleFinalizeFailed);
  (PackingFailed, handleDealsExpired);
  (DealsExpired, handleDealsExpired);
  (RecoverDealIDs, HandleRecoverDealIDs);
  (SnapDealsAddPieceFailed, handleAddPieceFailed);
  (SnapDealsDealsExpired, handleDealsExpiredSnapDeals);
  (SnapDealsRecoverDealIDs, handleSnapDealsRecoverDealIDs);
  (ReplicaUpdateFailed, handleSubmitReplicaUpdateFailed);
  (ReleaseSectorKeyFailed, handleReleaseSectorKeyFailed);
  (FinalizeReplicaUpdateFailed, handleFinalizeFailed);
  (AbortUpgrade, handleAbortUpgrade);
  (Proving, handleProvingSector);
  (Available, handleAvailableSector);
  (Terminating, handleTerminating);
  (TerminateWait, handleTerminateWait);
  (TerminateFinality, handleTerminateFinality);
  (TerminateFailed, handleTerminateFailed);
  (Removing, handleRemoving);
  (RemoveFailed, handleRemoveFailed);
  (Faulty, handleFaulty);
  (FaultReported, handleFaultReported)].

(** The switch: the handler if any, the number of processed events to report and
    the sector, whose deprecated state [PackingFailed] is replaced. *)
Definition next_handler (processed : nat) (state : SectorInfo) : option handler * nat * SectorInfo :=
  let h := snd <$> find (fun e => bool_decide (e.1 = State state)) handlers in
  if bool_decide (State state = PackingFailed) then (h, processed, state {{ State := DealsExpired }})
  else if bool_decide (State state = ReleaseSectorKeyFailed) then (h, 0%nat, state)
  else (h, processed, state).

(** * The log *)

Section Machine.
Variable now : Z.
(** [json.Marshal] (which may fail), [fmt] with [%T] and [%+v] on events, and the
    text of errors. *)
Variable json_Marshal : Event → option string.
Variable format_T : Event → string.
Variable format_trace : Event → string.
Variable error_message : option plan_error → string.
Variable error_kind : option plan_error → string.

Definition truncate_mark : Log :=
  mkLog (wrapu64 now) EmptyString "truncating log (above 8000 entries)" "truncate".

Definition logAppend (l : Log) (state : SectorInfo) : SectorInfo :=
  let log := SectorLog state in
  let log := if bool_decide (8000 < length log)%nat then
               let log := <[2000%nat := truncate_mark]> log in
               take 2000 log ++ drop 6000 log
             else log in
  state {{ SectorLog := log ++ [l] }}.

Definition logEvent (event : Event) (state : SectorInfo) : SectorInfo :=
  match json_Marshal event with
  | None => state
  | Some e =>
      match event with
      | SectorRestart => state
      | _ =>
          let e := if bool_decide (8000 < String.length e)%nat
                   then String.append (String.substring 0 8000 e) "... truncated" else e in
          logAppend (mkLog (wrapu64 now) (format_trace event) e
                       (String.append "event;" (format_T event))) state
      end
  end.

Definition logEvents (events : list Event) (state : SectorInfo) : SectorInfo :=
  foldl (fun state event => logEvent event state) state events.

(** * plan *)

(** The fields of [Sealing] planning reads and writes: the statistics and how
    often processing of pending input was started. *)
Record Sealing := mkSealing {
  world : World;
  stats : SectorStats;
  updateInputs : nat;
}.

(** [m.getConfig] ([None]: unset, as in tests; [Some None]: it failed), the
    miner's actor ID, and whether [currentSealProof] succeeds. *)
Variable getConfig : option (option Config).
Variable maddr : Z.
Variable currentSealProof_ok : bool.

Definition onUpdateSector (state : SectorInfo) (m : Sealing) : Sealing :=
  match getConfig with
  | Some (Some cfg) =>
      let '(shouldUpdateInput, ss) := updateSector cfg (maddr, SectorNumber state) (State state) (stats m) in
      mkSealing (world m) ss
        (if shouldUpdateInput && currentSealProof_ok then S (updateInputs m) else updateInputs m)
  | _ => m
  end.

Record planResult := mkPlanResult {
  next : option handler;
  result_processed : nat;
  result_err : option plan_error;
  result_state : SectorInfo;
  result_sealing : Sealing;
}.

(** The planner of the sector's state; in a state without one a single global
    event is still accepted. *)
Definition select_planner (events : list Event) (st : SectorState) : option planner :=
  match planner_of st with
  | Some p => Some p
  | None => match events with
            | [e] => if is_global (TypeOf e) then Some (planOne []) else None
            | _ => None
            end
  end.

Definition plan (events : list Event) (state : SectorInfo) (m : Sealing) : option planResult :=
  let state := logEvents events state in
  match select_planner events (State state) with
  | None => Some (mkPlanResult None 0 (Some PlannerNotFound) state m)
  | Some p =>
      r ← run_planner now p events state (world m);
      let m := mkSealing (planned_world r) (stats m) (updateInputs m) in
      match plan_err r with
      | Some e => Some (mkPlanResult None (processed r) (Some e) (planned_state r) m)
      | None =>
          let m := onUpdateSector (planned_state r) m in
          let '(h, n, state) := next_handler (processed r) (planned_state r) in
          Some (mkPlanResult h n None state m)
      end
  end.

Definition Plan (events : list Event) (state : SectorInfo) (m : Sealing) : option planResult :=
  r ← plan events state m;
  match result_err r, next r with
  | None, Some h => Some r
  | err, _ =>
      let l := mkLog (wrapu64 now) EmptyString
                 (String.append "state machine error: " (error_message err))
                 (String.append "error;" (error_kind err)) in
      Some (mkPlanResult None (result_processed r) None (logAppend l (result_state r)) (result_sealing r))
  end.
End Machine.

(** * Events sent from outside *)

(** The event [ForceSectorState] sends to the sector's machine. *)
Definition ForceSectorState (st : SectorState) : Event :=
  if contains st "SubmitCommit" then SectorCommitted EmptyString else SectorForceState st.

(** [restartSectors] sends a restart to every tracked sector. *)
Definition restartSectors (trackedSectors : list SectorInfo) : list (Z * Event) :=
  map (fun sector => (SectorNumber sector, SectorRestart)) trackedSectors.
