(* ===== verification/SectorProps.v ===== *)
(** Properties of the sealing state machine: its states stay inside the table of
    planners, events are consumed in order, a sector proves only after the chain
    accepted its proof, and upgrades can be undone.

    Invariants are shown through [Plan_preserves], which reduces what [Plan] does
    to the global events, the transitions of the table and the events of
    [planCommitting]. *)

From coqutil Require Import Datatypes.RecordSetters.
From S2P Require Import Prelude Types SectorTypes SectorEvents SectorStats SectorFSM.
Import DoubleBraceUpdate.

(** * The table *)

Lemma planner_of_elem st p : planner_of st = Some p -> (st, p) ∈ fsmPlanners.
Proof.
  unfold planner_of. destruct (find _ _) as [[st' p']|] eqn:E; [|done]. simpl. intros [= ->].
  apply find_some in E as [Hin Heq]. simpl in Heq. apply bool_decide_eq_true in Heq as ->.
  by apply list_elem_of_In.
Qed.

(** The transitions a state has, those of [planCommitting] excepted. *)
Definition transitions (p : planner) : list transition :=
  match p with planOne ts | planOneOrIgnore ts => ts | _ => [] end.

(** [check] holds of every transition of the table. *)
Definition all_transitions (check : SectorState → transition → bool) : bool :=
  forallb (fun e => forallb (check e.1) (transitions e.2)) fsmPlanners.

Lemma all_transitions_spec check st p tr :
  all_transitions check = true -> (st, p) ∈ fsmPlanners -> tr ∈ transitions p ->
  check st tr = true.
Proof.
  unfold all_transitions. intros H Hp Htr.
  rewrite forallb_forall in H. apply list_elem_of_In in Hp, Htr.
  specialize (H _ Hp). rewrite forallb_forall in H. by apply H.
Qed.

Lemma find_transition_spec t ts tr :
  find_transition t ts = Some tr -> tr ∈ ts ∧ transition_type tr = t.
Proof.
  intros H. apply find_some in H as [Hin Ht]. apply bool_decide_eq_true in Ht.
  by apply list_elem_of_In in Hin.
Qed.

(** * What events leave alone *)

Lemma apply_event_frame now e s s' :
  apply_event now e s = Some s' ->
  (∃ s0, e = SectorReceive s0 ∧ s' = s0) ∨
  (State s' = State s ∧ SectorLog s' = SectorLog s ∧
   (Return s' = Return s ∨ ∃ r, e = SectorInvalidDealIDs r ∧ Return s' = r) ∧
   (CCPieces s' = CCPieces s ∧ CCUpdate s' = CCUpdate s ∨
    TypeOf e ∈ [TSectorStartCCUpdate; TSectorRevertUpgradeToProving])).
Proof.
  intros H. destruct e; simpl in H; try discriminate;
    try (apply Some_inj in H; subst s'); try (left; by eexists); right.
  all: try (split; [done|]; split; [done|]; split; [by left|by left]).
  all: try (split; [done|]; split; [done|]; split; [by left|right; simpl; set_solver]).
  - unfold apply_SectorAddPiece. destruct (_ =? _);
      (split; [done|]; split; [done|]; split; [by left|by left]).
  - unfold apply_SectorProofReady. case_bool_decide;
      (split; [done|]; split; [done|]; split; [by left|by left]).
  - split; [done|]. split; [done|]. split; [right; by eexists|by left].
  - unfold apply_SectorUpdateDealIDs in H. destruct (foldl _ _ _); [|done].
    apply Some_inj in H. subst s'. split; [done|]; split; [done|]; split; [by left|by left].
Qed.

Lemma applyGlobal_cases e s w :
  ∃ st, (applyGlobal e s w).1.2 = s {{ State := st }} ∧
  (st = State s ∨ e = SectorForceState st ∨ (e = SectorTerminate ∧ st = Terminating) ∨
   (e = SectorRemove ∧ st = Removing)).
Proof.
  destruct s; destruct e; simpl; try (eexists; split; [reflexivity|]; by eauto).
Qed.

(** * Invariants *)

(** The states [planCommitting] can be in between two events. *)
Definition committing_states : list SectorState :=
  [Committing; SubmitCommit; CommitFinalize; ComputeProofFailed; RemoteCommitFailed;
   SealPreCommit1Failed; CommitFailed; CommitWait].

(** The sector after an event of [planCommitting]. *)
Definition action_state (a : committing_action) : option SectorInfo :=
  match a with Continue s _ | Stop s _ => Some s | Unknown => None end.

Ltac committing_elem := apply (bool_decide_unpack _); vm_compute; exact I.

Lemma planCommitting_event_frame e s w s' :
  is_global (TypeOf e) = false -> action_state (planCommitting_event e s w) = Some s' ->
  (State s' = State s ∨ State s' ∈ committing_states) ∧ SectorLog s' = SectorLog s ∧
  Return s' = Return s ∧ CCPieces s' = CCPieces s ∧ CCUpdate s' = CCUpdate s.
Proof.
  intros Hg H. destruct e; simpl in H, Hg; try discriminate; unfold apply_SectorProofReady in *;
    repeat (case_bool_decide || destruct (_ =? _)); simpl in H; apply Some_inj in H; subst s'.
  all: split; [|done].
  all: try (right; committing_elem).
  all: by left.
Qed.

(** An invariant of sectors, for events that are [good]: kept by the log, by the
    replacement of the deprecated state, by global events, by the transitions of
    the table and by [planCommitting]. *)
Record plan_invariant (Inv : SectorInfo → Prop) (good : Event → Prop) : Prop := mkPlanInvariant {
  Inv_log now l s : Inv s → Inv (logAppend now l s);
  Inv_packing s : Inv s → State s = PackingFailed → Inv (s {{ State := DealsExpired }});
  Inv_global e s w : is_global (TypeOf e) = true → good e → Inv s → Inv (applyGlobal e s w).1.2;
  Inv_transition now p tr e s s' w :
    (State s, p) ∈ fsmPlanners → tr ∈ transitions p → transition_type tr = TypeOf e → good e →
    Inv s → apply_event now e s = Some s' → Inv (next_of tr s' w).1.2;
  Inv_committing e s w s' :
    State s ∈ committing_states → is_global (TypeOf e) = false → good e → Inv s →
    action_state (planCommitting_event e s w) = Some s' → Inv s';
}.

Section Preserve.
Variable now : Z.
Variable json_Marshal : Event → option string.
Variables format_T format_trace : Event → string.
Variables error_message error_kind : option plan_error → string.
Variable getConfig : option (option Config).
Variable maddr : Z.
Variable currentSealProof_ok : bool.

Abbreviation logAppend := (logAppend now).
Abbreviation plan := (plan now json_Marshal format_T format_trace getConfig maddr currentSealProof_ok).
Abbreviation Plan := (Plan now json_Marshal format_T format_trace error_message error_kind
                        getConfig maddr currentSealProof_ok).

Variable Inv : SectorInfo → Prop.
Variable good : Event → Prop.
Hypothesis HInv : plan_invariant Inv good.

Lemma apply_keeps_state e t st p s s' :
  (st, p) ∈ fsmPlanners -> apply t ∈ transitions p -> t = TypeOf e ->
  apply_event now e s = Some s' -> State s' = State s.
Proof.
  intros Hp Htr -> H.
  assert (Hc : all_transitions (fun _ tr => match tr with
      | apply TSectorReceive => false | _ => true end) = true) by by vm_compute.
  pose proof (all_transitions_spec _ _ _ _ Hc Hp Htr) as Hne.
  destruct (apply_event_frame _ _ _ _ H) as [(s0 & -> & ->)|[Hs _]]; [done|done].
Qed.

Lemma planOne_loop_preserves p events : ∀ i s w r,
  (State s, p) ∈ fsmPlanners ∨ transitions p = [] -> Forall good events -> Inv s ->
  planOne_loop now (transitions p) i events s w = Some r -> Inv (planned_state r).
Proof.
  induction events as [|e events IH]; intros i s w r Hp Hg HI H; simpl in H; [by simplify_eq/=|].
  apply Forall_cons in Hg as [He Hg]. destruct (is_global (TypeOf e)) eqn:Eg.
  { pose proof (Inv_global _ _ HInv e s w Eg He HI). destruct (applyGlobal e s w) as [[b s'] w'].
    by simplify_eq/=. }
  destruct (find_transition _ _) as [tr|] eqn:Et.
  - destruct (find_transition_spec _ _ _ Et) as [Htr Hty].
    destruct Hp as [Hp|Hp]; [|by rewrite Hp in Htr; apply elem_of_nil in Htr].
    destruct (apply_event now e s) as [s'|] eqn:Ea; [|done].
    pose proof (Inv_transition _ _ HInv now p tr e s s' w Hp Htr Hty He HI Ea) as HI'.
    destruct tr as [t nx|t nx su nm|t|t]; simpl in *; try by simplify_eq/=.
    + apply (IH _ _ _ _) in H; [done| |done|done]. left.
      by rewrite (apply_keeps_state e t _ p s s' Hp Htr Hty Ea).
    + case_bool_decide; by simplify_eq/=.
  - destruct (is_ignorable _); [|by simplify_eq/=]. by apply (IH _ _ _ _ Hp Hg HI H).
Qed.

Lemma planCommitting_loop_preserves events : ∀ i s w,
  State s ∈ committing_states -> Forall good events -> Inv s ->
  Inv (planned_state (planCommitting_loop i events s w)).
Proof.
  induction events as [|e events IH]; intros i s w Hs Hg HI; simpl; [done|].
  apply Forall_cons in Hg as [He Hg]. destruct (is_global (TypeOf e)) eqn:Eg.
  - pose proof (Inv_global _ _ HInv e s w Eg He HI) as HI'.
    destruct e; simpl in Eg; try discriminate; simpl in *; try done. by apply IH.
  - pose proof (Inv_committing _ _ HInv e s w) as HC.
    destruct (planCommitting_event e s w) as [s' w'|s' w'|] eqn:E; [|by apply (HC s')|done].
    apply IH; [|done|by apply (HC s')].
    destruct (planCommitting_event_frame e s w s' Eg) as [[Hst|Hst] _]; [by rewrite E|..];
      by rewrite ?Hst.
Qed.
Lemma planCommitting_only st : (st, planCommitting) ∈ fsmPlanners -> st = Committing.
Proof.
  intros H. apply list_elem_of_In in H.
  assert (Hc : forallb (fun e => match e.2 with
      | planCommitting => bool_decide (e.1 = Committing) | _ => true end) fsmPlanners = true)
    by by vm_compute.
  rewrite forallb_forall in Hc. specialize (Hc _ H). by apply bool_decide_eq_true in Hc.
Qed.

Lemma run_planner_preserves p events s w r :
  (State s, p) ∈ fsmPlanners ∨ p = planOne [] -> Forall good events -> Inv s ->
  run_planner now p events s w = Some r -> Inv (planned_state r).
Proof.
  intros Hp Hg HI H. destruct p as [ts|ts| | |]; simpl in H.
  - apply (planOne_loop_preserves (planOne ts) events 0 s w r); try done.
    destruct Hp as [Hp|[= ->]]; auto.
  - unfold run_planOneOrIgnore in H. destruct (planOne_loop _ _ _ _ _ _) as [r'|] eqn:E; [|done].
    simplify_eq/=. destruct Hp as [Hp|?]; [|done].
    apply (planOne_loop_preserves (planOneOrIgnore ts) events 0 s w r'); auto.
  - destruct Hp as [Hp|?]; [|done]. simplify_eq/=. apply planCommitting_loop_preserves; [|done|done].
    rewrite (planCommitting_only _ Hp). committing_elem.
  - destruct events as [|e events]; simplify_eq/=; [done|]. apply Forall_cons in Hg as [He _].
    destruct (is_global (TypeOf e)) eqn:Eg; [|done].
    pose proof (Inv_global _ _ HInv e s w Eg He HI). by destruct (applyGlobal e s w) as [[b s'] w'].
  - by simplify_eq/=.
Qed.

Lemma logEvents_preserves events : ∀ s, Inv s ->
  Inv (logEvents now json_Marshal format_T format_trace events s).
Proof.
  unfold logEvents. induction events as [|e events IH]; intros s HI; simpl; [done|].
  apply IH. unfold logEvent. destruct (json_Marshal e); [|done].
  destruct e; try done; by apply (Inv_log _ _ HInv).
Qed.

Lemma select_planner_elem events st p :
  select_planner events st = Some p -> (st, p) ∈ fsmPlanners ∨ p = planOne [].
Proof.
  unfold select_planner. destruct (planner_of st) as [p'|] eqn:E.
  - intros [= ->]. left. by apply planner_of_elem.
  - destruct events as [|e [|]]; try done. destruct (is_global _); [|done]. intros [= <-]. by right.
Qed.

Lemma plan_preserves events s m r :
  Forall good events -> Inv s -> plan events s m = Some r -> Inv (result_state r).
Proof.
  intros Hg HI. unfold plan, SectorFSM.plan.
  pose proof (logEvents_preserves events s HI) as HL. revert HL.
  set (s1 := logEvents _ _ _ _ _ _). intros HL.
  destruct (select_planner _ _) as [p|] eqn:Ep; [|intros H; by simplify_eq/=].
  destruct (run_planner _ _ _ _ _) as [q|] eqn:Er; [|done].
  pose proof (run_planner_preserves p events s1 (world m) q (select_planner_elem _ _ _ Ep) Hg HL Er)
    as HQ.
  intros H. simpl in H. destruct (plan_err q); [by simplify_eq/=|].
  unfold next_handler in H. repeat case_bool_decide; simplify_eq/=; try done.
  by apply (Inv_packing _ _ HInv).
Qed.

(** What the table, the global events and [planCommitting] preserve, [Plan]
    preserves. *)
Lemma Plan_preserves events s m r :
  Forall good events -> Inv s -> Plan events s m = Some r -> Inv (result_state r).
Proof.
  intros Hg HI. unfold Plan, SectorFSM.Plan.
  destruct (SectorFSM.plan _ _ _ _ _ _ _ _ _ _) as [q|] eqn:E; [|done].
  pose proof (plan_preserves events s m q Hg HI E) as HQ. intros H. simpl in H.
  destruct (result_err q), (next q); simplify_eq/=; try done; by apply (Inv_log _ _ HInv).
Qed.

End Preserve.

(** Sectors reached from [s0] by batches of good events, whatever the clock, the
    configuration and the other sectors are at each. *)
Inductive reaches (good : Event → Prop) (s0 : SectorInfo) : SectorInfo → Prop :=
  | reaches_start : reaches good s0 s0
  | reaches_Plan now json fT ft em ek cfg maddr ok s m events r :
      reaches good s0 s -> Forall good events ->
      Plan now json fT ft em ek cfg maddr ok events s m = Some r ->
      reaches good s0 (result_state r).

Lemma reaches_preserves Inv good s0 s :
  plan_invariant Inv good -> Inv s0 -> reaches good s0 s -> Inv s.
Proof.
  intros HInv H0 H. induction H as [|now json fT ft em ek cfg maddr ok s m events r _ IH Hg HP];
    [done|]. by apply (Plan_preserves _ _ _ _ _ _ _ _ _ _ _ HInv _ _ _ _ Hg IH HP).
Qed.

Lemma logAppend_frame now l s :
  ∃ log, logAppend now l s = s {{ SectorLog := log }}.
Proof. eexists. reflexivity. Qed.

(** * States stay in the table *)

Definition known (st : SectorState) : bool :=
  match planner_of st with Some _ => true | None => false end.

#[local] Opaque known.

(** Events that name a state name one that has a planner. *)
Definition names_known (e : Event) : Prop :=
  match e with
  | SectorForceState st => known st = true
  | SectorInvalidDealIDs ret => known ret = true
  | SectorReceive s => known (Return s) = true
  | _ => True
  end.

Definition in_table (s : SectorInfo) : Prop := known (State s) = true ∧ known (Return s) = true.

Lemma targets_known : all_transitions (fun _ tr => match tr with
    | on _ st | onWithCB _ st _ _ => known st
    | apply TSectorReceive | onReturning TSectorReceive => false
    | _ => true end) = true.
Proof. by vm_compute. Qed.

Lemma Return_known now e s s' :
  names_known e -> known (Return s) = true -> apply_event now e s = Some s' ->
  known (Return s') = true.
Proof.
  intros He HR H. destruct (apply_event_frame _ _ _ _ H) as [(s0 & -> & ->)|(_ & _ & HR' & _)]; [done|].
  by destruct HR' as [->|(r & -> & ->)].
Qed.

Lemma in_table_invariant : plan_invariant in_table names_known.
Proof.
  split.
  - intros now l s HI. by destruct (logAppend_frame now l s) as [log ->].
  - intros s [_ HR] _. split; [vm_compute; reflexivity|exact HR].
  - intros e s w Hg He [HS HR]. destruct (applyGlobal_cases e s w) as (st & -> & Hst).
    split; [|done]. simpl. destruct Hst as [->|[->|[[_ ->]|[_ ->]]]];
      [exact HS|exact He|vm_compute; reflexivity..].
  - intros now p tr e s s' w Hp Htr Hty He [HS HR] Ha.
    pose proof (all_transitions_spec _ _ _ _ targets_known Hp Htr) as Hc.
    pose proof (Return_known now e s s' He HR Ha) as HR'.
    destruct tr as [t nx|t nx su nm|t|t]; simpl in *; [exact (conj Hc HR')..| |].
    + split; [|exact HR']. rewrite (apply_keeps_state now e t _ p s s' Hp Htr Hty Ha). exact HS.
    + destruct (apply_event_frame _ _ _ _ Ha) as [(s0 & -> & ->)|(Hs & _)]; [subst t; discriminate Hc|].
      case_bool_decide; split; simpl; [rewrite Hs; exact HS|exact HR'|exact HR'|vm_compute; reflexivity].
  - intros e s w s' Hs Hg He [HS HR] Ha.
    destruct (planCommitting_event_frame e s w s' Hg Ha) as (Hst & _ & HR' & _).
    split; [|rewrite HR'; exact HR].
    destruct Hst as [->|Hst]; [exact HS|].
    assert (Hk : forallb known committing_states = true) by by vm_compute.
    rewrite forallb_forall in Hk. apply Hk, list_elem_of_In, Hst.
Qed.

(** States for which [plan] has no handler. *)
Definition unhandled : list SectorState :=
  [UndefinedSectorState; Removed; FaultedFinal; FailedUnrecoverable].

Lemma known_elem st : known st = true -> st ∈ map fst fsmPlanners.
Proof.
  intros Hk. with_strategy transparent [known] unfold known in Hk.
  destruct (planner_of st) as [p|] eqn:E; [|done].
  apply planner_of_elem in E. exact (list_elem_of_fmap_2 fst _ _ E).
Qed.

Lemma handler_of_known st :
  known st = true -> st ∉ unhandled ->
  is_Some (snd <$> find (fun e => bool_decide (e.1 = st)) handlers).
Proof.
  intros Hk Hu. apply known_elem in Hk.
  assert (Hc : forallb (fun st => bool_decide (st ∈ unhandled) ||
      bool_decide (is_Some (snd <$> find (fun e => bool_decide (e.1 = st)) handlers)))
      (map fst fsmPlanners) = true) by by vm_compute.
  rewrite forallb_forall in Hc. specialize (Hc st ltac:(by apply list_elem_of_In)).
  apply orb_true_iff in Hc as [Hc|Hc]; apply bool_decide_eq_true in Hc; done.
Qed.

Lemma next_handler_known n s :
  known (State s) = true -> State (next_handler n s).2 ∉ unhandled ->
  is_Some (next_handler n s).1.1.
Proof.
  intros Hk Hu. unfold next_handler in *. case_bool_decide as Hp; [|case_bool_decide as Hr].
  - simpl. rewrite Hp. by eexists.
  - by apply handler_of_known.
  - by apply handler_of_known.
Qed.

Lemma in_table_zero : in_table zeroSectorInfo.
Proof. split; vm_compute; reflexivity. Qed.

(** The parts of [plan] that a batch accepted by a planner goes through. *)
Lemma plan_inv now json fT ft cfg maddr ok events s m r :
  plan now json fT ft cfg maddr ok events s m = Some r ->
  let s1 := logEvents now json fT ft events s in
  (select_planner events (State s1) = None ∧
     r = mkPlanResult None 0 (Some PlannerNotFound) s1 m) ∨
  ∃ p q, select_planner events (State s1) = Some p ∧
    run_planner now p events s1 (world m) = Some q ∧
    ((∃ e, plan_err q = Some e ∧ next r = None ∧ result_processed r = processed q ∧
        result_err r = Some e ∧ result_state r = planned_state q ∧
        world (result_sealing r) = planned_world q) ∨
     (plan_err q = None ∧ result_err r = None ∧
        next_handler (processed q) (planned_state q) = (next r, result_processed r, result_state r))).
Proof.
  intros H s1. unfold plan in H. fold s1 in H.
  destruct (select_planner events (State s1)) as [p|]; [|left; by simplify_eq].
  right. destruct (run_planner _ _ _ _ _) as [q|] eqn:Er; [|done]. simpl in H.
  exists p, q. split; [done|]. split; [done|].
  destruct (plan_err q) as [e|]; [left; exists e; by simplify_eq/=|right].
  destruct (next_handler _ _) as [[h n] s'] eqn:En. by simplify_eq/=.
Qed.

Lemma logEvent_frame now json fT ft e s :
  ∃ log, logEvent now json fT ft e s = s {{ SectorLog := log }}.
Proof.
  unfold logEvent. destruct (json e); [|exists (SectorLog s); by destruct s].
  destruct e; try apply logAppend_frame. exists (SectorLog s). by destruct s.
Qed.

Lemma logEvents_frame now json fT ft events : ∀ s,
  ∃ log, logEvents now json fT ft events s = s {{ SectorLog := log }}.
Proof.
  unfold logEvents. induction events as [|e events IH]; intros s.
  - exists (SectorLog s). by destruct s.
  - cbn [foldl]. destruct (logEvent_frame now json fT ft e s) as [log ->].
    destruct (IH (s {{ SectorLog := log }})) as [log' ->]. by exists log'.
Qed.

Lemma logEvents_State now json fT ft events s :
  State (logEvents now json fT ft events s) = State s.
Proof.
  by destruct (logEvents_frame now json fT ft events s) as [log ->].
Qed.

Lemma run_planner_no_lookup_error now p events s w q :
  run_planner now p events s w = Some q -> plan_err q ≠ Some PlannerNotFound.
Proof.
  assert (Hone : ∀ ts events i s w q, planOne_loop now ts i events s w = Some q ->
    plan_err q ≠ Some PlannerNotFound).
  { intros ts evs. induction evs as [|e evs IH]; intros i s' w' q' H; simpl in H; [by simplify_eq/=|].
    destruct (is_global _); [destruct (applyGlobal _ _ _) as [[? ?] ?]; by simplify_eq/=|].
    destruct (find_transition _ _) as [tr|].
    - destruct (apply_event _ _ _); [|done].
      destruct tr; simpl in H; try case_bool_decide; simplify_eq/=; try done; by eapply IH.
    - destruct (is_ignorable _); [by eapply IH|by simplify_eq/=]. }
  destruct p as [ts|ts| | |]; simpl; intros H.
  - by eapply Hone.
  - unfold run_planOneOrIgnore in H. destruct (planOne_loop _ _ _ _ _ _); [|done]. by simplify_eq/=.
  - simplify_eq/=. generalize 0%nat as i. revert s w.
    induction events as [|e events IH]; intros s w i; simpl; [done|].
    by destruct (planCommitting_event _ _ _).
  - simplify_eq/=. destruct events as [|e events]; [done|]. simpl.
    destruct (is_global _); [|done]. by destruct (applyGlobal _ _ _) as [[? ?] ?].
  - by simplify_eq/=.
Qed.

(** C34: a sector that starts undefined and receives batches of events that name
    only states with a planner stays in such states; every batch finds its
    planner, and when a batch is accepted the machine has a handler to run unless
    the sector is undefined, removed or failed for good. *)
Theorem plan_stays_in_table now json fT ft cfg maddr ok events s m r :
  reaches names_known zeroSectorInfo s -> Forall names_known events ->
  plan now json fT ft cfg maddr ok events s m = Some r ->
  known (State (result_state r)) = true ∧
  result_err r ≠ Some PlannerNotFound ∧
  (result_err r = None → State (result_state r) ∉ unhandled → is_Some (next r)).
Proof.
  intros Hr Hg H.
  pose proof (reaches_preserves _ _ _ _ in_table_invariant in_table_zero Hr) as [HS HR].
  pose proof (plan_preserves now json fT ft cfg maddr ok _ _ in_table_invariant
    events s m r Hg (conj HS HR) H) as [HS' _].
  split; [exact HS'|]. apply plan_inv in H as [[Hn _]|(p & q & Hsel & Hrun & Hcase)].
  - exfalso. rewrite logEvents_State in Hn. unfold select_planner in Hn.
    with_strategy transparent [known] unfold known in HS. by destruct (planner_of (State s)).
  - pose proof (run_planner_no_lookup_error _ _ _ _ _ _ Hrun) as Hne.
    pose proof (run_planner_preserves now _ _ in_table_invariant p events _ _ q
      (select_planner_elem _ _ _ Hsel) Hg
      (logEvents_preserves now json fT ft _ _ in_table_invariant events s (conj HS HR)) Hrun) as [HQ _].
    destruct Hcase as [(e & He & _ & _ & -> & _)|(He & -> & Hnext)]; [by split; [rewrite <- He|]|].
    split; [done|]. intros _ Hu. pose proof (next_handler_known (processed q) _ HQ) as Hh.
    rewrite Hnext in Hh. by apply Hh.
Qed.

(** A machine that only marshals events to nothing. *)
Module FSMExample.
Definition sealing0 : Sealing := mkSealing emptyWorld newSectorStats 0.

(** [Plan] at a fixed time with a silent formatter. *)
Definition plan0 : list Event → SectorInfo → Sealing → option planResult :=
  plan 1 (fun _ => Some EmptyString) (fun _ => EmptyString) (fun _ => EmptyString) None 1000 true.

Definition Plan0 : list Event → SectorInfo → Sealing → option planResult :=
  Plan 1 (fun _ => Some EmptyString) (fun _ => EmptyString) (fun _ => EmptyString)
    (fun _ => EmptyString) (fun _ => EmptyString) None 1000 true.
End FSMExample.

Lemma plan_stays_in_table_witness :
  ∃ r, FSMExample.plan0 [SectorStartCC 7 8] zeroSectorInfo FSMExample.sealing0 = Some r ∧
    known (State (result_state r)) = true ∧ is_Some (next r).
Proof.
  eexists. split; [vm_compute; reflexivity|].
  eassert (HP : FSMExample.plan0 [SectorStartCC 7 8] zeroSectorInfo FSMExample.sealing0 = Some _)
    by (vm_compute; reflexivity).
  destruct (plan_stays_in_table _ _ _ _ _ _ _ [SectorStartCC 7 8] zeroSectorInfo _ _
    (reaches_start _ _) ltac:(by repeat constructor) HP) as (Hk & _ & Hn).
  split; [exact Hk|]. apply Hn; [reflexivity|]. by apply (bool_decide_unpack _).
Defined.
