(* ===== verification/SectorTheorems.v ===== *)
(** What the sealing state machine guarantees: batches make progress and cause at
    most one transition, sectors prove only after the chain accepted a proof,
    upgrades can be aborted without loss, removed sectors stay removed. *)

From coqutil Require Import Datatypes.RecordSetters.
From S2P Require Import Prelude Types SectorTypes SectorEvents SectorStats SectorFSM SectorProps.
Import DoubleBraceUpdate.

(** * Progress *)

Lemma planOne_loop_processed now ts events : ∀ i s w q,
  planOne_loop now ts i events s w = Some q ->
  (i ≤ processed q ≤ i + length events)%nat ∧ (events ≠ [] → (i < processed q)%nat).
Proof.
  induction events as [|e events IH]; intros i s w q H; simpl in H; [simplify_eq/=; by split; [lia|]|].
  assert (Hrec : ∀ s' w', planOne_loop now ts (S i) events s' w' = Some q ->
    (i ≤ processed q ≤ i + length (e :: events))%nat ∧ (e :: events ≠ [] → (i < processed q)%nat)).
  { intros s' w' Hq. apply IH in Hq as [? _]. simpl. split; [lia|intros _; lia]. }
  destruct (is_global _).
  { destruct (applyGlobal _ _ _) as [[? ?] ?]. simplify_eq/=. split; [lia|intros _; lia]. }
  destruct (find_transition _ _) as [tr|].
  - destruct (apply_event _ _ _) as [s'|]; [|done]. destruct (next_of tr s' w) as [[[[]|err] s2] w2];
      [by eapply Hrec|simplify_eq/=; split; [lia|intros _; lia]..].
  - destruct (is_ignorable _); [by eapply Hrec|]. simplify_eq/=. split; [lia|intros _; lia].
Qed.

(** The events [planCommitting] knows. *)
Definition committing_events : list EventType :=
  [TSectorCommitted; TSectorProofReady; TSectorSeedReady; TSectorComputeProofFailed;
   TSectorRemoteCommit1Failed; TSectorRemoteCommit2Failed; TSectorSealPreCommit1Failed;
   TSectorCommitFailed; TSectorRetryCommitWait].

Definition committing_accepts (e : Event) : bool :=
  is_global (TypeOf e) || bool_decide (TypeOf e ∈ committing_events).

Lemma planCommitting_event_Unknown e s w :
  planCommitting_event e s w = Unknown ↔ committing_accepts e = false.
Proof.
  destruct e; simpl; try (split; [|vm_compute]; done).
  destruct (_ && _); split; (done || by vm_compute).
Qed.

Lemma planCommitting_loop_processed events : ∀ i s w,
  let q := planCommitting_loop i events s w in
  (i ≤ processed q ≤ i + length events)%nat ∧
  ∀ e rest, events = e :: rest → processed q = i ↔ committing_accepts e = false.
Proof.
  induction events as [|e events IH]; intros i s w; simpl; [by split; [lia|]|].
  pose proof (planCommitting_event_Unknown e s w) as HU.
  destruct (planCommitting_event e s w) as [s' w'|s' w'|]; simpl.
  - destruct (IH (S i) s' w') as [Hle _]. split; [lia|]. intros ? ? [= <- <-].
    split; [lia|]. intros Hf. by apply HU in Hf.
  - split; [lia|]. intros ? ? [= <- <-]. split; [lia|]. intros Hf. by apply HU in Hf.
  - split; [lia|]. intros ? ? [= <- <-]. by split; [intros _; apply HU|].
Qed.

(** The first event of a batch that leaves the planner without progress. *)
Definition refuses (p : planner) (e : Event) : bool :=
  match p with
  | final => negb (is_global (TypeOf e))
  | planCommitting => negb (committing_accepts e)
  | _ => false
  end.

Lemma run_planner_processed now p e rest s w q :
  run_planner now p (e :: rest) s w = Some q ->
  (processed q ≤ length (e :: rest))%nat ∧ (processed q = 0%nat ↔ refuses p e = true).
Proof.
  destruct p as [ts|ts| | |]; simpl; intros H.
  - apply (planOne_loop_processed now ts (e :: rest) 0 s w q) in H as [Hle Hlt].
    simpl in Hle. specialize (Hlt ltac:(done)). split; [lia|]. split; [lia|done].
  - unfold run_planOneOrIgnore in H. destruct (planOne_loop _ _ _ _ _ _) as [q'|] eqn:E; [|done].
    apply planOne_loop_processed in E as [Hle Hlt]. simplify_eq/=. specialize (Hlt ltac:(done)).
    split; [lia|]. split; [lia|done].
  - destruct (planCommitting_loop_processed (e :: rest) 0 s w) as [Hle Hz].
    simplify_eq. split; [exact (proj2 Hle)|]. rewrite negb_true_iff. by apply (Hz e rest).
  - simplify_eq. unfold run_final. destruct (is_global _); simpl.
    + destruct (applyGlobal _ _ _) as [[? ?] ?]. simpl. split; [lia|done].
    + split; [lia|done].
  - simplify_eq. by split.
Qed.

(** a non-empty batch is consumed at least in part, and never more than in
    whole, with four exceptions, in which nothing is consumed: no planner is found,
    a final state gets an event that is not global, [planCommitting] gets an event
    it does not know, or the batch leaves the sector in [ReleaseSectorKeyFailed]. *)
Theorem plan_progress now json fT ft cfg maddr ok e rest s m r :
  plan now json fT ft cfg maddr ok (e :: rest) s m = Some r ->
  (result_processed r ≤ length (e :: rest))%nat ∧
  (result_processed r = 0%nat ↔
     match select_planner (e :: rest) (State s) with
     | None => True
     | Some p => refuses p e = true
     end ∨ (result_err r = None ∧ State (result_state r) = ReleaseSectorKeyFailed)).
Proof.
  intros H. apply plan_inv in H as [[Hn ->]|(p & q & Hsel & Hrun & Hcase)];
    rewrite logEvents_State in *.
  { rewrite Hn. simpl. split; [lia|]. by split; [left|]. }
  rewrite Hsel. apply run_planner_processed in Hrun as [Hle Hz].
  destruct Hcase as [(err & He & _ & Hpr & Herr & _)|(He & Herr & Hnext)]; rewrite Herr.
  - rewrite Hpr. split; [done|]. rewrite Hz. split; [by left|by intros [?|[? _]]].
  - unfold next_handler in Hnext.
    case_bool_decide as Hp; [|case_bool_decide as Hr];
      injection Hnext as _ <- <-.
    + split; [exact Hle|]. rewrite Hz. split; [by left|by intros [?|[_ ?]]].
    + split; [lia|]. split; [intros _; by right|done].
    + split; [exact Hle|]. rewrite Hz. split; [by left|by intros [?|[_ ?]]].
Qed.

Lemma plan_progress_witness :
  ∃ r, FSMExample.plan0 [SectorStartPacking; SectorAddPiece] (zeroSectorInfo {{ State := Packing }})
         FSMExample.sealing0 = Some r ∧ (1 ≤ result_processed r ≤ 2)%nat.
Proof.
  eexists. split; [vm_compute; reflexivity|].
  eassert (HP : FSMExample.plan0 [SectorStartPacking; SectorAddPiece]
    (zeroSectorInfo {{ State := Packing }}) FSMExample.sealing0 = Some _)
    by (vm_compute; reflexivity).
  destruct (plan_progress _ _ _ _ _ _ _ _ _ _ _ _ HP) as [Hle Hz]. split; [|exact Hle].
  destruct (result_processed _) eqn:E in |- *; [|lia]. exfalso.
  apply Hz in E as [Hf|[Hf _]]; vm_compute in Hf; discriminate Hf.
Defined.

(** * One transition per batch *)

(** [planOne] counts on from the index it is given. *)
Lemma planOne_loop_shift now ts events k : ∀ i s w,
  planOne_loop now ts (k + i) events s w =
  (fun q => mkPlanned (k + processed q) (plan_err q) (planned_state q) (planned_world q)) <$>
    planOne_loop now ts i events s w.
Proof.
  induction events as [|e events IH]; intros i s w; simpl; [done|].
  destruct (is_global _).
  { destruct (applyGlobal _ _ _) as [[? ?] ?]. simpl. by rewrite Nat.add_succ_r. }
  destruct (find_transition _ _) as [tr|].
  - destruct (apply_event _ _ _) as [s'|]; [|done].
    destruct (next_of tr s' w) as [[[[]|err] s2] w2]; simpl; by rewrite <- Nat.add_succ_r.
  - destruct (is_ignorable _); simpl; rewrite <- Nat.add_succ_r; [apply IH|done].
Qed.

(** A planner either stops at the first event of a batch, or absorbs it: then
    neither the state nor the world changed and it goes on with the rest. *)
Lemma planOne_loop_head now p e s w :
  (State s, p) ∈ fsmPlanners ->
  (∃ s1, State s1 = State s ∧
     planOne_loop now (transitions p) 0 [e] s w = Some (mkPlanned 1 None s1 w) ∧
     ∀ rest, planOne_loop now (transitions p) 0 (e :: rest) s w =
             planOne_loop now (transitions p) 1 rest s1 w) ∨
  (∀ rest, planOne_loop now (transitions p) 0 (e :: rest) s w =
           planOne_loop now (transitions p) 0 [e] s w).
Proof.
  intros Hp. simpl. destruct (is_global _).
  { right. by destruct (applyGlobal _ _ _) as [[? ?] ?]. }
  destruct (find_transition _ _) as [tr|] eqn:Et.
  - apply find_transition_spec in Et as [Htr Hty].
    destruct (apply_event now e s) as [s'|] eqn:Ea; [|by right].
    destruct tr as [t nx|t nx su nm|t|t]; simpl; try by right.
    + left. exists s'. split; [|done]. exact (apply_keeps_state now e t _ p s s' Hp Htr Hty Ea).
    + right. by case_bool_decide.
  - destruct (is_ignorable _); [|by right]. left. by exists s.
Qed.

(** a planner built by [planOne] makes at most one transition per batch: the
    batch splits into events it absorbed without changing the state or the world,
    the last event it processed, whose effect is that of delivering it alone, and
    events that stay pending for the planner of the new state. *)
Theorem planOne_single_move now p events s w q :
  (State s, p) ∈ fsmPlanners -> events ≠ [] ->
  planOne_loop now (transitions p) 0 events s w = Some q ->
  ∃ absorbed e pending s1,
    events = absorbed ++ e :: pending ∧
    processed q = S (length absorbed) ∧
    State s1 = State s ∧
    planOne_loop now (transitions p) 0 absorbed s w = Some (mkPlanned (length absorbed) None s1 w) ∧
    planOne_loop now (transitions p) 0 [e] s1 w =
      Some (mkPlanned 1 (plan_err q) (planned_state q) (planned_world q)).
Proof.
  revert s w q. induction events as [|e events IH]; intros s w q Hp Hne H; [done|].
  destruct (planOne_loop_head now p e s w Hp) as [(s1 & Hs1 & He & Hrest)|Hstop].
  - rewrite Hrest in H. rewrite (planOne_loop_shift _ _ _ 1 0) in H.
    destruct (planOne_loop _ _ 0 events s1 w) as [q'|] eqn:Eq; [|done].
    destruct events as [|e2 events].
    { exists [], e, [], s. simplify_eq/=. by rewrite He. }
    simpl in H. apply Some_inj in H. subst q.
    destruct (IH s1 w q') as (abs & e' & pend & s2 & Hev & Hpr & Hs2 & Habs & Hlast);
      [by rewrite Hs1|done|done|].
    exists (e :: abs), e', pend, s2. rewrite Hev. split; [done|]. split; [simpl; by rewrite Hpr|].
    split; [congruence|]. split; [|exact Hlast].
    rewrite Hrest, (planOne_loop_shift _ _ _ 1 0), Habs. done.
  - rewrite Hstop in H. exists [], e, events, s. split; [done|].
    assert (Hpr : processed q = 1%nat).
    { apply planOne_loop_processed in H as [Hle Hlt]. simpl in Hle. specialize (Hlt ltac:(done)). lia. }
    split; [done|]. split; [done|]. split; [done|]. rewrite H. by destruct q; simpl in *; subst.
Qed.

Lemma planOne_single_move_witness :
  let s := zeroSectorInfo {{ State := SnapDealsAddPieceFailed }} in
  ∃ q absorbed, planOne_loop 1 (transitions (planOne [on TSectorRetryWaitDeals SnapDealsWaitDeals;
          apply TSectorStartPacking; apply TSectorAddPiece; on TSectorAbortUpgrade AbortUpgrade]))
        0 [SectorAddPiece; SectorRetryWaitDeals; SectorAddPiece] s emptyWorld = Some q ∧
    processed q = 2%nat ∧ processed q = S (length (A := Event) absorbed).
Proof.
  intros s. eexists.
  destruct (planOne_single_move 1 (planOne [on TSectorRetryWaitDeals SnapDealsWaitDeals;
      apply TSectorStartPacking; apply TSectorAddPiece; on TSectorAbortUpgrade AbortUpgrade])
    [SectorAddPiece; SectorRetryWaitDeals; SectorAddPiece] s emptyWorld _
    ltac:(apply planner_of_elem; vm_compute; reflexivity) ltac:(done)
    ltac:(vm_compute; reflexivity)) as (abs & e & pend & s1 & Hev & Hpr & _).
  exists abs. split; [vm_compute; reflexivity|]. split; [reflexivity|exact Hpr].
Defined.

(** * Sectors prove only after the chain accepted a proof *)

(** The states a sector can be in before its commitment landed on chain. *)
Definition before_proof : list SectorState :=
  [UndefinedSectorState; WaitDeals; AddPiece; Packing; GetTicket; PreCommit1; PreCommit2;
   PreCommitting; PreCommitWait; SubmitPreCommitBatch; PreCommitBatchWait; WaitSeed; Committing;
   CommitFinalize; CommitFinalizeFailed; SubmitCommit; CommitWait; SubmitCommitAggregate;
   CommitAggregateWait; AddPieceFailed; SealPreCommit1Failed; SealPreCommit2Failed;
   PreCommitFailed; ComputeProofFailed; RemoteCommitFailed; CommitFailed; DealsExpired;
   RecoverDealIDs; Terminating; TerminateWait; TerminateFinality; TerminateFailed; Removing;
   RemoveFailed; Removed].

Definition return_states : list string :=
  [RetPreCommit1; RetPreCommitting; RetPreCommitFailed; RetCommitFailed].

(** Every event but the confirmation [SectorProving], imports of sealed sectors
    and forced states; invalid deals return to one of the [Ret*] states, or to none, as
    the handlers send them. *)
Definition unconfirmed (e : Event) : Prop :=
  match e with
  | SectorProving | SectorReceive _ | SectorForceState _ => False
  | SectorInvalidDealIDs ret => ret = EmptyString ∨ ret ∈ return_states
  | _ => True
  end.

Definition not_proven (s : SectorInfo) : Prop :=
  State s ∈ before_proof ∧ (Return s = EmptyString ∨ Return s ∈ return_states).

Definition before (st : SectorState) : bool := bool_decide (st ∈ before_proof).

Lemma before_proof_closed : all_transitions (fun st tr => negb (before st) ||
    match tr with
    | on t next | onWithCB t next _ _ =>
        before next || bool_decide (t ∈ [TSectorProving; TSectorReceive])
    | apply t | onReturning t => negb (bool_decide (t = TSectorReceive))
    end) = true.
Proof. by vm_compute. Qed.

Lemma Return_unconfirmed now e s s' :
  unconfirmed e -> (Return s = EmptyString ∨ Return s ∈ return_states) ->
  apply_event now e s = Some s' ->
  State s' = State s ∧ (Return s' = EmptyString ∨ Return s' ∈ return_states).
Proof.
  intros He HR H. destruct (apply_event_frame _ _ _ _ H) as [(s0 & -> & ->)|(HS & _ & HR' & _)]; [done|].
  split; [done|]. destruct HR' as [->|(r & -> & ->)]; done.
Qed.

Lemma return_states_before r : r ∈ return_states -> r ∈ before_proof.
Proof.
  intros H. repeat (apply elem_of_cons in H as [->|H];
    [apply (bool_decide_unpack _); vm_compute; exact I|]). by apply elem_of_nil in H.
Qed.

Lemma not_proven_invariant : plan_invariant not_proven unconfirmed.
Proof.
  split.
  - intros now l s HI. by destruct (logAppend_frame now l s) as [log ->].
  - intros s [Hs _] Hp. rewrite Hp in Hs. apply (bool_decide_pack _) in Hs. by vm_compute in Hs.
  - intros e s w Hg He [HS HR]. destruct (applyGlobal_cases e s w) as (st & -> & Hst).
    split; [|exact HR]. simpl. destruct Hst as [->|[->|[[_ ->]|[_ ->]]]]; [exact HS|done|..];
      apply (bool_decide_unpack _); vm_compute; exact I.
  - intros now p tr e s s' w Hp Htr Hty He [HS HR] Ha.
    pose proof (all_transitions_spec _ _ _ _ before_proof_closed Hp Htr) as Hc.
    destruct (Return_unconfirmed now e s s' He HR Ha) as [HS' HR'].
    unfold before in Hc. rewrite (bool_decide_true (State s ∈ before_proof)) in Hc by done.
    simpl in Hc. destruct tr as [t nx|t nx su nm|t|t]; simpl in *.
    1-2: split; [|exact HR']; apply orb_true_iff in Hc as [Hc|Hc];
         apply bool_decide_eq_true in Hc; [exact Hc|exfalso]; rewrite Hty in Hc;
         by destruct e; try done; apply (bool_decide_pack _) in Hc; vm_compute in Hc.
    + split; [by rewrite HS'|exact HR'].
    + clear Hc. case_bool_decide as Hret; split; simpl; [by rewrite HS'|exact HR'| |by left].
      destruct HR' as [?|HR']; [done|]. by apply return_states_before.
  - intros e s w s' Hs Hg He [HS HR] Ha.
    destruct (planCommitting_event_frame e s w s' Hg Ha) as (Hst & _ & HR' & _).
    split; [|by rewrite HR']. destruct Hst as [->|Hst]; [exact HS|].
    repeat (apply elem_of_cons in Hst as [->|Hst];
      [apply (bool_decide_unpack _); vm_compute; exact I|]). by apply elem_of_nil in Hst.
Qed.

(** States of a sector with a commitment on chain. *)
Definition after_proof : list SectorState :=
  [FinalizeSector; FinalizeFailed; Proving; Available; SnapDealsWaitDeals; SnapDealsAddPiece;
   SnapDealsPacking; UpdateReplica; ProveReplicaUpdate; SubmitReplicaUpdate; ReplicaUpdateWait;
   FinalizeReplicaUpdate; UpdateActivating; ReleaseSectorKey; SnapDealsAddPieceFailed;
   SnapDealsDealsExpired; SnapDealsRecoverDealIDs; AbortUpgrade; ReplicaUpdateFailed;
   ReleaseSectorKeyFailed; FinalizeReplicaUpdateFailed; Faulty; FaultReported; FaultedFinal].

(** C4: until [SectorProving] confirms that the chain accepted the commitment, and
    short of imports and forced states, a new sector reaches neither [Proving] nor
    [FinalizeSector], the finalization that follows the confirmation, nor any state of
    an upgrade or a fault, whatever other events arrive, in whatever batches.  The
    early finalization in [CommitFinalize] comes before the confirmation.  Events for
    invalid deals carry the empty return state or one of the four that the handlers
    send. *)
Theorem Proving_needs_confirmation s :
  reaches unconfirmed zeroSectorInfo s -> State s ∉ after_proof.
Proof.
  intros H Hin.
  assert (H0 : not_proven zeroSectorInfo)
    by (split; [apply (bool_decide_unpack _); vm_compute; exact I|by left]).
  destruct (reaches_preserves _ _ _ s not_proven_invariant H0 H) as [HS _].
  assert (Hd : forallb (fun st => negb (before st)) after_proof = true) by by vm_compute.
  rewrite forallb_forall in Hd. specialize (Hd (State s) ltac:(by apply list_elem_of_In)).
  unfold before in Hd. by rewrite bool_decide_true in Hd.
Qed.

(** The life of a committed capacity sector up to [Proving]. *)
Definition cc_lifecycle : list Event :=
  [SectorStartCC 7 8; SectorPacked []; SectorTicket "t" 10; SectorPreCommit1 "pc1";
   SectorPreCommit2 "r" "d"; SectorPreCommitted "pm" 5; SectorPreCommitLanded "ts";
   SectorSeedReady "seed" 20; SectorCommitted "proof"; SectorCommitSubmitted "cm";
   SectorProving; SectorFinalized].

(** One event at a time. *)
Fixpoint drive (events : list Event) (s : SectorInfo) : option SectorInfo :=
  match events with
  | [] => Some s
  | e :: rest => r ← FSMExample.Plan0 [e] s FSMExample.sealing0; drive rest (result_state r)
  end.

Lemma drive_reaches good events : ∀ s0 s s',
  Forall good events -> reaches good s0 s -> drive events s = Some s' -> reaches good s0 s'.
Proof.
  induction events as [|e events IH]; intros s0 s s' Hg Hr H; simpl in H; [by simplify_eq|].
  apply Forall_cons in Hg as [He Hg].
  destruct (FSMExample.Plan0 [e] s FSMExample.sealing0) as [r|] eqn:E; [|done]. simpl in H.
  apply (IH s0 (result_state r) s'); [done| |done].
  eapply reaches_Plan; [exact Hr| |exact E]. by repeat constructor.
Qed.

Lemma cc_lifecycle_proves : State <$> drive cc_lifecycle zeroSectorInfo = Some Proving.
Proof. vm_compute. reflexivity. Qed.

Lemma Proving_needs_confirmation_witness :
  ∃ s, drive (take 10 cc_lifecycle) zeroSectorInfo = Some s ∧ State s ∉ after_proof.
Proof.
  eexists. split; [vm_compute; reflexivity|]. apply Proving_needs_confirmation.
  apply (drive_reaches unconfirmed (take 10 cc_lifecycle) zeroSectorInfo zeroSectorInfo);
    [by repeat constructor|apply reaches_start|vm_compute; reflexivity].
Defined.

(** * Aborted upgrades *)



















(** * The log *)

Lemma log_sizes :
  Z.of_nat 2000 = 2000 ∧ Z.of_nat 6000 = 6000 ∧ Z.of_nat 8000 = 8000.
Proof. vm_compute. done. Qed.

(** What [logAppend] leaves: the entry that marks a truncation is overwritten by
    the truncation itself. *)
Lemma logAppend_log now l s :
  SectorLog (logAppend now l s) =
  (if bool_decide (8000 < length (SectorLog s))%nat
   then take 2000 (SectorLog s) ++ drop 6000 (SectorLog s) else SectorLog s) ++ [l].
Proof.
  unfold logAppend. cbn [SectorLog]. case_bool_decide as Hlen; [|done].
  pose proof log_sizes as (H2 & H6 & H8).
  rewrite take_insert_ge by lia. rewrite drop_insert_lt by lia. done.
Qed.

Definition log_bounded (s : SectorInfo) : Prop := Z.of_nat (length (SectorLog s)) <= 8001.

(** Imported sectors come with a log within the bound. *)
Definition bounded_import (e : Event) : Prop :=
  match e with SectorReceive s => log_bounded s | _ => True end.

Lemma logAppend_bounded now l s : log_bounded s -> log_bounded (logAppend now l s).
Proof.
  unfold log_bounded. rewrite logAppend_log, length_app. cbn [length]. intros H.
  pose proof log_sizes as (H2 & H6 & H8). case_bool_decide as Hlen.
  - rewrite length_app, length_take, length_drop. lia.
  - lia.
Qed.

Lemma log_bounded_invariant : plan_invariant log_bounded bounded_import.
Proof.
  split; unfold log_bounded.
  - intros now l s. apply logAppend_bounded.
  - done.
  - intros e s w Hg He HI. by destruct (applyGlobal_cases e s w) as (st & -> & _).
  - intros now p tr e s s' w Hp Htr Hty He HI Ha.
    assert (HI' : log_bounded s').
    { destruct (apply_event_frame _ _ _ _ Ha) as [(s0 & -> & ->)|(_ & HL & _)]; [done|].
      unfold log_bounded. by rewrite HL. }
    destruct tr; simpl; try exact HI'. case_bool_decide; exact HI'.
  - intros e s w s' Hs Hg He HI Ha.
    by destruct (planCommitting_event_frame e s w s' Hg Ha) as (_ & -> & _).
Qed.

(** The log of a sector never holds more than 8001 entries, whatever batches
    arrive; appending to a log that grew above 8000 keeps the first 2000 entries,
    those from the 6000th on and the new one, and no trace of the truncation. *)
Theorem SectorLog_bounded s now l :
  reaches bounded_import zeroSectorInfo s ->
  Z.of_nat (length (SectorLog s)) <= 8001 ∧
  SectorLog (logAppend now l s) =
    (if bool_decide (8000 < length (SectorLog s))%nat
     then take 2000 (SectorLog s) ++ drop 6000 (SectorLog s) else SectorLog s) ++ [l].
Proof.
  intros H. split; [|apply logAppend_log].
  exact (reaches_preserves _ _ _ _ log_bounded_invariant (ltac:(by vm_compute) : log_bounded zeroSectorInfo) H).
Qed.

Lemma SectorLog_bounded_witness :
  ∃ s, drive cc_lifecycle zeroSectorInfo = Some s ∧ Z.of_nat (length (SectorLog s)) <= 8001.
Proof.
  eexists. split; [vm_compute; reflexivity|].
  refine (proj1 (SectorLog_bounded _ 0 (mkLog 0 EmptyString EmptyString EmptyString)
    (drive_reaches bounded_import cc_lifecycle _ _ _ ltac:(by repeat constructor)
      (reaches_start _ _) _))). vm_compute. reflexivity.
Defined.

(** * Removed sectors *)

(** A removed sector stays removed: every event, even one that forces a state,
    is consumed without any effect but its log entries. *)
Theorem Removed_absorbing now json fT ft em ek cfg maddr ok events s m r :
  State s = Removed ->
  Plan now json fT ft em ek cfg maddr ok events s m = Some r ->
  result_processed r = length events ∧ next r = None ∧
  world (result_sealing r) = world m ∧
  ∃ log, result_state r = s {{ SectorLog := log }}.
Proof.
  intros Hs H. unfold Plan, plan in H.
  destruct (logEvents_frame now json fT ft events s) as [log HL]. rewrite HL in H.
  destruct s. simpl in Hs. subst. cbn [SectorTypes.State] in H.
  change (select_planner events Removed) with (Some finalRemoved) in H. simpl in H.
  apply Some_inj in H. subst r. simpl. split; [done|]. split; [done|]. split; [|by eexists].
  unfold onUpdateSector. destruct cfg as [[cfg|]|]; [|done..].
  by destruct (updateSector _ _ _ _).
Qed.

Lemma Removed_absorbing_witness :
  ∃ r, FSMExample.Plan0 [SectorForceState Proving; SectorRemove] (zeroSectorInfo {{ State := Removed }})
         FSMExample.sealing0 = Some r ∧ result_processed r = 2%nat.
Proof.
  eexists. split; [vm_compute; reflexivity|].
  refine (proj1 (Removed_absorbing 1 (fun _ => Some EmptyString) (fun _ => EmptyString)
    (fun _ => EmptyString) (fun _ => EmptyString) (fun _ => EmptyString) None 1000 true
    [SectorForceState Proving; SectorRemove] (zeroSectorInfo {{ State := Removed }})
    FSMExample.sealing0 _ eq_refl _)). vm_compute. reflexivity.
Defined.

(** * Forced states *)

(** Only [FinalizeSector] has a transition on [SectorCommitted]. *)
Lemma SectorCommitted_transitions st p :
  (st, p) ∈ fsmPlanners ->
  if bool_decide (st = FinalizeSector)
  then find_transition TSectorCommitted (transitions p) = Some (on TSectorCommitted SubmitCommit) ∧
       p = planOne (transitions p)
  else find_transition TSectorCommitted (transitions p) = None.
Proof.
  intros H. apply list_elem_of_In in H.
  assert (Hc : forallb (fun e => match find_transition TSectorCommitted (transitions e.2), e.2 with
      | Some (on TSectorCommitted nx), planOne _ =>
          bool_decide (e.1 = FinalizeSector) && bool_decide (nx = SubmitCommit)
      | None, _ => negb (bool_decide (e.1 = FinalizeSector))
      | _, _ => false end) fsmPlanners = true) by by vm_compute.
  rewrite forallb_forall in Hc. specialize (Hc _ H). simpl in Hc.
  destruct (find_transition _ _) as [[[] nx| | |]|]; try done.
  - destruct p; try done. apply andb_true_iff in Hc as [H1 H2].
    rewrite H1. by apply bool_decide_eq_true in H2 as ->.
  - apply negb_true_iff in Hc. by rewrite Hc.
Qed.

Definition state_of (p : option planned) : option SectorState := (fun q => State (planned_state q)) <$> p.

Lemma run_planner_SectorCommitted now p s w :
  (State s, p) ∈ fsmPlanners ->
  state_of (run_planner now p [SectorCommitted EmptyString] s w) =
  Some (if bool_decide (State s ∈ [Committing; FinalizeSector]) then SubmitCommit else State s).
Proof.
  intros Hp. pose proof (SectorCommitted_transitions _ _ Hp) as Ht.
  assert (Hcase : p = planCommitting ∨ State s ≠ Committing).
  { destruct (decide (State s = Committing)) as [E|]; [left|by right]. rewrite E in Hp.
    apply list_elem_of_In in Hp.
    assert (Hc : forallb (fun e => match e.2 with planCommitting => true
      | _ => negb (bool_decide (e.1 = Committing)) end) fsmPlanners = true) by by vm_compute.
    rewrite forallb_forall in Hc. specialize (Hc _ Hp). by destruct p. }
  destruct Hcase as [->|Hne].
  { rewrite (planCommitting_only _ Hp). by vm_compute. }
  destruct (decide (State s = FinalizeSector)) as [E|E].
  - rewrite bool_decide_true in Ht by done. destruct Ht as [Ht ->]. simpl. rewrite Ht. simpl.
    rewrite bool_decide_true; [done|]. rewrite E. by apply (bool_decide_unpack _).
  - rewrite bool_decide_false in Ht by done. rewrite bool_decide_false by set_solver.
    destruct p; simpl in *; unfold run_planOneOrIgnore; simpl; rewrite ?Ht; try done.
    by apply planCommitting_only in Hp.
Qed.

Lemma finalRemoved_only st : (st, finalRemoved) ∈ fsmPlanners -> st = Removed.
Proof.
  intros H. apply list_elem_of_In in H.
  assert (Hc : forallb (fun e => match e.2 with
      | finalRemoved => bool_decide (e.1 = Removed) | _ => true end) fsmPlanners = true)
    by by vm_compute.
  rewrite forallb_forall in Hc. specialize (Hc _ H). by apply bool_decide_eq_true in Hc.
Qed.

Lemma run_planner_SectorForceState now p st s w :
  p ≠ finalRemoved -> state_of (run_planner now p [SectorForceState st] s w) = Some st.
Proof. intros Hp. by destruct p. Qed.

(** The state after [Plan], from the state its planner leaves. *)
Lemma Plan_State now json fT ft em ek cfg maddr ok events s m r p :
  planner_of (State s) = Some p ->
  Plan now json fT ft em ek cfg maddr ok events s m = Some r ->
  ∃ s1 q, State s1 = State s ∧ run_planner now p events s1 (world m) = Some q ∧
    State (result_state r) =
      if bool_decide (plan_err q = None ∧ State (planned_state q) = PackingFailed)
      then DealsExpired else State (planned_state q).
Proof.
  intros Hp H. unfold Plan in H.
  destruct (plan _ _ _ _ _ _ _ _ _ _) as [r'|] eqn:E; [|done].
  assert (Hst : State (result_state r) = State (result_state r')).
  { simpl in H. by destruct (result_err r'), (next r'); simplify_eq/=. }
  rewrite Hst. clear H Hst. apply plan_inv in E.
  cbv zeta in E. unfold select_planner in E. rewrite !logEvents_State, Hp in E.
  destruct E as [[? _]|(p' & q & Hp' & Hrun & Hcase)]; [done|]. simplify_eq.
  exists (logEvents now json fT ft events s), q. split; [apply logEvents_State|]. split; [exact Hrun|].
  destruct Hcase as [(e & He & _ & _ & _ & -> & _)|(He & _ & Hn)].
  - rewrite bool_decide_false; [done|]. intros [? _]. congruence.
  - unfold next_handler in Hn. case_bool_decide as Hpf.
    + injection Hn as _ _ <-. by rewrite bool_decide_true.
    + rewrite bool_decide_false by (by intros [_ ?]). by case_bool_decide; injection Hn as _ _ <-.
Qed.

(** what an operator's request to force a state does to a sector that has a
    planner and is not removed.  A state whose name does not contain [SubmitCommit]
    is entered ([PackingFailed], deprecated, becomes [DealsExpired]).  A request for
    one of the [SubmitCommit] states takes a sector that is committing or finalizing
    to [SubmitCommit]; in every other state the sector does not move. *)
Theorem ForceSectorState_effect now json fT ft em ek cfg maddr ok st s m r :
  known (State s) = true -> State s ≠ Removed ->
  Plan now json fT ft em ek cfg maddr ok [ForceSectorState st] s m = Some r ->
  if contains st "SubmitCommit" then
    State (result_state r) =
      if bool_decide (State s ∈ [Committing; FinalizeSector]) then SubmitCommit else State s
  else State (result_state r) = if bool_decide (st = PackingFailed) then DealsExpired else st.
Proof.
  intros Hk Hrm H. unfold known in Hk. destruct (planner_of (State s)) as [p|] eqn:Ep; [|done].
  destruct (Plan_State _ _ _ _ _ _ _ _ _ _ _ _ _ p Ep H) as (s1 & q & Hs1 & Hrun & ->).
  pose proof (planner_of_elem _ _ Ep) as Hp. rewrite <- Hs1 in Hp. unfold ForceSectorState in Hrun.
  destruct (contains st "SubmitCommit").
  - pose proof (run_planner_SectorCommitted now p s1 (world m) Hp) as HS.
    rewrite Hrun, Hs1 in HS. apply Some_inj in HS. rewrite HS.
    rewrite bool_decide_false; [done|]. intros [Herr Hc].
    destruct (decide (State s ∈ [Committing; FinalizeSector])).
    + by rewrite bool_decide_true in Hc.
    + rewrite bool_decide_false in Hc by done. simpl in Hc. rewrite Hc in Ep.
      assert (p = planOne []) as -> by (vm_compute in Ep; congruence).
      simpl in Hrun. by simplify_eq/=.
  - pose proof (run_planner_SectorForceState now p st s1 (world m)) as HS.
    assert (p ≠ finalRemoved) as Hpr by (intros ->; apply finalRemoved_only in Hp; congruence).
    specialize (HS Hpr). rewrite Hrun in HS. apply Some_inj in HS. rewrite HS.
    assert (plan_err q = None) as -> by
      (destruct p; [..|done]; apply Some_inj in Hrun; by subst q).
    by destruct (decide (st = PackingFailed)); [rewrite !bool_decide_true|rewrite !bool_decide_false by tauto].
Qed.

Lemma ForceSectorState_effect_witness :
  ∃ r, FSMExample.Plan0 [ForceSectorState SubmitCommit] (zeroSectorInfo {{ State := CommitWait }})
         FSMExample.sealing0 = Some r ∧ State (result_state r) = CommitWait.
Proof.
  eexists. split; [vm_compute; reflexivity|].
  refine (ForceSectorState_effect 1 (fun _ => Some EmptyString) (fun _ => EmptyString)
    (fun _ => EmptyString) (fun _ => EmptyString) (fun _ => EmptyString) None 1000 true
    SubmitCommit (zeroSectorInfo {{ State := CommitWait }}) FSMExample.sealing0 _ _ _ _);
    [vm_compute; reflexivity|done|vm_compute; reflexivity].
Defined.
