(* ===== verification/ChainIndex.v ===== *)
(** The skip-list index over the chain (src/chain/store/index.go).

    [GetTipsetByHeight] jumps over twenty epochs at a time through cached
    entries; [GetTipsetByHeight_walkBack] shows that it finds the tipset a plain
    walk over the parents finds, whatever the cache holds or evicts, and that both
    loops end.  The store that loads tipsets and the ARC cache of
    hashicorp/golang-lru are parameters with their documented behaviour. *)

From S2P Require Import Prelude Types Tipset.

(** * The cache *)

(** [ts] and the entry of its skip target. *)
Record lbEntry := mkLbEntry {
  lb_ts : TipSet;
  parentHeight : Z;
  targetHeight : Z;
  target : bytes;
}.

(** An ARC cache: what it returns was added under that key, reading and adding
    only ever evict other entries. *)
Class ARCCache (C : Type) := {
  cache_Get : C -> bytes -> option lbEntry * C;
  cache_Add : C -> bytes -> lbEntry -> C;
  contents : C -> gmap bytes lbEntry;
}.

Class ARCCacheLaws (C : Type) `{ARCCache C} := {
  cache_Get_hit c k v : (cache_Get c k).1 = Some v -> contents c !! k = Some v;
  cache_Get_keeps c k : contents (cache_Get c k).2 ⊆ contents c;
  cache_Add_keeps c k v : contents (cache_Add c k v) ⊆ <[k := v]> (contents c);
}.

(** * Tipsets *)

Definition ts_Key (ts : TipSet) : bytes := NewTipSetKey (Cids ts).

(** [ts.blks[0].Parents]; a tipset has at least one block. *)
Definition ts_Parents (ts : TipSet) : bytes :=
  match Blocks ts with b :: _ => NewTipSetKey (Parents b) | [] => EmptyString end.

Inductive ci_error := LoadError | HeightAboveStart | OutOfFuel.

Definition skipLength : Z := 20.

(** Floors to the nearest multiple of [skipLength]. *)
Definition roundHeight (h : Z) : Z := (h ⊘ skipLength) ⊠ skipLength.

Section Index.
(** [ci.loadTipSet]; [None] is an error. *)
Variable loadTipSet : bytes -> option TipSet.

Fixpoint walkBack_loop (fuel : nat) (ts : TipSet) (to : Z) : result ci_error TipSet :=
  match fuel with
  | O => Err OutOfFuel
  | S n =>
      match loadTipSet (ts_Parents ts) with
      | None => Err LoadError
      | Some pts =>
          if ts_height pts <? to then Ok ts
          else if to =? ts_height pts then Ok pts
          else walkBack_loop n pts to
      end
  end.

Definition walkBack (fuel : nat) (from : TipSet) (to : Z) : result ci_error TipSet :=
  if ts_height from <? to then Err HeightAboveStart
  else if to =? ts_height from then Ok from
  else walkBack_loop fuel from to.

Definition GetTipsetByHeightWithoutCache := walkBack.

Definition roundDown (fuel : nat) (ts : TipSet) : result ci_error TipSet :=
  walkBack fuel ts (roundHeight (ts_height ts)).

Context {C : Type} `{ARCCache C}.

Definition fillCache (fuel : nat) (c : C) (tsk : bytes) : result ci_error lbEntry * C :=
  match loadTipSet tsk with
  | None => (Err LoadError, c)
  | Some ts =>
      if ts_height ts =? 0 then (Ok (mkLbEntry ts 0 0 EmptyString), c)
      else
        let rheight := roundHeight (ts_height ts) in
        match loadTipSet (ts_Parents ts) with
        | None => (Err LoadError, c)
        | Some parent =>
            let rheight := rheight ⊟ skipLength in
            let rheight := if rheight <? 0 then 0 else rheight in
            let skipTarget := if ts_height parent <? rheight then Ok parent
                              else walkBack fuel parent rheight in
            match skipTarget with
            | Err e => (Err e, c)
            | Ok st =>
                let lbe := mkLbEntry ts (ts_height parent) (ts_height st) (ts_Key st) in
                (Ok lbe, cache_Add c tsk lbe)
            end
        end
  end.

(** The loop of [GetTipsetByHeight] at the key [cur]. *)
Fixpoint skip_loop (fuel : nat) (c : C) (cur : bytes) (to : Z) : result ci_error TipSet * C :=
  match fuel with
  | O => (Err OutOfFuel, c)
  | S n =>
      let '(cval, c) := cache_Get c cur in
      let '(e, c) := match cval with
                     | Some v => (Ok v, c)
                     | None => fillCache n c cur
                     end in
      match e with
      | Err err => (Err err, c)
      | Ok lbe =>
          if (ts_height (lb_ts lbe) =? to) || (parentHeight lbe <? to) then (Ok (lb_ts lbe), c)
          else if targetHeight lbe <? to then (walkBack n (lb_ts lbe) to, c)
          else skip_loop n c (target lbe) to
      end
  end.

Definition GetTipsetByHeight (fuel : nat) (c : C) (from : TipSet) (to : Z)
    : result ci_error TipSet * C :=
  if ts_height from ⊟ to <=? skipLength then (walkBack fuel from to, c)
  else
    match roundDown fuel from with
    | Err e => (Err e, c)
    | Ok rounded => skip_loop fuel c (ts_Key rounded) to
    end.

(** * The tipset at a height *)

(** A stored chain: tipsets load under their own key, parents are at smaller
    heights, and every tipset above height zero has a stored parent. *)
Record stored_chain : Prop := mkStoredChain {
  stored_key k ts : loadTipSet k = Some ts -> ts_Key ts = k;
  stored_height k ts : loadTipSet k = Some ts -> in_i64 (ts_height ts) ∧ 0 <= ts_height ts;
  stored_child k ts p : loadTipSet k = Some ts -> loadTipSet (ts_Parents ts) = Some p ->
    ts_height p < ts_height ts;
  stored_parent k ts : loadTipSet k = Some ts -> 0 < ts_height ts ->
    is_Some (loadTipSet (ts_Parents ts));
}.

Inductive ancestor (ts : TipSet) : TipSet -> Prop :=
  | ancestor_refl : ancestor ts ts
  | ancestor_parent p a : loadTipSet (ts_Parents ts) = Some p -> ancestor p a -> ancestor ts a.

(** The lowest ancestor at or above [to]: at [to] itself, or above the null rounds
    around it. *)
Definition tipset_at (from : TipSet) (to : Z) (r : TipSet) : Prop :=
  ancestor from r ∧ to <= ts_height r ∧
  (ts_height r = to ∨ ∃ p, loadTipSet (ts_Parents r) = Some p ∧ ts_height p < to).

Definition stored (ts : TipSet) : Prop := loadTipSet (ts_Key ts) = Some ts.

Section Laws.
Hypothesis Hchain : stored_chain.

Lemma parent_of ts :
  stored ts -> 0 < ts_height ts ->
  ∃ p, loadTipSet (ts_Parents ts) = Some p ∧ ts_height p < ts_height ts ∧ stored p ∧
       0 <= ts_height p.
Proof.
  intros Hs Hh. destruct (stored_parent Hchain _ _ Hs Hh) as [p Hp]. exists p.
  split; [done|]. split; [by eapply stored_child|]. unfold stored.
  pose proof (stored_height Hchain _ _ Hp) as [_ ?]. by rewrite (stored_key Hchain _ _ Hp).
Qed.

Lemma ancestor_stored ts a : stored ts -> ancestor ts a -> stored a.
Proof.
  intros Hs Ha. induction Ha as [|ts p a Hp _ IH]; [done|]. apply IH. unfold stored.
  by rewrite (stored_key Hchain _ _ Hp).
Qed.

Lemma ancestor_trans a b c : ancestor a b -> ancestor b c -> ancestor a c.
Proof. induction 1 as [|a p b Hp _ IH]; intros Hc; [done|]. eapply ancestor_parent; [done|auto]. Qed.

(** The walk finds the tipset, given a step of fuel per epoch. *)
Lemma walkBack_loop_spec fuel : ∀ ts to,
  stored ts -> 0 <= to < ts_height ts -> (Z.to_nat (ts_height ts) ≤ fuel)%nat ->
  ∃ r, walkBack_loop fuel ts to = Ok r ∧ tipset_at ts to r.
Proof.
  induction fuel as [|fuel IH]; intros ts to Hs Hto Hfuel; [lia|]. simpl.
  destruct (parent_of ts Hs) as (p & Hp & Hlt & Hsp & Hp0); [lia|]. rewrite Hp.
  destruct (Z.ltb_spec (ts_height p) to) as [Hlow|Hge].
  { exists ts. split; [done|]. split; [constructor|]. split; [lia|]. right. by exists p. }
  assert (Ha : ancestor ts p) by (eapply ancestor_parent; [done|constructor]).
  destruct (Z.eqb_spec to (ts_height p)) as [->|Hne].
  { exists p. split; [done|]. split; [done|]. split; [lia|by left]. }
  destruct (IH p to Hsp) as (r & Hr & Har & Hrest); [lia|lia|].
  exists r. split; [done|]. split; [by eapply ancestor_trans|done].
Qed.

Lemma walkBack_spec fuel from to :
  stored from -> 0 <= to <= ts_height from -> (Z.to_nat (ts_height from) ≤ fuel)%nat ->
  ∃ r, walkBack fuel from to = Ok r ∧ tipset_at from to r.
Proof.
  intros Hs Hto Hfuel. unfold walkBack. destruct (Z.ltb_spec (ts_height from) to); [lia|].
  destruct (Z.eqb_spec to (ts_height from)) as [->|]; [|apply walkBack_loop_spec; [done|lia|done]].
  exists from. split; [done|]. split; [constructor|]. split; [lia|by left].
Qed.

Lemma ancestor_height ts a : stored ts -> ancestor ts a -> ts_height a <= ts_height ts.
Proof.
  intros Hs Ha. induction Ha as [|ts p a Hp Ha IH]; [lia|].
  pose proof (stored_child Hchain _ _ _ Hs Hp).
  assert (Hsp : stored p) by (unfold stored; by rewrite (stored_key Hchain _ _ Hp)).
  specialize (IH Hsp). lia.
Qed.

(** Reaching [to] from an ancestor at or above it is reaching it from the start. *)
Lemma tipset_at_ancestor from a to r : ancestor from a -> tipset_at a to r -> tipset_at from to r.
Proof. intros Ha (Hr & Hrest). split; [by eapply ancestor_trans|done]. Qed.

(** Ancestors are ordered by height, so there is one tipset at a height. *)
Lemma tipset_at_unique from to r r' :
  stored from -> tipset_at from to r -> tipset_at from to r' -> r = r'.
Proof.
  intros Hs (Ha & Hle & Hr) (Ha' & Hle' & Hr').
  assert (Hlow : ∀ x p b, stored x -> loadTipSet (ts_Parents x) = Some p -> ancestor p b ->
    to <= ts_height b ->
    (ts_height x = to ∨ ∃ q, loadTipSet (ts_Parents x) = Some q ∧ ts_height q < to) -> False).
  { intros x p b Hx Hp Hb Hble Hor.
    assert (Hsp : stored p) by (unfold stored; by rewrite (stored_key Hchain _ _ Hp)).
    pose proof (ancestor_height p b Hsp Hb). pose proof (stored_child Hchain _ _ _ Hx Hp).
    destruct Hor as [?|(q & ? & ?)]; simplify_eq; lia. }
  induction Ha as [|from p a Hp Ha IH].
  - destruct Ha' as [|p a Hp Ha']; [done|]. by destruct (Hlow ts p a).
  - destruct Ha' as [|p' a' Hp' Ha']; [by destruct (Hlow from p a)|]. simplify_eq.
    apply IH; [|done..]. unfold stored. by rewrite (stored_key Hchain _ _ Hp).
Qed.

(** * The cache *)

Context `{!ARCCacheLaws C}.

(** A cached entry describes a stored tipset, its parent and one of the parent's
    ancestors. *)
Definition entry_ok (e : lbEntry) : Prop :=
  stored (lb_ts e) ∧ 0 < ts_height (lb_ts e) ∧
  ∃ p st, loadTipSet (ts_Parents (lb_ts e)) = Some p ∧ parentHeight e = ts_height p ∧
    ancestor p st ∧ targetHeight e = ts_height st ∧ target e = ts_Key st.

Definition coherent_index (c : C) : Prop :=
  ∀ k e, contents c !! k = Some e -> ts_Key (lb_ts e) = k ∧ entry_ok e.

Lemma coherent_index_subset c c' :
  contents c' ⊆ contents c -> coherent_index c -> coherent_index c'.
Proof. intros Hsub Hc k e He. apply Hc. by eapply lookup_weaken. Qed.

Lemma coherent_index_Add c k e :
  coherent_index c -> ts_Key (lb_ts e) = k -> entry_ok e -> coherent_index (cache_Add c k e).
Proof.
  intros Hc Hk He k' e' He'.
  pose proof (lookup_weaken _ _ _ _ He' (cache_Add_keeps c k e)) as H'. destruct (decide (k = k')) as [<-|Hne].
  - rewrite lookup_insert_eq in H'. by simplify_eq.
  - rewrite lookup_insert_ne in H' by done. by apply Hc.
Qed.

Lemma roundHeight_spec h : in_i64 h -> 0 <= h -> roundHeight h = h - h mod 20.
Proof.
  intros Hi Hh. unfold roundHeight, skipLength.
  assert (Hq : h ⊘ 20 = h / 20).
  { unfold i64_quot. rewrite Z.quot_div_nonneg by lia. apply wrap64_id. unfold in_i64 in *.
    pose proof (Z.div_le_upper_bound h 20 h). pose proof (Z.div_pos h 20). lia. }
  rewrite Hq. pose proof (Z.div_mod h 20). pose proof (Z.mod_pos_bound h 20).
  unfold i64_mul. rewrite wrap64_id; unfold in_i64 in *; lia.
Qed.

(** [fillCache] builds a right entry; the genesis is not cached. *)
Lemma fillCache_spec fuel c ts :
  coherent_index c -> stored ts -> (Z.to_nat (ts_height ts) ≤ fuel)%nat ->
  ∃ e c', fillCache fuel c (ts_Key ts) = (Ok e, c') ∧ coherent_index c' ∧ lb_ts e = ts ∧
    ((ts_height ts = 0 ∧ parentHeight e = 0) ∨ entry_ok e).
Proof.
  intros Hc Hs Hfuel. unfold fillCache. rewrite Hs.
  destruct (stored_height Hchain _ _ Hs) as [Hi H0].
  destruct (Z.eqb_spec (ts_height ts) 0) as [Hz|Hz].
  { eexists _, c. split; [done|]. split; [done|]. split; [done|]. left. by split. }
  destruct (parent_of ts Hs) as (p & Hp & Hlt & Hsp & Hp0); [lia|]. rewrite Hp.
  set (rh := if roundHeight (ts_height ts) ⊟ skipLength <? 0 then 0
             else roundHeight (ts_height ts) ⊟ skipLength).
  assert (Hrh : 0 <= rh) by (unfold rh; destruct (Z.ltb_spec (roundHeight (ts_height ts) ⊟ skipLength) 0); lia).
  assert (∃ st, (if ts_height p <? rh then Ok p else walkBack fuel p rh) = Ok st ∧ ancestor p st)
    as (st & -> & Hst).
  { destruct (Z.ltb_spec (ts_height p) rh) as [|Hge]; [by exists p; split; [|constructor]|].
    destruct (walkBack_spec fuel p rh Hsp) as (st & Hst & Ha & _); [lia|lia|]. by exists st. }
  assert (He : entry_ok (mkLbEntry ts (ts_height p) (ts_height st) (ts_Key st))).
  { split; [done|]. split; [simpl; lia|]. by exists p, st. }
  eexists _, _. split; [done|]. split; [by apply coherent_index_Add|]. split; [done|by right].
Qed.

(** The loop finds the tipset at [to] from any stored tipset at or above it. *)
Lemma skip_loop_spec fuel : ∀ c ts to,
  coherent_index c -> stored ts -> 0 <= to <= ts_height ts ->
  (Z.to_nat (ts_height ts) < fuel)%nat ->
  ∃ r c', skip_loop fuel c (ts_Key ts) to = (Ok r, c') ∧ tipset_at ts to r ∧ coherent_index c'.
Proof.
  induction fuel as [|n IH]; intros c ts to Hc Hs Hto Hfuel; [lia|]. simpl.
  destruct (cache_Get c (ts_Key ts)) as [cval c1] eqn:Eget.
  assert (Hc1 : coherent_index c1).
  { apply (coherent_index_subset c); [|done]. pose proof (cache_Get_keeps c (ts_Key ts)) as Hk.
    by rewrite Eget in Hk. }
  assert (∃ e c2, (match cval with Some v => (Ok v, c1) | None => fillCache n c1 (ts_Key ts) end) = (Ok e, c2)
    ∧ coherent_index c2 ∧ lb_ts e = ts ∧ ((ts_height ts = 0 ∧ parentHeight e = 0) ∨ entry_ok e))
    as (e & c2 & -> & Hc2 & Hts & He).
  { destruct cval as [v|]; [|apply fillCache_spec; [done|done|lia]]. exists v, c1.
    destruct (Hc (ts_Key ts) v) as [Hk Hv]; [apply (cache_Get_hit c); by rewrite Eget|].
    split; [done|]. split; [done|]. split; [|by right]. destruct Hv as [Hv _]. unfold stored in *.
    rewrite Hk in Hv. congruence. }
  subst ts. destruct (Z.eqb_spec (ts_height (lb_ts e)) to) as [Heq|Hne]; simpl.
  { eexists _, _. split; [done|]. split; [|done].
    split; [constructor|]. split; [lia|by left]. }
  destruct He as [[Hz _]|(_ & Hpos & p & st & Hp & Hph & Hst & Hth & Htk)]; [lia|].
  destruct (Z.ltb_spec (parentHeight e) to) as [Hlow|Hge].
  { eexists _, _. split; [done|]. split; [|done]. split; [constructor|].
    split; [lia|]. right. exists p. split; [done|lia]. }
  assert (Hsp : stored p) by (unfold stored; by rewrite (stored_key Hchain _ _ Hp)).
  pose proof (ancestor_stored p st Hsp Hst) as Hsst. pose proof (ancestor_height p st Hsp Hst).
  pose proof (stored_child Hchain _ _ _ Hs Hp).
  destruct (Z.ltb_spec (targetHeight e) to) as [Htl|Htg].
  { destruct (walkBack_spec n (lb_ts e) to Hs) as (r & Hr & Hat); [lia|lia|].
    exists r, c2. by rewrite Hr. }
  rewrite Htk. destruct (IH c2 st to Hc2 Hsst) as (r & c' & Hr & Hat & Hc'); [lia|lia|].
  exists r, c'. split; [done|]. split; [|done]. apply (tipset_at_ancestor (lb_ts e) st); [|done].
  by eapply ancestor_parent.
Qed.

(** C24: on a stored chain, the skip list finds for every height between zero and
    that of the start exactly the tipset a walk over the parents finds: the ancestor
    at that height or, on null rounds, the lowest one above it.  This holds for
    every cache content built by the index and every eviction, both loops end
    within one step of fuel per epoch, and the cache stays right. *)
Theorem GetTipsetByHeight_walkBack fuel (c : C) from to :
  coherent_index c -> stored from -> 0 <= to <= ts_height from ->
  (Z.to_nat (ts_height from) < fuel)%nat ->
  ∃ r c', GetTipsetByHeight fuel c from to = (Ok r, c') ∧
    GetTipsetByHeightWithoutCache fuel from to = Ok r ∧
    tipset_at from to r ∧ coherent_index c'.
Proof.
  intros Hc Hs Hto Hfuel. unfold GetTipsetByHeight, GetTipsetByHeightWithoutCache.
  destruct (stored_height Hchain _ _ Hs) as [Hi H0].
  destruct (walkBack_spec fuel from to Hs) as (r & Hr & Hat); [lia|lia|].
  assert (Hsub : ts_height from ⊟ to = ts_height from - to)
    by (apply wrap64_id; unfold in_i64 in *; lia).
  rewrite Hsub. unfold skipLength at 1. destruct (Z.leb_spec (ts_height from - to) 20) as [|Hfar].
  { exists r, c. rewrite Hr. by split_and!. }
  unfold roundDown. rewrite roundHeight_spec by done.
  pose proof (Z.mod_pos_bound (ts_height from) 20).
  destruct (walkBack_spec fuel from (ts_height from - ts_height from mod 20) Hs)
    as (rd & -> & Ha & Hle & _); [lia|lia|].
  pose proof (ancestor_height from rd Hs Ha).
  destruct (skip_loop_spec fuel c rd to Hc (ancestor_stored from rd Hs Ha)) as (r' & c' & Hr' & Hat' & Hc');
    [lia|lia|].
  exists r', c'. rewrite Hr', Hr. split; [done|].
  pose proof (tipset_at_ancestor from rd to r' Ha Hat') as Hat''.
  by rewrite (tipset_at_unique from to r r' Hs Hat Hat'').
Qed.
End Laws.
End Index.

(** * A chain with null rounds *)

Module IndexExample.
Definition block (parents : list cid) (height : Z) : BlockHeader :=
  {| Miner := IDAddr 1000; Ticket := EmptyString; WinCount := 1; ElectionVRF := EmptyString;
     BeaconEntries := []; Parents := parents; ParentWeight := 0; Height := height;
     ParentStateRoot := EmptyString; ParentMessageReceipts := EmptyString; Messages := EmptyString;
     Timestamp := 0; ForkSignaling := 0; ParentBaseFee := 0 |}.

Definition tipset (c : cid) (parents : list cid) (height : Z) : TipSet :=
  mkTipSet [c] [block parents height] height.

Definition chain : list TipSet :=
  [tipset "head" ["b"] 67; tipset "b" ["a"] 41; tipset "a" ["genesis"] 19; tipset "genesis" [] 0].

Definition load (k : bytes) : option TipSet := find (fun ts => bool_decide (ts_Key ts = k)) chain.

Lemma load_elem k ts : load k = Some ts -> ts ∈ chain ∧ ts_Key ts = k.
Proof.
  intros H. apply find_some in H as [Hin Hk]. apply bool_decide_eq_true in Hk.
  by apply list_elem_of_In in Hin.
Qed.

Lemma load_stored_chain : stored_chain load.
Proof.
  split.
  - intros k ts H. by apply load_elem in H as [_ ?].
  - intros k ts H. apply load_elem in H as [H _].
    repeat (apply elem_of_cons in H as [->|H]; [by vm_compute|]). by apply elem_of_nil in H.
  - intros k ts p H Hp. apply load_elem in H as [H _].
    repeat (apply elem_of_cons in H as [->|H]; [vm_compute in Hp; by simplify_eq|]).
    by apply elem_of_nil in H.
  - intros k ts H Hpos. apply load_elem in H as [H _].
    repeat (apply elem_of_cons in H as [->|H]; [first [discriminate Hpos | by eexists]|]).
    by apply elem_of_nil in H.
Qed.

(** The unbounded map as a cache. *)
#[export] Instance map_cache : ARCCache (gmap bytes lbEntry) := {
  cache_Get c k := (c !! k, c);
  cache_Add c k v := <[k := v]> c;
  contents c := c;
}.

#[export] Instance map_cache_laws : ARCCacheLaws (gmap bytes lbEntry).
Proof. split; [done|done|done]. Qed.
End IndexExample.
Import IndexExample.

Lemma GetTipsetByHeight_walkBack_witness :
  ∃ c', GetTipsetByHeight IndexExample.load 100 (∅ : gmap bytes lbEntry)
          (IndexExample.tipset "head" ["b"] 67) 7 = (Ok (IndexExample.tipset "a" ["genesis"] 19), c').
Proof.
  destruct (GetTipsetByHeight_walkBack IndexExample.load IndexExample.load_stored_chain 100
    (∅ : gmap bytes lbEntry) (IndexExample.tipset "head" ["b"] 67) 7) as (r & c' & Hr & Hw & _).
  - intros k e He. by apply (lookup_empty_Some k e) in He.
  - reflexivity.
  - simpl. lia.
  - simpl. lia.
  - exists c'. rewrite Hr. f_equal. vm_compute in Hw. symmetry. exact Hw.
Defined.
