(* ===== verification/MsgSet.v ===== *)
(** Pending messages of one actor (src/chain/messagepool/messagepool.go: [msgSet],
    [ComputeMinRBF], [CapGasFee]).

    The integers of a pooled message are set: [checkMessage] refuses messages with
    nil ones before they get here, so the accessors below read an absent integer
    as zero.  The CID of a signed message is a parameter. *)

From coqutil Require Import Datatypes.RecordSetters.
From S2P Require Import Prelude Gas Types.
Import Gas.Prices.
Import DoubleBraceUpdate.

Record SignedMessage := mkSignedMessage {
  sm_Message : Message;
  sm_SigType : SigType;
  sm_SigData : bytes;
}.

#[export] Instance SignedMessage_eq_dec : EqDecision SignedMessage.
Proof. solve_decision. Defined.

Definition sm_Nonce (m : SignedMessage) : Z := msgNonce (sm_Message m).
Definition sm_From (m : SignedMessage) : address := From (sm_Message m).
Definition sm_FeeCap (m : SignedMessage) : Z := default 0 (GasFeeCap (sm_Message m)).
Definition sm_Premium (m : SignedMessage) : Z := default 0 (GasPremium (sm_Message m)).
Definition sm_Value (m : SignedMessage) : Z := default 0 (Value (sm_Message m)).
Definition sm_GasLimit (m : SignedMessage) : Z := GasLimit (sm_Message m).
Definition sm_RequiredFunds (m : SignedMessage) : Z := RequiredFunds (sm_FeeCap m) (sm_GasLimit m).

Inductive mp_error :=
  | ErrMessageTooBig | ErrMessageValueTooHigh | ErrNonceTooLow | ErrGasFeeCapTooLow
  | ErrNotEnoughFunds | ErrInvalidToAddr | ErrSoftValidationFailure | ErrRBFTooLowPremium
  | ErrTooManyPendingMessages | ErrNonceGap | ErrInvalidMessage (e : msg_error)
  | ErrSignature | ErrProvider.

(** * Replace by fee *)

Definition RbfDenom : Z := 256.
(** [uint64((1.25 - 1) * RbfDenom)]. *)
Definition rbfNum : Z := 64.

Definition ComputeMinRBF (curPrem : Z) : Z := curPrem + big_div (curPrem * rbfNum) RbfDenom + 1.

(** The fields [CapGasFee] sets, from the configured default (zero when it cannot
    be read) and the caller's limit. *)
Definition CapGasFee (mff : option Z) (msg : Message) (maxFee : option Z) : Message :=
  let maxFee := match maxFee with
                | Some f => if f =? 0 then default 0 mff else f
                | None => default 0 mff
                end in
  let gl := wrapu64 (GasLimit msg) in
  let feeCap := default 0 (GasFeeCap msg) in
  if feeCap * gl <=? maxFee then msg
  else
    let feeCap := big_div maxFee gl in
    msg {{ GasFeeCap := Some feeCap;
           GasPremium := Some (Z.min feeCap (default 0 (GasPremium msg))) }}.

(** * The set *)

Definition MaxNonceGap : Z := 4.
Definition MaxActorPendingMessages : Z := 1000.
Definition MaxUntrustedActorPendingMessages : Z := 10.

Record msgSet := mkMsgSet {
  msgs : gmap Z SignedMessage;
  nextNonce : Z;
  requiredFunds : Z;
}.

Definition newMsgSet (nonce : Z) : msgSet := mkMsgSet ∅ nonce 0.

(** [for _, fillGap := msgs[n]; fillGap; ... { n++ }]; one step of fuel per
    message of the set is enough ([fill_gap_free]). *)
Fixpoint fill_gap (fuel : nat) (ms : gmap Z SignedMessage) (n : Z) : Z :=
  match fuel with
  | O => n
  | S fuel => match ms !! n with Some _ => fill_gap fuel ms (wrapu64 (n + 1)) | None => n end
  end.

Definition fill_gaps (ms : gmap Z SignedMessage) (n : Z) : Z := fill_gap (S (size ms)) ms n.

Section MsgSet.
Variable Cid : SignedMessage → cid.

(** What the switch of [add] leaves: the next nonce and whether there is a gap. *)
Definition add_nonce (ms : msgSet) (nonce : Z) (strict : bool) (maxGap : Z)
    : result mp_error (Z * bool) :=
  if nonce =? nextNonce ms then Ok (fill_gaps (msgs ms) (wrapu64 (nextNonce ms + 1)), false)
  else if strict && (wrapu64 (nextNonce ms + maxGap) <? nonce) then Err ErrNonceGap
  else if nextNonce ms <? nonce then Ok (nextNonce ms, true)
  else Ok (nextNonce ms, false).

Definition add (m : SignedMessage) (strict untrusted : bool) (ms : msgSet)
    : result mp_error bool * msgSet :=
  let maxNonceGap := if untrusted then 0 else MaxNonceGap in
  let maxPending := if untrusted then MaxUntrustedActorPendingMessages else MaxActorPendingMessages in
  match add_nonce ms (sm_Nonce m) strict maxNonceGap with
  | Err e => (Err e, ms)
  | Ok (next, nonceGap) =>
      let store funds has :=
        (Ok (negb has), mkMsgSet (<[sm_Nonce m := m]> (msgs ms)) next (funds + sm_RequiredFunds m)) in
      match msgs ms !! sm_Nonce m with
      | Some exms =>
          if strict && nonceGap then (Err ErrNonceGap, ms)
          else if bool_decide (Cid m = Cid exms) then (Err ErrSoftValidationFailure, ms)
          else if sm_Premium m <? ComputeMinRBF (sm_Premium exms) then (Err ErrRBFTooLowPremium, ms)
          else store (requiredFunds ms - sm_RequiredFunds exms) true
      | None =>
          if strict && (maxPending <=? Z.of_nat (size (msgs ms))) then (Err ErrTooManyPendingMessages, ms)
          else store (requiredFunds ms) false
      end
  end.
End MsgSet.

Definition rm (nonce : Z) (applied : bool) (ms : msgSet) : msgSet :=
  match msgs ms !! nonce with
  | None =>
      if applied && (nextNonce ms <=? nonce)
      then mkMsgSet (msgs ms) (fill_gaps (msgs ms) (wrapu64 (nonce + 1))) (requiredFunds ms)
      else ms
  | Some m =>
      let next := if applied
                  then (if nextNonce ms <=? nonce then wrapu64 (nonce + 1) else nextNonce ms)
                  else (if nonce <? nextNonce ms then nonce else nextNonce ms) in
      mkMsgSet (delete nonce (msgs ms)) next (requiredFunds ms - sm_RequiredFunds m)
  end.

Definition getRequiredFunds (nonce : Z) (ms : msgSet) : Z :=
  match msgs ms !! nonce with
  | Some m => requiredFunds ms - sm_RequiredFunds m
  | None => requiredFunds ms
  end.

(** The messages by nonce; [order] lists the map the way the runtime iterated it. *)
Definition toSlice (order : list SignedMessage) : list SignedMessage :=
  sort_by (fun a b => sm_Nonce a <? sm_Nonce b) order.

(** * Gaps *)

Lemma fill_gap_step fuel : ∀ ms n, in_u64 n -> is_Some (ms !! fill_gap fuel ms n) ->
  ∀ i, (i ≤ fuel)%nat -> is_Some (ms !! wrapu64 (n + Z.of_nat i)).
Proof.
  induction fuel as [|fuel IH]; intros ms n Hn H i Hi; simpl in H.
  { replace i with 0%nat by lia. by rewrite Z.add_0_r, wrapu64_id. }
  destruct (ms !! n) as [m|] eqn:E; [|rewrite E in H; by destruct H].
  destruct i as [|i]; [rewrite Z.add_0_r, wrapu64_id by done; by eexists|].
  specialize (IH ms (wrapu64 (n + 1)) ltac:(unfold in_u64, wrapu64; apply Z.mod_pos_bound; lia) H i
    ltac:(lia)).
  unfold wrapu64 in *. rewrite Zplus_mod_idemp_l in IH.
  by replace (n + Z.of_nat (S i)) with (n + 1 + Z.of_nat i) by lia.
Qed.

(** The gap loop stops at a nonce without a message. *)
Lemma fill_gaps_free ms n :
  in_u64 n -> Z.of_nat (size ms) < 2 ^ 64 - 1 -> ms !! fill_gaps ms n = None.
Proof.
  intros Hn Hsize. destruct (ms !! fill_gaps ms n) as [m|] eqn:E; [exfalso|done].
  set (keys := (fun i => wrapu64 (n + Z.of_nat i)) <$> seq 0 (S (size ms))).
  assert (Hsub : list_to_set keys ⊆ dom ms).
  { intros k Hk. apply elem_of_list_to_set, list_elem_of_fmap in Hk as (i & -> & Hi).
    apply elem_of_seq in Hi. apply elem_of_dom.
    apply (fill_gap_step (S (size ms)) ms n Hn); [unfold fill_gaps in E; by rewrite E|lia]. }
  assert (Hnd : NoDup keys).
  { apply NoDup_fmap_2_strong; [|apply NoDup_seq]. intros i j Hi Hj Heq.
    apply elem_of_seq in Hi, Hj. unfold wrapu64, in_u64 in *.
    assert (Hd : (Z.of_nat i - Z.of_nat j) mod 2 ^ 64 = 0).
    { replace (Z.of_nat i - Z.of_nat j) with ((n + Z.of_nat i) - (n + Z.of_nat j)) by lia.
      rewrite Zminus_mod, Heq, Z.sub_diag. done. }
    apply Z.mod_divide in Hd as [q Hq]; [|lia]. nia. }
  pose proof (subseteq_size _ _ Hsub) as Hle.
  rewrite size_list_to_set in Hle by done. unfold keys in Hle.
  rewrite length_fmap, length_seq, size_dom in Hle. lia.
Qed.

Lemma fill_gap_range fuel : ∀ ms n, in_u64 n -> in_u64 (fill_gap fuel ms n).
Proof.
  induction fuel as [|fuel IH]; intros ms n Hn; simpl; [done|]. destruct (ms !! n); [|done].
  apply IH. unfold in_u64, wrapu64. apply Z.mod_pos_bound. lia.
Qed.

(** The loop never passes a nonce without a message: what it skips is pending. *)
Lemma fill_gap_skips fuel : ∀ ms n k,
  0 <= n -> n <= k < fill_gap fuel ms n -> fill_gap fuel ms n < 2 ^ 64 -> is_Some (ms !! k).
Proof.
  induction fuel as [|fuel IH]; intros ms n k Hn Hk Hb; simpl in *; [lia|].
  destruct (ms !! n) as [m|] eqn:E; [|lia].
  destruct (decide (k = n)) as [->|Hne]; [by eexists|].
  assert (Hw : wrapu64 (n + 1) = n + 1 ∨ wrapu64 (n + 1) <= n).
  { unfold wrapu64. destruct (Z.lt_ge_cases (n + 1) (2 ^ 64)); [left; apply Z.mod_small; lia|right].
    pose proof (Z.mod_le (n + 1) (2 ^ 64)). pose proof (Z.mod_pos_bound (n + 1) (2 ^ 64)).
    destruct (decide (n + 1 = 2 ^ 64)) as [->|]; [rewrite Z.mod_same; lia|].
    assert ((n + 1) mod 2 ^ 64 ≠ n + 1) by lia. lia. }
  destruct Hw as [Hw|Hw]; [rewrite Hw in *; eapply (IH ms (n + 1)); lia|].
  eapply (IH ms (wrapu64 (n + 1))); [unfold wrapu64; apply Z.mod_pos_bound; lia|lia|done].
Qed.

(** * The invariant *)

(** Messages are stored under their nonce and the funds are their sum. *)
Record msgSet_ok (ms : msgSet) : Prop := mkMsgSetOk {
  ok_nonces n m : msgs ms !! n = Some m -> sm_Nonce m = n ∧ in_u64 n;
  ok_next : in_u64 (nextNonce ms);
  ok_funds : requiredFunds ms = map_sumZ sm_RequiredFunds (msgs ms);
}.

(** The nonce handed out next is free. *)
Definition next_free (ms : msgSet) : Prop := msgs ms !! nextNonce ms = None.

Lemma msgSet_ok_new nonce : in_u64 nonce -> msgSet_ok (newMsgSet nonce) ∧ next_free (newMsgSet nonce).
Proof.
  intros Hn. split; [split; [done|done|]|]; simpl; [by rewrite map_sumZ_empty|apply lookup_empty].
Qed.

Lemma wrapu64_range z : in_u64 (wrapu64 z).
Proof. unfold in_u64, wrapu64. apply Z.mod_pos_bound. lia. Qed.

Lemma fill_gap_at fuel : ∀ ms n, in_u64 n ->
  ∃ i, (i ≤ fuel)%nat ∧ fill_gap fuel ms n = wrapu64 (n + Z.of_nat i).
Proof.
  induction fuel as [|fuel IH]; intros ms n Hn; simpl.
  { exists 0%nat. by rewrite Z.add_0_r, wrapu64_id. }
  destruct (ms !! n); [|exists 0%nat; split; [lia|by rewrite Z.add_0_r, wrapu64_id]].
  destruct (IH ms (wrapu64 (n + 1)) (wrapu64_range _)) as (i & Hi & ->). exists (S i).
  split; [lia|]. unfold wrapu64. rewrite Zplus_mod_idemp_l. f_equal. lia.
Qed.

(** Past a nonce the loop does not come back to it. *)
Lemma fill_gaps_past ms n :
  in_u64 n -> Z.of_nat (size ms) < 2 ^ 64 - 2 -> fill_gaps ms (wrapu64 (n + 1)) ≠ n.
Proof.
  intros Hn Hsize Heq. destruct (fill_gap_at (S (size ms)) ms (wrapu64 (n + 1)) (wrapu64_range _))
    as (i & Hi & Hat). unfold fill_gaps in Heq. rewrite Hat in Heq.
  unfold wrapu64, in_u64 in *. rewrite Zplus_mod_idemp_l in Heq.
  assert (Hd : (1 + Z.of_nat i) mod 2 ^ 64 = 0).
  { replace (1 + Z.of_nat i) with ((n + 1 + Z.of_nat i) - n) by lia.
    rewrite Zminus_mod, Heq, (Z.mod_small n) by lia. by rewrite Z.sub_diag. }
  rewrite Z.mod_small in Hd; lia.
Qed.

Definition small (ms : msgSet) : Prop := Z.of_nat (size (msgs ms)) < 2 ^ 64 - 2.

Lemma add_nonce_spec ms nonce strict gap next g m :
  in_u64 nonce -> msgSet_ok ms -> next_free ms -> small ms ->
  add_nonce ms nonce strict gap = Ok (next, g) ->
  in_u64 next ∧ <[nonce := m]> (msgs ms) !! next = None ∧ (g = true ↔ nextNonce ms < nonce) ∧
  (strict = true → nonce ≤ nextNonce ms ∨ nonce ≤ wrapu64 (nextNonce ms + gap)).
Proof.
  intros Hn Hok Hfree Hsmall H. unfold add_nonce in H.
  pose proof (ok_next _ Hok) as Hnext. unfold small in Hsmall.
  destruct (Z.eqb_spec nonce (nextNonce ms)) as [->|Hne].
  { simplify_eq. split; [apply fill_gap_range, wrapu64_range|]. split; [|split; [split; [done|lia]|lia]].
    rewrite lookup_insert_ne; [apply fill_gaps_free; [apply wrapu64_range|lia]|].
    intros Heq. by apply (fill_gaps_past (msgs ms) (nextNonce ms) Hnext). }
  destruct (strict && (wrapu64 (nextNonce ms + gap) <? nonce)) eqn:Egap; [done|].
  assert (Hs : strict = true → nonce ≤ nextNonce ms ∨ nonce ≤ wrapu64 (nextNonce ms + gap)).
  { intros ->. simpl in Egap. apply Z.ltb_ge in Egap. by right. }
  destruct (Z.ltb_spec (nextNonce ms) nonce); simplify_eq;
    (split; [done|]; split; [by rewrite lookup_insert_ne|]; split; [|done]; split; [done|lia]).
Qed.

Lemma msgSet_ok_insert ms m next :
  msgSet_ok ms -> in_u64 (sm_Nonce m) -> in_u64 next ->
  msgSet_ok (mkMsgSet (<[sm_Nonce m := m]> (msgs ms)) next
    (getRequiredFunds (sm_Nonce m) ms + sm_RequiredFunds m)).
Proof.
  intros Hok Hn Hnext. split; simpl; [|done|].
  - intros n m' H. destruct (decide (sm_Nonce m = n)) as [<-|Hne].
    + rewrite lookup_insert_eq in H. by simplify_eq.
    + rewrite lookup_insert_ne in H by done. by apply (ok_nonces _ Hok).
  - unfold getRequiredFunds. rewrite (ok_funds _ Hok). destruct (msgs ms !! sm_Nonce m) as [old|] eqn:E.
    + rewrite (map_sumZ_insert_Some _ _ _ _ _ E). lia.
    + rewrite map_sumZ_insert_None by done. lia.
Qed.

Lemma msgSet_ok_rm ms nonce applied :
  msgSet_ok ms -> in_u64 nonce -> msgSet_ok (rm nonce applied ms).
Proof.
  intros Hok Hn. pose proof (ok_next _ Hok). unfold rm. destruct (msgs ms !! nonce) as [m|] eqn:E.
  - split; simpl.
    + intros n m' H'. apply lookup_delete_Some in H' as [_ H']. by apply (ok_nonces _ Hok).
    + destruct applied; [destruct (_ <=? _)|destruct (_ <? _)]; done || apply wrapu64_range.
    + rewrite (ok_funds _ Hok), (map_sumZ_delete _ _ _ _ E). done.
  - destruct (applied && _); [|done]. split; simpl; [apply Hok| |apply Hok].
    apply fill_gap_range, wrapu64_range.
Qed.

(** Removing a message leaves the next nonce free, unless a message is reported
    applied ahead of the next nonce. *)
Lemma next_free_rm ms nonce applied :
  msgSet_ok ms -> small ms -> in_u64 nonce -> next_free ms ->
  (applied = true → nonce ≤ nextNonce ms) -> next_free (rm nonce applied ms).
Proof.
  intros Hok Hsmall Hn Hfree Horder. unfold next_free, rm in *. unfold small in Hsmall.
  destruct (msgs ms !! nonce) as [m|] eqn:E; simpl.
  - assert (nonce ≠ nextNonce ms) by congruence. apply lookup_delete_None.
    destruct applied; [specialize (Horder eq_refl)|].
    + destruct (Z.leb_spec (nextNonce ms) nonce); [lia|by right].
    + destruct (Z.ltb_spec nonce (nextNonce ms)); [by left|by right].
  - destruct (applied && (nextNonce ms <=? nonce)); [|done]. simpl.
    apply fill_gaps_free; [apply wrapu64_range|lia].
Qed.

(** * Sequences of operations *)

Inductive ms_op :=
  | OpAdd (m : SignedMessage) (strict untrusted : bool)
  | OpRm (nonce : Z) (applied : bool).

Definition ms_step (Cid : SignedMessage → cid) (ms : msgSet) (op : ms_op) : msgSet :=
  match op with
  | OpAdd m strict untrusted => (add Cid m strict untrusted ms).2
  | OpRm nonce applied => rm nonce applied ms
  end.

(** Nonces are 64 bits wide, and the chain applies the messages of an actor in
    the order of their nonces. *)
Definition op_ok (ms : msgSet) (op : ms_op) : Prop :=
  match op with
  | OpAdd m _ _ => in_u64 (sm_Nonce m)
  | OpRm nonce applied => in_u64 nonce ∧ (applied = true → nonce ≤ nextNonce ms)
  end.

Inductive ms_reaches (Cid : SignedMessage → cid) (nonce : Z) : nat → msgSet → Prop :=
  | ms_start : ms_reaches Cid nonce 0 (newMsgSet nonce)
  | ms_next k ms op : ms_reaches Cid nonce k ms -> op_ok ms op ->
      ms_reaches Cid nonce (S k) (ms_step Cid ms op).

(** What a successful [add] did, and that a failed one did nothing. *)
Definition add_effect (Cid : SignedMessage → cid) (m : SignedMessage) (strict untrusted : bool)
    (ms : msgSet) : Prop :=
  match add Cid m strict untrusted ms with
  | (Err _, ms') => ms' = ms
  | (Ok isNew, ms') =>
      msgs ms' = <[sm_Nonce m := m]> (msgs ms) ∧
      (isNew = true ↔ msgs ms !! sm_Nonce m = None) ∧
      (∀ old, msgs ms !! sm_Nonce m = Some old →
         Cid m ≠ Cid old ∧ ComputeMinRBF (sm_Premium old) ≤ sm_Premium m) ∧
      (strict = true →
         (sm_Nonce m ≤ nextNonce ms ∨
          sm_Nonce m ≤ wrapu64 (nextNonce ms + if untrusted then 0 else MaxNonceGap)) ∧
         Z.of_nat (size (msgs ms')) ≤
           Z.max (Z.of_nat (size (msgs ms)))
             (if untrusted then MaxUntrustedActorPendingMessages else MaxActorPendingMessages))
  end.

Lemma add_sound Cid m strict untrusted ms :
  in_u64 (sm_Nonce m) -> msgSet_ok ms -> next_free ms -> small ms ->
  add_effect Cid m strict untrusted ms ∧
  msgSet_ok (add Cid m strict untrusted ms).2 ∧ next_free (add Cid m strict untrusted ms).2.
Proof.
  intros Hn Hok Hfree Hsmall. unfold add_effect, add.
  destruct (add_nonce _ _ _ _) as [[next g]|e] eqn:Ea; [|done].
  destruct (add_nonce_spec _ _ _ _ _ _ m Hn Hok Hfree Hsmall Ea) as (Hnext & Hnone & _ & Hstrict).
  pose proof (msgSet_ok_insert ms m next Hok Hn Hnext) as Hins. unfold getRequiredFunds in Hins.
  destruct (msgs ms !! sm_Nonce m) as [old|] eqn:E.
  - destruct (strict && g); [done|]. case_bool_decide as Hcid; [done|].
    destruct (Z.ltb_spec (sm_Premium m) (ComputeMinRBF (sm_Premium old))); [done|].
    cbn [msgs fst snd]. split; [|by split]. split; [done|]. split; [done|].
    split; [intros ? [= <-]; by split|]. intros Hs. split; [auto|].
    rewrite map_size_insert_Some by (by eexists). lia.
  - destruct (strict && _) eqn:El; [done|]. cbn [msgs fst snd].
    split; [|by split]. split; [done|]. split; [done|]. split; [done|]. intros ->. split; [auto|].
    simpl in El. apply Z.leb_gt in El. rewrite map_size_insert_None by done. lia.
Qed.

Lemma ms_step_size Cid ms op :
  (size (msgs (ms_step Cid ms op)) ≤ S (size (msgs ms)))%nat.
Proof.
  destruct op as [m strict untrusted|nonce applied]; simpl.
  - unfold add. destruct (add_nonce _ _ _ _) as [[next g]|e]; [|simpl; lia].
    destruct (msgs ms !! sm_Nonce m) eqn:E;
      repeat (match goal with |- context [if ?b then _ else _] => destruct b end); simpl; try lia;
      rewrite map_size_insert, E; simpl; lia.
  - unfold rm. destruct (msgs ms !! nonce) eqn:E; simpl; [rewrite map_size_delete, E; simpl; lia|].
    destruct (applied && _); simpl; lia.
Qed.

(** whatever is added and removed, the messages of an actor are stored under
    their nonces, the reserved funds are the sum of what they require, and the next
    nonce is free.  A refused message changes nothing.  An accepted one is stored;
    it replaces a different message only for at least a quarter more premium plus
    one; and under strict checks it is at most [MaxNonceGap] ahead (none for an
    untrusted sender) and does not take the set over its limit. *)
Theorem msgSet_sound Cid nonce k ms m strict untrusted :
  in_u64 nonce -> Z.of_nat k < 2 ^ 63 -> ms_reaches Cid nonce k ms -> in_u64 (sm_Nonce m) ->
  msgSet_ok ms ∧ next_free ms ∧ add_effect Cid m strict untrusted ms.
Proof.
  intros Hnonce Hk Hr Hm.
  assert (HI : msgSet_ok ms ∧ next_free ms ∧ (size (msgs ms) ≤ k)%nat).
  { induction Hr as [|k ms op _ IH Hop].
    - destruct (msgSet_ok_new nonce Hnonce) as [? ?]. split; [done|]. split; [done|]. simpl.
      by rewrite map_size_empty.
    - destruct IH as (Hok & Hfree & Hsize); [lia|].
      assert (Hsmall : small ms) by (unfold small; lia).
      pose proof (ms_step_size Cid ms op). split; [|split; [|lia]].
      all: destruct op as [m' st un|n ap]; simpl in *.
      + by apply add_sound.
      + apply msgSet_ok_rm; tauto.
      + by apply add_sound.
      + apply next_free_rm; tauto. }
  destruct HI as (Hok & Hfree & Hsize). split; [done|]. split; [done|].
  apply add_sound; try done. unfold small. lia.
Qed.

(** Without strict checks the limits for untrusted senders are never looked at. *)
Lemma add_lax_untrusted Cid m ms : add Cid m false true ms = add Cid m false false ms.
Proof. reflexivity. Qed.

Module MsgExample.
Definition signed (nonce premium : Z) (data : bytes) : SignedMessage :=
  mkSignedMessage (mkMessage 0 (IDAddr 101) (BLSAddr "alice") nonce (Some 0) 1000000
                     (Some 200) (Some premium) 0 EmptyString) SigTypeBLS data.

Definition cid_of (m : SignedMessage) : cid := sm_SigData m.

Definition two_pending : msgSet :=
  (add cid_of (signed 7 10 "b") true false (add cid_of (signed 5 10 "a") true false (newMsgSet 5)).2).2.
End MsgExample.

Lemma msgSet_sound_witness :
  let ms := MsgExample.two_pending in
  nextNonce ms = 6 ∧ (add MsgExample.cid_of (MsgExample.signed 6 12 "c") true false ms).2.(nextNonce) = 8 ∧
  requiredFunds ms = map_sumZ sm_RequiredFunds (msgs ms).
Proof.
  split; [vm_compute; reflexivity|]. split; [vm_compute; reflexivity|].
  destruct (msgSet_sound MsgExample.cid_of 5 2 MsgExample.two_pending (MsgExample.signed 6 12 "c") true false)
    as (Hok & _ & _); [by vm_compute|by vm_compute| |by vm_compute|exact (ok_funds _ Hok)].
  apply (ms_next _ _ 1 _ (OpAdd (MsgExample.signed 7 10 "b") true false)); [|by vm_compute].
  apply (ms_next _ _ 0 _ (OpAdd (MsgExample.signed 5 10 "a") true false)); [constructor|by vm_compute].
Defined.

(** A message applied ahead of the next nonce leaves a next nonce that is taken,
    although the code takes this to be impossible. *)
Lemma rm_applied_ahead :
  let pending n := MsgExample.signed n 10 "x" in
  let ms := mkMsgSet {[7 := pending 7; 8 := pending 8]} 5 400000000 in
  nextNonce (rm 7 true ms) = 8 ∧ msgs (rm 7 true ms) !! 8 = Some (pending 8).
Proof. vm_compute. done. Qed.
