(* ===== verification/MessagePool.v ===== *)
(** The message pool (src/chain/messagepool/messagepool.go): admission, removal,
    nonces, reorganisations.

    The chain the pool asks ([mp.api], a [Provider]) is a parameter, with the
    serialisation, hashing and signature checks of the libraries; the caches
    in front of them (nonces by tipset and address, verified signatures) return what
    was computed before and do not show.  Locks serialise the operations, each of which is
    one function on the pool's state; publication, the datastore of local messages
    and the prune signal are recorded in the state. *)

From coqutil Require Import Datatypes.RecordSetters.
From S2P Require Import Prelude Gas Types Tipset ChainIndex MsgSet.
Import DoubleBraceUpdate.
Import Gas.Prices.

(** * State *)

Record MessagePool := mkMessagePool {
  pending : gmap address msgSet;
  localAddrs : gset address;
  keyCache : gmap address address;
  curTs : TipSet;
  currentSize : Z;
  republished : gset cid;
  blsSigCache : gmap cid bytes;
  localMsgs : gmap cid SignedMessage;
  pruneTrigger : bool;
  repubTrigger : bool;
  published : list SignedMessage;
}.

(** What the pool asks of the node; [None] is an error. *)
Record Provider := mkProvider {
  GetActorAfter : address → TipSet → option Actor;
  StateAccountKeyAtFinality : address → TipSet → option address;
  StateNetworkVersion : Z → Z;
  PutSigned : SignedMessage → bool;
  PutMessage : Message → bool;
  ChainComputeBaseFee : TipSet → option Z;
  PubSubPublish : SignedMessage → bool;
  MessagesForBlock : BlockHeader → option (list Message * list SignedMessage);
  LoadTipSet : bytes → option TipSet;
  (** serialisation, hashing and signature checks *)
  block_Cid : SignedMessage → cid;
  msg_Cid : Message → cid;
  sm_Size : SignedMessage → Z;
  ChainLength : SignedMessage → Z;
  VerifyMsgSig : SignedMessage → bool;
  (** [Add] of the cache of BLS signatures, which may evict others *)
  sigCache_Add : cid → bytes → gmap cid bytes → gmap cid bytes;
  serializes : SignedMessage → bool;
  localMsgs_Put : SignedMessage → bool;
  ZeroAddress : address;
  SizeLimitHigh : Z;
  UpgradeCalicoHeight : Z;
}.

Definition MaxMessageSize : Z := 65536.
Definition baseFeeLowerBoundFactor : Z := 10.
Definition baseFeeLowerBoundFactorConservative : Z := 100.

Definition getBaseFeeLowerBound (baseFee factor : Z) : Z :=
  let bound := big_div baseFee factor in
  if bound <? MinimumBaseFee then MinimumBaseFee else bound.

Section Pool.
Variable api : Provider.

Definition sm_Cid (m : SignedMessage) : cid :=
  if bool_decide (sm_SigType m = SigTypeBLS) then msg_Cid api (sm_Message m) else block_Cid api m.

(** [vm.PricelistByEpoch(epoch).OnChainMessage(size).Total()]; the table always has
    the genesis list. *)
Definition minGas (epoch size : Z) : Z :=
  match PricelistByEpoch (Prices (UpgradeCalicoHeight api)) epoch with
  | Some pl => Total (OnChainMessage pl size)
  | None => 0
  end.

(** * Addresses *)

Definition resolveToKey (addr : address) (mp : MessagePool) : option address * MessagePool :=
  match keyCache mp !! addr with
  | Some a => (Some a, mp)
  | None =>
      match StateAccountKeyAtFinality api addr (curTs mp) with
      | None => (None, mp)
      | Some ka => (Some ka, mp {{ keyCache := <[ka := ka]> (<[addr := ka]> (keyCache mp)) }})
      end
  end.

(** The set of an actor, if there is one, with the key it is stored under, where
    changes through the returned pointer show. *)
Definition getPendingMset (addr : address) (mp : MessagePool)
    : option (address * option msgSet) * MessagePool :=
  let '(ra, mp) := resolveToKey addr mp in
  ((fun ra => (ra, pending mp !! ra)) <$> ra, mp).

Definition store_mset (ra : address) (ms : msgSet) (mp : MessagePool) : MessagePool :=
  mp {{ pending := <[ra := ms]> (pending mp) }}.

Definition setPendingMset (addr : address) (ms : msgSet) (mp : MessagePool)
    : option address * MessagePool :=
  match resolveToKey addr mp with
  | (Some ra, mp) => (Some ra, store_mset ra ms mp)
  | (None, mp) => (None, mp)
  end.

Definition deletePendingMset (addr : address) (mp : MessagePool) : bool * MessagePool :=
  match resolveToKey addr mp with
  | (Some ra, mp) => (true, mp {{ pending := delete ra (pending mp) }})
  | (None, mp) => (false, mp)
  end.

Definition isLocal (addr : address) (mp : MessagePool) : option bool * MessagePool :=
  let '(ra, mp) := resolveToKey addr mp in
  ((fun ra => bool_decide (ra ∈ localAddrs mp)) <$> ra, mp).

Definition setLocal (addr : address) (mp : MessagePool) : bool * MessagePool :=
  match resolveToKey addr mp with
  | (Some ra, mp) => (true, mp {{ localAddrs := {[ra]} ∪ localAddrs mp }})
  | (None, mp) => (false, mp)
  end.

(** * Checks *)

Definition getStateNonce (addr : address) (ts : TipSet) : option Z :=
  Types.Nonce <$> GetActorAfter api addr ts.

Definition getStateBalance (addr : address) (ts : TipSet) : option Z :=
  Types.Balance <$> GetActorAfter api addr ts.

Definition checkMessage (m : SignedMessage) (mp : MessagePool) : option mp_error :=
  if MaxMessageSize <? sm_Size api m then Some ErrMessageTooBig
  else match ValidForBlockInclusion (ZeroAddress api) (sm_Message m) 0
               (StateNetworkVersion api (ts_height (curTs mp))) with
  | Some e => Some (ErrInvalidMessage e)
  | None =>
      if bool_decide (To (sm_Message m) = Undef) then Some ErrInvalidToAddr
      else if TotalFilecoinInt <=? sm_Value m then Some ErrMessageValueTooHigh
      else if sm_FeeCap m <? MinimumBaseFee then Some ErrGasFeeCapTooLow
      else if VerifyMsgSig api m then None else Some ErrSignature
  end.

(** Whether to publish the message at once. *)
Definition verifyMsgBeforeAdd (m : SignedMessage) (ts : TipSet) (local : bool) : result mp_error bool :=
  let epoch := ts_height ts ⊞ 1 in
  match ValidForBlockInclusion (ZeroAddress api) (sm_Message m) (minGas epoch (ChainLength api m))
          (StateNetworkVersion api epoch) with
  | Some e => Err (ErrInvalidMessage e)
  | None =>
      let baseFee := match Blocks ts with
                     | b :: _ => Some (ParentBaseFee b)
                     | [] => ChainComputeBaseFee api ts
                     end in
      match baseFee with
      | None => Err ErrProvider
      | Some baseFee =>
          let bound := getBaseFeeLowerBound baseFee baseFeeLowerBoundFactorConservative in
          if sm_FeeCap m <? bound then (if local then Ok false else Err ErrSoftValidationFailure)
          else Ok local
      end
  end.

Definition checkBalance (m : SignedMessage) (ts : TipSet) (mp : MessagePool)
    : option mp_error * MessagePool :=
  match getStateBalance (sm_From m) ts with
  | None => (Some ErrSoftValidationFailure, mp)
  | Some balance =>
      let required := sm_RequiredFunds m in
      if balance <? required then (Some ErrNotEnoughFunds, mp)
      else match getPendingMset (sm_From m) mp with
      | (None, mp) => (Some ErrProvider, mp)
      | (Some (_, mset), mp) =>
          let required := match mset with
                          | Some ms => required + getRequiredFunds (sm_Nonce m) ms
                          | None => required
                          end in
          if balance <? required then (Some ErrSoftValidationFailure, mp) else (None, mp)
      end
  end.

(** * Adding *)

(** [mset.add] on the set stored under [ra], and the size of the pool. *)
Definition add_to_mset (m : SignedMessage) (strict untrusted : bool) (ra : address) (ms : msgSet)
    (mp : MessagePool) : option mp_error * MessagePool :=
  match MsgSet.add sm_Cid m strict untrusted ms with
  | (Err e, _) => (Some e, mp)
  | (Ok incr, ms') =>
      let mp := store_mset ra ms' mp in
      if incr then
        let size := currentSize mp ⊞ 1 in
        (None, mp {{ currentSize := size;
                     pruneTrigger := pruneTrigger mp || (SizeLimitHigh api <? size) }})
      else (None, mp)
  end.

Definition addLocked (m : SignedMessage) (strict untrusted : bool) (mp : MessagePool)
    : option mp_error * MessagePool :=
  let mp := if bool_decide (sm_SigType m = SigTypeBLS)
            then mp {{ blsSigCache := sigCache_Add api (sm_Cid m) (sm_SigData m) (blsSigCache mp) }}
            else mp in
  if negb (PutSigned api m) then (Some ErrProvider, mp)
  else if negb (PutMessage api (sm_Message m)) then (Some ErrProvider, mp)
  else match getPendingMset (sm_From m) mp with
  | (None, mp) => (Some ErrProvider, mp)
  | (Some (ra, Some ms), mp) => add_to_mset m strict untrusted ra ms mp
  | (Some (_, None), mp) =>
      match getStateNonce (sm_From m) (curTs mp) with
      | None => (Some ErrProvider, mp)
      | Some nonce =>
          match setPendingMset (sm_From m) (newMsgSet nonce) mp with
          | (None, mp) => (Some ErrProvider, mp)
          | (Some ra, mp) => add_to_mset m strict untrusted ra (newMsgSet nonce) mp
          end
      end
  end.

Definition addLocal (m : SignedMessage) (mp : MessagePool) : option mp_error * MessagePool :=
  match setLocal (sm_From m) mp with
  | (false, mp) => (Some ErrProvider, mp)
  | (true, mp) =>
      if negb (serializes api m) then (Some ErrProvider, mp)
      else if negb (localMsgs_Put api m) then (Some ErrProvider, mp)
      else (None, mp {{ localMsgs := <[sm_Cid m := m]> (localMsgs mp) }})
  end.

(** The checks of [addTs] and [addLoaded] before the message is stored. *)
Definition pre_add (m : SignedMessage) (ts : TipSet) (local : bool) (mp : MessagePool)
    : result mp_error bool * MessagePool :=
  match getStateNonce (sm_From m) ts with
  | None => (Err ErrSoftValidationFailure, mp)
  | Some snonce =>
      if sm_Nonce m <? snonce then (Err ErrNonceTooLow, mp)
      else match verifyMsgBeforeAdd m ts local with
      | Err e => (Err e, mp)
      | Ok publish =>
          match checkBalance m ts mp with
          | (Some e, mp) => (Err e, mp)
          | (None, mp) => (Ok publish, mp)
          end
      end
  end.

Definition addTs (m : SignedMessage) (ts : TipSet) (local untrusted : bool) (mp : MessagePool)
    : result mp_error bool * MessagePool :=
  match pre_add m ts local mp with
  | (Err e, mp) => (Err e, mp)
  | (Ok publish, mp) =>
      match addLocked m (negb local) untrusted mp with
      | (Some e, mp) => (Err e, mp)
      | (None, mp) =>
          if local then
            match addLocal m mp with
            | (Some e, mp) => (Err e, mp)
            | (None, mp) => (Ok publish, mp)
            end
          else (Ok publish, mp)
      end
  end.

Definition addLoaded (m : SignedMessage) (mp : MessagePool) : option mp_error * MessagePool :=
  match checkMessage m mp with
  | Some e => (Some e, mp)
  | None =>
      match pre_add m (curTs mp) true mp with
      | (Err e, mp) => (Some e, mp)
      | (Ok _, mp) => addLocked m false false mp
      end
  end.

Definition addSkipChecks (m : SignedMessage) (mp : MessagePool) : option mp_error * MessagePool :=
  addLocked m false false mp.

Definition push_with (untrusted : bool) (m : SignedMessage) (mp : MessagePool)
    : result mp_error cid * MessagePool :=
  match checkMessage m mp with
  | Some e => (Err e, mp)
  | None =>
      match addTs m (curTs mp) true untrusted mp with
      | (Err e, mp) => (Err e, mp)
      | (Ok publish, mp) =>
          if publish then
            if negb (serializes api m) then (Err ErrProvider, mp)
            else if negb (PubSubPublish api m) then (Err ErrProvider, mp)
            else (Ok (sm_Cid m), mp {{ published := published mp ++ [m] }})
          else (Ok (sm_Cid m), mp)
      end
  end.

Definition Push := push_with false.
Definition PushUntrusted := push_with true.

Definition Add (m : SignedMessage) (mp : MessagePool) : option mp_error * MessagePool :=
  match checkMessage m mp with
  | Some e => (Some e, mp)
  | None =>
      match addTs m (curTs mp) false false mp with
      | (Err e, mp) => (Some e, mp)
      | (Ok _, mp) => (None, mp)
      end
  end.

(** * Nonces and removal *)

Definition getNonceLocked (addr : address) (ts : TipSet) (mp : MessagePool)
    : option Z * MessagePool :=
  match getStateNonce addr ts with
  | None => (None, mp)
  | Some stateNonce =>
      match getPendingMset addr mp with
      | (None, mp) => (None, mp)
      | (Some (_, Some ms), mp) =>
          (Some (if nextNonce ms <? stateNonce then stateNonce else nextNonce ms), mp)
      | (Some (_, None), mp) => (Some stateNonce, mp)
      end
  end.

Definition GetNonce (addr : address) (mp : MessagePool) : option Z * MessagePool :=
  getNonceLocked addr (curTs mp) mp.

Definition remove (from : address) (nonce : Z) (applied : bool) (mp : MessagePool) : MessagePool :=
  match getPendingMset from mp with
  | (None, mp) | (Some (_, None), mp) => mp
  | (Some (ra, Some ms), mp) =>
      let mp := match msgs ms !! nonce with
                | Some _ => mp {{ currentSize := currentSize mp ⊟ 1 }}
                | None => mp
                end in
      let ms' := rm nonce applied ms in
      let mp := store_mset ra ms' mp in
      if bool_decide (msgs ms' = ∅) then (deletePendingMset from mp).2 else mp
  end.

Definition Remove := remove.

(** [toSlice] of an actor's messages; [order] lists them as the map was ranged. *)
Definition pendingFor (order : gmap Z SignedMessage → list SignedMessage) (a : address)
    (mp : MessagePool) : list SignedMessage * MessagePool :=
  match getPendingMset a mp with
  | (Some (_, Some ms), mp) =>
      if bool_decide (msgs ms = ∅) then ([], mp) else (toSlice (order (msgs ms)), mp)
  | (_, mp) => ([], mp)
  end.

(** [allPending]; [order] also lists the actors. *)
Definition allPending (actors : list address) (order : gmap Z SignedMessage → list SignedMessage)
    (mp : MessagePool) : list SignedMessage :=
  actors ≫= fun a => match pending mp !! a with Some ms => toSlice (order (msgs ms)) | None => [] end.

(** * Reorganisations *)

(** [rmsgs]: reverted messages by sender and nonce. *)
Abbreviation reverted := (gmap address (gmap Z SignedMessage)) (only parsing).

Definition rmsgs_add (rmsgs : reverted) (m : SignedMessage) : reverted :=
  <[sm_From m := <[sm_Nonce m := m]> (default ∅ (rmsgs !! sm_From m))]> rmsgs.

Definition rmsgs_rm (from : address) (nonce : Z) (st : reverted * MessagePool) : reverted * MessagePool :=
  let '(rmsgs, mp) := st in
  match rmsgs !! from with
  | None => (rmsgs, Remove from nonce true mp)
  | Some s =>
      match s !! nonce with
      | Some _ => (<[from := delete nonce s]> rmsgs, mp)
      | None => (rmsgs, Remove from nonce true mp)
      end
  end.

(** The cache holds BLS signatures only. *)
Definition RecoverSig (mp : MessagePool) (msg : Message) : option SignedMessage :=
  mkSignedMessage msg SigTypeBLS <$> blsSigCache mp !! msg_Cid api msg.

(** [MessagesForBlocks]: messages of the blocks, BLS ones with their signatures
    where the cache has them; an unreadable block fails the whole call. *)
Fixpoint MessagesForBlocks (mp : MessagePool) (blks : list BlockHeader) : option (list SignedMessage) :=
  match blks with
  | [] => Some []
  | b :: blks =>
      match MessagesForBlock api b with
      | None => None
      | Some (bmsgs, smsgs) =>
          rest ← MessagesForBlocks mp blks;
          Some (smsgs ++ omap (RecoverSig mp) bmsgs ++ rest)
      end
  end.

(** One reverted tipset; the boolean records an error for the caller. *)
Definition revert_tipset (st : reverted * MessagePool * bool) (ts : TipSet)
    : reverted * MessagePool * bool :=
  let '(rmsgs, mp, err) := st in
  match LoadTipSet api (ts_Parents ts) with
  | None => (rmsgs, mp, true)
  | Some pts =>
      let mp := mp {{ curTs := pts }} in
      match MessagesForBlocks mp (Blocks ts) with
      | None => (rmsgs, mp, true)
      | Some ms => (foldl rmsgs_add rmsgs ms, mp, err)
      end
  end.

Definition maybeRepub (c : cid) (mp : MessagePool) (trigger : bool) : bool :=
  trigger || bool_decide (c ∈ republished mp).

(** A message of an applied block, by sender, nonce and CID. *)
Definition apply_message (st : reverted * MessagePool * bool) (m : address * Z * cid)
    : reverted * MessagePool * bool :=
  let '(rmsgs, mp, trigger) := st in
  let '(from, nonce, c) := m in
  let '(rmsgs, mp) := rmsgs_rm from nonce (rmsgs, mp) in
  (rmsgs, mp, maybeRepub c mp trigger).

Definition apply_block (st : reverted * MessagePool * bool * bool) (b : BlockHeader)
    : reverted * MessagePool * bool * bool :=
  let '(st, err) := st in
  match MessagesForBlock api b with
  | None => (st, true)
  | Some (bmsgs, smsgs) =>
      let st := foldl apply_message st (map (fun m => (sm_From m, sm_Nonce m, sm_Cid m)) smsgs) in
      (foldl apply_message st (map (fun m => (From m, msgNonce m, msg_Cid api m)) bmsgs), err)
  end.

Definition apply_tipset (st : reverted * MessagePool * bool * bool) (ts : TipSet)
    : reverted * MessagePool * bool * bool :=
  let '(rmsgs, mp, trigger, err) := st in
  foldl apply_block (rmsgs, mp {{ curTs := ts }}, trigger, err) (Blocks ts).

(** [HeadChange]; [order] is the sequence in which the reverted messages that
    remain were ranged over.  The boolean reports an error. *)
Definition HeadChange (order : reverted → list SignedMessage) (revert apply : list TipSet)
    (mp : MessagePool) : bool * MessagePool :=
  let '(rmsgs, mp, err) := foldl revert_tipset (∅, mp, false) revert in
  let '(rmsgs, mp, trigger, err) := foldl apply_tipset (rmsgs, mp, false, err) apply in
  let mp := mp {{ repubTrigger := repubTrigger mp || trigger }} in
  (err, foldl (fun mp m => (addSkipChecks m mp).2) mp (order rmsgs)).

(** * Local messages *)

(** One record of the datastore of local messages; [false] stops the loop. *)
Definition load_one (sm : SignedMessage) (mp : MessagePool) : bool * MessagePool :=
  match addLoaded sm mp with
  | (Some ErrNonceTooLow, mp) => (true, mp)
  | (_, mp) => setLocal (sm_From sm) mp
  end.

(** [loadLocal]; a [None] is a record that cannot be read or decoded. *)
Fixpoint loadLocal (res : list (option SignedMessage)) (mp : MessagePool) : bool * MessagePool :=
  match res with
  | [] => (true, mp)
  | None :: _ => (false, mp)
  | Some sm :: res =>
      match load_one sm mp with
      | (true, mp) => loadLocal res mp
      | (false, mp) => (false, mp)
      end
  end.

(** * Clearing *)

Definition clearPending (mp : MessagePool) : MessagePool := mp {{ pending := ∅ }}.

Definition clear_local (mp : MessagePool) (la : address) : MessagePool :=
  match getPendingMset la mp with
  | (Some (_, Some ms), mp) =>
      mp {{ localMsgs := map_fold (fun _ m d => delete (sm_Cid m) d) (localMsgs mp) (msgs ms) }}
  | (_, mp) => mp
  end.

Definition clear_actor (mp : MessagePool) (a : address) : MessagePool :=
  match isLocal a mp with
  | (Some false, mp) => (deletePendingMset a mp).2
  | (_, mp) => mp
  end.

(** [Clear]: everything, or the actors that are not local; [las] and [actors] list
    the local addresses and the actors in the order they were ranged over. *)
Definition Clear (las actors : list address) (local : bool) (mp : MessagePool) : MessagePool :=
  if local
  then let mp := clearPending (foldl clear_local mp las) in mp {{ republished := ∅ }}
  else foldl clear_actor mp actors.
End Pool.
