(* ===== verification/PoolProps.v ===== *)
(** Correctness of the message pool ([MessagePool]): the invariant of the pool
    and what admission, removal and reorganisations do.

    The hypotheses on the node are collected in [ProviderLaws]: key addresses
    resolve to themselves at every tipset, and nonces are 64 bits wide. *)

From coqutil Require Import Datatypes.RecordSetters.
From S2P Require Import Prelude Gas Types Tipset ChainIndex MsgSet MessagePool.
Import DoubleBraceUpdate.
Import Gas.Prices.

Arguments constant {E} newValue _ /.

Class ProviderLaws (api : Provider) := {
  key_fixed a k ts ts' : StateAccountKeyAtFinality api a ts = Some k ->
    StateAccountKeyAtFinality api k ts' = Some k;
  block_nonces b bmsgs smsgs : MessagesForBlock api b = Some (bmsgs, smsgs) ->
    Forall (fun m => in_u64 (msgNonce m)) bmsgs ∧ Forall (fun m => in_u64 (sm_Nonce m)) smsgs;
  state_nonce a ts act : GetActorAfter api a ts = Some act -> in_u64 (Types.Nonce act);
}.

(** * The invariant *)

Definition pool_count (mp : MessagePool) : Z :=
  map_sumZ (fun ms => Z.of_nat (size (msgs ms))) (pending mp).

Section Invariant.
Variable api : Provider.
Context `{!ProviderLaws api}.

(** The address cache holds what the node returned. *)
Definition cache_ok (kc : gmap address address) : Prop :=
  ∀ a k, kc !! a = Some k -> ∃ ts, StateAccountKeyAtFinality api a ts = Some k.

Record sets_ok (mp : MessagePool) : Prop := mkSetsOk {
  so_cache : cache_ok (keyCache mp);
  so_sets ra ms : pending mp !! ra = Some ms -> msgSet_ok ms;
  so_keys ra ms n m : pending mp !! ra = Some ms -> msgs ms !! n = Some m ->
    keyCache mp !! sm_From m = Some ra;
}.

Record pool_ok (mp : MessagePool) : Prop := mkPoolOk {
  po_sets : sets_ok mp;
  po_size : currentSize mp = wrap64 (pool_count mp);
}.

(** [mp'] has the messages of [mp]; the cache may have learnt addresses. *)
Definition cache_grows (mp mp' : MessagePool) : Prop :=
  pending mp' = pending mp ∧ currentSize mp' = currentSize mp ∧ keyCache mp ⊆ keyCache mp' ∧
  curTs mp' = curTs mp.

#[local] Instance cache_grows_po : PreOrder cache_grows.
Proof.
  split; [by repeat split|]. intros a b c (?&?&?&?) (?&?&?&?).
  repeat split; [congruence..|by etrans|congruence].
Qed.

Lemma resolveToKey_spec addr mp :
  cache_ok (keyCache mp) ->
  ∃ mp', (resolveToKey api addr mp).2 = mp' ∧ cache_ok (keyCache mp') ∧ cache_grows mp mp' ∧
    (resolveToKey api addr mp).1 = keyCache mp' !! addr.
Proof.
  intros Hc. unfold resolveToKey. destruct (keyCache mp !! addr) as [a|] eqn:E.
  { exists mp. by repeat split. }
  destruct (StateAccountKeyAtFinality api addr (curTs mp)) as [ka|] eqn:Es; simpl;
    [|exists mp; by repeat split].
  eexists. split; [reflexivity|]. simpl.
  assert (Hka : ∀ x, keyCache mp !! ka = Some x -> x = ka).
  { intros x Hx. destruct (Hc _ _ Hx) as [ts Hts]. rewrite (key_fixed _ _ _ ts Es) in Hts. congruence. }
  split; [|split; [repeat split; simpl|]].
  - intros a k. simpl. rewrite lookup_insert_Some, lookup_insert_Some.
    intros [[<- <-]|[_ [[<- <-]|[_ H]]]]; [|by eexists|by apply Hc].
    exists (curTs mp). by apply (key_fixed _ _ _ (curTs mp) Es).
  - apply map_subseteq_spec. intros a x Hx. rewrite lookup_insert_Some, lookup_insert_Some.
    destruct (decide (ka = a)) as [<-|]; [left; by rewrite (Hka x Hx)|right; split; [done|]].
    right. split; [congruence|done].
  - destruct (decide (ka = addr)) as [->|]; [by rewrite lookup_insert_eq|].
    by rewrite lookup_insert_ne, lookup_insert_eq.
Qed.

Lemma getPendingMset_spec addr mp :
  cache_ok (keyCache mp) ->
  ∃ mp', cache_ok (keyCache mp') ∧ cache_grows mp mp' ∧
    getPendingMset api addr mp = ((fun ra => (ra, pending mp !! ra)) <$> keyCache mp' !! addr, mp').
Proof.
  intros Hc. destruct (resolveToKey_spec addr mp Hc) as (mp' & H2 & Hc' & Hg & H1). exists mp'.
  split; [done|]. split; [done|]. unfold getPendingMset. rewrite (surjective_pairing (resolveToKey _ _ _)).
  rewrite H1, H2. destruct Hg as [-> _]. done.
Qed.

Lemma resolveToKey_cached addr mp k :
  keyCache mp !! addr = Some k -> resolveToKey api addr mp = (Some k, mp).
Proof. intros H. unfold resolveToKey. by rewrite H. Qed.

(** What holds of a pool holds when only its cache has grown. *)
Lemma sets_ok_grows mp mp' :
  sets_ok mp -> cache_ok (keyCache mp') -> cache_grows mp mp' -> sets_ok mp'.
Proof.
  intros Hok Hc (Hp & _ & Hk & _). split; [done| |]; rewrite Hp; [apply Hok|].
  intros ra ms n m H1 H2. eapply lookup_weaken; [|done]. by eapply (so_keys _ Hok).
Qed.

Lemma pool_ok_grows mp mp' :
  pool_ok mp -> cache_ok (keyCache mp') -> cache_grows mp mp' -> pool_ok mp'.
Proof.
  intros [Hok Hs] Hc Hg. split; [by eapply sets_ok_grows|]. destruct Hg as (Hp & -> & _).
  unfold pool_count. by rewrite Hp.
Qed.

(** Storing a set whose messages are of senders with that key. *)
Lemma sets_ok_store mp ra ms :
  sets_ok mp -> msgSet_ok ms ->
  (∀ n m, msgs ms !! n = Some m -> keyCache mp !! sm_From m = Some ra) ->
  sets_ok (store_mset ra ms mp).
Proof.
  intros Hok Hms Hk. split; simpl; [apply Hok| |].
  - intros ra' ms'. rewrite lookup_insert_Some. intros [[_ <-]|[_ ?]]; [done|by eapply (so_sets _ Hok)].
  - intros ra' ms' n m. rewrite lookup_insert_Some.
    intros [[<- <-]|[_ ?]] ?; [by eapply Hk|by eapply (so_keys _ Hok)].
Qed.

Lemma pool_count_store mp ra ms ms' :
  pending mp !! ra = Some ms ->
  pool_count (store_mset ra ms' mp) = pool_count mp - Z.of_nat (size (msgs ms)) + Z.of_nat (size (msgs ms')).
Proof. intros H. unfold pool_count. simpl. by rewrite (map_sumZ_insert_Some _ _ _ _ _ H). Qed.

Lemma pool_count_store_new mp ra ms' :
  pending mp !! ra = None ->
  pool_count (store_mset ra ms' mp) = pool_count mp + Z.of_nat (size (msgs ms')).
Proof. intros H. unfold pool_count. simpl. rewrite map_sumZ_insert_None by done. lia. Qed.

Lemma wrap64_add_l a b : wrap64 (wrap64 a + b) = wrap64 (a + b).
Proof.
  unfold wrap64. f_equal. replace ((a + 2 ^ 63) mod 2 ^ 64 - 2 ^ 63 + b + 2 ^ 63)
    with ((a + 2 ^ 63) mod 2 ^ 64 + b) by lia.
  rewrite Zplus_mod_idemp_l. f_equal. lia.
Qed.

(** * Adding to a set *)

Lemma add_nonce_range ms nonce strict gap next g :
  in_u64 (nextNonce ms) -> add_nonce ms nonce strict gap = Ok (next, g) -> in_u64 next.
Proof.
  intros Hn. unfold add_nonce. destruct (nonce =? _).
  { intros [= <- _]. apply fill_gap_range, wrapu64_range. }
  destruct (strict && _); [done|]. by destruct (_ <? _); intros [= <- _].
Qed.

Lemma add_shape Cid m strict untrusted ms r ms' :
  MsgSet.add Cid m strict untrusted ms = (r, ms') ->
  match r with
  | Err _ => ms' = ms
  | Ok incr =>
      msgs ms' = <[sm_Nonce m := m]> (msgs ms) ∧ incr = bool_decide (msgs ms !! sm_Nonce m = None) ∧
      requiredFunds ms' = getRequiredFunds (sm_Nonce m) ms + sm_RequiredFunds m ∧
      (in_u64 (sm_Nonce m) -> msgSet_ok ms -> msgSet_ok ms')
  end.
Proof.
  unfold MsgSet.add. destruct (add_nonce _ _ _ _) as [[next g]|e] eqn:Ea; [|by intros [= <- <-]].
  assert (Hok : in_u64 (sm_Nonce m) -> msgSet_ok ms -> msgSet_ok (mkMsgSet (<[sm_Nonce m := m]> (msgs ms)) next
    (getRequiredFunds (sm_Nonce m) ms + sm_RequiredFunds m))).
  { intros Hn Hok. apply msgSet_ok_insert; [done..|]. by eapply add_nonce_range, Ea; apply Hok. }
  unfold getRequiredFunds in *. destruct (msgs ms !! sm_Nonce m) as [old|] eqn:E.
  - destruct (strict && g); [by intros [= <- <-]|]. destruct (bool_decide _); [by intros [= <- <-]|].
    destruct (_ <? _); intros [= <- <-]; done.
  - destruct (strict && _); intros [= <- <-]; done.
Qed.

Lemma size_insert_count (ms : gmap Z SignedMessage) n m :
  Z.of_nat (size (<[n := m]> ms)) = Z.of_nat (size ms) + if bool_decide (ms !! n = None) then 1 else 0.
Proof.
  case_bool_decide as H; [rewrite map_size_insert_None by done; lia|].
  rewrite map_size_insert_Some; [lia|]. by apply not_eq_None_Some.
Qed.

(** Adding under the key of the sender keeps the invariant, stores the message when
    it succeeds, and leaves the other sets alone. *)
Lemma add_to_mset_spec m strict untrusted ra ms mp :
  pool_ok mp -> in_u64 (sm_Nonce m) -> pending mp !! ra = Some ms -> keyCache mp !! sm_From m = Some ra ->
  let '(e, mp') := add_to_mset api m strict untrusted ra ms mp in
  pool_ok mp' ∧ keyCache mp' = keyCache mp ∧ curTs mp' = curTs mp ∧
  match e with
  | Some _ => mp' = mp
  | None => ∃ ms', pending mp' = <[ra := ms']> (pending mp) ∧ msgs ms' = <[sm_Nonce m := m]> (msgs ms) ∧
      requiredFunds ms' = getRequiredFunds (sm_Nonce m) ms + sm_RequiredFunds m
  end.
Proof.
  intros [Hok Hsize] Hn Hp Hk. unfold add_to_mset.
  destruct (MsgSet.add _ _ _ _ _) as [[incr|e] ms'] eqn:Ea; apply add_shape in Ea; [|split; [by split|done]].
  destruct Ea as (Hmsgs & Hincr & Hfunds & Hms).
  assert (Hsets : sets_ok (store_mset ra ms' mp)).
  { apply sets_ok_store; [done|by eapply Hms, (so_sets _ Hok)|]. intros n m'. rewrite Hmsgs, lookup_insert_Some.
    intros [[_ <-]|[_ ?]]; [done|by eapply (so_keys _ Hok)]. }
  pose proof (pool_count_store mp ra ms ms' Hp) as Hcount.
  rewrite Hmsgs, size_insert_count, <- Hincr in Hcount.
  assert (Hsz : ∀ z, z = (if incr then currentSize mp ⊞ 1 else currentSize mp) ->
    z = wrap64 (pool_count (store_mset ra ms' mp))).
  { intros z ->. rewrite Hcount, Hsize. unfold i64_add. destruct incr; [rewrite wrap64_add_l|]; f_equal; lia. }
  destruct incr; (split; [split; [by split; apply Hsets|by apply Hsz]|];
    split; [done|]; split; [done|]; exists ms'; done).
Qed.

(** The set a message of [addr] goes to, before it is created. *)
Definition set_of (mp : MessagePool) (ra : address) : gmap Z SignedMessage :=
  from_option msgs ∅ (pending mp !! ra).

Definition reserved (mp : MessagePool) (ra : address) (nonce : Z) : Z :=
  from_option (getRequiredFunds nonce) 0 (pending mp !! ra).

(** [m] has been added to the pool [mp] under the key [ra] of its sender. *)
Definition stored_as (m : SignedMessage) (ra : address) (mp mp' : MessagePool) : Prop :=
  keyCache mp' !! sm_From m = Some ra ∧
  ∃ ms', pending mp' = <[ra := ms']> (pending mp) ∧
    msgs ms' = <[sm_Nonce m := m]> (set_of mp ra) ∧
    requiredFunds ms' = reserved mp ra (sm_Nonce m) + sm_RequiredFunds m.

(** The sets of [mp'] are those of [mp], but for new empty ones. *)
Definition same_messages (mp mp' : MessagePool) : Prop := ∀ ra, set_of mp' ra = set_of mp ra.

Lemma getRequiredFunds_new n nonce : getRequiredFunds nonce (newMsgSet n) = 0.
Proof. unfold getRequiredFunds. simpl. by rewrite lookup_empty. Qed.

Lemma pool_ok_new mp ra n :
  pool_ok mp -> in_u64 n -> pending mp !! ra = None -> pool_ok (store_mset ra (newMsgSet n) mp).
Proof.
  intros [Hok Hs] Hn Hp. split.
  - apply sets_ok_store; [done|by apply msgSet_ok_new|]. intros ? ?. simpl. by rewrite lookup_empty.
  - rewrite pool_count_store_new by done. simpl. rewrite map_size_empty. simpl. by rewrite Z.add_0_r.
Qed.

Lemma unchanged mp mp' :
  pool_ok mp -> cache_ok (keyCache mp') -> cache_grows mp mp' ->
  pool_ok mp' ∧ keyCache mp ⊆ keyCache mp' ∧ curTs mp' = curTs mp ∧ same_messages mp mp'.
Proof.
  intros Hok Hc Hg. split; [by eapply pool_ok_grows|]. destruct Hg as (Hp & _ & ? & ?).
  do 2 (split; [done|]). intros ra. unfold set_of. by rewrite Hp.
Qed.

(** [addLocked] keeps the invariant; it adds the message or changes no message. *)
Lemma addLocked_spec m strict untrusted mp :
  pool_ok mp -> in_u64 (sm_Nonce m) ->
  let '(e, mp') := addLocked api m strict untrusted mp in
  pool_ok mp' ∧ keyCache mp ⊆ keyCache mp' ∧ curTs mp' = curTs mp ∧
  match e with Some _ => same_messages mp mp' | None => ∃ ra, stored_as m ra mp mp' end.
Proof.
  intros Hok0 Hn. unfold addLocked.
  set (mp0 := if bool_decide _ then _ else mp).
  assert (Hg0 : cache_grows mp mp0) by (unfold mp0; case_bool_decide; by repeat split).
  assert (Hc0 : cache_ok (keyCache mp0)).
  { unfold mp0. case_bool_decide; apply (po_sets _ Hok0). }
  clearbody mp0. pose proof (pool_ok_grows _ _ Hok0 Hc0 Hg0) as Hok.
  destruct (negb _); [by apply unchanged|]. destruct (negb _); [by apply unchanged|].
  destruct (getPendingMset_spec (sm_From m) mp0 Hc0) as (mp1 & Hc1 & Hg1 & ->).
  pose proof (pool_ok_grows _ _ Hok Hc1 Hg1) as Hok1.
  assert (Hg : cache_grows mp mp1) by (by etrans). pose proof Hg as (Hp & Hs & Hk & Ht).
  destruct (keyCache mp1 !! sm_From m) as [ra|] eqn:Era; simpl; [|by apply unchanged].
  destruct Hg1 as [Hp1 _]. rewrite <- Hp1. destruct (pending mp1 !! ra) as [ms|] eqn:Ems.
  - pose proof (add_to_mset_spec m strict untrusted ra ms mp1 Hok1 Hn Ems Era) as H.
    destruct (add_to_mset _ _ _ _ _ _ _) as [[e|] mp2]; destruct H as (H1 & H2 & H3 & H4).
    + subst mp2. by apply unchanged.
    + rewrite H2, H3. do 3 (split; [done|]). exists ra. split; [congruence|]. destruct H4 as (ms' & Hp' & Hm' & Hf').
      exists ms'. unfold set_of, reserved. rewrite <- Hp, Ems. by rewrite Hp'.
  - destruct (getStateNonce _ _ _) as [nonce|] eqn:En; [|by apply unchanged].
    assert (Hnonce : in_u64 nonce).
    { unfold getStateNonce in En. apply fmap_Some in En as (act & Ha & ->). by eapply state_nonce. }
    unfold setPendingMset. rewrite (resolveToKey_cached _ _ _ Era).
    pose proof (pool_ok_new mp1 ra nonce Hok1 Hnonce Ems) as Hok2.
    pose proof (add_to_mset_spec m strict untrusted ra (newMsgSet nonce) _ Hok2 Hn
      ltac:(apply lookup_insert_eq) Era) as H.
    destruct (add_to_mset _ _ _ _ _ _ _) as [[e|] mp2]; destruct H as (H1 & H2 & H3 & H4).
    + subst mp2. do 3 (split; [done|]). intros ra'. unfold set_of. simpl. rewrite <- Hp.
      destruct (decide (ra = ra')) as [<-|]; [by rewrite lookup_insert_eq, Ems|by rewrite lookup_insert_ne].
    + rewrite H2, H3. do 3 (split; [done|]). exists ra. split; [by rewrite H2|].
      destruct H4 as (ms' & Hp' & Hm' & Hf'). exists ms'. unfold set_of, reserved. rewrite <- Hp, Ems, Hp'.
      simpl. rewrite getRequiredFunds_new in Hf'. rewrite insert_insert_eq. done.
Qed.

(** * Admission *)

(** The message may be included in the block after [ts], its sender has not used
    its nonce, and can pay for the gas of everything it has pending under [ra]. *)
Definition admissible (m : SignedMessage) (ra : address) (ts : TipSet) (mp : MessagePool) : Prop :=
  let epoch := ts_height ts ⊞ 1 in
  ValidForBlockInclusion (ZeroAddress api) (sm_Message m) (minGas api epoch (ChainLength api m))
    (StateNetworkVersion api epoch) = None ∧
  ∃ act, GetActorAfter api (sm_From m) ts = Some act ∧ Types.Nonce act ≤ sm_Nonce m ∧
    reserved mp ra (sm_Nonce m) + sm_RequiredFunds m ≤ Types.Balance act.

Lemma checkBalance_spec m ts mp :
  cache_ok (keyCache mp) ->
  ∃ e mp', checkBalance api m ts mp = (e, mp') ∧ cache_ok (keyCache mp') ∧ cache_grows mp mp' ∧
    (e = None -> ∃ ra act, keyCache mp' !! sm_From m = Some ra ∧
      GetActorAfter api (sm_From m) ts = Some act ∧
      reserved mp ra (sm_Nonce m) + sm_RequiredFunds m ≤ Types.Balance act).
Proof.
  intros Hc. unfold checkBalance, getStateBalance.
  destruct (GetActorAfter api (sm_From m) ts) as [act|]; simpl; [|by eexists _, _].
  destruct (Z.ltb_spec (Types.Balance act) (sm_RequiredFunds m)); [by eexists _, _|].
  destruct (getPendingMset_spec (sm_From m) mp Hc) as (mp1 & Hc1 & Hg1 & ->).
  destruct (keyCache mp1 !! sm_From m) as [ra|] eqn:Era; simpl; [|by eexists _, _].
  match goal with |- context [?b <? ?r] => destruct (Z.ltb_spec b r) as [|Hle] end; [by eexists _, _|].
  eexists _, _. do 3 (split; [done|]). intros _. exists ra, act. do 2 (split; [done|]).
  unfold reserved. destruct (pending mp !! ra); simpl; lia.
Qed.

Lemma pre_add_spec m ts local mp :
  cache_ok (keyCache mp) ->
  ∃ r mp', pre_add api m ts local mp = (r, mp') ∧ cache_ok (keyCache mp') ∧ cache_grows mp mp' ∧
    (∀ publish, r = Ok publish ->
      ∃ ra, keyCache mp' !! sm_From m = Some ra ∧ admissible m ra ts mp).
Proof.
  intros Hc. unfold pre_add, getStateNonce.
  destruct (GetActorAfter api (sm_From m) ts) as [act|] eqn:Eact; simpl; [|by eexists _, _].
  destruct (Z.ltb_spec (sm_Nonce m) (Types.Nonce act)); [by eexists _, _|].
  destruct (verifyMsgBeforeAdd api m ts local) as [publish|e] eqn:Ev; [|by eexists _, _].
  destruct (checkBalance_spec m ts mp Hc) as (e & mp1 & -> & Hc1 & Hg1 & He).
  destruct e as [e|]; eexists _, _; do 3 (split; [done|]); [done|]. intros _ _.
  destruct (He eq_refl) as (ra & act' & Hra & Hact & Hfunds). exists ra. split; [done|]. split.
  - unfold verifyMsgBeforeAdd in Ev. by destruct (ValidForBlockInclusion _ _ _ _).
  - exists act'. rewrite Eact in Hact. by simplify_eq.
Qed.

Lemma addLocal_spec m mp :
  cache_ok (keyCache mp) ->
  ∃ e mp', addLocal api m mp = (e, mp') ∧ cache_ok (keyCache mp') ∧ cache_grows mp mp'.
Proof.
  intros Hc. unfold addLocal, setLocal. destruct (resolveToKey_spec (sm_From m) mp Hc) as (mp1 & H2 & Hc1 & Hg & H1).
  destruct (resolveToKey api (sm_From m) mp) as [[ra|] mp2]; simpl in *; subst mp2; [|by eexists _, _].
  assert (cache_grows mp (mp1 {{ localAddrs := {[ra]} ∪ localAddrs mp1 }})) by (destruct Hg as (?&?&?&?); by repeat split).
  destruct (negb _); [by eexists _, _|]. destruct (negb _); by eexists _, _.
Qed.

Lemma stored_as_grows m ra mp mp1 mp2 mp3 :
  cache_grows mp mp1 -> stored_as m ra mp1 mp2 -> cache_grows mp2 mp3 -> stored_as m ra mp mp3.
Proof.
  intros (Hp1 & _) (Hk & ms' & Hp & Hm & Hf) (Hp3 & _ & Hk3 & _). split; [by eapply lookup_weaken|].
  exists ms'. unfold set_of, reserved in *. by rewrite Hp3, Hp, <- Hp1.
Qed.

Lemma addTs_spec m ts local untrusted mp :
  pool_ok mp -> in_u64 (sm_Nonce m) ->
  let '(r, mp') := addTs api m ts local untrusted mp in
  pool_ok mp' ∧ (∀ publish, r = Ok publish -> ∃ ra, stored_as m ra mp mp' ∧ admissible m ra ts mp).
Proof.
  intros Hok Hn. unfold addTs.
  destruct (pre_add_spec m ts local mp (so_cache _ (po_sets _ Hok))) as (r & mp1 & -> & Hc1 & Hg1 & Hr).
  pose proof (pool_ok_grows _ _ Hok Hc1 Hg1) as Hok1. destruct r as [publish|e]; [|done].
  destruct (Hr publish eq_refl) as (ra & Hra & Hadm). clear Hr.
  pose proof (addLocked_spec m (negb local) untrusted mp1 Hok1 Hn) as H.
  destruct (addLocked _ _ _ _ _) as [[e|] mp2]; destruct H as (Hok2 & Hk2 & _ & H); [done|].
  destruct H as (ra' & Hst). assert (ra' = ra) as ->.
  { destruct Hst as [Hk _]. pose proof (lookup_weaken _ _ _ _ Hra Hk2). congruence. }
  destruct local; [|split; [done|]; intros p _; exists ra; split; [|done]; by eapply stored_as_grows].
  destruct (addLocal_spec m mp2 (so_cache _ (po_sets _ Hok2))) as (e & mp3 & -> & Hc3 & Hg3).
  pose proof (pool_ok_grows _ _ Hok2 Hc3 Hg3). destruct e; [done|]. split; [done|].
  intros p _. exists ra. split; [|done]. by eapply stored_as_grows.
Qed.

(** The checks that do not depend on the state of the sender. *)
Definition well_formed (m : SignedMessage) : Prop :=
  sm_Size api m ≤ MaxMessageSize ∧ To (sm_Message m) ≠ Undef ∧ sm_Value m < TotalFilecoinInt ∧
  MinimumBaseFee ≤ sm_FeeCap m ∧ VerifyMsgSig api m = true.

Lemma checkMessage_spec m mp : checkMessage api m mp = None -> well_formed m.
Proof.
  unfold checkMessage. destruct (Z.ltb_spec MaxMessageSize (sm_Size api m)); [done|].
  destruct (ValidForBlockInclusion _ _ _ _); [done|]. case_bool_decide as Hto; [done|].
  destruct (Z.leb_spec TotalFilecoinInt (sm_Value m)); [done|].
  destruct (Z.ltb_spec (sm_FeeCap m) MinimumBaseFee); [done|].
  destruct (VerifyMsgSig api m) eqn:Es; [|done]. intros _. by repeat split.
Qed.

Lemma push_with_spec untrusted m mp :
  pool_ok mp -> in_u64 (sm_Nonce m) ->
  let '(r, mp') := push_with api untrusted m mp in
  pool_ok mp' ∧ (∀ c, r = Ok c -> well_formed m ∧
    ∃ ra, stored_as m ra mp mp' ∧ admissible m ra (curTs mp) mp).
Proof.
  intros Hok Hn. unfold push_with. destruct (checkMessage api m mp) as [e|] eqn:Ec; [done|].
  apply checkMessage_spec in Ec. pose proof (addTs_spec m (curTs mp) true untrusted mp Hok Hn) as H.
  destruct (addTs _ _ _ _ _ _) as [[publish|e] mp1]; destruct H as [Hok1 H]; [|done].
  specialize (H publish eq_refl). destruct publish; [|by split].
  destruct (negb _); [done|]. destruct (negb _); [done|].
  split; [split; [by split; apply (po_sets _ Hok1)|apply Hok1]|]. intros c _. split; [done|]. exact H.
Qed.

Lemma Add_spec m mp :
  pool_ok mp -> in_u64 (sm_Nonce m) ->
  let '(e, mp') := Add api m mp in
  pool_ok mp' ∧ (e = None -> well_formed m ∧ ∃ ra, stored_as m ra mp mp' ∧ admissible m ra (curTs mp) mp).
Proof.
  intros Hok Hn. unfold Add. destruct (checkMessage api m mp) as [e|] eqn:Ec; [done|].
  apply checkMessage_spec in Ec. pose proof (addTs_spec m (curTs mp) false false mp Hok Hn) as H.
  destruct (addTs _ _ _ _ _ _) as [[publish|e] mp1]; destruct H as [Hok1 H]; [|done].
  split; [done|]. intros _. split; [done|]. by apply (H publish).
Qed.

Lemma addLoaded_ok m mp :
  pool_ok mp -> in_u64 (sm_Nonce m) -> pool_ok (addLoaded api m mp).2.
Proof.
  intros Hok Hn. unfold addLoaded. destruct (checkMessage api m mp); [done|].
  destruct (pre_add_spec m (curTs mp) true mp (so_cache _ (po_sets _ Hok))) as (r & mp1 & -> & Hc1 & Hg1 & _).
  pose proof (pool_ok_grows _ _ Hok Hc1 Hg1) as Hok1. destruct r; [|done].
  pose proof (addLocked_spec m false false mp1 Hok1 Hn) as H. by destruct (addLocked _ _ _ _ _), H.
Qed.

(** * Removal *)

Lemma rm_msgs nonce applied ms : msgs (rm nonce applied ms) = delete nonce (msgs ms).
Proof.
  unfold rm. destruct (msgs ms !! nonce) eqn:E; [done|]. rewrite delete_id by done.
  by destruct (applied && _).
Qed.

Lemma size_delete_count (ms : gmap Z SignedMessage) n :
  Z.of_nat (size (delete n ms)) = Z.of_nat (size ms) - match ms !! n with Some _ => 1 | None => 0 end.
Proof.
  destruct (ms !! n) as [m|] eqn:E; [|rewrite delete_id by done; lia].
  rewrite map_size_delete_Some by (by eexists).
  assert (size ms ≠ 0%nat); [|lia]. apply map_size_ne_0_lookup. by exists n, m.
Qed.

Lemma pool_ok_delete mp ra ms :
  pool_ok mp -> pending mp !! ra = Some ms -> msgs ms = ∅ ->
  pool_ok (mp {{ pending := delete ra (pending mp) }}).
Proof.
  intros [Hok Hs] Hp He. split; [split; simpl; [apply Hok| |]|].
  - intros ra' ms' H. apply lookup_delete_Some in H as [_ H]. by eapply (so_sets _ Hok).
  - intros ra' ms' n m H. apply lookup_delete_Some in H as [_ H]. by eapply (so_keys _ Hok).
  - etransitivity; [exact Hs|]. unfold pool_count. simpl.
    rewrite (map_sumZ_delete _ _ _ _ Hp), He, map_size_empty. f_equal. lia.
Qed.

(** The sets after the removal of [nonce] from the set of the key [ra]. *)
Definition removed_at (from : address) (nonce : Z) (mp mp' : MessagePool) : Prop :=
  keyCache mp ⊆ keyCache mp' ∧ curTs mp' = curTs mp ∧
  ∀ ra, set_of mp' ra =
    if bool_decide (keyCache mp' !! from = Some ra) then delete nonce (set_of mp ra) else set_of mp ra.

Lemma store_rm_ok mp ra ms nonce applied :
  pool_ok mp -> in_u64 nonce -> pending mp !! ra = Some ms ->
  pool_ok (store_mset ra (rm nonce applied ms)
    (match msgs ms !! nonce with Some _ => mp {{ currentSize := currentSize mp ⊟ 1 }} | None => mp end)).
Proof.
  intros [Hok Hs] Hn Hp.
  assert (Hsets : sets_ok (store_mset ra (rm nonce applied ms) mp)).
  { apply sets_ok_store; [done|by apply msgSet_ok_rm; [eapply (so_sets _ Hok)|]|].
    intros n m. rewrite rm_msgs. intros H. apply lookup_delete_Some in H as [_ H]. by eapply (so_keys _ Hok). }
  pose proof (pool_count_store mp ra ms (rm nonce applied ms) Hp) as Hc. rewrite rm_msgs, size_delete_count in Hc.
  destruct (msgs ms !! nonce); (split; [by split; apply Hsets|]).
  - transitivity (wrap64 (pool_count (store_mset ra (rm nonce applied ms) mp))); [|done].
    rewrite Hc. change (currentSize mp ⊟ 1 = wrap64 (pool_count mp - Z.of_nat (size (msgs ms)) + (Z.of_nat (size (msgs ms)) - 1))).
    rewrite Hs. unfold i64_sub. rewrite <- Z.add_opp_r, wrap64_add_l. f_equal. lia.
  - rewrite Hc. etransitivity; [exact Hs|]. f_equal. lia.
Qed.

Lemma removed_at_intro from nonce ra mp mp1 mp2 :
  cache_grows mp mp1 -> keyCache mp1 !! from = Some ra ->
  keyCache mp2 = keyCache mp1 -> curTs mp2 = curTs mp1 ->
  (∀ ra', ra ≠ ra' -> pending mp2 !! ra' = pending mp1 !! ra') ->
  set_of mp2 ra = delete nonce (set_of mp1 ra) -> removed_at from nonce mp mp2.
Proof.
  intros (Hp & _ & Hk & Ht) Era Hk2 Ht2 Hother Hset. split; [by rewrite Hk2|]. split; [congruence|].
  intros ra'. rewrite Hk2, Era. case_bool_decide as H; simplify_eq.
  - rewrite Hset. unfold set_of. by rewrite Hp.
  - unfold set_of. rewrite Hother by congruence. by rewrite Hp.
Qed.

Lemma remove_spec from nonce applied mp :
  pool_ok mp -> in_u64 nonce ->
  pool_ok (remove api from nonce applied mp) ∧ removed_at from nonce mp (remove api from nonce applied mp).
Proof.
  intros Hok Hn. unfold remove.
  destruct (getPendingMset_spec from mp (so_cache _ (po_sets _ Hok))) as (mp1 & Hc1 & Hg1 & ->).
  pose proof (pool_ok_grows _ _ Hok Hc1 Hg1) as Hok1. pose proof Hg1 as (Hp & _ & Hk & Ht).
  destruct (keyCache mp1 !! from) as [ra|] eqn:Era; simpl.
  2: { split; [done|]. split; [done|]. split; [done|]. intros ra. rewrite Era. unfold set_of. by rewrite Hp. }
  rewrite <- Hp. destruct (pending mp1 !! ra) as [ms|] eqn:Ems; simpl.
  2: { split; [done|]. apply (removed_at_intro _ _ ra mp mp1); try done.
       unfold set_of. rewrite Ems. symmetry. apply delete_id, lookup_empty. }
  pose proof (store_rm_ok mp1 ra ms nonce applied Hok1 Hn Ems) as Hok2.
  set (mp2 := store_mset _ _ _) in *.
  assert (H2 : keyCache mp2 = keyCache mp1 ∧ curTs mp2 = curTs mp1 ∧
    pending mp2 = <[ra := rm nonce applied ms]> (pending mp1)).
  { unfold mp2. by destruct (msgs ms !! nonce). }
  destruct H2 as (Hk2 & Ht2 & Hp2). clearbody mp2.
  assert (Hset : set_of mp1 ra = msgs ms) by (unfold set_of; by rewrite Ems).
  case_bool_decide as He.
  - unfold deletePendingMset. rewrite (resolveToKey_cached from mp2 ra) by congruence.
    split; [apply (pool_ok_delete _ _ (rm nonce applied ms)); [done|by rewrite Hp2, lookup_insert_eq|done]|].
    apply (removed_at_intro _ _ ra mp mp1); [done..| |].
    + intros ra' Hne. simpl. by rewrite Hp2, lookup_delete_ne, lookup_insert_ne by done.
    + rewrite Hset, <- (rm_msgs nonce applied), He. unfold set_of. simpl. by rewrite lookup_delete_eq.
  - split; [done|]. apply (removed_at_intro _ _ ra mp mp1); [done..| |].
    + intros ra' Hne. by rewrite Hp2, lookup_insert_ne.
    + rewrite Hset, <- (rm_msgs nonce applied). unfold set_of. by rewrite Hp2, lookup_insert_eq.
Qed.

(** * Reorganisations *)

Lemma foldl_keeps {A B} (P : A -> Prop) (f : A -> B -> A) l : ∀ a,
  P a -> (∀ a x, x ∈ l -> P a -> P (f a x)) -> P (foldl f a l).
Proof.
  induction l as [|x l IH]; intros a Ha Hf; simpl; [done|].
  apply IH; [|intros; apply Hf; [by right|done]]. apply Hf; [by left|done].
Qed.

(** A fold whose steps establish [Q x] for their element and keep what was
    established before establishes it for all elements. *)
Lemma foldl_each {A B} (I : A -> Prop) (R : A -> A -> Prop) (Q : B -> A -> Prop) (f : A -> B -> A) l :
  PreOrder R -> (∀ x a a', Q x a -> R a a' -> Q x a') ->
  (∀ a x, x ∈ l -> I a -> I (f a x) ∧ R a (f a x) ∧ Q x (f a x)) ->
  ∀ a, I a -> I (foldl f a l) ∧ R a (foldl f a l) ∧ ∀ x, x ∈ l -> Q x (foldl f a l).
Proof.
  intros HR HQ. induction l as [|x l IH]; intros Hf a Ha; simpl.
  { split; [done|]. split; [done|]. intros x Hx. by apply elem_of_nil in Hx. }
  destruct (Hf a x ltac:(by left) Ha) as (H1 & H2 & H3).
  destruct (IH ltac:(intros; apply Hf; [by right|done]) _ H1) as (H4 & H5 & H6).
  split; [done|]. split; [by etrans|]. intros y Hy. apply elem_of_cons in Hy as [->|Hy]; [by eapply HQ|auto].
Qed.

(** Reverted messages have 64-bit nonces. *)
Definition rmsgs_ok (r : gmap address (gmap Z SignedMessage)) : Prop :=
  ∀ a s n m, r !! a = Some s -> s !! n = Some m -> in_u64 (sm_Nonce m).

(** [order] lists the messages of a map of maps. *)
Definition lists_all (order : gmap address (gmap Z SignedMessage) → list SignedMessage) : Prop :=
  ∀ r m, m ∈ order r ↔ ∃ a s n, r !! a = Some s ∧ s !! n = Some m.

Lemma rmsgs_ok_empty : rmsgs_ok ∅.
Proof. intros a s n m. by rewrite lookup_empty. Qed.

Lemma rmsgs_add_ok r m : rmsgs_ok r -> in_u64 (sm_Nonce m) -> rmsgs_ok (rmsgs_add r m).
Proof.
  intros Hr Hm a s n m'. unfold rmsgs_add. rewrite lookup_insert_Some. intros [[<- <-]|[_ Ha]] Hs; [|by eapply Hr].
  apply lookup_insert_Some in Hs as [[_ <-]|[_ Hs]]; [done|].
  destruct (r !! sm_From m) eqn:E; simpl in Hs; [by eapply Hr|by rewrite lookup_empty in Hs].
Qed.

Lemma MessagesForBlocks_nonces mp blks : ∀ ms,
  MessagesForBlocks api mp blks = Some ms -> Forall (fun m => in_u64 (sm_Nonce m)) ms.
Proof.
  induction blks as [|b blks IH]; intros ms; simpl; [by intros [= <-]|].
  destruct (MessagesForBlock api b) as [[bmsgs smsgs]|] eqn:E; [|done].
  destruct (block_nonces _ _ _ E) as [Hb Hs].
  destruct (MessagesForBlocks api mp blks) as [rest|]; [|done]. simpl. intros [= <-].
  apply Forall_app. split; [done|]. apply Forall_app. split; [|by apply IH].
  apply Forall_forall. intros m Hm. apply list_elem_of_omap in Hm as (msg & Hin & Hr).
  unfold RecoverSig in Hr. apply fmap_Some in Hr as (sig & _ & ->).
  rewrite Forall_forall in Hb. by apply Hb.
Qed.

Lemma pool_ok_curTs mp ts : pool_ok mp -> pool_ok (mp {{ curTs := ts }}).
Proof. intros [Hok Hs]. split; [by split; apply Hok|exact Hs]. Qed.

Lemma revert_tipset_ok st ts :
  rmsgs_ok st.1.1 ∧ pool_ok st.1.2 ->
  rmsgs_ok (revert_tipset api st ts).1.1 ∧ pool_ok (revert_tipset api st ts).1.2.
Proof.
  destruct st as [[r mp] err]. simpl. intros [Hr Hok]. destruct (LoadTipSet api (ts_Parents ts)) as [pts|]; [|done].
  pose proof (pool_ok_curTs mp pts Hok) as Hok'. destruct (MessagesForBlocks _ _ _) as [ms|] eqn:E; [|done].
  apply MessagesForBlocks_nonces in E. split; [|exact Hok']. simpl. apply foldl_keeps; [done|].
  intros r' m Hm Hr'. rewrite Forall_forall in E. by apply rmsgs_add_ok; [|apply E].
Qed.

Lemma rmsgs_rm_ok from nonce r mp :
  rmsgs_ok r -> pool_ok mp -> in_u64 nonce ->
  rmsgs_ok (rmsgs_rm api from nonce (r, mp)).1 ∧ pool_ok (rmsgs_rm api from nonce (r, mp)).2.
Proof.
  intros Hr Hok Hn. pose proof (proj1 (remove_spec from nonce true mp Hok Hn)) as Hrm.
  unfold rmsgs_rm. destruct (r !! from) as [s|] eqn:Es; [|done]. destruct (s !! nonce) eqn:En; [|done].
  split; [|done]. simpl. intros a s' n m. rewrite lookup_insert_Some. intros [[_ <-]|[_ Ha]] Hm; [|by eapply Hr].
  apply lookup_delete_Some in Hm as [_ Hm]. by eapply Hr.
Qed.

(** The messages of a block, in the order they are taken out of the pool. *)
Definition block_messages (bmsgs : list Message) (smsgs : list SignedMessage) : list (address * Z * cid) :=
  map (fun m => (sm_From m, sm_Nonce m, sm_Cid api m)) smsgs ++
  map (fun m => (From m, msgNonce m, msg_Cid api m)) bmsgs.

Lemma apply_block_fold st err b bmsgs smsgs :
  MessagesForBlock api b = Some (bmsgs, smsgs) ->
  apply_block api (st, err) b = (foldl (apply_message api) st (block_messages bmsgs smsgs), err).
Proof. intros H. unfold apply_block, block_messages. by rewrite H, foldl_app. Qed.

Lemma block_messages_nonces b bmsgs smsgs from nonce c :
  MessagesForBlock api b = Some (bmsgs, smsgs) -> (from, nonce, c) ∈ block_messages bmsgs smsgs -> in_u64 nonce.
Proof.
  intros H Hin. destruct (block_nonces _ _ _ H) as [Hb Hs].
  rewrite Forall_forall in Hb. rewrite Forall_forall in Hs.
  unfold block_messages in Hin. apply elem_of_app in Hin as [Hin|Hin];
    apply list_elem_of_In, in_map_iff in Hin as (m & [= <- <- <-] & Hm); apply list_elem_of_In in Hm; auto.
Qed.

Lemma apply_tipset_ok st ts :
  rmsgs_ok st.1.1.1 ∧ pool_ok st.1.1.2 ->
  rmsgs_ok (apply_tipset api st ts).1.1.1 ∧ pool_ok (apply_tipset api st ts).1.1.2.
Proof.
  destruct st as [[[r mp] trigger] err]. simpl. intros [Hr Hok].
  apply (foldl_keeps (fun st : _ * _ * _ * _ => rmsgs_ok st.1.1.1 ∧ pool_ok st.1.1.2));
    [split; [done|by apply pool_ok_curTs]|].
  clear r mp trigger err Hr Hok. intros [st err] b _ H. destruct (MessagesForBlock api b) as [[bmsgs smsgs]|] eqn:E.
  2: { unfold apply_block. by rewrite E. }
  rewrite (apply_block_fold _ _ _ _ _ E). simpl.
  apply (foldl_keeps (fun st : _ * _ * _ => rmsgs_ok st.1.1 ∧ pool_ok st.1.2)); [done|].
  clear H. intros [[r mp] t] [[from nonce] c] Hin [Hr Hok]. cbn [fst snd] in *.
  pose proof (rmsgs_rm_ok from nonce r mp Hr Hok (block_messages_nonces _ _ _ _ _ _ E Hin)) as H.
  unfold apply_message. destruct (rmsgs_rm api from nonce (r, mp)) as [r1 mp1]. exact H.
Qed.

Lemma addSkipChecks_ok m mp : pool_ok mp -> in_u64 (sm_Nonce m) -> pool_ok (addSkipChecks api m mp).2.
Proof.
  intros Hok Hn. pose proof (addLocked_spec m false false mp Hok Hn) as H. unfold addSkipChecks.
  by destruct (addLocked _ _ _ _ _), H.
Qed.

Lemma HeadChange_ok order revert apply mp :
  lists_all order -> pool_ok mp -> pool_ok (HeadChange api order revert apply mp).2.
Proof.
  intros Hord Hok. unfold HeadChange.
  pose proof (foldl_keeps (fun st : _ * _ * _ => rmsgs_ok st.1.1 ∧ pool_ok st.1.2) (revert_tipset api) revert
    (∅, mp, false) (conj rmsgs_ok_empty Hok)
    (fun st ts _ => revert_tipset_ok st ts)) as H1.
  destruct (foldl (revert_tipset api) _ revert) as [[r1 mp1] err1].
  pose proof (foldl_keeps (fun st : _ * _ * _ * _ => rmsgs_ok st.1.1.1 ∧ pool_ok st.1.1.2) (apply_tipset api) apply
    (r1, mp1, false, err1) H1 (fun st ts _ => apply_tipset_ok st ts)) as H2.
  destruct (foldl (apply_tipset api) _ apply) as [[[r2 mp2] trigger] err2]. destruct H2 as [Hr2 Hok2].
  apply (foldl_keeps pool_ok); [split; [by split; apply (po_sets _ Hok2)|exact (po_size _ Hok2)]|].
  intros mp' m Hm Hok'. apply Hord in Hm as (a & s & n & Ha & Hs). apply addSkipChecks_ok; [done|by eapply Hr2].
Qed.

(** What a reorganisation that reverts nothing can do to the pool. *)
Definition shrinks (mp mp' : MessagePool) : Prop :=
  keyCache mp ⊆ keyCache mp' ∧ ∀ ra, set_of mp' ra ⊆ set_of mp ra.

#[local] Instance shrinks_po : PreOrder shrinks.
Proof.
  split; [by split|]. intros a b c [H1 H2] [H3 H4]. split; [by etrans|]. intros ra. etrans; [apply H4|apply H2].
Qed.

(** Nothing is pending at [nonce] for the key [kc] had for [from]. *)
Definition gone (kc : gmap address address) (from : address) (nonce : Z) (mp : MessagePool) : Prop :=
  ∀ ra, kc !! from = Some ra -> set_of mp ra !! nonce = None.

Lemma gone_shrinks kc from nonce mp mp' : gone kc from nonce mp -> shrinks mp mp' -> gone kc from nonce mp'.
Proof. intros H [_ Hs] ra Hra. specialize (H ra Hra). eapply lookup_weaken_None; [exact H|apply Hs]. Qed.

Lemma remove_gone kc from nonce mp :
  pool_ok mp -> kc ⊆ keyCache mp -> in_u64 nonce ->
  let mp' := remove api from nonce true mp in
  pool_ok mp' ∧ kc ⊆ keyCache mp' ∧ shrinks mp mp' ∧ gone kc from nonce mp'.
Proof.
  intros Hok Hkc Hn. destruct (remove_spec from nonce true mp Hok Hn) as (Hok' & Hk & _ & Hset).
  split; [done|]. split; [by etrans|]. split; [split; [done|]|].
  - intros ra. rewrite Hset. case_bool_decide; [apply delete_subseteq|done].
  - intros ra Hra. rewrite Hset, bool_decide_eq_true_2 by (eapply lookup_weaken; [exact Hra|by etrans]).
    apply lookup_delete_eq.
Qed.

(** Sender and nonce of a message in the blocks of [tss]. *)
Definition applied_in (b : BlockHeader) (from : address) (nonce : Z) : Prop :=
  ∃ bmsgs smsgs c, MessagesForBlock api b = Some (bmsgs, smsgs) ∧ (from, nonce, c) ∈ block_messages bmsgs smsgs.

Definition applied (tss : list TipSet) (from : address) (nonce : Z) : Prop :=
  ∃ ts b, ts ∈ tss ∧ b ∈ Blocks ts ∧ applied_in b from nonce.

(** The state of the application loops when nothing was reverted. *)
Definition applying (kc : gmap address address)
    (st : gmap address (gmap Z SignedMessage) * MessagePool * bool) : Prop :=
  st.1.1 = ∅ ∧ pool_ok st.1.2 ∧ kc ⊆ keyCache st.1.2.

Definition shrinks_st {A} (st st' : gmap address (gmap Z SignedMessage) * MessagePool * A) : Prop :=
  shrinks st.1.2 st'.1.2.

#[local] Instance shrinks_st_po A : PreOrder (@shrinks_st A).
Proof. split; [by intros st; unfold shrinks_st|intros a b c; unfold shrinks_st; apply transitivity]. Qed.

Lemma apply_message_gone kc st from nonce c :
  in_u64 nonce -> applying kc st ->
  let st' := apply_message api st (from, nonce, c) in
  applying kc st' ∧ shrinks_st st st' ∧ gone kc from nonce st'.1.2.
Proof.
  destruct st as [[r mp] t]. intros Hn (Hr & Hok & Hk). cbn [fst snd] in *. subst r. cbn.
  destruct (remove_gone kc from nonce mp Hok Hk Hn) as (H1 & H2 & H3 & H4). done.
Qed.

Notation pool_st := (gmap address (gmap Z SignedMessage) * MessagePool * bool * bool)%type (only parsing).

Definition shrinks_err (st st' : pool_st) : Prop :=
  shrinks_st st.1 st'.1 ∧ (st.2 = true -> st'.2 = true).

#[local] Instance shrinks_err_po : PreOrder shrinks_err.
Proof.
  split; [by intros st|]. intros a b c [H1 H2] [H3 H4]. split; [by etrans|tauto].
Qed.

Definition all_gone (kc : gmap address address) (P : address -> Z -> Prop) (st : pool_st) : Prop :=
  st.2 = false -> ∀ from nonce, P from nonce -> gone kc from nonce st.1.1.2.

Lemma all_gone_shrinks kc P st st' : all_gone kc P st -> shrinks_err st st' -> all_gone kc P st'.
Proof.
  intros H [Hs He] Hf from nonce HP. eapply gone_shrinks; [|exact Hs]. apply H; [|done].
  destruct (st.2) eqn:E; [by rewrite He in Hf|done].
Qed.

Lemma apply_block_gone kc st b :
  applying kc st.1 ->
  applying kc (apply_block api st b).1 ∧ shrinks_err st (apply_block api st b) ∧
  all_gone kc (applied_in b) (apply_block api st b).
Proof.
  destruct st as [st err]. cbn [fst snd]. intros Ha.
  destruct (MessagesForBlock api b) as [[bmsgs smsgs]|] eqn:E.
  2: { unfold apply_block. rewrite E. split; [done|]. split; [by split|]. intros Hf; discriminate Hf. }
  rewrite (apply_block_fold _ _ _ _ _ E). cbn [fst snd].
  destruct (foldl_each (applying kc) shrinks_st (fun x st => gone kc x.1.1 x.1.2 st.1.2) (apply_message api)
    (block_messages bmsgs smsgs) _ ltac:(intros x a a'; apply gone_shrinks)) with (a := st) as (H1 & H2 & H3);
    [|done|].
  { intros st' [[from nonce] c] Hin Hst. apply apply_message_gone; [by eapply block_messages_nonces|done]. }
  split; [done|]. split; [by split|]. intros _ from nonce (bm & sm & c & E' & Hin). cbn [fst snd].
  rewrite E in E'. simplify_eq. by apply (H3 (from, nonce, c)).
Qed.

Lemma apply_tipset_gone kc st ts :
  applying kc st.1 ->
  applying kc (apply_tipset api st ts).1 ∧ shrinks_err st (apply_tipset api st ts) ∧
  all_gone kc (fun from nonce => ∃ b, b ∈ Blocks ts ∧ applied_in b from nonce) (apply_tipset api st ts).
Proof.
  destruct st as [[[r mp] t] err]. cbn [fst snd]. intros (Hr & Hok & Hk). cbn [fst snd] in *.
  unfold apply_tipset. set (mp0 := mp {{ curTs := ts }}).
  assert (H0 : applying kc (r, mp0, t)) by (split; [done|]; split; [by apply pool_ok_curTs|done]).
  assert (Hs0 : shrinks_err (r, mp, t, err) (r, mp0, t, err)) by (by repeat split).
  clearbody mp0.
  destruct (foldl_each (fun st : pool_st => applying kc st.1) shrinks_err (fun b => all_gone kc (applied_in b))
    (apply_block api) (Blocks ts) _ (fun b => all_gone_shrinks kc (applied_in b))
    (fun st b _ => apply_block_gone kc st b) (r, mp0, t, err) H0) as (H1 & H2 & H3).
  split; [done|]. split; [by etrans|]. intros Hf from nonce (b & Hb & Hin). by eapply H3.
Qed.

Lemma HeadChange_apply order tss mp mp' :
  lists_all order -> pool_ok mp -> HeadChange api order [] tss mp = (false, mp') ->
  shrinks mp mp' ∧ ∀ from nonce, applied tss from nonce -> gone (keyCache mp) from nonce mp'.
Proof.
  intros Hord Hok. unfold HeadChange. simpl.
  destruct (foldl_each (fun st : pool_st => applying (keyCache mp) st.1) shrinks_err _ (apply_tipset api) tss _
    (fun ts => all_gone_shrinks (keyCache mp) (fun from nonce => ∃ b, b ∈ Blocks ts ∧ applied_in b from nonce))
    (fun st ts _ => apply_tipset_gone (keyCache mp) st ts) (∅, mp, false, false)
    (conj eq_refl (conj Hok (reflexivity _)))) as (H1 & [H2 _] & H3).
  destruct (foldl (apply_tipset api) _ tss) as [[[r mp1] trigger] err]. destruct H1 as (Hr & _ & _).
  cbn [fst snd] in Hr, H2. subst r. replace (order ∅) with (@nil SignedMessage).
  2: { destruct (order ∅) as [|m l] eqn:El; [done|]. exfalso.
       destruct (proj1 (Hord ∅ m)) as (a & s & n & Ha & _); [rewrite El; by left|].
       by rewrite lookup_empty in Ha. }
  intros [= -> <-]. split; [exact H2|]. intros from nonce (ts & b & Hts & Hb & Hin).
  refine (H3 ts Hts eq_refl from nonce _). by exists b.
Qed.
End Invariant.

(** * Sequences of operations *)

(** [New]: an empty pool at the head of the chain. *)
Definition newPool (ts : TipSet) (ds : gmap cid SignedMessage) : MessagePool :=
  mkMessagePool ∅ ∅ ∅ ts 0 ∅ ∅ ds false false [].

Inductive pool_op :=
  | OpPush (m : SignedMessage)
  | OpPushUntrusted (m : SignedMessage)
  | OpPoolAdd (m : SignedMessage)
  | OpRemove (from : address) (nonce : Z) (applied : bool)
  | OpHeadChange (order : gmap address (gmap Z SignedMessage) → list SignedMessage) (revert apply : list TipSet)
  | OpLoadLocal (res : list (option SignedMessage)).

Definition pool_step (api : Provider) (mp : MessagePool) (op : pool_op) : MessagePool :=
  match op with
  | OpPush m => (Push api m mp).2
  | OpPushUntrusted m => (PushUntrusted api m mp).2
  | OpPoolAdd m => (Add api m mp).2
  | OpRemove from nonce applied => Remove api from nonce applied mp
  | OpHeadChange order revert apply => (HeadChange api order revert apply mp).2
  | OpLoadLocal res => (loadLocal api res mp).2
  end.

(** Nonces are 64 bits wide; the ranges over a map visit what it holds. *)
Definition pool_op_ok (op : pool_op) : Prop :=
  match op with
  | OpPush m | OpPushUntrusted m | OpPoolAdd m => in_u64 (sm_Nonce m)
  | OpRemove _ nonce _ => in_u64 nonce
  | OpHeadChange order _ _ => lists_all order
  | OpLoadLocal res => Forall (fun o => from_option (fun m => in_u64 (sm_Nonce m)) True o) res
  end.

Lemma newPool_ok api ts ds : pool_ok api (newPool ts ds).
Proof.
  split; [split|]; simpl; [intros ? ?|intros ? ?|intros ? ? ? ?|]; try by rewrite lookup_empty.
  unfold pool_count. simpl. by rewrite map_sumZ_empty.
Qed.

Lemma setLocal_ok api `{!ProviderLaws api} a mp : pool_ok api mp -> pool_ok api (setLocal api a mp).2.
Proof.
  intros Hok. unfold setLocal.
  destruct (resolveToKey_spec api a mp (so_cache _ _ (po_sets _ _ Hok))) as (mp1 & H2 & Hc & Hg & _).
  pose proof (pool_ok_grows _ _ _ Hok Hc Hg) as Hok1.
  destruct (resolveToKey api a mp) as [[ra|] mp2]; simpl in *; subst mp2; [|done].
  split; [by split; apply (po_sets _ _ Hok1)|exact (po_size _ _ Hok1)].
Qed.

Lemma loadLocal_ok api `{!ProviderLaws api} res : ∀ mp,
  Forall (fun o => from_option (fun m => in_u64 (sm_Nonce m)) True o) res ->
  pool_ok api mp -> pool_ok api (loadLocal api res mp).2.
Proof.
  induction res as [|[m|] res IH]; intros mp Hf Hok; simpl; [done| |done].
  inversion Hf as [|? ? Hm Hres]; subst. simpl in Hm.
  assert (H : pool_ok api (load_one api m mp).2).
  { pose proof (addLoaded_ok api m mp Hok Hm) as H1. unfold load_one.
    destruct (addLoaded api m mp) as [[e|] mp1]; [destruct e; try done|]; by apply setLocal_ok. }
  destruct (load_one api m mp) as [[] mp1]; [by apply IH|done].
Qed.

Lemma pool_step_ok api `{!ProviderLaws api} mp op :
  pool_op_ok op -> pool_ok api mp -> pool_ok api (pool_step api mp op).
Proof.
  intros Hop Hok. destruct op as [m|m|m|from nonce ap|order revert apply|res]; simpl in *.
  - pose proof (push_with_spec api false m mp Hok Hop) as H. unfold Push. by destruct (push_with _ _ _ _), H.
  - pose proof (push_with_spec api true m mp Hok Hop) as H. unfold PushUntrusted. by destruct (push_with _ _ _ _), H.
  - pose proof (Add_spec api m mp Hok Hop) as H. by destruct (Add _ _ _), H.
  - by apply remove_spec.
  - by apply HeadChange_ok.
  - by apply loadLocal_ok.
Qed.

Inductive pool_reaches (api : Provider) : MessagePool -> Prop :=
  | pool_start ts ds : pool_reaches api (newPool ts ds)
  | pool_next mp op : pool_reaches api mp -> pool_op_ok op -> pool_reaches api (pool_step api mp op).

Definition in_pool (mp : MessagePool) (m : SignedMessage) : Prop :=
  ∃ ra ms, pending mp !! ra = Some ms ∧ msgs ms !! sm_Nonce m = Some m.

Lemma in_pool_set_of mp m : in_pool mp m ↔ ∃ ra, set_of mp ra !! sm_Nonce m = Some m.
Proof.
  unfold in_pool, set_of. split; intros (ra & H); exists ra.
  - destruct H as (ms & -> & ?). done.
  - destruct (pending mp !! ra) as [ms|]; simpl in H; [by exists ms|by rewrite lookup_empty in H].
Qed.

(** C25: whatever is pushed, gossiped, removed, reloaded or reorganised, the pool
    holds every message in the set of its sender's key address and under its nonce,
    each set reserves the funds its messages need, and [currentSize] is the number
    of messages in the pool. *)
Theorem pool_invariant api `{!ProviderLaws api} mp :
  pool_reaches api mp ->
  currentSize mp = wrap64 (pool_count mp) ∧
  ∀ ra ms, pending mp !! ra = Some ms ->
    requiredFunds ms = map_sumZ sm_RequiredFunds (msgs ms) ∧
    ∀ n m, msgs ms !! n = Some m -> sm_Nonce m = n ∧ keyCache mp !! sm_From m = Some ra.
Proof.
  intros Hr. assert (Hok : pool_ok api mp).
  { induction Hr; [apply newPool_ok|by apply pool_step_ok]. }
  split; [apply Hok|]. destruct Hok as [Hok _]. intros ra ms Hms. split; [by eapply ok_funds, so_sets|].
  intros n m Hm. split; [by eapply ok_nonces; [eapply so_sets|]|by eapply so_keys].
Qed.

(** C7: a message that [Push], [PushUntrusted] or [Add] accepts is well formed and
    signed, may be included in the next block, has a nonce its sender has not used,
    and is stored in the sender's set.  The sender can pay for the gas of that whole
    set.  No other set changes. *)
Theorem accepted_message api `{!ProviderLaws api} mp m mp' :
  pool_ok api mp -> in_u64 (sm_Nonce m) ->
  (∃ c, Push api m mp = (Ok c, mp')) ∨ (∃ c, PushUntrusted api m mp = (Ok c, mp')) ∨
    Add api m mp = (None, mp') ->
  let epoch := ts_height (curTs mp) ⊞ 1 in
  well_formed api m ∧
  ValidForBlockInclusion (ZeroAddress api) (sm_Message m) (minGas api epoch (ChainLength api m))
    (StateNetworkVersion api epoch) = None ∧
  ∃ ra ms act, keyCache mp' !! sm_From m = Some ra ∧ pending mp' = <[ra := ms]> (pending mp) ∧
    msgs ms !! sm_Nonce m = Some m ∧
    GetActorAfter api (sm_From m) (curTs mp) = Some act ∧ Types.Nonce act ≤ sm_Nonce m ∧
    map_sumZ sm_RequiredFunds (msgs ms) ≤ Types.Balance act.
Proof.
  intros Hok Hn H. assert (Hspec : pool_ok api mp' ∧ well_formed api m ∧
    ∃ ra, stored_as m ra mp mp' ∧ admissible api m ra (curTs mp) mp).
  { destruct H as [[c H]|[[c H]|H]].
    - pose proof (push_with_spec api false m mp Hok Hn) as Hs. unfold Push in H. rewrite H in Hs. destruct Hs as [? Hs]. eauto.
    - pose proof (push_with_spec api true m mp Hok Hn) as Hs. unfold PushUntrusted in H. rewrite H in Hs. destruct Hs as [? Hs]. eauto.
    - pose proof (Add_spec api m mp Hok Hn) as Hs. rewrite H in Hs. destruct Hs as [? Hs]. eauto. }
  destruct Hspec as (Hok' & Hw & ra & (Hk & ms & Hp & Hm & Hf) & Hv & act & Ha & Hnonce & Hbal).
  split; [done|]. split; [done|]. exists ra, ms, act. do 2 (split; [done|]).
  split; [by rewrite Hm, lookup_insert_eq|]. do 2 (split; [done|]).
  rewrite <- (ok_funds ms); [lia|]. eapply (so_sets _ _ (po_sets _ _ Hok')). by rewrite Hp, lookup_insert_eq.
Qed.

(** when the chain advances, no message of the new blocks stays pending for its
    sender, nothing is added, and the pool stays consistent. *)
Theorem HeadChange_drops_applied api `{!ProviderLaws api} order tss mp mp' :
  lists_all order -> pool_ok api mp -> HeadChange api order [] tss mp = (false, mp') ->
  pool_ok api mp' ∧
  ∀ m, in_pool mp' m -> in_pool mp m ∧ ~ applied api tss (sm_From m) (sm_Nonce m).
Proof.
  intros Hord Hok H. destruct (HeadChange_apply api order tss mp mp' Hord Hok H) as [[Hk Hs] Hgone].
  pose proof (HeadChange_ok api order [] tss mp Hord Hok) as Hok'. rewrite H in Hok'.
  split; [done|]. intros m. rewrite !in_pool_set_of. intros [ra Hm].
  pose proof (lookup_weaken _ _ _ _ Hm (Hs ra)) as Hm0. split; [by exists ra|].
  intros Happ. specialize (Hgone _ _ Happ ra). rewrite Hgone in Hm; [done|].
  unfold set_of in Hm0. destruct (pending mp !! ra) as [ms|] eqn:E; simpl in Hm0; [|by rewrite lookup_empty in Hm0].
  by eapply (so_keys _ _ (po_sets _ _ Hok)).
Qed.

(** an untrusted push is checked exactly like a trusted one: the limits on nonce
    gaps and pending messages of untrusted senders are never applied. *)
Theorem PushUntrusted_is_Push api m mp : PushUntrusted api m mp = Push api m mp.
Proof.
  assert (Hset : ∀ ra ms mp', add_to_mset api m false true ra ms mp' = add_to_mset api m false false ra ms mp').
  { intros ra ms mp'. unfold add_to_mset. by rewrite add_lax_untrusted. }
  assert (Hlocked : ∀ mp', addLocked api m false true mp' = addLocked api m false false mp').
  { intros mp'. unfold addLocked. by repeat (case_match; try done). }
  unfold PushUntrusted, Push, push_with, addTs. cbn [negb]. destruct (checkMessage api m mp); [done|].
  destruct (pre_add api m (curTs mp) true mp) as [[publish|e] mp1]; [|done]. by rewrite Hlocked.
Qed.

(** * An example pool *)

Lemma pair_first {A B} (p : A * B) a : p.1 = a -> p = (a, p.2).
Proof. by intros <-; destruct p. Qed.

Module PoolExample.
Definition alice : address := BLSAddr "alice".

Definition message (nonce : Z) : SignedMessage :=
  mkSignedMessage (mkMessage 0 (IDAddr 101) alice nonce (Some 5) 1000000 (Some 200) (Some 100) 0 EmptyString)
    SigTypeBLS "sig".

(** One account with nonce 5; the block at height 41 has its message 5. *)
Definition api : Provider :=
  {| GetActorAfter := fun a _ => if bool_decide (a = alice) then Some (mkActor "account" "head" 5 1000000000000) else None;
     StateAccountKeyAtFinality := fun a _ => Some a;
     StateNetworkVersion := fun _ => 16;
     PutSigned := fun _ => true; PutMessage := fun _ => true;
     ChainComputeBaseFee := fun _ => Some 100;
     PubSubPublish := fun _ => true;
     MessagesForBlock := fun b => if Height b =? 41 then Some ([sm_Message (message 5)], []) else Some ([], []);
     LoadTipSet := IndexExample.load;
     block_Cid := fun m => sm_SigData m; msg_Cid := fun m => if msgNonce m =? 5 then "five" else "other";
     sm_Size := fun _ => 100; ChainLength := fun _ => 100; VerifyMsgSig := fun _ => true;
     sigCache_Add := fun c s m => <[c := s]> m;
     serializes := fun _ => true; localMsgs_Put := fun _ => true;
     ZeroAddress := BLSAddr "zero"; SizeLimitHigh := 30000; UpgradeCalicoHeight := 265200 |}.

#[export] Instance api_laws : ProviderLaws api.
Proof.
  split.
  - intros a k ts ts' H. by simpl in *.
  - intros b bmsgs smsgs. simpl. destruct (Height b =? 41); intros [= <- <-]; repeat constructor; by vm_compute.
  - intros a ts act. simpl. case_bool_decide; [|done]. intros [= <-]. by vm_compute.
Qed.

Definition start : MessagePool := newPool (IndexExample.tipset "a" ["genesis"] 19) ∅.
Definition pushed : MessagePool := pool_step api (pool_step api start (OpPush (message 5))) (OpPush (message 6)).

Definition in_order (r : gmap address (gmap Z SignedMessage)) : list SignedMessage :=
  map_to_list r ≫= fun p => (map_to_list p.2).*2.

Lemma in_order_lists : lists_all in_order.
Proof.
  intros r m. unfold in_order. rewrite list_elem_of_bind. split.
  - intros ([a s] & Hm & Hin). apply elem_of_map_to_list in Hin. simpl in Hm.
    apply list_elem_of_fmap in Hm as ([n m'] & -> & Hm). apply elem_of_map_to_list in Hm. by exists a, s, n.
  - intros (a & s & n & Ha & Hs). exists (a, s). split; [|by apply elem_of_map_to_list]. simpl.
    apply list_elem_of_fmap. exists (n, m). split; [done|]. by apply elem_of_map_to_list.
Qed.

Lemma message_nonce n : in_u64 n -> in_u64 (sm_Nonce (message n)).
Proof. done. Qed.

Lemma pushed_reaches : pool_reaches api pushed.
Proof.
  unfold pushed, start. apply pool_next; [apply pool_next; [apply pool_start|]|]; by apply message_nonce; vm_compute.
Qed.

Lemma pushed_ok : pool_ok api pushed.
Proof.
  assert (H : ∀ mp, pool_reaches api mp -> pool_ok api mp).
  { intros mp Hr. induction Hr; [apply newPool_ok|by apply pool_step_ok; [apply api_laws|..]]. }
  apply H, pushed_reaches.
Qed.
End PoolExample.
Import PoolExample.

Lemma pool_invariant_witness :
  currentSize pushed = 2 ∧ wrap64 (pool_count pushed) = 2.
Proof.
  assert (Hs : currentSize pushed = 2) by (vm_compute; reflexivity). split; [exact Hs|].
  rewrite <- (proj1 (pool_invariant api pushed pushed_reaches)). exact Hs.
Defined.

Lemma accepted_message_witness :
  (Push api (message 7) pushed).1 = Ok "other" ∧ well_formed api (message 7).
Proof.
  assert (E : (Push api (message 7) pushed).1 = Ok "other") by (vm_compute; reflexivity). split; [exact E|].
  refine (proj1 (accepted_message api pushed (message 7) (Push api (message 7) pushed).2 pushed_ok _ _)).
  - clear E. by vm_compute.
  - left. exists "other". exact (pair_first _ _ E).
Defined.

(** The chain advances by the block with message 5; message 6 stays. *)
Definition advanced : bool * MessagePool :=
  HeadChange api in_order [] [IndexExample.tipset "b" ["a"] 41] pushed.

Lemma HeadChange_drops_applied_witness :
  advanced.1 = false ∧ currentSize advanced.2 = 1 ∧ pool_ok api advanced.2.
Proof.
  assert (E : advanced.1 = false) by (vm_compute; reflexivity).
  split; [exact E|]. split; [vm_compute; reflexivity|].
  refine (proj1 (HeadChange_drops_applied api in_order [IndexExample.tipset "b" ["a"] 41]
    pushed _ in_order_lists pushed_ok _)).
  exact (pair_first _ _ E).
Defined.

(** [Clear] leaves the count of the messages it dropped. *)
Lemma Clear_keeps_count :
  let mp := Clear api [] [alice] true pushed in
  pool_count mp = 0 ∧ currentSize mp = 2.
Proof. vm_compute. done. Qed.
