(* ===== verification/MsgChains.v ===== *)
(** Chains of dependent messages (src/chain/messagepool/selection.go): the
    candidate messages of an actor, their division into chains of decreasing gas
    performance, and the trimming and invalidation of chains.

    Performances are [float64] values, computed with the IEEE 754 operations of
    the standard library's specification ([SpecFloat], 53 bits of precision).
    Chains are shared and mutated through pointers: they live in a store, and
    [next] and [prev] are indices into it. *)

From Stdlib Require Import SpecFloat.
From coqutil Require Import Datatypes.RecordSetters.
From S2P Require Import Prelude Gas Types Tipset MsgSet MessagePool.
Import DoubleBraceUpdate.
Import Gas.Prices.

Arguments constant {E} newValue _ /.

(** * The runtime *)

(** What Go leaves open: the order of equal elements after [sort.Slice], the order
    in which maps are ranged over, random numbers.  [sort_SliceStable less k l]
    sorts [l[k:]] with a comparison that sees the whole array and positions. *)
Class GoRuntime := {
  sort_Slice {A} : (A → A → bool) → list A → list A;
  sort_SliceStable {A} : (list A → nat → nat → bool) → nat → list A → list A;
  range_values {V} : gmap Z V → list V;
  range_keys {V} : gmap address V → list address;
  rand_Intn : nat → nat → nat;
}.

(** [less] orders the elements that satisfy [P], up to ties. *)
Definition weak_order {A} (P : A → Prop) (less : A → A → bool) : Prop :=
  (∀ x y, P x → P y → less x y = true → less y x = false) ∧
  (∀ x y z, P x → P y → P z → less y x = false → less z y = false → less z x = false).

Class GoRuntimeLaws `{GoRuntime} := {
  sort_Slice_perm {A} (less : A → A → bool) l : sort_Slice less l ≡ₚ l;
  sort_Slice_sorted {A} (P : A → Prop) (less : A → A → bool) l :
    weak_order P less → Forall P l → StronglySorted (fun x y => less y x = false) (sort_Slice less l);
  sort_SliceStable_perm {A} (less : list A → nat → nat → bool) k l :
    take k (sort_SliceStable less k l) = take k l ∧ drop k (sort_SliceStable less k l) ≡ₚ drop k l;
  range_values_perm {V} (m : gmap Z V) : range_values m ≡ₚ (map_to_list m).*2;
  range_keys_perm {V} (m : gmap address V) : range_keys m ≡ₚ (map_to_list m).*1;
  rand_Intn_bound k n : (0 < n)%nat → (rand_Intn k n < n)%nat;
}.

(** * [float64] *)

Abbreviation float64 := spec_float.

Definition f_mul : float64 → float64 → float64 := SFmul 53 1024.
Definition f_add : float64 → float64 → float64 := SFadd 53 1024.
Definition f_sub : float64 → float64 → float64 := SFsub 53 1024.
Definition f_div : float64 → float64 → float64 := SFdiv 53 1024.
(** [float64(z)]. *)
Definition f_of_int (z : Z) : float64 := binary_normalize 53 1024 z 0 false.
Definition f_zero : float64 := S754_zero false.
Definition f_lt (a b : float64) : bool := SFltb a b.
Definition f_ge (a b : float64) : bool := SFleb b a.

(** An integer as a float with as many bits as it needs. *)
Definition exact_int (z : Z) : float64 :=
  match z with
  | Z0 => S754_zero false
  | Zpos p => S754_finite false p 0
  | Zneg p => S754_finite true p 0
  end.

(** [big.Rat.Float64] of [num/den] for a positive [den]: the nearest value. *)
Definition rat_Float64 (num den : Z) : float64 := f_div (exact_int num) (exact_int den).

(** * Messages *)

Definition getGasReward (msg : SignedMessage) (baseFee : Z) : Z :=
  let maxPremium := sm_FeeCap msg - baseFee in
  let maxPremium := if sm_Premium msg <? maxPremium then sm_Premium msg else maxPremium in
  let gasReward := maxPremium * wrapu64 (sm_GasLimit msg) in
  if gasReward <? 0 then gasReward * 3 else gasReward.

Definition getGasPerf (gasReward gasLimit : Z) : float64 :=
  rat_Float64 (gasReward * BlockGasLimit) gasLimit.

(** * Chains *)

Record msgChain := mkMsgChain {
  chMsgs : list SignedMessage;
  gasReward : Z;
  chGasLimit : Z;
  gasPerf : float64;
  effPerf : float64;
  bp : float64;
  parentOffset : float64;
  valid : bool;
  merged : bool;
  next : option nat;
  prev : option nat;
  sigType : SigType;
}.

#[export] Instance msgChain_inhabited : Inhabited msgChain :=
  populate (mkMsgChain [] 0 0 f_zero f_zero f_zero f_zero false false None None (SigTypeOther 0)).

(** The chains that have been allocated, by address. *)
Abbreviation store := (list msgChain) (only parsing).

Definition newChain (m : SignedMessage) (reward : Z) : msgChain :=
  mkMsgChain [m] reward (sm_GasLimit m) (getGasPerf reward (sm_GasLimit m)) f_zero f_zero f_zero
    true false None None (sm_SigType m).

Definition Before (mc other : msgChain) : bool :=
  f_lt (gasPerf other) (gasPerf mc) ||
  (SFeqb (gasPerf mc) (gasPerf other) && (gasReward other <? gasReward mc)).

Definition BlockMessageLimit : Z := 10000.

(** ** Candidates *)

Section Chains.
Variable api : Provider.

(** The loop over the messages: how many were looked at, how many skipped, and the
    rewards of those that were kept. *)
Fixpoint scan_loop (ts : TipSet) (baseFee : Z) (msgs : list SignedMessage) (curNonce balance gasLimit : Z)
    (i skip : nat) (rewards : list Z) : nat * nat * list Z :=
  match msgs with
  | [] => (i, skip, rewards)
  | m :: msgs =>
      if sm_Nonce m <? curNonce then scan_loop ts baseFee msgs curNonce balance gasLimit (S i) (S skip) rewards
      else if negb (sm_Nonce m =? curNonce) then (i, skip, rewards)
      else
        let curNonce := wrapu64 (curNonce + 1) in
        if sm_GasLimit m <? minGas api (ts_height ts) (ChainLength api m) then (i, skip, rewards)
        else
          let gasLimit := gasLimit ⊞ sm_GasLimit m in
          if BlockGasLimit <? gasLimit then (i, skip, rewards)
          else
            let required := sm_RequiredFunds m in
            if balance <? required then (i, skip, rewards)
            else
              let balance := balance - required - sm_Value m in
              scan_loop ts baseFee msgs curNonce balance gasLimit (S i) skip
                (rewards ++ [getGasReward m baseFee])
  end.

(** The messages the chains are made of, with their rewards. *)
Definition candidates (a : Actor) (ts : TipSet) (baseFee : Z) (msgs : list SignedMessage)
    : list (SignedMessage * Z) :=
  let '(i, skip, rewards) := scan_loop ts baseFee msgs (Types.Nonce a) (Types.Balance a) 0 0 0 [] in
  if (skip <? i)%nat then
    let msgs := take (i - skip) (drop skip msgs) in
    let msgs := if BlockMessageLimit <? Z.of_nat (length msgs) then take (Z.to_nat BlockMessageLimit) msgs else msgs in
    zip msgs rewards
  else [].
End Chains.

(** ** Division into chains *)

(** Chains that aggregate messages as long as the performance does not drop. *)
Fixpoint split_chains (curChain : msgChain) (msgs : list (SignedMessage * Z)) : list msgChain :=
  match msgs with
  | [] => [curChain]
  | (m, reward) :: msgs =>
      let gasReward := MsgChains.gasReward curChain + reward in
      let gasLimit := chGasLimit curChain ⊞ sm_GasLimit m in
      let gasPerf := getGasPerf gasReward gasLimit in
      if f_lt gasPerf (MsgChains.gasPerf curChain) then curChain :: split_chains (newChain m reward) msgs
      else split_chains (curChain {{ chMsgs := chMsgs curChain ++ [m]; MsgChains.gasReward := gasReward;
                                     chGasLimit := gasLimit; MsgChains.gasPerf := gasPerf }}) msgs
  end.

Definition merge_two (c d : msgChain) : msgChain :=
  let gasReward := MsgChains.gasReward c + MsgChains.gasReward d in
  let gasLimit := chGasLimit c ⊞ chGasLimit d in
  c {{ chMsgs := chMsgs c ++ chMsgs d; MsgChains.gasReward := gasReward; chGasLimit := gasLimit;
       MsgChains.gasPerf := getGasPerf gasReward gasLimit }}.

(** One pass from the last chain to the first, without the chains it merged into
    their predecessors. *)
Fixpoint merge_pass (chains : list msgChain) : list msgChain :=
  match chains with
  | [] => []
  | c :: chains =>
      match merge_pass chains with
      | [] => [c]
      | d :: rest => if f_ge (gasPerf d) (gasPerf c) then merge_two c d :: rest else c :: d :: rest
      end
  end.

(** Passes until one merges nothing; each drops a chain, so their number is
    enough fuel. *)
Fixpoint merge_loop (fuel : nat) (chains : list msgChain) : list msgChain :=
  match fuel with
  | O => chains
  | S fuel =>
      let chains' := merge_pass chains in
      if (length chains' =? length chains)%nat then chains else merge_loop fuel chains'
  end.

(** The dependent chains at the addresses from [base] on, linked in both
    directions. *)
Definition link_chains (base : nat) (chains : list msgChain) : list msgChain :=
  imap (fun i c =>
          c {{ next := if (S i <? length chains)%nat then Some (base + S i)%nat else None;
               prev := match i with O => None | S j => Some (base + j)%nat end }}) chains.

Definition build_chains (msgs : list (SignedMessage * Z)) : list msgChain :=
  match msgs with
  | [] => []
  | (m, reward) :: msgs =>
      let chains := split_chains (newChain m reward) msgs in
      merge_loop (length chains) chains
  end.

(** [createMessageChains]: the addresses of the chains and the store. *)
Definition createMessageChains `{GoRuntime} (api : Provider) (actor : address)
    (mset : gmap Z SignedMessage) (baseFee : Z) (ts : TipSet) (h : store) : list nat * store :=
  let sorted := sort_Slice (fun a b => sm_Nonce a <? sm_Nonce b) (range_values mset) in
  match GetActorAfter api actor ts with
  | None => ([], h)
  | Some a =>
      let chains := build_chains (candidates api a ts baseFee sorted) in
      (seq (length h) (length chains), h ++ link_chains (length h) chains)
  end.

(** ** Changing chains *)

(** The effective performance, with the one of the chain it depends on. *)
Definition setEffPerf (h : store) (mc : msgChain) : msgChain :=
  let effPerf := f_mul (gasPerf mc) (bp mc) in
  match prev mc with
  | Some p =>
      if f_lt f_zero effPerf then
        let parent := h !!! p in
        let effPerfWithParent :=
          f_div (f_add (f_mul effPerf (f_of_int (chGasLimit mc)))
                       (f_mul (MsgChains.effPerf parent) (f_of_int (chGasLimit parent))))
                (f_of_int (chGasLimit mc ⊞ chGasLimit parent)) in
        mc {{ parentOffset := f_sub effPerf effPerfWithParent; MsgChains.effPerf := effPerfWithParent }}
      else mc {{ MsgChains.effPerf := effPerf }}
  | None => mc {{ MsgChains.effPerf := effPerf }}
  end.

Definition SetEffectivePerf (p : float64) (h : store) (mc : msgChain) : msgChain :=
  setEffPerf h (mc {{ bp := p }}).

Definition SetNullEffectivePerf (mc : msgChain) : msgChain :=
  mc {{ effPerf := if f_lt (gasPerf mc) f_zero then gasPerf mc else f_zero }}.

Definition BeforeEffective (mc other : msgChain) : bool :=
  (merged mc && negb (merged other)) ||
  (f_ge (gasPerf mc) f_zero && f_lt (gasPerf other) f_zero) ||
  f_lt (effPerf other) (effPerf mc) ||
  (SFeqb (effPerf mc) (effPerf other) && f_lt (gasPerf other) (gasPerf mc)) ||
  (SFeqb (effPerf mc) (effPerf other) && SFeqb (gasPerf mc) (gasPerf other) &&
   (gasReward other <? gasReward mc)).

(** The chain at [id] and the ones that depend on it; the store has at most as
    many of them as cells, which is enough fuel. *)
Fixpoint Invalidate_loop (fuel : nat) (id : nat) (h : store) : store :=
  match fuel with
  | O => h
  | S fuel =>
      let h := alter (fun mc => mc {{ valid := false; chMsgs := [] }}) id h in
      match next (h !!! id) with
      | None => h
      | Some nx => alter (fun mc => mc {{ next := None }}) id (Invalidate_loop fuel nx h)
      end
  end.

Definition Invalidate (id : nat) (h : store) : store := Invalidate_loop (length h) id h.

(** The loop of [Trim] with [n] messages left: how many stay, and the chain with
    its totals.  The messages are those of [msgs]. *)
Fixpoint trim_loop (h : store) (msgs : list SignedMessage) (gasLimit msgLimit baseFee : Z) (n : nat)
    (mc : msgChain) : nat * msgChain :=
  match n with
  | O => (O, mc)
  | S i =>
      if (gasLimit <? chGasLimit mc) || f_lt (gasPerf mc) f_zero || (msgLimit <=? Z.of_nat i) then
        match msgs !! i with
        | None => (S i, mc)
        | Some m =>
            let mc := mc {{ gasReward := gasReward mc - getGasReward m baseFee;
                            chGasLimit := chGasLimit mc ⊟ sm_GasLimit m }} in
            let mc :=
              if 0 <? chGasLimit mc then
                let mc := mc {{ gasPerf := getGasPerf (gasReward mc) (chGasLimit mc) }} in
                if SFeqb (bp mc) f_zero then mc else setEffPerf h mc
              else mc {{ gasPerf := f_zero; effPerf := f_zero }} in
            trim_loop h msgs gasLimit msgLimit baseFee i mc
        end
      else (S i, mc)
  end.

Definition Trim (gasLimit msgLimit baseFee : Z) (id : nat) (h : store) : store :=
  let mc := h !!! id in
  let '(n, mc') := trim_loop h (chMsgs mc) gasLimit msgLimit baseFee (length (chMsgs mc)) mc in
  let mc' := match n with
             | O => mc' {{ chMsgs := []; valid := false }}
             | S _ => mc' {{ chMsgs := take n (chMsgs mc) }}
             end in
  let h := <[id := mc']> h in
  match next mc' with
  | None => h
  | Some nx => alter (fun mc => mc {{ next := None }}) id (Invalidate nx h)
  end.
