(* ===== verification/MsgSelect.v ===== *)
(** Selection of messages for a block (src/chain/messagepool/selection.go).

    [selectMessagesGreedy] and [selectPriorityMessages] pack chains by gas
    performance, [selectMessagesOptimal] by effective performance with their
    dependencies.  The loops that pack the tail of a block take fuel; every round
    drops messages, so the number of messages is enough. *)

From Stdlib Require Import SpecFloat.
From coqutil Require Import Datatypes.RecordSetters.
From S2P Require Import Prelude Gas Types Tipset ChainIndex MsgSet MessagePool MsgChains.
Import DoubleBraceUpdate.
Import Gas.Prices.

Arguments constant {E} newValue _ /.

(** * The block under construction *)

Record selectedMessages := mkSelected {
  selMsgs : list SignedMessage;
  selGasLimit : Z;
  secpLimit : Z;
  blsLimit : Z;
}.

(** [cbg.MaxLength], [gasguess.MinGas]. *)
Definition MaxLength : Z := 8192.
Definition MinGas : Z := 1298450.
Definition MaxBlocks : nat := 15.

Definition emptySelection : selectedMessages := mkSelected [] BlockGasLimit MaxLength MaxLength.

Definition selLen (sm : selectedMessages) : Z := Z.of_nat (length (selMsgs sm)).
Definition chLen (mc : msgChain) : Z := Z.of_nat (length (chMsgs mc)).

Definition tryToAdd (mc : msgChain) (sm : selectedMessages) : bool * selectedMessages :=
  let l := chLen mc in
  if (BlockMessageLimit <? l + selLen sm) || (selGasLimit sm <? chGasLimit mc) then (false, sm)
  else match sigType mc with
  | SigTypeBLS =>
      if blsLimit sm <? l then (false, sm)
      else (true, mkSelected (selMsgs sm ++ chMsgs mc) (selGasLimit sm ⊟ chGasLimit mc) (secpLimit sm) (blsLimit sm - l))
  | SigTypeSecp256k1 =>
      if secpLimit sm <? l then (false, sm)
      else (true, mkSelected (selMsgs sm ++ chMsgs mc) (selGasLimit sm ⊟ chGasLimit mc) (secpLimit sm - l) (blsLimit sm))
  | SigTypeOther _ => (true, sm)
  end.

(** The chains that must be merged before, the nearest first. *)
Fixpoint chain_deps (fuel : nat) (h : list msgChain) (curChain : option nat) : list nat :=
  match fuel, curChain with
  | S fuel, Some c => if merged (h !!! c) then [] else c :: chain_deps fuel h (prev (h !!! c))
  | _, _ => []
  end.

Definition mark_merged (h : list msgChain) (id : nat) : list msgChain :=
  alter (fun mc => mc {{ merged := true }}) id h.

(** The limit on messages of the kind of [mc]; [None] for other signatures. *)
Definition kind_limit (mc : msgChain) (sm : selectedMessages) : option Z :=
  match sigType mc with
  | SigTypeBLS => Some (blsLimit sm)
  | SigTypeSecp256k1 => Some (secpLimit sm)
  | SigTypeOther _ => None
  end.

Definition tryToAddWithDeps (id : nat) (baseFee : Z) (h : list msgChain) (sm : selectedMessages)
    : bool * list msgChain * selectedMessages :=
  let mc := h !!! id in
  match kind_limit mc sm with
  | None => (false, h, sm)
  | Some limit =>
      let smMsgLimit := Z.min limit (BlockMessageLimit - selLen sm) in
      let chainDeps := chain_deps (length h) h (prev mc) in
      let depGasLimit := foldl (fun g d => g ⊞ chGasLimit (h !!! d)) 0 chainDeps in
      let chainGasLimit := foldl (fun g d => g ⊞ chGasLimit (h !!! d)) (chGasLimit mc) chainDeps in
      let depMsgLimit := foldl (fun n d => n + chLen (h !!! d)) 0 chainDeps in
      let chainMsgLimit := foldl (fun n d => n + chLen (h !!! d)) (chLen mc) chainDeps in
      if (selGasLimit sm <? chainGasLimit) || (smMsgLimit <? chainMsgLimit) then
        if (selGasLimit sm <? depGasLimit) || (smMsgLimit <=? depMsgLimit)
        then (false, Invalidate id h, sm)
        else (false, Trim (selGasLimit sm ⊟ depGasLimit) (smMsgLimit - depMsgLimit) baseFee id h, sm)
      else
        let order := rev chainDeps ++ [id] in
        let msgs := order ≫= fun d => chMsgs (h !!! d) in
        let gas := selGasLimit sm ⊟ chainGasLimit in
        (true, foldl mark_merged h order,
         match sigType mc with
         | SigTypeBLS => mkSelected (selMsgs sm ++ msgs) gas (secpLimit sm) (blsLimit sm - chainMsgLimit)
         | SigTypeSecp256k1 => mkSelected (selMsgs sm ++ msgs) gas (secpLimit sm - chainMsgLimit) (blsLimit sm)
         | SigTypeOther _ => mkSelected (selMsgs sm ++ msgs) gas (secpLimit sm) (blsLimit sm)
         end)
  end.

Definition trimChain (id : nat) (baseFee : Z) (sm : selectedMessages) (h : list msgChain) : list msgChain :=
  let mc := h !!! id in
  let msgLimit := BlockMessageLimit - selLen sm in
  let msgLimit := match kind_limit mc sm with Some limit => Z.min msgLimit limit | None => msgLimit end in
  if (selGasLimit sm <? chGasLimit mc) || (msgLimit <? chLen mc)
  then Trim (selGasLimit sm) msgLimit baseFee id h else h.

(** * Packing by performance *)

Definition negative (mc : msgChain) : bool := f_lt (gasPerf mc) f_zero.

(** Merges head chains: the position of the first that does not fit, or the number
    of chains. *)
Fixpoint merge_head (h : list msgChain) (total i : nat) (chains : list nat) (sm : selectedMessages)
    : nat * selectedMessages :=
  match chains with
  | [] => (total, sm)
  | c :: chains =>
      if negative (h !!! c) then (total, sm)
      else match tryToAdd (h !!! c) sm with
      | (true, sm) => merge_head h total (S i) chains sm
      | (false, _) => (i, sm)
      end
  end.

(** Swaps [c] with its successors until it comes before the next one. *)
Fixpoint push_down (less : nat → nat → bool) (c : nat) (chains : list nat) : list nat :=
  match chains with
  | [] => [c]
  | d :: rest => if less c d then c :: chains else d :: push_down less c rest
  end.

Definition push_down_at (less : nat → nat → bool) (last : nat) (chains : list nat) : list nat :=
  match drop last chains with
  | [] => chains
  | c :: rest => take last chains ++ push_down less c rest
  end.

(** How the loop over the remaining chains ends. *)
Inductive tail_exit := TailDone | TailContinue (i : nat).

Fixpoint tail_scan (h : list msgChain) (i : nat) (chains : list nat) (sm : selectedMessages)
    : tail_exit * selectedMessages :=
  match chains with
  | [] => (TailDone, sm)
  | c :: chains =>
      if negb (valid (h !!! c)) then tail_scan h (S i) chains sm
      else if negative (h !!! c) then (TailDone, sm)
      else match tryToAdd (h !!! c) sm with
      | (true, sm) => tail_scan h (S i) chains sm
      | (false, _) => (TailContinue i, sm)
      end
  end.

(** Trims the chain that did not fit, pushes it down and goes on. *)
Fixpoint tail_loop (fuel : nat) (baseFee : Z) (last : nat) (chains : list nat) (h : list msgChain)
    (sm : selectedMessages) : option selectedMessages :=
  match fuel with
  | O => None
  | S fuel =>
      if negb (MinGas <=? selGasLimit sm) || (length chains <=? last)%nat then Some sm
      else
        let id := chains !!! last in
        let h := trimChain id baseFee sm h in
        let chains := if valid (h !!! id)
                      then push_down_at (fun c d => Before (h !!! c) (h !!! d)) last chains else chains in
        match tail_scan h 0 (drop last chains) sm with
        | (TailDone, sm) => Some sm
        | (TailContinue i, sm) => tail_loop fuel baseFee (last + i) chains h sm
        end
  end.

Definition total_messages (h : list msgChain) : nat := sum_list (length ∘ chMsgs <$> h).

(** From sorted chains to a block: steps 2 to 4 of the greedy selection, also those
    of the priority selection. *)
Definition pack `{GoRuntime} (baseFee : Z) (chains : list nat) (h : list msgChain) (sm : selectedMessages)
    : option selectedMessages :=
  let chains := sort_Slice (fun c d => Before (h !!! c) (h !!! d)) chains in
  match chains with
  | c :: _ =>
      if negative (h !!! c) then Some sm
      else
        let '(last, sm) := merge_head h (length chains) 0 chains sm in
        tail_loop (S (total_messages h)) baseFee last chains h sm
  | [] => Some sm
  end.

(** * Pending messages *)

Abbreviation pending_map := (gmap address (gmap Z SignedMessage)) (only parsing).

Section Select.
Variable api : Provider.
Context `{GoRuntime}.

(** [ReorgOps]: the tipsets from [a] and from [b] down to their common ancestor;
    [None] is an error. *)
Fixpoint ReorgOps (fuel : nat) (left right : TipSet) : option (list TipSet * list TipSet) :=
  match fuel with
  | O => None
  | S fuel =>
      if TipSet_Equals (Some left) (Some right) then Some ([], [])
      else if ts_height right <? ts_height left then
        par ← LoadTipSet api (ts_Parents left);
        '(ls, rs) ← ReorgOps fuel par right;
        Some (left :: ls, rs)
      else
        par ← LoadTipSet api (ts_Parents right);
        '(ls, rs) ← ReorgOps fuel left par;
        Some (ls, right :: rs)
  end.

(** [rm] of [runHeadChange]: only from the given messages. *)
Definition rmsgs_drop (rmsgs : pending_map) (m : address * Z) : pending_map :=
  match rmsgs !! m.1 with
  | Some s => <[m.1 := delete m.2 s]> rmsgs
  | None => rmsgs
  end.

Definition runHeadChange (fuel : nat) (mp : MessagePool) (from to : TipSet) (rmsgs : pending_map)
    : option pending_map :=
  '(revert, apply) ← ReorgOps fuel from to;
  rmsgs ← foldl (fun acc ts =>
            rmsgs ← acc; ms ← MessagesForBlocks api mp (Blocks ts); Some (foldl rmsgs_add rmsgs ms))
          (Some rmsgs) revert;
  foldl (fun acc ts => foldl (fun acc b =>
           rmsgs ← acc;
           '(bmsgs, smsgs) ← MessagesForBlock api b;
           Some (foldl rmsgs_drop rmsgs
                   (map (fun m => (sm_From m, sm_Nonce m)) smsgs ++
                    map (fun m => (From m, msgNonce m)) bmsgs))) acc (Blocks ts))
    (Some rmsgs) apply.

Definition getPendingMessages (fuel : nat) (mp : MessagePool) (ts : TipSet) : option pending_map :=
  let result := msgs <$> pending mp in
  if (ts_height (curTs mp) =? ts_height ts) && TipSet_Equals (Some (curTs mp)) (Some ts) then Some result
  else runHeadChange fuel mp (curTs mp) ts result.

(** * Greedy selection *)

(** Step 1 of [selectPriorityMessages]; [false] when an address cannot be
    resolved. *)
Fixpoint priority_chains (priority : list address) (baseFee : Z) (ts : TipSet) (pending : pending_map)
    (chains : list nat) (h : list msgChain) (mp : MessagePool)
    : bool * list nat * list msgChain * pending_map * MessagePool :=
  match priority with
  | [] => (true, chains, h, pending, mp)
  | actor :: priority =>
      match resolveToKey api actor mp with
      | (None, mp) => (false, chains, h, pending, mp)
      | (Some pk, mp) =>
          match pending !! pk with
          | None => priority_chains priority baseFee ts pending chains h mp
          | Some mset =>
              let '(next, h) := createMessageChains api actor mset baseFee ts h in
              priority_chains priority baseFee ts (delete pk pending) (chains ++ next) h mp
          end
      end
  end.

(** The block with the priority messages, and the messages that remain. *)
Definition selectPriorityMessages (priority : list address) (pending : pending_map) (baseFee : Z) (ts : TipSet)
    (mp : MessagePool) : option selectedMessages * pending_map * MessagePool :=
  match priority_chains priority baseFee ts pending [] [] mp with
  | (false, _, _, pending, mp) => (Some emptySelection, pending, mp)
  | (true, chains, h, pending, mp) => (pack baseFee chains h emptySelection, pending, mp)
  end.

(** Step 1: the chains of all actors. *)
Fixpoint all_chains (actors : list address) (pending : pending_map) (baseFee : Z) (ts : TipSet)
    (chains : list nat) (h : list msgChain) : list nat * list msgChain :=
  match actors with
  | [] => (chains, h)
  | actor :: actors =>
      let '(next, h) := createMessageChains api actor (default ∅ (pending !! actor)) baseFee ts h in
      all_chains actors pending baseFee ts (chains ++ next) h
  end.

Inductive sel_error := SelError | SelFuel.

(** Step 0 of both selections and what follows it, [k] given the remaining
    messages and the block so far. *)
Definition with_pending (full : selectedMessages → bool) (fuel : nat) (priority : list address) (ts : TipSet)
    (mp : MessagePool) (k : Z → pending_map → selectedMessages → option selectedMessages)
    : result sel_error (option selectedMessages) * MessagePool :=
  match ChainComputeBaseFee api ts, getPendingMessages fuel mp ts with
  | Some baseFee, Some pending =>
      if bool_decide (pending = ∅) then (Ok None, mp)
      else match selectPriorityMessages priority pending baseFee ts mp with
      | (None, _, mp) => (Err SelFuel, mp)
      | (Some sm, pending, mp) =>
          if full sm then (Ok (Some sm), mp)
          else match k baseFee pending sm with
          | None => (Err SelFuel, mp)
          | Some sm => (Ok (Some sm), mp)
          end
      end
  | _, _ => (Err SelError, mp)
  end.

Definition selectMessagesGreedy (fuel : nat) (priority : list address) (ts : TipSet) (mp : MessagePool)
    : result sel_error (option selectedMessages) * MessagePool :=
  with_pending (fun sm => (selGasLimit sm <? MinGas) || (BlockMessageLimit <? selLen sm)) fuel priority ts mp
    (fun baseFee pending sm =>
       let '(chains, h) := all_chains (range_keys pending) pending baseFee ts [] [] in
       pack baseFee chains h sm).

(** * Optimal selection *)

(** One block of the partition: its chains and the rest. *)
Fixpoint fill_partition (h : list msgChain) (gasLimit msgLimit : Z) (chains : list nat)
    : list nat * list nat :=
  match chains with
  | [] => ([], [])
  | c :: chains =>
      let gasLimit := gasLimit ⊟ chGasLimit (h !!! c) in
      let msgLimit := msgLimit - chLen (h !!! c) in
      if (gasLimit <? MinGas) || (msgLimit <=? 0) then ([c], chains)
      else let '(p, rest) := fill_partition h gasLimit msgLimit chains in (c :: p, rest)
  end.

(** Step 3: at most [n] blocks, and the chains that fit in none. *)
Fixpoint partition (n : nat) (h : list msgChain) (chains : list nat) : list (list nat) * list nat :=
  match n, chains with
  | S n, _ :: _ =>
      let '(p, rest) := fill_partition h BlockGasLimit BlockMessageLimit chains in
      let '(ps, rest) := partition n h rest in (p :: ps, rest)
  | _, _ => ([], chains)
  end.

(** Step 4. *)
Definition set_perfs (blockProb : list float64) (parts : list (list nat)) (rest : list nat) (h : list msgChain)
    : list msgChain :=
  let h := foldl (fun h '(p, chains) =>
             foldl (fun h c => <[c := SetEffectivePerf p h (h !!! c)]> h) h chains) h (zip blockProb parts) in
  foldl (fun h c => alter SetNullEffectivePerf c h) h rest.

(** The adjustment of the chains after a merged one. *)
Fixpoint adjust_rest (fuel : nat) (h : list msgChain) (id : option nat) : list msgChain :=
  match fuel, id with
  | S fuel, Some c =>
      if f_lt f_zero (effPerf (h !!! c))
      then adjust_rest fuel (<[c := setEffPerf h (h !!! c)]> h) (next (h !!! c)) else h
  | _, _ => h
  end.

Definition adjust_next (h : list msgChain) (id : nat) : list msgChain :=
  match next (h !!! id) with
  | Some c =>
      if f_lt f_zero (effPerf (h !!! c)) then
        let h := alter (fun mc => mc {{ effPerf := f_add (effPerf mc) (parentOffset mc) }}) c h in
        adjust_rest (length h) h (next (h !!! c))
      else h
  | None => h
  end.

(** Step 6, at position [i] with [n] chains to go. *)
Fixpoint merge_deps (n i : nat) (baseFee : Z) (chains : list nat) (h : list msgChain) (sm : selectedMessages)
    : nat * list nat * list msgChain * selectedMessages :=
  match n with
  | O => (length chains, chains, h, sm)
  | S n =>
      let id := chains !!! i in
      if negative (h !!! id) then (length chains, chains, h, sm)
      else if merged (h !!! id) then merge_deps n (S i) baseFee chains h sm
      else match tryToAddWithDeps id baseFee h sm with
      | (true, h, sm) =>
          let h := adjust_next h id in
          let chains := sort_SliceStable (fun arr a b => BeforeEffective (h !!! (arr !!! a)) (h !!! (arr !!! b)))
                          (S i) chains in
          merge_deps n (S i) baseFee chains h sm
      | (false, h, sm) => (i, chains, h, sm)
      end
  end.

Fixpoint deps_scan (baseFee : Z) (chains : list nat) (h : list msgChain) (sm : selectedMessages)
    : bool * list msgChain * selectedMessages :=
  match chains with
  | [] => (false, h, sm)
  | c :: chains =>
      if negb (valid (h !!! c)) then deps_scan baseFee chains h sm
      else if merged (h !!! c) then deps_scan baseFee chains h sm
      else if negative (h !!! c) then (false, h, sm)
      else match tryToAddWithDeps c baseFee h sm with
      | (true, h, sm) => deps_scan baseFee chains h sm
      | (false, h, sm) => (true, h, sm)
      end
  end.

(** Step 7; [deps_scan] tells whether to go round again. *)
Fixpoint deps_tail (fuel : nat) (baseFee : Z) (last : nat) (chains : list nat) (h : list msgChain)
    (sm : selectedMessages) : option (list nat * list msgChain * selectedMessages) :=
  match fuel with
  | O => None
  | S fuel =>
      if negb (MinGas <=? selGasLimit sm) || (length chains <=? last)%nat then Some (chains, h, sm)
      else
        let id := chains !!! last in
        if negb (valid (h !!! id)) then deps_tail fuel baseFee (S last) chains h sm
        else
          let h := trimChain id baseFee sm h in
          let chains := if valid (h !!! id)
                        then push_down_at (fun c d => BeforeEffective (h !!! c) (h !!! d)) last chains
                        else chains in
          match deps_scan baseFee (drop last chains) h sm with
          | (false, h, sm) => Some (chains, h, sm)
          | (true, h, sm) => deps_tail fuel baseFee last chains h sm
          end
  end.

Definition swap (i j : nat) (l : list nat) : list nat := <[i := l !!! j]> (<[j := l !!! i]> l).

Definition shuffleChains (lst : list nat) : list nat :=
  foldl (fun l i => swap i (rand_Intn i (S i)) l) lst (seq 0 (length lst)).

(** The random filling of the room that is left. *)
Fixpoint random_fill (baseFee : Z) (chains : list nat) (h : list msgChain) (sm : selectedMessages)
    : selectedMessages :=
  match chains with
  | [] => sm
  | c :: chains =>
      if (selGasLimit sm <? MinGas) || (BlockMessageLimit <=? selLen sm) then sm
      else if merged (h !!! c) || negb (valid (h !!! c)) then random_fill baseFee chains h sm
      else if negative (h !!! c) then random_fill baseFee chains h sm
      else match tryToAddWithDeps c baseFee h sm with
      | (true, h, sm) => random_fill baseFee chains h sm
      | (false, h, sm) =>
          if valid (h !!! c) then
            let '(_, h, sm) := tryToAddWithDeps c baseFee h sm in random_fill baseFee chains h sm
          else random_fill baseFee chains h sm
      end
  end.

(** Steps 2 to 7 and the random filling. *)
Definition pack_optimal (blockProb : list float64) (baseFee : Z) (chains : list nat) (h : list msgChain)
    (sm : selectedMessages) : option selectedMessages :=
  let chains := sort_Slice (fun c d => Before (h !!! c) (h !!! d)) chains in
  if match chains with c :: _ => negative (h !!! c) | [] => false end then Some sm
  else
    let '(parts, rest) := partition MaxBlocks h chains in
    let h := set_perfs blockProb parts rest h in
    let chains := sort_Slice (fun c d => BeforeEffective (h !!! c) (h !!! d)) chains in
    let '(last, chains, h, sm) := merge_deps (length chains) 0 baseFee chains h sm in
    '(chains, h, sm) ← deps_tail (S (total_messages h + length chains)) baseFee last chains h sm;
    if (MinGas <=? selGasLimit sm) && (selLen sm <=? BlockMessageLimit)
    then Some (random_fill baseFee (shuffleChains chains) h sm)
    else Some sm.

(** The probabilities of [block_proba.go] are a parameter. *)
Variable blockProbabilities : float64 → list float64.

Definition selectMessagesOptimal (fuel : nat) (priority : list address) (ts : TipSet) (tq : float64)
    (mp : MessagePool) : result sel_error (option selectedMessages) * MessagePool :=
  with_pending (fun sm => (selGasLimit sm <? MinGas) || (BlockMessageLimit <=? selLen sm)) fuel priority ts mp
    (fun baseFee pending sm =>
       let '(chains, h) := all_chains (range_keys pending) pending baseFee ts [] [] in
       pack_optimal (blockProbabilities tq) baseFee chains h sm).

(** The messages of the block; [None] when there are none to select from. *)
Definition SelectMessages (fuel : nat) (priority : list address) (ts : TipSet) (tq : float64) (mp : MessagePool)
    : result sel_error (option (list SignedMessage)) * MessagePool :=
  match (if f_lt (rat_Float64 84 100) tq then selectMessagesGreedy fuel priority ts mp
         else selectMessagesOptimal fuel priority ts tq mp) with
  | (Err e, mp) => (Err e, mp)
  | (Ok None, mp) => (Ok None, mp)
  | (Ok (Some sm), mp) =>
      (Ok (Some (if BlockMessageLimit <? selLen sm then take (Z.to_nat BlockMessageLimit) (selMsgs sm)
                 else selMsgs sm)), mp)
  end.
End Select.
