(* ===== verification/ChainProps.v ===== *)
(** Theory of message chains ([MsgChains]): the order on gas performances, the
    candidate messages of an actor, and their division into chains. *)

From Stdlib Require Import SpecFloat.
From coqutil Require Import Datatypes.RecordSetters.
From S2P Require Import Prelude Gas Types Tipset MsgSet MessagePool MsgChains.
Import DoubleBraceUpdate.
Import Gas.Prices.

(** * The order on floats *)

Definition is_nan (f : float64) : bool := match f with S754_nan => true | _ => false end.

(** Position of a float in the order: infinities and signs, exponent, mantissa. *)
Definition fkey (f : float64) : Z * Z * Z :=
  match f with
  | S754_infinity true => (-2, 0, 0)
  | S754_infinity false => (2, 0, 0)
  | S754_finite true m e => (-1, -e, - Zpos m)
  | S754_finite false m e => (1, e, Zpos m)
  | _ => (0, 0, 0)
  end.

Definition key_lt (a b : Z * Z * Z) : Prop :=
  let '(a1, a2, a3) := a in let '(b1, b2, b3) := b in
  a1 < b1 ∨ a1 = b1 ∧ (a2 < b2 ∨ a2 = b2 ∧ a3 < b3).

Lemma SFcompare_key f g :
  is_nan f = false -> is_nan g = false ->
  match SFcompare f g with
  | Some Lt => key_lt (fkey f) (fkey g)
  | Some Gt => key_lt (fkey g) (fkey f)
  | Some Eq => fkey f = fkey g
  | None => False
  end.
Proof.
  destruct f as [|[]| |[] m1 e1], g as [|[]| |[] m2 e2]; simpl; intros; try done; try lia.
  - destruct (Z.compare_spec e1 e2) as [->| |]; [|lia..].
    fold (Pos.compare m1 m2). destruct (Pos.compare_spec m1 m2) as [->| |]; simpl; [done|lia..].
  - destruct (Z.compare_spec e1 e2) as [->| |]; [|lia..].
    fold (Pos.compare m1 m2). destruct (Pos.compare_spec m1 m2) as [->| |]; simpl; [done|lia..].
Qed.

Lemma f_lt_key f g : is_nan f = false -> is_nan g = false -> f_lt f g = true ↔ key_lt (fkey f) (fkey g).
Proof.
  intros Hf Hg. pose proof (SFcompare_key f g Hf Hg) as H. unfold f_lt, SFltb.
  destruct (SFcompare f g) as [[]|]; [rewrite H| | |done]; split; try done.
  - destruct (fkey g) as [[? ?] ?]. simpl. lia.
  - destruct (fkey f) as [[? ?] ?], (fkey g) as [[? ?] ?]. simpl in *. lia.
Qed.

Lemma f_eq_key f g : is_nan f = false -> is_nan g = false -> SFeqb f g = true ↔ fkey f = fkey g.
Proof.
  intros Hf Hg. pose proof (SFcompare_key f g Hf Hg) as H. unfold SFeqb.
  destruct (SFcompare f g) as [[]|]; [done| | |done]; split; try done; intros E; rewrite E in H;
    destruct (fkey g) as [[? ?] ?]; simpl in H; lia.
Qed.

Lemma f_ge_lt f g : is_nan f = false -> is_nan g = false -> f_ge f g = negb (f_lt f g).
Proof.
  intros Hf Hg. unfold f_ge, f_lt, SFleb, SFltb.
  pose proof (SFcompare_key f g Hf Hg) as H1. pose proof (SFcompare_key g f Hg Hf) as H2.
  destruct (fkey f) as [[? ?] ?], (fkey g) as [[? ?] ?]; simpl in *.
  destruct (SFcompare f g) as [[]|], (SFcompare g f) as [[]|]; simplify_eq; simpl; try done; exfalso; lia.
Qed.

Lemma f_lt_num f g : f_lt f g = true -> is_nan f = false ∧ is_nan g = false.
Proof. unfold f_lt, SFltb. destruct f as [|[]| |[]], g as [|[]| |[]]; simpl; done. Qed.

Lemma f_lt_trans f g k : f_lt f g = true -> f_lt g k = true -> f_lt f k = true.
Proof.
  intros H1 H2. destruct (f_lt_num _ _ H1) as [Hf Hg]. destruct (f_lt_num _ _ H2) as [_ Hk].
  rewrite f_lt_key in * by done.
  destruct (fkey f) as [[? ?] ?], (fkey g) as [[? ?] ?], (fkey k) as [[? ?] ?]. simpl in *. lia.
Qed.

Lemma f_lt_asym f g : f_lt f g = true -> f_lt g f = false.
Proof.
  intros H. destruct (f_lt_num _ _ H) as [Hf Hg]. apply not_true_iff_false. intros H'.
  rewrite f_lt_key in * by done. destruct (fkey f) as [[? ?] ?], (fkey g) as [[? ?] ?]. simpl in *. lia.
Qed.

(** [Before] is a weak order on chains whose performance is a number. *)
Lemma Before_weak_order : weak_order (fun c => is_nan (gasPerf c) = false) Before.
Proof.
  assert (HB : ∀ x y, is_nan (gasPerf x) = false -> is_nan (gasPerf y) = false ->
    Before x y = true ↔ key_lt (fkey (gasPerf y)) (fkey (gasPerf x)) ∨
      fkey (gasPerf x) = fkey (gasPerf y) ∧ gasReward y < gasReward x).
  { intros x y Hx Hy. unfold Before. rewrite orb_true_iff, andb_true_iff.
    rewrite f_lt_key, f_eq_key by done. by rewrite Z.ltb_lt. }
  split.
  - intros x y Hx Hy. rewrite HB by done. rewrite <- not_true_iff_false, HB by done.
    destruct (fkey (gasPerf x)) as [[? ?] ?], (fkey (gasPerf y)) as [[? ?] ?]. simpl. intros. naive_solver lia.
  - intros x y z Hx Hy Hz. rewrite <- !not_true_iff_false, !HB by done.
    destruct (fkey (gasPerf x)) as [[? ?] ?], (fkey (gasPerf y)) as [[? ?] ?], (fkey (gasPerf z)) as [[? ?] ?].
    simpl. intros H1 H2 H3. rewrite !pair_equal_spec in *. lia.
Qed.

(** * Performances are numbers *)

Lemma shr_1_nonneg r : 0 ≤ shr_m r -> 0 ≤ shr_m (shr_1 r).
Proof. destruct r as [m b s]. simpl. by destruct m as [|[]|[]]; simpl; intros; try lia. Qed.

Lemma iter_pos_nonneg p : ∀ r, 0 ≤ shr_m r -> 0 ≤ shr_m (SpecFloat.iter_pos shr_1 p r).
Proof. induction p as [p IH|p IH|]; intros r Hr; simpl; auto using shr_1_nonneg. Qed.

Lemma shr_fexp_nonneg m e l : 0 ≤ m -> 0 ≤ shr_m (shr_fexp 53 1024 m e l).1.
Proof.
  intros Hm. unfold shr_fexp, shr. assert (Hl : 0 ≤ shr_m (shr_record_of_loc m l)) by (by destruct l as [|[]]).
  destruct (_ - e); simpl; [done|by apply iter_pos_nonneg|done].
Qed.

Lemma binary_round_aux_num s m e l : 0 ≤ m -> is_nan (binary_round_aux 53 1024 s m e l) = false.
Proof.
  intros Hm. unfold binary_round_aux. pose proof (shr_fexp_nonneg m e l Hm) as H1.
  destruct (shr_fexp 53 1024 m e l) as [r1 e1]. simpl in H1.
  assert (H2 : 0 ≤ round_nearest_even (shr_m r1) (loc_of_shr_record r1)).
  { destruct (loc_of_shr_record r1) as [|[]]; simpl; try lia. destruct (Z.even _); lia. }
  pose proof (shr_fexp_nonneg _ e1 loc_Exact H2) as H3.
  destruct (shr_fexp 53 1024 (round_nearest_even _ _) e1 loc_Exact) as [r2 e2]. simpl in H3.
  destruct (shr_m r2); [done| |lia]. by destruct (_ <=? _).
Qed.

Lemma getGasPerf_num reward limit : 0 < limit -> is_nan (getGasPerf reward limit) = false.
Proof.
  intros Hl. unfold getGasPerf, rat_Float64, f_div. destruct limit as [|p|]; [lia| |lia].
  destruct (reward * BlockGasLimit) as [|q|q]; simpl; [done|..].
  all: unfold SFdiv_core_binary;
    match goal with |- context [Z.div_eucl ?a ?b] =>
      pose proof (Z_div_mod a b ltac:(lia)) as Hd; destruct (Z.div_eucl a b) as [z r] end;
    apply binary_round_aux_num.
  all: match type of Hd with ?a = _ ∧ _ => assert (0 ≤ a) end; [|nia].
  all: destruct (_ - _); try apply Z.shiftl_nonneg; lia.
Qed.

(** * Candidate messages *)

(** What admission guarantees of a pending message. *)
Record msg_ok (m : SignedMessage) : Prop := mkMsgOk {
  mo_gas : 0 < sm_GasLimit m ≤ BlockGasLimit;
  mo_nonce : in_u64 (sm_Nonce m);
}.

Definition gas_of (l : list SignedMessage) : Z := sumZ sm_GasLimit l.

(** The sender can pay for the gas of each message after the ones before it, with
    the value they transfer. *)
Fixpoint payable (balance : Z) (l : list SignedMessage) : Prop :=
  match l with
  | [] => True
  | m :: l => sm_RequiredFunds m ≤ balance ∧ payable (balance - sm_RequiredFunds m - sm_Value m) l
  end.

Section Candidates.
Variable api : Provider.

(** A sequence of messages an actor can have in one block. *)
Record valid_run (ts : TipSet) (nonce balance gas : Z) (l : list SignedMessage) : Prop := mkValidRun {
  vr_nonces i m : l !! i = Some m -> sm_Nonce m = nonce + Z.of_nat i;
  vr_mingas : Forall (fun m => minGas api (ts_height ts) (ChainLength api m) ≤ sm_GasLimit m) l;
  vr_gas : gas + gas_of l ≤ BlockGasLimit;
  vr_funds : payable balance l;
}.

Lemma payable_app balance l1 l2 : payable balance (l1 ++ l2) -> payable balance l1.
Proof. revert balance. induction l1 as [|m l1 IH]; intros b; simpl; [done|]. intros [? ?]. split; [done|eauto]. Qed.

Lemma gas_of_nonneg l : Forall msg_ok l -> 0 ≤ gas_of l.
Proof. intros H. apply sumZ_nonneg. eapply Forall_impl; [exact H|]. intros m Hm. simpl. destruct (mo_gas _ Hm). lia. Qed.

Lemma valid_run_prefix ts nonce balance gas l1 l2 :
  Forall msg_ok l2 -> valid_run ts nonce balance gas (l1 ++ l2) -> valid_run ts nonce balance gas l1.
Proof.
  intros Hok [Hn Hm Hg Hf]. split.
  - intros i m Hi. by apply Hn, lookup_app_l_Some.
  - by apply Forall_app in Hm as [? _].
  - unfold gas_of in *. rewrite sumZ_app in Hg. pose proof (gas_of_nonneg l2 Hok). unfold gas_of in *. lia.
  - by eapply payable_app.
Qed.

Abbreviation by_nonce := (StronglySorted (fun a b => sm_Nonce a < sm_Nonce b)).

(** What the loop keeps of messages from the nonce [cur] on. *)
Lemma scan_keep ts baseFee msgs : ∀ cur balance gas i skip rewards,
  by_nonce msgs -> Forall msg_ok msgs -> Forall (fun m => cur ≤ sm_Nonce m) msgs -> 0 ≤ gas ≤ BlockGasLimit ->
  ∃ kept rest, msgs = kept ++ rest ∧ valid_run ts cur balance gas kept ∧
    scan_loop api ts baseFee msgs cur balance gas i skip rewards =
      ((i + length kept)%nat, skip, rewards ++ map (fun m => getGasReward m baseFee) kept).
Proof.
  assert (Hnone : ∀ ts cur balance gas, 0 ≤ gas ≤ BlockGasLimit -> valid_run ts cur balance gas []).
  { intros. split; [done|constructor|unfold gas_of; simpl; lia|done]. }
  induction msgs as [|m msgs IH]; intros cur balance gas i skip rewards Hs Hok Hge Hgas; simpl.
  { exists [], []. split; [done|]. split; [auto|]. simpl. by rewrite Nat.add_0_r, app_nil_r. }
  apply StronglySorted_inv in Hs as [Hs Hhd]. apply Forall_cons in Hok as [Hm Hok]. apply Forall_cons in Hge as [Hc Hge].
  assert (Hstop : ∀ kept, kept = [] -> ∃ rest, m :: msgs = kept ++ rest ∧ valid_run ts cur balance gas kept ∧
    (i, skip, rewards) = ((i + length kept)%nat, skip, rewards ++ map (fun m => getGasReward m baseFee) kept)).
  { intros kept ->. exists (m :: msgs). split; [done|]. split; [auto|]. simpl. by rewrite Nat.add_0_r, app_nil_r. }
  destruct (Z.ltb_spec (sm_Nonce m) cur); [lia|].
  destruct (Z.eqb_spec (sm_Nonce m) cur) as [Hn|]; simpl; [|exists []; by apply Hstop].
  destruct (Z.ltb_spec (sm_GasLimit m) (minGas api (ts_height ts) (ChainLength api m)));
    [exists []; by apply Hstop|].
  destruct (mo_gas m Hm) as [Hg0 Hg1]. assert (Hw : gas ⊞ sm_GasLimit m = gas + sm_GasLimit m).
  { unfold i64_add. apply wrap64_id. unfold in_i64. unfold BlockGasLimit in *. lia. }
  rewrite Hw. destruct (Z.ltb_spec BlockGasLimit (gas + sm_GasLimit m)); [exists []; by apply Hstop|].
  destruct (Z.ltb_spec balance (sm_RequiredFunds m)); [exists []; by apply Hstop|].
  pose proof (mo_nonce m Hm) as Hu. clear Hstop.
  assert (Hge' : Forall (fun m => wrapu64 (cur + 1) ≤ sm_Nonce m) msgs).
  { rewrite Forall_forall in *. intros m' Hm'. specialize (Hhd m' Hm'). simpl in Hhd.
    destruct (mo_nonce m' (Hok m' Hm')) as [? ?]. unfold wrapu64, in_u64 in *.
    destruct (decide (cur = 2 ^ 64 - 1)) as [->|]; [lia|].
    rewrite Z.mod_small; lia. }
  destruct (IH (wrapu64 (cur + 1)) (balance - sm_RequiredFunds m - sm_Value m) (gas + sm_GasLimit m) (S i) skip
    (rewards ++ [getGasReward m baseFee]) Hs Hok Hge' ltac:(lia)) as (kept & rest & -> & Hrun & ->).
  exists (m :: kept), rest. split; [done|]. split; [|simpl; by rewrite <- app_assoc, Nat.add_succ_r].
  destruct Hrun as [Hr1 Hr2 Hr3 Hr4]. split.
  - intros [|j] m' Hj; simplify_eq/=; [lia|]. rewrite (Hr1 _ _ Hj). unfold wrapu64.
    assert (Hin : m' ∈ kept ++ rest) by (apply elem_of_app; left; by eapply list_elem_of_lookup_2).
    rewrite Forall_forall in Hhd. specialize (Hhd _ Hin). simpl in Hhd. rewrite Forall_forall in Hok.
    destruct (mo_nonce m' (Hok _ Hin)) as [? ?]. unfold in_u64 in Hu. rewrite Z.mod_small; lia.
  - by constructor.
  - unfold gas_of in *. rewrite sumZ_cons. lia.
  - simpl. auto.
Qed.

(** The loop skips used nonces and keeps a valid run. *)
Lemma scan_spec ts baseFee msgs : ∀ cur balance i,
  by_nonce msgs -> Forall msg_ok msgs -> in_u64 cur ->
  ∃ used kept rest, msgs = used ++ kept ++ rest ∧ valid_run ts cur balance 0 kept ∧
    scan_loop api ts baseFee msgs cur balance 0 i i [] =
      ((i + length used + length kept)%nat, (i + length used)%nat, map (fun m => getGasReward m baseFee) kept).
Proof.
  induction msgs as [|m msgs IH]; intros cur balance i Hs Hok Hcur.
  { destruct (scan_keep ts baseFee [] cur balance 0 i i [] Hs Hok) as (kept & rest & Hm & Hr & ->);
      [constructor|unfold BlockGasLimit; lia|]. exists [], kept, rest. simpl. by rewrite Nat.add_0_r. }
  destruct (Z.lt_ge_cases (sm_Nonce m) cur) as [Hlt|Hge].
  - pose proof (proj2 (Z.ltb_lt _ _) Hlt) as Hltb. simpl. rewrite Hltb.
    apply StronglySorted_inv in Hs as [Hs _]. apply Forall_cons in Hok as [_ Hok].
    destruct (IH cur balance (S i) Hs Hok Hcur) as (used & kept & rest & -> & Hr & ->).
    exists (m :: used), kept, rest. split; [done|]. split; [done|]. simpl. do 2 f_equal; lia.
  - destruct (scan_keep ts baseFee (m :: msgs) cur balance 0 i i [] Hs Hok) as (kept & rest & Hm & Hr & ->).
    + constructor; [lia|]. apply StronglySorted_inv in Hs as [_ Hhd]. eapply Forall_impl; [exact Hhd|]. simpl. lia.
    + unfold BlockGasLimit. lia.
    + exists [], kept, rest. simpl. by rewrite Nat.add_0_r.
Qed.

Lemma zip_map_r {A B} (f : A -> B) l k : zip (take k l) (map f l) = map (fun x => (x, f x)) (take k l).
Proof. revert k. induction l as [|x l IH]; intros [|k]; simpl; [done..|]. by rewrite IH. Qed.

Lemma candidates_spec a ts baseFee msgs :
  by_nonce msgs -> Forall msg_ok msgs -> in_u64 (Types.Nonce a) ->
  ∃ run, candidates api a ts baseFee msgs = map (fun m => (m, getGasReward m baseFee)) run ∧
    Forall (fun m => m ∈ msgs) run ∧ Z.of_nat (length run) ≤ BlockMessageLimit ∧
    valid_run ts (Types.Nonce a) (Types.Balance a) 0 run.
Proof.
  intros Hs Hok Hn. unfold candidates.
  destruct (scan_spec ts baseFee msgs (Types.Nonce a) (Types.Balance a) 0 Hs Hok Hn)
    as (used & kept & rest & -> & Hr & ->). simpl.
  destruct (Nat.ltb_spec (length used) (length used + length kept)) as [Hlt|Hge].
  2: { exists []. destruct kept; [|simpl in Hge; lia]. split; [done|]. split; [constructor|]. split; [unfold BlockMessageLimit; simpl; lia|done]. }
  rewrite drop_app_length, Nat.add_comm, Nat.add_sub, take_app_length.
  assert (Hk : ∃ k, (if BlockMessageLimit <? Z.of_nat (length kept) then take (Z.to_nat BlockMessageLimit) kept else kept)
    = take k kept ∧ Z.of_nat (length (take k kept)) ≤ BlockMessageLimit).
  { destruct (Z.ltb_spec BlockMessageLimit (Z.of_nat (length kept))).
    - exists (Z.to_nat BlockMessageLimit). split; [done|]. rewrite length_take. unfold BlockMessageLimit in *. lia.
    - exists (length kept). rewrite take_ge by done. auto. }
  destruct Hk as (k & -> & Hk). exists (take k kept). split; [apply zip_map_r|].
  split; [|split; [done|]].
  - apply Forall_forall. intros m Hm. apply list_elem_of_lookup in Hm as [i Hi]. apply lookup_take_Some in Hi as [Hi _].
    apply elem_of_app. right. apply elem_of_app. left. by eapply list_elem_of_lookup_2.
  - apply valid_run_prefix with (l2 := drop k kept); [|by rewrite take_drop].
    apply Forall_drop. apply Forall_app in Hok as [_ Hok]. by apply Forall_app in Hok as [? _].
Qed.
End Candidates.

(** * Division into chains *)

Definition of_type (τ : SigType) (m : SignedMessage) : Prop := msg_ok m ∧ sm_SigType m = τ.

(** A chain with consistent totals. *)
Record chain_ok (τ : SigType) (c : msgChain) : Prop := mkChainOk {
  co_msgs : chMsgs c ≠ [];
  co_types : Forall (of_type τ) (chMsgs c);
  co_gas : chGasLimit c = gas_of (chMsgs c);
  co_type : sigType c = τ;
  co_valid : valid c = true;
  co_merged : merged c = false;
  co_perf : is_nan (gasPerf c) = false;
}.

Definition chains_msgs (cs : list msgChain) : list SignedMessage := cs ≫= chMsgs.

Lemma chains_msgs_cons c cs : chains_msgs (c :: cs) = chMsgs c ++ chains_msgs cs.
Proof. done. Qed.

Lemma gas_of_app l1 l2 : gas_of (l1 ++ l2) = gas_of l1 + gas_of l2.
Proof. apply sumZ_app. Qed.

Lemma gas_of_cons m l : gas_of (m :: l) = sm_GasLimit m + gas_of l.
Proof. apply sumZ_cons. Qed.

Lemma gas_of_nil : gas_of [] = 0.
Proof. done. Qed.

Lemma of_type_ok τ l : Forall (of_type τ) l -> Forall msg_ok l.
Proof. intros H. eapply Forall_impl; [exact H|]. by intros m [? _]. Qed.

Lemma gas_of_pos τ l : Forall (of_type τ) l -> l ≠ [] -> 0 < gas_of l.
Proof.
  intros H Hl. destruct H as [|m l [Hm _] H]; [done|]. rewrite gas_of_cons.
  pose proof (gas_of_nonneg l (of_type_ok _ _ H)). destruct (mo_gas _ Hm). lia.
Qed.

Lemma gas_add a b : 0 ≤ a -> 0 ≤ b -> a + b ≤ BlockGasLimit -> a ⊞ b = a + b.
Proof. intros. unfold i64_add. apply wrap64_id. unfold in_i64. unfold BlockGasLimit in *. lia. Qed.

Lemma newChain_ok τ m r : of_type τ m -> chain_ok τ (newChain m r).
Proof.
  intros [Hm Ht]. destruct (mo_gas _ Hm). split; simpl; try done.
  - constructor; [by split|constructor].
  - unfold gas_of, sumZ. simpl. lia.
  - by apply getGasPerf_num.
Qed.

Lemma split_chains_ok τ msgs : ∀ c,
  chain_ok τ c -> Forall (fun p => of_type τ p.1) msgs -> gas_of (chMsgs c ++ msgs.*1) ≤ BlockGasLimit ->
  Forall (chain_ok τ) (split_chains c msgs) ∧ chains_msgs (split_chains c msgs) = chMsgs c ++ msgs.*1.
Proof.
  induction msgs as [|[m r] msgs IH]; intros c Hc Ht Hg.
  { split; [constructor; [done|constructor]|]. unfold chains_msgs. simpl. by rewrite !app_nil_r. }
  rewrite fmap_cons in *. cbn [fst split_chains] in *.
  apply Forall_cons in Ht as [Hm Ht]. simpl in Hm. rewrite gas_of_app, gas_of_cons in Hg.
  pose proof (gas_of_pos τ _ (co_types _ _ Hc) (co_msgs _ _ Hc)) as Hp. destruct (mo_gas _ (proj1 Hm)) as [Hm1 Hm2].
  assert (Hr : 0 ≤ gas_of msgs.*1).
  { apply gas_of_nonneg, Forall_fmap. eapply Forall_impl; [exact Ht|]. by intros ? [? _]. }
  destruct (f_lt _ (gasPerf c)).
  - destruct (IH (newChain m r) (newChain_ok τ m r Hm) Ht) as [H1 H2].
    { cbn [chMsgs newChain app]. rewrite gas_of_cons. lia. }
    split; [by constructor|]. by rewrite chains_msgs_cons, H2.
  - destruct (IH (c {{ chMsgs := chMsgs c ++ [m]; gasReward := gasReward c + r; chGasLimit := chGasLimit c ⊞ sm_GasLimit m;
        gasPerf := getGasPerf (gasReward c + r) (chGasLimit c ⊞ sm_GasLimit m) }})) as [H1 H2]; [|done| |].
    + rewrite (co_gas _ _ Hc), gas_add by lia. destruct Hc. split; simpl; try done.
      * by destruct (chMsgs c).
      * apply Forall_app. split; [done|]. constructor; [done|constructor].
      * rewrite gas_of_app, gas_of_cons, gas_of_nil. lia.
      * apply getGasPerf_num. lia.
    + simpl. rewrite !gas_of_app, gas_of_cons, gas_of_nil. lia.
    + split; [done|]. rewrite H2. cbn. by rewrite <- app_assoc.
Qed.

Lemma merge_pass_ok τ cs :
  Forall (chain_ok τ) cs -> gas_of (chains_msgs cs) ≤ BlockGasLimit ->
  Forall (chain_ok τ) (merge_pass cs) ∧ chains_msgs (merge_pass cs) = chains_msgs cs.
Proof.
  induction cs as [|c cs IH]; intros Hc Hg; [done|]. apply Forall_cons in Hc as [Hc Hcs].
  rewrite chains_msgs_cons, gas_of_app in Hg.
  pose proof (gas_of_pos τ _ (co_types _ _ Hc) (co_msgs _ _ Hc)) as Hp.
  destruct (IH Hcs ltac:(lia)) as [H1 H2]. cbn [merge_pass]. rewrite chains_msgs_cons, <- H2. rewrite <- H2 in Hg.
  destruct (merge_pass cs) as [|d rest]; [split; [by constructor|done]|].
  apply Forall_cons in H1 as [Hd Hrest]. rewrite chains_msgs_cons, gas_of_app in Hg.
  pose proof (gas_of_pos τ _ (co_types _ _ Hd) (co_msgs _ _ Hd)) as Hpd.
  assert (0 ≤ gas_of (chains_msgs rest)).
  { apply gas_of_nonneg. unfold chains_msgs. apply Forall_bind. eapply Forall_impl; [exact Hrest|].
    intros x Hx. eapply of_type_ok, co_types, Hx. }
  destruct (f_ge _ _); [|split; [by constructor; [|constructor]|done]].
  split; [constructor; [|done]|rewrite !chains_msgs_cons; cbn; by rewrite <- app_assoc].
  unfold merge_two. rewrite (co_gas _ _ Hc), (co_gas _ _ Hd), gas_add by lia. destruct Hc, Hd. split; simpl; try done.
  - by destruct (chMsgs c).
  - by apply Forall_app.
  - by rewrite gas_of_app.
  - apply getGasPerf_num. lia.
Qed.

(** Each chain performs worse than the one it depends on. *)
Abbreviation decreasing := (StronglySorted (fun c d => f_lt (gasPerf d) (gasPerf c) = true)).

(** A pass that merges nothing leaves decreasing chains. *)
Lemma merge_pass_stable τ cs :
  Forall (chain_ok τ) cs ->
  (length (merge_pass cs) ≤ length cs)%nat ∧
  (length (merge_pass cs) = length cs -> merge_pass cs = cs ∧ Sorted (fun c d => f_lt (gasPerf d) (gasPerf c) = true) cs).
Proof.
  induction cs as [|c cs IH]; intros Hc; [done|]. apply Forall_cons in Hc as [Hc Hcs]. specialize (IH Hcs) as [Hle Heq].
  cbn [merge_pass]. destruct (merge_pass cs) as [|d rest] eqn:E.
  - simpl in *. split; [lia|]. intros Hl. destruct cs; [|done]. split; [done|by repeat constructor].
  - destruct (f_ge (gasPerf d) (gasPerf c)) eqn:Eg; simpl in *; [split; lia|]. split; [lia|].
    intros Hl. destruct Heq as [<- Hs]; [simpl; lia|]. split; [done|]. constructor; [done|]. constructor.
    apply Forall_cons in Hcs as [Hd _]. rewrite f_ge_lt in Eg by (eapply co_perf; done). by destruct (f_lt _ _).
Qed.

Lemma merge_loop_ok τ fuel : ∀ cs,
  (length cs ≤ fuel)%nat -> Forall (chain_ok τ) cs -> gas_of (chains_msgs cs) ≤ BlockGasLimit ->
  Forall (chain_ok τ) (merge_loop fuel cs) ∧ chains_msgs (merge_loop fuel cs) = chains_msgs cs ∧
  decreasing (merge_loop fuel cs).
Proof.
  induction fuel as [|fuel IH]; intros cs Hl Hc Hg; simpl.
  { destruct cs; [|simpl in Hl; lia]. split; [done|]. split; [done|constructor]. }
  destruct (merge_pass_ok τ cs Hc Hg) as [H1 H2]. destruct (merge_pass_stable τ cs Hc) as [H3 H4].
  destruct (Nat.eqb_spec (length (merge_pass cs)) (length cs)) as [He|Hne].
  - split; [done|]. split; [done|]. apply Sorted_StronglySorted; [|by apply H4]. intros x y z Hxy Hyz. by eapply f_lt_trans.
  - destruct (IH (merge_pass cs)) as (H5 & H6 & H7); [lia|done|by rewrite H2|]. split; [done|]. split; [congruence|done].
Qed.

Lemma build_chains_ok τ msgs :
  Forall (fun p => of_type τ p.1) msgs -> gas_of msgs.*1 ≤ BlockGasLimit ->
  Forall (chain_ok τ) (build_chains msgs) ∧ chains_msgs (build_chains msgs) = msgs.*1 ∧
  decreasing (build_chains msgs).
Proof.
  intros Ht Hg. destruct msgs as [|[m r] msgs]; [split; [done|split; [done|constructor]]|].
  rewrite fmap_cons in *. cbn [fst build_chains] in *. apply Forall_cons in Ht as [Hm Ht].
  destruct (split_chains_ok τ msgs (newChain m r) (newChain_ok τ m r Hm) Ht Hg) as [H1 H2].
  destruct (merge_loop_ok τ (length (split_chains (newChain m r) msgs)) _ ltac:(done) H1) as (H3 & H4 & H5).
  { by rewrite H2. }
  split; [done|]. split; [by rewrite H4, H2|done].
Qed.

(** The reward and the performance of a chain are those of its messages. *)
Definition scored (baseFee : Z) (c : msgChain) : Prop :=
  gasReward c = sumZ (fun m => getGasReward m baseFee) (chMsgs c) ∧
  gasPerf c = getGasPerf (gasReward c) (chGasLimit c).

Lemma split_chains_scored bf msgs : ∀ c,
  scored bf c -> Forall (fun p => p.2 = getGasReward p.1 bf) msgs -> Forall (scored bf) (split_chains c msgs).
Proof.
  induction msgs as [|[m r] msgs IH]; intros c Hc Hr; simpl; [by constructor|].
  apply Forall_cons in Hr as [Hm Hr]. simpl in Hm. subst r. destruct (f_lt _ _).
  - constructor; [done|]. apply IH; [|done]. split; [|done]. unfold sumZ. simpl. lia.
  - apply IH; [|done]. split; [|done]. simpl. rewrite sumZ_app, sumZ_cons, (proj1 Hc). unfold sumZ. simpl. lia.
Qed.

Lemma merge_pass_scored bf cs : Forall (scored bf) cs -> Forall (scored bf) (merge_pass cs).
Proof.
  induction 1 as [|c cs Hc Hcs IH]; simpl; [done|]. destruct (merge_pass cs) as [|d rest]; [by constructor|].
  destruct (f_ge _ _); [|by constructor]. apply Forall_cons in IH as [Hd Hrest]. constructor; [|done]. split; [|done].
  unfold merge_two. simpl. by rewrite sumZ_app, (proj1 Hc), (proj1 Hd).
Qed.

Lemma build_chains_scored bf msgs :
  Forall (fun p => p.2 = getGasReward p.1 bf) msgs -> Forall (scored bf) (build_chains msgs).
Proof.
  intros H. destruct msgs as [|[m r] msgs]; simpl; [constructor|]. apply Forall_cons in H as [Hm H]. simpl in Hm. subst r.
  assert (Hloop : ∀ fuel cs, Forall (scored bf) cs -> Forall (scored bf) (merge_loop fuel cs)).
  { induction fuel as [|fuel IH]; intros cs Hcs; simpl; [done|]. case_match; [done|]. by apply IH, merge_pass_scored. }
  apply Hloop, split_chains_scored; [|done]. split; [|done]. unfold sumZ. simpl. lia.
Qed.
