(* ===== verification/SelectProps.v ===== *)
(** Theory of message selection ([MsgSelect]): what stays true of the chains of
    each actor while chains are trimmed, invalidated and merged, that the loops
    end, and that the selected block respects the limits and takes a prefix of
    the messages of every actor. *)

From Stdlib Require Import SpecFloat.
From coqutil Require Import Datatypes.RecordSetters.
From S2P Require Import Prelude Gas Types Tipset ChainIndex MsgSet MessagePool MsgChains MsgSelect ChainProps.
Import DoubleBraceUpdate.
Import Gas.Prices.

Arguments constant {E} newValue _ /.

(** * Chains of an actor in the store *)

(** The cells of an actor's chains, the messages they were made of and their
    signature type. *)
Record group := mkGroup {
  g_owner : address;
  g_base : nat;
  g_len : nat;
  g_type : SigType;
  g_run : list SignedMessage;
}.

#[export] Instance group_eq_dec : EqDecision group.
Proof. solve_decision. Defined.

Definition in_group (g : group) (id : nat) : Prop := (g_base g ≤ id < g_base g + g_len g)%nat.

#[export] Instance in_group_dec g id : Decision (in_group g id).
Proof. unfold in_group. apply _. Defined.

(** Cells are linked to their neighbours; [next] links may be cut. *)
Definition linked (g : group) (h : list msgChain) : Prop :=
  (g_base g + g_len g ≤ length h)%nat ∧
  ∀ id, in_group g id ->
    sigType (h !!! id) = g_type g ∧
    prev (h !!! id) = (if decide (id = g_base g) then None else Some (pred id)) ∧
    (next (h !!! id) = None ∨ next (h !!! id) = Some (S id) ∧ in_group g (S id)).

Definition kill (mc : msgChain) : msgChain := mc {{ valid := false; chMsgs := []; next := None }}.

Lemma kill_cut mc : next mc = None -> mc {{ valid := false; chMsgs := [] }} = kill mc.
Proof. destruct mc. simpl. by intros ->. Qed.

(** [h'] is [h] with the cells from [x] to [y] killed. *)
Definition killed (x y : nat) (h h' : list msgChain) : Prop :=
  length h' = length h ∧ ∀ j, h' !!! j = if decide (x ≤ j ≤ y)%nat then kill (h !!! j) else h !!! j.

Lemma alter_total (f : msgChain → msgChain) i j (h : list msgChain) :
  (i < length h)%nat -> alter f i h !!! j = if decide (i = j) then f (h !!! j) else h !!! j.
Proof.
  intros Hi. case_decide as H; [subst; by apply list_lookup_total_alter_eq|by apply list_lookup_total_alter_ne].
Qed.

Lemma insert_total (c : msgChain) i j (h : list msgChain) :
  (i < length h)%nat -> <[i := c]> h !!! j = if decide (i = j) then c else h !!! j.
Proof.
  intros Hi. case_decide as H; [subst; by apply list_lookup_total_insert_eq|by apply list_lookup_total_insert_ne].
Qed.

(** [Invalidate] kills the cells up to the first cut link. *)
Lemma Invalidate_loop_spec g fuel : ∀ id h,
  linked g h -> in_group g id -> (g_base g + g_len g - id ≤ fuel)%nat ->
  ∃ y, (id ≤ y)%nat ∧ in_group g y ∧ killed id y h (Invalidate_loop fuel id h) ∧
    next (h !!! y) = None ∧ ∀ j, (id ≤ j < y)%nat -> next (h !!! j) = Some (S j).
Proof.
  induction fuel as [|fuel IH]; intros id h [Hlen Hl] Hid Hf; [unfold in_group in Hid; lia|]. simpl.
  assert (Hb : (id < length h)%nat) by (unfold in_group in Hid; lia).
  set (h1 := alter _ id h). assert (H1 : ∀ j, h1 !!! j =
    if decide (id = j) then (h !!! j) {{ valid := false; chMsgs := [] }} else h !!! j).
  { intros j. unfold h1. by rewrite alter_total. }
  assert (Hlen1 : length h1 = length h) by (unfold h1; apply length_alter).
  assert (Hnext : next (h1 !!! id) = next (h !!! id)) by (by rewrite H1, decide_True).
  clearbody h1. rewrite Hnext. destruct (Hl id Hid) as (_ & _ & [Hn|[Hn Hs]]); rewrite Hn.
  { exists id. split; [done|]. split; [done|]. split; [split; [done|]|split; [done|lia]].
    intros j. rewrite H1. destruct (decide (id = j)) as [<-|]; [|by rewrite decide_False by lia].
    rewrite decide_True by lia. by apply kill_cut. }
  destruct (IH (S id) h1) as (y & Hy & Hgy & [Hk1 Hk2] & Hny & Hnj); [|done|lia|].
  { split; [lia|]. intros j Hj. rewrite H1. destruct (Hl j Hj) as (? & ? & ?). destruct (decide (id = j)); simpl; auto. }
  exists y. split; [lia|]. split; [done|]. split; [split; [by rewrite length_alter, Hk1|]|].
  - intros j. rewrite alter_total by lia. destruct (decide (id = j)) as [<-|Hne].
    + rewrite Hk2, decide_False, H1, decide_True, decide_True by lia. done.
    + rewrite Hk2, H1, (decide_False (P := id = j)) by done. by repeat case_decide; try lia.
  - split; [by rewrite H1, decide_False in Hny by lia|]. intros j Hj.
    destruct (decide (id = j)) as [<-|]; [done|]. rewrite <- Hnj by lia. by rewrite H1, decide_False.
Qed.

Lemma Invalidate_spec g id h :
  linked g h -> in_group g id ->
  ∃ y, (id ≤ y)%nat ∧ in_group g y ∧ killed id y h (Invalidate id h) ∧
    next (h !!! y) = None ∧ ∀ j, (id ≤ j < y)%nat -> next (h !!! j) = Some (S j).
Proof.
  intros Hl Hid. apply Invalidate_loop_spec; [done|done|]. destruct Hl as [? _]. unfold in_group in *. lia.
Qed.

(** * Trimming *)

(** The fields of a chain that [trim_loop] leaves alone. *)
Definition same_links (c d : msgChain) : Prop :=
  chMsgs d = chMsgs c ∧ valid d = valid c ∧ merged d = merged c ∧ next d = next c ∧ prev d = prev c ∧
  sigType d = sigType c.

#[export] Instance same_links_po : PreOrder same_links.
Proof. split; unfold same_links; [done|]. intros a b c. intuition congruence. Qed.

Lemma setEffPerf_links h c : same_links c (setEffPerf h c) ∧ chGasLimit (setEffPerf h c) = chGasLimit c.
Proof. unfold setEffPerf, same_links. destruct (prev c) eqn:E; [destruct (f_lt _ _)|]; simpl; by rewrite ?E. Qed.

(** One step of the loop. *)
Definition trim_step (h : list msgChain) (baseFee : Z) (m : SignedMessage) (mc : msgChain) : msgChain :=
  let mc := mc {{ gasReward := gasReward mc - getGasReward m baseFee;
                  chGasLimit := chGasLimit mc ⊟ sm_GasLimit m }} in
  if 0 <? chGasLimit mc then
    let mc := mc {{ gasPerf := getGasPerf (gasReward mc) (chGasLimit mc) }} in
    if SFeqb (bp mc) f_zero then mc else setEffPerf h mc
  else mc {{ gasPerf := f_zero; effPerf := f_zero }}.

Lemma trim_step_links h baseFee m mc :
  same_links mc (trim_step h baseFee m mc) ∧ chGasLimit (trim_step h baseFee m mc) = chGasLimit mc ⊟ sm_GasLimit m.
Proof.
  unfold trim_step. cbv zeta. destruct (0 <? _); [|by repeat split]. destruct (SFeqb _ _); [by repeat split|].
  match goal with |- context [setEffPerf h ?c] => destruct (setEffPerf_links h c) as [H1 H2] end.
  split; [|by rewrite H2]. etrans; [|exact H1]. by repeat split.
Qed.

Definition trim_more (gasLimit msgLimit : Z) (n : nat) (mc : msgChain) : bool :=
  (gasLimit <? chGasLimit mc) || f_lt (gasPerf mc) f_zero || (msgLimit <=? Z.of_nat (pred n)).

Lemma trim_loop_spec h msgs gl ml bf n : ∀ mc k mc',
  (n ≤ length msgs)%nat -> trim_loop h msgs gl ml bf n mc = (k, mc') ->
  (k ≤ n)%nat ∧ same_links mc mc' ∧
  (Forall msg_ok msgs -> gas_of msgs ≤ BlockGasLimit -> chGasLimit mc = gas_of (take n msgs) ->
   chGasLimit mc' = gas_of (take k msgs)) ∧
  (n ≠ 0%nat -> trim_more gl ml n mc = true -> (k < n)%nat).
Proof.
  induction n as [|i IH]; intros mc k mc' Hn; simpl; [by intros [= <- <-]|].
  unfold trim_more. cbn [pred]. destruct (_ || _ || _); [|by intros [= <- <-]].
  destruct (lookup_lt_is_Some_2 msgs i) as [m Hm]; [lia|]. rewrite Hm.
  destruct (trim_step_links h bf m mc) as [Hl Hg].
  intros E. change (trim_loop h msgs gl ml bf i (trim_step h bf m mc) = (k, mc')) in E. destruct (IH _ _ _ ltac:(lia) E) as (H1 & H2 & H3 & H4). split; [lia|]. split; [by etrans|].
  split; [|lia]. intros Hok Hb Hgas. apply H3; [done|done|]. rewrite Hg, Hgas.
  rewrite (take_S_r _ _ _ Hm), gas_of_app, gas_of_cons, gas_of_nil.
  assert (Hmo : msg_ok m) by (rewrite Forall_forall in Hok; by eapply Hok, list_elem_of_lookup_2).
  destruct (mo_gas _ Hmo). pose proof (gas_of_nonneg (take i msgs) (Forall_take _ _ _ Hok)).
  pose proof (gas_of_nonneg (drop i msgs) (Forall_drop _ _ _ Hok)).
  rewrite <- (take_drop i msgs), gas_of_app in Hb.
  unfold i64_sub. rewrite wrap64_id; [lia|]. unfold in_i64. unfold BlockGasLimit in *. lia.
Qed.

(** [h'] is [h] with [k] messages left in the cell [id] and the cells after it
    killed up to the first cut link. *)
Record trimmed (g : group) (id k : nat) (h h' : list msgChain) : Prop := mkTrimmed {
  tr_length : length h' = length h;
  tr_keep : (k ≤ length (chMsgs (h !!! id)))%nat;
  tr_msgs : chMsgs (h' !!! id) = take k (chMsgs (h !!! id));
  tr_valid : valid (h' !!! id) = (valid (h !!! id) && negb (k =? 0)%nat);
  tr_merged : merged (h' !!! id) = merged (h !!! id);
  tr_prev : prev (h' !!! id) = prev (h !!! id);
  tr_type : sigType (h' !!! id) = sigType (h !!! id);
  tr_next : next (h' !!! id) = None;
  tr_gas : Forall msg_ok (chMsgs (h !!! id)) -> gas_of (chMsgs (h !!! id)) ≤ BlockGasLimit ->
    chGasLimit (h !!! id) = gas_of (chMsgs (h !!! id)) -> chGasLimit (h' !!! id) = gas_of (chMsgs (h' !!! id));
  tr_others : ∃ y, (id ≤ y)%nat ∧ in_group g y ∧ next (h !!! y) = None ∧
    (∀ j, (id ≤ j < y)%nat -> next (h !!! j) = Some (S j)) ∧
    ∀ j, j ≠ id -> h' !!! j = if decide (id < j ≤ y)%nat then kill (h !!! j) else h !!! j;
}.

Lemma Trim_spec g gl ml bf id h :
  linked g h -> in_group g id ->
  ∃ k, trimmed g id k h (Trim gl ml bf id h) ∧
    (chMsgs (h !!! id) ≠ [] -> trim_more gl ml (length (chMsgs (h !!! id))) (h !!! id) = true ->
     (k < length (chMsgs (h !!! id)))%nat).
Proof.
  intros Hlk Hid. pose proof Hlk as [Hlen Hl]. unfold Trim.
  destruct (trim_loop _ _ _ _ _ _ _) as [k mc'] eqn:E.
  destruct (trim_loop_spec _ _ _ _ _ _ _ _ _ ltac:(done) E) as (Hk & (Hm & Hv & Hmg & Hnx & Hpv & Hty) & Hgas & Hprog).
  set (mc2 := match k with O => _ | S _ => _ end).
  assert (H2 : chMsgs mc2 = take k (chMsgs (h !!! id)) ∧ valid mc2 = (valid (h !!! id) && negb (k =? 0)%nat) ∧
    merged mc2 = merged (h !!! id) ∧ next mc2 = next (h !!! id) ∧ prev mc2 = prev (h !!! id) ∧
    sigType mc2 = sigType (h !!! id) ∧ chGasLimit mc2 = chGasLimit mc').
  { unfold mc2. rewrite <- Hv, <- Hmg, <- Hnx, <- Hpv, <- Hty. destruct k; simpl; by rewrite ?andb_false_r, ?andb_true_r. }
  clearbody mc2. destruct H2 as (Hm2 & Hv2 & Hmg2 & Hnx2 & Hpv2 & Hty2 & Hg2).
  assert (Hb : (id < length h)%nat) by (unfold in_group in Hid; lia).
  exists k. split; [|intros Hne Hmore; apply Hprog; [by destruct (chMsgs (h !!! id))|done]].
  assert (Hgas2 : Forall msg_ok (chMsgs (h !!! id)) -> gas_of (chMsgs (h !!! id)) ≤ BlockGasLimit ->
    chGasLimit (h !!! id) = gas_of (chMsgs (h !!! id)) -> chGasLimit mc2 = gas_of (chMsgs mc2)).
  { intros H1 H3 H4. rewrite Hg2, Hm2. apply Hgas; [done|done|]. by rewrite firstn_all. }
  rewrite Hnx2. destruct (Hl id Hid) as (_ & _ & [Hn|[Hn Hs]]); rewrite Hn.
  - split; rewrite ?insert_total, ?decide_True by done; try done; [by rewrite length_insert|congruence|].
    exists id. split; [done|]. split; [done|]. split; [done|]. split; [lia|].
    intros j Hj. by rewrite insert_total, decide_False, decide_False by lia.
  - assert (Hlk2 : linked g (<[id := mc2]> h)).
    { split; [by rewrite length_insert|]. intros j Hj. rewrite insert_total by done.
      destruct (decide (id = j)) as [<-|]; [|by apply Hl]. rewrite Hty2, Hpv2, Hnx2. by apply Hl. }
    destruct (Invalidate_spec g (S id) _ Hlk2 Hs) as (y & Hy & Hgy & [Hk1 Hk2] & Hny & Hnj).
    assert (Hb' : (id < length (Invalidate (S id) (<[id := mc2]> h)))%nat) by (by rewrite Hk1, length_insert).
    split; rewrite ?alter_total, ?decide_True by done; simpl;
      rewrite ?Hk2, ?decide_False, ?insert_total, ?decide_True by (done || lia); try done.
    + by rewrite length_alter, Hk1, length_insert.
    + exists y. split; [lia|]. split; [done|]. rewrite insert_total, decide_False in Hny by lia. split; [done|]. split.
      * intros j Hj. destruct (decide (id = j)) as [<-|]; [done|]. rewrite <- Hnj by lia.
        by rewrite insert_total, decide_False by lia.
      * intros j Hj. rewrite alter_total, decide_False, Hk2, insert_total, (decide_False (P := id = j)) by (done || lia).
        by repeat case_decide; try lia.
Qed.

(** * Live chains *)

(** The messages of the cells from [s] to [e]. *)
Definition seg_msgs (h : list msgChain) (s e : nat) : list SignedMessage :=
  seq s (e - s) ≫= fun id => chMsgs (h !!! id).

Lemma seg_split h s x e : (s ≤ x ≤ e)%nat -> seg_msgs h s e = seg_msgs h s x ++ seg_msgs h x e.
Proof.
  intros H. unfold seg_msgs. replace (e - s)%nat with ((x - s) + (e - x))%nat by lia.
  rewrite seq_app, bind_app. by replace (s + (x - s))%nat with x by lia.
Qed.

Lemma seg_one h s : seg_msgs h s (S s) = chMsgs (h !!! s).
Proof. unfold seg_msgs. replace (S s - s)%nat with 1%nat by lia. simpl. by rewrite app_nil_r. Qed.

Lemma seg_cons h s e : (s < e)%nat -> seg_msgs h s e = chMsgs (h !!! s) ++ seg_msgs h (S s) e.
Proof. intros H. by rewrite (seg_split h s (S s) e), seg_one by lia. Qed.

Lemma seg_nil h s : seg_msgs h s s = [].
Proof. unfold seg_msgs. by rewrite Nat.sub_diag. Qed.

Lemma seg_ext h h' s e : (∀ id, (s ≤ id < e)%nat -> chMsgs (h' !!! id) = chMsgs (h !!! id)) -> seg_msgs h' s e = seg_msgs h s e.
Proof.
  intros H. unfold seg_msgs. assert (Hin : ∀ id, id ∈ seq s (e - s) -> chMsgs (h' !!! id) = chMsgs (h !!! id)).
  { intros id Hid. apply elem_of_seq in Hid. apply H. lia. }
  clear H. induction (seq s (e - s)) as [|x l IH]; [done|]. simpl. rewrite Hin by left. f_equal. apply IH.
  intros id Hid. apply Hin. by right.
Qed.

(** A chain that may still be selected. *)
Record live (mc : msgChain) : Prop := mkLive {
  lv_msgs : chMsgs mc ≠ [];
  lv_gas : chGasLimit mc = gas_of (chMsgs mc);
  lv_valid : valid mc = true;
  lv_merged : merged mc = false;
}.

(** The chains of a group: those before [s] have been selected, with the messages
    [sel], those from [s] to [e] are live and linked, the others are dead.  The
    selected messages followed by the live ones start the run of the group.  In an
    optimal selection the selected chains are marked. *)
Record group_at (opt : bool) (h : list msgChain) (sel : list SignedMessage) (g : group) (s e : nat) : Prop := mkGroupAt {
  ga_linked : linked g h;
  ga_range : (g_base g ≤ s ≤ e ∧ e ≤ g_base g + g_len g)%nat;
  ga_prefix : sel ++ seg_msgs h s e `prefix_of` g_run g;
  ga_live id : (s ≤ id < e)%nat -> live (h !!! id) ∧ ((S id < e)%nat -> next (h !!! id) = Some (S id));
  ga_dead id : (e ≤ id)%nat -> in_group g id -> valid (h !!! id) = false;
  ga_merged id : opt = true -> (id < s)%nat -> in_group g id -> merged (h !!! id) = true;
}.

(** Cells that agree but for their performance. *)
Definition same_cell (c d : msgChain) : Prop := same_links c d ∧ chGasLimit d = chGasLimit c.

Lemma group_at_frame opt h h' sel g s e :
  length h' = length h -> (∀ id, in_group g id -> same_cell (h !!! id) (h' !!! id)) ->
  group_at opt h sel g s e -> group_at opt h' sel g s e.
Proof.
  intros Hlen Hsame [[Hl1 Hl2] Hr Hp Hlive Hdead Hm].
  assert (Hin : ∀ id, (s ≤ id < e)%nat -> in_group g id) by (unfold in_group; intros; lia).
  split; [split; [lia|]|done| | | |].
  - intros id Hid. destruct (Hsame id Hid) as [(_ & _ & _ & H4 & H5 & H6) _]. rewrite H4, H5, H6. by apply Hl2.
  - rewrite (seg_ext h); [done|]. intros id Hid. by destruct (Hsame id (Hin id Hid)) as [(? & _) _].
  - intros id Hid. destruct (Hlive id Hid) as [[] Hn]. destruct (Hsame id (Hin id Hid)) as [(H1 & H2 & H3 & H4 & _) H5].
    split; [split; congruence|]. rewrite H4. exact Hn.
  - intros id Hid Hg. destruct (Hsame id Hg) as [(_ & H2 & _) _]. rewrite H2. by apply Hdead.
  - intros id Ho Hid Hg. destruct (Hsame id Hg) as [(_ & _ & H3 & _) _]. rewrite H3. by apply Hm.
Qed.

(** The links survive a kill or a trim. *)
Lemma linked_cut g h h' :
  length h' = length h -> linked g h ->
  (∀ id, in_group g id -> sigType (h' !!! id) = sigType (h !!! id) ∧ prev (h' !!! id) = prev (h !!! id) ∧
     (next (h' !!! id) = None ∨ next (h' !!! id) = next (h !!! id))) -> linked g h'.
Proof.
  intros Hlen [Hl1 Hl2] H. split; [lia|]. intros id Hid. destruct (H id Hid) as (H1 & H2 & Hn).
  destruct (Hl2 id Hid) as (? & ? & ?). rewrite H1, H2. split; [done|]. split; [done|]. destruct Hn as [Hn|Hn]; rewrite Hn; auto.
Qed.

(** A kill from a live cell goes past the last live one. *)
Lemma cut_past opt h sel g s e id y :
  group_at opt h sel g s e -> (s ≤ id)%nat -> (id ≤ y)%nat -> next (h !!! y) = None -> (e ≤ S y)%nat.
Proof.
  intros Hga Hs Hy Hn. destruct (decide (S y < e)%nat) as [Hlt|]; [|lia].
  destruct (ga_live _ _ _ _ _ _ Hga y) as [_ Hnext]; [lia|]. rewrite Hnext in Hn by done. done.
Qed.

Lemma kill_links c : sigType (kill c) = sigType c ∧ prev (kill c) = prev c ∧ (next (kill c) = None ∨ next (kill c) = next c).
Proof. auto. Qed.

Lemma group_at_Invalidate opt h sel g s e id :
  group_at opt h sel g s e -> (s ≤ id < e)%nat -> group_at opt (Invalidate id h) sel g s id.
Proof.
  intros Hga Hid. pose proof (ga_range _ _ _ _ _ _ Hga) as Hr.
  destruct (Invalidate_spec g id h (ga_linked _ _ _ _ _ _ Hga)) as (y & Hy & Hgy & [Hlen Hk] & Hny & _);
    [unfold in_group; lia|].
  pose proof (cut_past _ _ _ _ _ _ _ _ Hga (proj1 Hid) Hy Hny) as Hpast.
  assert (Hsame : ∀ j, (j < id)%nat -> Invalidate id h !!! j = h !!! j) by (intros j Hj; rewrite Hk, decide_False by lia; done).
  split; [|lia| | | |].
  - eapply linked_cut; [exact Hlen|apply Hga|]. intros j _. rewrite Hk. case_decide; [apply kill_links|auto].
  - rewrite (seg_ext h) by (intros j Hj; by rewrite Hsame by lia). etrans; [|apply Hga].
    rewrite (seg_split h s id e), app_assoc by lia. by apply prefix_app_r.
  - intros j Hj. rewrite Hsame by lia. destruct (ga_live _ _ _ _ _ _ Hga j) as [? Hn]; [lia|]. split; [done|]. intros. apply Hn. lia.
  - intros j Hj Hgj. rewrite Hk. case_decide; [done|]. apply (ga_dead _ _ _ _ _ _ Hga); [lia|done].
  - intros j Ho Hj Hgj. rewrite Hsame by lia. by apply (ga_merged _ _ _ _ _ _ Hga).
Qed.

(** The messages of a live cell are part of the run. *)
Lemma live_in_run opt h sel g s e id :
  group_at opt h sel g s e -> (s ≤ id < e)%nat -> ∃ l1 l2, g_run g = l1 ++ chMsgs (h !!! id) ++ l2.
Proof.
  intros Hga Hid. destruct (ga_prefix _ _ _ _ _ _ Hga) as [rest Hrun].
  rewrite (seg_split h s id e), (seg_cons h id e) in Hrun by lia.
  exists (sel ++ seg_msgs h s id), (seg_msgs h (S id) e ++ rest). rewrite Hrun. by rewrite <- !app_assoc.
Qed.

Record run_ok (owner : SignedMessage → address) (g : group) : Prop := mkRunOk {
  ro_types : Forall (of_type (g_type g)) (g_run g);
  ro_gas : gas_of (g_run g) ≤ BlockGasLimit;
  ro_known : g_type g = SigTypeBLS ∨ g_type g = SigTypeSecp256k1;
  ro_owner : Forall (fun m => owner m = g_owner g) (g_run g);
}.

Lemma live_ok owner opt h sel g s e id :
  run_ok owner g -> group_at opt h sel g s e -> (s ≤ id < e)%nat ->
  Forall (of_type (g_type g)) (chMsgs (h !!! id)) ∧ Forall (fun m => owner m = g_owner g) (chMsgs (h !!! id)) ∧
  0 < gas_of (chMsgs (h !!! id)) ≤ BlockGasLimit.
Proof.
  intros [Ht Hg _ Ho] Hga Hid. destruct (live_in_run _ _ _ _ _ _ _ Hga Hid) as (l1 & l2 & Hrun).
  rewrite Hrun in *. apply Forall_app in Ht as [Ht1 Ht], Ho as [_ Ho]. apply Forall_app in Ht as [Ht Ht2], Ho as [Ho _].
  rewrite !gas_of_app in Hg. pose proof (gas_of_nonneg _ (of_type_ok _ _ Ht1)). pose proof (gas_of_nonneg _ (of_type_ok _ _ Ht2)).
  destruct (ga_live _ _ _ _ _ _ Hga id Hid) as [[] _]. pose proof (gas_of_pos _ _ Ht lv_msgs0). split; [done|]. split; [done|lia].
Qed.

Lemma group_at_Trim owner opt h h' sel g s e id k :
  run_ok owner g -> group_at opt h sel g s e -> (s ≤ id < e)%nat -> trimmed g id k h h' ->
  group_at opt h' sel g s (match k with O => id | S _ => S id end).
Proof.
  intros Hro Hga Hid [Hlen Hkeep Hm Hv Hmg Hpv Hty Hnx Hgas (y & Hy & Hgy & Hny & _ & Hk)].
  pose proof (ga_range _ _ _ _ _ _ Hga) as Hr.
  destruct (live_ok _ _ _ _ _ _ _ _ Hro Hga Hid) as (Htypes & _ & Hgb).
  destruct (ga_live _ _ _ _ _ _ Hga id Hid) as [[Hne Hg0 Hv0 Hmg0] _].
  pose proof (cut_past _ _ _ _ _ _ _ _ Hga (proj1 Hid) Hy Hny) as Hpast.
  assert (Hsame : ∀ j, (j < id)%nat -> h' !!! j = h !!! j) by (intros j Hj; rewrite Hk, decide_False by lia; done).
  assert (Hseg : seg_msgs h' s id = seg_msgs h s id) by (apply seg_ext; intros j Hj; by rewrite Hsame by lia).
  split.
  - eapply linked_cut; [exact Hlen|apply Hga|]. intros j _. destruct (decide (j = id)) as [->|Hne']; [auto|].
    rewrite Hk by done. case_decide; [apply kill_links|auto].
  - destruct k; lia.
  - etrans; [|apply Hga]. rewrite (seg_split h s id e), (seg_cons h id e), app_assoc by lia. destruct k as [|k].
    + rewrite Hseg. apply prefix_app_r. done.
    + rewrite (seg_split h' s id), seg_one, Hseg, Hm, app_assoc by lia. apply prefix_app.
      rewrite <- (take_drop (S k) (chMsgs (h !!! id))) at 2. rewrite <- app_assoc. by apply prefix_app_r.
  - intros j Hj. destruct (decide (j = id)) as [->|Hne'].
    + destruct k as [|k]; [lia|]. split; [split; [|apply Hgas; [by eapply of_type_ok|lia|done]|by rewrite Hv, Hv0|congruence]|lia].
      rewrite Hm. destruct (chMsgs (h !!! id)); [done|by simpl].
    + rewrite Hsame by (destruct k; lia). destruct (ga_live _ _ _ _ _ _ Hga j) as [? Hn]; [destruct k; lia|].
      split; [done|]. intros. apply Hn. destruct k; lia.
  - intros j Hj Hgj. destruct (decide (j = id)) as [->|Hne'].
    + destruct k; [by rewrite Hv, andb_false_r|lia].
    + rewrite Hk by done. case_decide; [done|]. apply (ga_dead _ _ _ _ _ _ Hga); [destruct k; lia|done].
  - intros j Ho Hj Hgj. rewrite Hsame by lia. by apply (ga_merged _ _ _ _ _ _ Hga).
Qed.

(** * Messages left in the store *)

Lemma total_messages_le h : ∀ h', length h' = length h ->
  (∀ j, length (chMsgs (h' !!! j)) ≤ length (chMsgs (h !!! j)))%nat -> (total_messages h' ≤ total_messages h)%nat.
Proof.
  unfold total_messages. induction h as [|c h IH]; intros [|c' h'] Hl Hle; simplify_eq/=; [done|].
  pose proof (Hle 0%nat) as H0. specialize (IH h' Hl (fun j => Hle (S j))). simpl in *. lia.
Qed.

Lemma total_messages_lt h : ∀ h' id, length h' = length h -> (id < length h)%nat ->
  (∀ j, length (chMsgs (h' !!! j)) ≤ length (chMsgs (h !!! j)))%nat ->
  (length (chMsgs (h' !!! id)) < length (chMsgs (h !!! id)))%nat -> (total_messages h' < total_messages h)%nat.
Proof.
  unfold total_messages. induction h as [|c h IH]; intros [|c' h'] id Hl Hid Hle Hlt; simplify_eq/=; [lia|].
  pose proof (Hle 0%nat) as H0. pose proof (total_messages_le h h' Hl (fun j => Hle (S j))) as H1.
  unfold total_messages in H1. destruct id as [|id]; simpl in *; [lia|].
  specialize (IH h' id Hl ltac:(lia) (fun j => Hle (S j)) Hlt). lia.
Qed.

Lemma trimmed_le g id k h h' : trimmed g id k h h' -> ∀ j, (length (chMsgs (h' !!! j)) ≤ length (chMsgs (h !!! j)))%nat.
Proof.
  intros [_ _ Hm _ _ _ _ _ _ (y & _ & _ & _ & _ & Hk)] j. destruct (decide (j = id)) as [->|Hne].
  - rewrite Hm, length_take. lia.
  - rewrite Hk by done. case_decide; simpl; lia.
Qed.

Lemma trimmed_total g id k h h' :
  trimmed g id k h h' -> in_group g id -> linked g h ->
  (total_messages h' ≤ total_messages h)%nat ∧
  ((k < length (chMsgs (h !!! id)))%nat -> (total_messages h' < total_messages h)%nat).
Proof.
  intros Ht Hid [Hlen _]. pose proof (trimmed_le _ _ _ _ _ Ht) as Hle. destruct Ht as [Hl _ Hm _ _ _ _ _ _ _].
  split; [by apply total_messages_le|]. intros Hk. apply (total_messages_lt _ _ id); [done|unfold in_group in Hid; lia|done|].
  rewrite Hm, length_take. lia.
Qed.

Lemma Invalidate_total g id h :
  linked g h -> in_group g id ->
  (total_messages (Invalidate id h) ≤ total_messages h)%nat ∧
  (chMsgs (h !!! id) ≠ [] -> (total_messages (Invalidate id h) < total_messages h)%nat).
Proof.
  intros Hlk Hid. destruct (Invalidate_spec g id h Hlk Hid) as (y & Hy & Hgy & [Hl Hk] & _).
  assert (Hle : ∀ j, (length (chMsgs (Invalidate id h !!! j)) ≤ length (chMsgs (h !!! j)))%nat).
  { intros j. rewrite Hk. case_decide; simpl; lia. }
  split; [by apply total_messages_le|]. intros Hne. destruct Hlk as [Hlen _].
  apply (total_messages_lt _ _ id); [done|unfold in_group in Hid; lia|done|].
  rewrite Hk, decide_True by lia. simpl. destruct (chMsgs (h !!! id)); [done|simpl; lia].
Qed.

(** * The block under construction *)

Definition count_type (τ : SigType) (l : list SignedMessage) : Z :=
  Z.of_nat (length (filter (fun m => sm_SigType m = τ) l)).

(** The limits account for the messages selected so far. *)
Record sm_ok (sm : selectedMessages) : Prop := mkSmOk {
  so_gas : selGasLimit sm = BlockGasLimit - gas_of (selMsgs sm);
  so_gas_left : 0 ≤ selGasLimit sm ≤ BlockGasLimit;
  so_count : selLen sm ≤ BlockMessageLimit;
  so_bls : blsLimit sm = MaxLength - count_type SigTypeBLS (selMsgs sm);
  so_bls_left : 0 ≤ blsLimit sm;
  so_secp : secpLimit sm = MaxLength - count_type SigTypeSecp256k1 (selMsgs sm);
  so_secp_left : 0 ≤ secpLimit sm;
}.

Lemma sm_ok_empty : sm_ok emptySelection.
Proof. by split; vm_compute. Qed.

Lemma count_type_app τ l1 l2 : count_type τ (l1 ++ l2) = count_type τ l1 + count_type τ l2.
Proof. unfold count_type. rewrite filter_app, length_app. lia. Qed.

Lemma count_type_all τ σ l :
  Forall (of_type τ) l -> count_type σ l = if decide (τ = σ) then Z.of_nat (length l) else 0.
Proof.
  unfold count_type. induction 1 as [|m l [_ Hm] H IH]; [by case_decide|].
  rewrite filter_cons. destruct (decide (sm_SigType m = σ)); case_decide; simpl in *; try congruence; lia.
Qed.

(** A block with the messages [l] of type [τ] added. *)
Definition grown (sm : selectedMessages) (τ : SigType) (l : list SignedMessage) : selectedMessages :=
  mkSelected (selMsgs sm ++ l) (selGasLimit sm - gas_of l)
    (if decide (τ = SigTypeSecp256k1) then secpLimit sm - Z.of_nat (length l) else secpLimit sm)
    (if decide (τ = SigTypeBLS) then blsLimit sm - Z.of_nat (length l) else blsLimit sm).

Definition type_limit (τ : SigType) (sm : selectedMessages) : Z :=
  if decide (τ = SigTypeBLS) then blsLimit sm else secpLimit sm.

Lemma grown_ok sm τ l :
  sm_ok sm -> Forall (of_type τ) l -> τ = SigTypeBLS ∨ τ = SigTypeSecp256k1 -> gas_of l ≤ selGasLimit sm ->
  Z.of_nat (length l) + selLen sm ≤ BlockMessageLimit -> Z.of_nat (length l) ≤ type_limit τ sm -> sm_ok (grown sm τ l).
Proof.
  intros [Hg Hg0 Hc Hb Hb0 Hs Hs0] Ht Hτ Hgas Hlen Hlim.
  pose proof (gas_of_nonneg _ (of_type_ok _ _ Ht)). unfold type_limit, selLen in *.
  pose proof (count_type_all τ SigTypeBLS l Ht) as H1. pose proof (count_type_all τ SigTypeSecp256k1 l Ht) as H2.
  split; simpl; rewrite ?gas_of_app, ?count_type_app; unfold selLen; simpl; rewrite ?length_app;
    destruct Hτ; subst τ; repeat case_decide; simplify_eq; lia.
Qed.

(** * Packing by performance *)

Lemma tryToAdd_spec τ mc sm b sm' :
  sm_ok sm -> live mc -> sigType mc = τ -> τ = SigTypeBLS ∨ τ = SigTypeSecp256k1 -> Forall (of_type τ) (chMsgs mc) ->
  tryToAdd mc sm = (b, sm') ->
  if b then sm_ok sm' ∧ sm' = grown sm τ (chMsgs mc)
  else sm' = sm ∧ (BlockMessageLimit < chLen mc + selLen sm ∨ selGasLimit sm < chGasLimit mc ∨ type_limit τ sm < chLen mc).
Proof.
  intros Hsm Hlive Hty Hτ Ht. pose proof (lv_gas _ Hlive) as Hg. pose proof (gas_of_nonneg _ (of_type_ok _ _ Ht)) as Hg0.
  unfold tryToAdd, type_limit. rewrite Hty.
  destruct (Z.ltb_spec BlockMessageLimit (chLen mc + selLen sm)); [intros [= <- <-]; split; [done|by left]|].
  destruct (Z.ltb_spec (selGasLimit sm) (chGasLimit mc)); [intros [= <- <-]; split; [done|by right; left]|]. simpl.
  assert (Hw : selGasLimit sm ⊟ chGasLimit mc = selGasLimit sm - gas_of (chMsgs mc)).
  { rewrite Hg. unfold i64_sub. rewrite wrap64_id; [done|]. pose proof (so_gas_left _ Hsm). unfold in_i64, BlockGasLimit in *. lia. }
  assert (Hgrow : chLen mc ≤ type_limit τ sm -> sm_ok (grown sm τ (chMsgs mc))).
  { intros Hl. apply grown_ok; try done; unfold chLen in *; lia. }
  unfold type_limit in Hgrow.
  destruct Hτ as [->| ->]; cbn.
  - rewrite decide_True in * by done. destruct (Z.ltb_spec (blsLimit sm) (chLen mc)); intros [= <- <-];
      [split; [done|by right; right]|]. split; [rewrite Hw; by apply Hgrow|].
    unfold grown. rewrite decide_False, decide_True by done. by rewrite Hw.
  - rewrite decide_False in * by done. destruct (Z.ltb_spec (secpLimit sm) (chLen mc)); intros [= <- <-];
      [split; [done|by right; right]|]. split; [rewrite Hw; by apply Hgrow|].
    unfold grown. rewrite decide_True, decide_False by done. by rewrite Hw.
Qed.

Section Greedy.
Variable owner : SignedMessage → address.

Definition sel_of (a : address) (sm : selectedMessages) : list SignedMessage :=
  filter (fun m => owner m = a) (selMsgs sm).

(** Groups do not share cells or actors. *)
Definition groups_ok (G : list group) : Prop :=
  (∀ g, g ∈ G -> run_ok owner g) ∧
  (∀ g g' id, g ∈ G -> g' ∈ G -> in_group g id -> in_group g' id -> g = g') ∧
  (∀ g g', g ∈ G -> g' ∈ G -> g_owner g = g_owner g' -> g = g').

Definition owned (a : address) (l : list SignedMessage) : list SignedMessage := filter (fun m => owner m = a) l.

(** While the chains [rest] are still to be looked at and the messages [sel] have been
    taken, the live chains of every group come in their order. *)
Record order_inv (G : list group) (h : list msgChain) (sel : list SignedMessage) (rest : list nat) : Prop := mkOrderInv {
  oi_groups g : g ∈ G -> ∃ s e, group_at false h (owned (g_owner g) sel) g s e ∧
    filter (fun id => g_base g ≤ id < e)%nat rest = seq s (e - s);
  oi_cover id : id ∈ rest -> ∃ g, g ∈ G ∧ in_group g id;
}.

Lemma filter_owned a b l :
  Forall (fun m => owner m = b) l -> owned a l = if decide (a = b) then l else [].
Proof.
  unfold owned. induction 1 as [|m l Hm H IH]; [by case_decide|]. rewrite filter_cons, Hm, IH.
  destruct (decide (a = b)), (decide (b = a)); congruence.
Qed.

Lemma owned_app a l1 l2 : owned a (l1 ++ l2) = owned a l1 ++ owned a l2.
Proof. apply filter_app. Qed.

Lemma sel_of_grown a sm τ l : sel_of a (grown sm τ l) = sel_of a sm ++ owned a l.
Proof. apply filter_app. Qed.

Lemma order_skip G h sel c rest :
  order_inv G h sel (c :: rest) -> valid (h !!! c) = false -> order_inv G h sel rest.
Proof.
  intros [Hgr Hcov] Hv. split; [|intros id Hid; apply Hcov; by right].
  intros g Hg. destruct (Hgr g Hg) as (s & e & Hga & Hf). exists s, e. split; [done|].
  rewrite filter_cons in Hf. case_decide as Hc; [|done]. exfalso.
  destruct (e - s)%nat as [|n] eqn:En; simplify_eq/=. destruct (ga_live _ _ _ _ _ _ Hga s) as [[] _]; [lia|]. congruence.
Qed.

(** A valid chain at the head is the first live one of its group. *)
Lemma order_head G h sel c rest :
  order_inv G h sel (c :: rest) -> valid (h !!! c) = true ->
  ∃ g e, g ∈ G ∧ in_group g c ∧ (c < e)%nat ∧ group_at false h (owned (g_owner g) sel) g c e ∧
    filter (fun id => g_base g ≤ id < e)%nat rest = seq (S c) (e - S c).
Proof.
  intros [Hgr Hcov] Hv. destruct (Hcov c) as (g & Hg & Hc); [by left|].
  destruct (Hgr g Hg) as (s & e & Hga & Hf). exists g, e. rewrite filter_cons in Hf.
  destruct (decide (c < e)%nat) as [Hce|Hce].
  2: { rewrite (ga_dead _ _ _ _ _ _ Hga c) in Hv; [done|lia|done]. }
  rewrite decide_True in Hf by (unfold in_group in Hc; lia).
  destruct (e - s)%nat as [|n] eqn:En; [done|]. cbn in Hf. injection Hf as -> Hf. do 4 (split; [done|]).
  by replace (e - S s)%nat with n by lia.
Qed.

(** The chain at the head is taken. *)
Lemma order_take G h sel c rest :
  groups_ok G -> order_inv G h sel (c :: rest) -> valid (h !!! c) = true -> order_inv G h (sel ++ chMsgs (h !!! c)) rest.
Proof.
  intros HG Hinv Hv. destruct (order_head _ _ _ _ _ Hinv Hv) as (g & e & Hg & Hc & Hce & Hga & Hf).
  destruct HG as (Hruns & Hcells & Howners). destruct (live_ok _ _ _ _ _ _ _ c (Hruns g Hg) Hga) as (_ & Ho & _); [lia|].
  destruct Hinv as [Hgr Hcov]. split; [|intros id Hid; apply Hcov; by right].
  intros g' Hg'. rewrite owned_app, (filter_owned (g_owner g') (g_owner g) (chMsgs (h !!! c))) by done. destruct (decide (g' = g)) as [->|Hne].
  - exists (S c), e. split; [|done]. rewrite decide_True by done. destruct Hga as [Hl Hr Hp Hlv Hd Hm].
    split; [done|lia| | |done|done].
    + rewrite <- app_assoc, <- seg_cons by done. done.
    + intros id Hid. apply Hlv. lia.
  - rewrite decide_False by (intros He; by apply Hne, Howners). rewrite app_nil_r.
    destruct (Hgr g' Hg') as (s' & e' & Hga' & Hf'). exists s', e'. split; [done|].
    rewrite filter_cons_False in Hf'; [done|]. intros Hin. apply Hne, (Hcells _ _ c); try done.
    destruct (ga_range _ _ _ _ _ _ Hga'). unfold in_group. lia.
Qed.

(** The invariant of the block so far. *)
Record greedy_inv (G : list group) (sm0 : selectedMessages) (h : list msgChain) (sm : selectedMessages)
    (rest : list nat) : Prop := mkGreedyInv {
  gi_sm : sm_ok sm;
  gi_order : order_inv G h (selMsgs sm) rest;
  gi_others a : (∀ g, g ∈ G -> g_owner g ≠ a) -> sel_of a sm = sel_of a sm0;
}.

Lemma greedy_skip G sm0 h sm c rest :
  greedy_inv G sm0 h sm (c :: rest) -> valid (h !!! c) = false -> greedy_inv G sm0 h sm rest.
Proof. intros [Hsm Hord Hoth] Hv. split; [done|by eapply order_skip|done]. Qed.

Lemma greedy_take G sm0 h sm c rest b sm' :
  groups_ok G -> greedy_inv G sm0 h sm (c :: rest) -> valid (h !!! c) = true -> tryToAdd (h !!! c) sm = (b, sm') ->
  if b then greedy_inv G sm0 h sm' rest else sm' = sm.
Proof.
  intros HG [Hsm Hord Hoth] Hv Htry. destruct (order_head _ _ _ _ _ Hord Hv) as (g & e & Hg & Hc & Hce & Hga & Hf).
  pose proof (proj1 HG g Hg) as Hro. destruct (live_ok _ _ _ _ _ _ _ c Hro Hga) as (Ht & Ho & _); [lia|].
  destruct (ga_live _ _ _ _ _ _ Hga c) as [Hlive _]; [lia|].
  destruct (proj2 (ga_linked _ _ _ _ _ _ Hga) c Hc) as (Hty & _ & _).
  pose proof (tryToAdd_spec (g_type g) _ _ _ _ Hsm Hlive Hty (ro_known _ _ Hro) Ht Htry) as Hspec.
  destruct b; [|by destruct Hspec]. destruct Hspec as [Hsm' ->]. split; [done|by apply order_take|].
  intros a Ha. change (owned a (selMsgs sm ++ chMsgs (h !!! c)) = sel_of a sm0).
  rewrite owned_app, (filter_owned a (g_owner g) (chMsgs (h !!! c))), decide_False, app_nil_r by (done || by intros ->; eapply Ha). by apply Hoth.
Qed.

(** What is promised of the block at the end. *)
Record final_ok (G : list group) (sm0 sm : selectedMessages) : Prop := mkFinalOk {
  fo_sm : sm_ok sm;
  fo_prefix g : g ∈ G -> sel_of (g_owner g) sm `prefix_of` g_run g;
  fo_others a : (∀ g, g ∈ G -> g_owner g ≠ a) -> sel_of a sm = sel_of a sm0;
}.

Lemma greedy_final G sm0 h sm rest : greedy_inv G sm0 h sm rest -> final_ok G sm0 sm.
Proof.
  intros [Hsm [Hgr _] Hoth]. split; [done| |done]. intros g Hg. destruct (Hgr g Hg) as (s & e & Hga & _).
  etrans; [|apply Hga]. by apply prefix_app_r.
Qed.

(** The first of [rest] does not fit. *)
Definition stuck (h : list msgChain) (sm : selectedMessages) (rest : list nat) : Prop :=
  ∃ c cs, rest = c :: cs ∧ valid (h !!! c) = true ∧ (tryToAdd (h !!! c) sm).1 = false.

Lemma merge_head_spec G sm0 h total rest : ∀ i sm last sm',
  groups_ok G -> greedy_inv G sm0 h sm rest -> Forall (fun c => valid (h !!! c) = true) rest ->
  total = (i + length rest)%nat -> merge_head h total i rest sm = (last, sm') ->
  final_ok G sm0 sm' ∧ (last = total ∨
    (i ≤ last)%nat ∧ greedy_inv G sm0 h sm' (drop (last - i) rest) ∧ stuck h sm' (drop (last - i) rest)).
Proof.
  induction rest as [|c rest IH]; intros i sm last sm' HG Hinv Hv Ht; simpl.
  { intros [= <- <-]. split; [by eapply greedy_final|by left]. }
  apply Forall_cons in Hv as [Hvc Hv]. destruct (negative (h !!! c)).
  { intros [= <- <-]. split; [by eapply greedy_final|by left]. }
  destruct (tryToAdd (h !!! c) sm) as [b sm1] eqn:E. pose proof (greedy_take _ _ _ _ _ _ _ _ HG Hinv Hvc E) as H.
  destruct b.
  - intros Em. destruct (IH (S i) sm1 last sm' HG H Hv ltac:(simpl in Ht; lia) Em) as [Hf [Hl|(Hl & H1 & H2)]]; [by auto|].
    split; [done|]. right. split; [lia|]. by replace (last - i)%nat with (S (last - S i)) by lia.
  - intros [= <- <-]. split; [by eapply greedy_final|]. right. rewrite Nat.sub_diag. split; [done|]. split; [done|].
    exists c, rest. by rewrite E.
Qed.

Lemma tail_scan_spec G sm0 h rest : ∀ i sm r sm',
  groups_ok G -> greedy_inv G sm0 h sm rest -> tail_scan h i rest sm = (r, sm') ->
  final_ok G sm0 sm' ∧
  match r with
  | TailDone => True
  | TailContinue j => (i ≤ j)%nat ∧ greedy_inv G sm0 h sm' (drop (j - i) rest) ∧ stuck h sm' (drop (j - i) rest)
  end.
Proof.
  induction rest as [|c rest IH]; intros i sm r sm' HG Hinv; simpl.
  { intros [= <- <-]. split; [by eapply greedy_final|done]. }
  assert (Hnext : ∀ sm1, greedy_inv G sm0 h sm1 rest -> tail_scan h (S i) rest sm1 = (r, sm') ->
    final_ok G sm0 sm' ∧ match r with TailDone => True | TailContinue j =>
      (i ≤ j)%nat ∧ greedy_inv G sm0 h sm' (drop (j - i) (c :: rest)) ∧ stuck h sm' (drop (j - i) (c :: rest)) end).
  { intros sm1 H1 E. destruct (IH (S i) sm1 r sm' HG H1 E) as [Hf Hr]. split; [done|]. destruct r as [|j]; [done|].
    destruct Hr as (Hj & H2 & H3). split; [lia|]. by replace (j - i)%nat with (S (j - S i)) by lia. }
  destruct (valid (h !!! c)) eqn:Ev; simpl; [|apply Hnext; by eapply greedy_skip].
  destruct (negative (h !!! c)); [intros [= <- <-]; split; [by eapply greedy_final|done]|].
  destruct (tryToAdd (h !!! c) sm) as [b sm1] eqn:E. pose proof (greedy_take _ _ _ _ _ _ _ _ HG Hinv Ev E) as H.
  destruct b; [by apply Hnext|]. intros [= <- <-]. split; [by eapply greedy_final|]. rewrite Nat.sub_diag.
  split; [done|]. split; [done|]. exists c, rest. by rewrite E.
Qed.

Lemma filter_none {A} (P : A → Prop) `{!∀ x, Decision (P x)} l : (∀ x, x ∈ l -> ~ P x) -> filter P l = [].
Proof.
  induction l as [|x l IH]; intros Hn; [done|]. rewrite filter_cons_False by (apply Hn; by left).
  apply IH. intros y Hy. apply Hn. by right.
Qed.

Lemma filter_push_down (P : nat → Prop) `{!∀ x, Decision (P x)} less c l :
  ~ P c ∨ filter P l = [] -> filter P (push_down less c l) = filter P (c :: l).
Proof.
  induction l as [|d l IH]; intros Hor; [done|]. simpl. destruct (less c d); [done|].
  destruct Hor as [Hc|Hl].
  - rewrite (filter_cons_False P c) by done. rewrite !filter_cons, IH by auto. by rewrite filter_cons_False.
  - rewrite filter_cons in Hl. destruct (decide (P d)) as [|Hd]; [done|].
    rewrite filter_cons_False, IH by auto. rewrite !(filter_cons _ c), filter_cons_False by done. done.
Qed.

Lemma push_down_perm less c l : push_down less c l ≡ₚ c :: l.
Proof.
  induction l as [|d l IH]; [done|]. simpl. destruct (less c d); [done|]. rewrite IH. apply Permutation_swap.
Qed.

Lemma trimmed_other g id k h h' j :
  trimmed g id k h h' -> in_group g id -> ~ in_group g j -> h' !!! j = h !!! j.
Proof.
  intros [_ _ _ _ _ _ _ _ _ (y & Hy & Hgy & _ & _ & Hk)] Hid Hj. rewrite Hk by congruence.
  apply decide_False. unfold in_group in *. lia.
Qed.

Lemma same_cell_refl c : same_cell c c.
Proof. by repeat split. Qed.

(** Trimming the first chain keeps its group in order; no chain of the group that
    is still live comes after it. *)
Lemma order_trim G h h' sel c cs g k :
  groups_ok G -> order_inv G h sel (c :: cs) -> valid (h !!! c) = true -> g ∈ G -> in_group g c ->
  trimmed g c k h h' ->
  order_inv G h' sel (c :: cs) ∧
  ∀ less, order_inv G h' sel (push_down less c cs).
Proof.
  intros HG Hinv Hv Hg Hc Htr. pose proof (order_head _ _ _ _ _ Hinv Hv) as (g1 & e & Hg1 & Hc1 & Hce & Hga & Hf).
  destruct HG as (Hruns & Hcells & Howners). assert (g1 = g) as -> by (by eapply Hcells).
  destruct Hinv as [Hgr Hcov]. pose proof (group_at_Trim owner _ _ _ _ _ _ _ _ _ (Hruns g Hg) Hga (conj (le_n c) Hce) Htr) as Hga'.
  assert (Hnone : ∀ x, (x ≤ S c)%nat -> filter (fun id => g_base g ≤ id < x)%nat cs = []).
  { intros x Hx. apply filter_none. intros id Hin Hid.
    assert (Hin' : id ∈ seq (S c) (e - S c)) by (rewrite <- Hf; apply list_elem_of_filter; split; [lia|done]).
    apply elem_of_seq in Hin'. lia. }
  assert (Hother : ∀ g', g' ∈ G -> g' ≠ g -> ∃ s e, group_at false h' (owned (g_owner g') sel) g' s e ∧
    filter (fun id => g_base g' ≤ id < e)%nat (c :: cs) = seq s (e - s) ∧ ~ (g_base g' ≤ c < e)%nat).
  { intros g' Hg' Hne. destruct (Hgr g' Hg') as (s' & e' & Hga1 & Hf1). exists s', e'. split; [|split; [done|]].
    - eapply group_at_frame; [apply (tr_length _ _ _ _ _ Htr)| |exact Hga1]. intros id Hid.
      rewrite (trimmed_other _ _ _ _ _ _ Htr Hc); [apply same_cell_refl|]. intros Hid'. by apply Hne, (Hcells _ _ id).
    - intros Hin. apply Hne, (Hcells _ _ c); try done. destruct (ga_range _ _ _ _ _ _ Hga1). unfold in_group. lia. }
  split; [|intros less].
  - split; [|done]. intros g' Hg'. destruct (decide (g' = g)) as [->|Hne].
    + exists c, (match k with O => c | S _ => S c end). split; [done|]. rewrite filter_cons. unfold in_group in Hc.
      destruct k; [rewrite decide_False, Hnone by lia|rewrite decide_True, Hnone by lia];
        [by rewrite Nat.sub_diag|by replace (S c - c)%nat with 1%nat by lia].
    + destruct (Hother g' Hg' Hne) as (s' & e' & ? & ? & _). by exists s', e'.
  - split; [|intros id; rewrite push_down_perm; apply Hcov]. intros g' Hg'. destruct (decide (g' = g)) as [->|Hne].
    + exists c, (match k with O => c | S _ => S c end). split; [done|]. rewrite filter_push_down by (right; apply Hnone; destruct k; lia).
      rewrite filter_cons. unfold in_group in Hc. destruct k; [rewrite decide_False, Hnone by lia|rewrite decide_True, Hnone by lia];
        [by rewrite Nat.sub_diag|by replace (S c - c)%nat with 1%nat by lia].
    + destruct (Hother g' Hg' Hne) as (s' & e' & ? & Hf' & Hnc). exists s', e'. split; [done|].
      rewrite filter_push_down by (by left). done.
Qed.

(** The first messages of the chain at the head are taken, and the chain is
    invalidated. *)
Lemma order_cut G h sel c cs ms1 ms2 :
  groups_ok G -> order_inv G h sel (c :: cs) -> valid (h !!! c) = true -> chMsgs (h !!! c) = ms1 ++ ms2 ->
  order_inv G (Invalidate c h) (sel ++ ms1) (c :: cs).
Proof.
  intros HG Hinv Hv Hms. destruct (order_head _ _ _ _ _ Hinv Hv) as (g & e & Hg & Hc & Hce & Hga & Hf).
  destruct HG as (Hruns & Hcells & Howners). destruct (live_ok _ _ _ _ _ _ _ c (Hruns g Hg) Hga) as (_ & Ho & _); [lia|].
  rewrite Hms in Ho. apply Forall_app in Ho as [Ho _].
  destruct (Invalidate_spec g c h (ga_linked _ _ _ _ _ _ Hga) Hc) as (y & _ & Hgy & [Hlen Hk] & _).
  destruct Hinv as [Hgr Hcov]. split; [|done]. intros g' Hg'.
  rewrite owned_app, (filter_owned (g_owner g') (g_owner g) ms1) by done. destruct (decide (g' = g)) as [->|Hne].
  - exists c, c. rewrite decide_True by done. split.
    + pose proof (group_at_Invalidate _ _ _ _ _ _ c Hga (conj (le_n c) Hce)) as [Hl Hr _ Hlv Hd Hm]. split; try done.
      rewrite seg_nil, app_nil_r. etrans; [|apply Hga]. rewrite seg_cons, Hms by done. rewrite <- !app_assoc, app_assoc. by apply prefix_app_r.
    + rewrite Nat.sub_diag. apply filter_none. intros id [->|Hin]%elem_of_cons Hid; [lia|].
      assert (Hin' : id ∈ seq (S c) (e - S c)) by (rewrite <- Hf; apply list_elem_of_filter; split; [lia|done]).
      apply elem_of_seq in Hin'. lia.
  - rewrite decide_False by (intros He; by apply Hne, Howners). rewrite app_nil_r.
    destruct (Hgr g' Hg') as (s' & e' & Hga' & Hf'). exists s', e'. split; [|done].
    eapply group_at_frame; [exact Hlen| |exact Hga']. intros id Hid. rewrite Hk, decide_False; [apply same_cell_refl|].
    intros Hin. apply Hne, (Hcells _ _ id); [done|done|done|]. unfold in_group in *. lia.
Qed.

(** A chain that does not fit loses at least a message. *)
Lemma trimChain_stuck G sm0 h sm c cs bf :
  groups_ok G -> greedy_inv G sm0 h sm (c :: cs) -> valid (h !!! c) = true -> (tryToAdd (h !!! c) sm).1 = false ->
  ∃ g k, g ∈ G ∧ in_group g c ∧ linked g h ∧ trimmed g c k h (trimChain c bf sm h) ∧
    (k < length (chMsgs (h !!! c)))%nat.
Proof.
  intros HG Hinv Hv Hfail. destruct (order_head _ _ _ _ _ (gi_order _ _ _ _ _ Hinv) Hv) as (g & e & Hg & Hc & Hce & Hga & _).
  pose proof (proj1 HG g Hg) as Hro. pose proof (ga_linked _ _ _ _ _ _ Hga) as Hlk.
  destruct (live_ok _ _ _ _ _ _ _ c Hro Hga ltac:(lia)) as (Ht & _ & _).
  destruct (ga_live _ _ _ _ _ _ Hga c ltac:(lia)) as [Hlive _]. destruct (proj2 Hlk c Hc) as (Hty & _ & _).
  destruct (tryToAdd (h !!! c) sm) as [b sm'] eqn:E. simpl in Hfail. subst b.
  destruct (tryToAdd_spec (g_type g) _ _ _ _ (gi_sm _ _ _ _ _ Hinv) Hlive Hty (ro_known _ _ Hro) Ht E) as [_ Hwhy].
  unfold trimChain. set (ml := match kind_limit (h !!! c) sm with Some _ => _ | None => _ end).
  assert (Hml : ml = Z.min (BlockMessageLimit - selLen sm) (type_limit (g_type g) sm)).
  { unfold ml, kind_limit, type_limit. rewrite Hty. by destruct (ro_known _ _ Hro) as [->| ->]; case_decide. }
  assert (Hcond : (selGasLimit sm <? chGasLimit (h !!! c)) || (ml <? chLen (h !!! c)) = true).
  { apply orb_true_iff. rewrite !Z.ltb_lt. lia. }
  rewrite Hcond. destruct (Trim_spec g (selGasLimit sm) ml bf c h Hlk Hc) as (k & Htr & Hprog).
  exists g, k. do 4 (split; [done|]). apply Hprog; [apply Hlive|].
  unfold trim_more. apply orb_true_iff in Hcond as [->|Hc2]; [done|]. apply Z.ltb_lt in Hc2.
  apply orb_true_iff. right. apply Z.leb_le. unfold chLen in Hc2. lia.
Qed.

Lemma tail_loop_spec G sm0 bf fuel : ∀ last chains h sm,
  groups_ok G -> final_ok G sm0 sm -> (total_messages h < fuel)%nat ->
  ((last < length chains)%nat -> greedy_inv G sm0 h sm (drop last chains) ∧ stuck h sm (drop last chains)) ->
  ∃ sm', tail_loop fuel bf last chains h sm = Some sm' ∧ final_ok G sm0 sm'.
Proof.
  induction fuel as [|fuel IH]; intros last chains h sm HG Hf Hfuel Hlast; [lia|]. simpl.
  destruct (negb (MinGas <=? selGasLimit sm)); simpl; [by exists sm|].
  destruct (Nat.leb_spec (length chains) last) as [|Hlt]; [by exists sm|].
  destruct (Hlast Hlt) as [Hinv (c & cs & Hdrop & Hv & Hfail)]. rewrite Hdrop in Hinv.
  assert (Hc : chains !!! last = c).
  { apply list_lookup_total_correct. rewrite <- (Nat.add_0_r last), <- lookup_drop, Hdrop. done. }
  rewrite Hc. destruct (trimChain_stuck G sm0 h sm c cs bf HG Hinv Hv Hfail) as (g & k & Hg & Hgc & Hlk & Htr & Hk).
  destruct (order_trim _ _ _ _ _ _ _ _ HG (gi_order _ _ _ _ _ Hinv) Hv Hg Hgc Htr) as [Hinv1 Hinv2].
  destruct (trimmed_total _ _ _ _ _ Htr Hgc Hlk) as [_ Htot]. specialize (Htot Hk).
  set (h' := trimChain c bf sm h) in *. clearbody h'.
  set (chains' := if valid (h' !!! c) then _ else chains).
  assert (Hinv' : greedy_inv G sm0 h' sm (drop last chains')).
  { destruct Hinv as [Hsm _ Hoth]. split; [done| |done]. unfold chains', push_down_at. rewrite Hdrop. destruct (valid (h' !!! c)); [|by rewrite Hdrop].
    rewrite drop_app_length'; [|rewrite length_take; lia]. apply Hinv2. }
  clearbody chains'. destruct (tail_scan h' 0 (drop last chains') sm) as [r sm1] eqn:E.
  destruct (tail_scan_spec _ _ _ _ _ _ _ _ HG Hinv' E) as [Hf1 Hr]. destruct r as [|j]; [by exists sm1|].
  destruct Hr as (_ & H1 & H2). rewrite Nat.sub_0_r, drop_drop in *. apply IH; [done|done|lia|by auto].
Qed.
End Greedy.

(** * Fresh chains *)

(** The chains of a group as they were created. *)
Record fresh (h : list msgChain) (g : group) : Prop := mkFresh {
  fr_linked : linked g h;
  fr_run : seg_msgs h (g_base g) (g_base g + g_len g) = g_run g;
  fr_ok id : in_group g id -> chain_ok (g_type g) (h !!! id) ∧ (in_group g (S id) -> next (h !!! id) = Some (S id));
  fr_decreasing i j : in_group g i -> in_group g j -> (i < j)%nat -> f_lt (gasPerf (h !!! j)) (gasPerf (h !!! i)) = true;
}.

Lemma fresh_group_at opt h g : fresh h g -> group_at opt h [] g (g_base g) (g_base g + g_len g).
Proof.
  intros [Hl Hr Hok _]. split; [done|lia|by rewrite Hr| | |].
  - intros id Hid. destruct (Hok id Hid) as [[] Hn]. split; [by split|]. intros. apply Hn. unfold in_group. lia.
  - unfold in_group. intros; lia.
  - unfold in_group. intros; lia.
Qed.

Lemma fresh_app h h' g : fresh h g -> fresh (h ++ h') g.
Proof.
  intros [[Hlen Hl] Hr Hok Hd].
  assert (Hsame : ∀ id, in_group g id -> (h ++ h') !!! id = h !!! id).
  { intros id Hid. apply lookup_total_app_l. unfold in_group in Hid. lia. }
  split; [split; [rewrite length_app; lia|]| | |].
  - intros id Hid. rewrite Hsame by done. by apply Hl.
  - rewrite (seg_ext h); [done|]. intros id Hid. by rewrite Hsame.
  - intros id Hid. rewrite Hsame by done. by apply Hok.
  - intros i j Hi Hj. rewrite !Hsame by done. by apply Hd.
Qed.

Lemma link_chains_lookup base cs i :
  (i < length cs)%nat ->
  link_chains base cs !!! i =
    (cs !!! i) {{ next := if (S i <? length cs)%nat then Some (base + S i)%nat else None;
                  prev := match i with O => None | S j => Some (base + j)%nat end }}.
Proof.
  intros Hi. apply list_lookup_total_correct. unfold link_chains. rewrite list_lookup_imap.
  by rewrite (list_lookup_lookup_total_lt cs i Hi).
Qed.

Lemma seg_cells h cs : ∀ b,
  (∀ i, (i < length cs)%nat -> chMsgs (h !!! (b + i)%nat) = chMsgs (cs !!! i)) ->
  seg_msgs h b (b + length cs) = chains_msgs cs.
Proof.
  induction cs as [|c cs IH]; intros b Hm; cbn [length].
  - rewrite Nat.add_0_r. apply seg_nil.
  - rewrite seg_cons, chains_msgs_cons by lia. pose proof (Hm 0%nat ltac:(simpl; lia)) as H0. rewrite Nat.add_0_r in H0.
    rewrite H0. f_equal. rewrite <- Nat.add_succ_comm. apply IH. intros i Hi.
    rewrite Nat.add_succ_comm. apply (Hm (S i)). simpl. lia.
Qed.

Lemma sorted_lookup `{Inhabited A} (R : A → A → Prop) l : ∀ i j,
  StronglySorted R l -> (i < j)%nat -> (j < length l)%nat -> R (l !!! i) (l !!! j).
Proof.
  induction l as [|x l IH]; intros i j Hs Hij Hj; simpl in *; [lia|]. apply StronglySorted_inv in Hs as [Hs Hx].
  destruct j as [|j]; [lia|]. destruct i as [|i]; simpl.
  - rewrite Forall_forall in Hx. apply Hx, list_elem_of_lookup_total_2. lia.
  - apply IH; [done|lia|lia].
Qed.

(** Linked chains appended to the store are fresh. *)
Lemma link_fresh τ a cs h :
  Forall (chain_ok τ) cs -> decreasing cs ->
  fresh (h ++ link_chains (length h) cs) (mkGroup a (length h) (length cs) τ (chains_msgs cs)).
Proof.
  intros Hok Hd. set (g := mkGroup a (length h) (length cs) τ (chains_msgs cs)).
  assert (Hcell : ∀ i, (i < length cs)%nat -> (h ++ link_chains (length h) cs) !!! (length h + i)%nat =
    (cs !!! i) {{ next := if (S i <? length cs)%nat then Some (length h + S i)%nat else None;
                  prev := match i with O => None | S j => Some (length h + j)%nat end }}).
  { intros i Hi. rewrite lookup_total_app_r by lia. replace (length h + i - length h)%nat with i by lia.
    by apply link_chains_lookup. }
  assert (Hid : ∀ id, in_group g id -> ∃ i, id = (length h + i)%nat ∧ (i < length cs)%nat).
  { unfold in_group. simpl. intros id Hid. exists (id - length h)%nat. lia. }
  assert (Hcs : ∀ i, (i < length cs)%nat -> chain_ok τ (cs !!! i)).
  { intros i Hi. rewrite Forall_forall in Hok. by apply Hok, list_elem_of_lookup_total_2. }
  split; [split| | |].
  - rewrite length_app. unfold link_chains. rewrite length_imap. done.
  - intros id Hin. destruct (Hid id Hin) as (i & -> & Hi). rewrite Hcell by done. simpl.
    split; [apply (Hcs i Hi)|]. split.
    + destruct i as [|i]; [by rewrite Nat.add_0_r, decide_True|]. rewrite decide_False by lia. f_equal. lia.
    + destruct (Nat.ltb_spec (S i) (length cs)); [right|by left]. split; [f_equal; lia|]. unfold in_group. simpl. lia.
  - simpl. apply seg_cells. intros i Hi. by rewrite Hcell.
  - intros id Hin. destruct (Hid id Hin) as (i & -> & Hi). rewrite Hcell by done. split.
    + destruct (Hcs i Hi). by split.
    + unfold in_group. simpl. intros HS. destruct (Nat.ltb_spec (S i) (length cs)); [f_equal|]; lia.
  - intros id1 id2 H1 H2 Hlt. destruct (Hid id1 H1) as (i & -> & Hi), (Hid id2 H2) as (j & -> & Hj).
    rewrite !Hcell by done.
    exact (sorted_lookup (fun c d => f_lt (gasPerf d) (gasPerf c) = true) cs i j Hd ltac:(lia) Hj).
Qed.

(** * Creation of the chains *)

(** The messages of an actor: stored under their nonces, of one signature type,
    and all its own. *)
Definition mset_ok (owner : SignedMessage → address) (a : address) (mset : gmap Z SignedMessage) : Prop :=
  ∃ τ, (τ = SigTypeBLS ∨ τ = SigTypeSecp256k1) ∧
    ∀ n m, mset !! n = Some m -> sm_Nonce m = n ∧ of_type τ m ∧ owner m = a.

Section Create.
Variable api : Provider.
Context {rt : GoRuntime} {rt_laws : GoRuntimeLaws}.
Variable owner : SignedMessage → address.
Hypothesis actor_nonce : ∀ a ts act, GetActorAfter api a ts = Some act -> in_u64 (Types.Nonce act).

Definition sorted_by_nonce (mset : gmap Z SignedMessage) : list SignedMessage :=
  sort_Slice (fun a b => sm_Nonce a <? sm_Nonce b) (range_values mset).

Lemma sorted_by_nonce_elem mset m : m ∈ sorted_by_nonce mset ↔ ∃ n, mset !! n = Some m.
Proof.
  unfold sorted_by_nonce. rewrite sort_Slice_perm, range_values_perm, list_elem_of_fmap. split.
  - intros ([n m'] & -> & H). apply elem_of_map_to_list in H. by exists n.
  - intros [n H]. exists (n, m). split; [done|]. by apply elem_of_map_to_list.
Qed.

Lemma strictly_sorted {A} (f : A → Z) l :
  StronglySorted (fun x y => (f y <? f x) = false) l -> NoDup (f <$> l) -> StronglySorted (fun x y => f x < f y) l.
Proof.
  induction 1 as [|x l Hs IH Hx]; intros Hnd; [constructor|]. rewrite fmap_cons in Hnd. apply NoDup_cons in Hnd as [Hn Hnd].
  constructor; [auto|]. rewrite Forall_forall in *. intros y Hy. specialize (Hx y Hy). apply Z.ltb_ge in Hx.
  assert (f x ≠ f y) by (intros E; apply Hn; rewrite E; by apply list_elem_of_fmap_2). lia.
Qed.

Lemma sorted_by_nonce_strict a mset :
  mset_ok owner a mset -> StronglySorted (fun a b => sm_Nonce a < sm_Nonce b) (sorted_by_nonce mset).
Proof.
  intros (τ & _ & Hm). apply strictly_sorted.
  - apply (sort_Slice_sorted (fun _ => True)); [|by apply Forall_true]. split.
    + intros x y _ _. rewrite Z.ltb_lt, Z.ltb_ge. lia.
    + intros x y z _ _ _. rewrite !Z.ltb_ge. lia.
  - unfold sorted_by_nonce. rewrite sort_Slice_perm, range_values_perm, <- list_fmap_compose.
    erewrite (list_fmap_ext _ fst); [apply NoDup_fst_map_to_list|].
    intros i [n m] H. apply list_elem_of_lookup_2, elem_of_map_to_list in H. by destruct (Hm n m H).
Qed.

(** The run of the group is what the state of [actor] allows. *)
Definition run_for (ts : TipSet) (actor : address) (g : group) : Prop :=
  match GetActorAfter api actor ts with
  | Some act => valid_run api ts (Types.Nonce act) (Types.Balance act) 0 (g_run g)
  | None => g_run g = []
  end.

(** The chains are made of what the state of the actor allows. *)
Lemma createMessageChains_chains ts baseFee actor act a mset h τ :
  τ = SigTypeBLS ∨ τ = SigTypeSecp256k1 ->
  (∀ n m, mset !! n = Some m -> sm_Nonce m = n ∧ of_type τ m ∧ owner m = a) ->
  GetActorAfter api actor ts = Some act ->
  ∃ cs, createMessageChains api actor mset baseFee ts h = (seq (length h) (length cs), h ++ link_chains (length h) cs) ∧
    Forall (chain_ok τ) cs ∧ Forall (scored baseFee) cs ∧ decreasing cs ∧
    Forall (fun m => ∃ n, mset !! n = Some m) (chains_msgs cs) ∧
    valid_run api ts (Types.Nonce act) (Types.Balance act) 0 (chains_msgs cs).
Proof.
  intros Hτ Hm Eact. unfold createMessageChains. fold (sorted_by_nonce mset). rewrite Eact.
  assert (Hall : ∀ m, m ∈ sorted_by_nonce mset -> of_type τ m).
  { intros m Hin. apply sorted_by_nonce_elem in Hin as [n Hn]. by destruct (Hm n m Hn) as (_ & ? & _). }
  destruct (candidates_spec api act ts baseFee (sorted_by_nonce mset)) as (run & Hcand & Hin & Hlen & Hrun).
  { eapply sorted_by_nonce_strict. by exists τ. }
  { apply Forall_forall. intros m Hmm. by destruct (Hall m Hmm) as [? _]. }
  { by eapply actor_nonce. }
  rewrite Hcand. set (cands := map _ run). assert (Hfst : cands.*1 = run).
  { unfold cands. change (map ?f run) with (f <$> run). rewrite <- list_fmap_compose. by apply list_fmap_id. }
  assert (Hsnd : Forall (fun p => p.2 = getGasReward p.1 baseFee) cands).
  { unfold cands. change (map ?f run) with (f <$> run). apply Forall_fmap, Forall_true. done. }
  rewrite Forall_forall in Hin. assert (Htypes : Forall (fun p : SignedMessage * Z => of_type τ p.1) cands).
  { apply (Forall_fmap fst (of_type τ)). rewrite Hfst. apply Forall_forall. intros m Hmr. by apply Hall, Hin. }
  destruct (build_chains_ok τ cands Htypes) as (Hok & Hmsgs & Hdec).
  { rewrite Hfst. pose proof (vr_gas _ _ _ _ _ _ Hrun). lia. }
  rewrite Hfst in Hmsgs. exists (build_chains cands). rewrite Hmsgs. split; [done|]. split; [done|].
  split; [by apply build_chains_scored|]. split; [done|]. split; [|done].
  apply Forall_forall. intros m Hmr. by apply sorted_by_nonce_elem, Hin.
Qed.

Lemma createMessageChains_spec ts baseFee actor a mset h :
  mset_ok owner a mset ->
  ∃ g cs, createMessageChains api actor mset baseFee ts h = (seq (g_base g) (g_len g), h ++ cs) ∧
    fresh (h ++ cs) g ∧ run_ok owner g ∧ g_owner g = a ∧ g_base g = length h ∧
    (g_base g + g_len g = length (h ++ cs))%nat ∧ run_for ts actor g ∧
    Forall (fun m => ∃ n, mset !! n = Some m) (g_run g).
Proof.
  intros (τ & Hτ & Hm). unfold run_for. destruct (GetActorAfter api actor ts) as [act|] eqn:Eact.
  2: { exists (mkGroup a (length h) 0 τ []), []. unfold createMessageChains. rewrite Eact, app_nil_r. simpl. split; [done|].
       split; [|split; [split; simpl; [constructor|unfold BlockGasLimit; simpl; lia|done|constructor]|]].
       - split; [split; simpl; [lia|]|simpl; by rewrite Nat.add_0_r, seg_nil| |]; unfold in_group; simpl; intros; lia.
       - repeat split; [lia|constructor]. }
  destruct (createMessageChains_chains ts baseFee actor act a mset h τ Hτ Hm Eact) as (cs & E & Hok & _ & Hdec & Hin & Hrun).
  exists (mkGroup a (length h) (length cs) τ (chains_msgs cs)), (link_chains (length h) cs). rewrite Forall_forall in Hin.
  simpl. split; [done|]. split; [by apply link_fresh|]. split; [split; simpl|].
  - unfold chains_msgs. apply Forall_bind. eapply Forall_impl; [exact Hok|]. intros c Hc. apply Hc.
  - pose proof (vr_gas _ _ _ _ _ _ Hrun). lia.
  - done.
  - apply Forall_forall. intros m Hmr. destruct (Hin m Hmr) as [n Hn]. by destruct (Hm n m Hn) as (_ & _ & ?).
  - split; [done|]. split; [done|]. split; [rewrite length_app; unfold link_chains; by rewrite length_imap|].
    split; [done|]. by apply Forall_forall.
Qed.
End Create.

(** * Packing fresh chains *)

Section Pack.
Context {rt : GoRuntime} {rt_laws : GoRuntimeLaws}.
Variable owner : SignedMessage → address.

(** The chains of the groups [G], as they were created. *)
Record built (G : list group) (chains : list nat) (h : list msgChain) : Prop := mkBuilt {
  bt_fresh g : g ∈ G -> fresh h g;
  bt_chains : chains = G ≫= fun g => seq (g_base g) (g_len g);
  bt_nodup : NoDup G;
  bt_groups : groups_ok owner G;
}.

Lemma built_nil : built [] [] [].
Proof.
  split; [|done|constructor|split; [|split]]; intros g; intros; exfalso;
    match goal with H : g ∈ [] |- _ => by apply elem_of_nil in H end.
Qed.

Lemma sorted_filter {A} (R : A → A → Prop) (P : A → Prop) `{!∀ x, Decision (P x)} l :
  StronglySorted R l -> StronglySorted R (filter P l).
Proof.
  induction 1 as [|x l Hs IH Hx]; [constructor|]. rewrite filter_cons. case_decide; [|done].
  constructor; [done|]. rewrite Forall_forall in *. intros y Hy. apply list_elem_of_filter in Hy as [_ Hy]. auto.
Qed.

Lemma sorted_seq (R : nat → nat → Prop) b n :
  (∀ i j, (b ≤ i < j)%nat -> (j < b + n)%nat -> R i j) -> StronglySorted R (seq b n).
Proof.
  revert b. induction n as [|n IH]; intros b HR; simpl; [constructor|]. constructor.
  - apply IH. intros i j ? ?. apply HR; lia.
  - apply Forall_forall. intros j Hj. apply elem_of_seq in Hj. apply HR; lia.
Qed.

Lemma built_add G chains h g cs :
  built G chains h -> fresh (h ++ cs) g -> run_ok owner g -> g_base g = length h ->
  (∀ g', g' ∈ G -> g_owner g' ≠ g_owner g) ->
  built (G ++ [g]) (chains ++ seq (g_base g) (g_len g)) (h ++ cs).
Proof.
  intros [Hf -> Hnd (Hr & Hc & Ho)] Hfg Hrg Hb Hnew.
  assert (Hlow : ∀ g' id, g' ∈ G -> in_group g' id -> in_group g id -> False).
  { intros g' id Hg' H1 H2. destruct (fr_linked _ _ (Hf g' Hg')) as [Hl _]. unfold in_group in *. lia. }
  split.
  - intros g'. rewrite elem_of_app, list_elem_of_singleton. intros [Hg'| ->]; [by apply fresh_app, Hf|done].
  - rewrite bind_app. simpl. by rewrite app_nil_r.
  - apply NoDup_app. split; [done|]. split; [|apply NoDup_singleton].
    intros g' Hg' Hin. apply list_elem_of_singleton in Hin as ->. by eapply Hnew.
  - split; [|split].
    + intros g'. rewrite elem_of_app, list_elem_of_singleton. intros [Hg'| ->]; auto.
    + intros g1 g2 id. rewrite !elem_of_app, !list_elem_of_singleton.
      intros [H1| ->] [H2| ->] Hi1 Hi2; [by eapply Hc|exfalso; by eapply Hlow..|done].
    + intros g1 g2. rewrite !elem_of_app, !list_elem_of_singleton.
      intros [H1| ->] [H2| ->] He; [by apply Ho|exfalso; by eapply Hnew|exfalso; by eapply Hnew|done].
Qed.

Lemma filter_every {A} (P : A → Prop) `{!∀ x, Decision (P x)} (l : list A) : (∀ x, x ∈ l -> P x) -> filter P l = l.
Proof.
  induction l as [|x l IH]; intros Hn; [done|]. rewrite filter_cons_True by (apply Hn; by left).
  f_equal. apply IH. intros y Hy. apply Hn. by right.
Qed.

Lemma filter_seq_in b n e : (b + n ≤ e)%nat -> filter (fun id => b ≤ id < e)%nat (seq b n) = seq b n.
Proof.
  intros H. apply filter_every. intros id Hid. apply elem_of_seq in Hid. lia.
Qed.

(** The cells of one group among all. *)
Lemma filter_groups G g :
  NoDup G -> groups_ok owner G -> g ∈ G ->
  filter (fun id => g_base g ≤ id < g_base g + g_len g)%nat (G ≫= fun g => seq (g_base g) (g_len g)) =
    seq (g_base g) (g_len g).
Proof.
  intros Hnd (_ & Hc & _) Hg. apply list_elem_of_split in Hg as (G1 & G2 & ->).
  assert (Hout : ∀ G', (∀ g', g' ∈ G' -> g' ∈ G1 ++ g :: G2 ∧ g' ≠ g) ->
    filter (fun id => g_base g ≤ id < g_base g + g_len g)%nat (G' ≫= fun g => seq (g_base g) (g_len g)) = []).
  { intros G' HG'. apply filter_none. intros id Hid Hin. apply list_elem_of_bind in Hid as (g' & Hid & Hg').
    destruct (HG' g' Hg') as [Hin' Hne]. apply elem_of_seq in Hid. apply Hne, (Hc _ _ id); [done|set_solver|done|done]. }
  apply NoDup_app in Hnd as (_ & Hn1 & Hnd). apply NoDup_cons in Hnd as [Hn2 _].
  rewrite bind_app, bind_cons, !filter_app, filter_seq_in by lia.
  rewrite !Hout, app_nil_r; [done|..]; intros g' Hg'; (split; [set_solver|intros ->]); [done|by apply (Hn1 g); [|left]].
Qed.

(** Sorting keeps the chains of a group in their order. *)
Lemma sorted_groups G chains h g :
  built G chains h -> g ∈ G ->
  filter (fun id => g_base g ≤ id < g_base g + g_len g)%nat
    (sort_Slice (fun c d => Before (h !!! c) (h !!! d)) chains) = seq (g_base g) (g_len g).
Proof.
  intros [Hf -> Hnd HG] Hg. set (less := fun c d => Before (h !!! c) (h !!! d)).
  set (num := fun id : nat => is_nan (gasPerf (h !!! id)) = false).
  assert (Hnum : ∀ id, id ∈ G ≫= (fun g => seq (g_base g) (g_len g)) -> num id).
  { intros id Hid. apply list_elem_of_bind in Hid as (g' & Hid & Hg'). apply elem_of_seq in Hid.
    destruct (fr_ok _ _ (Hf g' Hg') id Hid) as [Hok _]. apply Hok. }
  assert (Hwo : weak_order num less).
  { destruct Before_weak_order as [H1 H2]. split; unfold less, num.
    - intros x y Hx Hy. by apply H1.
    - intros x y z Hx Hy Hz. by apply H2. }
  assert (Hperm := sort_Slice_perm less (G ≫= fun g => seq (g_base g) (g_len g))).
  assert (Hs := sort_Slice_sorted num less _ Hwo ltac:(by apply Forall_forall)).
  set (sorted := sort_Slice less _) in *. clearbody sorted.
  assert (Hbefore : ∀ i j, in_group g i -> in_group g j -> (i < j)%nat -> less i j = true).
  { intros i j Hi Hj Hij. unfold less, Before. by rewrite (fr_decreasing _ _ (Hf g Hg) i j). }
  assert (Hasym : ∀ i j, in_group g i -> in_group g j -> (i < j)%nat -> less j i = false).
  { intros i j Hi Hj Hij. apply (proj1 Hwo); [..|by apply Hbefore]; apply Hnum, list_elem_of_bind; exists g;
      (split; [apply elem_of_seq; unfold in_group in *; lia|done]). }
  apply (StronglySorted_unique_strong (fun x y => less y x = false)).
  - intros x y Hx Hy. apply list_elem_of_filter in Hx as [Hx _]. apply elem_of_seq in Hy. intros H1 H2.
    destruct (Nat.lt_trichotomy x y) as [Hlt|[->|Hlt]]; [|done|]; by rewrite Hbefore in * by (unfold in_group; lia || done).
  - by apply sorted_filter.
  - apply sorted_seq. intros i j Hi Hj. apply Hasym; unfold in_group; lia.
  - rewrite Hperm, filter_groups by done. done.
Qed.

Lemma built_cover G chains h id : built G chains h -> id ∈ chains -> ∃ g, g ∈ G ∧ in_group g id.
Proof.
  intros [_ -> _ _] Hid. apply list_elem_of_bind in Hid as (g & Hid & Hg). apply elem_of_seq in Hid. by exists g.
Qed.

Lemma order_start G chains h sel :
  built G chains h -> (∀ g, g ∈ G -> owned owner (g_owner g) sel = []) ->
  order_inv owner G h sel (sort_Slice (fun c d => Before (h !!! c) (h !!! d)) chains).
Proof.
  intros Hb Hsel. split.
  - intros g Hg. exists (g_base g), (g_base g + g_len g)%nat. rewrite Hsel by done.
    split; [apply fresh_group_at; by apply (bt_fresh _ _ _ Hb)|].
    replace (g_base g + g_len g - g_base g)%nat with (g_len g) by lia. by eapply sorted_groups.
  - intros id. rewrite sort_Slice_perm. intros Hid. by eapply built_cover.
Qed.

Lemma greedy_start G chains h sm :
  built G chains h -> sm_ok sm -> (∀ g, g ∈ G -> sel_of owner (g_owner g) sm = []) ->
  greedy_inv owner G sm h sm (sort_Slice (fun c d => Before (h !!! c) (h !!! d)) chains).
Proof. intros Hb Hsm Hsel. split; [done|by apply order_start|done]. Qed.

Lemma final_refl G sm :
  sm_ok sm -> (∀ g, g ∈ G -> sel_of owner (g_owner g) sm = []) -> final_ok owner G sm sm.
Proof. intros Hsm Hsel. split; [done| |done]. intros g Hg. rewrite Hsel by done. apply prefix_nil. Qed.

(** Packing fresh chains ends and gives a good block. *)
Lemma pack_spec G chains h sm bf :
  built G chains h -> sm_ok sm -> (∀ g, g ∈ G -> sel_of owner (g_owner g) sm = []) ->
  ∃ sm', pack bf chains h sm = Some sm' ∧ final_ok owner G sm sm'.
Proof.
  intros Hb Hsm Hsel. pose proof (final_refl G sm Hsm Hsel) as Hrefl. unfold pack.
  pose proof (greedy_start G chains h sm Hb Hsm Hsel) as Hinv. pose proof (bt_groups _ _ _ Hb) as HG.
  assert (Hv : Forall (fun c => valid (h !!! c) = true) (sort_Slice (fun c d => Before (h !!! c) (h !!! d)) chains)).
  { rewrite sort_Slice_perm. apply Forall_forall. intros id Hid. destruct (built_cover _ _ _ _ Hb Hid) as (g & Hg & Hin).
    destruct (fr_ok _ _ (bt_fresh _ _ _ Hb g Hg) id Hin) as [Hok _]. apply Hok. }
  set (sorted := sort_Slice _ chains) in *. clearbody sorted. destruct sorted as [|c cs]; [by exists sm|].
  destruct (negative (h !!! c)); [by exists sm|].
  destruct (merge_head h (length (c :: cs)) 0 (c :: cs) sm) as [last sm1] eqn:E.
  destruct (merge_head_spec owner G sm h _ _ _ _ _ _ HG Hinv Hv eq_refl E) as [Hf Hl].
  apply tail_loop_spec; [done|done|lia|]. intros Hlt. destruct Hl as [->|(_ & H1 & H2)]; [lia|].
  by rewrite Nat.sub_0_r in *.
Qed.
End Pack.
