(* ===== verification/OptimalProps.v ===== *)
(** Theory of the optimal selection: merging a chain with its dependencies, the
    tail packing and the random filling keep the chains of every actor in order,
    and the loops end. *)

From Stdlib Require Import SpecFloat.
From coqutil Require Import Datatypes.RecordSetters.
From S2P Require Import Prelude Gas Types Tipset MsgSet MessagePool MsgChains MsgSelect ChainProps SelectProps.
Import DoubleBraceUpdate.
Import Gas.Prices.

Arguments constant {E} newValue _ /.

(** * Cells of one group *)

(** Trimming a selected chain drops the live ones after it, or none. *)
Lemma group_at_Trim_before opt h h' sel g s e id k :
  group_at opt h sel g s e -> in_group g id -> (id < s)%nat -> trimmed g id k h h' ->
  ∃ e', group_at opt h' sel g s e'.
Proof.
  intros Hga Hgid Hid [Hlen Hkeep Hm Hv Hmg Hpv Hty Hnx Hgas (y & Hy & Hgy & Hny & _ & Hk)].
  pose proof (ga_range _ _ _ _ _ _ Hga) as Hr.
  assert (Hlk : linked g h').
  { eapply linked_cut; [exact Hlen|apply Hga|]. intros j _. destruct (decide (j = id)) as [->|Hne']; [auto|].
    rewrite Hk by done. case_decide; [apply kill_links|auto]. }
  assert (Hmerged : ∀ j, opt = true -> (j < s)%nat -> in_group g j -> merged (h' !!! j) = true).
  { intros j Ho Hj Hgj. destruct (decide (j = id)) as [->|]; [rewrite Hmg; by apply (ga_merged _ _ _ _ _ _ Hga)|].
    rewrite Hk by done. case_decide; simpl; by apply (ga_merged _ _ _ _ _ _ Hga). }
  destruct (decide (y < s)%nat) as [Hys|Hys].
  - assert (Hsame : ∀ j, (s ≤ j)%nat -> h' !!! j = h !!! j) by (intros j Hj; rewrite Hk, decide_False by lia; done).
    exists e. split; [done|done| | | |done].
    + rewrite (seg_ext h); [apply Hga|]. intros j Hj. by rewrite Hsame by lia.
    + intros j Hj. rewrite Hsame by lia. by apply (ga_live _ _ _ _ _ _ Hga).
    + intros j Hj Hgj. rewrite Hsame by lia. by apply (ga_dead _ _ _ _ _ _ Hga).
  - pose proof (cut_past _ _ _ _ _ _ s y Hga ltac:(lia) ltac:(lia) Hny) as Hpast.
    exists s. split; [done|lia| |intros; lia| |done].
    + rewrite seg_nil, app_nil_r. etrans; [|apply Hga]. by apply prefix_app_r.
    + intros j Hj Hgj. rewrite Hk by lia. case_decide; [done|]. apply (ga_dead _ _ _ _ _ _ Hga); [lia|done].
Qed.

Lemma Invalidate_other g id h j :
  linked g h -> in_group g id -> ~ in_group g j -> Invalidate id h !!! j = h !!! j.
Proof.
  intros Hlk Hid Hj. destruct (Invalidate_spec g id h Hlk Hid) as (y & Hy & Hgy & [_ Hk] & _).
  rewrite Hk. apply decide_False. unfold in_group in *. lia.
Qed.

(** The unmerged dependencies of a live chain are the live chains before it. *)
Lemma chain_deps_spec h sel g s e : group_at true h sel g s e -> ∀ n fuel,
  (s + n < e)%nat -> (n < fuel)%nat -> chain_deps fuel h (prev (h !!! (s + n)%nat)) = rev (seq s n).
Proof.
  intros Hga n. pose proof (ga_range _ _ _ _ _ _ Hga) as Hr. induction n as [|n IH]; intros fuel Hn Hf.
  - rewrite Nat.add_0_r. destruct (proj2 (ga_linked _ _ _ _ _ _ Hga) s) as (_ & -> & _); [unfold in_group; lia|].
    case_decide as Hs; [by destruct fuel|]. destruct fuel as [|fuel]; [lia|]. simpl.
    rewrite (ga_merged _ _ _ _ _ _ Hga); [done|done|lia|unfold in_group; lia].
  - destruct (proj2 (ga_linked _ _ _ _ _ _ Hga) (s + S n)%nat) as (_ & -> & _); [unfold in_group; lia|].
    rewrite decide_False by lia. destruct fuel as [|fuel]; [lia|].
    replace (pred (s + S n)) with (s + n)%nat by lia. cbn [chain_deps].
    destruct (ga_live _ _ _ _ _ _ Hga (s + n)%nat) as [Hlive _]; [lia|]. rewrite (lv_merged _ Hlive), IH by lia.
    by rewrite seq_S, rev_app_distr.
Qed.

(** Sums over the dependencies. *)
Lemma fold_gas (h : list msgChain) (D : list nat) : ∀ z,
  0 ≤ z -> Forall (fun d => chGasLimit (h !!! d) = gas_of (chMsgs (h !!! d)) ∧ 0 ≤ gas_of (chMsgs (h !!! d))) D ->
  z + sumZ (fun d => gas_of (chMsgs (h !!! d))) D ≤ BlockGasLimit ->
  foldl (fun g d => g ⊞ chGasLimit (h !!! d)) z D = z + sumZ (fun d => gas_of (chMsgs (h !!! d))) D.
Proof.
  induction D as [|d D IH]; intros z Hz HD Hb; cbn [foldl]; [unfold sumZ; simpl; lia|]. apply Forall_cons in HD as [[Hg H0] HD].
  rewrite sumZ_cons in *. assert (0 ≤ sumZ (fun d => gas_of (chMsgs (h !!! d))) D).
  { apply sumZ_nonneg. eapply Forall_impl; [exact HD|]. by intros d' [_ ?]. }
  rewrite Hg, gas_add by lia. rewrite IH; [lia|lia|done|lia].
Qed.

Lemma fold_len (h : list msgChain) (D : list nat) : ∀ z,
  foldl (fun n d => n + chLen (h !!! d)) z D = z + sumZ (fun d => chLen (h !!! d)) D.
Proof. induction D as [|d D IH]; intros z; cbn [foldl]; [unfold sumZ; simpl; lia|]. rewrite IH, sumZ_cons. lia. Qed.

Lemma sumZ_rev {A} (f : A → Z) l : sumZ f (rev l) = sumZ f l.
Proof. apply sumZ_perm. symmetry. apply Permutation_rev. Qed.

Lemma in_rev_elem {A} (l : list A) x : x ∈ l ↔ x ∈ rev l.
Proof. by rewrite !list_elem_of_In, <- in_rev. Qed.

Lemma seg_gas h s n : sumZ (fun d => gas_of (chMsgs (h !!! d))) (seq s n) = gas_of (seg_msgs h s (s + n)).
Proof.
  revert s. induction n as [|n IH]; intros s; [by rewrite Nat.add_0_r, seg_nil|].
  rewrite seg_cons, gas_of_app by lia. cbn [seq]. rewrite sumZ_cons, IH. by replace (S s + n)%nat with (s + S n)%nat by lia.
Qed.

Lemma seg_len h s n : sumZ (fun d => chLen (h !!! d)) (seq s n) = Z.of_nat (length (seg_msgs h s (s + n))).
Proof.
  revert s. induction n as [|n IH]; intros s; [by rewrite Nat.add_0_r, seg_nil|].
  rewrite seg_cons, length_app by lia. cbn [seq]. rewrite sumZ_cons, IH. replace (S s + n)%nat with (s + S n)%nat by lia.
  unfold chLen. lia.
Qed.

(** The live messages are of the type of the group, its own, and fit in a block. *)
Lemma seg_ok owner opt h sel g s e x y :
  run_ok owner g -> group_at opt h sel g s e -> (s ≤ x ≤ y)%nat -> (y ≤ e)%nat ->
  Forall (of_type (g_type g)) (seg_msgs h x y) ∧ Forall (fun m => owner m = g_owner g) (seg_msgs h x y) ∧
  0 ≤ gas_of (seg_msgs h x y) ≤ BlockGasLimit.
Proof.
  intros [Ht Hg _ Ho] Hga Hx Hy. destruct (ga_prefix _ _ _ _ _ _ Hga) as [rest Hrun].
  rewrite (seg_split h s x e), (seg_split h x y e), <- !app_assoc in Hrun by lia. rewrite Hrun in *.
  apply Forall_app in Ht as [H1 Ht], Ho as [_ Ho]. apply Forall_app in Ht as [H2 Ht], Ho as [_ Ho].
  apply Forall_app in Ht as [H3 Ht], Ho as [Ho _]. rewrite !gas_of_app in Hg.
  pose proof (gas_of_nonneg _ (of_type_ok _ _ H1)). pose proof (gas_of_nonneg _ (of_type_ok _ _ H2)).
  pose proof (gas_of_nonneg _ (of_type_ok _ _ H3)). pose proof (gas_of_nonneg _ (of_type_ok _ _ Ht)).
  rewrite gas_of_app in *. split; [done|]. split; [done|lia].
Qed.

Definition set_merged (mc : msgChain) : msgChain := mc {{ merged := true }}.

Lemma mark_all l : ∀ h,
  Forall (fun d => (d < length h)%nat) l ->
  length (foldl mark_merged h l) = length h ∧
  ∀ j, foldl mark_merged h l !!! j = if decide (j ∈ l) then set_merged (h !!! j) else h !!! j.
Proof.
  induction l as [|d l IH]; intros h Hl; cbn [foldl].
  { split; [done|]. intros j. rewrite decide_False; [done|]. apply not_elem_of_nil. }
  apply Forall_cons in Hl as [Hd Hl]. assert (Hlen : length (mark_merged h d) = length h) by apply length_alter.
  destruct (IH (mark_merged h d)) as [H1 H2]; [by rewrite Hlen|]. split; [congruence|]. intros j. rewrite H2.
  unfold mark_merged. rewrite alter_total by done. fold (set_merged (h !!! j)).
  destruct (decide (d = j)) as [->|Hne].
  - rewrite (decide_True (P := j ∈ j :: l)) by left. case_decide; [by destruct (h !!! j)|done].
  - destruct (decide (j ∈ l)); [rewrite decide_True by (by right)|rewrite decide_False by (rewrite elem_of_cons; naive_solver)]; done.
Qed.

(** Merging the live chains up to [id] selects their messages. *)
Lemma group_at_merge h h' sel g s e id :
  group_at true h sel g s e -> (s ≤ id < e)%nat -> length h' = length h ->
  (∀ j, h' !!! j = if decide (j ∈ seq s (S id - s)) then set_merged (h !!! j) else h !!! j) ->
  group_at true h' (sel ++ seg_msgs h s (S id)) g (S id) e.
Proof.
  intros Hga Hid Hlen Hmark. pose proof (ga_range _ _ _ _ _ _ Hga) as Hr.
  assert (Hin : ∀ j, j ∈ seq s (S id - s) ↔ (s ≤ j ≤ id)%nat) by (intros j; rewrite elem_of_seq; lia).
  assert (Hsame : ∀ j, (id < j)%nat -> h' !!! j = h !!! j) by (intros j Hj; rewrite Hmark, decide_False; [done|rewrite Hin; lia]).
  split; [|lia| | | |].
  - eapply linked_cut; [exact Hlen|apply Hga|]. intros j _. rewrite Hmark. case_decide; auto.
  - rewrite (seg_ext h h') by (intros j Hj; by rewrite Hsame by lia). rewrite <- app_assoc, <- seg_split by lia. apply Hga.
  - intros j Hj. rewrite Hsame by lia. apply (ga_live _ _ _ _ _ _ Hga). lia.
  - intros j Hj Hgj. rewrite Hsame by lia. by apply (ga_dead _ _ _ _ _ _ Hga).
  - intros j _ Hj Hgj. rewrite Hmark. case_decide as Hjn; [done|]. rewrite Hin in Hjn.
    apply (ga_merged _ _ _ _ _ _ Hga); [done|lia|done].
Qed.

(** * The invariant of the optimal selection *)

Section Optimal.
Variable owner : SignedMessage → address.

(** Every group is in order; when [full], no chain has been dropped. *)
Record opt_inv (full : bool) (G : list group) (sm0 : selectedMessages) (h : list msgChain) (sm : selectedMessages)
    : Prop := mkOptInv {
  oi_sm : sm_ok sm;
  oi_groups g : g ∈ G -> ∃ s e, group_at true h (sel_of owner (g_owner g) sm) g s e ∧
    (full = true -> e = (g_base g + g_len g)%nat);
  oi_others a : (∀ g, g ∈ G -> g_owner g ≠ a) -> sel_of owner a sm = sel_of owner a sm0;
}.

Lemma opt_final full G sm0 h sm : opt_inv full G sm0 h sm -> final_ok owner G sm0 sm.
Proof.
  intros [Hsm Hgr Hoth]. split; [done| |done]. intros g Hg. destruct (Hgr g Hg) as (s & e & Hga & _).
  etrans; [|apply Hga]. by apply prefix_app_r.
Qed.

Lemma opt_weaken full G sm0 h sm : opt_inv full G sm0 h sm -> opt_inv false G sm0 h sm.
Proof. intros [Hsm Hgr Hoth]. split; [done| |done]. intros g Hg. destruct (Hgr g Hg) as (s & e & ? & _). by exists s, e. Qed.

(** Changes of performances do not matter. *)
Lemma opt_frame full G sm0 h h' sm :
  length h' = length h -> (∀ id, same_cell (h !!! id) (h' !!! id)) ->
  opt_inv full G sm0 h sm -> opt_inv full G sm0 h' sm ∧ (total_messages h' ≤ total_messages h)%nat.
Proof.
  intros Hlen Hsame [Hsm Hgr Hoth]. split; [split; [done| |done]|].
  - intros g Hg. destruct (Hgr g Hg) as (s & e & Hga & He). exists s, e. split; [|done].
    by eapply group_at_frame; [exact Hlen| |exact Hga].
  - apply total_messages_le; [done|]. intros j. destruct (Hsame j) as [[-> _] _]. done.
Qed.

(** A change of the cells of one group. *)
Lemma opt_update full full' G sm0 h h' sm g s e :
  groups_ok owner G -> opt_inv full G sm0 h sm -> g ∈ G -> length h' = length h ->
  (∀ j, ~ in_group g j -> h' !!! j = h !!! j) ->
  group_at true h' (sel_of owner (g_owner g) sm) g s e -> full' = false ->
  opt_inv full' G sm0 h' sm.
Proof.
  intros (_ & Hcells & _) [Hsm Hgr Hoth] Hg Hlen Hsame Hga ->. split; [done| |done]. intros g' Hg'.
  destruct (decide (g' = g)) as [->|Hne]; [by exists s, e|]. destruct (Hgr g' Hg') as (s' & e' & Hga' & _).
  exists s', e'. split; [|done]. eapply group_at_frame; [exact Hlen| |exact Hga'].
  intros id Hid. rewrite Hsame; [apply same_cell_refl|]. intros Hin. by apply Hne, (Hcells _ _ id).
Qed.

(** The totals [tryToAddWithDeps] computes. *)
Lemma deps_totals G h sm g s e id :
  groups_ok owner G -> g ∈ G -> group_at true h (sel_of owner (g_owner g) sm) g s e -> (s ≤ id < e)%nat ->
  let deps := chain_deps (length h) h (prev (h !!! id)) in
  rev deps ++ [id] = seq s (S id - s) ∧
  foldl (fun g d => g ⊞ chGasLimit (h !!! d)) 0 deps = gas_of (seg_msgs h s id) ∧
  foldl (fun g d => g ⊞ chGasLimit (h !!! d)) (chGasLimit (h !!! id)) deps = gas_of (seg_msgs h s (S id)) ∧
  foldl (fun n d => n + chLen (h !!! d)) 0 deps = Z.of_nat (length (seg_msgs h s id)) ∧
  foldl (fun n d => n + chLen (h !!! d)) (chLen (h !!! id)) deps = Z.of_nat (length (seg_msgs h s (S id))).
Proof.
  intros HG Hg Hga Hid deps. pose proof (ga_range _ _ _ _ _ _ Hga) as Hr. pose proof (proj1 HG g Hg) as Hro.
  destruct (ga_linked _ _ _ _ _ _ Hga) as [Hlen _].
  assert (Hdeps : deps = rev (seq s (id - s))).
  { unfold deps. rewrite <- (chain_deps_spec h _ g s e Hga (id - s) (length h)) by lia.
    by replace (s + (id - s))%nat with id by lia. }
  assert (Hseg : seg_msgs h s (S id) = seg_msgs h s id ++ chMsgs (h !!! id)) by (by rewrite (seg_split h s id), seg_one by lia).
  assert (Hsum : sumZ (fun d => gas_of (chMsgs (h !!! d))) deps = gas_of (seg_msgs h s id)).
  { rewrite Hdeps, sumZ_rev, seg_gas. by replace (s + (id - s))%nat with id by lia. }
  assert (Hsuml : sumZ (fun d => chLen (h !!! d)) deps = Z.of_nat (length (seg_msgs h s id))).
  { rewrite Hdeps, sumZ_rev, seg_len. by replace (s + (id - s))%nat with id by lia. }
  assert (Hlive : Forall (fun d => chGasLimit (h !!! d) = gas_of (chMsgs (h !!! d)) ∧ 0 ≤ gas_of (chMsgs (h !!! d))) deps).
  { rewrite Hdeps. apply Forall_forall. intros d Hd. rewrite <- in_rev_elem in Hd. apply elem_of_seq in Hd.
    destruct (ga_live _ _ _ _ _ _ Hga d) as [Hl _]; [lia|]. split; [apply Hl|].
    destruct (live_ok _ _ _ _ _ _ _ d Hro Hga) as (_ & _ & ?); lia. }
  destruct (ga_live _ _ _ _ _ _ Hga id Hid) as [Hl _]. rewrite (lv_gas _ Hl).
  destruct (seg_ok _ _ _ _ _ _ _ s id Hro Hga) as (_ & _ & Hb1); [lia|lia|].
  destruct (seg_ok _ _ _ _ _ _ _ s (S id) Hro Hga) as (_ & _ & Hb2); [lia|lia|].
  destruct (live_ok _ _ _ _ _ _ _ id Hro Hga Hid) as (_ & _ & Hb3). rewrite Hseg, gas_of_app in Hb2.
  split; [|split; [|split; [|split]]].
  - rewrite Hdeps, rev_involutive. replace (S id - s)%nat with (S (id - s)) by lia. rewrite seq_S. do 2 f_equal. lia.
  - rewrite fold_gas; [by rewrite Hsum|lia|done|rewrite Hsum; lia].
  - rewrite fold_gas, Hsum, Hseg, gas_of_app; [lia|lia|done|rewrite Hsum; lia].
  - by rewrite fold_len, Hsuml.
  - rewrite fold_len, Hsuml, Hseg, length_app. unfold chLen. lia.
Qed.

(** Merging a live chain with its dependencies keeps the invariant. *)
Lemma merge_success full G sm0 h sm g s e id :
  groups_ok owner G -> opt_inv full G sm0 h sm -> g ∈ G ->
  group_at true h (sel_of owner (g_owner g) sm) g s e -> (full = true -> e = (g_base g + g_len g)%nat) ->
  (s ≤ id < e)%nat -> sm_ok (grown sm (g_type g) (seg_msgs h s (S id))) ->
  let h' := foldl mark_merged h (seq s (S id - s)) in
  length h' = length h ∧ opt_inv full G sm0 h' (grown sm (g_type g) (seg_msgs h s (S id))) ∧
  (total_messages h' ≤ total_messages h)%nat.
Proof.
  intros HG Hinv Hg Hga Hfull Hid Hsm'. pose proof (ga_range _ _ _ _ _ _ Hga) as Hr.
  pose proof (proj1 HG g Hg) as Hro. destruct (ga_linked _ _ _ _ _ _ Hga) as [Hlen _].
  destruct (seg_ok _ _ _ _ _ _ _ s (S id) Hro Hga) as (_ & Ho & _); [lia|lia|].
  destruct (mark_all (seq s (S id - s)) h) as [Hl Hmark].
  { apply Forall_forall. intros d Hd. apply elem_of_seq in Hd. lia. }
  cbv zeta. set (h' := foldl _ _ _) in *. clearbody h'. split; [done|]. split.
  - destruct HG as (_ & Hcells & Howners). destruct Hinv as [Hsm Hgr Hoth]. split; [done| |].
    + intros g' Hg'. rewrite sel_of_grown, (filter_owned _ _ (g_owner g)) by done. destruct (decide (g' = g)) as [->|Hne].
      * rewrite decide_True by done. exists (S id), e. split; [by apply group_at_merge|done].
      * rewrite decide_False by (intros He; by apply Hne, Howners). rewrite app_nil_r.
        destruct (Hgr g' Hg') as (s' & e' & Hga' & He'). exists s', e'. split; [|done].
        eapply group_at_frame; [exact Hl| |exact Hga']. intros j Hj. rewrite Hmark, decide_False; [apply same_cell_refl|].
        intros Hin. apply elem_of_seq in Hin. apply Hne, (Hcells _ _ j); try done. unfold in_group. lia.
    + intros a Ha. rewrite sel_of_grown, (filter_owned _ _ (g_owner g)), decide_False, app_nil_r by (done || by intros ->; eapply Ha). auto.
  - apply total_messages_le; [done|]. intros j. rewrite Hmark. by case_decide.
Qed.

(** A chain that does not fit is trimmed or dropped. *)
Lemma merge_failure full G sm0 h sm g s e id bf limit :
  groups_ok owner G -> opt_inv full G sm0 h sm -> g ∈ G ->
  group_at true h (sel_of owner (g_owner g) sm) g s e -> (s ≤ id < e)%nat ->
  selGasLimit sm < gas_of (seg_msgs h s (S id)) ∨ limit < Z.of_nat (length (seg_msgs h s (S id))) ->
  let depGas := gas_of (seg_msgs h s id) in
  let depLen := Z.of_nat (length (seg_msgs h s id)) in
  let h' := if (selGasLimit sm <? depGas) || (limit <=? depLen) then Invalidate id h
            else Trim (selGasLimit sm ⊟ depGas) (limit - depLen) bf id h in
  length h' = length h ∧ opt_inv false G sm0 h' sm ∧ (total_messages h' < total_messages h)%nat ∧
  merged (h' !!! id) = false.
Proof.
  intros HG Hinv Hg Hga Hid Hwhy depGas depLen. pose proof (ga_range _ _ _ _ _ _ Hga) as Hr. pose proof (proj1 HG g Hg) as Hro.
  assert (Hgid : in_group g id) by (unfold in_group; lia). pose proof (ga_linked _ _ _ _ _ _ Hga) as Hlk.
  destruct (ga_live _ _ _ _ _ _ Hga id Hid) as [Hlive _].
  rewrite (seg_split h s id (S id)), seg_one, gas_of_app, length_app in Hwhy by lia. fold depGas in Hwhy.
  destruct (seg_ok _ _ _ _ _ _ _ s id Hro Hga) as (_ & _ & Hbd); [lia|lia|]. fold depGas in Hbd.
  pose proof (so_gas_left _ (oi_sm _ _ _ _ _ Hinv)) as Hgl. destruct ((_ <? _) || _) eqn:Ec.
  - destruct (Invalidate_spec g id h Hlk Hgid) as (y & _ & _ & [Hlen Hk] & _). split; [done|]. split; [|split].
    + eapply opt_update; [done|exact Hinv|exact Hg|done| |by eapply group_at_Invalidate|done].
      intros j Hj. by apply (Invalidate_other g).
    + apply (Invalidate_total g); [done|done|apply Hlive].
    + rewrite Hk. case_decide; apply Hlive.
  - destruct (Trim_spec g (selGasLimit sm ⊟ depGas) (limit - depLen) bf id h Hlk Hgid) as (k & Htr & Hprog).
    split; [apply Htr|]. split; [|split].
    + eapply opt_update; [done|exact Hinv|exact Hg|apply Htr| |by eapply group_at_Trim|done].
      intros j Hj. by eapply trimmed_other.
    + apply (trimmed_total _ _ _ _ _ Htr Hgid Hlk). apply Hprog; [apply Hlive|]. unfold trim_more. rewrite (lv_gas _ Hlive).
      assert (Hw : selGasLimit sm ⊟ depGas = selGasLimit sm - depGas).
      { unfold i64_sub. apply wrap64_id. unfold in_i64, BlockGasLimit in *. lia. }
      rewrite Hw, !orb_true_iff, Z.ltb_lt, Z.leb_le. unfold depLen in *. lia.
    + destruct Htr as [_ _ _ _ Hmg _ _ _ _ _]. rewrite Hmg. apply Hlive.
Qed.

Lemma tryDeps_spec full G sm0 h sm g s e id bf :
  groups_ok owner G -> opt_inv full G sm0 h sm -> g ∈ G ->
  group_at true h (sel_of owner (g_owner g) sm) g s e -> (full = true -> e = (g_base g + g_len g)%nat) ->
  (s ≤ id < e)%nat ->
  let '(b, h', sm') := tryToAddWithDeps id bf h sm in
  length h' = length h ∧
  if b then opt_inv full G sm0 h' sm' ∧ (total_messages h' ≤ total_messages h)%nat
  else sm' = sm ∧ opt_inv false G sm0 h' sm ∧ (total_messages h' < total_messages h)%nat ∧ merged (h' !!! id) = false.
Proof.
  intros HG Hinv Hg Hga Hfull Hid. pose proof (ga_range _ _ _ _ _ _ Hga) as Hr. pose proof (proj1 HG g Hg) as Hro.
  assert (Hgid : in_group g id) by (unfold in_group; lia). pose proof (ga_linked _ _ _ _ _ _ Hga) as Hlk.
  destruct (proj2 Hlk id Hgid) as (Hty & _ & _). pose proof (oi_sm _ _ _ _ _ Hinv) as Hsm. pose proof (so_gas_left _ Hsm) as Hgl.
  destruct (deps_totals G h sm g s e id HG Hg Hga Hid) as (Horder & Hdg & Hcg & Hdl & Hcl). cbv zeta in *.
  destruct (seg_ok _ _ _ _ _ _ _ s (S id) Hro Hga) as (Htypes & _ & Hb); [lia|lia|].
  destruct (seg_ok _ _ _ _ _ _ _ s id Hro Hga) as (_ & _ & Hbd); [lia|lia|].
  destruct (ga_live _ _ _ _ _ _ Hga id Hid) as [Hlive _].
  assert (Hseg : seg_msgs h s (S id) = seg_msgs h s id ++ chMsgs (h !!! id)) by (by rewrite (seg_split h s id), seg_one by lia).
  unfold tryToAddWithDeps. assert (Hkind : kind_limit (h !!! id) sm = Some (type_limit (g_type g) sm)).
  { unfold kind_limit, type_limit. rewrite Hty. by destruct (ro_known _ _ Hro) as [->| ->]; case_decide. }
  rewrite Hkind, Hdg, Hcg, Hdl, Hcl, Horder.
  set (limit := Z.min (type_limit (g_type g) sm) (BlockMessageLimit - selLen sm)).
  destruct ((selGasLimit sm <? gas_of (seg_msgs h s (S id))) || (limit <? Z.of_nat (length (seg_msgs h s (S id))))) eqn:Ec.
  - apply orb_true_iff in Ec. rewrite !Z.ltb_lt in Ec.
    pose proof (merge_failure full G sm0 h sm g s e id bf limit HG Hinv Hg Hga Hid Ec) as H. cbv zeta in H.
    destruct ((selGasLimit sm <? _) || _); by destruct H as (? & ? & ? & ?).
  - apply orb_false_iff in Ec as [Hgas Hcnt]. apply Z.ltb_ge in Hgas, Hcnt. fold (seg_msgs h s (S id)).
    assert (Hw : selGasLimit sm ⊟ gas_of (seg_msgs h s (S id)) = selGasLimit sm - gas_of (seg_msgs h s (S id))).
    { unfold i64_sub. apply wrap64_id. unfold in_i64, BlockGasLimit in *. lia. }
    rewrite Hw, Hty. assert (Hg' : sm_ok (grown sm (g_type g) (seg_msgs h s (S id)))).
    { apply grown_ok; try done; [apply Hro|lia|lia]. }
    destruct (merge_success full G sm0 h sm g s e id HG Hinv Hg Hga Hfull Hid Hg') as (H1 & H2 & H3).
    split; [done|]. split; [|done]. unfold grown in H2.
    destruct (ro_known _ _ Hro) as [Ht|Ht]; rewrite Ht in H2 |- *; repeat case_decide; done.
Qed.

(** ** Performances *)

(** [h'] differs from [h] in performances only. *)
Definition same_store (h h' : list msgChain) : Prop := length h' = length h ∧ ∀ id, same_cell (h !!! id) (h' !!! id).

#[local] Instance same_store_po : PreOrder same_store.
Proof.
  split; [split; [done|intros; apply same_cell_refl]|]. intros a b c [H1 H2] [H3 H4]. split; [congruence|].
  intros id. destruct (H2 id) as [? ?], (H4 id) as [? ?]. split; [by etrans|congruence].
Qed.

Lemma same_store_insert h c mc : same_cell (h !!! c) mc -> same_store h (<[c := mc]> h).
Proof.
  intros Hm. split; [apply length_insert|]. intros id. destruct (decide (c < length h)%nat) as [Hc|Hc].
  - rewrite insert_total by done. case_decide as He; [by subst|apply same_cell_refl].
  - rewrite list_insert_ge by lia. apply same_cell_refl.
Qed.

Lemma same_store_alter h c f : (∀ mc, same_cell mc (f mc)) -> same_store h (alter f c h).
Proof.
  intros Hf. split; [apply length_alter|]. intros id. rewrite list_lookup_total_alter.
  case_decide as Hc; [destruct Hc as [<- _]; apply Hf|apply same_cell_refl].
Qed.

Lemma same_store_foldl {A} (f : list msgChain → A → list msgChain) l :
  (∀ h x, same_store h (f h x)) -> ∀ h, same_store h (foldl f h l).
Proof. intros Hf. induction l as [|x l IH]; intros h; simpl; [done|]. etrans; [apply Hf|apply IH]. Qed.

Lemma set_perfs_same blockProb parts rest h : same_store h (set_perfs blockProb parts rest h).
Proof.
  unfold set_perfs. match goal with |- same_store _ (foldl _ ?h1 rest) => transitivity h1 end; apply same_store_foldl.
  - intros h1 [p chains]. apply same_store_foldl. intros h2 c. apply same_store_insert. unfold SetEffectivePerf.
    destruct (setEffPerf_links h2 ((h2 !!! c) {{ bp := p }})) as [H1 H2]. split; [|done]. etrans; [|exact H1]. by repeat split.
  - intros h1 c. apply same_store_alter. intros mc. by repeat split.
Qed.

Lemma adjust_rest_same fuel : ∀ h id, same_store h (adjust_rest fuel h id).
Proof.
  induction fuel as [|fuel IH]; intros h [c|]; simpl; try done. destruct (f_lt _ _); [|done].
  etrans; [|apply IH]. apply same_store_insert. apply setEffPerf_links.
Qed.

Lemma adjust_next_same h id : same_store h (adjust_next h id).
Proof.
  unfold adjust_next. destruct (next (h !!! id)) as [c|]; [|done]. destruct (f_lt _ _); [|done].
  etrans; [|apply adjust_rest_same]. apply same_store_alter. intros mc. by repeat split.
Qed.

(** ** The loops *)

Definition cover (G : list group) (chains : list nat) : Prop := ∀ id, id ∈ chains -> ∃ g, g ∈ G ∧ in_group g id.

(** A chain that has not been merged nor dropped is live. *)
Lemma find_live full G sm0 h sm id :
  opt_inv full G sm0 h sm -> (∃ g, g ∈ G ∧ in_group g id) -> merged (h !!! id) = false ->
  full = true ∨ valid (h !!! id) = true ->
  ∃ g s e, g ∈ G ∧ group_at true h (sel_of owner (g_owner g) sm) g s e ∧
    (full = true -> e = (g_base g + g_len g)%nat) ∧ (s ≤ id < e)%nat.
Proof.
  intros [_ Hgr _] (g & Hg & Hid) Hm Hv. destruct (Hgr g Hg) as (s & e & Hga & Hfull). exists g, s, e. do 3 (split; [done|]).
  destruct (decide (id < s)%nat) as [Hs|Hs]; [rewrite (ga_merged _ _ _ _ _ _ Hga) in Hm; done|].
  destruct (decide (id < e)%nat) as [He|He]; [lia|]. exfalso. destruct Hv as [Hf|Hv].
  - rewrite Hfull in He by done. unfold in_group in Hid. lia.
  - rewrite (ga_dead _ _ _ _ _ _ Hga) in Hv; [done|lia|done].
Qed.

Context {rt : GoRuntime} {rt_laws : GoRuntimeLaws}.

Lemma stable_elem (less : list nat → nat → nat → bool) k l :
  sort_SliceStable less k l ≡ₚ l.
Proof.
  destruct (sort_SliceStable_perm less k l) as [H1 H2].
  rewrite <- (take_drop k (sort_SliceStable less k l)), H1, H2. by rewrite take_drop.
Qed.

Lemma cover_perm G l l' : l' ≡ₚ l -> cover G l -> cover G l'.
Proof. intros Hp Hc id. rewrite Hp. apply Hc. Qed.

Lemma merge_deps_spec G sm0 bf n : ∀ i chains h sm last chains' h' sm',
  groups_ok owner G -> opt_inv true G sm0 h sm -> cover G chains -> (i + n = length chains)%nat ->
  merge_deps n i bf chains h sm = (last, chains', h', sm') ->
  opt_inv false G sm0 h' sm' ∧ cover G chains'.
Proof.
  induction n as [|n IH]; intros i chains h sm last chains' h' sm' HG Hinv Hcov Hn; simpl.
  { intros [= <- <- <- <-]. split; [by eapply opt_weaken|done]. }
  assert (Hc : cover G chains -> ∃ g, g ∈ G ∧ in_group g (chains !!! i)).
  { intros Hcv. apply Hcv, list_elem_of_lookup_total_2. lia. }
  specialize (Hc Hcov). destruct (negative _); [intros [= <- <- <- <-]; split; [by eapply opt_weaken|done]|].
  destruct (merged (h !!! (chains !!! i))) eqn:Em; [apply IH; [done|done|done|lia]|].
  destruct (find_live _ _ _ _ _ _ Hinv Hc Em ltac:(by left)) as (g & s & e & Hg & Hga & Hfull & Hid).
  pose proof (tryDeps_spec true G sm0 h sm g s e (chains !!! i) bf HG Hinv Hg Hga Hfull Hid) as H.
  destruct (tryToAddWithDeps _ _ _ _) as [[[] h1] sm1]; destruct H as [Hlen H].
  - destruct H as [Hinv1 _]. destruct (adjust_next_same h1 (chains !!! i)) as [Hl2 Hs2].
    destruct (opt_frame _ _ _ _ _ _ Hl2 Hs2 Hinv1) as [Hinv2 _]. apply IH; [done|done| |].
    + eapply cover_perm; [apply stable_elem|done].
    + rewrite stable_elem. lia.
  - destruct H as (-> & Hinv1 & _). by intros [= <- <- <- <-].
Qed.

Lemma trimChain_opt G sm0 h sm bf id :
  groups_ok owner G -> opt_inv false G sm0 h sm -> (∃ g, g ∈ G ∧ in_group g id) -> valid (h !!! id) = true ->
  opt_inv false G sm0 (trimChain id bf sm h) sm ∧ (total_messages (trimChain id bf sm h) ≤ total_messages h)%nat.
Proof.
  intros HG Hinv (g & Hg & Hid) Hv. unfold trimChain. set (ml := match kind_limit _ _ with Some _ => _ | None => _ end).
  destruct (_ || _); [|done]. destruct (oi_groups _ _ _ _ _ Hinv g Hg) as (s & e & Hga & _).
  pose proof (ga_linked _ _ _ _ _ _ Hga) as Hlk. destruct (Trim_spec g (selGasLimit sm) ml bf id h Hlk Hid) as (k & Htr & _).
  split; [|apply (trimmed_total _ _ _ _ _ Htr Hid Hlk)].
  assert (Hout : ∀ j, ~ in_group g j -> Trim (selGasLimit sm) ml bf id h !!! j = h !!! j) by (intros j Hj; by eapply trimmed_other).
  destruct (decide (id < s)%nat) as [Hs|Hs].
  - destruct (group_at_Trim_before _ _ _ _ _ _ _ _ _ Hga Hid Hs Htr) as [e' Hga'].
    by eapply opt_update; [done|exact Hinv|exact Hg|apply Htr|exact Hout|exact Hga'|].
  - destruct (decide (id < e)%nat) as [He|He]; [|rewrite (ga_dead _ _ _ _ _ _ Hga) in Hv by (done || lia); done].
    eapply opt_update; [done|exact Hinv|exact Hg|apply Htr|exact Hout| |done].
    eapply group_at_Trim; [exact (proj1 HG g Hg)|exact Hga| |exact Htr]; lia.
Qed.

Lemma deps_scan_spec G sm0 bf chains : ∀ h sm again h' sm',
  groups_ok owner G -> opt_inv false G sm0 h sm -> cover G chains ->
  deps_scan bf chains h sm = (again, h', sm') ->
  opt_inv false G sm0 h' sm' ∧ (total_messages h' ≤ total_messages h)%nat ∧
  (again = true -> (total_messages h' < total_messages h)%nat).
Proof.
  induction chains as [|c chains IH]; intros h sm again h' sm' HG Hinv Hcov; simpl; [by intros [= <- <- <-]|].
  assert (Hcov' : cover G chains) by (intros id Hid; apply Hcov; by right).
  destruct (valid (h !!! c)) eqn:Ev; simpl; [|by apply IH]. destruct (merged (h !!! c)) eqn:Em; [by apply IH|].
  destruct (negative _); [by intros [= <- <- <-]|].
  destruct (find_live _ _ _ _ _ _ Hinv (Hcov c ltac:(by left)) Em ltac:(by right)) as (g & s & e & Hg & Hga & Hfull & Hid).
  pose proof (tryDeps_spec false G sm0 h sm g s e c bf HG Hinv Hg Hga Hfull Hid) as H.
  destruct (tryToAddWithDeps _ _ _ _) as [[[] h1] sm1]; destruct H as [_ H].
  - destruct H as [Hinv1 Ht]. intros E. destruct (IH _ _ _ _ _ HG Hinv1 Hcov' E) as (H1 & H2 & H3).
    split; [done|]. split; [lia|]. intros Ha. specialize (H3 Ha). lia.
  - destruct H as (-> & Hinv1 & Ht & _). intros [= <- <- <-]. split; [done|]. split; [lia|done].
Qed.

Lemma push_down_at_perm less last l : push_down_at less last l ≡ₚ l.
Proof.
  unfold push_down_at. destruct (drop last l) as [|c rest] eqn:E; [done|].
  rewrite push_down_perm, <- E. by rewrite take_drop.
Qed.

(** Every round moves on or drops a message. *)
Lemma deps_tail_spec G sm0 bf fuel : ∀ last chains h sm,
  groups_ok owner G -> opt_inv false G sm0 h sm -> cover G chains ->
  (total_messages h + (length chains - last) < fuel)%nat ->
  ∃ chains' h' sm', deps_tail fuel bf last chains h sm = Some (chains', h', sm') ∧
    opt_inv false G sm0 h' sm' ∧ cover G chains'.
Proof.
  induction fuel as [|fuel IH]; intros last chains h sm HG Hinv Hcov Hf; [lia|]. simpl.
  destruct (negb _ || _) eqn:Ex; [by exists chains, h, sm|]. apply orb_false_iff in Ex as [_ Hlast]. apply Nat.leb_gt in Hlast.
  destruct (valid (h !!! (chains !!! last))) eqn:Ev; simpl; [|apply IH; [done|done|done|lia]].
  assert (Hin : chains !!! last ∈ chains) by (apply list_elem_of_lookup_total_2; lia).
  destruct (trimChain_opt G sm0 h sm bf _ HG Hinv (Hcov _ Hin) Ev) as [Hinv1 Ht1].
  set (h1 := trimChain _ _ _ _) in *. set (chains1 := if valid _ then _ else _).
  assert (Hp : chains1 ≡ₚ chains) by (unfold chains1; case_match; [apply push_down_at_perm|done]).
  pose proof (cover_perm G chains chains1 Hp Hcov) as Hcov1. clearbody chains1 h1.
  destruct (deps_scan bf (drop last chains1) h1 sm) as [[again h2] sm2] eqn:E.
  assert (Hcov2 : cover G (drop last chains1)).
  { intros id Hid. apply Hcov1. rewrite <- (take_drop last chains1). apply elem_of_app. by right. }
  destruct (deps_scan_spec _ _ _ _ _ _ _ _ _ HG Hinv1 Hcov2 E) as (Hinv2 & Ht2 & Hag).
  destruct again; [|by exists chains1, h2, sm2]. apply IH; [done|done|done|]. rewrite Hp. specialize (Hag eq_refl). lia.
Qed.

Lemma random_fill_spec G sm0 bf chains : ∀ h sm,
  groups_ok owner G -> opt_inv false G sm0 h sm -> cover G chains ->
  final_ok owner G sm0 (random_fill bf chains h sm).
Proof.
  induction chains as [|c chains IH]; intros h sm HG Hinv Hcov; simpl; [by eapply opt_final|].
  assert (Hcov' : cover G chains) by (intros id Hid; apply Hcov; by right).
  destruct (_ || _); [by eapply opt_final|]. destruct (merged _ || _) eqn:Em; [by apply IH|].
  apply orb_false_iff in Em as [Em Ev]. apply negb_false_iff in Ev. destruct (negative _); [by apply IH|].
  destruct (find_live _ _ _ _ _ _ Hinv (Hcov c ltac:(by left)) Em ltac:(by right)) as (g & s & e & Hg & Hga & Hfull & Hid).
  pose proof (tryDeps_spec false G sm0 h sm g s e c bf HG Hinv Hg Hga Hfull Hid) as H.
  destruct (tryToAddWithDeps c bf h sm) as [[[] h1] sm1]; destruct H as [_ H]; [by apply IH; [|apply H|]|].
  destruct H as (-> & Hinv1 & _ & Em1). destruct (valid (h1 !!! c)) eqn:Ev1; [|by apply IH].
  destruct (find_live _ _ _ _ _ _ Hinv1 (Hcov c ltac:(by left)) Em1 ltac:(by right)) as (g' & s' & e' & Hg' & Hga' & Hfull' & Hid').
  pose proof (tryDeps_spec false G sm0 h1 sm g' s' e' c bf HG Hinv1 Hg' Hga' Hfull' Hid') as H2.
  destruct (tryToAddWithDeps c bf h1 sm) as [[[] h2] sm2]; destruct H2 as [_ H2]; [by apply IH; [|apply H2|]|].
  destruct H2 as (-> & Hinv2 & _). by apply IH.
Qed.

Lemma swap_elem i j l : (i < length l)%nat -> (j < length l)%nat -> length (swap i j l) = length l ∧ ∀ x, x ∈ swap i j l -> x ∈ l.
Proof.
  intros Hi Hj. unfold swap. split; [by rewrite !length_insert|]. intros x Hx.
  apply list_elem_of_lookup in Hx as [k Hk]. apply list_lookup_insert_Some in Hk as [(_ & <- & _)|[_ Hk]];
    [by apply list_elem_of_lookup_total_2|].
  apply list_lookup_insert_Some in Hk as [(_ & <- & _)|[_ Hk]]; [by apply list_elem_of_lookup_total_2|].
  by eapply list_elem_of_lookup_2.
Qed.

Lemma shuffle_elem l x : x ∈ shuffleChains l -> x ∈ l.
Proof.
  unfold shuffleChains. assert (Hgen : ∀ ks l', Forall (fun i => i < length l)%nat ks -> length l' = length l ->
    (∀ y, y ∈ l' -> y ∈ l) -> x ∈ foldl (fun l i => swap i (rand_Intn i (S i)) l) l' ks -> x ∈ l).
  { induction ks as [|i ks IH]; intros l' His Hlen Hsub; simpl; [apply Hsub|]. apply Forall_cons in His as [Hi His].
    pose proof (rand_Intn_bound i (S i) ltac:(lia)) as Hr.
    destruct (swap_elem i (rand_Intn i (S i)) l') as [H1 H2]; [lia|lia|]. apply IH; [done|congruence|auto]. }
  apply Hgen; [|done|done]. apply Forall_forall. intros i Hi. apply elem_of_seq in Hi. lia.
Qed.

(** Packing fresh chains ends and gives a good block. *)
Lemma pack_optimal_spec G chains h sm probs bf :
  built owner G chains h -> sm_ok sm -> (∀ g, g ∈ G -> sel_of owner (g_owner g) sm = []) ->
  ∃ sm', pack_optimal probs bf chains h sm = Some sm' ∧ final_ok owner G sm sm'.
Proof.
  intros Hb Hsm Hsel. pose proof (final_refl owner G sm Hsm Hsel) as Hrefl. pose proof (bt_groups _ _ _ _ Hb) as HG.
  assert (Hcov : cover G chains) by (intros id; by eapply built_cover).
  assert (Hinv : opt_inv true G sm h sm).
  { split; [done| |done]. intros g Hg. exists (g_base g), (g_base g + g_len g)%nat. rewrite Hsel by done.
    split; [|done]. apply fresh_group_at. by apply (bt_fresh _ _ _ _ Hb). }
  unfold pack_optimal. set (sorted := sort_Slice _ chains).
  assert (Hcov1 : cover G sorted) by (eapply cover_perm; [apply sort_Slice_perm|done]). clearbody sorted.
  destruct (match sorted with _ :: _ => _ | [] => _ end); [by exists sm|].
  destruct (partition _ _ _) as [parts rest]. destruct (set_perfs_same probs parts rest h) as [Hl1 Hs1].
  destruct (opt_frame _ _ _ _ _ _ Hl1 Hs1 Hinv) as [Hinv1 _]. set (h1 := set_perfs _ _ _ _) in *.
  set (sorted1 := sort_Slice _ sorted). assert (Hcov2 : cover G sorted1) by (eapply cover_perm; [apply sort_Slice_perm|done]).
  clearbody h1 sorted1. destruct (merge_deps _ _ _ _ _ _) as [[[last chains2] h2] sm2] eqn:E.
  destruct (merge_deps_spec G sm bf (length sorted1) 0 _ _ _ _ _ _ _ HG Hinv1 Hcov2 eq_refl E) as [Hinv2 Hcov3].
  destruct (deps_tail_spec G sm bf (S (total_messages h2 + length chains2)) last chains2 h2 sm2 HG Hinv2 Hcov3)
    as (chains3 & h3 & sm3 & Et & Hinv3 & Hcov4); [lia|].
  rewrite Et. cbn [mbind option_bind]. destruct (_ && _); [|exists sm3; split; [done|by eapply opt_final]].
  eexists. split; [done|]. apply random_fill_spec; [done|done|]. intros id Hid. by apply Hcov4, shuffle_elem.
Qed.
End Optimal.
