(* ===== verification/SelectTheorems.v ===== *)
(** Theorems of message selection: the chains of an actor are in order and
    consistent, and a selected block respects the limits of a block and takes, for
    every actor, messages it can send one after the other. *)

From Stdlib Require Import SpecFloat.
From S2P Require Import Prelude Gas Types Tipset ChainIndex MsgSet MessagePool PoolProps MsgChains MsgSelect.
From S2P Require Import ChainProps SelectProps OptimalProps.
Import Gas.Prices.

(** An account is the same under its key. *)
Class KeyLaw (api : Provider) := {
  key_actor a k ts ts' : StateAccountKeyAtFinality api a ts' = Some k ->
    GetActorAfter api k ts = GetActorAfter api a ts;
}.

Section Selection.
Variable api : Provider.
Context {rt : GoRuntime} {rt_laws : GoRuntimeLaws} {laws : ProviderLaws api} {key_law : KeyLaw api}.
Variable owner : SignedMessage → address.

(** What the state of [a] at [ts] allows [a] to have in a block. *)
Definition allowed (ts : TipSet) (a : address) (l : list SignedMessage) : Prop :=
  match GetActorAfter api a ts with
  | Some act => valid_run api ts (Types.Nonce act) (Types.Balance act) 0 l
  | None => l = []
  end.

Definition in_pending (pending : pending_map) (m : SignedMessage) : Prop :=
  ∃ s n, pending !! owner m = Some s ∧ s !! n = Some m.

Definition pending_ok (pending : pending_map) : Prop := ∀ a s, pending !! a = Some s -> mset_ok owner a s.

(** A block made of [pending]. *)
Record block_ok (ts : TipSet) (pending : pending_map) (msgs : list SignedMessage) : Prop := mkBlockOk {
  bk_gas : gas_of msgs ≤ BlockGasLimit;
  bk_count : Z.of_nat (length msgs) ≤ BlockMessageLimit;
  bk_bls : count_type SigTypeBLS msgs ≤ MaxLength;
  bk_secp : count_type SigTypeSecp256k1 msgs ≤ MaxLength;
  bk_pending : Forall (in_pending pending) msgs;
  bk_actors a : allowed ts a (filter (fun m => owner m = a) msgs);
}.

(** The groups of [G] come from [pending]. *)
Definition made_of (ts : TipSet) (pending : pending_map) (G : list group) : Prop :=
  ∀ g, g ∈ G -> allowed ts (g_owner g) (g_run g) ∧ Forall (fun m => in_pending pending m ∧ msg_ok m) (g_run g).

Lemma allowed_prefix ts a l l' :
  Forall msg_ok l -> l' `prefix_of` l -> allowed ts a l -> allowed ts a l'.
Proof.
  intros Hok [k ->]. unfold allowed. destruct (GetActorAfter api a ts).
  - apply valid_run_prefix. by apply Forall_app in Hok as [_ ?].
  - intros [-> _]%app_eq_nil. done.
Qed.

Lemma allowed_nil ts a : allowed ts a [].
Proof. unfold allowed. destruct (GetActorAfter api a ts); [|done]. split; [done|constructor|by vm_compute|done]. Qed.

(** The selection so far: within the limits, and of every actor what it can send. *)
Definition good (ts : TipSet) (pending : pending_map) (sm : selectedMessages) : Prop :=
  sm_ok sm ∧ ∀ a, allowed ts a (sel_of owner a sm) ∧ Forall (in_pending pending) (sel_of owner a sm).

Lemma good_empty ts pending : good ts pending emptySelection.
Proof. split; [apply sm_ok_empty|]. intros a. split; [apply allowed_nil|constructor]. Qed.

Lemma good_block ts pending sm : good ts pending sm -> block_ok ts pending (selMsgs sm).
Proof.
  intros [[] Hg]. split; [lia|done|lia|lia| |intros a; apply Hg].
  apply Forall_forall. intros m Hm. destruct (Hg (owner m)) as [_ Hf]. rewrite Forall_forall in Hf. apply Hf.
  by apply list_elem_of_filter.
Qed.

Lemma good_final ts pending G sm0 sm :
  made_of ts pending G -> good ts pending sm0 -> final_ok owner G sm0 sm -> good ts pending sm.
Proof.
  intros HG [_ Hg0] [Hsm Hpre Hoth]. split; [done|]. intros a.
  destruct (decide (Exists (fun g => g_owner g = a) G)) as [He|Hn].
  - apply Exists_exists in He as (g & Hg & <-). destruct (HG g Hg) as [Hal Hf]. specialize (Hpre g Hg).
    apply Forall_and in Hf as [Hp Hok]. split; [by eapply allowed_prefix|].
    destruct Hpre as [k Hk]. rewrite Hk in Hp. by apply Forall_app in Hp as [? _].
  - rewrite Hoth; [apply Hg0|]. intros g Hg Ha. apply Hn, Exists_exists. by exists g.
Qed.

(** ** Creation *)

Lemma made_of_group ts pending mset actor g :
  pending !! g_owner g = Some mset -> GetActorAfter api (g_owner g) ts = GetActorAfter api actor ts ->
  run_ok owner g -> run_for api ts actor g -> Forall (fun m => ∃ n, mset !! n = Some m) (g_run g) ->
  allowed ts (g_owner g) (g_run g) ∧ Forall (fun m => in_pending pending m ∧ msg_ok m) (g_run g).
Proof.
  intros Hp Hact [Ht _ _ Ho] Hrun Hin. split; [unfold allowed; by rewrite Hact|].
  apply Forall_forall. intros m Hm. rewrite Forall_forall in Ht, Ho, Hin. destruct (Hin m Hm) as [n Hn].
  split; [|apply (Ht m Hm)]. exists mset, n. by rewrite (Ho m Hm).
Qed.

Lemma made_of_add ts pending G g :
  made_of ts pending G ->
  allowed ts (g_owner g) (g_run g) ∧ Forall (fun m => in_pending pending m ∧ msg_ok m) (g_run g) ->
  made_of ts pending (G ++ [g]).
Proof. intros HG Hg g'. rewrite elem_of_app, list_elem_of_singleton. intros [?| ->]; auto. Qed.

Lemma owners_app G g a : a ∈ g_owner <$> G ++ [g] ↔ a ∈ g_owner <$> G ∨ a = g_owner g.
Proof. rewrite fmap_app, elem_of_app. change (g_owner <$> [g]) with [g_owner g]. by rewrite list_elem_of_singleton. Qed.

Lemma create_in ts pending baseFee actor a mset h G chains :
  mset_ok owner a mset -> pending !! a = Some mset -> GetActorAfter api a ts = GetActorAfter api actor ts ->
  built owner G chains h -> made_of ts pending G -> a ∉ g_owner <$> G ->
  ∃ g next h', createMessageChains api actor mset baseFee ts h = (next, h') ∧ g_owner g = a ∧
    built owner (G ++ [g]) (chains ++ next) h' ∧ made_of ts pending (G ++ [g]).
Proof.
  intros Hm Hp Hact Hb HG Hnew.
  destruct (createMessageChains_spec api owner (fun a ts act => state_nonce a ts act) ts baseFee actor a mset h Hm)
    as (g & cs & E & Hf & Hro & Ho & Hbase & _ & Hrun & Hin).
  exists g, (seq (g_base g) (g_len g)), (h ++ cs). split; [done|]. split; [done|]. split.
  - apply built_add; try done. intros g' Hg' He. apply Hnew. rewrite <- Ho, <- He. by apply list_elem_of_fmap_2.
  - apply made_of_add; [done|]. subst a. by eapply made_of_group.
Qed.

Lemma all_chains_spec ts pending baseFee actors : ∀ G chains h chains' h',
  pending_ok pending -> built owner G chains h -> made_of ts pending G ->
  NoDup actors -> (∀ a, a ∈ actors -> is_Some (pending !! a) ∧ a ∉ g_owner <$> G) ->
  all_chains api actors pending baseFee ts chains h = (chains', h') ->
  ∃ G', built owner G' chains' h' ∧ made_of ts pending G' ∧ (∀ a, a ∈ g_owner <$> G' -> a ∈ g_owner <$> G ∨ a ∈ actors).
Proof.
  induction actors as [|a actors IH]; intros G chains h chains' h' Hpok Hb HG Hnd Hact; simpl.
  { intros [= <- <-]. exists G. auto. }
  apply NoDup_cons in Hnd as [Hna Hnd]. destruct (Hact a) as [[mset Hp] Hnew]; [by left|]. rewrite Hp. simpl.
  destruct (create_in ts pending baseFee a a mset h G chains) as (g & next & h1 & E & Ho & Hb1 & HG1); [by apply Hpok|done..|].
  rewrite E. intros Eall. destruct (IH (G ++ [g]) _ _ chains' h' Hpok Hb1 HG1 Hnd) as (G' & Hb' & HG' & Hown); [|done|].
  - intros b Hin. destruct (Hact b) as [Hs Hn]; [by right|]. split; [done|]. rewrite owners_app, Ho. intros [?| ->]; done.
  - exists G'. split; [done|]. split; [done|]. intros b Hb'1. apply Hown in Hb'1 as [H|H]; [|right; by right].
    rewrite owners_app, Ho in H. destruct H as [?| ->]; [by left|right; by left].
Qed.

(** The actors of the groups have no messages left in [rest]. *)
Lemma priority_chains_spec ts pending baseFee priority : ∀ rest G chains h mp ok chains' h' rest' mp',
  pending_ok pending -> cache_ok api (keyCache mp) -> built owner G chains h -> made_of ts pending G ->
  rest ⊆ pending -> (∀ a, a ∈ g_owner <$> G -> rest !! a = None) ->
  priority_chains api priority baseFee ts rest chains h mp = (ok, chains', h', rest', mp') ->
  ∃ G', built owner G' chains' h' ∧ made_of ts pending G' ∧ rest' ⊆ pending ∧ ∀ a, a ∈ g_owner <$> G' -> rest' !! a = None.
Proof.
  induction priority as [|actor priority IH]; intros rest G chains h mp ok chains' h' rest' mp' Hpok Hc Hb HG Hsub Hdone; simpl.
  { intros [= <- <- <- <- <-]. by exists G. }
  destruct (resolveToKey_spec api actor mp Hc) as (mp1 & H2 & Hc1 & _ & H1).
  destruct (resolveToKey api actor mp) as [[pk|] mp2]; simpl in *; subst mp2; [|intros [= <- <- <- <- <-]; by exists G].
  destruct (rest !! pk) as [mset|] eqn:Em; [|by apply (IH rest G)]. pose proof (lookup_weaken _ _ _ _ Em Hsub) as Hp.
  destruct (Hc1 actor pk (eq_sym H1)) as [ts' Hkey].
  destruct (create_in ts pending baseFee actor pk mset h G chains) as (g & next & h1 & E & Ho & Hb1 & HG1);
    [by apply Hpok|done|by eapply key_actor|done|done|intros Hin; by rewrite Hdone in Em|].
  rewrite E. apply (IH (delete pk rest) (G ++ [g])); [done|done|done|done| |].
  - etrans; [apply delete_subseteq|done].
  - intros a. rewrite owners_app, Ho. intros [Ha| ->]; [|by rewrite lookup_delete_eq].
    rewrite lookup_delete_None. right. auto.
Qed.

(** ** The two selections *)

Lemma sel_of_empty a : sel_of owner a emptySelection = [].
Proof. done. Qed.

Lemma selectPriorityMessages_spec ts pending baseFee priority mp :
  pending_ok pending -> cache_ok api (keyCache mp) ->
  ∃ sm rest mp', selectPriorityMessages api priority pending baseFee ts mp = (Some sm, rest, mp') ∧
    good ts pending sm ∧ rest ⊆ pending ∧ ∀ a, is_Some (rest !! a) -> sel_of owner a sm = [].
Proof.
  intros Hpok Hc. unfold selectPriorityMessages.
  destruct (priority_chains _ _ _ _ _ _ _ _) as [[[[ok chains] h] rest] mp'] eqn:E.
  destruct (priority_chains_spec ts pending baseFee priority pending [] [] [] mp ok chains h rest mp' Hpok Hc)
    as (G & Hb & HG & Hsub & Hdone); [apply built_nil|intros g []%elem_of_nil|done|intros a []%elem_of_nil|done|].
  destruct ok; [|exists emptySelection, rest, mp'; split; [done|]; split; [apply good_empty|done]].
  destruct (pack_spec owner G chains h emptySelection baseFee Hb sm_ok_empty) as (sm & -> & Hfin); [done|].
  exists sm, rest, mp'. split; [done|]. split; [eapply good_final; [done|apply good_empty|done]|]. split; [done|].
  intros a [s Hs]. rewrite (fo_others _ _ _ _ Hfin); [done|]. intros g Hg <-.
  rewrite (Hdone (g_owner g)) in Hs; [done|]. by apply list_elem_of_fmap_2.
Qed.

(** What packing the chains of all the remaining actors needs to do. *)
Definition packs (k : Z → list nat → list msgChain → selectedMessages → option selectedMessages) : Prop :=
  ∀ G chains h sm bf, built owner G chains h -> sm_ok sm -> (∀ g, g ∈ G -> sel_of owner (g_owner g) sm = []) ->
    ∃ sm', k bf chains h sm = Some sm' ∧ final_ok owner G sm sm'.

Lemma pending_ok_sub rest pending : rest ⊆ pending -> pending_ok pending -> pending_ok rest.
Proof. intros Hsub Hok a s Hs. apply Hok. by eapply lookup_weaken. Qed.

Lemma made_of_sub ts rest pending G : rest ⊆ pending -> made_of ts rest G -> made_of ts pending G.
Proof.
  intros Hsub HG g Hg. destruct (HG g Hg) as [Ha Hf]. split; [done|]. eapply Forall_impl; [exact Hf|].
  intros m [(s & n & Hs & Hn) Hok]. split; [|done]. exists s, n. split; [by eapply lookup_weaken|done].
Qed.

Lemma pack_rest_spec k ts pending rest baseFee sm :
  packs k -> pending_ok pending -> rest ⊆ pending -> good ts pending sm ->
  (∀ a, is_Some (rest !! a) -> sel_of owner a sm = []) ->
  ∃ sm', (let '(chains, h) := all_chains api (range_keys rest) rest baseFee ts [] [] in k baseFee chains h sm) = Some sm' ∧
    good ts pending sm'.
Proof.
  intros Hk Hpok Hsub Hgood Hsel. destruct (all_chains _ _ _ _ _ _ _) as [chains h] eqn:E.
  assert (Hkeys : ∀ a, a ∈ range_keys rest -> is_Some (rest !! a)).
  { intros a. rewrite range_keys_perm, list_elem_of_fmap. intros ([a' s] & -> & H). apply elem_of_map_to_list in H. by eexists. }
  destruct (all_chains_spec ts rest baseFee (range_keys rest) [] [] [] chains h) as (G & Hb & HG & Hown);
    [by eapply pending_ok_sub|apply built_nil|intros g []%elem_of_nil| | |done|].
  - rewrite range_keys_perm. apply NoDup_fst_map_to_list.
  - intros a Ha. split; [auto|]. apply not_elem_of_nil.
  - destruct (Hk G chains h sm baseFee Hb (proj1 Hgood)) as (sm' & -> & Hfin).
    + intros g Hg. destruct (Hown (g_owner g)) as [[]%elem_of_nil|H]; [by apply list_elem_of_fmap_2|auto].
    + exists sm'. split; [done|]. eapply good_final; [|done|done]. by eapply made_of_sub.
Qed.

Lemma with_pending_spec full fuel priority ts mp baseFee pending k :
  packs k -> cache_ok api (keyCache mp) -> ChainComputeBaseFee api ts = Some baseFee ->
  getPendingMessages api fuel mp ts = Some pending -> pending_ok pending ->
  match (with_pending api full fuel priority ts mp (fun bf rest sm =>
           let '(chains, h) := all_chains api (range_keys rest) rest bf ts [] [] in k bf chains h sm)).1 with
  | Err _ => False
  | Ok None => pending = ∅
  | Ok (Some sm) => pending ≠ ∅ ∧ good ts pending sm
  end.
Proof.
  intros Hk Hc Hbf Hp Hpok. unfold with_pending. rewrite Hbf, Hp. case_bool_decide as Hem; [done|].
  destruct (selectPriorityMessages_spec ts pending baseFee priority mp Hpok Hc) as (sm & rest & mp' & -> & Hg & Hsub & Hsel).
  destruct (full sm); [done|].
  destruct (pack_rest_spec k ts pending rest baseFee sm Hk Hpok Hsub Hg Hsel) as (sm' & E & Hg'). by rewrite E.
Qed.
End Selection.

Lemma packs_greedy {rt : GoRuntime} {rt_laws : GoRuntimeLaws} owner : packs owner pack.
Proof. intros G chains h sm bf. apply pack_spec. Qed.

Lemma packs_optimal {rt : GoRuntime} {rt_laws : GoRuntimeLaws} owner probs : packs owner (pack_optimal probs).
Proof. intros G chains h sm bf Hb Hsm Hsel. by apply pack_optimal_spec. Qed.

(** C6: Block selection is safe, for the greedy and the optimal strategy alike.
    When the base fee and the pending messages can be had, [SelectMessages]
    returns (its loops end and no error arises): nothing exactly when nothing is
    pending, and otherwise a block within the gas limit, the message limit and the
    limits of each signature type, made of pending messages only, in which the
    messages of every actor follow each other from its nonce in the state, offer
    the minimum gas and can be paid from its balance.  The pending messages are such
    as the pool admits: those of an actor are its own, stored under their nonces and of
    one signature type. *)
Theorem SelectMessages_sound (api : Provider) {rt : GoRuntime} {rt_laws : GoRuntimeLaws} {laws : ProviderLaws api}
    {key_law : KeyLaw api} (owner : SignedMessage → address) probs fuel priority ts tq mp baseFee pending :
  cache_ok api (keyCache mp) -> ChainComputeBaseFee api ts = Some baseFee ->
  getPendingMessages api fuel mp ts = Some pending -> pending_ok owner pending ->
  match (SelectMessages api probs fuel priority ts tq mp).1 with
  | Err _ => False
  | Ok None => pending = ∅
  | Ok (Some msgs) => pending ≠ ∅ ∧ block_ok api owner ts pending msgs
  end.
Proof.
  intros Hc Hbf Hp Hpok. unfold SelectMessages.
  assert (H : match (if f_lt (rat_Float64 84 100) tq then selectMessagesGreedy api fuel priority ts mp
      else selectMessagesOptimal api probs fuel priority ts tq mp).1 with
    | Err _ => False | Ok None => pending = ∅ | Ok (Some sm) => pending ≠ ∅ ∧ good api owner ts pending sm end).
  { destruct (f_lt _ _).
    - apply (with_pending_spec api owner _ _ _ _ _ baseFee _ pack); [apply packs_greedy|done..].
    - apply (with_pending_spec api owner _ _ _ _ _ baseFee _ (pack_optimal (probs tq))); [apply packs_optimal|done..]. }
  destruct (if f_lt _ _ then _ else _) as [[[sm|]|e] mp1]; simpl in *; [|done..]. destruct H as [Hne Hg].
  split; [done|]. pose proof (so_count _ (proj1 Hg)). destruct (Z.ltb_spec BlockMessageLimit (selLen sm)); [lia|].
  by apply good_block.
Qed.

(** ** Chains *)

Lemma link_chains_fmap {A} (f : msgChain → A) base cs :
  (∀ c n p, f (mkMsgChain (chMsgs c) (gasReward c) (chGasLimit c) (gasPerf c) (effPerf c) (bp c) (parentOffset c)
     (valid c) (merged c) n p (sigType c)) = f c) -> f <$> link_chains base cs = f <$> cs.
Proof.
  intros Hf. unfold link_chains. rewrite fmap_imap. rewrite <- (imap_const f). apply imap_ext. intros i c _. apply Hf.
Qed.

Lemma bind_fmap_eq {A B} (f : A → list B) l : ∀ l', f <$> l = f <$> l' -> l ≫= f = l' ≫= f.
Proof. induction l as [|x l IH]; intros [|y l'] [=]; simpl; [done|]. f_equal; auto. Qed.

Lemma sorted_fmap_eq {A B} (R : B → B → Prop) (f : A → B) l : ∀ l',
  f <$> l = f <$> l' -> StronglySorted (fun x y => R (f x) (f y)) l' -> StronglySorted (fun x y => R (f x) (f y)) l.
Proof.
  induction l as [|x l IH]; intros [|y l'] Hf Hs; [constructor|done..|]. apply StronglySorted_inv in Hs as [Hs Hy].
  rewrite !fmap_cons in Hf. injection Hf as Hx Hl.
  constructor; [by eapply IH|]. apply (Forall_fmap f (R (f x))). setoid_rewrite Hl. rewrite Hx. by apply Forall_fmap.
Qed.

(** The chains of an actor. Their messages are, in order, messages of the given
    set that the actor can send from its state one after the other; each chain has
    messages, and its gas limit, reward and performance are those of its messages;
    each chain performs strictly worse than the one before it, which is the one it
    is linked to; the chains created before are left alone. *)
Theorem createMessageChains_sound (api : Provider) {rt : GoRuntime} {rt_laws : GoRuntimeLaws}
    {laws : ProviderLaws api} owner ts baseFee actor a mset h :
  mset_ok owner a mset ->
  ∃ cs, createMessageChains api actor mset baseFee ts h = (seq (length h) (length cs), h ++ cs) ∧
    allowed api ts actor (cs ≫= chMsgs) ∧ Forall (fun m => ∃ n, mset !! n = Some m) (cs ≫= chMsgs) ∧
    StronglySorted (fun c d => f_lt (gasPerf d) (gasPerf c) = true) cs ∧
    ∀ i c, cs !! i = Some c ->
      chMsgs c ≠ [] ∧ chGasLimit c = gas_of (chMsgs c) ∧
      gasReward c = sumZ (fun m => getGasReward m baseFee) (chMsgs c) ∧
      gasPerf c = getGasPerf (gasReward c) (chGasLimit c) ∧ valid c = true ∧ merged c = false ∧
      prev c = (if decide (i = 0%nat) then None else Some (length h + pred i)%nat) ∧
      next c = (if decide (S i < length cs)%nat then Some (length h + S i)%nat else None).
Proof.
  intros (τ & Hτ & Hm). unfold allowed. destruct (GetActorAfter api actor ts) as [act|] eqn:Eact.
  2: { exists []. unfold createMessageChains. rewrite Eact, app_nil_r. do 3 (split; [done|]). split; [constructor|done]. }
  destruct (createMessageChains_chains api owner (fun a ts act => state_nonce a ts act) ts baseFee actor act a mset h τ Hτ Hm Eact)
    as (cs & E & Hok & Hsc & Hdec & Hin & Hrun).
  assert (Hlen : length (link_chains (length h) cs) = length cs) by apply length_imap.
  assert (Hmsgs : link_chains (length h) cs ≫= chMsgs = chains_msgs cs).
  { unfold chains_msgs. apply bind_fmap_eq. by apply link_chains_fmap. }
  exists (link_chains (length h) cs). rewrite Hlen, Hmsgs. do 3 (split; [done|]). split.
  - eapply (sorted_fmap_eq (fun x y => f_lt y x = true) gasPerf); [|exact Hdec]. by apply link_chains_fmap.
  - intros i c Hi. unfold link_chains in Hi. rewrite list_lookup_imap in Hi. apply fmap_Some in Hi as (c0 & Hc0 & ->).
    apply list_elem_of_lookup_2 in Hc0. rewrite Forall_forall in Hok, Hsc. destruct (Hok c0 Hc0), (Hsc c0 Hc0).
    simpl. do 6 (split; [done|]). split; [by destruct i|]. destruct (Nat.ltb_spec (S i) (length cs)); [by rewrite decide_True|].
    rewrite decide_False by lia. done.
Qed.

(** * An example *)

Module SelectExample.
Import PoolExample.

(** Insertion sort, the order of the maps, and no shuffling. *)
#[export] Instance runtime : GoRuntime := {
  sort_Slice _ less l := sort_by less l;
  sort_SliceStable _ _ _ l := l;
  range_values _ m := (map_to_list m).*2;
  range_keys _ m := (map_to_list m).*1;
  rand_Intn k n := pred n;
}.

#[export] Instance runtime_laws : GoRuntimeLaws.
Proof.
  split; intros; simpl; try done.
  - apply sort_by_perm.
  - destruct H as [H1 H2]. apply (sort_by_sorted less P); [done| |done]. intros x y z Hx Hy Hz. by apply H2.
  - lia.
Qed.

#[export] Instance key_law : KeyLaw api.
Proof. split. intros a k ts ts'. simpl. by intros [= <-]. Qed.

(** Of two messages of the actor with nonce 5. *)
Definition pending : pending_map := {[alice := {[5 := message 5; 6 := message 6]}]}.

Lemma message_of_type n : in_u64 n -> of_type SigTypeBLS (message n).
Proof. intros Hn. split; [|done]. split; [by vm_compute|done]. Qed.

Lemma alice_ok : mset_ok sm_From alice {[5 := message 5; 6 := message 6]}.
Proof.
  exists SigTypeBLS. split; [by left|]. intros n m. rewrite lookup_insert_Some, lookup_singleton_Some.
  intros [[<- <-]|[_ [<- <-]]]; (split; [done|split; [apply message_of_type; by vm_compute|done]]).
Qed.

Lemma example_pending_ok : pending_ok sm_From pending.
Proof. intros a s Hs. unfold pending in Hs. apply lookup_singleton_Some in Hs as [<- <-]. apply alice_ok. Qed.
End SelectExample.
Import PoolExample SelectExample.

Lemma pushed_pending : getPendingMessages api 0 pushed (curTs pushed) = Some pending.
Proof. vm_cast_no_check (eq_refl (Some pending)). Qed.

(** The optimal selection for the state of [pushed], and the block it makes. *)
Lemma SelectMessages_sound_witness :
  (SelectMessages api (fun _ => repeat (f_of_int 1) 15) 0 [alice] (curTs pushed) f_zero pushed).1 =
    Ok (Some [message 5; message 6]) ∧
  block_ok api sm_From (curTs pushed) pending [message 5; message 6].
Proof.
  assert (E : (SelectMessages api (fun _ => repeat (f_of_int 1) 15) 0 [alice] (curTs pushed) f_zero pushed).1 =
    Ok (Some [message 5; message 6])) by (vm_compute; reflexivity).
  split; [exact E|].
  pose proof (SelectMessages_sound api sm_From (fun _ => repeat (f_of_int 1) 15) 0 [alice] (curTs pushed) f_zero pushed
    100 pending (so_cache _ _ (po_sets _ _ pushed_ok)) eq_refl pushed_pending example_pending_ok) as H.
  rewrite E in H. exact (proj2 H).
Defined.

Lemma createMessageChains_sound_witness :
  ∃ cs, createMessageChains api alice {[5 := message 5; 6 := message 6]} 100 (curTs pushed) [] = (seq 0 (length cs), cs) ∧
    allowed api (curTs pushed) alice (cs ≫= chMsgs).
Proof.
  destruct (createMessageChains_sound api sm_From (curTs pushed) 100 alice alice {[5 := message 5; 6 := message 6]} [] alice_ok)
    as (cs & E & H & _).
  exists cs. split; [exact E|exact H].
Defined.
