(* ===== verification/Upkeep.v ===== *)
(** The upkeep of the message pool: pruning (src/chain/messagepool/pruning.go) and
    republication (src/chain/messagepool/repub.go), which the loop of the pool
    starts when its channels say so. *)

From coqutil Require Import Datatypes.RecordSetters.
From S2P Require Import Prelude Gas Types Tipset ChainIndex MsgSet MessagePool MsgChains MsgSelect.
Import DoubleBraceUpdate.

Arguments constant {E} newValue _ /.

(** Ranging over a map with CIDs as keys. *)
Class GoCidRange := {
  range_cids {V} : gmap cid V → list V;
}.

Class GoCidRangeLaws `{GoCidRange} := {
  range_cids_perm {V} (m : gmap cid V) : range_cids m ≡ₚ (map_to_list m).*2;
}.

(** The part of [types.MpoolConfig] that pruning reads; [SizeLimitHigh] is in the
    provider. *)
Record MpoolConfig := mkMpoolConfig {
  PriorityAddrs : list address;
  SizeLimitLow : Z;
}.

Section Upkeep.
Variable api : Provider.
Context {rt : GoRuntime} {cids : GoCidRange}.

(** * Pruning *)

(** [m.Message.Cid()]. *)
Definition message_Cid (m : SignedMessage) : cid := msg_Cid api (sm_Message m).

(** A priority address is protected under its key; one that cannot be resolved
    protects the undefined address. *)
Definition protect_priority (st : gset address * MessagePool) (actor : address) : gset address * MessagePool :=
  let '(protected, mp) := st in
  let '(pk, mp) := resolveToKey api actor mp in
  ({[default Undef pk]} ∪ protected, mp).

(** The messages and chains of the actors that are not protected, and the number of
    messages of those that are. *)
Fixpoint collect (actors : list address) (pending : pending_map) (protected : gset address) (baseFee : Z) (ts : TipSet)
    (keepCount : Z) (pruneMsgs : gmap cid SignedMessage) (chains : list nat) (h : list msgChain)
    : Z * gmap cid SignedMessage * list nat * list msgChain :=
  match actors with
  | [] => (keepCount, pruneMsgs, chains, h)
  | actor :: actors =>
      let mset := default ∅ (pending !! actor) in
      if bool_decide (actor ∈ protected)
      then collect actors pending protected baseFee ts (keepCount + Z.of_nat (size mset)) pruneMsgs chains h
      else
        let pruneMsgs := foldl (fun pm m => <[message_Cid m := m]> pm) pruneMsgs (range_values mset) in
        let '(next, h) := createMessageChains api actor mset baseFee ts h in
        collect actors pending protected baseFee ts keepCount pruneMsgs (chains ++ next) h
  end.

(** [keepLoop], over the messages of the sorted chains. *)
Fixpoint keep_loop (loWaterMark keepCount : Z) (msgs : list SignedMessage) (pruneMsgs : gmap cid SignedMessage)
    : gmap cid SignedMessage :=
  match msgs with
  | [] => pruneMsgs
  | m :: msgs =>
      if keepCount <? loWaterMark then keep_loop loWaterMark (keepCount + 1) msgs (delete (message_Cid m) pruneMsgs)
      else pruneMsgs
  end.

Definition prune_one (mp : MessagePool) (m : SignedMessage) : MessagePool :=
  remove api (sm_From m) (sm_Nonce m) false mp.

(** [pruneMessages]; the messages pending at [ts] are asked for from [ts], so that
    they are those of the pool.  [false] is an error. *)
Definition pruneMessages (cfg : MpoolConfig) (ts : TipSet) (mp : MessagePool) : bool * MessagePool :=
  match ChainComputeBaseFee api ts with
  | None => (false, mp)
  | Some baseFee =>
      let baseFeeLowerBound := getBaseFeeLowerBound baseFee baseFeeLowerBoundFactor in
      let pending := msgs <$> pending mp in
      let '(protected, mp) := foldl protect_priority (∅, mp) (PriorityAddrs cfg) in
      let protected := localAddrs mp ∪ protected in
      let '(keepCount, pruneMsgs, chains, h) :=
        collect (range_keys pending) pending protected baseFeeLowerBound ts 0 ∅ [] [] in
      let chains := sort_Slice (fun c d => Before (h !!! c) (h !!! d)) chains in
      let pruneMsgs := keep_loop (SizeLimitLow cfg) keepCount (chains ≫= fun id => chMsgs (h !!! id)) pruneMsgs in
      (true, foldl prune_one mp (range_cids pruneMsgs))
  end.

(** [pruneExcessMessages]; [cooldown] tells whether the channel of that name has a
    token, and the result whether it still has. *)
Definition pruneExcessMessages (cfg : MpoolConfig) (cooldown : bool) (mp : MessagePool) : bool * bool * MessagePool :=
  if currentSize mp <? SizeLimitHigh api then (true, cooldown, mp)
  else if cooldown then
    let '(ok, mp) := pruneMessages cfg (curTs mp) mp in (ok, false, mp)
  else (false, cooldown, mp).

(** * Republication *)

Definition repubMsgLimit : Z := 30.

(** The copy of a local actor's messages. *)
Definition copy_local (st : pending_map * MessagePool) (actor : address) : pending_map * MessagePool :=
  let '(pend, mp) := st in
  match getPendingMset api actor mp with
  | (Some (_, Some mset), mp) => if bool_decide (msgs mset = ∅) then (pend, mp) else (<[actor := msgs mset]> pend, mp)
  | (_, mp) => (pend, mp)
  end.

(** The loop over the messages of a chain: whether all meet the bound, the gas left
    and the messages taken. *)
Fixpoint take_chain (bound : Z) (ms : list SignedMessage) (gasLimit : Z) (taken : list SignedMessage)
    : bool * Z * list SignedMessage :=
  match ms with
  | [] => (true, gasLimit, taken)
  | m :: ms =>
      if sm_FeeCap m <? bound then (false, gasLimit, taken)
      else take_chain bound ms (gasLimit ⊟ sm_GasLimit m) (taken ++ [m])
  end.

(** The loop over the chains; [rest] is [chains[i:]].  [None]: out of fuel. *)
Fixpoint repub_loop (fuel : nat) (baseFee bound : Z) (rest : list nat) (h : list msgChain) (gasLimit : Z)
    (taken : list SignedMessage) : option (list SignedMessage) :=
  match fuel with
  | O => None
  | S fuel =>
      match rest with
      | [] => Some taken
      | c :: cs =>
          let chain := h !!! c in
          if repubMsgLimit <? Z.of_nat (length taken) then Some taken
          else if gasLimit <=? MinGas then Some taken
          else if negb (valid chain) then repub_loop fuel baseFee bound cs h gasLimit taken
          else if chGasLimit chain <=? gasLimit then
            match take_chain bound (chMsgs chain) gasLimit taken with
            | (true, gasLimit, taken) => repub_loop fuel baseFee bound cs h gasLimit taken
            | (false, gasLimit, taken) => repub_loop fuel baseFee bound rest (Invalidate c h) gasLimit taken
            end
          else
            let h := Trim gasLimit repubMsgLimit baseFee c h in
            repub_loop fuel baseFee bound (push_down (fun c d => Before (h !!! c) (h !!! d)) c cs) h gasLimit taken
      end
  end.

(** Serialises and publishes; an error ends the loop. *)
Fixpoint publish_all (ms : list SignedMessage) (mp : MessagePool) : bool * MessagePool :=
  match ms with
  | [] => (true, mp)
  | m :: ms =>
      if negb (serializes api m) then (false, mp)
      else if negb (PubSubPublish api m) then (false, mp)
      else publish_all ms (mp {{ published := published mp ++ [m] }})
  end.

Inductive repub_error := RepubBaseFee | RepubPublish | RepubFuel.

(** The messages to publish, at most [repubMsgLimit], from the given chains. *)
Definition repub_messages (baseFee bound : Z) (chains : list nat) (h : list msgChain) : option (list SignedMessage) :=
  let chains := sort_Slice (fun c d => Before (h !!! c) (h !!! d)) chains in
  taken ← repub_loop (S (length chains + total_messages h)) baseFee bound chains h BlockGasLimit [];
  Some (if repubMsgLimit <? Z.of_nat (length taken) then take (Z.to_nat repubMsgLimit) taken else taken).

(** [republishPendingMessages]; [las] lists the local addresses in the order they were
    ranged over.  The pool is unlocked while it publishes: what is published comes
    from the copy. *)
Definition republishPendingMessages (las : list address) (mp : MessagePool) : option repub_error * MessagePool :=
  let ts := curTs mp in
  match ChainComputeBaseFee api ts with
  | None => (Some RepubBaseFee, mp)
  | Some baseFee =>
      let mp := mp {{ republished := ∅ }} in
      let '(pend, mp) := foldl copy_local (∅, mp) las in
      if bool_decide (pend = ∅) then (None, mp)
      else
        let bound := getBaseFeeLowerBound baseFee baseFeeLowerBoundFactor in
        let '(chains, h) := all_chains api (range_keys pend) pend bound ts [] [] in
        match chains with
        | [] => (None, mp)
        | _ =>
            match repub_messages baseFee bound chains h with
            | None => (Some RepubFuel, mp)
            | Some ms =>
                match publish_all ms mp with
                | (false, mp) => (Some RepubPublish, mp)
                | (true, mp) => (None, mp {{ republished := list_to_set (sm_Cid api <$> ms) }})
                end
            end
        end
  end.

(** * The loop *)

(** What [runLoop] waits for. *)
Inductive loop_event := RepubTick | RepubTrigger | PruneTrigger.

(** One round of [runLoop]; a signal that is not there does not start anything. *)
Definition run_event (cfg : MpoolConfig) (las : list address) (e : loop_event) (st : bool * MessagePool) : bool * MessagePool :=
  let '(cooldown, mp) := st in
  match e with
  | RepubTick => (cooldown, (republishPendingMessages las mp).2)
  | RepubTrigger =>
      if repubTrigger mp then (cooldown, (republishPendingMessages las (mp {{ repubTrigger := false }})).2) else st
  | PruneTrigger =>
      if pruneTrigger mp then
        let '(_, cooldown, mp) := pruneExcessMessages cfg cooldown (mp {{ pruneTrigger := false }}) in (cooldown, mp)
      else st
  end.
End Upkeep.
