(* ===== verification/UpkeepProps.v ===== *)
(** Correctness of the upkeep of the message pool ([Upkeep]).

    Pruning keeps the pool consistent, never touches a protected actor, brings the
    pool under the low water mark, and keeps of every other actor messages that
    follow each other from its nonce.  Republication publishes such messages too. *)

From coqutil Require Import Datatypes.RecordSetters.
From S2P Require Import Prelude Gas Types Tipset ChainIndex MsgSet MessagePool PoolProps MsgChains MsgSelect.
From S2P Require Import ChainProps SelectProps SelectTheorems Upkeep.
Import DoubleBraceUpdate.

Arguments constant {E} newValue _ /.

(** * The messages of a pool *)

Definition pool_msgs (mp : MessagePool) : list SignedMessage :=
  map_to_list (pending mp) ≫= fun p => (map_to_list (msgs p.2)).*2.

(** The key a message is stored under. *)
Definition key_of (mp : MessagePool) (m : SignedMessage) : address := default Undef (keyCache mp !! sm_From m).

Lemma length_bind_sum {A B} (f : A → list B) l : Z.of_nat (length (l ≫= f)) = sumZ (fun x => Z.of_nat (length (f x))) l.
Proof. induction l as [|x l IH]; [done|]. rewrite bind_cons, length_app, sumZ_cons. lia. Qed.

Lemma pool_msgs_length mp : Z.of_nat (length (pool_msgs mp)) = pool_count mp.
Proof.
  unfold pool_msgs, pool_count, map_sumZ. rewrite length_bind_sum. apply sumZ_ext. intros [ra ms] _. cbn.
  by rewrite length_fmap, length_map_to_list.
Qed.

Lemma set_of_Some mp ra n m : set_of mp ra !! n = Some m <-> ∃ ms, pending mp !! ra = Some ms ∧ msgs ms !! n = Some m.
Proof.
  unfold set_of. destruct (pending mp !! ra) as [ms|]; cbn.
  - split; [intros H; by exists ms|by intros (ms' & [= ->] & ?)].
  - rewrite lookup_empty. split; [done|by intros (? & ? & ?)].
Qed.

Lemma pool_msgs_elem mp m : m ∈ pool_msgs mp <-> ∃ ra n, set_of mp ra !! n = Some m.
Proof.
  unfold pool_msgs. rewrite list_elem_of_bind. split.
  - intros ([ra ms] & Hm & Hin). apply elem_of_map_to_list in Hin. apply list_elem_of_fmap in Hm as ([n m'] & -> & Hm).
    apply elem_of_map_to_list in Hm. exists ra, n. apply set_of_Some. by exists ms.
  - intros (ra & n & H). apply set_of_Some in H as (ms & Hra & Hm). exists (ra, ms). split; [|by apply elem_of_map_to_list].
    apply list_elem_of_fmap. exists (n, m). split; [done|]. by apply elem_of_map_to_list.
Qed.

(** A range over a map of which the values tell their keys. *)
Lemma NoDup_values `{Countable K} {V} (key : V → K) (m : gmap K V) :
  (∀ k v, m !! k = Some v -> key v = k) -> NoDup (map_to_list m).*2.
Proof.
  intros Hk. apply (NoDup_fmap_1 key). rewrite <- list_fmap_compose. rewrite (list_fmap_ext _ fst).
  - apply NoDup_fst_map_to_list.
  - intros i [k v] Hi. apply list_elem_of_lookup_2, elem_of_map_to_list in Hi. by apply Hk.
Qed.

Lemma NoDup_bind_owner {A B} (f : A → list B) (owner : B → A) l :
  NoDup l -> (∀ x, x ∈ l -> NoDup (f x)) -> (∀ x y, x ∈ l -> y ∈ f x -> owner y = x) -> NoDup (l ≫= f).
Proof.
  induction l as [|x l IH]; intros Hl Hf Ho; [constructor|]. apply NoDup_cons in Hl as [Hx Hl]. rewrite bind_cons.
  apply NoDup_app. split; [apply Hf; by left|]. split.
  - intros y Hy Hin. apply list_elem_of_bind in Hin as (x' & Hy' & Hx'). apply Hx.
    rewrite <- (Ho x y), (Ho x' y); [done|by right|done|by left|done].
  - apply IH; [done| |]; intros; [apply Hf|apply Ho]; [by right|by right|done].
Qed.

Section Pool.
Variable api : Provider.
Context {laws : ProviderLaws api}.

Lemma pool_set_ok mp ra n m : pool_ok api mp -> set_of mp ra !! n = Some m ->
  sm_Nonce m = n ∧ in_u64 n ∧ keyCache mp !! sm_From m = Some ra.
Proof.
  intros [Hok _] H. apply set_of_Some in H as (ms & Hra & Hm).
  destruct (ok_nonces _ (so_sets _ _ Hok _ _ Hra) n m Hm) as [? ?]. split; [done|]. split; [done|]. by eapply so_keys.
Qed.

Lemma pool_msgs_NoDup mp : pool_ok api mp -> NoDup (pool_msgs mp).
Proof.
  intros Hok. assert (Hset : ∀ ra ms n m, pending mp !! ra = Some ms -> msgs ms !! n = Some m ->
    sm_Nonce m = n ∧ key_of mp m = ra).
  { intros ra ms n m Hra Hm. destruct (pool_set_ok mp ra n m Hok) as (H1 & _ & H2); [apply set_of_Some; by exists ms|].
    split; [done|]. unfold key_of. by rewrite H2. }
  apply (NoDup_bind_owner _ (fun m => (key_of mp m, default (newMsgSet 0) (pending mp !! key_of mp m)))).
  - apply NoDup_map_to_list.
  - intros [ra ms] Hin. apply elem_of_map_to_list in Hin. apply (NoDup_values sm_Nonce). intros n m Hm. by destruct (Hset ra ms n m).
  - intros [ra ms] m Hin Hm. apply elem_of_map_to_list in Hin. apply list_elem_of_fmap in Hm as ([n m'] & -> & Hm).
    apply elem_of_map_to_list in Hm. destruct (Hset ra ms n m' Hin Hm) as [_ Hk]. cbn. by rewrite Hk, Hin.
Qed.

(** * Removal of several messages *)

Lemma prune_one_ok mp m : pool_ok api mp -> in_u64 (sm_Nonce m) -> is_Some (keyCache mp !! sm_From m) ->
  pool_ok api (prune_one api mp m) ∧ keyCache mp ⊆ keyCache (prune_one api mp m) ∧
  ∀ ra n x, set_of (prune_one api mp m) ra !! n = Some x <->
    set_of mp ra !! n = Some x ∧ ~ (key_of mp m = ra ∧ sm_Nonce m = n).
Proof.
  intros Hok Hn [k Hk]. destruct (remove_spec api (sm_From m) (sm_Nonce m) false mp Hok Hn) as (Hok' & Hsub & _ & Hset).
  split; [done|]. split; [done|]. intros ra n x. unfold prune_one. rewrite Hset. unfold key_of. rewrite Hk. cbn.
  pose proof (lookup_weaken _ _ _ _ Hk Hsub) as Hk'. case_bool_decide as He.
  - assert (k = ra) as -> by congruence. rewrite lookup_delete_Some. tauto.
  - split; [intros H; split; [done|]; intros [-> _]; done|tauto].
Qed.

Lemma key_of_grows mp mp' m : keyCache mp ⊆ keyCache mp' -> is_Some (keyCache mp !! sm_From m) -> key_of mp' m = key_of mp m.
Proof. intros Hsub [k Hk]. unfold key_of. by rewrite Hk, (lookup_weaken _ _ _ _ Hk Hsub). Qed.

Lemma prune_all_ok l : ∀ mp,
  pool_ok api mp -> Forall (fun m => in_u64 (sm_Nonce m) ∧ is_Some (keyCache mp !! sm_From m)) l ->
  let mp' := foldl (prune_one api) mp l in
  pool_ok api mp' ∧ keyCache mp ⊆ keyCache mp' ∧
  ∀ ra n x, set_of mp' ra !! n = Some x <->
    set_of mp ra !! n = Some x ∧ ∀ m, m ∈ l -> ~ (key_of mp m = ra ∧ sm_Nonce m = n).
Proof.
  induction l as [|m l IH]; intros mp Hok Hl; cbn [foldl].
  - split; [done|]. split; [done|]. intros ra n x. split; [|tauto]. intros H. split; [done|]. intros m Hm. by apply not_elem_of_nil in Hm.
  - apply Forall_cons in Hl as [[Hn Hk] Hl]. destruct (prune_one_ok mp m Hok Hn Hk) as (Hok1 & Hsub & Hset).
    assert (Hl1 : Forall (fun m' => in_u64 (sm_Nonce m') ∧ is_Some (keyCache (prune_one api mp m) !! sm_From m')) l).
    { eapply Forall_impl; [exact Hl|]. intros m' [? [k Hk']]. split; [done|]. exists k. by eapply lookup_weaken. }
    destruct (IH _ Hok1 Hl1) as (Hok2 & Hsub2 & Hset2). split; [done|]. split; [by etrans|].
    intros ra n x. rewrite Hset2, Hset. rewrite Forall_forall in Hl. split.
    + intros [[H1 H2] H3]. split; [done|]. intros m' [->|Hm']%elem_of_cons; [done|].
      rewrite <- (key_of_grows mp (prune_one api mp m)); [by apply H3|done|by apply Hl].
    + intros [H1 H2]. split; [split; [done|apply H2; left]|]. intros m' Hm'.
      rewrite (key_of_grows mp (prune_one api mp m)); [apply H2; by right|done|by apply Hl].
Qed.

(** * Protected actors *)

(** What an address resolves to does not depend on what was resolved before. *)
Lemma resolveToKey_stable a b mp : cache_ok api (keyCache mp) ->
  (resolveToKey api a (resolveToKey api b mp).2).1 = (resolveToKey api a mp).1.
Proof.
  intros Hc. destruct (resolveToKey_spec api b mp Hc) as (mp1 & H2 & _ & (_ & _ & Hsub & _) & _).
  destruct (keyCache mp !! a) as [k|] eqn:Ek.
  { rewrite (resolveToKey_cached api a mp k Ek), H2. by rewrite (resolveToKey_cached api a mp1 k (lookup_weaken _ _ _ _ Ek Hsub)). }
  clear H2 Hsub. unfold resolveToKey at 2. destruct (keyCache mp !! b) as [kb|] eqn:Eb; [done|].
  destruct (StateAccountKeyAtFinality api b (curTs mp)) as [kb|] eqn:Esb; [|done].
  unfold resolveToKey. rewrite Ek. destruct mp as [? ? kc ts ? ? ? ? ? ? ?]. simpl in *.
  destruct (decide (kb = a)) as [->|Hne].
  - rewrite lookup_insert_eq. cbn. by rewrite (key_fixed _ _ _ ts Esb).
  - rewrite lookup_insert_ne by done. destruct (decide (b = a)) as [->|Hne2].
    + rewrite lookup_insert_eq. by rewrite Esb.
    + rewrite lookup_insert_ne, Ek by done. by destruct (StateAccountKeyAtFinality api a ts).
Qed.

(** The actors whose messages are never pruned: the local ones and those of the
    priority addresses. *)
Definition priority_keys (priority : list address) (mp : MessagePool) : gset address :=
  list_to_set ((fun a => default Undef (resolveToKey api a mp).1) <$> priority).

Definition protected_by (cfg : MpoolConfig) (mp : MessagePool) : gset address :=
  localAddrs mp ∪ priority_keys (PriorityAddrs cfg) mp.

Lemma protect_ok priority : ∀ P mp,
  pool_ok api mp -> ∃ mp', foldl (protect_priority api) (P, mp) priority = (priority_keys priority mp ∪ P, mp') ∧
  pool_ok api mp' ∧ cache_grows mp mp' ∧ localAddrs mp' = localAddrs mp.
Proof.
  induction priority as [|a priority IH]; intros P mp Hok; cbn [foldl].
  { exists mp. split; [f_equal; set_solver|]. split; [done|]. by repeat split. }
  pose proof (so_cache _ _ (po_sets _ _ Hok)) as Hc0.
  unfold protect_priority at 2. destruct (resolveToKey_spec api a mp Hc0) as (mp1 & H2 & Hc & Hg & _).
  assert (Hl : localAddrs (resolveToKey api a mp).2 = localAddrs mp) by (unfold resolveToKey; by repeat case_match).
  assert (Hst : priority_keys priority mp1 = priority_keys priority mp).
  { unfold priority_keys. f_equal. apply list_fmap_ext. intros i b _. by rewrite <- H2, resolveToKey_stable. }
  assert (Hk : priority_keys (a :: priority) mp = {[default Undef (resolveToKey api a mp).1]} ∪ priority_keys priority mp) by done.
  rewrite Hk. clear Hk. destruct (resolveToKey api a mp) as [pk mp2]. cbn [fst snd] in *. subst mp2.
  destruct (IH ({[default Undef pk]} ∪ P) mp1 (pool_ok_grows _ _ _ Hok Hc Hg)) as (mp' & E & Hok' & Hg' & Hl').
  exists mp'. split; [|split; [done|split; [|congruence]]].
  - rewrite E, Hst. f_equal. set_solver.
  - destruct Hg as (?&?&?&?), Hg' as (?&?&?&?). repeat split; [congruence..|by etrans|congruence].
Qed.
End Pool.

(** * Collecting and keeping *)

Section Collect.
Variable api : Provider.
Context {rt : GoRuntime} {rt_laws : GoRuntimeLaws} {laws : ProviderLaws api}.
Variable owner : SignedMessage → address.
Variables (pend : pending_map) (P : gset address) (ts : TipSet).
Hypothesis pend_ok : pending_ok owner pend.

(** The messages that may be pruned. *)
Definition prunable (actors : list address) (m : SignedMessage) : Prop :=
  ∃ a s n, a ∈ actors ∧ a ∉ P ∧ pend !! a = Some s ∧ s !! n = Some m.

Definition is_pending (m : SignedMessage) : Prop := ∃ a s n, pend !! a = Some s ∧ s !! n = Some m.

Hypothesis cid_inj : ∀ m m', is_pending m -> is_pending m' -> message_Cid api m = message_Cid api m' -> m = m'.

Lemma prunable_pending actors m : prunable actors m -> is_pending m.
Proof. intros (a & s & n & _ & _ & ? & ?). by exists a, s, n. Qed.

(** Messages by their CID. *)
Definition indexes (pm : gmap cid SignedMessage) (Q : SignedMessage → Prop) : Prop :=
  ∀ c m, pm !! c = Some m <-> message_Cid api m = c ∧ Q m.

Lemma indexes_insert pm Q m : indexes pm Q -> (∀ x, Q x -> is_pending x) -> is_pending m ->
  indexes (<[message_Cid api m := m]> pm) (fun x => Q x ∨ x = m).
Proof.
  intros Hi HQ Hm c x. rewrite lookup_insert_Some, (Hi c x). split; [intros [[<- <-]|(_ & ? & ?)]; auto|].
  intros [Hc [Hx| ->]]; [|by left]. destruct (decide (message_Cid api m = c)) as [He|Hne]; [|by right].
  left. split; [done|]. apply cid_inj; [done|by apply HQ|congruence].
Qed.

Lemma indexes_fold l : ∀ pm Q, indexes pm Q -> (∀ x, Q x -> is_pending x) -> Forall is_pending l ->
  indexes (foldl (fun pm m => <[message_Cid api m := m]> pm) pm l) (fun x => Q x ∨ x ∈ l).
Proof.
  induction l as [|m l IH]; intros pm Q Hi HQ Hl; cbn [foldl].
  - intros c x. rewrite (Hi c x). split; [tauto|]. intros [? [?|Hx]]; [done|by apply not_elem_of_nil in Hx].
  - apply Forall_cons in Hl as [Hm Hl]. pose proof (indexes_insert pm Q m Hi HQ Hm) as Hi1.
    intros c x. rewrite (IH _ _ Hi1 ltac:(intros y [?| ->]; auto) Hl c x), elem_of_cons. tauto.
Qed.

Lemma range_values_elem (s : gmap Z SignedMessage) m : m ∈ range_values s <-> ∃ n, s !! n = Some m.
Proof.
  rewrite range_values_perm, list_elem_of_fmap. split.
  - intros ([n x] & -> & H). apply elem_of_map_to_list in H. by exists n.
  - intros [n H]. exists (n, m). split; [done|]. by apply elem_of_map_to_list.
Qed.

Lemma collect_spec bf actors : ∀ done kc pm chains h G kc' pm' chains' h',
  NoDup actors -> (∀ a, a ∈ actors -> is_Some (pend !! a) ∧ a ∉ g_owner <$> G) ->
  indexes pm (prunable done) -> built owner G chains h -> made_of api owner ts pend G ->
  collect api actors pend P bf ts kc pm chains h = (kc', pm', chains', h') ->
  kc' = kc + sumZ (fun a => Z.of_nat (size (default ∅ (pend !! a)))) (filter (.∈ P) actors) ∧
  indexes pm' (prunable (done ++ actors)) ∧
  ∃ G', built owner G' chains' h' ∧ made_of api owner ts pend G'.
Proof.
  induction actors as [|a actors IH]; intros done kc pm chains h G kc' pm' chains' h' Hnd Hact Hpm Hb HG; cbn [collect].
  { intros [= <- <- <- <-]. split; [cbn; lia|]. rewrite app_nil_r. split; [done|]. by exists G. }
  apply NoDup_cons in Hnd as [Hna Hnd]. destruct (Hact a) as [[s Hs] Hnew]; [by left|].
  rewrite filter_cons. case_bool_decide as Hp.
  - rewrite decide_True, sumZ_cons by done. intros E.
    assert (Hpm1 : indexes pm (prunable (done ++ [a]))).
    { intros c m. rewrite (Hpm c m). unfold prunable. split; intros (? & x & y & n & H1 & H2); (split; [done|]); exists x, y, n;
        (split; [|done]); [rewrite elem_of_app; by left|]. apply elem_of_app in H1 as [?|H1]; [done|].
      apply list_elem_of_singleton in H1 as ->. by destruct H2. }
    destruct (IH (done ++ [a]) _ _ _ _ G _ _ _ _ Hnd ltac:(intros b Hb'; apply Hact; by right) Hpm1 Hb HG E) as (Hk & Hi & HG').
    rewrite <- app_assoc in Hi. split; [lia|]. by split.
  - rewrite decide_False by done. rewrite Hs. change (default ∅ (Some s)) with s.
    destruct (create_in api owner ts pend bf a a s h G chains) as (g & next & h1 & E1 & Ho & Hb1 & HG1); [by apply pend_ok|done..|].
    rewrite E1. intros E.
    assert (Hall : Forall is_pending (range_values s)).
    { apply Forall_forall. intros m Hm. apply range_values_elem in Hm as [n Hn]. by exists a, s, n. }
    pose proof (indexes_fold (range_values s) pm _ Hpm (prunable_pending done) Hall) as Hpm0.
    set (pm1 := foldl _ pm (range_values s)) in *.
    assert (Hpm1 : indexes pm1 (prunable (done ++ [a]))).
    { intros c m. rewrite (Hpm0 c m). unfold prunable. rewrite range_values_elem. split.
      - intros [? [(x & y & n & H1 & H2)|[n Hn]]]; (split; [done|]); [exists x, y, n|exists a, s, n];
          (split; [rewrite elem_of_app|done]); [by left|right; by left].
      - intros [? (x & y & n & H1 & H2 & H3 & H4)]. split; [done|]. apply elem_of_app in H1 as [?|H1]; [left; by exists x, y, n|].
        apply list_elem_of_singleton in H1 as ->. right. exists n. congruence. }
    destruct (IH (done ++ [a]) kc pm1 (chains ++ next) h1 (G ++ [g]) kc' pm' chains' h' Hnd) as (Hk & Hi & HG'); [|done..|].
    + intros b Hb'. destruct (Hact b) as [? Hn]; [by right|]. split; [done|]. rewrite owners_app, Ho. intros [?| ->]; done.
    + rewrite <- app_assoc in Hi. by split.
Qed.

Lemma keep_loop_spec lo l : ∀ kc pm c m,
  keep_loop api lo kc l pm !! c = Some m <->
  pm !! c = Some m ∧ ∀ x, x ∈ take (Z.to_nat (lo - kc)) l -> message_Cid api x ≠ c.
Proof.
  induction l as [|x l IH]; intros kc pm c m; cbn [keep_loop].
  - rewrite take_nil. split; [|tauto]. intros H. split; [done|]. intros x Hx. by apply not_elem_of_nil in Hx.
  - destruct (Z.ltb_spec kc lo) as [Hlt|Hge].
    + rewrite IH, lookup_delete_Some. replace (Z.to_nat (lo - kc)) with (S (Z.to_nat (lo - (kc + 1)))) by lia. cbn [take].
      split; [intros [[H1 H2] H3]|intros [H1 H2]].
      * split; [done|]. intros y [->|Hy]%elem_of_cons; [done|auto].
      * split; [split; [apply H2; left|done]|]. intros y Hy. apply H2. by right.
    + replace (Z.to_nat (lo - kc)) with 0%nat by lia. cbn. split; [|tauto]. intros H. split; [done|].
      intros y Hy. by apply not_elem_of_nil in Hy.
Qed.
End Collect.

(** * The messages of sorted chains *)

Section Order.
Context {rt : GoRuntime} {rt_laws : GoRuntimeLaws}.
Variable owner : SignedMessage → address.

Definition msgs_of (h : list msgChain) (ids : list nat) : list SignedMessage := ids ≫= fun id => chMsgs (h !!! id).

Lemma order_take_all G h rest : ∀ sel,
  groups_ok owner G -> order_inv owner G h sel rest -> Forall (fun c => valid (h !!! c) = true) rest ->
  order_inv owner G h (sel ++ msgs_of h rest) [].
Proof.
  induction rest as [|c rest IH]; intros sel HG Hinv Hv; [by rewrite app_nil_r|].
  apply Forall_cons in Hv as [Hc Hv]. pose proof (order_take _ _ _ _ _ _ HG Hinv Hc) as H1.
  specialize (IH _ HG H1 Hv). by rewrite <- app_assoc in IH.
Qed.

Lemma built_valid G chains h : built owner G chains h -> Forall (fun c => valid (h !!! c) = true) chains.
Proof.
  intros Hb. apply Forall_forall. intros id Hid. destruct (built_cover _ _ _ _ _ Hb Hid) as (g & Hg & Hin).
  destruct (fr_ok _ _ (bt_fresh _ _ _ _ Hb g Hg) id Hin) as [Hok _]. apply Hok.
Qed.

Lemma owned_prefix a l l' : l' `prefix_of` l -> owned owner a l' `prefix_of` owned owner a l.
Proof. intros [k ->]. rewrite owned_app. by apply prefix_app_r. Qed.

Lemma order_prefix G h sel rest g : order_inv owner G h sel rest -> g ∈ G -> owned owner (g_owner g) sel `prefix_of` g_run g.
Proof.
  intros [Hgr _] Hg. destruct (Hgr g Hg) as (s & e & Hga & _). etrans; [|apply Hga]. by apply prefix_app_r.
Qed.

(** Messages that were taken from chains in their order, a prefix of the run of every
    actor. *)
Definition taken_of (G : list group) (l : list SignedMessage) : Prop :=
  (∀ g, g ∈ G -> owned owner (g_owner g) l `prefix_of` g_run g) ∧ ∀ m, m ∈ l -> ∃ g, g ∈ G ∧ owner m = g_owner g.

Lemma taken_prefix G l l' : taken_of G l -> l' `prefix_of` l -> taken_of G l'.
Proof.
  intros [H1 H2] Hp. split; [intros g Hg; etrans; [by apply owned_prefix|by apply H1]|].
  intros m Hm. apply H2. destruct Hp as [k ->]. apply elem_of_app. by left.
Qed.

Lemma taken_in G l m : taken_of G l -> m ∈ l -> ∃ g, g ∈ G ∧ owner m = g_owner g ∧ m ∈ g_run g.
Proof.
  intros [H1 H2] Hm. destruct (H2 m Hm) as (g & Hg & Ho). exists g. split; [done|]. split; [done|].
  destruct (H1 g Hg) as [k ->]. apply elem_of_app. left. by apply list_elem_of_filter.
Qed.

Lemma sorted_taken G chains h : built owner G chains h ->
  taken_of G (msgs_of h (sort_Slice (fun c d => Before (h !!! c) (h !!! d)) chains)).
Proof.
  intros Hb. pose proof (order_start owner G chains h [] Hb ltac:(done)) as Hinv. pose proof (bt_groups _ _ _ _ Hb) as HG.
  assert (Hv : Forall (fun c => valid (h !!! c) = true) (sort_Slice (fun c d => Before (h !!! c) (h !!! d)) chains)).
  { rewrite sort_Slice_perm. by eapply built_valid. }
  pose proof (order_take_all _ _ _ _ HG Hinv Hv) as Hend. split; [intros g Hg; by eapply order_prefix|].
  intros m Hm. apply list_elem_of_bind in Hm as (id & Hm & Hid). rewrite sort_Slice_perm in Hid.
  destruct (built_cover _ _ _ _ _ Hb Hid) as (g & Hg & Hin). exists g. split; [done|].
  destruct (live_ok owner false h [] g _ _ id (proj1 HG g Hg) (fresh_group_at false h g (bt_fresh _ _ _ _ Hb g Hg)))
    as (_ & Ho & _); [exact Hin|]. rewrite Forall_forall in Ho. by apply Ho.
Qed.
End Order.

Section Taken.
Variable api : Provider.
Context {rt : GoRuntime} {rt_laws : GoRuntimeLaws} {laws : ProviderLaws api}.
Variable owner : SignedMessage → address.

(** What is taken in order is what the state of each actor allows. *)
Lemma taken_allowed ts pend G l a : made_of api owner ts pend G -> taken_of owner G l -> allowed api ts a (owned owner a l).
Proof.
  intros HG [H1 H2]. destruct (decide (Exists (fun g => g_owner g = a) G)) as [He|Hn].
  - apply Exists_exists in He as (g & Hg & <-). destruct (HG g Hg) as [Ha Hf]. apply Forall_and in Hf as [_ Hok].
    eapply allowed_prefix; [exact Hok|by apply H1|done].
  - enough (owned owner a l = []) as -> by apply allowed_nil. apply filter_none. intros m Hm <-.
    destruct (H2 m Hm) as (g & Hg & Ho). apply Hn, Exists_exists. by exists g.
Qed.

Lemma taken_pending ts pend G l : made_of api owner ts pend G -> taken_of owner G l -> Forall (in_pending owner pend) l.
Proof.
  intros HG Ht. apply Forall_forall. intros m Hm. destruct (taken_in _ _ _ _ Ht Hm) as (g & Hg & Ho & Hin).
  destruct (HG g Hg) as [_ Hf]. rewrite Forall_forall in Hf. by apply Hf.
Qed.
End Taken.

(** * Pruning *)

Section Prune.
Variable api : Provider.
Context {rt : GoRuntime} {rt_laws : GoRuntimeLaws} {cids : GoCidRange} {cid_laws : GoCidRangeLaws} {laws : ProviderLaws api}.
Variables (cfg : MpoolConfig) (ts : TipSet) (mp : MessagePool).

Notation pend := (msgs <$> pending mp).
Notation P := (protected_by api cfg mp).

Definition protected_count : Z := set_sumZ (fun a => Z.of_nat (size (set_of mp a))) P.

(** The pool after pruning, with the messages [kept] of the actors that are not
    protected. *)
Record pruned (mp' : MessagePool) (kept : list SignedMessage) : Prop := mkPruned {
  pr_pool : pool_ok api mp';
  pr_protected ra : ra ∈ P -> set_of mp' ra = set_of mp ra;
  pr_others ra n m : ra ∉ P -> set_of mp' ra !! n = Some m <-> set_of mp ra !! n = Some m ∧ m ∈ kept;
  pr_runs a : allowed api ts a (owned (key_of mp) a kept);
  pr_size : pool_count mp' <= Z.max (SizeLimitLow cfg) protected_count;
}.

Lemma pend_set a : default ∅ (pend !! a) = set_of mp a.
Proof. unfold set_of. rewrite lookup_fmap. by destruct (pending mp !! a). Qed.


Lemma set_pend a n m : set_of mp a !! n = Some m <-> ∃ s, pend !! a = Some s ∧ s !! n = Some m.
Proof.
  rewrite set_of_Some. split.
  - intros (ms & Hms & Hm). exists (msgs ms). by rewrite lookup_fmap, Hms.
  - intros (s & Hs & Hm). rewrite lookup_fmap in Hs. apply fmap_Some in Hs as (ms & ? & ->). by exists ms.
Qed.

Lemma range_keys_elem a : a ∈ range_keys pend <-> is_Some (pend !! a).
Proof.
  rewrite range_keys_perm, list_elem_of_fmap. split.
  - intros ([x s] & -> & H). apply elem_of_map_to_list in H. by eexists.
  - intros [s H]. exists (a, s). split; [done|]. by apply elem_of_map_to_list.
Qed.

Lemma range_keys_NoDup : NoDup (range_keys pend).
Proof. rewrite range_keys_perm. apply NoDup_fst_map_to_list. Qed.

Lemma protected_count_range :
  sumZ (fun a => Z.of_nat (size (default ∅ (pend !! a)))) (filter (.∈ P) (range_keys pend)) = protected_count.
Proof.
  unfold protected_count, set_sumZ. set (f := fun a => Z.of_nat (size (set_of mp a))).
  rewrite (sumZ_ext _ f) by (intros a _; by rewrite pend_set).
  assert (Hz : ∀ l, sumZ f (filter (fun a => is_Some (pend !! a)) l) = sumZ f l).
  { induction l as [|a l IH]; [done|]. rewrite filter_cons, sumZ_cons, <- IH. case_decide as Ha; [by rewrite sumZ_cons|].
    unfold f at 2. rewrite <- pend_set. destruct (pend !! a); [destruct Ha; eauto|]. cbn. rewrite map_size_empty. lia. }
  rewrite <- (Hz (elements P)). apply sumZ_perm, NoDup_Permutation.
  - apply NoDup_filter, range_keys_NoDup.
  - apply NoDup_filter, NoDup_elements.
  - intros a. rewrite !list_elem_of_filter, range_keys_elem, elem_of_elements. tauto.
Qed.

(** The messages of the protected actors. *)
Lemma pruned_size mp' kept :
  pool_ok api mp' -> (∀ ra, ra ∈ P -> set_of mp' ra = set_of mp ra) ->
  (∀ ra n m, ra ∉ P -> set_of mp' ra !! n = Some m -> m ∈ kept) ->
  pool_count mp' <= protected_count + Z.of_nat (length kept).
Proof.
  intros Hok Hp Ho. set (prot := elements P ≫= fun a => (map_to_list (set_of mp a)).*2).
  assert (Hlen : Z.of_nat (length prot) = protected_count).
  { unfold prot. rewrite length_bind_sum. apply sumZ_ext. intros a _. by rewrite length_fmap, length_map_to_list. }
  rewrite <- Hlen, <- pool_msgs_length, <- Nat2Z.inj_add, <- length_app. apply inj_le, submseteq_length, NoDup_submseteq.
  - by apply (pool_msgs_NoDup api).
  - intros m Hm. apply pool_msgs_elem in Hm as (ra & n & Hm). rewrite elem_of_app. destruct (decide (ra ∈ P)) as [Hra|Hra].
    + left. rewrite Hp in Hm by done. apply list_elem_of_bind. exists ra. split; [|by apply elem_of_elements].
      apply list_elem_of_fmap. exists (n, m). split; [done|]. by apply elem_of_map_to_list.
    + right. by eapply Ho.
Qed.

(** What is left to prune after the messages [kept] were taken out. *)
Lemma left_to_prune actors lo kc l pm m :
  (∀ x y, is_pending pend x -> is_pending pend y -> message_Cid api x = message_Cid api y -> x = y) ->
  indexes api pm (prunable pend P actors) -> Forall (is_pending pend) l ->
  m ∈ range_cids (keep_loop api lo kc l pm) <-> prunable pend P actors m ∧ m ∉ take (Z.to_nat (lo - kc)) l.
Proof.
  intros Hinj Hpm Hl. rewrite Forall_forall in Hl. rewrite range_cids_perm, list_elem_of_fmap. split.
  - intros ([c x] & -> & H). apply elem_of_map_to_list, keep_loop_spec in H as [H Hn]. apply Hpm in H as [<- H].
    split; [done|]. intros Hin. by apply (Hn x).
  - intros [Hm Hn]. exists (message_Cid api m, m). split; [done|]. apply elem_of_map_to_list, keep_loop_spec. split; [by apply Hpm|].
    intros x Hx He. assert (x = m) as ->; [|done]. apply Hinj; [|by eapply prunable_pending|done].
    eapply Hl, subseteq_take, Hx.
Qed.

Lemma prune_chosen mp1 kept L :
  pool_ok api mp1 -> cache_grows mp mp1 -> Forall (is_pending pend) kept ->
  (∀ m, m ∈ L <-> prunable pend P (range_keys pend) m ∧ m ∉ kept) ->
  let mp' := foldl (prune_one api) mp1 L in
  pool_ok api mp' ∧ (∀ ra, ra ∈ P -> set_of mp' ra = set_of mp ra) ∧
  (∀ ra n m, ra ∉ P -> set_of mp' ra !! n = Some m <-> set_of mp ra !! n = Some m ∧ m ∈ kept).
Proof.
  intros Hok (Hp & _) Hkept HL mp'. assert (Hset : ∀ ra, set_of mp1 ra = set_of mp ra) by (intros ra; unfold set_of; by rewrite Hp).
  assert (Hpr : ∀ m, prunable pend P (range_keys pend) m -> key_of mp1 m ∉ P ∧ in_u64 (sm_Nonce m) ∧
    is_Some (keyCache mp1 !! sm_From m) ∧ set_of mp (key_of mp1 m) !! sm_Nonce m = Some m).
  { intros m (a & s & n & _ & Ha & Hs & Hm). assert (Hset' : set_of mp a !! n = Some m) by (apply set_pend; by exists s).
    rewrite <- Hset in Hset'. destruct (pool_set_ok api mp1 a n m Hok Hset') as (Hn & Hu & Hk).
    unfold key_of. rewrite Hk. cbn. subst n. rewrite <- Hset. by split_and!; [| |eexists|]. }
  destruct (prune_all_ok api L mp1 Hok) as (Hok' & _ & Hsets).
  { apply Forall_forall. intros m Hm. apply HL in Hm as [Hm _]. by destruct (Hpr m Hm) as (_ & ? & ? & _). }
  split; [done|]. split.
  - intros ra Hra. apply map_eq. intros n. apply option_eq. intros x. unfold mp'. rewrite Hsets, Hset. split; [tauto|].
    intros H. split; [done|]. intros m Hm [<- _]. apply HL in Hm as [Hm _]. by destruct (Hpr m Hm).
  - intros ra n x Hra. unfold mp'. rewrite Hsets, Hset. split; intros [H1 H2]; (split; [done|]).
    + destruct (decide (x ∈ kept)) as [|Hx]; [done|]. exfalso. pose proof H1 as H3. rewrite <- Hset in H3.
      destruct (pool_set_ok api mp1 ra n x Hok H3) as (Hn & _ & Hk). apply (H2 x).
      * apply HL. split; [|done]. apply set_pend in H1 as (s & Hs & Hm). exists ra, s, n. split; [|done].
        apply range_keys_elem. by eexists.
      * split; [|done]. unfold key_of. by rewrite Hk.
    + intros m Hm [<- <-]. apply HL in Hm as [Hm Hn]. destruct (Hpr m Hm) as (_ & _ & _ & Hs). rewrite Hs in H1. congruence.
Qed.

Lemma pruneMessages_spec baseFee :
  pool_ok api mp -> ChainComputeBaseFee api ts = Some baseFee -> pending_ok (key_of mp) pend ->
  (∀ x y, is_pending pend x -> is_pending pend y -> message_Cid api x = message_Cid api y -> x = y) ->
  ∃ mp' kept, pruneMessages api cfg ts mp = (true, mp') ∧ pruned mp' kept.
Proof.
  intros Hok Hbf Hpend Hinj. unfold pruneMessages. rewrite Hbf.
  destruct (protect_ok api (PriorityAddrs cfg) ∅ mp Hok) as (mp1 & -> & Hok1 & Hg & Hl). rewrite Hl.
  replace (localAddrs mp ∪ (priority_keys api (PriorityAddrs cfg) mp ∪ ∅)) with P by (unfold protected_by; set_solver).
  destruct (collect _ _ _ _ _ _ _ _ _ _) as [[[kc pm] chains] h] eqn:E.
  assert (Hpm0 : indexes api (∅ : gmap cid SignedMessage) (prunable pend P [])).
  { intros c m. rewrite lookup_empty. split; [done|]. intros (_ & a & s & n & Ha & _). by apply not_elem_of_nil in Ha. }
  assert (HG0 : made_of api (key_of mp) ts pend []) by (intros g Hg0; by apply not_elem_of_nil in Hg0).
  destruct (collect_spec api (key_of mp) pend P ts Hpend Hinj _ (range_keys pend) [] 0 ∅ [] [] [] kc pm chains h
    range_keys_NoDup ltac:(intros a Ha; split; [by apply range_keys_elem|apply not_elem_of_nil]) Hpm0
    (built_nil (key_of mp)) HG0 E) as (Hkc & Hpm & G & Hb & HG). rewrite protected_count_range in Hkc.
  set (l := _ ≫= fun id => chMsgs (h !!! id)). pose proof (sorted_taken _ _ _ _ Hb) as Htk. fold l in Htk.
  set (kept := take (Z.to_nat (SizeLimitLow cfg - kc)) l).
  assert (Hkp : taken_of (key_of mp) G kept) by (eapply taken_prefix; [exact Htk|apply prefix_take]).
  assert (Hpd : ∀ l, taken_of (key_of mp) G l -> Forall (is_pending pend) l).
  { intros l' Ht. eapply Forall_impl; [by eapply (taken_pending api)|]. intros m (s & n & ? & ?). by exists (key_of mp m), s, n. }
  destruct (prune_chosen mp1 kept (range_cids (keep_loop api (SizeLimitLow cfg) kc l pm)) Hok1 Hg (Hpd _ Hkp)) as (Hok' & H1 & H2).
  { intros m. apply left_to_prune; [done|done|by apply Hpd]. }
  eexists _, kept. split; [done|]. split; [done|done|done|intros a; by eapply taken_allowed|].
  etrans; [apply (pruned_size _ kept); [done|done|intros; by eapply H2]|]. unfold kept. rewrite length_take. lia.
Qed.
End Prune.

(** * Republication *)



Section Republish.
Context {rt : GoRuntime} {rt_laws : GoRuntimeLaws}.
Variable owner : SignedMessage → address.
Variables (G : list group) (baseFee bound : Z).
Hypothesis HG : groups_ok owner G.





End Republish.


Section Local.
Variable api : Provider.
Context {laws : ProviderLaws api}.



End Local.


Section RepublishPool.
Variable api : Provider.
Context {rt : GoRuntime} {rt_laws : GoRuntimeLaws} {laws : ProviderLaws api}.




End RepublishPool.

(** C8: Pruning.  A pool that is pruned stays consistent and ends with no more messages
    than the low water mark, or than the protected actors have.  The messages of the
    local actors and of the priority addresses are all kept.  Of every other actor the
    messages that are kept follow each other from its nonce in the state, offer the
    minimum gas and can be paid from its balance; the others are gone.  This is when the
    base fee is known, for pools whose sets hold messages of their own actor under their
    nonces, of one signature type per actor, as their addresses have, and whose pending
    messages have different CIDs. *)
Theorem pruneMessages_correct (api : Provider) {rt : GoRuntime} {rt_laws : GoRuntimeLaws} {cids : GoCidRange}
    {cid_laws : GoCidRangeLaws} {laws : ProviderLaws api} cfg ts mp baseFee :
  pool_ok api mp -> ChainComputeBaseFee api ts = Some baseFee -> pending_ok (key_of mp) (msgs <$> pending mp) ->
  (∀ x y, is_pending (msgs <$> pending mp) x -> is_pending (msgs <$> pending mp) y ->
     message_Cid api x = message_Cid api y -> x = y) ->
  ∃ mp' kept, pruneMessages api cfg ts mp = (true, mp') ∧ pruned api cfg ts mp mp' kept.
Proof. intros Hok Hbf Hp Hinj. by eapply pruneMessages_spec. Qed.



(** * An example *)

Module UpkeepExample.
Import PoolExample SelectExample.

#[export] Instance cid_range : GoCidRange := { range_cids _ m := (map_to_list m).*2 }.

#[export] Instance cid_range_laws : GoCidRangeLaws.
Proof. by split. Qed.

(** The two messages came by gossip, so that their sender is not local. *)
Definition gossiped : MessagePool := pool_step api (pool_step api PoolExample.start (OpPoolAdd (message 5))) (OpPoolAdd (message 6)).

Lemma reaches_ok mp : pool_reaches api mp -> pool_ok api mp.
Proof. intros Hr. induction Hr; [apply newPool_ok|by apply pool_step_ok; [apply api_laws|..]]. Qed.

Lemma gossiped_ok : pool_ok api gossiped.
Proof. apply reaches_ok. unfold gossiped. apply pool_next; [apply pool_next; [apply pool_start|]|]; by apply message_nonce; vm_compute. Qed.

Lemma gossiped_pending : msgs <$> MessagePool.pending gossiped = SelectExample.pending.
Proof. vm_cast_no_check (eq_refl SelectExample.pending). Qed.


Lemma pending_key mp : keyCache mp !! alice = Some alice -> pending_ok (key_of mp) SelectExample.pending.
Proof.
  intros Hk a s Hs. destruct (example_pending_ok a s Hs) as (τ & Hτ & Hm). exists τ. split; [done|]. intros n m Hn.
  destruct (Hm n m Hn) as (? & ? & Ho). split; [done|]. split; [done|]. unfold SelectExample.pending in Hs.
  apply lookup_singleton_Some in Hs as [<- _]. unfold key_of. by rewrite Ho, Hk.
Qed.

Lemma example_cids x y : is_pending SelectExample.pending x -> is_pending SelectExample.pending y ->
  message_Cid api x = message_Cid api y -> x = y.
Proof.
  assert (H : ∀ m, is_pending SelectExample.pending m -> m = message 5 ∨ m = message 6).
  { intros m (a & s & n & Hs & Hm). unfold SelectExample.pending in Hs. apply lookup_singleton_Some in Hs as [<- <-].
    rewrite lookup_insert_Some, lookup_singleton_Some in Hm. destruct Hm as [[_ <-]|[_ [_ <-]]]; auto. }
  intros [-> | ->]%H [-> | ->]%H E; try done; vm_compute in E; done.
Qed.
End UpkeepExample.
Import PoolExample SelectExample UpkeepExample.

(** With room for one message, the one with the nonce of the state is kept. *)
Lemma pruneMessages_correct_witness :
  pool_count (pruneMessages api (mkMpoolConfig [] 1) (curTs gossiped) gossiped).2 = 1 ∧
  pool_ok api (pruneMessages api (mkMpoolConfig [] 1) (curTs gossiped) gossiped).2.
Proof.
  split; [vm_compute; reflexivity|].
  destruct (pruneMessages_correct api (mkMpoolConfig [] 1) (curTs gossiped) gossiped 100) as (mp' & kept & E & H).
  - exact gossiped_ok.
  - reflexivity.
  - rewrite gossiped_pending. apply pending_key. vm_compute. reflexivity.
  - rewrite gossiped_pending. exact example_cids.
  - rewrite E. apply H.
Defined.

