(* ===== verification/Cbor.v ===== *)
(** The CBOR codecs of the chain types (src/chain/types/cbor_gen.go) and the
    functions that serialise and decode with them (message.go, signedmessage.go,
    blockheader.go, blockmsg.go).

    An encoder returns the bytes it writes, or an error; the writer below it is a
    buffer, which does not fail.  A decoder takes the input and returns the value
    and the input it did not read.  cbor-gen and go-state-types write and read the
    headers, CIDs, addresses, big integers, signatures and proofs: they are
    parameters, with the round trips they document as laws. *)

From Stdlib Require Import Ascii.
From S2P Require Import Prelude Gas Types MsgSet.
Import Gas.Prices.

(** * Readers *)

Inductive cbor_error :=
  | EOF | UnexpectedEOF | LibError
  | NotAnArray | WrongFieldCount | WrongType | TooLarge | Int64Overflow | BadVersion
  | Wrapped (e : cbor_error).

Definition reader (A : Type) : Type := bytes → result cbor_error (A * bytes).

#[export] Instance reader_ret : MRet reader := fun A a s => Ok (a, s).
#[export] Instance reader_bind : MBind reader := fun A B f m s =>
  match m s with
  | Ok (a, s) => f a s
  | Err e => Err e
  end.

Definition fail {A} (e : cbor_error) : reader A := fun _ => Err e.

(** [xerrors.Errorf(..., %w)]. *)
Definition wrapped {A} (m : reader A) : reader A := fun s =>
  match m s with
  | Ok x => Ok x
  | Err e => Err (Wrapped e)
  end.

(** The deferred function of every decoder. *)
Definition unexpected {A} (m : reader A) : reader A := fun s =>
  match m s with
  | Err EOF => Err UnexpectedEOF
  | r => r
  end.

Definition byte (n : Z) : bytes := String (ascii_of_N (Z.to_N n)) EmptyString.

(** [cbg.CborNull] and the major types, numbered as in RFC 8949. *)
Definition CborNull : bytes := byte 246.
Definition MajUnsignedInt : Z := 0.
Definition MajNegativeInt : Z := 1.
Definition MajByteString : Z := 2.
Definition MajArray : Z := 4.

Definition blen (b : bytes) : Z := Z.of_nat (String.length b).

Fixpoint split_at (n : nat) (s : bytes) : option (bytes * bytes) :=
  match n, s with
  | O, _ => Some (EmptyString, s)
  | S n, EmptyString => None
  | S n, String c s => '(a, b) ← split_at n s; Some (String c a, b)
  end.

(** [io.ReadFull] into a buffer of [n] bytes. *)
Definition ReadFull (n : Z) : reader bytes := fun s =>
  match split_at (Z.to_nat n) s with
  | Some p => Ok p
  | None => Err (if bool_decide (s = EmptyString) then EOF else UnexpectedEOF)
  end.

(** The type and the bytes of a proof of [proof.PoStProof]. *)
Record PoStProof := mkPoStProof {
  PoStProofType : Z;
  ProofBytes : bytes;
}.

(** The libraries. *)
Class CborLib := {
  MaxLength : Z;
  ByteArrayMaxLen : Z;
  SignatureMaxLength : Z;
  WriteMajorTypeHeader : Z → Z → bytes;
  ReadHeader : reader (Z * Z);
  WriteCid : cid → option bytes;
  ReadCid : reader cid;
  addr_Marshal : address → option bytes;
  addr_Unmarshal : reader address;
  big_Marshal : option Z → option bytes;
  big_Unmarshal : reader Z;
  sig_Marshal : option (SigType * bytes) → option bytes;
  sig_Unmarshal : reader (SigType * bytes);
  post_Marshal : PoStProof → option bytes;
  post_Unmarshal : reader PoStProof;
}.

(** [unmarshal] reads back what [marshal] writes and nothing else. *)
Definition reads_back {A B} (marshal : A → option bytes) (unmarshal : reader B) (R : A → B → Prop) : Prop :=
  ∀ a b, marshal a = Some b → ∃ x, R a x ∧ ∀ rest, unmarshal (String.append b rest) = Ok (x, rest).

Definition starts_nonnull (b : bytes) : Prop := ∃ c b', b = String c b' ∧ String c EmptyString ≠ CborNull.

(** The laws of the libraries but for the reader of signatures. *)
Class CborBaseLaws `{CborLib} := {
  limits_u64 : in_u64 MaxLength ∧ in_u64 ByteArrayMaxLen;
  header_short maj n : 0 <= maj < 8 → 0 <= n < 24 → WriteMajorTypeHeader maj n = byte (maj * 32 + n);
  ReadHeader_written maj n rest : 0 <= maj < 8 → in_u64 n →
    ReadHeader (String.append (WriteMajorTypeHeader maj n) rest) = Ok ((maj, n), rest);
  ReadHeader_width s maj n rest : ReadHeader s = Ok ((maj, n), rest) → in_u64 n;
  ReadCid_written : reads_back WriteCid ReadCid eq;
  addr_written : reads_back addr_Marshal addr_Unmarshal eq;
  (** a nil integer is written as zero *)
  big_written : reads_back big_Marshal big_Unmarshal (fun z x => x = default 0 z);
  (** a nil signature is written as null, and any other starts with another byte *)
  sig_nil : sig_Marshal None = Some CborNull;
  sig_not_null s b : sig_Marshal (Some s) = Some b → starts_nonnull b;
  (** a signature of any type is written as its length, its type and its bytes, from which
      it can be told *)
  sig_readable : ∃ r : reader (SigType * bytes), reads_back (fun s => sig_Marshal (Some s)) r eq;
  post_written : reads_back post_Marshal post_Unmarshal eq;
}.

(** The signatures that are read: of the two types that are known, with the byte for the
    type within the length. *)
Definition valid_sig `{CborLib} (s : SigType * bytes) : Prop :=
  (s.1 = SigTypeSecp256k1 ∨ s.1 = SigTypeBLS) ∧ blen s.2 + 1 <= SignatureMaxLength.

Class CborLibLaws `{CborLib} := {
  lib_base :: CborBaseLaws;
  sig_written s b rest : valid_sig s → sig_Marshal (Some s) = Some b → sig_Unmarshal (String.append b rest) = Ok (s, rest);
}.

(** * Values *)

Record Ticket := mkTicket { tk_VRFProof : bytes }.
Record ElectionProof := mkElectionProof { ep_WinCount : Z; ep_VRFProof : bytes }.
Record BeaconEntry := mkBeaconEntry { Round : Z; Data : bytes }.
Record MsgMeta := mkMsgMeta { mm_BlsMessages : cid; mm_SecpkMessages : cid }.
Record MessageReceipt := mkMessageReceipt { ExitCode : Z; Return : bytes; GasUsed : Z }.
Record StateRoot := mkStateRoot { sr_Version : Z; sr_Actors : cid; sr_Info : cid }.
Record StateInfo0 := mkStateInfo0 {}.

(** Without the flag that caches the check of the signature. *)
Record BlockHeader := mkBlockHeader {
  Miner : address;
  bh_Ticket : option Ticket;
  bh_ElectionProof : option ElectionProof;
  BeaconEntries : list BeaconEntry;
  WinPoStProof : list PoStProof;
  Parents : list cid;
  ParentWeight : option Z;
  Height : Z;
  ParentStateRoot : cid;
  ParentMessageReceipts : cid;
  Messages : cid;
  BLSAggregate : option (SigType * bytes);
  Timestamp : Z;
  BlockSig : option (SigType * bytes);
  ForkSignaling : Z;
  ParentBaseFee : option Z;
}.

Record BlockMsg := mkBlockMsg {
  Header : option BlockHeader;
  bm_BlsMessages : list cid;
  bm_SecpkMessages : list cid;
}.

Record ExpTipSet := mkExpTipSet {
  ets_Cids : list cid;
  ets_Blocks : list (option BlockHeader);
  ets_Height : Z;
}.

(** [blkcopy] of [SigningBytes]: the header with no signature. *)
Definition unsigned (b : BlockHeader) : BlockHeader :=
  mkBlockHeader (Miner b) (bh_Ticket b) (bh_ElectionProof b) (BeaconEntries b) (WinPoStProof b) (Parents b)
    (ParentWeight b) (Height b) (ParentStateRoot b) (ParentMessageReceipts b) (Messages b)
    (BLSAggregate b) (Timestamp b) None (ForkSignaling b) (ParentBaseFee b).

Section Codecs.
Context `{CborLib}.

(** * Fields *)

(** What a sequence of writes writes; the first error ends it. *)
Fixpoint emit (ws : list (option bytes)) : option bytes :=
  match ws with
  | [] => Some EmptyString
  | w :: ws => b ← w; r ← emit ws; Some (String.append b r)
  end.

Definition write_uint64 (n : Z) : option bytes := Some (WriteMajorTypeHeader MajUnsignedInt n).

Definition write_int64 (z : Z) : option bytes :=
  if 0 <=? z then Some (WriteMajorTypeHeader MajUnsignedInt (wrapu64 z))
  else Some (WriteMajorTypeHeader MajNegativeInt (wrapu64 (wrap64 (- z) ⊟ 1))).

Definition write_bytes (b : bytes) : option bytes :=
  if ByteArrayMaxLen <? blen b then None
  else emit [Some (WriteMajorTypeHeader MajByteString (blen b)); Some b].

Definition write_slice {A} (write : A → option bytes) (l : list A) : option bytes :=
  let n := Z.of_nat (length l) in
  if MaxLength <? n then None
  else emit (Some (WriteMajorTypeHeader MajArray n) :: map write l).

(** A nil receiver, or the length of the array and the fields. *)
Definition marshal_struct {A} (lengthBuf : Z) (fields : A → list (option bytes)) (t : option A) : option bytes :=
  match t with
  | None => Some CborNull
  | Some t => emit (Some (byte lengthBuf) :: fields t)
  end.

Definition read_uint64 : reader Z :=
  '(maj, extra) ← ReadHeader;
  if negb (maj =? MajUnsignedInt) then fail WrongType else mret extra.

Definition read_int64 : reader Z :=
  '(maj, extra) ← ReadHeader;
  let extraI := wrap64 extra in
  if maj =? MajUnsignedInt then (if extraI <? 0 then fail Int64Overflow else mret extraI)
  else if maj =? MajNegativeInt then (if extraI <? 0 then fail Int64Overflow else mret (-1 ⊟ extraI))
  else fail WrongType.

Definition read_bytes : reader bytes :=
  '(maj, extra) ← ReadHeader;
  if ByteArrayMaxLen <? extra then fail TooLarge
  else if negb (maj =? MajByteString) then fail WrongType
  else ReadFull extra.

Fixpoint read_n {A} (n : nat) (read : reader A) : reader (list A) :=
  match n with
  | O => mret []
  | S n => x ← read; l ← read_n n read; mret (x :: l)
  end.

Definition read_slice {A} (read : reader A) : reader (list A) :=
  '(maj, extra) ← ReadHeader;
  if MaxLength <? extra then fail TooLarge
  else if negb (maj =? MajArray) then fail WrongType
  else read_n (Z.to_nat extra) read.

(** A pointer: [ReadByte], and [UnreadByte] when it is not null. *)
Definition read_pointer {A} (read : reader A) : reader (option A) := fun s =>
  match s with
  | EmptyString => Err EOF
  | String c s' =>
      if bool_decide (String c EmptyString = CborNull) then Ok (None, s')
      else (x ← wrapped read; mret (Some x)) s
  end.

Definition unmarshal_struct {A} (n : Z) (fields : reader A) : reader A :=
  '(maj, extra) ← ReadHeader;
  unexpected (if negb (maj =? MajArray) then fail NotAnArray
              else if negb (extra =? n) then fail WrongFieldCount
              else fields).

(** * Types *)

Definition Ticket_Marshal : option Ticket → option bytes :=
  marshal_struct 129 (fun t => [write_bytes (tk_VRFProof t)]).

Definition Ticket_Unmarshal : reader Ticket :=
  unmarshal_struct 1 (vrf ← read_bytes; mret (mkTicket vrf)).

Definition ElectionProof_Marshal : option ElectionProof → option bytes :=
  marshal_struct 130 (fun t => [write_int64 (ep_WinCount t); write_bytes (ep_VRFProof t)]).

Definition ElectionProof_Unmarshal : reader ElectionProof :=
  unmarshal_struct 2 (wins ← read_int64; vrf ← read_bytes; mret (mkElectionProof wins vrf)).

Definition BeaconEntry_Marshal : option BeaconEntry → option bytes :=
  marshal_struct 130 (fun t => [write_uint64 (Round t); write_bytes (Data t)]).

Definition BeaconEntry_Unmarshal : reader BeaconEntry :=
  unmarshal_struct 2 (round ← read_uint64; data ← read_bytes; mret (mkBeaconEntry round data)).

Definition Message_Marshal : option Message → option bytes :=
  marshal_struct 138 (fun t =>
    [write_uint64 (Version t); addr_Marshal (To t); addr_Marshal (From t); write_uint64 (msgNonce t);
     big_Marshal (Value t); write_int64 (GasLimit t); big_Marshal (GasFeeCap t); big_Marshal (GasPremium t);
     write_uint64 (Method t); write_bytes (Params t)]).

Definition Message_Unmarshal : reader Message :=
  unmarshal_struct 10 (
    version ← read_uint64; to ← wrapped addr_Unmarshal; from ← wrapped addr_Unmarshal; nonce ← read_uint64;
    value ← wrapped big_Unmarshal; gasLimit ← read_int64; feeCap ← wrapped big_Unmarshal; premium ← wrapped big_Unmarshal;
    method ← read_uint64; params ← read_bytes;
    mret (mkMessage version to from nonce (Some value) gasLimit (Some feeCap) (Some premium) method params)).

Definition SignedMessage_Marshal : option SignedMessage → option bytes :=
  marshal_struct 130 (fun t => [Message_Marshal (Some (sm_Message t)); sig_Marshal (Some (sm_SigType t, sm_SigData t))]).

Definition SignedMessage_Unmarshal : reader SignedMessage :=
  unmarshal_struct 2 (
    msg ← wrapped Message_Unmarshal; s ← wrapped sig_Unmarshal; mret (mkSignedMessage msg s.1 s.2)).

Definition MsgMeta_Marshal : option MsgMeta → option bytes :=
  marshal_struct 130 (fun t => [WriteCid (mm_BlsMessages t); WriteCid (mm_SecpkMessages t)]).

Definition MsgMeta_Unmarshal : reader MsgMeta :=
  unmarshal_struct 2 (bls ← wrapped ReadCid; secpk ← wrapped ReadCid; mret (mkMsgMeta bls secpk)).

Definition Actor_Marshal : option Actor → option bytes :=
  marshal_struct 132 (fun t => [WriteCid (Code t); WriteCid (Head t); write_uint64 (Nonce t); big_Marshal (Some (Balance t))]).

Definition Actor_Unmarshal : reader Actor :=
  unmarshal_struct 4 (
    code ← wrapped ReadCid; head ← wrapped ReadCid; nonce ← read_uint64; balance ← wrapped big_Unmarshal;
    mret (mkActor code head nonce balance)).

Definition MessageReceipt_Marshal : option MessageReceipt → option bytes :=
  marshal_struct 131 (fun t => [write_int64 (ExitCode t); write_bytes (Return t); write_int64 (GasUsed t)]).

Definition MessageReceipt_Unmarshal : reader MessageReceipt :=
  unmarshal_struct 3 (code ← read_int64; ret ← read_bytes; gas ← read_int64; mret (mkMessageReceipt code ret gas)).

Definition StateRoot_Marshal : option StateRoot → option bytes :=
  marshal_struct 131 (fun t => [write_uint64 (sr_Version t); WriteCid (sr_Actors t); WriteCid (sr_Info t)]).

Definition StateRoot_Unmarshal : reader StateRoot :=
  unmarshal_struct 3 (
    version ← read_uint64; actors ← wrapped ReadCid; info ← wrapped ReadCid; mret (mkStateRoot version actors info)).

Definition StateInfo0_Marshal : option StateInfo0 → option bytes := marshal_struct 128 (fun _ => []).

Definition StateInfo0_Unmarshal : reader StateInfo0 := unmarshal_struct 0 (mret mkStateInfo0).

Definition BlockHeader_Marshal : option BlockHeader → option bytes :=
  marshal_struct 144 (fun t =>
    [addr_Marshal (Miner t); Ticket_Marshal (bh_Ticket t); ElectionProof_Marshal (bh_ElectionProof t);
     write_slice (fun v => BeaconEntry_Marshal (Some v)) (BeaconEntries t); write_slice post_Marshal (WinPoStProof t);
     write_slice WriteCid (Parents t); big_Marshal (ParentWeight t); write_int64 (Height t);
     WriteCid (ParentStateRoot t); WriteCid (ParentMessageReceipts t); WriteCid (Messages t);
     sig_Marshal (BLSAggregate t); write_uint64 (Timestamp t); sig_Marshal (BlockSig t);
     write_uint64 (ForkSignaling t); big_Marshal (ParentBaseFee t)]).

Definition BlockHeader_Unmarshal : reader BlockHeader :=
  unmarshal_struct 16 (
    miner ← wrapped addr_Unmarshal; ticket ← read_pointer Ticket_Unmarshal; proof ← read_pointer ElectionProof_Unmarshal;
    beacons ← read_slice BeaconEntry_Unmarshal; posts ← read_slice post_Unmarshal; parents ← read_slice (wrapped ReadCid);
    weight ← wrapped big_Unmarshal; height ← read_int64;
    state ← wrapped ReadCid; receipts ← wrapped ReadCid; messages ← wrapped ReadCid;
    bls ← read_pointer sig_Unmarshal; timestamp ← read_uint64; sig ← read_pointer sig_Unmarshal;
    fork ← read_uint64; baseFee ← wrapped big_Unmarshal;
    mret (mkBlockHeader miner ticket proof beacons posts parents (Some weight) height state receipts messages bls
            timestamp sig fork (Some baseFee))).

Definition BlockMsg_Marshal : option BlockMsg → option bytes :=
  marshal_struct 131 (fun t =>
    [BlockHeader_Marshal (Header t); write_slice WriteCid (bm_BlsMessages t); write_slice WriteCid (bm_SecpkMessages t)]).

Definition BlockMsg_Unmarshal : reader BlockMsg :=
  unmarshal_struct 3 (
    header ← read_pointer BlockHeader_Unmarshal; bls ← read_slice (wrapped ReadCid); secpk ← read_slice (wrapped ReadCid);
    mret (mkBlockMsg header bls secpk)).

Definition ExpTipSet_Marshal : option ExpTipSet → option bytes :=
  marshal_struct 131 (fun t =>
    [write_slice WriteCid (ets_Cids t); write_slice BlockHeader_Marshal (ets_Blocks t); write_int64 (ets_Height t)]).

Definition ExpTipSet_Unmarshal : reader ExpTipSet :=
  unmarshal_struct 3 (
    cids ← read_slice (wrapped ReadCid); blocks ← read_slice BlockHeader_Unmarshal; height ← read_int64;
    mret (mkExpTipSet cids (Some <$> blocks) height)).

(** * Serialisation *)

Definition MessageVersion : Z := 0.

Definition Message_Serialize (m : Message) : option bytes := Message_Marshal (Some m).

Definition decode {A} (unmarshal : reader A) (b : bytes) : result cbor_error A :=
  match unmarshal b with
  | Ok (x, _) => Ok x
  | Err e => Err e
  end.

Definition DecodeMessage (b : bytes) : result cbor_error Message :=
  match decode Message_Unmarshal b with
  | Err e => Err e
  | Ok msg => if negb (Version msg =? MessageVersion) then Err BadVersion else Ok msg
  end.

Definition SignedMessage_Serialize (sm : SignedMessage) : option bytes := SignedMessage_Marshal (Some sm).
Definition DecodeSignedMessage (b : bytes) : result cbor_error SignedMessage := decode SignedMessage_Unmarshal b.

(** [None] is a panic. *)
Definition Message_ChainLength (m : Message) : option Z := blen <$> Message_Serialize m.

Definition SignedMessage_ChainLength (sm : SignedMessage) : option Z :=
  let ser := match sm_SigType sm with
             | SigTypeBLS => Message_Serialize (sm_Message sm)
             | _ => SignedMessage_Serialize sm
             end in
  blen <$> ser.

Definition SignedMessage_Size (sm : SignedMessage) : Z :=
  match SignedMessage_Serialize sm with
  | None => 0
  | Some serdata => blen serdata
  end.

Definition BlockHeader_Serialize (blk : BlockHeader) : option bytes := BlockHeader_Marshal (Some blk).
Definition DecodeBlock (b : bytes) : result cbor_error BlockHeader := decode BlockHeader_Unmarshal b.

Definition SigningBytes (blk : BlockHeader) : option bytes := BlockHeader_Serialize (unsigned blk).

Definition BlockMsg_Serialize (bm : BlockMsg) : option bytes := BlockMsg_Marshal (Some bm).
Definition DecodeBlockMsg (b : bytes) : result cbor_error BlockMsg := decode BlockMsg_Unmarshal b.
End Codecs.
