(* ===== verification/CborProps.v ===== *)
(** Round trips of the CBOR codecs: what an encoder writes, its decoder reads
    back, with the rest of the input left; what a decoder returns is in range.

    [decodes w r x]: from the bytes of the write [w], the reader [r] returns [x].
    One lemma per kind of field is enough for every type, because [emit] and the
    bind of the reader are taken apart together ([decodes_bind]). *)

From Stdlib Require Import Ascii.
From S2P Require Import Prelude Gas Types MsgSet Cbor.
Import Gas.Prices.

#[local] Arguments String.append !_ _ / : simpl nomatch.

Lemma append_nil_r (s : string) : String.append s EmptyString = s.
Proof. induction s as [|c s IH]; simpl; [done | by rewrite IH]. Qed.

Lemma append_assoc (a b c : string) : String.append (String.append a b) c = String.append a (String.append b c).
Proof. induction a as [|x a IH]; simpl; [done | by rewrite IH]. Qed.

Lemma split_at_append a b : split_at (String.length a) (String.append a b) = Some (a, b).
Proof. induction a as [|c a IH]; simpl; [done | by rewrite IH]. Qed.

Lemma split_at_length n : ∀ s a b, split_at n s = Some (a, b) → String.length a = n.
Proof.
  induction n as [|n IH]; intros [|c s] a b; simpl; try naive_solver.
  destruct (split_at n s) as [[a' b']|] eqn:E; simpl; [|done].
  intros [= <- <-]. simpl. by erewrite IH.
Qed.

Lemma byte_inj a b : 0 <= a < 256 → 0 <= b < 256 → byte a = byte b → a = b.
Proof.
  intros Ha Hb E.
  apply (f_equal (fun s => match s with String c _ => N_of_ascii c | EmptyString => 0%N end)) in E.
  unfold byte in E. rewrite !N_ascii_embedding in E; lia.
Qed.

Definition decodes {A} (w : option bytes) (r : reader A) (x : A) : Prop :=
  ∀ b, w = Some b → ∀ rest, r (String.append b rest) = Ok (x, rest).

(** [r] returns only values that satisfy [P]. *)
Definition yields {A} (r : reader A) (P : A → Prop) : Prop := ∀ s x rest, r s = Ok (x, rest) → P x.

Section Fields.
Context `{CborBaseLaws}.

(** * Reading back *)

Lemma decodes_nil {A} (x : A) : decodes (emit []) (mret x) x.
Proof. by intros b [= <-] rest. Qed.

Lemma decodes_bind {A B} w ws (r : reader A) (k : A → reader B) x y :
  decodes w r x → decodes (emit ws) (k x) y → decodes (emit (w :: ws)) (r ≫= k) y.
Proof.
  intros Hr Hk b. simpl. destruct w as [c|]; [|done]. simpl. destruct (emit ws) as [d|]; [|done].
  intros [= <-] rest. rewrite append_assoc. unfold mbind, reader_bind. rewrite (Hr c eq_refl). by apply Hk.
Qed.

Lemma decodes_wrapped {A} w (r : reader A) x : decodes w r x → decodes w (wrapped r) x.
Proof. intros Hr b Hb rest. unfold wrapped. by rewrite (Hr b Hb). Qed.

Lemma reads_back_decodes {A B} (m : A → option bytes) (u : reader B) R a (x : B) :
  reads_back m u R → (∀ y, R a y → y = x) → decodes (m a) u x.
Proof. intros Hu HR b Hb rest. destruct (Hu a b Hb) as (y & Hy & E). by rewrite E, (HR y Hy). Qed.

Lemma decodes_cid c : decodes (WriteCid c) ReadCid c.
Proof. eapply reads_back_decodes; [apply ReadCid_written | naive_solver]. Qed.

Lemma decodes_addr a : decodes (addr_Marshal a) addr_Unmarshal a.
Proof. eapply reads_back_decodes; [apply addr_written | naive_solver]. Qed.

Lemma decodes_big z : decodes (big_Marshal z) big_Unmarshal (default 0 z).
Proof. eapply reads_back_decodes; [apply big_written | naive_solver]. Qed.

Lemma decodes_post p : decodes (post_Marshal p) post_Unmarshal p.
Proof. eapply reads_back_decodes; [apply post_written | naive_solver]. Qed.

Lemma ReadHeader_bind {B} (k : Z * Z → reader B) maj n rest :
  0 <= maj < 8 → in_u64 n →
  (ReadHeader ≫= k) (String.append (WriteMajorTypeHeader maj n) rest) = k (maj, n) rest.
Proof. intros. unfold mbind, reader_bind. by rewrite ReadHeader_written. Qed.

Lemma decodes_uint64 n : in_u64 n → decodes (write_uint64 n) read_uint64 n.
Proof.
  intros Hn b [= <-] rest. unfold read_uint64, MajUnsignedInt. by rewrite ReadHeader_bind.
Qed.

(** The extra of a negative integer: [-z - 1], also for the least [int64]. *)
Lemma neg_extra z : in_i64 z → z < 0 → wrapu64 (wrap64 (- z) ⊟ 1) = - z - 1.
Proof.
  intros Hz Hneg. unfold i64_sub. assert (wrap64 (wrap64 (- z) - 1) = - z - 1) as ->.
  { unfold in_i64 in Hz. destruct (decide (z = - 2 ^ 63)) as [-> | Hne]; [done|].
    rewrite (wrap64_id (- z)) by (unfold in_i64; lia). apply wrap64_id. unfold in_i64. lia. }
  apply wrapu64_id. unfold in_i64, in_u64 in *. lia.
Qed.

Lemma decodes_int64 z : in_i64 z → decodes (write_int64 z) read_int64 z.
Proof.
  intros Hz b. unfold write_int64, read_int64, MajUnsignedInt, MajNegativeInt. destruct (Z.leb_spec 0 z) as [Hp|Hn].
  - intros [= <-] rest. rewrite wrapu64_id by (unfold in_i64, in_u64 in *; lia).
    rewrite ReadHeader_bind by (unfold in_i64, in_u64 in *; lia). simpl.
    rewrite wrap64_id by done. by destruct (Z.ltb_spec z 0); [lia|].
  - intros [= <-] rest. rewrite neg_extra by done.
    assert (in_i64 (- z - 1)) by (unfold in_i64 in *; lia).
    rewrite ReadHeader_bind by (unfold in_i64, in_u64 in *; lia). simpl. rewrite wrap64_id by done.
    destruct (Z.ltb_spec (- z - 1) 0); [lia|]. unfold i64_sub.
    by replace (-1 - (- z - 1)) with z by lia; rewrite wrap64_id.
Qed.

Lemma decodes_bytes s : decodes (write_bytes s) read_bytes s.
Proof.
  intros b. unfold write_bytes, read_bytes, MajByteString. destruct (Z.ltb_spec ByteArrayMaxLen (blen s)) as [|Hl]; [done|].
  simpl. intros [= <-] rest. rewrite append_nil_r, append_assoc.
  destruct limits_u64 as [_ Hmax]. unfold in_u64, blen in *.
  rewrite ReadHeader_bind by (unfold in_u64; lia). simpl. destruct (Z.ltb_spec ByteArrayMaxLen (Z.of_nat (String.length s))); [lia|].
  unfold ReadFull. by rewrite Nat2Z.id, split_at_append.
Qed.

Lemma decodes_n {A B} (w : A → option bytes) (r : reader B) l l' :
  Forall2 (fun x y => decodes (w x) r y) l l' → decodes (emit (map w l)) (read_n (length l) r) l'.
Proof.
  induction 1 as [|x y l l' Hx Hl IH]; simpl; [apply decodes_nil|].
  apply (decodes_bind (w x) (map w l) r) with y; [done|]. intros b Hb rest.
  unfold mbind, reader_bind. by rewrite (IH b Hb).
Qed.

Lemma decodes_slice2 {A B} (w : A → option bytes) (r : reader B) l l' :
  Forall2 (fun x y => decodes (w x) r y) l l' → decodes (write_slice w l) (read_slice r) l'.
Proof.
  intros Hl b. unfold write_slice, read_slice, MajArray. destruct (Z.ltb_spec MaxLength (Z.of_nat (length l))) as [|Hn]; [done|].
  cbn [emit]. destruct (emit (map w l)) as [d|] eqn:E; [|done]. simpl. intros [= <-] rest. rewrite append_assoc.
  destruct limits_u64 as [Hmax _]. unfold in_u64 in Hmax.
  rewrite ReadHeader_bind by (unfold in_u64; lia). simpl. destruct (Z.ltb_spec MaxLength (Z.of_nat (length l))); [lia|].
  rewrite Nat2Z.id. by apply (decodes_n w r l l' Hl d E).
Qed.

Lemma decodes_slice {A} (P : A → Prop) (w : A → option bytes) (r : reader A) l :
  (∀ x, P x → decodes (w x) r x) → Forall P l → decodes (write_slice w l) (read_slice r) l.
Proof. intros Hw Hl. apply decodes_slice2. induction Hl; constructor; auto. Qed.

Lemma decodes_pointer {A} (w : option A → option bytes) (r : reader A) (canon : A → A) t :
  w None = Some CborNull → (∀ x b, w (Some x) = Some b → starts_nonnull b) →
  (∀ x, t = Some x → decodes (w (Some x)) r (canon x)) → decodes (w t) (read_pointer r) (canon <$> t).
Proof.
  intros Hnil Hnn Hr b Hb rest. destruct t as [x|].
  - destruct (Hnn x b Hb) as (c & b' & -> & Hc). simpl. rewrite bool_decide_eq_false_2 by done.
    unfold mbind, reader_bind, wrapped.
    by rewrite (Hr x eq_refl _ Hb rest : r (String c (String.append b' rest)) = _).
  - rewrite Hnil in Hb. injection Hb as <-. done.
Qed.

Lemma decodes_struct {A B} lengthBuf n (fields : A → list (option bytes)) (body : reader B) t x :
  lengthBuf = 128 + n → 0 <= n < 24 → decodes (emit (fields t)) body x →
  decodes (marshal_struct lengthBuf fields (Some t)) (unmarshal_struct n body) x.
Proof.
  intros -> Hn Hb b. unfold marshal_struct, unmarshal_struct, MajArray. cbn [emit].
  destruct (emit (fields t)) as [d|]; [|done]. intros Eb rest.
  assert (b = String.append (byte (4 * 32 + n)) d) as -> by (injection Eb as <-; done).
  rewrite append_assoc, <- (header_short 4 n), ReadHeader_bind by (unfold in_u64; lia). simpl.
  rewrite Z.eqb_refl. simpl. unfold unexpected. by rewrite (Hb d eq_refl rest).
Qed.

Lemma struct_nonnull {A} lengthBuf (fields : A → list (option bytes)) x b :
  128 <= lengthBuf < 152 → marshal_struct lengthBuf fields (Some x) = Some b → starts_nonnull b.
Proof.
  intros Hn. unfold marshal_struct. cbn [emit]. destruct (emit (fields x)) as [d|]; [|done]. simpl.
  intros [= <-]. eexists _, _. split; [done|]. intros E. apply byte_inj in E; lia.
Qed.

(** * What a reader returns *)

Lemma yields_any {A} (r : reader A) : yields r (fun _ => True).
Proof. done. Qed.

Lemma yields_ret {A} (x : A) (P : A → Prop) : P x → yields (mret x) P.
Proof. by intros Hx s y rest [= <- <-]. Qed.

Lemma yields_bind {A B} (r : reader A) (k : A → reader B) P Q :
  yields r P → (∀ x, P x → yields (k x) Q) → yields (r ≫= k) Q.
Proof.
  intros Hr Hk s y rest. unfold mbind, reader_bind. destruct (r s) as [[x s']|] eqn:E; [|done].
  apply Hk. by apply (Hr s x s').
Qed.

Lemma yields_wrapped {A} (r : reader A) P : yields r P → yields (wrapped r) P.
Proof. intros Hr s x rest. unfold wrapped. destruct (r s) eqn:E; [|done]. intros [= ->]. by eapply Hr. Qed.

Lemma yields_header {B} (k : Z * Z → reader B) Q :
  (∀ maj n, in_u64 n → yields (k (maj, n)) Q) → yields (ReadHeader ≫= k) Q.
Proof.
  intros Hk. apply yields_bind with (fun h => in_u64 h.2).
  - intros s [maj n] rest E. by eapply ReadHeader_width.
  - intros [maj n]. apply Hk.
Qed.

Lemma yields_fail {A} e (P : A → Prop) : yields (fail e) P.
Proof. done. Qed.

Lemma yields_uint64 : yields read_uint64 in_u64.
Proof. apply yields_header. intros maj n Hn. case_match; [apply yields_fail | by apply yields_ret]. Qed.

Lemma yields_int64 : yields read_int64 in_i64.
Proof.
  apply yields_header. intros maj n Hn. cbv zeta. repeat case_match; try apply yields_fail; apply yields_ret; apply wrap64_range.
Qed.

Lemma yields_bytes : yields read_bytes (fun b => blen b <= ByteArrayMaxLen).
Proof.
  apply yields_header. intros maj n Hn. destruct (Z.ltb_spec ByteArrayMaxLen n); [apply yields_fail|].
  case_match; [apply yields_fail|]. intros s x rest. unfold ReadFull. case_match eqn:E; [|done].
  intros [= ->]. apply split_at_length in E. unfold in_u64, blen in *. lia.
Qed.

Lemma yields_n {A} n (r : reader A) P : yields r P → yields (read_n n r) (fun l => Forall P l ∧ length l = n).
Proof.
  intros Hr. induction n as [|n IH]; simpl; [by apply yields_ret|].
  eapply yields_bind; [exact Hr|]. intros x Hx. eapply yields_bind; [exact IH|]. intros l [Hl <-].
  apply yields_ret. split; [by constructor | done].
Qed.

Lemma yields_slice {A} (r : reader A) P :
  yields r P → yields (read_slice r) (fun l => Forall P l ∧ Z.of_nat (length l) <= MaxLength).
Proof.
  intros Hr. apply yields_header. intros maj n Hn. destruct (Z.ltb_spec MaxLength n); [apply yields_fail|].
  case_match; [apply yields_fail|]. intros s l rest E.
  destruct (yields_n (Z.to_nat n) r P Hr s l rest E). unfold in_u64 in Hn. split; [done | lia].
Qed.

Lemma yields_pointer {A} (r : reader A) P : yields r P → yields (read_pointer r) (fun t => ∀ x, t = Some x → P x).
Proof.
  intros Hr. assert (yields (x ← wrapped r; mret (Some x)) (fun t => ∀ x, t = Some x → P x)) as Hy.
  { eapply yields_bind; [by apply yields_wrapped|]. intros x Hx. apply yields_ret. by intros y [= <-]. }
  intros [|c s] t rest; [done|]. unfold read_pointer. case_match; [by intros [= <- <-] | apply Hy].
Qed.

Lemma yields_struct {A} n (body : reader A) P : yields body P → yields (unmarshal_struct n body) P.
Proof.
  intros Hb. apply yields_header. intros maj extra _ s x rest. unfold unexpected.
  repeat case_match; simplify_eq; intros; simplify_eq; by eapply Hb.
Qed.
End Fields.

Create HintDb cbor discriminated.
#[export] Hint Resolve decodes_cid decodes_addr decodes_big decodes_post decodes_uint64 decodes_int64
  decodes_bytes decodes_wrapped : cbor.
#[export] Hint Resolve yields_uint64 yields_int64 yields_bytes yields_pointer yields_slice : cbor.

(** One field after the other. *)
Ltac decode_fields :=
  eapply decodes_struct; [done | lia|];
  repeat (eapply decodes_bind; [by eauto with cbor|]); apply decodes_nil.

Ltac yield_fields :=
  apply yields_struct;
  repeat (eapply yields_bind; [first [by eauto 2 with cbor | apply yields_any]|]; intros ? ?); apply yields_ret.
