(* ===== verification/CborTheorems.v ===== *)
(** The codecs of the chain types: each decoder reads back what its encoder
    writes, up to the amounts that are nil, which are written as zero; what a
    decoder accepts is within the widths and the limits; a block's signing bytes
    determine every field the signature is to cover. *)

From Stdlib Require Import Ascii.
From S2P Require Import Prelude Gas Types MsgSet Cbor CborProps.
Import Gas.Prices.

(** * The widths of the fields, and the values with no nil amount *)

Definition Message_typed (m : Message) : Prop :=
  in_u64 (Version m) ∧ in_u64 (msgNonce m) ∧ in_i64 (GasLimit m) ∧ in_u64 (Method m).

Definition Message_canon (m : Message) : Message :=
  mkMessage (Version m) (To m) (From m) (msgNonce m) (Some (default 0 (Value m))) (GasLimit m)
    (Some (default 0 (GasFeeCap m))) (Some (default 0 (GasPremium m))) (Method m) (Params m).

Definition SignedMessage_canon (m : SignedMessage) : SignedMessage :=
  mkSignedMessage (Message_canon (sm_Message m)) (sm_SigType m) (sm_SigData m).

Definition ElectionProof_typed (e : ElectionProof) : Prop := in_i64 (ep_WinCount e).
Definition BeaconEntry_typed (e : BeaconEntry) : Prop := in_u64 (Round e).
Definition MessageReceipt_typed (r : MessageReceipt) : Prop := in_i64 (ExitCode r) ∧ in_i64 (GasUsed r).

Definition BlockHeader_typed (b : BlockHeader) : Prop :=
  (∀ e, bh_ElectionProof b = Some e → ElectionProof_typed e) ∧ Forall BeaconEntry_typed (BeaconEntries b) ∧
  in_i64 (Height b) ∧ in_u64 (Timestamp b) ∧ in_u64 (ForkSignaling b).

Definition BlockHeader_canon (b : BlockHeader) : BlockHeader :=
  mkBlockHeader (Miner b) (bh_Ticket b) (bh_ElectionProof b) (BeaconEntries b) (WinPoStProof b) (Parents b)
    (Some (default 0 (ParentWeight b))) (Height b) (ParentStateRoot b) (ParentMessageReceipts b) (Messages b)
    (BLSAggregate b) (Timestamp b) (BlockSig b) (ForkSignaling b) (Some (default 0 (ParentBaseFee b))).

(** The signatures of a header. *)
Definition BlockHeader_sigs (V : SigType * bytes → Prop) (b : BlockHeader) : Prop :=
  (∀ s, BLSAggregate b = Some s → V s) ∧ (∀ s, BlockSig b = Some s → V s).

Definition BlockMsg_typed (bm : BlockMsg) : Prop := ∀ b, Header bm = Some b → BlockHeader_typed b.

Definition BlockMsg_canon (bm : BlockMsg) : BlockMsg :=
  mkBlockMsg (BlockHeader_canon <$> Header bm) (bm_BlsMessages bm) (bm_SecpkMessages bm).

(** The signatures that are read back are those in [V]. *)
Section Types.
Context `{CborBaseLaws} (V : SigType * bytes → Prop) (Hsig : ∀ s, V s → decodes (sig_Marshal (Some s)) sig_Unmarshal s).

(** * Round trips *)

Lemma Ticket_decodes t : decodes (Ticket_Marshal (Some t)) Ticket_Unmarshal t.
Proof. destruct t. decode_fields. Qed.

Lemma ElectionProof_decodes t : ElectionProof_typed t → decodes (ElectionProof_Marshal (Some t)) ElectionProof_Unmarshal t.
Proof. destruct t. intros. decode_fields. Qed.

Lemma BeaconEntry_decodes t : BeaconEntry_typed t → decodes (BeaconEntry_Marshal (Some t)) BeaconEntry_Unmarshal t.
Proof. destruct t. intros. decode_fields. Qed.

Lemma Message_decodes m : Message_typed m → decodes (Message_Marshal (Some m)) Message_Unmarshal (Message_canon m).
Proof. intros (? & ? & ? & ?). decode_fields. Qed.

Lemma SignedMessage_decodes sm :
  Message_typed (sm_Message sm) → V (sm_SigType sm, sm_SigData sm) →
  decodes (SignedMessage_Marshal (Some sm)) SignedMessage_Unmarshal (SignedMessage_canon sm).
Proof. intros. pose proof Message_decodes. decode_fields. Qed.

Lemma MsgMeta_decodes t : decodes (MsgMeta_Marshal (Some t)) MsgMeta_Unmarshal t.
Proof. destruct t. decode_fields. Qed.

Lemma Actor_decodes t : in_u64 (Nonce t) → decodes (Actor_Marshal (Some t)) Actor_Unmarshal t.
Proof. destruct t. intros. decode_fields. Qed.

Lemma MessageReceipt_decodes t :
  MessageReceipt_typed t → decodes (MessageReceipt_Marshal (Some t)) MessageReceipt_Unmarshal t.
Proof. destruct t. intros [? ?]. decode_fields. Qed.

Lemma StateRoot_decodes t : in_u64 (sr_Version t) → decodes (StateRoot_Marshal (Some t)) StateRoot_Unmarshal t.
Proof. destruct t. intros. decode_fields. Qed.

Lemma StateInfo0_decodes t : decodes (StateInfo0_Marshal (Some t)) StateInfo0_Unmarshal t.
Proof. destruct t. decode_fields. Qed.

Lemma decodes_optional {A} (w : option A → option bytes) (r : reader A) t :
  w None = Some CborNull → (∀ x b, w (Some x) = Some b → starts_nonnull b) →
  (∀ x, t = Some x → decodes (w (Some x)) r x) → decodes (w t) (read_pointer r) t.
Proof. intros. rewrite <- (option_fmap_id t) at 2. by apply (decodes_pointer w r id). Qed.

Lemma sig_decodes s : (∀ x, s = Some x → V x) → decodes (sig_Marshal s) (read_pointer sig_Unmarshal) s.
Proof. intros HV. apply decodes_optional; [apply sig_nil | apply sig_not_null | auto]. Qed.

Lemma Ticket_pointer t : decodes (Ticket_Marshal t) (read_pointer Ticket_Unmarshal) t.
Proof.
  apply decodes_optional; [done | intros ? ?; by apply (struct_nonnull 129) | intros; apply Ticket_decodes].
Qed.

Lemma ElectionProof_pointer t :
  (∀ e, t = Some e → ElectionProof_typed e) →
  decodes (ElectionProof_Marshal t) (read_pointer ElectionProof_Unmarshal) t.
Proof.
  intros Ht. apply decodes_optional; [done | intros ? ?; by apply (struct_nonnull 130) | auto using ElectionProof_decodes].
Qed.

Lemma cids_decode l : decodes (write_slice WriteCid l) (read_slice (wrapped ReadCid)) l.
Proof. apply (decodes_slice (fun _ => True)); [auto with cbor | by apply Forall_true]. Qed.

Lemma posts_decode l : decodes (write_slice post_Marshal l) (read_slice post_Unmarshal) l.
Proof. apply (decodes_slice (fun _ => True)); [auto with cbor | by apply Forall_true]. Qed.

Lemma beacons_decode l :
  Forall BeaconEntry_typed l →
  decodes (write_slice (fun v => BeaconEntry_Marshal (Some v)) l) (read_slice BeaconEntry_Unmarshal) l.
Proof. apply decodes_slice, BeaconEntry_decodes. Qed.

#[local] Hint Resolve sig_decodes Ticket_pointer ElectionProof_pointer cids_decode posts_decode beacons_decode : cbor.

Lemma BlockHeader_decodes b :
  BlockHeader_typed b → BlockHeader_sigs V b →
  decodes (BlockHeader_Marshal (Some b)) BlockHeader_Unmarshal (BlockHeader_canon b).
Proof. intros (? & ? & ? & ? & ?) [? ?]. decode_fields. Qed.

Lemma BlockMsg_decodes bm :
  BlockMsg_typed bm → (∀ b, Header bm = Some b → BlockHeader_sigs V b) →
  decodes (BlockMsg_Marshal (Some bm)) BlockMsg_Unmarshal (BlockMsg_canon bm).
Proof.
  intros Hb HV. eapply decodes_struct; [done | lia|]. eapply decodes_bind.
  - apply (decodes_pointer BlockHeader_Marshal _ BlockHeader_canon); [done | intros ? ?; by apply (struct_nonnull 144)|].
    intros b Eb. apply BlockHeader_decodes; [by apply Hb | by apply HV].
  - repeat (eapply decodes_bind; [by eauto with cbor|]). apply decodes_nil.
Qed.

(** A tipset's blocks are pointers, and the decoder makes one for each. *)
Lemma ExpTipSet_decodes cids blocks height :
  Forall (fun b => BlockHeader_typed b ∧ BlockHeader_sigs V b) blocks → in_i64 height →
  decodes (ExpTipSet_Marshal (Some (mkExpTipSet cids (Some <$> blocks) height))) ExpTipSet_Unmarshal
    (mkExpTipSet cids (Some <$> (BlockHeader_canon <$> blocks)) height).
Proof.
  intros Hb Hh. eapply decodes_struct; [done | lia|]. eapply decodes_bind; [by eauto with cbor|].
  eapply decodes_bind with (x := BlockHeader_canon <$> blocks).
  - apply decodes_slice2. induction Hb as [|b l [? ?]]; constructor; auto using BlockHeader_decodes.
  - eapply decodes_bind; [by eauto with cbor|]. apply decodes_nil.
Qed.

(** * Decoded values *)

Lemma Message_yields : yields Message_Unmarshal (fun m => Message_typed m ∧ blen (Params m) <= ByteArrayMaxLen).
Proof. yield_fields. unfold Message_typed. simpl. tauto. Qed.

Lemma Ticket_yields : yields Ticket_Unmarshal (fun t => blen (tk_VRFProof t) <= ByteArrayMaxLen).
Proof. yield_fields. done. Qed.

Lemma ElectionProof_yields :
  yields ElectionProof_Unmarshal (fun e => ElectionProof_typed e ∧ blen (ep_VRFProof e) <= ByteArrayMaxLen).
Proof. yield_fields. done. Qed.

Lemma BeaconEntry_yields : yields BeaconEntry_Unmarshal (fun e => BeaconEntry_typed e ∧ blen (Data e) <= ByteArrayMaxLen).
Proof. yield_fields. done. Qed.

Lemma beacons_yield : yields (read_slice BeaconEntry_Unmarshal) (fun l =>
  Forall BeaconEntry_typed l ∧ Forall (fun e => blen (Data e) <= ByteArrayMaxLen) l ∧ Z.of_nat (length l) <= MaxLength).
Proof. intros s l rest [[? ?]%Forall_and ?]%(yields_slice _ _ BeaconEntry_yields). done. Qed.

(** The arrays and the byte strings of a header. *)
Definition BlockHeader_bounded (b : BlockHeader) : Prop :=
  Forall (fun n => Z.of_nat n <= MaxLength) [length (BeaconEntries b); length (WinPoStProof b); length (Parents b)] ∧
  (∀ t, bh_Ticket b = Some t → blen (tk_VRFProof t) <= ByteArrayMaxLen) ∧
  (∀ e, bh_ElectionProof b = Some e → blen (ep_VRFProof e) <= ByteArrayMaxLen) ∧
  Forall (fun e => blen (Data e) <= ByteArrayMaxLen) (BeaconEntries b).

Lemma BlockHeader_yields : yields BlockHeader_Unmarshal (fun b => BlockHeader_typed b ∧ BlockHeader_bounded b).
Proof.
  pose proof (yields_pointer _ _ Ticket_yields). pose proof (yields_pointer _ _ ElectionProof_yields).
  pose proof beacons_yield.
  pose proof (yields_slice _ _ (yields_any post_Unmarshal)). pose proof (yields_slice _ _ (yields_any (wrapped ReadCid))).
  yield_fields. unfold BlockHeader_typed, BlockHeader_bounded. simpl in *. destruct_and?.
  split_and!; try done; [|by repeat constructor|]; intros e Ee; [eapply proj1 | eapply proj2]; eauto.
Qed.

Lemma decode_ok {A} (u : reader A) w x : decodes w u x → ∀ b rest, w = Some b → decode u (String.append b rest) = Ok x.
Proof. intros Hd b rest Hb. unfold decode. by rewrite (Hd b Hb rest). Qed.

Lemma decode_yields {A} (u : reader A) P b x : yields u P → decode u b = Ok x → P x.
Proof. intros Hu. unfold decode. destruct (u b) as [[y rest]|] eqn:E; [|done]. intros [= <-]. by eapply Hu. Qed.

Lemma decodes_inj {A} (w w' : option bytes) (u : reader A) x x' b :
  decodes w u x → decodes w' u x' → w = Some b → w' = Some b → x = x'.
Proof. intros Hx Hx' Hw Hw'. pose proof (Hx b Hw EmptyString). pose proof (Hx' b Hw' EmptyString). congruence. Qed.

End Types.

(** * Signatures of any type *)

(** The libraries with a reader that reads every signature back. *)
Definition any_sig (L : CborLib) (r : reader (SigType * bytes)) : CborLib := {|
  MaxLength := MaxLength;
  ByteArrayMaxLen := ByteArrayMaxLen;
  SignatureMaxLength := SignatureMaxLength;
  WriteMajorTypeHeader := WriteMajorTypeHeader;
  ReadHeader := ReadHeader;
  WriteCid := WriteCid;
  ReadCid := ReadCid;
  addr_Marshal := addr_Marshal;
  addr_Unmarshal := addr_Unmarshal;
  big_Marshal := big_Marshal;
  big_Unmarshal := big_Unmarshal;
  sig_Marshal := sig_Marshal;
  sig_Unmarshal := r;
  post_Marshal := post_Marshal;
  post_Unmarshal := post_Unmarshal;
|}.

Section Libraries.
Context `{CborLibLaws}.

Lemma any_sig_laws r : @CborBaseLaws (any_sig _ r).
Proof. destruct (lib_base (CborLibLaws := _)) as [Hl Hs Hw Hr Hc Ha Hb Hn Hnn Hsr Hp]. by split. Qed.

(** What is written determines what was, whatever the types of the signatures. *)
Lemma SignedMessage_inj sm sm' b :
  Message_typed (sm_Message sm) → Message_typed (sm_Message sm') →
  SignedMessage_Marshal (Some sm) = Some b → SignedMessage_Marshal (Some sm') = Some b →
  SignedMessage_canon sm' = SignedMessage_canon sm.
Proof.
  intros Ht Ht' Hb Hb'. destruct sig_readable as [r Hr]. pose proof (any_sig_laws r).
  pose proof (@SignedMessage_decodes (any_sig _ r) _ (fun _ => True) (fun s _ => reads_back_decodes _ _ _ s s Hr ltac:(done))) as Hd.
  exact (decodes_inj _ _ _ _ _ b (Hd sm' Ht' I) (Hd sm Ht I) Hb' Hb).
Qed.

Lemma BlockHeader_inj h h' b :
  BlockHeader_typed h → BlockHeader_typed h' →
  BlockHeader_Marshal (Some h) = Some b → BlockHeader_Marshal (Some h') = Some b → BlockHeader_canon h' = BlockHeader_canon h.
Proof.
  intros Ht Ht' Hb Hb'. destruct sig_readable as [r Hr]. pose proof (any_sig_laws r).
  pose proof (@BlockHeader_decodes (any_sig _ r) _ (fun _ => True) (fun s _ => reads_back_decodes _ _ _ s s Hr ltac:(done))) as Hd.
  assert (Hany : ∀ x, BlockHeader_sigs (fun _ => True) x) by (by split).
  exact (decodes_inj _ _ _ _ _ b (Hd h' Ht' (Hany h')) (Hd h Ht (Hany h)) Hb' Hb).
Qed.

Lemma valid_decodes s : valid_sig s → decodes (sig_Marshal (Some s)) sig_Unmarshal s.
Proof. intros Hv b Hb rest. by apply sig_written. Qed.

(** * Theorems *)

(** C22: signed messages survive serialisation.  From the bytes of [Serialize] of a
    message with a signature of a known type and within the limit, followed by anything,
    [DecodeSignedMessage] returns the message and the signature, with an amount that was
    nil read as zero; and any other message with the same bytes, whatever its signature,
    agrees with it on every field up to that, including a gas limit that is negative down
    to the least [int64]. *)
Theorem SignedMessage_roundtrip sm b rest :
  Message_typed (sm_Message sm) → valid_sig (sm_SigType sm, sm_SigData sm) → SignedMessage_Serialize sm = Some b →
  DecodeSignedMessage (String.append b rest) = Ok (SignedMessage_canon sm) ∧
  ∀ sm', Message_typed (sm_Message sm') → SignedMessage_Serialize sm' = Some b →
    SignedMessage_canon sm' = SignedMessage_canon sm.
Proof.
  intros Ht Hv Hb. split.
  - by apply (decode_ok _ _ _ (SignedMessage_decodes valid_sig valid_decodes sm Ht Hv)).
  - intros sm' Ht' Hb'. by apply (SignedMessage_inj sm sm' b).
Qed.

(** gossiped blocks survive serialisation.  From the bytes of [Serialize],
    [DecodeBlockMsg] returns the block message: the header, if there is one, with its
    ticket, election proof, beacon entries, proofs, parents and signatures, nil
    pointers as nil, and the CIDs of both kinds of messages in order. *)
Theorem BlockMsg_roundtrip bm b rest :
  BlockMsg_typed bm → (∀ h, Header bm = Some h → BlockHeader_sigs valid_sig h) → BlockMsg_Serialize bm = Some b →
  DecodeBlockMsg (String.append b rest) = Ok (BlockMsg_canon bm).
Proof. intros Ht Hv. by apply (decode_ok _ _ _ (BlockMsg_decodes valid_sig valid_decodes bm Ht Hv)). Qed.

(** C21: the bytes a miner signs determine the block.  [SigningBytes] does not
    depend on the signature, and two headers with the same signing bytes agree on
    every field but the signature, with a weight or base fee that is nil read as zero,
    so a signature is valid for one header only. *)
Theorem SigningBytes_determine h h' s :
  BlockHeader_typed h → BlockHeader_typed h' → SigningBytes h = Some s →
  SigningBytes (unsigned h) = Some s ∧
  (SigningBytes h' = Some s → BlockHeader_canon (unsigned h') = BlockHeader_canon (unsigned h)).
Proof. intros Ht Ht' Hs. split; [done|]. intros Hs'. by apply (BlockHeader_inj (unsigned h) (unsigned h') s). Qed.

(** C35: whatever bytes come from the network, a message or a block that decodes
    is well typed: every integer is within its width; the parameters of a message and the
    ticket, the election proof and the beacon entries of a block are within the limit for
    byte strings, and the arrays of a block within that for arrays; and a message of
    [DecodeMessage] has the supported version. *)
Theorem decoded_well_typed b :
  (∀ m, DecodeMessage b = Ok m → Message_typed m ∧ blen (Params m) <= ByteArrayMaxLen ∧ Version m = MessageVersion) ∧
  (∀ h, DecodeBlock b = Ok h →
     BlockHeader_typed h ∧
     Forall (fun n => Z.of_nat n <= MaxLength) [length (BeaconEntries h); length (WinPoStProof h); length (Parents h)] ∧
     (∀ t, bh_Ticket h = Some t → blen (tk_VRFProof t) <= ByteArrayMaxLen) ∧
     (∀ e, bh_ElectionProof h = Some e → blen (ep_VRFProof e) <= ByteArrayMaxLen) ∧
     Forall (fun e => blen (Data e) <= ByteArrayMaxLen) (BeaconEntries h)).
Proof.
  split.
  - intros m. unfold DecodeMessage. destruct (decode Message_Unmarshal b) as [m'|] eqn:E; [|done].
    destruct (Z.eqb_spec (Version m') MessageVersion); [|done]. intros [= <-].
    destruct (decode_yields _ _ _ _ Message_yields E). done.
  - intros h. apply (decode_yields _ _ _ _ BlockHeader_yields).
Qed.
End Libraries.

(** * An instance of the libraries *)

(** Any countable value can be written as the binary digits of its code, ended by a
    third digit; the length of a header is written that way when it does not fit
    beside the major type. *)
Module CborExample.

#[local] Arguments String.append !_ _ / : simpl nomatch.

#[local] Instance SigType_eq_dec : EqDecision SigType.
Proof. solve_decision. Defined.

#[local] Instance SigType_countable : Countable SigType.
Proof.
  refine (inj_countable' (fun t => match t with SigTypeSecp256k1 => inl true | SigTypeBLS => inl false | SigTypeOther n => inr n end)
    (fun x => match x with inl true => SigTypeSecp256k1 | inl false => SigTypeBLS | inr n => SigTypeOther n end) _).
  by intros [].
Defined.

#[local] Instance PoStProof_eq_dec : EqDecision PoStProof.
Proof. solve_decision. Defined.

#[local] Instance PoStProof_countable : Countable PoStProof.
Proof.
  refine (inj_countable' (fun p => (PoStProofType p, ProofBytes p)) (fun x => mkPoStProof x.1 x.2) _). by intros [].
Defined.

Fixpoint put_pos (p : positive) : bytes :=
  match p with
  | xH => byte 2
  | xO p => String.append (byte 0) (put_pos p)
  | xI p => String.append (byte 1) (put_pos p)
  end.

Fixpoint get_pos (s : bytes) : result cbor_error (positive * bytes) :=
  match s with
  | EmptyString => Err EOF
  | String c s =>
      if bool_decide (String c EmptyString = byte 2) then Ok (xH, s)
      else let? p := get_pos s in
           Ok (if bool_decide (String c EmptyString = byte 0) then xO p.1 else xI p.1, p.2)
  end.

Definition put {A} `{Countable A} (x : A) : bytes := put_pos (encode x).

Definition get {A} `{Countable A} : reader A :=
  p ← get_pos; match countable.decode p with Some x => mret x | None => fail LibError end.

Lemma get_put_pos p rest : get_pos (String.append (put_pos p) rest) = Ok (p, rest).
Proof. induction p as [p IH|p IH|]; simpl; [by rewrite IH | by rewrite IH | done]. Qed.

Lemma get_put {A} `{Countable A} (x : A) rest : get (String.append (put x) rest) = Ok (x, rest).
Proof. unfold get, put, mbind, reader_bind. by rewrite get_put_pos, decode_encode. Qed.

Definition put_header (maj n : Z) : bytes :=
  if n <? 24 then byte (maj * 32 + n) else String.append (byte (maj * 32 + 27)) (put n).

Definition get_header : reader (Z * Z) := fun s =>
  match s with
  | EmptyString => Err EOF
  | String c s =>
      let b := Z.of_N (N_of_ascii c) in
      if b mod 32 =? 27 then
        (n ← get; if bool_decide (0 <= n < 2 ^ 64) then mret (b / 32, n) else fail LibError) s
      else if b mod 32 <? 24 then Ok ((b / 32, b mod 32), s)
      else Err LibError
  end.

(** Signatures of other types and long ones are refused. *)
Definition get_sig : reader (SigType * bytes) :=
  s ← get;
  if match s.1 with SigTypeOther _ => false | _ => blen s.2 + 1 <=? 200 end then mret s else fail LibError.

#[export] Instance lib : CborLib := {|
  MaxLength := 8192;
  ByteArrayMaxLen := 2097152;
  SignatureMaxLength := 200;
  WriteMajorTypeHeader := put_header;
  ReadHeader := get_header;
  WriteCid c := Some (put c);
  ReadCid := get;
  addr_Marshal a := Some (put a);
  addr_Unmarshal := get;
  big_Marshal z := Some (put (default 0 z));
  big_Unmarshal := get;
  sig_Marshal s := Some (match s with None => CborNull | Some s => put s end);
  sig_Unmarshal := get_sig;
  post_Marshal p := Some (put p);
  post_Unmarshal := get;
|}.

Lemma get_put_header maj n rest :
  0 <= maj < 8 → in_u64 n → get_header (String.append (put_header maj n) rest) = Ok ((maj, n), rest).
Proof.
  intros Hmaj Hn. unfold in_u64 in Hn. unfold put_header. destruct (Z.ltb_spec n 24); simpl.
  - rewrite N_ascii_embedding, Z2N.id by lia.
    rewrite (Z.add_comm (maj * 32)), Z.div_add, Z.mod_add, Z.div_small, Z.mod_small by lia.
    destruct (Z.eqb_spec n 27), (Z.ltb_spec n 24); try lia. by rewrite Z.add_0_l.
  - rewrite N_ascii_embedding, Z2N.id by lia.
    rewrite (Z.add_comm (maj * 32)), Z.div_add, Z.mod_add by lia. simpl.
    unfold mbind, reader_bind. rewrite get_put. by rewrite bool_decide_eq_true_2.
Qed.

Lemma get_header_width s maj n rest : get_header s = Ok ((maj, n), rest) → in_u64 n.
Proof.
  destruct s as [|c s]; [done|]. simpl. set (b := Z.of_N (N_of_ascii c)).
  destruct (Z.eqb_spec (b mod 32) 27).
  - unfold mbind, reader_bind. destruct (get s) as [[k s']|]; [|done]. case_bool_decide; [|done]. by intros [= <- <- <-].
  - destruct (b mod 32 <? 24); [|done]. intros [= <- <- <-]. unfold in_u64. pose proof (Z.mod_pos_bound b 32). lia.
Qed.

#[export] Instance lib_base_laws : CborBaseLaws.
Proof.
  split.
  - unfold in_u64. simpl. lia.
  - intros maj n Hmaj Hn. simpl. unfold put_header. by destruct (Z.ltb_spec n 24); [|lia].
  - intros. by apply get_put_header.
  - apply get_header_width.
  - intros a b [= <-]. eexists. split; [done|]. apply get_put.
  - intros a b [= <-]. eexists. split; [done|]. apply get_put.
  - intros a b [= <-]. eexists. split; [done|]. apply get_put.
  - done.
  - intros s b [= <-]. unfold put. destruct (encode s); by eexists _, _.
  - exists get. intros a b [= <-]. eexists. split; [done|]. apply get_put.
  - intros a b [= <-]. eexists. split; [done|]. apply get_put.
Qed.

#[export] Instance lib_laws : CborLibLaws.
Proof.
  split; [apply lib_base_laws|]. intros s b rest [Hty Hlen] [= <-]. simpl in *. unfold get_sig, mbind, reader_bind. rewrite get_put.
  apply Z.leb_le in Hlen. destruct Hty as [-> | ->]; by rewrite Hlen.
Qed.

Definition msg : SignedMessage :=
  mkSignedMessage (mkMessage 0 (IDAddr 1000) (BLSAddr "k") 7 None (- 2 ^ 63) (Some 100) (Some 5) 2 "params")
    SigTypeBLS "sig".

Definition header : BlockHeader :=
  mkBlockHeader (IDAddr 1000) (Some (mkTicket "t")) None [mkBeaconEntry (2 ^ 64 - 1) "d"] [mkPoStProof 3 "p"] ["p1"; "p2"]
    None 42 "s" "r" "m" None 1600000000 (Some (SigTypeBLS, "sig")) 0 (Some 100).

Definition blockMsg : BlockMsg := mkBlockMsg (Some header) ["c1"; "c2"] [].

Lemma msg_typed : Message_typed (sm_Message msg).
Proof. unfold Message_typed, in_u64, in_i64. simpl. lia. Qed.

Lemma msg_sig : valid_sig (sm_SigType msg, sm_SigData msg).
Proof. split; [by right | done]. Qed.

Lemma header_sigs : BlockHeader_sigs valid_sig header.
Proof. split; [done|]. intros s [= <-]. split; [by right | done]. Qed.

Lemma header_typed : BlockHeader_typed header.
Proof.
  unfold BlockHeader_typed, header. simpl. split; [done|]. split; [|unfold in_i64, in_u64; lia].
  constructor; [|done]. unfold BeaconEntry_typed, in_u64. simpl. lia.
Qed.

End CborExample.

Import CborExample.

Lemma SignedMessage_roundtrip_witness :
  ∃ b, SignedMessage_Serialize msg = Some b ∧ DecodeSignedMessage (String.append b "rest") = Ok (SignedMessage_canon msg).
Proof.
  eexists. split; [reflexivity|]. apply (SignedMessage_roundtrip msg _ "rest"); [apply msg_typed | apply msg_sig | reflexivity].
Defined.

Lemma BlockMsg_roundtrip_witness :
  ∃ b, BlockMsg_Serialize blockMsg = Some b ∧ DecodeBlockMsg (String.append b "rest") = Ok (BlockMsg_canon blockMsg).
Proof.
  eexists. split; [reflexivity|]. apply (BlockMsg_roundtrip blockMsg _ "rest"); [| |reflexivity].
  - intros h [= <-]. apply header_typed.
  - intros h [= <-]. apply header_sigs.
Defined.

Lemma SigningBytes_determine_witness :
  ∃ s, SigningBytes header = Some s ∧ SigningBytes (unsigned header) = Some s.
Proof.
  eexists. split; [reflexivity|].
  apply (SigningBytes_determine header header _ header_typed header_typed). reflexivity.
Defined.

(** Bytes that decode, so the theorem speaks of a message. *)
Lemma decoded_well_typed_witness :
  ∃ b m, DecodeMessage b = Ok m ∧ Message_typed m ∧ blen (Params m) <= ByteArrayMaxLen ∧ Version m = MessageVersion.
Proof.
  eexists (default EmptyString (Message_Serialize (sm_Message msg))), (Message_canon (sm_Message msg)).
  split; [vm_compute; reflexivity|].
  apply (decoded_well_typed (default EmptyString (Message_Serialize (sm_Message msg)))). vm_compute. reflexivity.
Defined.
