(* ===== verification/FundManager.v ===== *)
(** The funds of addresses in the storage market (src/chain/market/fundmanager.go,
    store.go): reservations, releases and withdrawals queue up per address, and at
    most one message per address is on its way to the chain.

    The node and the datastore are the record [fundManagerAPI] over a state of
    their own.  A request is a record with an identity; whether its channel
    [completed] is closed is a fact of the address that owns the queue, and closing
    it twice is a panic, [None].  A goroutine is an entry of [waits] or [procs] until
    it runs.  The listener of the tests is nil. *)

From S2P Require Import Prelude Gas Types MsgSet.

(** * Requests *)

Inductive fm_error := BalanceError | PushError | SerializeError | InsufficientFunds.

Record reqResult := mkReqResult { res_msgCid : cid; res_err : option fm_error }.

(** [req_expired]: the context is done when the amount is read. *)
Record fundRequest := mkFundRequest {
  req_id : nat;
  req_amt : Z;
  req_expired : bool;
  Wallet : address;
}.

Definition cidUndef : cid := EmptyString.

Definition Amount (frp : fundRequest) : Z := if req_expired frp then 0 else req_amt frp.

(** The requests whose [completed] is closed, with what [Complete] was called with. *)
Abbreviation completions := (gmap nat reqResult) (only parsing).

Definition Complete (frp : fundRequest) (msgCid : cid) (err : option fm_error) (done : completions) : option completions :=
  match done !! req_id frp with
  | Some _ => None
  | None => Some (<[req_id frp := mkReqResult msgCid err]> done)
  end.

Definition Completed (done : completions) (frp : fundRequest) : bool := bool_decide (is_Some (done !! req_id frp)).

Fixpoint complete_all (reqs : list fundRequest) (msgCid : cid) (err : option fm_error) (done : completions) : option completions :=
  match reqs with
  | [] => Some done
  | req :: reqs => done ← Complete req msgCid err done; complete_all reqs msgCid err done
  end.

Definition filterOutProcessedReqs (done : completions) (reqs : list fundRequest) : list fundRequest :=
  filter (fun req => Completed done req = false) reqs.

(** * Addresses *)

Record FundedAddressState := mkFundedAddressState {
  Addr : address;
  AmtReserved : Z;
  MsgCid : option cid;
}.

Record fundedAddress := mkFundedAddress {
  state : FundedAddressState;
  reservations : list fundRequest;
  releases : list fundRequest;
  withdrawals : list fundRequest;
  completed : completions;
  waits : list cid;
  procs : nat;
}.

Definition newFundedAddress (addr : address) : fundedAddress :=
  mkFundedAddress (mkFundedAddressState addr 0 None) [] [] [] ∅ [] 0.

(** * The node and the datastore *)

Record MarketBalance := mkMarketBalance { Escrow : Z; Locked : Z }.

Record fundManagerAPI (W : Type) := mkFundManagerAPI {
  MpoolPushMessage : Message → W → option SignedMessage * W;
  StateMarketBalance : address → W → option MarketBalance * W;
  (** whether the state could be written *)
  ds_Put : FundedAddressState → W → bool * W;
  SerializeAddr : address → option bytes;
  SerializeWithdrawal : address → Z → option bytes;
  signed_Cid : SignedMessage → cid;
  StorageMarketActorAddr : address;
  MethodAddBalance : Z;
  MethodWithdrawBalance : Z;
}.
Arguments MpoolPushMessage {W}. Arguments StateMarketBalance {W}. Arguments ds_Put {W}.
Arguments SerializeAddr {W}. Arguments SerializeWithdrawal {W}. Arguments signed_Cid {W}.
Arguments StorageMarketActorAddr {W}. Arguments MethodAddBalance {W}. Arguments MethodWithdrawBalance {W}.

(** Outside the manager: the node, the messages it took, and the datastore. *)
Record outside (W : Type) := mkOutside {
  world : W;
  pushed : list Message;
  stored : gmap address FundedAddressState;
}.
Arguments mkOutside {W}. Arguments world {W}. Arguments pushed {W}. Arguments stored {W}.

Section Manager.
Context {W : Type} (api : fundManagerAPI W).

Definition AvailableFunds (addr : address) (n : outside W) : result fm_error Z * outside W :=
  let '(bal, w) := StateMarketBalance api addr (world n) in
  let n := mkOutside w (pushed n) (stored n) in
  match bal with
  | None => (Err BalanceError, n)
  | Some bal => (Ok (Escrow bal - Locked bal), n)
  end.

Definition push (msg : Message) (n : outside W) : result fm_error cid * outside W :=
  let '(smsg, w) := MpoolPushMessage api msg (world n) in
  match smsg with
  | None => (Err PushError, mkOutside w (pushed n) (stored n))
  | Some smsg => (Ok (signed_Cid api smsg), mkOutside w (pushed n ++ [msg]) (stored n))
  end.

Definition market_message (wallet : address) (value method : Z) (params : bytes) : Message :=
  mkMessage 0 (StorageMarketActorAddr api) wallet 0 (Some value) 0 None None method params.

Definition AddFunds (wallet addr : address) (amt : Z) (n : outside W) : result fm_error cid * outside W :=
  match SerializeAddr api addr with
  | None => (Err SerializeError, n)
  | Some params => push (market_message wallet amt (MethodAddBalance api) params) n
  end.

Definition WithdrawFunds (wallet addr : address) (amt : Z) (n : outside W) : result fm_error cid * outside W :=
  match SerializeWithdrawal api addr amt with
  | None => (Err SerializeError, n)
  | Some params => push (market_message wallet 0 (MethodWithdrawBalance api) params) n
  end.

(** * Reservations *)

Record split := mkSplit {
  toCancel : list fundRequest;
  toAdd : list fundRequest;
  toAddAmt : Z;
  releaseAmt : Z;
  batchWallet : address;
}.

Definition split_step (s : split) (req : fundRequest) : split :=
  let amt := Amount req in
  if amt <=? releaseAmt s then
    mkSplit (toCancel s ++ [req]) (toAdd s) (toAddAmt s) (releaseAmt s - amt) (batchWallet s)
  else
    let batchWallet := if bool_decide (batchWallet s = Undef) then Wallet req else batchWallet s in
    if bool_decide (batchWallet = Wallet req) then
      mkSplit (toCancel s) (toAdd s ++ [req]) (toAddAmt s + (amt - releaseAmt s)) 0 batchWallet
    else mkSplit (toCancel s) (toAdd s) (toAddAmt s) (releaseAmt s) batchWallet.

Definition splitReservations (reservations releases : list fundRequest) : list fundRequest * list fundRequest * Z :=
  let s := foldl split_step (mkSplit [] [] 0 (sumZ Amount releases) Undef) reservations in
  (toCancel s, toAdd s, toAddAmt s - releaseAmt s).

Record processResult := mkProcessResult {
  covered : list fundRequest;
  added : list fundRequest;
  amtReserved : Z;
  pr_msgCid : option cid;
}.

(** Without the deferred function.  [None] is a panic. *)
Definition reserve_body (st : FundedAddressState) (reservations releases : list fundRequest) (n : outside W)
  : option ((processResult * option fm_error) * outside W) :=
  let '(toCancel, toAdd, reservedDelta) := splitReservations reservations releases in
  let reserved := AmtReserved st + reservedDelta in
  let reserved := if reserved <? 0 then 0 else reserved in
  let res := mkProcessResult toCancel [] reserved None in
  let '(avail, n) :=
    if (0 <? Z.of_nat (length toAdd)) && (0 <? reserved) then
      let '(avail, n) := AvailableFunds (Addr st) n in
      (match avail with Err e => Err e | Ok avail => Ok (reserved - avail) end, n)
    else (Ok 0, n) in
  match avail with
  | Err e => Some ((res, Some e), n)
  | Ok amtToAdd =>
      if amtToAdd <=? 0 then Some ((mkProcessResult (toCancel ++ toAdd) [] reserved None, None), n)
      else
        match toAdd with
        | [] => None
        | first :: _ =>
            match AddFunds (Wallet first) (Addr st) amtToAdd n with
            | (Err e, n) => Some ((res, Some e), n)
            | (Ok addFundsCid, n) => Some ((mkProcessResult toCancel toAdd reserved (Some addFundsCid), None), n)
            end
        end
  end.

Definition processReservations (st : FundedAddressState) (reservations releases : list fundRequest) (done : completions)
  (n : outside W) : option ((processResult * option fm_error) * completions * outside W) :=
  '((pr, prerr), n) ← reserve_body st reservations releases n;
  done ← match prerr with
         | Some e => complete_all (reservations ++ releases) cidUndef (Some e) done
         | None =>
             done ← complete_all releases cidUndef None done;
             done ← complete_all (covered pr) cidUndef None done;
             match pr_msgCid pr with
             | Some c => complete_all (added pr) c None done
             | None => Some done
             end
         end;
  Some ((pr, prerr), done, n).

(** * Withdrawals *)

Record batch := mkBatch {
  withdrawalAmt : Z;
  allowedAmt : Z;
  allowed : list fundRequest;
  wd_wallet : address;
  wd_done : completions;
}.

Definition withdraw_step (netAvail : Z) (b : batch) (req : fundRequest) : option batch :=
  let amt := Amount req in
  let complete err :=
    done ← Complete req cidUndef err (wd_done b);
    Some (mkBatch (withdrawalAmt b) (allowedAmt b) (allowed b) (wd_wallet b) done) in
  if amt =? 0 then complete None
  else
    let newWithdrawalAmt := withdrawalAmt b + amt in
    if netAvail <? newWithdrawalAmt then complete (Some InsufficientFunds)
    else
      let wallet := if bool_decide (wd_wallet b = Undef) then Wallet req else wd_wallet b in
      if bool_decide (Wallet req = wallet) then
        Some (mkBatch newWithdrawalAmt (allowedAmt b + amt) (allowed b ++ [req]) wallet (wd_done b))
      else Some (mkBatch (withdrawalAmt b) (allowedAmt b) (allowed b) wallet (wd_done b)).

Fixpoint withdraw_loop (netAvail : Z) (reqs : list fundRequest) (b : batch) : option batch :=
  match reqs with
  | [] => Some b
  | req :: reqs => b ← withdraw_step netAvail b req; withdraw_loop netAvail reqs b
  end.

Definition processWithdrawals (st : FundedAddressState) (withdrawals : list fundRequest) (done : completions) (n : outside W)
  : option (result fm_error cid * completions * outside W) :=
  match AvailableFunds (Addr st) n with
  | (Err e, n) => done ← complete_all withdrawals cidUndef (Some e) done; Some (Err e, done, n)
  | (Ok avail, n) =>
      b ← withdraw_loop (avail - AmtReserved st) withdrawals (mkBatch 0 0 [] Undef done);
      if allowedAmt b =? 0 then
        done ← complete_all (allowed b) cidUndef None (wd_done b); Some (Ok cidUndef, done, n)
      else
        match allowed b with
        | [] => None
        | first :: _ =>
            match WithdrawFunds (Wallet first) (Addr st) (allowedAmt b) n with
            | (Err e, n) => done ← complete_all withdrawals cidUndef (Some e) (wd_done b); Some (Err e, done, n)
            | (Ok c, n) => done ← complete_all (allowed b) c None (wd_done b); Some (Ok c, done, n)
            end
        end
  end.

(** * The queue of an address *)

Definition saveState (st : FundedAddressState) (n : outside W) : outside W :=
  let '(ok, w) := ds_Put api st (world n) in
  mkOutside w (pushed n) (if ok then <[Addr st := st]> (stored n) else stored n).

(** [None] for [amtReserved] is [types.EmptyInt]. *)
Definition applyStateChange (msgCid : option cid) (amtReserved : option Z) (st : FundedAddressState) (n : outside W)
  : FundedAddressState * outside W :=
  let st := mkFundedAddressState (Addr st) (default (AmtReserved st) amtReserved) msgCid in
  (st, saveState st n).

Definition clearWaitState (st : FundedAddressState) (n : outside W) : FundedAddressState * outside W :=
  let st := mkFundedAddressState (Addr st) (AmtReserved st) None in
  (st, saveState st n).

Definition process_reservations (a : fundedAddress) (n : outside W) : option (fundedAddress * outside W) :=
  '((res, err), done, n) ← processReservations (state a) (reservations a) (releases a) (completed a) n;
  let '(st, n) := match err with
                  | None => applyStateChange (pr_msgCid res) (Some (amtReserved res)) (state a) n
                  | Some _ => (state a, n)
                  end in
  Some (mkFundedAddress st (filterOutProcessedReqs done (reservations a)) (filterOutProcessedReqs done (releases a))
          (withdrawals a) done (waits a) (procs a), n).

Definition process_withdrawals (a : fundedAddress) (n : outside W) : option (fundedAddress * outside W) :=
  '(r, done, n) ← processWithdrawals (state a) (withdrawals a) (completed a) n;
  let '(st, n) := match r with
                  | Ok c => if bool_decide (c = cidUndef) then (state a, n) else applyStateChange (Some c) None (state a) n
                  | Err _ => (state a, n)
                  end in
  Some (mkFundedAddress st (reservations a) (releases a) (filterOutProcessedReqs done (withdrawals a)) done (waits a) (procs a), n).

Definition startWaitForResults (c : cid) (a : fundedAddress) : fundedAddress :=
  mkFundedAddress (state a) (reservations a) (releases a) (withdrawals a) (completed a) (waits a ++ [c]) (procs a).

Definition go_process (a : fundedAddress) : fundedAddress :=
  mkFundedAddress (state a) (reservations a) (releases a) (withdrawals a) (completed a) (waits a) (S (procs a)).

Definition is_nil {A} (l : list A) : bool := match l with [] => true | _ => false end.

Definition process (a : fundedAddress) (n : outside W) : option (fundedAddress * outside W) :=
  match MsgCid (state a) with
  | Some _ => Some (a, n)
  | None =>
      let haveReservations := negb (is_nil (reservations a)) || negb (is_nil (releases a)) in
      let haveWithdrawals := negb (is_nil (withdrawals a)) in
      if negb haveReservations && negb haveWithdrawals then Some (a, n)
      else
        '(a, n) ← (if haveReservations then process_reservations a n else Some (a, n));
        '(a, n) ← (if haveWithdrawals && bool_decide (MsgCid (state a) = None) && is_nil (reservations a)
                   then process_withdrawals a n else Some (a, n));
        let a := match MsgCid (state a) with
                 | Some c => startWaitForResults c a
                 | None => a
                 end in
        Some (go_process a, n)
  end.

(** [start], for an address that is loaded. *)
Definition start (a : fundedAddress) : fundedAddress :=
  match MsgCid (state a) with
  | Some c => startWaitForResults c a
  | None => a
  end.

(** * The manager *)

Record FundManager := mkFundManager {
  fundedAddrs : gmap address fundedAddress;
  out : outside W;
  next_id : nat;
}.

Definition with_addr (fm : FundManager) (addr : address) (a : fundedAddress) (n : outside W) : FundManager :=
  mkFundManager (<[addr := a]> (fundedAddrs fm)) n (next_id fm).

Definition getFundedAddress (addr : address) (fm : FundManager) : fundedAddress * FundManager :=
  match fundedAddrs fm !! addr with
  | Some fa => (fa, fm)
  | None => (newFundedAddress addr, with_addr fm addr (newFundedAddress addr) (out fm))
  end.

Inductive queue := Reservations | Releases | Withdrawals.

Definition enqueue (q : queue) (req : fundRequest) (a : fundedAddress) : fundedAddress :=
  match q with
  | Reservations => mkFundedAddress (state a) (reservations a ++ [req]) (releases a) (withdrawals a) (completed a) (waits a) (procs a)
  | Releases => mkFundedAddress (state a) (reservations a) (releases a ++ [req]) (withdrawals a) (completed a) (waits a) (procs a)
  | Withdrawals => mkFundedAddress (state a) (reservations a) (releases a) (withdrawals a ++ [req]) (completed a) (waits a) (procs a)
  end.

(** Up to the wait for the result. *)
Definition requestAndWait (q : queue) (wallet addr : address) (amt : Z) (fm : FundManager) : FundManager :=
  let '(fa, fm) := getFundedAddress addr fm in
  let req := mkFundRequest (next_id fm) amt false wallet in
  mkFundManager (<[addr := go_process (enqueue q req fa)]> (fundedAddrs fm)) (out fm) (S (next_id fm)).

Definition Reserve (wallet addr : address) (amt : Z) := requestAndWait Reservations wallet addr amt.
Definition Release (addr : address) (amt : Z) := requestAndWait Releases Undef addr amt.
Definition Withdraw (wallet addr : address) (amt : Z) := requestAndWait Withdrawals wallet addr amt.

Definition GetReserved (addr : address) (fm : FundManager) : Z * FundManager :=
  let '(fa, fm) := getFundedAddress addr fm in (AmtReserved (state fa), fm).

(** A result of a query of the datastore. *)
Inductive query_item := QueryError | QueryCorrupt | QueryState (st : FundedAddressState).

(** [iter] on each state; the error is the one [forEach] returns. *)
Fixpoint forEach {A} (items : list query_item) (iter : FundedAddressState → A → A) (acc : A) : bool * A :=
  match items with
  | [] => (true, acc)
  | QueryError :: _ => (true, acc)
  | QueryCorrupt :: _ => (false, acc)
  | QueryState st :: items => forEach items iter (iter st acc)
  end.

(** The first component: no error. *)
Definition Start (items : list query_item) (fm : FundManager) : bool * FundManager :=
  forEach items
    (fun st fm => with_addr fm (Addr st) (start (mkFundedAddress st [] [] [] ∅ [] 0)) (out fm)) fm.

Definition newFundManager (n : outside W) (next : nat) : FundManager := mkFundManager ∅ n next.

(** * Steps

    The callers pass wallets, and amounts that are not negative.  A context ends, a
    goroutine runs, the manager is restarted over its datastore: the query may fail
    anywhere.  The context of a release never ends. *)

Definition expire (id : nat) (req : fundRequest) : fundRequest :=
  if Nat.eqb (req_id req) id then mkFundRequest (req_id req) (req_amt req) true (Wallet req) else req.

Definition expire_in (id : nat) (a : fundedAddress) : fundedAddress :=
  mkFundedAddress (state a) (expire id <$> reservations a) (releases a) (expire id <$> withdrawals a)
    (completed a) (waits a) (procs a).

(** The goroutine of [startWaitForResults] for the [i]th message comes to its end. *)
Definition wait_done (i : nat) (a : fundedAddress) (n : outside W) : fundedAddress * outside W :=
  let '(st, n) := clearWaitState (state a) n in
  (mkFundedAddress st (reservations a) (releases a) (withdrawals a) (completed a) (delete i (waits a)) (S (procs a)), n).

Definition run_process (a : fundedAddress) (n : outside W) : option (fundedAddress * outside W) :=
  process (mkFundedAddress (state a) (reservations a) (releases a) (withdrawals a) (completed a) (waits a) (pred (procs a))) n.

Inductive fm_step : FundManager → FundManager → Prop :=
  | step_Reserve fm wallet addr amt : wallet ≠ Undef → 0 <= amt → fm_step fm (Reserve wallet addr amt fm)
  | step_Release fm addr amt : 0 <= amt → fm_step fm (Release addr amt fm)
  | step_Withdraw fm wallet addr amt : wallet ≠ Undef → 0 <= amt → fm_step fm (Withdraw wallet addr amt fm)
  | step_GetReserved fm addr : fm_step fm (GetReserved addr fm).2
  | step_expire fm addr a id : fundedAddrs fm !! addr = Some a → fm_step fm (with_addr fm addr (expire_in id a) (out fm))
  | step_process fm addr a a' n :
      fundedAddrs fm !! addr = Some a → (0 < procs a)%nat → run_process a (out fm) = Some (a', n) →
      fm_step fm (with_addr fm addr a' n)
  | step_wait fm addr a i c :
      fundedAddrs fm !! addr = Some a → waits a !! i = Some c →
      fm_step fm (with_addr fm addr (wait_done i a (out fm)).1 (wait_done i a (out fm)).2)
  | step_restart fm items :
      (∀ st, QueryState st ∈ items → stored (out fm) !! Addr st = Some st) →
      fm_step fm (Start items (newFundManager (out fm) (next_id fm))).2.

End Manager.
