(* ===== verification/FundProps.v ===== *)
(** The theory of the fund manager: what a run of the reservations and of the
    withdrawals does to the reserved amount, to the chain and to the requests; what
    holds in every state; that the queues empty; and when the manager panics. *)

From S2P Require Import Prelude Gas Types MsgSet FundManager.

(** * Completing requests *)

Definition ids (reqs : list fundRequest) : list nat := req_id <$> reqs.

(** Requests that can be completed, each once. *)
Definition open (done : gmap nat reqResult) (reqs : list fundRequest) : Prop :=
  NoDup (ids reqs) ∧ Forall (fun r => done !! req_id r = None) reqs.

(** [done'] is [done] with [r] for the requests [reqs]. *)
Definition completes (done done' : gmap nat reqResult) (reqs : list fundRequest) : Prop :=
  (∀ r, r ∈ reqs → is_Some (done' !! req_id r)) ∧ (∀ i, i ∉ ids reqs → done' !! i = done !! i).

Lemma complete_all_spec reqs c e : ∀ done, open done reqs →
  ∃ done', complete_all reqs c e done = Some done' ∧ completes done done' reqs ∧
    (∀ r, r ∈ reqs → done' !! req_id r = Some (mkReqResult c e)).
Proof.
  induction reqs as [|r reqs IH]; intros done [Hnd Ho]; simpl.
  { exists done. split; [done|]. split; [split; [by intros ? ?%not_elem_of_nil | done] | by intros ? ?%not_elem_of_nil]. }
  apply NoDup_cons in Hnd as [Hr Hnd]. apply Forall_cons in Ho as [H0 Ho].
  unfold Complete. rewrite H0. simpl.
  destruct (IH (<[req_id r := mkReqResult c e]> done)) as (done' & E & [Hc Hk] & Hv).
  { split; [done|]. apply Forall_forall. intros r' Hr'. rewrite lookup_insert_ne.
    - rewrite Forall_forall in Ho. by apply Ho.
    - intros Eq. apply Hr. rewrite Eq. unfold ids. by apply list_elem_of_fmap_2. }
  assert (Hhd : done' !! req_id r = Some (mkReqResult c e)).
  { rewrite Hk by done. by rewrite lookup_insert_eq. }
  exists done'. split; [done|]. split; [split|].
  - intros r' [-> | Hr']%elem_of_cons; [by rewrite Hhd | by apply Hc].
  - intros i Hi. apply not_elem_of_cons in Hi as [? ?]. rewrite Hk by done. by rewrite lookup_insert_ne.
  - intros r' [-> | Hr']%elem_of_cons; [done | by apply Hv].
Qed.

(** Closing [completed] twice. *)
Lemma complete_all_panics reqs c e : ∀ done, Exists (fun r => is_Some (done !! req_id r)) reqs → complete_all reqs c e done = None.
Proof.
  induction reqs as [|r reqs IH]; intros done; [by intros ?%Exists_nil|].
  intros Hx. simpl. unfold Complete. destruct (done !! req_id r) eqn:E; [done|]. simpl. apply IH.
  apply Exists_cons in Hx as [[? ?]|Hx]; [congruence|]. eapply Exists_impl; [exact Hx|]. intros r' Hr'. simpl.
  destruct (decide (req_id r = req_id r')) as [Eq|]; [rewrite Eq, lookup_insert_eq; by eexists | by rewrite lookup_insert_ne].
Qed.

Lemma open_app done l l' : open done (l ++ l') → open done l ∧ open done l'.
Proof.
  unfold open, ids. rewrite fmap_app, NoDup_app, Forall_app. naive_solver.
Qed.

Lemma open_perm done l l' : l ≡ₚ l' → open done l → open done l'.
Proof. intros Hp. unfold open, ids. by rewrite Hp. Qed.

(** What is left open after the others are completed. *)
Lemma open_after done done' l l' : open done (l ++ l') → completes done done' l → open done' l'.
Proof.
  intros Ho [_ Hk]. pose proof (open_app _ _ _ Ho) as [_ [Hnd Hn]]. split; [done|].
  destruct Ho as [Hnd' _]. unfold ids in *. rewrite fmap_app, NoDup_app in Hnd'. destruct Hnd' as (_ & Hdis & _).
  rewrite Forall_forall in *. intros r Hr. rewrite Hk; [by apply Hn|].
  intros Hin. eapply Hdis; [exact Hin|]. by apply list_elem_of_fmap_2.
Qed.

Lemma completes_trans done done1 done2 l1 l2 :
  completes done done1 l1 → completes done1 done2 l2 → completes done done2 (l1 ++ l2).
Proof.
  intros [H1 K1] [H2 K2]. split.
  - intros r [Hr|Hr]%elem_of_app; [|by apply H2].
    destruct (decide (req_id r ∈ ids l2)) as [Hin|Hin]; [|rewrite K2 by done; by apply H1].
    unfold ids in Hin. apply list_elem_of_fmap in Hin as (r' & -> & Hr'). by apply H2.
  - unfold ids in *. intros i Hi. rewrite fmap_app, not_elem_of_app in Hi. destruct Hi. by rewrite K2, K1.
Qed.

Lemma completes_nil done : completes done done [].
Proof. split; [by intros ? ?%not_elem_of_nil | done]. Qed.

Lemma completes_perm done done' l l' : l ≡ₚ l' → completes done done' l → completes done done' l'.
Proof. intros Hp [H K]. unfold completes, ids in *. setoid_rewrite <- Hp. done. Qed.

Lemma ids_disjoint l l' r : NoDup (ids (l ++ l')) → r ∈ l → req_id r ∉ ids l'.
Proof.
  unfold ids. rewrite fmap_app, NoDup_app. intros (_ & Hd & _) Hr. apply Hd. by apply list_elem_of_fmap_2.
Qed.

(** * Filtering the queues *)

Lemma Completed_spec done r : Completed done r = true ↔ is_Some (done !! req_id r).
Proof. unfold Completed. by rewrite bool_decide_eq_true. Qed.

Lemma filterOut_completed done l : (∀ r, r ∈ l → is_Some (done !! req_id r)) → filterOutProcessedReqs done l = [].
Proof.
  unfold filterOutProcessedReqs. induction l as [|r l IH]; intros Hl; [done|].
  rewrite filter_cons_False; [apply IH; intros; apply Hl; by right|].
  assert (Completed done r = true) as -> by (apply Completed_spec, Hl; by left). done.
Qed.

Lemma filterOut_open done l : Forall (fun r => done !! req_id r = None) l → filterOutProcessedReqs done l = l.
Proof.
  unfold filterOutProcessedReqs. induction 1 as [|r l Hr Hl IH]; [done|]. rewrite filter_cons_True, IH; [done|].
  unfold Completed. rewrite bool_decide_eq_false_2; [done|]. rewrite Hr. by intros [? ?].
Qed.

Lemma filterOut_left done l l' :
  (∀ r, r ∈ l → is_Some (done !! req_id r)) → open done l' → filterOutProcessedReqs done (l ++ l') = l'.
Proof.
  intros Hl [_ Hl']. unfold filterOutProcessedReqs. rewrite filter_app.
  change (filterOutProcessedReqs done l ++ filterOutProcessedReqs done l' = l').
  by rewrite filterOut_completed, filterOut_open.
Qed.

Lemma filterOut_perm done l l' : l ≡ₚ l' → filterOutProcessedReqs done l ≡ₚ filterOutProcessedReqs done l'.
Proof. intros Hp. unfold filterOutProcessedReqs. by rewrite Hp. Qed.

Lemma filterOut_sub done l : sublist (filterOutProcessedReqs done l) l.
Proof. apply sublist_filter. Qed.

(** * Reservations *)

Definition req_ok (r : fundRequest) : Prop := 0 <= req_amt r.
Definition funded_req (r : fundRequest) : Prop := req_ok r ∧ Wallet r ≠ Undef.

Lemma Amount_nonneg r : req_ok r → 0 <= Amount r.
Proof. unfold req_ok, Amount. destruct (req_expired r); lia. Qed.

(** The state of the loop of [splitReservations] after the requests [rs]. *)
Record split_inv (R : Z) (rs left : list fundRequest) (s : split) : Prop := {
  si_perm : rs ≡ₚ toCancel s ++ toAdd s ++ left;
  si_first : ∀ r l, rs = r :: l → r ∈ toCancel s ++ toAdd s;
  si_sum : toAddAmt s - releaseAmt s = sumZ Amount (toCancel s) + sumZ Amount (toAdd s) - R;
  si_release : 0 <= releaseAmt s;
  si_added : Forall (fun r => Wallet r = batchWallet s) (toAdd s);
  si_none : toAdd s = [] → batchWallet s = Undef ∧ left = [] ∧ toAddAmt s = 0;
  si_some : toAdd s ≠ [] → batchWallet s ≠ Undef ∧ releaseAmt s = 0 ∧ 0 < toAddAmt s;
}.

Lemma snoc_ne {A} (l : list A) x : l ++ [x] ≠ [].
Proof. by destruct l. Qed.

Lemma snoc_head {A} (l l' : list A) x y : l ++ [x] = y :: l' → l = [] ∧ y = x ∨ ∃ l1, l = y :: l1 ∧ l' = l1 ++ [x].
Proof. destruct l as [|z l]; simpl; intros [= -> <-]; [by left|right; by exists l]. Qed.

Lemma sumZ_snoc {A} (f : A → Z) l x : sumZ f (l ++ [x]) = sumZ f l + f x.
Proof. rewrite sumZ_app, sumZ_cons. unfold sumZ at 2. simpl. lia. Qed.

Lemma split_step_inv R rs left s r :
  funded_req r → split_inv R rs left s → ∃ left', split_inv R (rs ++ [r]) left' (split_step s r).
Proof.
  intros [Hok Hw] [Hp Hf Hs Hr Ha Hn Hsm]. apply Amount_nonneg in Hok. unfold split_step.
  destruct (Z.leb_spec (Amount r) (releaseAmt s)) as [Hle|Hgt].
  { exists left. split; cbn [toCancel toAdd toAddAmt releaseAmt batchWallet]; rewrite ?sumZ_snoc; [| |lia|lia|done|done|].
    - rewrite Hp. solve_Permutation.
    - intros x l [[-> ->]|(l' & E & _)]%snoc_head; [set_solver|]. specialize (Hf x l' E). set_solver.
    - intros Hne. destruct (Hsm Hne) as (? & ? & ?). split_and!; [done|lia|done]. }
  destruct (decide (toAdd s = [])) as [E|Hne].
  - destruct (Hn E) as (Eb & -> & Ez). rewrite (bool_decide_eq_true_2 (batchWallet s = Undef)) by done.
    rewrite bool_decide_eq_true_2 by done.
    exists []. split; cbn [toCancel toAdd toAddAmt releaseAmt batchWallet]; rewrite ?sumZ_snoc; [| |lia|lia| | |].
    + rewrite Hp. solve_Permutation.
    + intros x l [[-> ->]|(l' & E' & _)]%snoc_head; [set_solver|]. specialize (Hf x l' E'). set_solver.
    + rewrite E. by repeat constructor.
    + by intros ?%snoc_ne.
    + intros _. split_and!; [done|done|lia].
  - destruct (Hsm Hne) as (Hb & E0 & Hpos). rewrite (bool_decide_eq_false_2 (batchWallet s = Undef)) by done.
    case_bool_decide as Ew.
    + exists left. split; cbn [toCancel toAdd toAddAmt releaseAmt batchWallet]; rewrite ?sumZ_snoc; [| |lia|lia| | |].
      * rewrite Hp. solve_Permutation.
      * intros x l [[-> ->]|(l' & E' & _)]%snoc_head; [set_solver|]. specialize (Hf x l' E'). set_solver.
      * apply Forall_app. split; [done|]. by repeat constructor.
      * by intros ?%snoc_ne.
      * intros _. split_and!; [done|done|lia].
    + exists (left ++ [r]). split; cbn [toCancel toAdd toAddAmt releaseAmt batchWallet]; try done; [rewrite Hp; solve_Permutation|].
      intros x l [[-> _]|(l' & E' & _)]%snoc_head; [|by apply (Hf x l')]. apply Permutation_nil_l in Hp. by destruct (toCancel s), (toAdd s).
Qed.

Lemma split_inv_all R reservations :
  Forall funded_req reservations → 0 <= R →
  ∃ left, split_inv R reservations left (foldl split_step (mkSplit [] [] 0 R Undef) reservations).
Proof.
  intros Hok HR. induction reservations as [|r rs IH] using rev_ind.
  - by exists [].
  - apply Forall_app in Hok as [Hrs [Hr _]%Forall_cons]. destruct (IH Hrs) as (left & Hi).
    rewrite foldl_app. exact (split_step_inv _ _ _ _ _ Hr Hi).
Qed.

Section Theory.
Context {W : Type} (api : fundManagerAPI W).

Lemma AvailableFunds_out addr n : pushed (AvailableFunds api addr n).2 = pushed n ∧ stored (AvailableFunds api addr n).2 = stored n.
Proof. unfold AvailableFunds. by destruct (StateMarketBalance api addr (world n)) as [[bal|] w]. Qed.

Lemma push_out msg n :
  stored (push api msg n).2 = stored n ∧
  match (push api msg n).1 with
  | Ok _ => pushed (push api msg n).2 = pushed n ++ [msg]
  | Err _ => pushed (push api msg n).2 = pushed n
  end.
Proof. unfold push. by destruct (MpoolPushMessage api msg (world n)) as [[sm|] w]. Qed.

Lemma AddFunds_out wallet addr amt n :
  stored (AddFunds api wallet addr amt n).2 = stored n ∧
  match (AddFunds api wallet addr amt n).1 with
  | Ok _ => ∃ params, SerializeAddr api addr = Some params ∧
      pushed (AddFunds api wallet addr amt n).2 = pushed n ++ [market_message api wallet amt (MethodAddBalance api) params]
  | Err _ => pushed (AddFunds api wallet addr amt n).2 = pushed n
  end.
Proof.
  unfold AddFunds. destruct (SerializeAddr api addr) as [params|]; [|done].
  destruct (push_out (market_message api wallet amt (MethodAddBalance api) params) n) as [? Hp]. split; [done|].
  destruct (push api _ n) as [[c|e] n']; naive_solver.
Qed.

Lemma WithdrawFunds_out wallet addr amt n :
  stored (WithdrawFunds api wallet addr amt n).2 = stored n ∧
  match (WithdrawFunds api wallet addr amt n).1 with
  | Ok _ => ∃ params, SerializeWithdrawal api addr amt = Some params ∧
      pushed (WithdrawFunds api wallet addr amt n).2 = pushed n ++ [market_message api wallet 0 (MethodWithdrawBalance api) params]
  | Err _ => pushed (WithdrawFunds api wallet addr amt n).2 = pushed n
  end.
Proof.
  unfold WithdrawFunds. destruct (SerializeWithdrawal api addr amt) as [params|]; [|done].
  destruct (push_out (market_message api wallet 0 (MethodWithdrawBalance api) params) n) as [? Hp]. split; [done|].
  destruct (push api _ n) as [[c|e] n']; naive_solver.
Qed.

(** What a run of the reservations without an error does; [left] stays queued. *)
Record accounted (st : FundedAddressState) (resv rel left : list fundRequest) (n n' : outside W) (pr : processResult) : Prop := {
  ac_perm : resv ≡ₚ covered pr ++ added pr ++ left;
  ac_first : ∀ r l, resv = r :: l → r ∈ covered pr ++ added pr;
  ac_amt : amtReserved pr = Z.max 0 (AmtReserved st + sumZ Amount (covered pr ++ added pr) - sumZ Amount rel);
  ac_msg :
    match pr_msgCid pr with
    | None =>
        pushed n' = pushed n ∧ added pr = [] ∧
        (sumZ Amount (covered pr) <= sumZ Amount rel ∨
         ∃ avail, (AvailableFunds api (Addr st) n).1 = Ok avail ∧ amtReserved pr <= avail)
    | Some c =>
        ∃ wallet avail params,
          Forall (fun r => Wallet r = wallet) (added pr) ∧
          (AvailableFunds api (Addr st) n).1 = Ok avail ∧ avail < amtReserved pr ∧
          SerializeAddr api (Addr st) = Some params ∧
          pushed n' = pushed n ++ [market_message api wallet (amtReserved pr - avail) (MethodAddBalance api) params]
    end;
}.

Lemma reserve_body_spec st resv rel n :
  Forall funded_req resv → Forall req_ok rel → 0 <= AmtReserved st →
  ∃ pr err n', reserve_body api st resv rel n = Some ((pr, err), n') ∧ stored n' = stored n ∧
    match err with
    | Some _ => pushed n' = pushed n
    | None => ∃ left, accounted st resv rel left n n' pr
    end.
Proof.
  intros Hresv Hrel Hst. unfold reserve_body, splitReservations.
  destruct (split_inv_all (sumZ Amount rel) resv) as (left & [Hp Hf Hs Hr Ha Hn Hsm]); [done| |].
  { apply sumZ_nonneg. eapply Forall_impl; [exact Hrel|]. apply Amount_nonneg. }
  destruct (foldl _ _ _) as [tc ta am ra bw]. simpl in *.
  set (reserved := if AmtReserved st + (am - ra) <? 0 then 0 else AmtReserved st + (am - ra)).
  assert (Hres : reserved = Z.max 0 (AmtReserved st + sumZ Amount (tc ++ ta) - sumZ Amount rel)).
  { unfold reserved. rewrite sumZ_app. destruct (Z.ltb_spec (AmtReserved st + (am - ra)) 0); lia. }
  destruct ta as [|first ta].
  - destruct (Hn eq_refl) as (-> & -> & ->). simpl. eexists _, _, _. split; [done|]. split; [done|].
    rewrite ?app_nil_r in *. exists []. split; simpl; rewrite ?app_nil_r; try done.
    + split_and!; [done..|]. left. unfold sumZ at 2 in Hs. simpl in Hs. lia.
  - destruct (Hsm ltac:(done)) as (_ & -> & Hpos). assert (0 < reserved) as Hrp.
    { unfold reserved. destruct (Z.ltb_spec (AmtReserved st + (am - 0)) 0); lia. }
    destruct (Z.ltb_spec 0 reserved) as [_|]; [|lia]. simpl.
    pose proof (AvailableFunds_out (Addr st) n) as [Ap As]. destruct (AvailableFunds api (Addr st) n) as [[avail|e] n1] eqn:EA; simpl in *.
    2: { eexists _, _, _. done. }
    destruct (Z.leb_spec (reserved - avail) 0).
    + eexists _, _, _. split; [done|]. split; [done|]. exists left. split; simpl; rewrite ?app_nil_r; try done.
      * by rewrite Hp, <- (assoc_L (++)).
      * split_and!; [done..|]. right. exists avail. rewrite EA. split; [done|lia].
    + pose proof (AddFunds_out (Wallet first) (Addr st) (reserved - avail) n1) as [Bs Bp].
      destruct (AddFunds api (Wallet first) (Addr st) (reserved - avail) n1) as [[c|e] n2]; simpl in *.
      2: { eexists _, _, _. split; [done|]. split; congruence. }
      destruct Bp as (params & Esp & Bp). eexists _, _, _. split; [done|]. split; [congruence|].
      exists left. split; simpl; try done.
      exists bw, avail, params. apply Forall_cons_1 in Ha as [Ew Ha]. rewrite EA, Ew in *. split_and!; try done; [by constructor|lia|congruence].
Qed.

(** The results of the requests [reqs]. *)
Definition told (done : gmap nat reqResult) (reqs : list fundRequest) (c : cid) (e : option fm_error) : Prop :=
  ∀ r, r ∈ reqs → done !! req_id r = Some (mkReqResult c e).

Lemma told_kept done done' l l' c e :
  NoDup (ids (l ++ l')) → completes done done' l' → told done l c e → told done' l c e.
Proof. intros Hnd [_ Hk] Ht r Hr. rewrite Hk; [by apply Ht | by eapply ids_disjoint]. Qed.

Lemma processReservations_spec st resv rel done n :
  Forall funded_req resv → Forall req_ok rel → 0 <= AmtReserved st → open done (resv ++ rel) →
  ∃ pr err done' n', processReservations api st resv rel done n = Some ((pr, err), done', n') ∧ stored n' = stored n ∧
    match err with
    | Some e => pushed n' = pushed n ∧ completes done done' (resv ++ rel) ∧ told done' (resv ++ rel) cidUndef (Some e)
    | None =>
        ∃ left, accounted st resv rel left n n' pr ∧ completes done done' (rel ++ covered pr ++ added pr) ∧
          told done' (rel ++ covered pr) cidUndef None ∧
          (∀ c, pr_msgCid pr = Some c → told done' (added pr) c None)
    end.
Proof.
  intros Hresv Hrel Hst Ho. unfold processReservations.
  destruct (reserve_body_spec st resv rel n Hresv Hrel Hst) as (pr & err & n' & -> & Hs & Hb). simpl.
  destruct err as [e|].
  { destruct (complete_all_spec (resv ++ rel) cidUndef (Some e) done Ho) as (done' & -> & Hc & Ht). simpl.
    by exists pr, (Some e), done', n'. }
  destruct Hb as (left & Ha). assert (Ho' : open done (rel ++ covered pr ++ added pr ++ left)).
  { eapply open_perm; [|exact Ho]. rewrite (ac_perm _ _ _ _ _ _ _ Ha). solve_Permutation. }
  destruct (complete_all_spec rel cidUndef None done) as (d1 & -> & C1 & T1); [by apply open_app in Ho' as [? _]|]. simpl.
  pose proof (open_after _ _ _ _ Ho' C1) as Ho1.
  destruct (complete_all_spec (covered pr) cidUndef None d1) as (d2 & -> & C2 & T2); [by apply open_app in Ho1 as [? _]|]. simpl.
  pose proof (open_after _ _ _ _ Ho1 C2) as Ho2. pose proof (completes_trans _ _ _ _ _ C1 C2) as C12.
  assert (Hnd : NoDup (ids (rel ++ covered pr ++ added pr))).
  { rewrite !(assoc_L (++)) in Ho'. apply open_app in Ho' as [[Hnd _] _]. by rewrite <- !(assoc_L (++)) in Hnd. }
  assert (T12 : told d2 (rel ++ covered pr) cidUndef None).
  { intros r [Hr|Hr]%elem_of_app; [|by apply T2]. apply (told_kept d1 d2 rel (covered pr)); [|done..].
    unfold ids in *. rewrite (assoc_L (++)), fmap_app in Hnd. by apply NoDup_app in Hnd as [? _]. }
  destruct (pr_msgCid pr) as [c|] eqn:Ec.
  - destruct (complete_all_spec (added pr) c None d2) as (d3 & -> & C3 & T3); [by apply open_app in Ho2 as [? _]|]. simpl.
    exists pr, None, d3, n'. split; [done|]. split; [done|]. exists left. split; [done|]. split; [|split].
    + rewrite (assoc_L (++)). by eapply completes_trans.
    + apply (told_kept d2 d3 _ (added pr)); [by rewrite <- (assoc_L (++))|done..].
    + intros c' Ec'. assert (c' = c) as -> by congruence. exact T3.
  - simpl. exists pr, None, d2, n'. split; [done|]. split; [done|]. exists left. split; [done|].
    destruct Ha as [_ _ _ Hm]. rewrite Ec in Hm. destruct Hm as (_ & -> & _). rewrite app_nil_r.
    split; [done|]. split; [done|]. intros c. congruence.
Qed.

(** * Withdrawals *)

(** The state of the loop of [processWithdrawals] after the requests [rs]: some are
    in the batch, some are completed at once, some wait for another batch. *)
Record wd_inv (netAvail : Z) (done : gmap nat reqResult) (rs dropped skipped : list fundRequest) (b : batch) : Prop := {
  wi_perm : rs ≡ₚ allowed b ++ dropped ++ skipped;
  wi_withdrawal : withdrawalAmt b = sumZ Amount (allowed b);
  wi_amt : allowedAmt b = sumZ Amount (allowed b);
  wi_fit : allowed b ≠ [] → withdrawalAmt b <= netAvail;
  wi_allowed : Forall (fun r => Wallet r = wd_wallet b ∧ 0 < Amount r) (allowed b);
  wi_none : allowed b = [] → wd_wallet b = Undef ∧ skipped = [];
  wi_some : allowed b ≠ [] → wd_wallet b ≠ Undef;
  wi_done : completes done (wd_done b) dropped;
  wi_dropped : Forall (fun r => Amount r = 0 ∨ netAvail < withdrawalAmt b + Amount r) dropped;
}.

Lemma wd_Complete netAvail done rs dropped skipped b r e :
  open done (rs ++ [r]) → wd_inv netAvail done rs dropped skipped b →
  Amount r = 0 ∨ netAvail < withdrawalAmt b + Amount r →
  ∃ done', Complete r cidUndef e (wd_done b) = Some done' ∧
    wd_inv netAvail done (rs ++ [r]) (dropped ++ [r]) skipped
      (mkBatch (withdrawalAmt b) (allowedAmt b) (allowed b) (wd_wallet b) done').
Proof.
  intros Ho [Hp Hw Ha Hf Hal Hn Hs Hd Hdr] Hr.
  assert (Ho' : open done (dropped ++ [r])).
  { apply (open_perm _ _ (allowed b ++ skipped ++ dropped ++ [r])) in Ho; [|rewrite Hp; solve_Permutation].
    rewrite !(assoc_L (++)) in Ho. rewrite <- (assoc_L (++)) in Ho. by apply open_app in Ho as [_ ?]. }
  pose proof (open_after _ _ _ _ Ho' Hd) as Ho1.
  destruct (complete_all_spec [r] cidUndef e (wd_done b) Ho1) as (done' & E & Hc & _).
  simpl in E. destruct (Complete r cidUndef e (wd_done b)) as [d|]; [|done]. simpl in E. injection E as ->.
  exists done'. split; [done|]. split; simpl; try done.
  - rewrite Hp. solve_Permutation.
  - by eapply completes_trans.
  - apply Forall_app. split; [done|]. constructor; [exact Hr | constructor].
Qed.

Lemma withdraw_step_inv netAvail done rs dropped skipped b r :
  funded_req r → open done (rs ++ [r]) → wd_inv netAvail done rs dropped skipped b →
  ∃ b' dropped' skipped', withdraw_step netAvail b r = Some b' ∧ wd_inv netAvail done (rs ++ [r]) dropped' skipped' b'.
Proof.
  intros [Hok Hwl] Ho Hi. apply Amount_nonneg in Hok. unfold withdraw_step.
  destruct (Z.eqb_spec (Amount r) 0) as [E0|Hne0].
  { destruct (wd_Complete netAvail done rs dropped skipped b r None Ho Hi) as (done' & -> & Hi'); [by left|]. by eexists _, _, _. }
  destruct (Z.ltb_spec netAvail (withdrawalAmt b + Amount r)) as [Hlt|Hge].
  { destruct (wd_Complete netAvail done rs dropped skipped b r (Some InsufficientFunds) Ho Hi) as (done' & -> & Hi'); [by right|].
    by eexists _, _, _. }
  destruct Hi as [Hp Hw Ha Hf Hal Hn Hs Hd Hdr].
  assert (Hnext : Wallet r = (if bool_decide (wd_wallet b = Undef) then Wallet r else wd_wallet b) →
    wd_inv netAvail done (rs ++ [r]) dropped skipped
      (mkBatch (withdrawalAmt b + Amount r) (allowedAmt b + Amount r) (allowed b ++ [r])
         (if bool_decide (wd_wallet b = Undef) then Wallet r else wd_wallet b) (wd_done b))).
  { intros Ew. split; simpl; rewrite ?sumZ_snoc; try lia; try done.
    - rewrite Hp. solve_Permutation.
    - apply Forall_app. split; [|constructor; [split; [done|lia] | constructor]].
      destruct (decide (allowed b = [])) as [-> | Hne]; [constructor|]. by rewrite bool_decide_eq_false_2 by auto.
    - by intros ?%snoc_ne.
    - intros _. by rewrite <- Ew.
    - eapply Forall_impl; [exact Hdr|]. simpl. lia. }
  remember (if bool_decide (wd_wallet b = Undef) then Wallet r else wd_wallet b) as wallet eqn:Ewl.
  destruct (decide (Wallet r = wallet)) as [Ew|Ew].
  { rewrite bool_decide_eq_true_2 by done. eexists _, dropped, skipped. split; [reflexivity|]. by apply Hnext. }
  rewrite bool_decide_eq_false_2 by done. eexists _, dropped, (skipped ++ [r]). split; [reflexivity|].
  destruct (decide (allowed b = [])) as [E|Hne].
  - destruct (Hn E) as [Eu _]. by rewrite bool_decide_eq_true_2 in Ewl.
  - rewrite bool_decide_eq_false_2 in Ewl by auto. subst wallet. split; simpl; try done. rewrite Hp. solve_Permutation.
Qed.

Lemma withdraw_loop_inv netAvail done reqs : ∀ rs dropped skipped b,
  Forall funded_req reqs → open done (rs ++ reqs) → wd_inv netAvail done rs dropped skipped b →
  ∃ b' dropped' skipped', withdraw_loop netAvail reqs b = Some b' ∧ wd_inv netAvail done (rs ++ reqs) dropped' skipped' b'.
Proof.
  induction reqs as [|r reqs IH]; intros rs dropped skipped b Hok Ho Hi.
  { rewrite app_nil_r in *. by exists b, dropped, skipped. }
  apply Forall_cons in Hok as [Hr Hok]. rewrite (cons_middle r), (assoc_L (++)) in *.
  destruct (withdraw_step_inv netAvail done rs dropped skipped b r Hr) as (b1 & d1 & s1 & E & Hi1); [|done|].
  { by apply open_app in Ho as [? _]. }
  destruct (IH (rs ++ [r]) d1 s1 b1 Hok Ho Hi1) as (b' & d' & s' & E' & Hi'). exists b', d', s'. simpl. by rewrite E.
Qed.

(** The batch of a run, if the balance of the address is known. *)
Lemma withdraw_batch netAvail done wds :
  Forall funded_req wds → open done wds →
  ∃ b dropped skipped, withdraw_loop netAvail wds (mkBatch 0 0 [] Undef done) = Some b ∧
    wd_inv netAvail done wds dropped skipped b ∧ (wds ≠ [] → allowed b ++ dropped ≠ []) ∧ (allowedAmt b = 0 ↔ allowed b = []).
Proof.
  intros Hok Ho. destruct (withdraw_loop_inv netAvail done wds [] [] [] (mkBatch 0 0 [] Undef done)) as (b & d & sk & E & Hi).
  - done.
  - done.
  - split; simpl; try done. apply completes_nil.
  - exists b, d, sk. split; [done|]. split; [done|]. destruct Hi as [Hp Hw Ha Hf Hal Hn Hs Hd Hdr]. split.
    + intros Hne E'. apply app_nil in E' as [Ea ->]. destruct (Hn Ea) as [_ ->]. rewrite Ea in Hp. simpl in Hp.
      by apply Permutation_nil_r in Hp.
    + rewrite Ha. destruct (allowed b) as [|r l]; [done|]. apply Forall_cons in Hal as [[_ Hr] Hl]. rewrite sumZ_cons.
      assert (0 <= sumZ Amount l) by (apply sumZ_nonneg; eapply Forall_impl; [exact Hl|]; naive_solver lia). split; [lia|done].
Qed.

(** The outcomes of a run of the withdrawals. *)
Inductive withdrawn (st : FundedAddressState) (wds : list fundRequest) (done : gmap nat reqResult) (n : outside W)
  : option (result fm_error cid * gmap nat reqResult * outside W) → Prop :=
  | wn_balance e done' n' :
      pushed n' = pushed n → stored n' = stored n → completes done done' wds → withdrawn st wds done n (Some (Err e, done', n'))
  | wn_nothing avail b dropped done' n' :
      (AvailableFunds api (Addr st) n).1 = Ok avail → wd_inv (avail - AmtReserved st) done wds dropped [] b →
      allowed b = [] → pushed n' = pushed n → stored n' = stored n → completes done done' dropped →
      (wds ≠ [] → dropped ≠ []) → withdrawn st wds done n (Some (Ok cidUndef, done', n'))
  | wn_sent avail b dropped skipped done' n' c params :
      (AvailableFunds api (Addr st) n).1 = Ok avail → wd_inv (avail - AmtReserved st) done wds dropped skipped b →
      allowed b ≠ [] → SerializeWithdrawal api (Addr st) (allowedAmt b) = Some params →
      pushed n' = pushed n ++ [market_message api (wd_wallet b) 0 (MethodWithdrawBalance api) params] → stored n' = stored n →
      completes done done' (dropped ++ allowed b) → told done' (allowed b) c None → withdrawn st wds done n (Some (Ok c, done', n'))
  | wn_refused e done' n' :
      pushed n' = pushed n → stored n' = stored n → completes done done' wds → withdrawn st wds done n (Some (Err e, done', n'))
  | wn_panic avail n1 b first rest e n2 :
      AvailableFunds api (Addr st) n = (Ok avail, n1) →
      withdraw_loop (avail - AmtReserved st) wds (mkBatch 0 0 [] Undef done) = Some b → allowed b = first :: rest →
      WithdrawFunds api (Wallet first) (Addr st) (allowedAmt b) n1 = (Err e, n2) →
      Exists (fun r => is_Some (wd_done b !! req_id r)) wds → withdrawn st wds done n None.

Lemma processWithdrawals_spec st wds done n :
  Forall funded_req wds → open done wds → withdrawn st wds done n (processWithdrawals api st wds done n).
Proof.
  intros Hok Ho. unfold processWithdrawals. pose proof (AvailableFunds_out (Addr st) n) as [Ap As].
  destruct (AvailableFunds api (Addr st) n) as [[avail|e] n1] eqn:EA; simpl in *.
  2: { destruct (complete_all_spec wds cidUndef (Some e) done Ho) as (done' & -> & Hc & _). by constructor. }
  destruct (withdraw_batch (avail - AmtReserved st) done wds Hok Ho) as (b & dropped & skipped & E & Hi & Hne & H0).
  rewrite E. simpl. destruct (Z.eqb_spec (allowedAmt b) 0) as [Ez|Hz].
  { apply H0 in Ez. destruct (wi_none _ _ _ _ _ _ Hi Ez) as [_ ->]. rewrite Ez in *. simpl.
    apply (wn_nothing st wds done n avail b dropped); try done; [by rewrite EA | apply (wi_done _ _ _ _ _ _ Hi)]. }
  destruct (allowed b) as [|first rest] eqn:Eal; [by destruct Hz; apply H0|].
  pose proof (WithdrawFunds_out (Wallet first) (Addr st) (allowedAmt b) n1) as [Ws Wp].
  destruct (WithdrawFunds api (Wallet first) (Addr st) (allowedAmt b) n1) as [[c|e] n2] eqn:EW; simpl in *.
  - assert (Hoa : open (wd_done b) (first :: rest)).
    { apply (open_after done _ dropped); [|apply (wi_done _ _ _ _ _ _ Hi)].
      apply (open_perm _ _ (dropped ++ (first :: rest) ++ skipped)) in Ho;
        [|rewrite (wi_perm _ _ _ _ _ _ Hi), Eal; solve_Permutation]. rewrite (assoc_L (++)) in Ho. by apply open_app in Ho as [? _]. }
    destruct (complete_all_spec (first :: rest) c None (wd_done b) Hoa) as (done' & E' & Hc & Ht). simpl in E'. rewrite E'. simpl.
    destruct Wp as (params & Es & Wp). rewrite <- Eal in *.
    apply (wn_sent st wds done n avail b dropped skipped done' n2 c params); try done; [by rewrite EA|congruence| |congruence|].
    + pose proof (wi_allowed _ _ _ _ _ _ Hi) as Hal. rewrite Eal in Hal. apply Forall_cons in Hal as [[<- _] _]. congruence.
    + eapply completes_trans; [apply (wi_done _ _ _ _ _ _ Hi) | done].
  - destruct (decide (Exists (fun r => is_Some (wd_done b !! req_id r)) wds)) as [Hex|Hnex].
    { rewrite complete_all_panics by done. by eapply wn_panic. }
    assert (Ho' : open (wd_done b) wds).
    { split; [apply Ho|]. apply not_Exists_Forall in Hnex; [|apply _]. eapply Forall_impl; [exact Hnex|].
      intros r. simpl. destruct (wd_done b !! req_id r); [|done]. intros []. by eexists. }
    destruct (complete_all_spec wds cidUndef (Some e) (wd_done b) Ho') as (done' & -> & [Hc Hk] & _). simpl.
    constructor; [congruence|congruence|]. split; [done|]. intros i Hi'. rewrite Hk by done.
    apply (wi_done _ _ _ _ _ _ Hi). intros Hin. apply Hi'. unfold ids in *.
    rewrite (wi_perm _ _ _ _ _ _ Hi), !fmap_app, !elem_of_app. auto.
Qed.

(** * The datastore *)

Definition puts_ok : Prop := ∀ st w, (ds_Put api st w).1 = true.

Definition stored_ok (n : outside W) : Prop :=
  ∀ addr st, stored n !! addr = Some st → Addr st = addr ∧ 0 <= AmtReserved st.

(** What an operation on the address does to the datastore. *)
Record saved (st st' : FundedAddressState) (n n' : outside W) : Prop := {
  sv_addr : Addr st' = Addr st;
  sv_frame : ∀ addr, addr ≠ Addr st → stored n' !! addr = stored n !! addr;
  sv_ok : stored_ok n → 0 <= AmtReserved st → stored_ok n' ∧ 0 <= AmtReserved st';
  sv_put : puts_ok → (st' = st ∧ stored n' = stored n) ∨ stored n' !! Addr st = Some st';
}.

Lemma saved_same st n n' : stored n' = stored n → saved st st n n'.
Proof. intros E. split; unfold stored_ok; rewrite ?E; auto. Qed.

Lemma saved_trans st st1 st2 n n1 n2 : saved st st1 n n1 → saved st1 st2 n1 n2 → saved st st2 n n2.
Proof.
  intros [A1 F1 O1 P1] [A2 F2 O2 P2]. split.
  - congruence.
  - intros addr Hne. rewrite F2 by congruence. by apply F1.
  - intros Ho Hr. destruct (O1 Ho Hr). by apply O2.
  - intros Hp. destruct (P2 Hp) as [[-> E]|E]; [|right; by rewrite <- A1].
    destruct (P1 Hp) as [[-> E1]|E1]; [left; split; congruence | right; by rewrite E].
Qed.

Lemma saved_saveState st st' n : Addr st' = Addr st → (0 <= AmtReserved st → 0 <= AmtReserved st') → saved st st' n (saveState api st' n).
Proof.
  intros Ha Hr. unfold saveState. destruct (ds_Put api st' (world n)) as [ok w] eqn:E. split; simpl; [done| | |].
  - intros addr Hne. destruct ok; [by rewrite lookup_insert_ne by congruence | done].
  - intros Ho H0. split; [|auto]. intros addr st0. simpl. destruct ok; [|apply Ho].
    intros [[<- <-]|[? ?]]%lookup_insert_Some; [auto | by apply Ho].
  - intros Hp. specialize (Hp st' (world n)). rewrite E in Hp. simpl in Hp. subst ok. right. by rewrite Ha, lookup_insert_eq.
Qed.

(** * The queue of an address *)

Record queue_ok (next : nat) (a : fundedAddress) : Prop := {
  q_reserved : 0 <= AmtReserved (state a);
  q_open : open (completed a) (reservations a ++ releases a ++ withdrawals a);
  q_reservations : Forall funded_req (reservations a);
  q_releases : Forall req_ok (releases a);
  q_withdrawals : Forall funded_req (withdrawals a);
  q_ids : Forall (fun i => (i < next)%nat) (ids (reservations a ++ releases a ++ withdrawals a));
  q_done : ∀ i, is_Some (completed a !! i) → (i < next)%nat;
}.

Definition queued (a : fundedAddress) : nat := length (reservations a ++ releases a ++ withdrawals a).

Lemma ids_sublist l l' : sublist l l' → sublist (ids l) (ids l').
Proof. unfold ids. induction 1; simpl; by constructor. Qed.

Lemma open_sublist done l l' : sublist l l' → NoDup (ids l') → Forall (fun r => done !! req_id r = None) l → open done l.
Proof. intros Hs Hnd Hl. split; [by eapply sublist_NoDup; [|apply ids_sublist] | done]. Qed.

Lemma filterOut_none done l : Forall (fun r => done !! req_id r = None) (filterOutProcessedReqs done l).
Proof.
  apply Forall_forall. intros r [Hr _]%list_elem_of_filter. unfold Completed in Hr. apply bool_decide_eq_false in Hr.
  by apply eq_None_not_Some.
Qed.

Lemma filterOut_lt done l r : r ∈ l → is_Some (done !! req_id r) → (length (filterOutProcessedReqs done l) < length l)%nat.
Proof.
  intros Hr Hc. apply (length_filter_lt _ l r); [done|]. apply Completed_spec in Hc. by rewrite Hc.
Qed.

Lemma filterOut_le done l : (length (filterOutProcessedReqs done l) <= length l)%nat.
Proof. apply length_filter. Qed.

Lemma completes_below next done done' l :
  completes done done' l → Forall (fun i => (i < next)%nat) (ids l) → (∀ i, is_Some (done !! i) → (i < next)%nat) →
  ∀ i, is_Some (done' !! i) → (i < next)%nat.
Proof.
  intros [_ Hk] Hl Hd i Hi. destruct (decide (i ∈ ids l)) as [Hin|Hin].
  - rewrite Forall_forall in Hl. by apply Hl.
  - rewrite Hk in Hi by done. by apply Hd.
Qed.

Lemma Forall_sublist' {A} (P : A → Prop) l l' : sublist l l' → Forall P l' → Forall P l.
Proof. induction 1; intros Hl; [done | apply Forall_cons in Hl as [? ?]; constructor; auto | apply Forall_cons in Hl as [? ?]; auto]. Qed.

(** A queue after some of its requests are completed and others kept. *)
Lemma queue_ok_update next a st resv rel wds done l w p :
  queue_ok next a → 0 <= AmtReserved st → completes (completed a) done l →
  (∀ r, r ∈ l → r ∈ reservations a ++ releases a ++ withdrawals a) →
  sublist resv (reservations a) → sublist rel (releases a) → sublist wds (withdrawals a) →
  Forall (fun r => done !! req_id r = None) (resv ++ rel ++ wds) →
  queue_ok next (mkFundedAddress st resv rel wds done w p).
Proof.
  intros [Hr [Hnd Ho] H1 H2 H3 Hi Hd] Hst Hc Hl S1 S2 S3 Hn.
  assert (Hs : sublist (resv ++ rel ++ wds) (reservations a ++ releases a ++ withdrawals a)).
  { apply sublist_app; [done|]. by apply sublist_app. }
  split; simpl; [done| | | | | |].
  - by eapply open_sublist.
  - by eapply Forall_sublist'.
  - by eapply Forall_sublist'.
  - by eapply Forall_sublist'.
  - eapply Forall_sublist'; [|exact Hi]. by apply ids_sublist.
  - eapply completes_below; [exact Hc| |exact Hd]. rewrite Forall_forall in *. intros i Hin.
    unfold ids in *. apply list_elem_of_fmap in Hin as (r & -> & Hin). apply Hi. by apply list_elem_of_fmap_2, Hl.
Qed.

Lemma process_reservations_spec next a n :
  queue_ok next a → MsgCid (state a) = None →
  ∃ a' n', process_reservations api a n = Some (a', n') ∧ queue_ok next a' ∧ saved (state a) (state a') n n' ∧
    waits a' = waits a ∧ (queued a' <= queued a)%nat ∧ withdrawals a' = withdrawals a ∧
    (reservations a ++ releases a ≠ [] → (queued a' < queued a)%nat).
Proof.
  intros Hq Hm. pose proof Hq as [Hr Ho H1 H2 H3 Hi Hd]. unfold process_reservations.
  pose proof Ho as Ho'. rewrite (assoc_L (++)) in Ho'. pose proof (open_app _ _ _ Ho') as [Horr _].
  destruct (processReservations_spec (state a) (reservations a) (releases a) (completed a) n H1 H2 Hr Horr)
    as (pr & err & done & n' & -> & Hs & Hres). simpl.
  assert (∃ l, completes (completed a) done l ∧ (∀ r, r ∈ l → r ∈ reservations a ++ releases a) ∧
    (reservations a ++ releases a ≠ [] → l ≠ []) ∧ Forall (fun r => done !! req_id r = None) (withdrawals a)) as (l & Hc & Hl & Hne & Hw).
  { destruct err as [e|].
    - destruct Hres as (_ & Hc & _). exists (reservations a ++ releases a). split_and!; [done..|].
      by apply (open_after (completed a) done (reservations a ++ releases a)).
    - destruct Hres as (left & [Hp Hf _ _] & Hc & _). exists (releases a ++ covered pr ++ added pr). split_and!; [done| | |].
      + intros r. rewrite Hp. set_solver.
      + intros Hne E. apply app_nil in E as [E1 E2]. rewrite E1, app_nil_r in Hne.
        destruct (reservations a) as [|r l]; [done|]. specialize (Hf r l eq_refl). rewrite E2 in Hf. by apply not_elem_of_nil in Hf.
      + apply (open_perm _ _ ((releases a ++ covered pr ++ added pr) ++ left ++ withdrawals a)) in Ho;
          [|rewrite Hp; solve_Permutation]. eapply open_after in Ho as [_ Ho]; [|done]. by apply Forall_app in Ho as [_ ?]. }
  set (stn := match err with None => _ | Some _ => _ end).
  assert (Hsv : saved (state a) stn.1 n stn.2).
  { unfold stn. destruct err as [e|]; simpl; [by apply saved_same|].
    eapply saved_trans; [by apply (saved_same (state a) n n')|]. apply saved_saveState; [done|]. simpl.
    destruct Hres as (left & [_ _ -> _] & _). lia. }
  assert (Hst : 0 <= AmtReserved stn.1).
  { unfold stn. destruct err as [e|]; simpl; [done|]. destruct Hres as (left & [_ _ -> _] & _). lia. }
  destruct stn as [st' n2] eqn:Est. simpl in *. eexists _, n2. split; [reflexivity|]. split_and!; simpl; try done.
  - eapply queue_ok_update; try done; try apply sublist_filter; [set_solver|].
    apply Forall_app. split; [apply filterOut_none|]. apply Forall_app. split; [apply filterOut_none | done].
  - unfold queued. simpl. rewrite !length_app.
    pose proof (filterOut_le done (reservations a)). pose proof (filterOut_le done (releases a)). lia.
  - intros Hne'. unfold queued. simpl. rewrite !length_app. apply Hne in Hne'. destruct l as [|r l]; [done|].
    assert (is_Some (done !! req_id r)) as Hcr by (apply Hc; by left).
    pose proof (filterOut_le done (reservations a)). pose proof (filterOut_le done (releases a)).
    destruct (proj1 (elem_of_app _ _ _) (Hl r (list_elem_of_here _ _))) as [Hin|Hin];
      pose proof (filterOut_lt done _ r Hin Hcr); lia.
Qed.

(** What the withdrawals that are completed have to do with the queue. *)
Lemma withdrawn_some st wds rest done n r done' n' :
  open done (wds ++ rest) → withdrawn st wds done n (Some (r, done', n')) →
  stored n' = stored n ∧
  ∃ l, completes done done' l ∧ (∀ r, r ∈ l → r ∈ wds) ∧ (wds ≠ [] → l ≠ []) ∧ Forall (fun r => done' !! req_id r = None) rest.
Proof.
  intros Ho Hw.
  assert (Hkeep : ∀ l left, wds ≡ₚ l ++ left → completes done done' l → Forall (fun r => done' !! req_id r = None) rest).
  { intros l left Hp Hc. apply (open_perm _ _ (l ++ left ++ rest)) in Ho; [|rewrite Hp; solve_Permutation].
    eapply open_after in Ho as [_ Ho]; [|done]. by apply Forall_app in Ho as [_ ?]. }
  inversion Hw as [? ? ? ? ? Hc | ? b dropped ? ? ? Hi Eal ? ? Hc Hne | ? b dropped skipped ? ? ? ? ? Hi Hne ? ? ? Hc | ? ? ? ? ? Hc |]; subst.
  - split; [done|]. exists wds. split_and!; try done. by apply (Hkeep wds []); [rewrite app_nil_r|].
  - pose proof (wi_perm _ _ _ _ _ _ Hi) as Hp. rewrite Eal, app_nil_r in Hp. simpl in Hp.
    split; [done|]. exists dropped. split_and!; [done|intros x; by rewrite Hp|done|]. by apply (Hkeep dropped []); [rewrite app_nil_r|].
  - pose proof (wi_perm _ _ _ _ _ _ Hi) as Hp. split; [done|]. exists (dropped ++ allowed b). split_and!; [done| | |].
    + intros x. rewrite Hp. set_solver.
    + intros _ [_ E]%app_nil. done.
    + apply (Hkeep (dropped ++ allowed b) skipped); [rewrite Hp; solve_Permutation | done].
  - split; [done|]. exists wds. split_and!; try done. by apply (Hkeep wds []); [rewrite app_nil_r|].
Qed.

Lemma process_withdrawals_spec next a n a' n' :
  queue_ok next a → process_withdrawals api a n = Some (a', n') →
  queue_ok next a' ∧ saved (state a) (state a') n n' ∧ waits a' = waits a ∧ (queued a' <= queued a)%nat ∧
  (withdrawals a ≠ [] → (queued a' < queued a)%nat).
Proof.
  intros Hq. pose proof Hq as [Hr Ho H1 H2 H3 Hi Hd]. unfold process_withdrawals.
  assert (Ho' : open (completed a) (withdrawals a ++ reservations a ++ releases a)).
  { eapply open_perm; [|exact Ho]. solve_Permutation. }
  pose proof (processWithdrawals_spec (state a) (withdrawals a) (completed a) n H3 (proj1 (open_app _ _ _ Ho'))) as Hw.
  destruct (processWithdrawals api (state a) (withdrawals a) (completed a) n) as [[[r d] n1]|]; [|done].
  destruct (withdrawn_some _ _ _ _ _ _ _ _ Ho' Hw) as (Hs & l & Hc & Hl & Hne & Hk). simpl.
  set (stn := match r with Ok _ => _ | Err _ => _ end). intros E.
  assert (Hsv : saved (state a) stn.1 n stn.2 ∧ AmtReserved stn.1 = AmtReserved (state a)).
  { unfold stn. destruct r as [c|e]; [case_bool_decide|]; simpl; (split; [|done]); try by apply saved_same.
    eapply saved_trans; [by apply (saved_same (state a) n n1) | by apply saved_saveState]. }
  destruct stn as [st' n2]. simpl in *. injection E as <- <-. destruct Hsv as [Hsv Hst]. split_and!; simpl; try done.
  - eapply queue_ok_update; try done; [by rewrite Hst|set_solver|apply sublist_filter|].
    apply Forall_app in Hk as [? ?]. apply Forall_app. split; [done|]. apply Forall_app. split; [done | apply filterOut_none].
  - unfold queued. simpl. rewrite !length_app. pose proof (filterOut_le d (withdrawals a)). lia.
  - intros Hne'. unfold queued. simpl. rewrite !length_app. apply Hne in Hne'. destruct l as [|x l]; [done|].
    pose proof (filterOut_lt d _ x (Hl x (list_elem_of_here _ _)) (proj1 Hc x (list_elem_of_here _ _))). lia.
Qed.

Definition waiting_ok (a : fundedAddress) : Prop :=
  waits a = match MsgCid (state a) with Some c => [c] | None => [] end.

Lemma is_nil_spec {A} (l : list A) : is_nil l = true ↔ l = [].
Proof. by destruct l. Qed.

(** A run of [process] that does not panic. *)
Lemma process_spec next a n a' n' :
  queue_ok next a → waiting_ok a → process api a n = Some (a', n') →
  queue_ok next a' ∧ waiting_ok a' ∧ saved (state a) (state a') n n' ∧
  (MsgCid (state a) = None → queued a ≠ 0%nat → (queued a' < queued a)%nat).
Proof.
  intros Hq Hwt. unfold process. unfold waiting_ok in Hwt. destruct (MsgCid (state a)) as [c|] eqn:Em.
  { intros [= <- <-]. split_and!; [done|by unfold waiting_ok; rewrite Em|by apply saved_same|done]. }
  set (hr := negb (is_nil (reservations a)) || negb (is_nil (releases a))). set (hw := negb (is_nil (withdrawals a))).
  destruct (negb hr && negb hw) eqn:Eno.
  { intros [= <- <-]. split_and!; [done|by unfold waiting_ok; rewrite Em|by apply saved_same|].
    unfold queued, hr, hw in *. by destruct (reservations a), (releases a), (withdrawals a). }
  assert (∃ a1 n1, (if hr then process_reservations api a n else Some (a, n)) = Some (a1, n1) ∧ queue_ok next a1 ∧
    saved (state a) (state a1) n n1 ∧ waits a1 = [] ∧ (queued a1 <= queued a)%nat ∧ withdrawals a1 = withdrawals a ∧
    (hr = true → (queued a1 < queued a)%nat) ∧ (hr = false → a1 = a)) as (a1 & n1 & -> & Q1 & S1 & W1 & L1 & E1 & P1 & F1).
  { destruct hr eqn:Ehr.
    - destruct (process_reservations_spec next a n Hq Em) as (a1 & n1 & ? & ? & ? & ? & ? & ? & Hp).
      exists a1, n1. split_and!; try done; [congruence|]. intros _. apply Hp. unfold hr in Ehr.
      destruct (reservations a), (releases a); done.
    - exists a, n. split_and!; try done. by apply saved_same. }
  cbn [mbind option_bind].
  destruct (hw && bool_decide (MsgCid (state a1) = None) && is_nil (reservations a1)) eqn:Ew.
  - destruct (process_withdrawals api a1 n1) as [[a2 n2]|] eqn:Ep; [|done]. simpl.
    destruct (process_withdrawals_spec next a1 n1 a2 n2 Q1 Ep) as (Q2 & S2 & W2 & L2 & P2).
    assert (Hlt : (queued a2 < queued a)%nat).
    { apply andb_prop in Ew as [[Ew _]%andb_prop _]. enough (withdrawals a1 ≠ []) as Hne by (specialize (P2 Hne); lia).
      rewrite E1. unfold hw in Ew. by destruct (withdrawals a). }
    pose proof (saved_trans _ _ _ _ _ _ S1 S2). intros [= <- <-].
    destruct (MsgCid (state a2)) as [c|] eqn:Ec; unfold waiting_ok; simpl; rewrite Ec, W2, W1; by destruct Q2.
  - simpl. assert (Hlt : (queued a1 < queued a)%nat).
    { destruct hr eqn:Ehr; [by apply P1|]. rewrite (F1 eq_refl) in *. exfalso. rewrite Em in Ew.
      unfold hr in Ehr. destruct (reservations a); [|done]. simpl in *. by destruct hw. }
    intros [= <- <-]. destruct (MsgCid (state a1)) as [c|] eqn:Ec; unfold waiting_ok; simpl; rewrite Ec, W1; by destruct Q1.
Qed.
End Theory.
