(* ===== verification/FundTheorems.v ===== *)
(** The theorems about the fund manager: reserved amounts are accounted for,
    withdrawals spare them, every reachable state is consistent, the queues empty,
    and the one way in which a run panics. *)

From S2P Require Import Prelude Gas Types MsgSet FundManager FundProps.

Section Reachable.
Context {W : Type} (api : fundManagerAPI W).

(** * Requests *)

Lemma queue_ok_mono next next' a : (next <= next')%nat → queue_ok next a → queue_ok next' a.
Proof.
  intros Hle [H1 H2 H3 H4 H5 H6 H7]. split; try done.
  - eapply Forall_impl; [exact H6|]. simpl. lia.
  - intros i Hi. specialize (H7 i Hi). lia.
Qed.

Lemma queue_ok_new next addr : queue_ok next (newFundedAddress addr).
Proof. split; simpl; try done; [split; constructor | by intros i []]. Qed.

Definition wallet_ok (q : queue) (wallet : address) : Prop := q = Releases ∨ wallet ≠ Undef.

Lemma queue_ok_enqueue q amt wallet next a :
  0 <= amt → wallet_ok q wallet → queue_ok next a →
  queue_ok (S next) (go_process (enqueue q (mkFundRequest next amt false wallet) a)).
Proof.
  intros Ha Hw [H1 [H2 H2'] H3 H4 H5 H6 H7]. set (req := mkFundRequest next amt false wallet).
  set (all := reservations a ++ releases a ++ withdrawals a) in *.
  set (a' := go_process (enqueue q req a)).
  assert (Hp : reservations a' ++ releases a' ++ withdrawals a' ≡ₚ req :: all).
  { unfold a', all. destruct q; simpl; solve_Permutation. }
  assert (Hd : completed a' = completed a) by (by unfold a'; destruct q).
  assert (Hnd : completed a !! next = None).
  { apply eq_None_not_Some. intros Hs. specialize (H7 next Hs). lia. }
  assert (Hni : next ∉ ids all).
  { intros Hin. rewrite Forall_forall in H6. specialize (H6 next Hin). lia. }
  assert (Hreq : funded_req req ∨ q = Releases).
  { destruct Hw as [-> | Hw]; [by right | left; by split]. }
  split.
  - by unfold a'; destruct q.
  - rewrite Hd. eapply open_perm; [symmetry; exact Hp|]. split; [by constructor | by constructor].
  - unfold a'. destruct q; simpl; try done. apply Forall_app. split; [done|]. destruct Hreq as [?|?]; [|done]. by constructor.
  - unfold a'. destruct q; simpl; try done. apply Forall_app. split; [done|]. by constructor.
  - unfold a'. destruct q; simpl; try done. apply Forall_app. split; [done|]. destruct Hreq as [?|?]; [|done]. by constructor.
  - unfold ids. rewrite Hp. simpl. constructor; [lia|]. eapply Forall_impl; [exact H6|]. simpl. lia.
  - rewrite Hd. intros i Hi. specialize (H7 i Hi). lia.
Qed.

Lemma expire_id id r : req_id (expire id r) = req_id r.
Proof. unfold expire. by destruct (Nat.eqb (req_id r) id). Qed.

Lemma expire_ids id l : ids (expire id <$> l) = ids l.
Proof. unfold ids. rewrite <- list_fmap_compose. apply list_fmap_ext. intros i r _. apply expire_id. Qed.

Lemma expire_funded id l : Forall funded_req l → Forall funded_req (expire id <$> l).
Proof.
  intros Hl. apply Forall_fmap. eapply Forall_impl; [exact Hl|]. intros r [? ?]. simpl. unfold expire.
  by destruct (Nat.eqb (req_id r) id).
Qed.

Lemma expire_none id (done : gmap nat reqResult) l :
  Forall (fun r => done !! req_id r = None) l → Forall (fun r => done !! req_id r = None) (expire id <$> l).
Proof. intros Hl. apply Forall_fmap. eapply Forall_impl; [exact Hl|]. intros r. simpl. by rewrite expire_id. Qed.

Lemma queue_ok_expire next id a : queue_ok next a → queue_ok next (expire_in id a).
Proof.
  intros [H1 [H2 H2'] H3 H4 H5 H6 H7].
  assert (Hids : ids (reservations (expire_in id a) ++ releases (expire_in id a) ++ withdrawals (expire_in id a)) =
                 ids (reservations a ++ releases a ++ withdrawals a)).
  { simpl. unfold ids. rewrite !fmap_app. f_equal; [apply expire_ids|]. f_equal. apply expire_ids. }
  split; try done.
  - split; [by rewrite Hids|]. simpl in *. apply Forall_app in H2' as [? [? ?]%Forall_app].
    apply Forall_app. split; [by apply expire_none|]. apply Forall_app. split; [done | by apply expire_none].
  - by apply expire_funded.
  - by apply expire_funded.
  - by rewrite Hids.
Qed.

(** * Every reachable state *)

Definition fresh (st : FundedAddressState) : Prop := AmtReserved st = 0 ∧ MsgCid st = None.

Record address_ok (next : nat) (n : outside W) (addr : address) (a : fundedAddress) : Prop := {
  ad_addr : Addr (state a) = addr;
  ad_queue : queue_ok next a;
  ad_wait : waiting_ok a;
  ad_saved : puts_ok api → fresh (state a) ∨ stored n !! addr = Some (state a);
}.

Record fm_inv (fm : FundManager) : Prop := {
  inv_addrs : ∀ addr a, fundedAddrs fm !! addr = Some a → address_ok (next_id fm) (out fm) addr a;
  inv_stored : stored_ok (out fm);
}.

Lemma address_ok_new next n addr : address_ok next n addr (newFundedAddress addr).
Proof. split; [done | apply queue_ok_new | done | by left]. Qed.

Lemma fm_inv_insert fm addr a n next :
  fm_inv fm → (next_id fm <= next)%nat → address_ok next n addr a → stored_ok n →
  (∀ addr', addr' ≠ addr → stored n !! addr' = stored (out fm) !! addr') →
  fm_inv (mkFundManager (<[addr := a]> (fundedAddrs fm)) n next).
Proof.
  intros [Ha Hs] Hle Hok Hsn Hframe. split; [|done]. simpl.
  intros addr' a' [[<- <-]|[Hne Hl]]%lookup_insert_Some; [done|].
  destruct (Ha _ _ Hl) as [H1 H2 H3 H4]. split; try done; [by eapply queue_ok_mono|].
  intros Hp. rewrite Hframe by done. auto.
Qed.

Lemma getFundedAddress_spec addr fm :
  fm_inv fm →
  fm_inv (getFundedAddress addr fm).2 ∧ address_ok (next_id fm) (out fm) addr (getFundedAddress addr fm).1 ∧
  next_id (getFundedAddress addr fm).2 = next_id fm ∧ out (getFundedAddress addr fm).2 = out fm.
Proof.
  intros Hi. unfold getFundedAddress. destruct (fundedAddrs fm !! addr) as [a|] eqn:E.
  - split_and!; try done. by apply (inv_addrs _ Hi).
  - split_and!; try done; [|apply address_ok_new]. apply fm_inv_insert; try done; [apply address_ok_new | apply Hi].
Qed.

Lemma requestAndWait_inv q wallet addr amt fm :
  0 <= amt → wallet_ok q wallet → fm_inv fm → fm_inv (requestAndWait q wallet addr amt fm).
Proof.
  intros Ha Hw Hi. unfold requestAndWait. destruct (getFundedAddress_spec addr fm Hi) as (Hi' & Hok & En & Eo).
  destruct (getFundedAddress addr fm) as [fa fm']. simpl in *. rewrite <- En, <- Eo in Hok.
  apply fm_inv_insert; try done; [lia| |apply Hi']. destruct Hok as [H1 H2 H3 H4]. split.
  - by destruct q.
  - by apply queue_ok_enqueue.
  - by destruct q.
  - by destruct q.
Qed.

Lemma address_ok_saved next addr fm a a' n :
  fm_inv fm → fundedAddrs fm !! addr = Some a → queue_ok next a' → waiting_ok a' → saved api (state a) (state a') (out fm) n →
  (next_id fm <= next)%nat → fm_inv (mkFundManager (<[addr := a']> (fundedAddrs fm)) n next).
Proof.
  intros Hi Hl Hq Hw [A F O P] Hle. destruct (inv_addrs _ Hi _ _ Hl) as [<- [Hr _ _ _ _ _ _] _ Hsv].
  destruct (O (inv_stored _ Hi) Hr) as [Ho _]. apply fm_inv_insert; try done. split; try done.
  intros Hp. destruct (P Hp) as [[-> ->]|E]; [by apply Hsv | by right].
Qed.

Lemma Start_inv items fm :
  (∀ st, QueryState st ∈ items → stored (out fm) !! Addr st = Some st) → fm_inv fm → fm_inv (Start items fm).2.
Proof.
  unfold Start. revert fm. induction items as [|[| |st] items IH]; intros fm Hit Hi; simpl; try done.
  pose proof (Hit st (list_elem_of_here _ _)) as Hst. apply IH; [by intros st' ?; apply Hit; right|].
  apply fm_inv_insert; try done; [|apply Hi]. destruct (inv_stored _ Hi _ _ Hst) as [_ Hr].
  assert (queue_ok (next_id fm) (mkFundedAddress st [] [] [] ∅ [] 0)) as Hq.
  { split; simpl; try done; [split; constructor | by intros i []]. }
  unfold start. simpl. destruct (MsgCid st) as [c|] eqn:Ec; split; simpl; try done; try by (intros; right).
  - by destruct Hq.
  - by unfold waiting_ok; simpl; rewrite Ec.
  - by unfold waiting_ok; simpl; rewrite Ec.
Qed.

Lemma fm_step_inv fm fm' : fm_step api fm fm' → fm_inv fm → fm_inv fm'.
Proof.
  intros Hs Hi. destruct Hs as [fm wallet addr amt Hw Ha | fm addr amt Ha | fm wallet addr amt Hw Ha | fm addr
    | fm addr a id Hl | fm addr a a' n Hl Hp Hr | fm addr a i c Hl Hc | fm items Hit].
  - apply requestAndWait_inv; [done | by right | done].
  - apply requestAndWait_inv; [done | by left | done].
  - apply requestAndWait_inv; [done | by right | done].
  - unfold GetReserved. pose proof (getFundedAddress_spec addr fm Hi) as (? & _).
    by destruct (getFundedAddress addr fm).
  - destruct (inv_addrs _ Hi _ _ Hl) as [H1 H2 H3 H4].
    apply (address_ok_saved _ _ _ a); try done; [by apply queue_ok_expire | by apply saved_same].
  - destruct (inv_addrs _ Hi _ _ Hl) as [H1 H2 H3 H4]. unfold run_process in Hr.
    eapply process_spec in Hr as (Q & Wt & Sv & _); [|by destruct H2|exact H3].
    by apply (address_ok_saved _ _ _ a).
  - destruct (inv_addrs _ Hi _ _ Hl) as [H1 H2 H3 H4]. unfold wait_done. simpl.
    apply (address_ok_saved _ _ _ a); try done; [by destruct H2| |by apply saved_saveState].
    unfold waiting_ok in *. simpl. rewrite H3 in Hc |- *. destruct (MsgCid (state a)); [|done]. by destruct i as [|[]].
  - apply Start_inv; [done|]. split; [done|]. apply Hi.
Qed.

Lemma fm_inv_reachable w fm : rtc (fm_step api) (newFundManager (mkOutside w [] ∅) 0) fm → fm_inv fm.
Proof.
  intros Hr. assert (H0 : fm_inv (newFundManager (mkOutside w [] ∅) 0)) by (split; [done|]; intros ? ?; done).
  induction Hr as [|x y z Hxy _ IH]; [done|]. by eapply IH, fm_step_inv.
Qed.

(** Runs of [process] one after the other. *)
Fixpoint run_all (k : nat) (a : fundedAddress) (n : outside W) : option (fundedAddress * outside W) :=
  match k with
  | O => Some (a, n)
  | S k => '(a, n) ← process api a n; run_all k a n
  end.

Lemma process_idle a n : MsgCid (state a) ≠ None ∨ queued a = 0%nat → process api a n = Some (a, n).
Proof.
  intros Hi. unfold process. destruct (MsgCid (state a)) eqn:E; [done|]. destruct Hi as [Hi|Hi]; [done|].
  unfold queued in Hi. by destruct (reservations a), (releases a), (withdrawals a).
Qed.

Lemma run_all_idle k a n : MsgCid (state a) ≠ None ∨ queued a = 0%nat → run_all k a n = Some (a, n).
Proof. intros Hi. induction k as [|k IH]; [done|]. simpl. by rewrite process_idle. Qed.

Lemma run_all_drains next k : ∀ a n, queue_ok next a → waiting_ok a → (queued a <= k)%nat →
  ∀ a' n', run_all k a n = Some (a', n') → queued a' = 0%nat ∨ MsgCid (state a') ≠ None.
Proof.
  induction k as [|k IH]; intros a n Hq Hw Hk a' n'.
  { intros [= <- <-]. left. lia. }
  destruct (decide (MsgCid (state a) ≠ None ∨ queued a = 0%nat)) as [Hi|Hi].
  { rewrite run_all_idle by done. intros [= <- <-]. tauto. }
  simpl. destruct (process api a n) as [[a1 n1]|] eqn:E; [|done]. simpl.
  destruct (process_spec api next a n a1 n1 Hq Hw E) as (Q & Wt & _ & Hlt).
  assert (queued a1 < queued a)%nat.
  { destruct (MsgCid (state a)) eqn:Em; [by destruct Hi; left|]. apply Hlt; [done|]. intros E0. apply Hi. by right. }
  apply IH; try done. lia.
Qed.

(** The node takes every withdrawal. *)
Definition never_refuses : Prop := ∀ wallet addr amt n, ∃ c, (WithdrawFunds api wallet addr amt n).1 = Ok c.

Lemma process_total next a n :
  queue_ok next a → withdrawals a = [] ∨ never_refuses →
  ∃ a' n', process api a n = Some (a', n') ∧ (withdrawals a = [] → withdrawals a' = []).
Proof.
  intros Hq Hw. unfold process. destruct (MsgCid (state a)) as [c|] eqn:Em; [by eexists _, _|].
  set (hr := negb (is_nil (reservations a)) || negb (is_nil (releases a))).
  destruct (negb hr && _); [by eexists _, _|].
  assert (∃ a1 n1, (if hr then process_reservations api a n else Some (a, n)) = Some (a1, n1) ∧ queue_ok next a1 ∧
    withdrawals a1 = withdrawals a) as (a1 & n1 & -> & Q1 & E1).
  { destruct hr; [|by exists a, n]. destruct (process_reservations_spec api next a n Hq Em) as (a1 & n1 & ? & ? & _ & _ & _ & ? & _).
    by exists a1, n1. }
  cbn [mbind option_bind]. rewrite <- E1 in Hw |- *. clear Hq E1 Em.
  destruct (withdrawals a1) as [|r wds] eqn:Ew; simpl.
  { eexists _, _. split; [reflexivity|]. intros _. by destruct (MsgCid (state a1)). }
  destruct Hw as [Hw|Hw]; [done|].
  destruct (bool_decide (MsgCid (state a1) = None) && is_nil (reservations a1)); [|by eexists _, _].
  unfold process_withdrawals. destruct Q1 as [_ Ho _ _ H3 _ _]. rewrite (assoc_L (++)) in Ho. apply open_app in Ho as [_ Ho].
  pose proof (processWithdrawals_spec api (state a1) (withdrawals a1) (completed a1) n1 H3 Ho) as Hp.
  destruct (processWithdrawals api (state a1) (withdrawals a1) (completed a1) n1) as [[[x d] n2]|]; simpl.
  - destruct x as [c|e]; [case_bool_decide|]; by eexists _, _.
  - inversion Hp as [| | | | avail n2 b first rest e n3 _ _ _ E _]. destruct (Hw (Wallet first) (Addr (state a1)) (allowedAmt b) n2) as [c Hc].
    by rewrite E in Hc.
Qed.

Lemma run_all_total next k : ∀ a n, queue_ok next a → waiting_ok a → withdrawals a = [] ∨ never_refuses →
  ∃ a' n', run_all k a n = Some (a', n').
Proof.
  induction k as [|k IH]; intros a n Hq Hw Ht; [by eexists _, _|]. simpl.
  destruct (process_total next a n Hq Ht) as (a1 & n1 & E & Hk). rewrite E. simpl.
  destruct (process_spec api next a n a1 n1 Hq Hw E) as (Q & Wt & _). apply IH; [done|done|]. destruct Ht; auto.
Qed.

(** * The claims *)

(** C12: reservations are accounted for to the last unit.  Processing the queues of
    reservations and releases of an address never panics.  Unless the node fails, the
    reserved amount changes by the reservations that are answered less the releases,
    and stops at zero; the reservation at the head of the queue is answered, and those
    left queued are neither answered nor counted.  A message goes to the chain only when the available funds do not
    cover the new amount: it is one message, from the wallet of the reservations it
    answers, of exactly the difference; without a message the available funds or the
    releases cover the answered reservations.  If the node fails, nothing is sent and
    every request gets the error. *)
Theorem reservations_accounted st resv rel done n :
  Forall funded_req resv → Forall req_ok rel → 0 <= AmtReserved st → open done (resv ++ rel) →
  ∃ pr err done' n', processReservations api st resv rel done n = Some ((pr, err), done', n') ∧
    match err with
    | Some e => pushed n' = pushed n ∧ told done' (resv ++ rel) cidUndef (Some e)
    | None =>
        ∃ left, accounted api st resv rel left n n' pr ∧ told done' (rel ++ covered pr) cidUndef None ∧
          (∀ c, pr_msgCid pr = Some c → told done' (added pr) c None) ∧ Forall (fun r => done' !! req_id r = None) left
    end.
Proof.
  intros H1 H2 H3 Ho. destruct (processReservations_spec api st resv rel done n H1 H2 H3 Ho) as (pr & err & done' & n' & E & _ & Hr).
  exists pr, err, done', n'. split; [done|]. destruct err as [e|]; [naive_solver|].
  destruct Hr as (left & Ha & Hc & Ht & Ht'). exists left. split_and!; try done.
  apply (open_after done done' (rel ++ covered pr ++ added pr)); [|done].
  eapply open_perm; [|exact Ho]. rewrite (ac_perm _ _ _ _ _ _ _ _ Ha). solve_Permutation.
Qed.

(** C10: a withdrawal never touches reserved funds.  When a run of the withdrawals
    ends, either no message was sent, or one: it withdraws the positive sum of a batch
    of the requests, all of one wallet, which the available funds less the reserved
    amount cover, and the batch is told its CID.  A request that is answered and is not
    in the batch had no amount any more, or does not fit beside the batch. *)
Theorem withdrawals_spare_reserved st wds done n r done' n' :
  Forall funded_req wds → open done wds → processWithdrawals api st wds done n = Some (r, done', n') →
  pushed n' = pushed n ∨
  ∃ avail wallet group params c,
    r = Ok c ∧ (AvailableFunds api (Addr st) n).1 = Ok avail ∧ group ⊆+ wds ∧ Forall (fun q => Wallet q = wallet) group ∧
    0 < sumZ Amount group <= avail - AmtReserved st ∧
    SerializeWithdrawal api (Addr st) (sumZ Amount group) = Some params ∧
    pushed n' = pushed n ++ [market_message api wallet 0 (MethodWithdrawBalance api) params] ∧
    told done' group c None ∧
    Forall (fun q => is_Some (done' !! req_id q) → q ∈ group ∨ Amount q = 0 ∨ avail - AmtReserved st < sumZ Amount group + Amount q) wds.
Proof.
  intros Hok Ho E. pose proof (processWithdrawals_spec api st wds done n Hok Ho) as Hw. rewrite E in Hw.
  inversion Hw as [| | avail b dropped skipped ? ? c params Hav Hi Hne Hser Hps _ Hc Ht | |]; subst; try by left.
  right. destruct Hi as [Hp Hwa Ha Hf Hal _ _ _ Hdr].
  exists avail, (wd_wallet b), (allowed b), params, c. rewrite <- Ha. split_and!; try done.
  - rewrite Hp. by apply submseteq_inserts_r.
  - eapply Forall_impl; [exact Hal|]. naive_solver.
  - destruct (allowed b) as [|q l]; [done|]. apply Forall_cons in Hal as [[_ Hq] Hl]. rewrite Ha, sumZ_cons.
    assert (0 <= sumZ Amount l) by (apply sumZ_nonneg; eapply Forall_impl; [exact Hl|]; naive_solver lia). lia.
  - specialize (Hf Hne). lia.
  - apply Forall_forall. intros q Hq Hs. rewrite Hp, !elem_of_app in Hq. destruct Hq as [Hq|[Hq|Hq]]; [by left| |].
    + right. rewrite Forall_forall in Hdr. specialize (Hdr q Hq). lia.
    + exfalso. assert (Hnone : open done' skipped).
      { apply (open_after done done' (dropped ++ allowed b)); [|done]. eapply open_perm; [|exact Ho]. rewrite Hp. solve_Permutation. }
      destruct Hnone as [_ Hnone]. rewrite Forall_forall in Hnone. specialize (Hnone q Hq). destruct Hs. congruence.
Qed.

(** C11: over any sequence of requests, expiring contexts, runs of the queues, ends of
    waits and restarts, with a node and a datastore that may fail: no reserved amount is
    negative, an address waits for at most one message, exactly the one in its state,
    every queued request is open, and, when the datastore can be written, it holds the
    state of every address that has a reserved amount or a message to wait for. *)
Theorem fund_manager_consistent w fm addr a :
  rtc (fm_step api) (newFundManager (mkOutside w [] ∅) 0) fm → fundedAddrs fm !! addr = Some a →
  Addr (state a) = addr ∧ 0 <= AmtReserved (state a) ∧
  waits a = match MsgCid (state a) with Some c => [c] | None => [] end ∧
  open (completed a) (reservations a ++ releases a ++ withdrawals a) ∧
  (puts_ok api → fresh (state a) ∨ stored (out fm) !! addr = Some (state a)).
Proof.
  intros Hr Hl. apply fm_inv_reachable in Hr. destruct (inv_addrs _ Hr _ _ Hl) as [H1 [H2 H3 _ _ _ _ _] H4 H5]. done.
Qed.

(** C37: the queues empty.  In every reachable state, as many runs of [process] as an
    address has requests leave no request, or a message to wait for.  The runs return
    when no withdrawal is queued or the node takes every withdrawal. *)
Theorem queues_drain w fm addr a k :
  rtc (fm_step api) (newFundManager (mkOutside w [] ∅) 0) fm → fundedAddrs fm !! addr = Some a → (queued a <= k)%nat →
  (withdrawals a = [] ∨ never_refuses → ∃ a' n', run_all k a (out fm) = Some (a', n')) ∧
  (∀ a' n', run_all k a (out fm) = Some (a', n') → queued a' = 0%nat ∨ MsgCid (state a') ≠ None).
Proof.
  intros Hr Hl Hk. apply fm_inv_reachable in Hr. destruct (inv_addrs _ Hr _ _ Hl) as [_ Hq Hw _].
  split; [by eapply run_all_total | by eapply run_all_drains].
Qed.

(** the one way in which withdrawals panic.  When the node refuses the message of a
    batch, every request of the queue is completed with the error, also those that the
    loop completed before, because their context had ended or they did not fit: their
    channel is closed a second time. *)
Theorem withdrawals_panic_iff st wds done n :
  Forall funded_req wds → open done wds →
  processWithdrawals api st wds done n = None ↔
  ∃ avail n1 b first rest e n2,
    AvailableFunds api (Addr st) n = (Ok avail, n1) ∧
    withdraw_loop (avail - AmtReserved st) wds (mkBatch 0 0 [] Undef done) = Some b ∧ allowed b = first :: rest ∧
    WithdrawFunds api (Wallet first) (Addr st) (allowedAmt b) n1 = (Err e, n2) ∧
    Exists (fun r => is_Some (wd_done b !! req_id r)) wds.
Proof.
  intros Hok Ho. split.
  - intros E. pose proof (processWithdrawals_spec api st wds done n Hok Ho) as Hw. rewrite E in Hw.
    inversion Hw. by eexists _, _, _, _, _, _, _.
  - intros (avail & n1 & b & first & rest & e & n2 & E1 & E2 & E3 & E4 & Hx).
    destruct (withdraw_batch (avail - AmtReserved st) done wds Hok Ho) as (b' & ? & ? & E2' & _ & _ & H0).
    rewrite E2 in E2'. injection E2' as <-. unfold processWithdrawals. rewrite E1, E2. simpl.
    destruct (Z.eqb_spec (allowedAmt b) 0) as [Ez|]; [apply H0 in Ez; congruence|]. rewrite E3, E4. by rewrite complete_all_panics.
Qed.
End Reachable.

(** An error of the query ends [Start] without an error: the addresses that follow are
    not loaded, and start again with nothing reserved. *)
Lemma Start_ignores_query_error {W} (items : list query_item) (fm : FundManager (W := W)) :
  Start (QueryError :: items) fm = (true, fm) ∧
  ∀ addr, fundedAddrs fm !! addr = None → (GetReserved addr (Start (QueryError :: items) fm).2).1 = 0.
Proof. split; [done|]. intros addr E. unfold GetReserved, getFundedAddress. simpl. by rewrite E. Qed.

(** * A node *)

Module FundExample.

(** 80 are available to every address. *)
Definition node (accept : bool) : fundManagerAPI unit := {|
  MpoolPushMessage msg w := (if accept then Some (mkSignedMessage msg Prices.SigTypeBLS "sig") else None, w);
  StateMarketBalance addr w := (Some (mkMarketBalance 100 20), w);
  ds_Put st w := (true, w);
  SerializeAddr addr := Some "addr";
  SerializeWithdrawal addr amt := Some "withdrawal";
  signed_Cid sm := "cid";
  StorageMarketActorAddr := IDAddr 5;
  MethodAddBalance := 2;
  MethodWithdrawBalance := 3;
|}.

Definition w1 : address := IDAddr 101.
Definition w2 : address := IDAddr 102.
Definition provider : address := IDAddr 1000.
Definition nothing : outside unit := mkOutside tt [] ∅.
Definition reserved40 : FundedAddressState := mkFundedAddressState provider 40 None.
Definition resv : list fundRequest := [mkFundRequest 0 60 false w1; mkFundRequest 1 30 false w2].
Definition rel : list fundRequest := [mkFundRequest 2 10 false Undef].
Definition wds : list fundRequest := [mkFundRequest 3 25 false w1; mkFundRequest 4 50 false w1].

Lemma requests_ok : Forall funded_req resv ∧ Forall req_ok rel ∧ Forall funded_req wds ∧ open ∅ (resv ++ rel) ∧ open ∅ wds.
Proof.
  unfold resv, rel, wds, funded_req, req_ok, open, ids.
  split_and!; repeat first [apply Forall_cons | apply Forall_nil | split]; simpl; try done; try lia;
    apply (bool_decide_unpack _); vm_compute; done.
Qed.

(** One reservation after another and a run of the queue. *)
Definition fm0 : FundManager := newFundManager nothing 0.
Definition fm1 : FundManager := Reserve w1 provider 60 fm0.
Definition fa1 : fundedAddress := (getFundedAddress provider fm1).1.

Lemma fm1_reachable : rtc (fm_step (node true)) (newFundManager (mkOutside tt [] ∅) 0) fm1.
Proof. apply rtc_once, step_Reserve; [done | lia]. Qed.
End FundExample.
Import FundExample.

Lemma reservations_accounted_witness :
  ∃ pr done' n', processReservations (node true) reserved40 resv rel ∅ nothing = Some ((pr, None), done', n') ∧
    amtReserved pr = 90 ∧ pushed n' = [market_message (node true) w1 10 2 "addr"].
Proof.
  destruct requests_ok as (H1 & H2 & _ & H3 & _).
  destruct (reservations_accounted (node true) reserved40 resv rel ∅ nothing H1 H2 ltac:(simpl; lia) H3)
    as (pr & err & done' & n' & E & _).
  revert E. vm_compute. intros [= <- <- <- <-]. by eexists _, _, _.
Defined.

Lemma withdrawals_spare_reserved_witness :
  ∃ r done' n', processWithdrawals (node true) reserved40 wds ∅ nothing = Some (r, done', n') ∧
    pushed n' = [market_message (node true) w1 0 3 "withdrawal"] ∧ (pushed n' = [] ∨ 25 <= 80 - 40).
Proof.
  eexists _, _, _. split; [vm_compute; reflexivity|]. split; [reflexivity|].
  destruct requests_ok as (_ & _ & H1 & _ & H2).
  destruct (withdrawals_spare_reserved (node true) reserved40 wds ∅ nothing _ _ _ H1 H2 eq_refl) as [E|_]; [by left | right; lia].
Defined.

Lemma fund_manager_consistent_witness :
  0 <= AmtReserved (state fa1) ∧ waits fa1 = [].
Proof.
  destruct (fund_manager_consistent (node true) tt fm1 provider fa1 fm1_reachable eq_refl) as (_ & H1 & H2 & _). done.
Defined.

Lemma queues_drain_witness :
  ∃ a' n', run_all (node true) 1 fa1 (out fm1) = Some (a', n') ∧ (queued a' = 0%nat ∨ MsgCid (state a') ≠ None).
Proof.
  destruct (queues_drain (node true) tt fm1 provider fa1 1 fm1_reachable eq_refl) as [H1 H2]; [vm_compute; lia|].
  destruct (H1 (or_introl eq_refl)) as (a' & n' & E). exists a', n'. split; [done|]. by eapply H2.
Defined.

(** The node refuses the message of the first request; the second did not fit. *)
Lemma withdrawals_panic_iff_witness : processWithdrawals (node false) reserved40 wds ∅ nothing = None.
Proof.
  destruct requests_ok as (_ & _ & H1 & _ & H2).
  apply (withdrawals_panic_iff (node false) reserved40 wds ∅ nothing H1 H2).
  eexists _, _, _, _, _, _, _. split; [reflexivity|]. split; [vm_compute; reflexivity|]. split; [reflexivity|].
  split; [reflexivity|]. apply Exists_cons_tl, Exists_cons_hd. vm_compute. by eexists.
Defined.
