(* ===== verification/SyncManager.v ===== *)
(** The scheduler of chain synchronisation (src/chain/sync_manager.go): the heads
    that peers report become targets, which wait in buckets of related tipsets until a
    worker syncs them.

    A worker is its identifier and its target; the goroutine that runs it reports with
    an event.  The order in which Go ranges over its maps is a class; the [k]th loop
    over one map may see another order than the others.  A pointer to a bucket is its
    position: a bucket is in one set, once.  [nextWorker] counts workers and does not
    come to its end. *)

From S2P Require Import Prelude Types Tipset ChainIndex.

(** [ts.blks[0].ParentWeight]; a tipset has at least one block. *)
Definition ts_ParentWeight (ts : TipSet) : Z :=
  match Blocks ts with b :: _ => ParentWeight b | [] => 0 end.

Definition Equals (a b : TipSet) : bool := TipSet_Equals (Some a) (Some b).

Definition isHeavier (a b : TipSet) : bool := ts_ParentWeight a >? ts_ParentWeight b.

Class SyncRuntime := {
  range_state : nat → gmap nat TipSet → list TipSet;
  (** the heads, sorted by height *)
  sorted_heads : gmap string TipSet → list TipSet;
}.

Class SyncRuntimeLaws `{SyncRuntime} := {
  range_state_perm k m : range_state k m ≡ₚ (map_to_list m).*2;
  sorted_heads_perm m : sorted_heads m ≡ₚ (map_to_list m).*2;
  sorted_heads_sorted m : StronglySorted (fun a b => ts_height a <= ts_height b) (sorted_heads m);
}.

(** * Recently synced tipsets *)

Record syncBuffer := mkSyncBuffer { buf : list (option TipSet); next : nat }.

Definition newSyncBuffer (size : nat) : syncBuffer := mkSyncBuffer (replicate size None) 0.

Definition Push (ts : TipSet) (sb : syncBuffer) : syncBuffer :=
  mkSyncBuffer (<[next sb := Some ts]> (buf sb)) (S (next sb) mod length (buf sb)).

Definition Synced (ts : TipSet) (sb : syncBuffer) : bool :=
  existsb (fun o => match o with
                    | Some rts => Equals rts ts || isHeavier rts ts
                    | None => false
                    end) (buf sb).

(** * Buckets *)

Abbreviation bucket := (list TipSet) (only parsing).
Abbreviation syncBucketSet := (list (list TipSet)) (only parsing).

Definition sameChainAs (ts : TipSet) (tips : bucket) : bool :=
  existsb (fun t => Equals ts t || bool_decide (ts_Key ts = ts_Parents t) || bool_decide (ts_Parents ts = ts_Key t)) tips.

Section Buckets.
Context (header_cid : BlockHeader → cid) (blake2b : bytes → bytes) (coalesceTipsets : bool).

(** The blocks of [blks] by miners that are not in [miners] yet. *)
Fixpoint new_miners (miners : gset address) (blks : list BlockHeader) : list BlockHeader :=
  match blks with
  | [] => []
  | b :: blks => if bool_decide (Miner b ∈ miners) then new_miners miners blks else b :: new_miners ({[Miner b]} ∪ miners) blks
  end.

Definition first_parents (ts : TipSet) : list cid := match Blocks ts with b :: _ => Parents b | [] => [] end.

(** The loop of [add] over [tips]; [None] when it comes to its end. *)
Fixpoint add_loop (ts : TipSet) (tips : bucket) : option bucket :=
  match tips with
  | [] => None
  | t :: tips =>
      if Equals t ts then Some (t :: tips)
      else if coalesceTipsets && (ts_height t =? ts_height ts) && CidArrsEqual (first_parents t) (first_parents ts) then
        match NewTipSet header_cid blake2b (new_miners ∅ (Blocks t ++ Blocks ts)) with
        | Ok ts2 => Some (ts2 :: tips)
        | Err _ => cons t <$> add_loop ts tips
        end
      else cons t <$> add_loop ts tips
  end.

Definition add (ts : TipSet) (tips : bucket) : bucket := default (tips ++ [ts]) (add_loop ts tips).

Definition newSyncTargetBucket (tipsets : list TipSet) : bucket := foldl (fun b ts => add ts b) [] tipsets.

Definition heavier_of (best : option TipSet) (ts : TipSet) : option TipSet :=
  match best with
  | None => Some ts
  | Some b => if ts_ParentWeight ts >? ts_ParentWeight b then Some ts else best
  end.

Definition heaviestTipSet (tips : bucket) : option TipSet := foldl heavier_of None tips.

Definition RelatedToAny (ts : TipSet) (sbs : syncBucketSet) : bool := existsb (sameChainAs ts) sbs.

Fixpoint Insert (ts : TipSet) (sbs : syncBucketSet) : syncBucketSet :=
  match sbs with
  | [] => [newSyncTargetBucket [ts]]
  | b :: sbs => if sameChainAs ts b then add ts b :: sbs else b :: Insert ts sbs
  end.

(** The position of the best bucket and its tipset; a bucket is never empty. *)
Fixpoint pop_loop (i : nat) (sbs : syncBucketSet) (best : option (nat * TipSet)) : option (nat * TipSet) :=
  match sbs with
  | [] => best
  | b :: sbs =>
      let best' :=
        match heaviestTipSet b, best with
        | Some hts, None => Some (i, hts)
        | Some hts, Some (_, bestTs) => if ts_ParentWeight bestTs <? ts_ParentWeight hts then Some (i, hts) else best
        | None, _ => best
        end in
      pop_loop (S i) sbs best'
  end.

(** [None] on an empty set: a panic. *)
Definition Pop (sbs : syncBucketSet) : option (bucket * syncBucketSet) :=
  '(i, _) ← pop_loop 0 sbs None;
  b ← sbs !! i;
  Some (b, delete i sbs).

Definition PopRelated (ts : TipSet) (sbs : syncBucketSet) : option bucket * syncBucketSet :=
  let related := filter (fun b => sameChainAs ts b = true) sbs in
  (match related with [] => None | _ => Some (concat related) end, filter (fun b => sameChainAs ts b = false) sbs).

Definition Heaviest (sbs : syncBucketSet) : option TipSet :=
  foldl (fun best b => match heaviestTipSet b with Some hts => heavier_of best hts | None => best end) None sbs.

Definition Empty (sbs : syncBucketSet) : bool := match sbs with [] => true | _ => false end.

(** * The manager *)

Definition MaxSyncWorkers : nat := 5.
Definition RecentSyncBufferSize : nat := 10.
Definition SyncWorkerHistory : nat := 3.

Record syncManager := mkSyncManager {
  nextWorker : nat;
  pend : syncBucketSet;
  deferred : syncBucketSet;
  heads : gmap string TipSet;
  recent : syncBuffer;
  initialSyncDone : bool;
  state : gmap nat TipSet;
  history : list (option TipSet);
  historyI : nat;
  ticking : bool;
}.

Definition NewSyncManager : syncManager :=
  mkSyncManager 0 [] [] ∅ (newSyncBuffer RecentSyncBufferSize) false ∅ (replicate SyncWorkerHistory None) 0 true.

Definition set_queues (sm : syncManager) (pend deferred : syncBucketSet) : syncManager :=
  mkSyncManager (nextWorker sm) pend deferred (heads sm) (recent sm) (initialSyncDone sm) (state sm) (history sm) (historyI sm) (ticking sm).

Definition spawnWorker (target : TipSet) (sm : syncManager) : syncManager :=
  mkSyncManager (S (nextWorker sm)) (pend sm) (deferred sm) (heads sm) (recent sm) (initialSyncDone sm)
    (<[nextWorker sm := target]> (state sm)) (history sm) (historyI sm) (ticking sm).

(** Spawn a worker if there is work. *)
Definition spawn_if (r : option TipSet * syncManager) : syncManager :=
  match r with
  | (Some target, sm) => spawnWorker target sm
  | (None, sm) => sm
  end.

Context `{SyncRuntime}.

Definition selectInitialSyncTarget (heads : gmap string TipSet) : option TipSet :=
  Heaviest (foldl (fun sbs ts => Insert ts sbs) [] (sorted_heads heads)).

Inductive relation_to_active := AlreadySyncing | ExtendsActive | NotActive.

Fixpoint active_loop (ts : TipSet) (workers : list TipSet) : relation_to_active :=
  match workers with
  | [] => NotActive
  | ws :: workers =>
      if Equals ts ws then AlreadySyncing
      else if bool_decide (ts_Parents ts = ts_Key ws) then ExtendsActive
      else active_loop ts workers
  end.

(** The target to work on, if there is one. *)
Definition addSyncTarget (ts : TipSet) (sm : syncManager) : option TipSet * syncManager :=
  if Synced ts (recent sm) then (None, sm)
  else if Nat.eqb (size (state sm)) 0 then (Some ts, sm)
  else
    match active_loop ts (range_state 0 (state sm)) with
    | AlreadySyncing => (None, sm)
    | ExtendsActive => (None, set_queues sm (Insert ts (pend sm)) (deferred sm))
    | NotActive =>
        if RelatedToAny ts (pend sm) then (None, set_queues sm (Insert ts (pend sm)) (deferred sm))
        else if existsb (fun ws => isHeavier ws ts) (range_state 1 (state sm)) then (None, sm)
        else if match Heaviest (pend sm) with Some h => isHeavier h ts | None => false end then (None, sm)
        else if negb (initialSyncDone sm) || Nat.leb MaxSyncWorkers (size (state sm)) then
          (None, set_queues sm (pend sm) (Insert ts (deferred sm)))
        else (Some ts, sm)
    end.

(** One round per bucket of [deferred].  Every branch of the loop over the workers
    leaves it, so the first worker decides; without workers the bucket is dropped. *)
Fixpoint deferred_loop (fuel : nat) (sm : syncManager) : option TipSet * syncManager :=
  match fuel with
  | O => (None, sm)
  | S fuel =>
      match Pop (deferred sm) with
      | None => (None, sm)
      | Some (b, rest) =>
          let sm' := set_queues sm (pend sm) rest in
          match heaviestTipSet b with
          | None => (None, sm')
          | Some heaviest =>
              if Synced heaviest (recent sm) then deferred_loop fuel sm'
              else if RelatedToAny heaviest (pend sm) then deferred_loop fuel (set_queues sm' (Insert heaviest (pend sm)) rest)
              else
                match range_state (S fuel) (state sm) with
                | [] => deferred_loop fuel sm'
                | ws :: _ =>
                    if Equals ws heaviest || isHeavier ws heaviest then deferred_loop fuel sm'
                    else if bool_decide (ts_Parents heaviest = ts_Key ws)
                    then deferred_loop fuel (set_queues sm' (Insert heaviest (pend sm)) rest)
                    else (Some heaviest, sm')
                end
          end
      end
  end.

Definition selectDeferredSyncTarget (sm : syncManager) : option TipSet * syncManager :=
  deferred_loop (length (deferred sm)) sm.

Definition selectSyncTarget (done : TipSet) (sm : syncManager) : option TipSet * syncManager :=
  let '(related, pend) := PopRelated done (pend sm) in
  let sm := set_queues sm pend (deferred sm) in
  match related with
  | None => selectDeferredSyncTarget sm
  | Some related =>
      match heaviestTipSet related with
      | None => selectDeferredSyncTarget sm
      | Some heaviest =>
          if isHeavier done heaviest then selectDeferredSyncTarget sm
          else if existsb (fun ws => isHeavier ws heaviest) (range_state 0 (state sm)) then selectDeferredSyncTarget sm
          else if Synced heaviest (recent sm) then selectDeferredSyncTarget sm
          else (Some heaviest, sm)
      end
  end.

(** * Events *)

Definition handlePeerHead (BootstrapPeerThreshold : nat) (p : string) (ts : TipSet) (sm : syncManager) : syncManager :=
  if Nat.eqb (nextWorker sm) 0 then
    let hs := <[p := ts]> (heads sm) in
    let set_heads hs := mkSyncManager (nextWorker sm) (pend sm) (deferred sm) hs (recent sm) (initialSyncDone sm) (state sm)
                          (history sm) (historyI sm) (ticking sm) in
    if Nat.ltb (size hs) BootstrapPeerThreshold then set_heads hs
    else spawn_if (selectInitialSyncTarget hs, set_heads ∅)
  else spawn_if (addSyncTarget ts sm).

(** [fast]: the worker took less than [InitialSyncTimeThreshold].  [None] is a panic. *)
Definition handleWorkerStatus (id : nat) (err fast : bool) (sm : syncManager) : option syncManager :=
  ws ← state sm !! id;
  let sm := mkSyncManager (nextWorker sm) (pend sm) (deferred sm) (heads sm)
              (if err then recent sm else Push ws (recent sm))
              (if err then initialSyncDone sm else initialSyncDone sm || fast)
              (delete id (state sm)) (<[historyI sm := Some ws]> (history sm))
              (S (historyI sm) mod length (history sm)) (ticking sm) in
  Some (spawn_if (selectSyncTarget ws sm)).

Fixpoint ramp_up (fuel : nat) (sm : syncManager) : syncManager :=
  match fuel with
  | O => sm
  | S fuel =>
      if Nat.ltb (size (state sm)) MaxSyncWorkers then
        match selectDeferredSyncTarget sm with
        | (None, sm) => sm
        | (Some target, sm) => ramp_up fuel (spawnWorker target sm)
        end
      else sm
  end.

Definition handleInitialSyncDone (sm : syncManager) : syncManager := ramp_up MaxSyncWorkers sm.

(** The ticker of [scheduler]. *)
Definition tick (sm : syncManager) : syncManager :=
  if initialSyncDone sm then
    handleInitialSyncDone
      (mkSyncManager (nextWorker sm) (pend sm) (deferred sm) (heads sm) (recent sm) (initialSyncDone sm) (state sm)
         (history sm) (historyI sm) false)
  else sm.
End Buckets.

Section Scheduler.
Context (header_cid : BlockHeader → cid) (blake2b : bytes → bytes) (coalesceTipsets : bool) (threshold : nat).

(** An iteration of [scheduler]. *)
Inductive sm_step : syncManager → syncManager → Prop :=
  | step_head (rt : SyncRuntime) (laws : SyncRuntimeLaws) p ts sm :
      sm_step sm (handlePeerHead header_cid blake2b coalesceTipsets threshold p ts sm)
  | step_status (rt : SyncRuntime) (laws : SyncRuntimeLaws) id err fast sm sm' :
      handleWorkerStatus header_cid blake2b coalesceTipsets id err fast sm = Some sm' → sm_step sm sm'
  | step_tick (rt : SyncRuntime) (laws : SyncRuntimeLaws) sm :
      ticking sm = true → sm_step sm (tick header_cid blake2b coalesceTipsets sm).
End Scheduler.
