(* ===== verification/SyncProps.v ===== *)
(** The theory of the sync scheduler: how many workers run, what they are started
    on, and what becomes of the targets that were deferred. *)

From stdpp Require Import sorting.
From S2P Require Import Prelude Types Tipset ChainIndex SyncManager.

(** * Heaviest tipsets *)

(** [best] is in [l] and none of [l] is heavier. *)
Definition is_heaviest (l : list TipSet) (best : TipSet) : Prop :=
  best ∈ l ∧ ∀ t, t ∈ l → ts_ParentWeight t <= ts_ParentWeight best.

Definition heaviest_of (l : list TipSet) (o : option TipSet) : Prop :=
  match o with Some h => is_heaviest l h | None => l = [] end.

Lemma heavier_of_spec l best ts : heaviest_of l best → heaviest_of (l ++ [ts]) (heavier_of best ts).
Proof.
  destruct best as [b|]; simpl.
  - intros [Hb Hmax]. rewrite Z.gtb_ltb. destruct (Z.ltb_spec (ts_ParentWeight b) (ts_ParentWeight ts)); simpl.
    + split; [set_solver|]. intros t [Ht| ->%list_elem_of_singleton]%elem_of_app; [specialize (Hmax t Ht)|]; lia.
    + split; [set_solver|]. intros t [Ht| ->%list_elem_of_singleton]%elem_of_app; [by apply Hmax | lia].
  - intros ->. split; [set_solver|]. intros t ->%list_elem_of_singleton. lia.
Qed.

Lemma heavier_fold l : ∀ l0 best, heaviest_of l0 best → heaviest_of (l0 ++ l) (foldl heavier_of best l).
Proof.
  induction l as [|ts l IH]; intros l0 best Hb; simpl; [by rewrite app_nil_r|].
  rewrite (cons_middle ts), (assoc_L (++)). by apply IH, heavier_of_spec.
Qed.

Lemma heaviestTipSet_spec b : heaviest_of b (heaviestTipSet b).
Proof. apply (heavier_fold b [] None). done. Qed.

Lemma heaviest_app l l' o o' :
  heaviest_of l o → heaviest_of l' (Some o') → heaviest_of (l ++ l') (heavier_of o o').
Proof.
  intros Ho [Hin Hmax]. pose proof (heavier_of_spec l o o' Ho) as Hh.
  destruct (heavier_of o o') as [h|]; [|by destruct l]. destruct Hh as [Hh Hhm]. split; [set_solver|].
  intros t [Ht|Ht]%elem_of_app; [apply Hhm; set_solver|]. specialize (Hmax t Ht). specialize (Hhm o' ltac:(set_solver)). lia.
Qed.

(** * Buckets *)

Definition buckets_ok (sbs : list (list TipSet)) : Prop := Forall (fun b => b ≠ []) sbs.

Lemma heaviest_some b : b ≠ [] → ∃ h, heaviestTipSet b = Some h ∧ is_heaviest b h.
Proof.
  intros Hb. pose proof (heaviestTipSet_spec b) as Hh. destruct (heaviestTipSet b) as [h|]; [by exists h | by destruct Hb].
Qed.

Lemma Heaviest_spec sbs : buckets_ok sbs → heaviest_of (concat sbs) (Heaviest sbs).
Proof.
  intros Hok. unfold Heaviest. enough (∀ l0 best, heaviest_of l0 best → heaviest_of (l0 ++ concat sbs)
    (foldl (fun best b => match heaviestTipSet b with Some hts => heavier_of best hts | None => best end) best sbs)) as Hg
    by (by apply (Hg [] None)).
  induction Hok as [|b sbs Hb Hok IH]; intros l0 best Hl; simpl; [by rewrite app_nil_r|].
  destruct (heaviest_some b Hb) as (h & -> & Hh). rewrite (assoc_L (++)). by apply IH, heaviest_app.
Qed.

(** The best of the buckets before position [i], which are [pre]. *)
Definition best_bucket (all pre : list (list TipSet)) (best : option (nat * TipSet)) : Prop :=
  match best with
  | None => pre = []
  | Some (i, h) => ∃ b, all !! i = Some b ∧ heaviestTipSet b = Some h ∧ (∀ t, t ∈ concat pre → ts_ParentWeight t <= ts_ParentWeight h)
  end.

Lemma pop_loop_spec sbs : ∀ pre best,
  buckets_ok sbs → best_bucket (pre ++ sbs) pre best → best_bucket (pre ++ sbs) (pre ++ sbs) (pop_loop (length pre) sbs best).
Proof.
  induction sbs as [|b sbs IH]; intros pre best Hok Hb; simpl; [by rewrite app_nil_r in *|].
  apply Forall_cons in Hok as [Hne Hok]. destruct (heaviest_some b Hne) as (h & Eh & Hin & Hmax). rewrite Eh.
  rewrite (cons_middle b), (assoc_L (++)) in *. replace (S (length pre)) with (length (pre ++ [b])) by (rewrite length_app; simpl; lia).
  apply IH; [done|]. assert (Hlk : ((pre ++ [b]) ++ sbs) !! length pre = Some b).
  { rewrite <- (assoc_L (++)). by apply list_lookup_middle. }
  assert (Hcat : ∀ t, t ∈ concat (pre ++ [b]) → t ∈ concat pre ∨ t ∈ b).
  { intros t. rewrite concat_app, elem_of_app. simpl. rewrite app_nil_r. done. }
  destruct best as [[i best]|]; simpl in Hb |- *.
  - destruct Hb as (b0 & Hi & E0 & H0). destruct (Z.ltb_spec (ts_ParentWeight best) (ts_ParentWeight h)).
    + exists b. split_and!; [done..|]. intros t [Ht|Ht]%Hcat; [specialize (H0 t Ht); lia | by apply Hmax].
    + exists b0. split_and!; [done..|]. intros t [Ht|Ht]%Hcat; [by apply H0 | specialize (Hmax t Ht); lia].
  - subst pre. exists b. split_and!; [done..|]. intros t [Ht|Ht]%Hcat; [by apply not_elem_of_nil in Ht | by apply Hmax].
Qed.

(** [Pop] takes a bucket with a heaviest tipset out of the set. *)
Lemma Pop_spec sbs : buckets_ok sbs → sbs ≠ [] →
  ∃ b rest h, Pop sbs = Some (b, rest) ∧ sbs ≡ₚ b :: rest ∧ heaviestTipSet b = Some h ∧ is_heaviest (concat sbs) h.
Proof.
  intros Hok Hne. pose proof (pop_loop_spec sbs [] None Hok eq_refl) as Hb. simpl in Hb. unfold Pop.
  destruct (pop_loop 0 sbs None) as [[i h]|]; [|done]. destruct Hb as (b & Hi & Eh & Hmax). simpl. rewrite Hi. simpl.
  exists b, (delete i sbs), h. split_and!; try done; [by apply delete_Permutation|].
  split; [|done]. pose proof (heaviestTipSet_spec b) as Hb. rewrite Eh in Hb. destruct Hb as [Hin _].
  apply list_elem_of_In, in_concat. exists b. split; apply list_elem_of_In; [|done]. by eapply list_elem_of_lookup_2.
Qed.

Section Theory.
Context (header_cid : BlockHeader → cid) (blake2b : bytes → bytes) (coalesce : bool).

Notation Insert := (Insert header_cid blake2b coalesce).
Notation add := (add header_cid blake2b coalesce).

Lemma add_loop_ne ts b b' : add_loop header_cid blake2b coalesce ts b = Some b' → b' ≠ [].
Proof.
  destruct b as [|t b]; simpl; [done|]. repeat case_match; try (by intros [= <-]);
    destruct (add_loop header_cid blake2b coalesce ts b); simpl; by intros [= <-].
Qed.

Lemma add_ne ts b : add ts b ≠ [].
Proof.
  unfold SyncManager.add. destruct (add_loop header_cid blake2b coalesce ts b) as [b'|] eqn:E; simpl;
    [by eapply add_loop_ne | by destruct b].
Qed.

Lemma Insert_ok ts sbs : buckets_ok sbs → buckets_ok (Insert ts sbs).
Proof.
  induction 1 as [|b sbs Hb Hok IH]; simpl; [by repeat constructor|].
  case_match; constructor; [apply add_ne | done | done | done].
Qed.

Lemma PopRelated_ok ts sbs : buckets_ok sbs →
  buckets_ok (PopRelated ts sbs).2 ∧ (∀ r, (PopRelated ts sbs).1 = Some r → r ≠ []).
Proof.
  intros Hok. unfold PopRelated. split; simpl.
  - apply Forall_forall. intros b [_ Hb]%list_elem_of_filter. unfold buckets_ok in Hok. rewrite Forall_forall in Hok. by apply Hok.
  - intros r. destruct (filter _ sbs) as [|b l] eqn:E; [done|]. intros [= <-].
    assert (b ∈ sbs) as Hb by (eapply list_elem_of_filter; rewrite E; by left).
    unfold buckets_ok in Hok. rewrite Forall_forall in Hok. specialize (Hok b Hb). simpl. by destruct b.
Qed.

(** * Selecting targets *)

Definition queues_ok (sm : syncManager) : Prop := buckets_ok (pend sm) ∧ buckets_ok (deferred sm).

(** Only the queues change. *)
Definition requeued (sm sm' : syncManager) : Prop :=
  ∃ p d, sm' = set_queues sm p d ∧ buckets_ok p ∧ buckets_ok d.

Lemma requeued_refl sm : queues_ok sm → requeued sm sm.
Proof. intros [? ?]. exists (pend sm), (deferred sm). by destruct sm. Qed.

Lemma requeued_trans sm sm1 sm2 : requeued sm sm1 → requeued sm1 sm2 → requeued sm sm2.
Proof. intros (p & d & -> & _ & _) (p' & d' & -> & ? & ?). by exists p', d'. Qed.

Lemma requeued_ok sm sm' : requeued sm sm' → queues_ok sm'.
Proof. by intros (p & d & -> & ? & ?). Qed.

Lemma requeued_set sm p d : buckets_ok p → buckets_ok d → requeued sm (set_queues sm p d).
Proof. intros. by exists p, d. Qed.

Context {rt : SyncRuntime} {laws : SyncRuntimeLaws}.

Lemma range_state_in k (m : gmap nat TipSet) t : t ∈ range_state k m ↔ ∃ id, m !! id = Some t.
Proof.
  rewrite (range_state_perm k m), list_elem_of_fmap. split.
  - intros ([id t'] & -> & Hin). exists id. by apply elem_of_map_to_list.
  - intros [id Hid]. exists (id, t). split; [done|]. by apply elem_of_map_to_list.
Qed.

Lemma range_state_nil k (m : gmap nat TipSet) : range_state k m = [] → m = ∅.
Proof.
  intros E. apply map_empty. intros id. destruct (m !! id) as [t|] eqn:El; [|done].
  assert (t ∈ range_state k m) as Hin by (apply range_state_in; by exists id). rewrite E in Hin. by apply not_elem_of_nil in Hin.
Qed.

(** A target can be started: it was not synced recently, nor was anything heavier. *)
Definition startable (sm : syncManager) (t : TipSet) : Prop := Synced t (recent sm) = false.

Lemma deferred_loop_spec fuel : ∀ sm, queues_ok sm →
  let r := deferred_loop header_cid blake2b coalesce fuel sm in
  requeued sm r.2 ∧ (∀ t, r.1 = Some t → startable sm t ∧ state sm ≠ ∅) ∧
  (r.1 = None → (length (deferred sm) <= fuel)%nat → deferred r.2 = []).
Proof.
  induction fuel as [|fuel IH]; intros sm Hq; simpl.
  { split_and!; [by apply requeued_refl|done|]. intros _ Hl. by destruct (deferred sm); [|simpl in Hl; lia]. }
  destruct (decide (deferred sm = [])) as [Ed|Hne].
  { rewrite Ed. simpl. split_and!; [by apply requeued_refl|done|done]. }
  destruct Hq as [Hp Hd]. destruct (Pop_spec _ Hd Hne) as (b & rest & h & -> & Hperm & Eh & _).
  assert (Hrest : buckets_ok rest). { unfold buckets_ok in *. rewrite Hperm in Hd. by apply Forall_cons in Hd as [_ ?]. }
  assert (Hlen : length (deferred sm) = S (length rest)) by (by rewrite Hperm).
  assert (Hrec : ∀ p, buckets_ok p →
    let r := deferred_loop header_cid blake2b coalesce fuel (set_queues sm p rest) in
    requeued sm r.2 ∧ (∀ t, r.1 = Some t → startable sm t ∧ state sm ≠ ∅) ∧
    (r.1 = None → (length (deferred sm) <= S fuel)%nat → deferred r.2 = [])).
  { intros p Hpo. destruct (IH (set_queues sm p rest)) as (R & T & N); [done|]. simpl in *. split_and!.
    - by eapply requeued_trans; [apply requeued_set|].
    - exact T.
    - intros E Hl. apply N; [done|]. lia. }
  rewrite Eh. destruct (Synced h (recent sm)) eqn:Es; [by apply Hrec|].
  destruct (RelatedToAny h (pend sm)); [by apply Hrec, Insert_ok|].
  destruct (range_state (S fuel) (state sm)) as [|ws l] eqn:Er; [by apply Hrec|].
  destruct (Equals ws h || isHeavier ws h); [by apply Hrec|].
  case_bool_decide; [by apply Hrec, Insert_ok|]. simpl. split_and!; [by apply requeued_set| |done].
  intros t [= <-]. split; [done|]. intros E. rewrite E in Er. pose proof (range_state_perm (S fuel) ∅) as Hpm.
  rewrite Er, map_to_list_empty in Hpm. by apply Permutation_nil_r in Hpm.
Qed.

Lemma selectDeferred_spec sm : queues_ok sm →
  let r := selectDeferredSyncTarget header_cid blake2b coalesce sm in
  requeued sm r.2 ∧ (∀ t, r.1 = Some t → startable sm t ∧ state sm ≠ ∅) ∧ (r.1 = None → deferred r.2 = []).
Proof.
  intros Hq. destruct (deferred_loop_spec (length (deferred sm)) sm Hq) as (R & T & N). split_and!; [done|done|].
  intros E. by apply N.
Qed.

Lemma selectSyncTarget_spec done sm : queues_ok sm →
  let r := selectSyncTarget header_cid blake2b coalesce done sm in
  requeued sm r.2 ∧ (∀ t, r.1 = Some t → startable sm t).
Proof.
  intros [Hp Hd]. unfold selectSyncTarget. destruct (PopRelated_ok done (pend sm) Hp) as [Hp' Hr].
  destruct (PopRelated done (pend sm)) as [related p]. simpl in *.
  assert (Hdef : let r := selectDeferredSyncTarget header_cid blake2b coalesce (set_queues sm p (deferred sm)) in
    requeued sm r.2 ∧ (∀ t, r.1 = Some t → startable sm t)).
  { destruct (selectDeferred_spec (set_queues sm p (deferred sm))) as (R & T & _); [done|].
    split; [by eapply requeued_trans; [apply requeued_set|] | intros t Ht; by apply T]. }
  destruct related as [related|]; [|done]. destruct (heaviest_some related (Hr _ eq_refl)) as (h & -> & _).
  destruct (isHeavier done h); [done|]. destruct (existsb _ _); [done|]. destruct (Synced h (recent sm)) eqn:Es; [done|].
  simpl. split; [by apply requeued_set|]. by intros t [= <-].
Qed.

Lemma active_loop_not ts workers :
  active_loop ts workers = NotActive → Forall (fun ws => Equals ts ws = false ∧ ts_Parents ts ≠ ts_Key ws) workers.
Proof.
  induction workers as [|ws workers IH]; simpl; [constructor|]. destruct (Equals ts ws) eqn:E; [done|].
  case_bool_decide; [done|]. intros Ha. constructor; [done | by apply IH].
Qed.

(** What a reported head is worth a new worker for. *)
Lemma addSyncTarget_spec ts sm : queues_ok sm →
  let r := addSyncTarget header_cid blake2b coalesce ts sm in
  requeued sm r.2 ∧
  (∀ t, r.1 = Some t →
     t = ts ∧ startable sm t ∧
     (state sm = ∅ ∨
      initialSyncDone sm = true ∧ (size (state sm) < MaxSyncWorkers)%nat ∧
      (∀ id ws, state sm !! id = Some ws → Equals ts ws = false ∧ ts_ParentWeight ws <= ts_ParentWeight ts) ∧
      (∀ p, p ∈ concat (pend sm) → ts_ParentWeight p <= ts_ParentWeight ts))).
Proof.
  intros Hq. pose proof Hq as [Hp Hd]. unfold addSyncTarget. pose proof (requeued_refl sm Hq).
  destruct (Synced ts (recent sm)) eqn:Es; [done|].
  destruct (Nat.eqb_spec (size (state sm)) 0) as [E0|_].
  { split; [done|]. intros t [= <-]. split_and!; [done|done|]. left. by apply map_size_empty_iff. }
  destruct (active_loop ts (range_state 0 (state sm))) eqn:Ea; [done|by split; [apply requeued_set; [apply Insert_ok|]|]|].
  destruct (RelatedToAny ts (pend sm)); [by split; [apply requeued_set; [apply Insert_ok|]|]|].
  destruct (existsb _ _) eqn:Ex; [done|].
  destruct (match Heaviest (pend sm) with Some h => isHeavier h ts | None => false end) eqn:Eh; [done|].
  destruct (negb (initialSyncDone sm) || _) eqn:Er; [by split; [apply requeued_set; [|apply Insert_ok]|]|].
  apply orb_false_iff in Er as [Ei%negb_false_iff El%Nat.leb_gt]. split; [done|]. intros t [= <-]. split_and!; [done|done|].
  right. split_and!; [done|done| |].
  - intros id ws Hws. apply active_loop_not in Ea. rewrite Forall_forall in Ea.
    split; [apply Ea, range_state_in; by exists id|]. assert (isHeavier ws ts = false) as Hn.
    { destruct (isHeavier ws ts) eqn:E; [|done]. rewrite <- Ex. symmetry. apply existsb_exists. exists ws. split; [|done].
      apply list_elem_of_In, range_state_in. by exists id. }
    unfold isHeavier in Hn. rewrite Z.gtb_ltb in Hn. by apply Z.ltb_ge in Hn.
  - intros p Hin. pose proof (Heaviest_spec _ Hp) as Hh. destruct (Heaviest (pend sm)) as [h|]; simpl in Hh.
    + destruct Hh as [_ Hmax]. specialize (Hmax p Hin). unfold isHeavier in Eh. rewrite Z.gtb_ltb in Eh. apply Z.ltb_ge in Eh. lia.
    + rewrite Hh in Hin. by apply not_elem_of_nil in Hin.
Qed.
End Theory.

(** * The invariant of the scheduler *)

(** How many workers may run. *)
Definition worker_limit (sm : syncManager) : nat := if initialSyncDone sm then MaxSyncWorkers else 1.

Record sm_inv (sm : syncManager) : Prop := mkSmInv {
  inv_queues : queues_ok sm;
  inv_ids : ∀ id, is_Some (state sm !! id) → (id < nextWorker sm)%nat;
  inv_workers : (size (state sm) <= worker_limit sm)%nat;
  inv_unstarted : nextWorker sm = 0%nat → recent sm = newSyncBuffer RecentSyncBufferSize;
  inv_recent : length (buf (recent sm)) = RecentSyncBufferSize ∧ (next (recent sm) < RecentSyncBufferSize)%nat;
  inv_history : length (history sm) = SyncWorkerHistory ∧ (historyI sm < SyncWorkerHistory)%nat;
}.

Lemma NewSyncManager_inv : sm_inv NewSyncManager.
Proof.
  split.
  - by split; apply Forall_nil.
  - intros id [? E]. simpl in E. by rewrite lookup_empty in E.
  - apply Nat.le_0_l.
  - done.
  - split; [done|]. simpl. unfold RecentSyncBufferSize. lia.
  - split; [done|]. simpl. unfold SyncWorkerHistory. lia.
Qed.

(** The targets that run in [sm'] ran in [sm] already or can be started. *)
Definition starts_new (sm sm' : syncManager) : Prop :=
  ∀ id t, state sm' !! id = Some t → state sm !! id = Some t ∨ (nextWorker sm <= id)%nat ∧ startable sm' t.

Lemma requeued_inv sm sm' : requeued sm sm' → sm_inv sm → sm_inv sm'.
Proof. intros Hr []. pose proof (requeued_ok _ _ Hr). destruct Hr as (p & d & -> & _ & _). by split. Qed.

Lemma requeued_starts sm sm' : requeued sm sm' → starts_new sm sm'.
Proof. intros (p & d & -> & _ & _) id t Ht. by left. Qed.

Lemma spawnWorker_inv t sm :
  sm_inv sm → (size (state sm) < worker_limit sm)%nat → sm_inv (spawnWorker t sm).
Proof.
  intros [] Hroom. split; simpl; try done.
  - intros id. destruct (decide (id = nextWorker sm)) as [->|Hne]; [lia|]. rewrite lookup_insert_ne by done.
    intros Hs. specialize (inv_ids0 id Hs). lia.
  - rewrite map_size_insert_None; [unfold worker_limit in *; simpl; lia|]. destruct (state sm !! nextWorker sm) eqn:E; [|done].
    specialize (inv_ids0 (nextWorker sm) ltac:(by rewrite E)). lia.
Qed.

Lemma spawnWorker_starts t sm0 sm :
  (nextWorker sm0 <= nextWorker sm)%nat → startable sm t → starts_new sm0 sm → starts_new sm0 (spawnWorker t sm).
Proof.
  intros Hle Ht Hs id t'. simpl. destruct (decide (id = nextWorker sm)) as [->|Hne].
  - rewrite lookup_insert_eq. intros [= <-]. right. done.
  - rewrite lookup_insert_ne by done. apply Hs.
Qed.

(** Spawning what a selection returned. *)
Lemma spawn_selected sm (r : option TipSet * syncManager) :
  sm_inv sm → requeued sm r.2 →
  (∀ t, r.1 = Some t → startable sm t ∧ (size (state sm) < worker_limit sm)%nat) →
  sm_inv (spawn_if r) ∧ starts_new sm (spawn_if r).
Proof.
  intros Hi Hr Ht. pose proof (requeued_inv _ _ Hr Hi) as Hi'. pose proof (requeued_starts _ _ Hr).
  destruct r as [[t|] sm']; simpl in *; [|done]. destruct (Ht t eq_refl) as [Hst Hroom].
  destruct Hr as (p & d & -> & _ & _). split; [by apply spawnWorker_inv|]. by apply spawnWorker_starts.
Qed.

Lemma startable_unstarted sm t : sm_inv sm → nextWorker sm = 0%nat → startable sm t.
Proof. intros Hi E. unfold startable. by rewrite (inv_unstarted _ Hi E). Qed.

Lemma unstarted_no_workers sm : sm_inv sm → nextWorker sm = 0%nat → state sm = ∅.
Proof.
  intros Hi E. apply map_empty. intros id. destruct (state sm !! id) eqn:El; [|done].
  pose proof (inv_ids _ Hi id ltac:(by rewrite El)). lia.
Qed.

Lemma worker_limit_pos sm : (1 <= worker_limit sm <= MaxSyncWorkers)%nat.
Proof. unfold worker_limit, MaxSyncWorkers. destruct (initialSyncDone sm); lia. Qed.

Section Events.
Context (header_cid : BlockHeader → cid) (blake2b : bytes → bytes) (coalesce : bool) (threshold : nat).
Context {rt : SyncRuntime} {laws : SyncRuntimeLaws}.

Lemma handlePeerHead_ok p ts sm : sm_inv sm →
  let sm' := handlePeerHead header_cid blake2b coalesce threshold p ts sm in sm_inv sm' ∧ starts_new sm sm'.
Proof.
  intros Hi. unfold handlePeerHead. destruct (Nat.eqb_spec (nextWorker sm) 0) as [E0|_].
  - pose proof (unstarted_no_workers _ Hi E0) as Es. 
    set (sh hs := mkSyncManager (nextWorker sm) (pend sm) (deferred sm) hs (recent sm) (initialSyncDone sm) (state sm)
                    (history sm) (historyI sm) (ticking sm)).
    assert (Hh : ∀ hs, sm_inv (sh hs)) by (intros hs; by destruct Hi; split).
    destruct (Nat.ltb _ _); [by split; [apply Hh | intros id t Ht; left]|].
    destruct (spawn_selected (sh ∅) (selectInitialSyncTarget header_cid blake2b coalesce (<[p:=ts]> (heads sm)), sh ∅)) as [? ?].
    + apply Hh.
    + apply requeued_refl, Hh.
    + intros t _. split; [by apply startable_unstarted; [apply Hh|]|]. simpl. rewrite Es, map_size_empty. apply worker_limit_pos.
    + done.
  - destruct (addSyncTarget_spec header_cid blake2b coalesce ts sm (inv_queues _ Hi)) as [Hr Ht].
    apply spawn_selected; [done|done|]. intros t Et. destruct (Ht t Et) as (-> & Hst & Hroom). split; [done|].
    destruct Hroom as [-> | (Ei & Hl & _)]; [rewrite map_size_empty; apply worker_limit_pos|]. unfold worker_limit. by rewrite Ei.
Qed.

Lemma Push_ok ts sb :
  length (buf sb) = RecentSyncBufferSize → (next sb < RecentSyncBufferSize)%nat →
  length (buf (Push ts sb)) = RecentSyncBufferSize ∧ (next (Push ts sb) < RecentSyncBufferSize)%nat.
Proof.
  intros Hl Hn. unfold Push. simpl. rewrite length_insert, Hl. split; [done|]. apply Nat.mod_upper_bound. unfold RecentSyncBufferSize. lia.
Qed.

Lemma handleWorkerStatus_ok id err fast sm sm' : sm_inv sm →
  handleWorkerStatus header_cid blake2b coalesce id err fast sm = Some sm' → sm_inv sm' ∧ starts_new sm sm'.
Proof.
  intros Hi. unfold handleWorkerStatus. destruct (state sm !! id) as [ws|] eqn:E; simpl; [|done]. intros [= <-].
  set (sm1 := mkSyncManager _ _ _ _ _ _ _ _ _ _).
  assert (Hsz : (size (state sm1) < worker_limit sm1)%nat).
  { pose proof (inv_workers _ Hi) as Hw. simpl. rewrite (map_size_delete_Some _ _ (ltac:(by rewrite E))).
    assert (size (state sm) ≠ 0%nat) by (intros Hz%map_size_empty_iff; by rewrite Hz, lookup_empty in E).
    unfold worker_limit, MaxSyncWorkers in *. simpl. destruct err, (initialSyncDone sm), fast; simpl in *; lia. }
  assert (Hi1 : sm_inv sm1).
  { destruct Hi. split; simpl in *; try done.
    - intros id' [t Hd]. apply inv_ids0. apply lookup_delete_Some in Hd as [_ Hd]. by rewrite Hd.
    - lia.
    - intros En. pose proof (inv_ids0 id ltac:(by rewrite E)). lia.
    - destruct inv_recent0. destruct err; [done | by apply Push_ok].
    - rewrite length_insert. destruct inv_history0 as [-> ?]. split; [done|]. apply Nat.mod_upper_bound. unfold SyncWorkerHistory. lia. }
  destruct (selectSyncTarget_spec header_cid blake2b coalesce ws sm1 (inv_queues _ Hi1)) as [Hr Ht].
  destruct (spawn_selected sm1 _ Hi1 Hr) as [Hi2 Hs]; [by intros t Et; split; [apply Ht|]|].
  split; [done|]. intros id' t Hl. destruct (Hs id' t Hl) as [Hd|?]; [|by right]. left. simpl in Hd. by apply lookup_delete_Some in Hd as [_ ?].
Qed.

Lemma ramp_up_ok fuel : ∀ sm0 sm, sm_inv sm → initialSyncDone sm = true →
  (nextWorker sm0 <= nextWorker sm)%nat → recent sm = recent sm0 → starts_new sm0 sm →
  let sm' := ramp_up header_cid blake2b coalesce fuel sm in sm_inv sm' ∧ starts_new sm0 sm' ∧ recent sm' = recent sm0.
Proof.
  induction fuel as [|fuel IH]; intros sm0 sm Hi Ed Hle Er Hs; simpl; [done|].
  destruct (Nat.ltb_spec (size (state sm)) MaxSyncWorkers) as [Hlt|_]; [|done].
  destruct (selectDeferred_spec header_cid blake2b coalesce sm (inv_queues _ Hi)) as (Hr & Ht & _).
  destruct (selectDeferredSyncTarget header_cid blake2b coalesce sm) as [[t|] sm1]; simpl in *.
  - pose proof (requeued_inv _ _ Hr Hi) as Hi1. destruct Hr as (p & d & -> & _ & _). apply IH; simpl; [|done|lia|done|].
    + apply spawnWorker_inv; [done|]. unfold worker_limit. simpl. by rewrite Ed.
    + apply spawnWorker_starts; [done| by apply Ht|done].
  - pose proof (requeued_inv _ _ Hr Hi) as Hi1. destruct Hr as (p & d & -> & _ & _). done.
Qed.

Lemma tick_ok sm : sm_inv sm → let sm' := tick header_cid blake2b coalesce sm in sm_inv sm' ∧ starts_new sm sm'.
Proof.
  intros Hi. unfold tick. destruct (initialSyncDone sm) eqn:Ei; [|by split; [|intros id t; left]].
  set (sm1 := mkSyncManager _ _ _ _ _ _ _ _ _ _).
  assert (Hi1 : sm_inv sm1). { destruct Hi. split; try done. unfold worker_limit in *. by rewrite Ei in *. }
  destruct (ramp_up_ok MaxSyncWorkers sm1 sm1 Hi1 eq_refl (le_n _) eq_refl (fun id t => @or_introl _ _)) as (? & ? & _).
  by split.
Qed.
End Events.

Section Steps.
Context (header_cid : BlockHeader → cid) (blake2b : bytes → bytes) (coalesce : bool) (threshold : nat).
Notation step := (sm_step header_cid blake2b coalesce threshold).

Lemma sm_step_ok sm sm' : step sm sm' → sm_inv sm → sm_inv sm' ∧ starts_new sm sm'.
Proof.
  intros [rt laws p ts sm0|rt laws id err fast sm0 sm1 E|rt laws sm0 _] Hi;
    [by apply handlePeerHead_ok | by eapply handleWorkerStatus_ok | by apply tick_ok].
Qed.

Lemma reachable_inv sm : rtc step NewSyncManager sm → sm_inv sm.
Proof.
  intros Hr. revert Hr. apply (rtc_ind_r (fun sm => sm_inv sm)); [apply NewSyncManager_inv|].
  intros y z _ Hs Hi. by apply (sm_step_ok y z).
Qed.
End Steps.

(** * The initial target *)

(** Equal tipsets have the same blocks, so one weight. *)
Definition weights_agree (l : list TipSet) : Prop :=
  ∀ t u, t ∈ l → u ∈ l → Equals t u = true → ts_ParentWeight t = ts_ParentWeight u.

(** [l'] holds tipsets of [l] only, and for each of [l] one as heavy. *)
Definition covers (l l' : list TipSet) : Prop :=
  (∀ t, t ∈ l' → t ∈ l) ∧ (∀ t, t ∈ l → ∃ u, u ∈ l' ∧ ts_ParentWeight u = ts_ParentWeight t).

Lemma covers_refl l : covers l l.
Proof. split; eauto. Qed.

Lemma covers_app l1 l1' l2 l2' : covers l1 l1' → covers l2 l2' → covers (l1 ++ l2) (l1' ++ l2').
Proof.
  intros [H1 C1] [H2 C2]. split; intros t; rewrite elem_of_app.
  - rewrite elem_of_app. intros [?|?]; auto.
  - intros [Ht|Ht]; [destruct (C1 t Ht) as (u & ? & ?) | destruct (C2 t Ht) as (u & ? & ?)]; exists u;
      rewrite elem_of_app; auto.
Qed.

Lemma covers_perm l1 l2 l : l1 ≡ₚ l2 → covers l1 l → covers l2 l.
Proof. intros Hp [? ?]. split; intros t Ht; [rewrite <- Hp; auto | rewrite <- Hp in Ht; auto]. Qed.

Lemma covers_trans l1 l2 l3 : covers l1 l2 → covers l2 l3 → covers l1 l3.
Proof.
  intros [H1 C1] [H2 C2]. split; [auto|]. intros t Ht. destruct (C1 t Ht) as (u & Hu & Eu).
  destruct (C2 u Hu) as (v & Hv & Ev). exists v. split; [done | by rewrite Ev].
Qed.

Lemma covers_heaviest l l' o : covers l l' → heaviest_of l' o → heaviest_of l o.
Proof.
  intros [Hin Hc]. destruct o as [h|]; simpl.
  - intros [Hh Hmax]. split; [auto|]. intros t Ht. destruct (Hc t Ht) as (u & Hu & <-). auto.
  - intros ->. destruct l as [|t l]; [done|]. destruct (Hc t (list_elem_of_here _ _)) as (u & Hu & _). by apply not_elem_of_nil in Hu.
Qed.

Section Initial.
Context (header_cid : BlockHeader → cid) (blake2b : bytes → bytes).
Notation Insert := (Insert header_cid blake2b false).
Notation add := (add header_cid blake2b false).

Lemma add_loop_false ts tips :
  add_loop header_cid blake2b false ts tips = if existsb (fun t => Equals t ts) tips then Some tips else None.
Proof.
  induction tips as [|t tips IH]; simpl; [done|]. destruct (Equals t ts); simpl; [done|]. rewrite IH. by case_match.
Qed.

Lemma add_covers ts b : weights_agree (b ++ [ts]) → covers (b ++ [ts]) (add ts b).
Proof.
  intros Hw. unfold SyncManager.add. rewrite add_loop_false. destruct (existsb _ b) eqn:E; simpl; [|apply covers_refl].
  apply existsb_exists in E as (u & Hu%list_elem_of_In & Eu). split; [set_solver|].
  intros t [Ht| ->%list_elem_of_singleton]%elem_of_app; [by exists t|]. exists u. split; [done|]. apply Hw; set_solver.
Qed.

Lemma weights_agree_sub l l' : (∀ t, t ∈ l' → t ∈ l) → weights_agree l → weights_agree l'.
Proof. intros Hs Hw t u Ht Hu. apply Hw; auto. Qed.

Lemma Insert_covers ts sbs : weights_agree (concat sbs ++ [ts]) → covers (concat sbs ++ [ts]) (concat (Insert ts sbs)).
Proof.
  induction sbs as [|b sbs IH]; simpl; intros Hw; [apply covers_refl|].
  destruct (sameChainAs ts b); simpl.
  - apply (covers_perm ((b ++ [ts]) ++ concat sbs)); [by rewrite <- !(assoc_L (++)), (Permutation_app_comm (concat sbs))|].
    apply covers_app; [|apply covers_refl]. apply add_covers. eapply weights_agree_sub, Hw. set_solver.
  - rewrite <- (assoc_L (++)). apply covers_app; [apply covers_refl|]. apply IH. eapply weights_agree_sub, Hw. set_solver.
Qed.

Lemma Inserts_cover l : ∀ l0 sbs, covers l0 (concat sbs) → buckets_ok sbs → weights_agree (l0 ++ l) →
  let sbs' := foldl (fun sbs ts => Insert ts sbs) sbs l in covers (l0 ++ l) (concat sbs') ∧ buckets_ok sbs'.
Proof.
  induction l as [|ts l IH]; intros l0 sbs Hc Hok Hw; simpl; [by rewrite app_nil_r|].
  rewrite (cons_middle ts), (assoc_L (++)) in *. apply IH; [|by apply Insert_ok|done].
  apply (covers_trans _ (concat sbs ++ [ts])); [apply covers_app; [done|apply covers_refl]|].
  apply Insert_covers. eapply weights_agree_sub, Hw. intros t Ht. destruct Hc as [Hc _].
  apply elem_of_app. left. apply elem_of_app. apply elem_of_app in Ht as [?|?]; auto.
Qed.

Context {rt : SyncRuntime} {laws : SyncRuntimeLaws}.

Lemma selectInitial_spec (hs : gmap string TipSet) :
  weights_agree (map_to_list hs).*2 →
  heaviest_of (map_to_list hs).*2 (selectInitialSyncTarget header_cid blake2b false hs).
Proof.
  intros Hw. pose proof (sorted_heads_perm hs) as Hp.
  destruct (Inserts_cover (sorted_heads hs) [] []) as [Hc Hok]; [apply covers_refl|constructor| |].
  { eapply weights_agree_sub, Hw. intros t. simpl. by rewrite Hp. }
  eapply (covers_heaviest _ _ _ (covers_perm _ _ _ Hp Hc)). by apply Heaviest_spec.
Qed.
End Initial.

(** * Deferred targets *)

Lemma deferred_idle header_cid blake2b coalesce `{SyncRuntimeLaws} fuel : ∀ sm,
  state sm = ∅ → pend sm = [] →
  let r := deferred_loop header_cid blake2b coalesce fuel sm in r.1 = None ∧ pend r.2 = [] ∧ state r.2 = ∅.
Proof.
  induction fuel as [|fuel IH]; intros sm Hs Hp; simpl; [done|].
  destruct (Pop (deferred sm)) as [[b rest]|]; [|done]. destruct (heaviestTipSet b) as [h|]; [|done].
  destruct (Synced h (recent sm)); [by apply IH|]. rewrite Hp. simpl.
  destruct (range_state (S fuel) (state sm)) as [|ws l] eqn:Er; [by apply IH|].
  pose proof (range_state_perm (S fuel) (state sm)) as Hpm. rewrite Er, Hs, map_to_list_empty in Hpm. by apply Permutation_nil_r in Hpm.
Qed.

(** * Theorems *)

Section Claims.
Context (header_cid : BlockHeader → cid) (blake2b : bytes → bytes) (coalesce : bool) (threshold : nat).
Notation step := (sm_step header_cid blake2b coalesce threshold).

(** C17: However peers report heads and workers come to their end, at most
    [MaxSyncWorkers] workers run, and at most one before the initial sync is done; every
    worker has an identifier below [nextWorker]; the two rings are indexed within their
    bounds.  A step starts workers under fresh identifiers only, and never on a tipset
    that was synced recently or is lighter than one that was. *)
Theorem sync_workers_sound sm sm' (Hr : rtc step NewSyncManager sm) (Hs : step sm sm') :
  (size (state sm') <= MaxSyncWorkers)%nat ∧
  (initialSyncDone sm' = false → (size (state sm') <= 1)%nat) ∧
  (∀ id, is_Some (state sm' !! id) → (id < nextWorker sm')%nat) ∧
  (next (recent sm') < length (buf (recent sm')))%nat ∧ (historyI sm' < length (history sm'))%nat ∧
  (∀ id t, state sm' !! id = Some t →
     state sm !! id = Some t ∨ (nextWorker sm <= id)%nat ∧ Synced t (recent sm') = false).
Proof.
  destruct (sm_step_ok _ _ _ _ sm sm' Hs (reachable_inv _ _ _ _ sm Hr)) as [[Hq Hid Hw _ [Hl Hn] [Hl' Hn']] Hst].
  pose proof (worker_limit_pos sm') as Hlim. split_and!; [lia| |done|lia|lia|exact Hst].
  intros E. unfold worker_limit in Hw. by rewrite E in Hw.
Qed.

Context {rt : SyncRuntime} {laws : SyncRuntimeLaws}.

(** C38: When the last worker ends and nothing is pending, nothing is started and every
    deferred target is forgotten: [selectDeferredSyncTarget] returns a target only from
    inside its loop over the running workers. *)
Theorem deferred_lost id ws err fast sm
    (Hr : rtc step NewSyncManager sm) (Hst : state sm = {[id := ws]}) (Hp : pend sm = []) :
  ∃ sm', handleWorkerStatus header_cid blake2b coalesce id err fast sm = Some sm' ∧
    state sm' = ∅ ∧ pend sm' = [] ∧ deferred sm' = [].
Proof.
  pose proof (inv_queues _ (reachable_inv _ _ _ _ sm Hr)) as [_ Hd].
  unfold handleWorkerStatus. rewrite Hst, lookup_singleton_eq. simpl. rewrite delete_singleton_eq.
  unfold selectSyncTarget. simpl. rewrite Hp. simpl. set (sm1 := set_queues _ _ _).
  destruct (selectDeferred_spec header_cid blake2b coalesce sm1) as (_ & _ & Hn); [by split; [apply Forall_nil|]|].
  destruct (deferred_idle header_cid blake2b coalesce (length (deferred sm1)) sm1 eq_refl eq_refl) as (E & Ep & Es).
  unfold selectDeferredSyncTarget in *. destruct (deferred_loop _ _ _ _ _) as [[t|] sm2]; [done|]. simpl in *. exists sm2. split_and!; auto.
Qed.
End Claims.

(** Once [BootstrapPeerThreshold] peers have reported heads, the first worker is
    started, on a reported head that no other is heavier than, and the heads are cleared;
    [weights_agree]: heads with the same blocks have the same weight. *)
Theorem initial_target_heaviest header_cid blake2b `{SyncRuntimeLaws} threshold p ts sm :
  rtc (sm_step header_cid blake2b false threshold) NewSyncManager sm →
  nextWorker sm = 0%nat →
  let hs := <[p := ts]> (heads sm) in
  (threshold <= size hs)%nat →
  weights_agree (map_to_list hs).*2 →
  let sm' := handlePeerHead header_cid blake2b false threshold p ts sm in
  ∃ t, state sm' = {[0%nat := t]} ∧ nextWorker sm' = 1%nat ∧ heads sm' = ∅ ∧
    (∃ q, hs !! q = Some t) ∧ ∀ q u, hs !! q = Some u → ts_ParentWeight u <= ts_ParentWeight t.
Proof.
  intros Hr E0 hs Hth Hw sm'. pose proof (unstarted_no_workers _ (reachable_inv _ _ _ _ sm Hr) E0) as Es.
  pose proof (selectInitial_spec header_cid blake2b hs Hw) as Hh.
  assert (Hin : ∀ t, t ∈ (map_to_list hs).*2 ↔ ∃ q, hs !! q = Some t).
  { intros t. rewrite list_elem_of_fmap. split.
    - intros ([q t'] & -> & Hq). exists q. by apply elem_of_map_to_list.
    - intros [q Hq]. exists (q, t). split; [done|]. by apply elem_of_map_to_list. }
  destruct (selectInitialSyncTarget header_cid blake2b false hs) as [t|] eqn:Et; simpl in Hh.
  - exists t. destruct Hh as [Ht Hmax]. subst sm'. unfold handlePeerHead. rewrite E0. simpl. fold hs.
    destruct (Nat.ltb_spec (size hs) threshold); [lia|]. rewrite Et, Es. simpl. rewrite insert_empty. split_and!; try done.
    + by apply Hin.
    + intros q u Hq. apply Hmax, Hin. by exists q.
  - exfalso. assert (ts ∈ (map_to_list hs).*2) as Hts by (apply Hin; exists p; apply lookup_insert_eq).
    rewrite Hh in Hts. by apply not_elem_of_nil in Hts.
Qed.

(** * Examples *)

Module SyncExample.
Definition not_higher (a b : TipSet) : Prop := ts_height a <= ts_height b.

#[export] Instance not_higher_dec : RelDecision not_higher.
Proof. intros a b. unfold not_higher. apply _. Defined.

#[export] Instance not_higher_total : Total not_higher.
Proof. intros a b. unfold not_higher. lia. Qed.

#[export] Instance not_higher_trans : Transitive not_higher.
Proof. intros a b c. unfold not_higher. lia. Qed.

#[export] Instance runtime : SyncRuntime := {|
  range_state _ m := (map_to_list m).*2;
  sorted_heads m := merge_sort not_higher (map_to_list m).*2;
|}.

#[export] Instance runtime_laws : SyncRuntimeLaws.
Proof.
  split.
  - done.
  - intros m. apply merge_sort_Permutation.
  - intros m. apply (StronglySorted_merge_sort not_higher).
Qed.

Definition hcid (b : BlockHeader) : cid := Messages b.

Definition head (c : cid) (parents : list cid) (weight height : Z) : TipSet :=
  mkTipSet [c] [mkBlockHeader (IDAddr 1000) "t" 1 "vrf" [] parents weight height "s" "r" c 0 0 0] height.

Definition main : TipSet := head "main" ["m0"] 10 20.
Definition fork : TipSet := head "fork" ["f0"] 12 21.

Abbreviation handle := (handlePeerHead hcid id false 2).

Definition one : syncManager := handle "p" main NewSyncManager.
Definition two : syncManager := handle "q" main one.
Definition three : syncManager := handle "r" fork two.

Lemma run : rtc (sm_step hcid id false 2) NewSyncManager three.
Proof. do 3 (eapply rtc_l; [apply step_head, _|]). apply rtc_refl. Qed.

(** Only the first worker that the loop meets is compared: a target that another one
    is syncing is started again. *)
Definition both : syncManager :=
  mkSyncManager 2 [] [[fork]] ∅ (newSyncBuffer RecentSyncBufferSize) true {[0%nat := fork; 1%nat := main]} [None; None; None] 0 false.

Lemma deferred_started_twice :
  (selectDeferredSyncTarget hcid id false both).1 = Some fork ∧ state both !! 0%nat = Some fork.
Proof. by vm_compute. Qed.
End SyncExample.
Import SyncExample.

Lemma sync_workers_sound_witness :
  (size (state (handle "s" fork three)) <= MaxSyncWorkers)%nat ∧ size (state (handle "s" fork three)) = 1%nat.
Proof.
  split; [|by vm_compute].
  apply (sync_workers_sound hcid id false 2 three _ run (step_head hcid id false 2 runtime runtime_laws "s" fork three)).
Defined.

Lemma deferred_lost_witness :
  deferred three = [[fork]] ∧
  ∃ sm', handleWorkerStatus hcid id false 0 false true three = Some sm' ∧ state sm' = ∅ ∧ pend sm' = [] ∧ deferred sm' = [].
Proof. split; [by vm_compute|]. apply (deferred_lost hcid id false 2 0%nat main false true three run); by vm_compute. Defined.

Lemma initial_target_heaviest_witness :
  ∃ t, state (handle "q" fork one) = {[0%nat := t]} ∧ 12 <= ts_ParentWeight t.
Proof.
  destruct (initial_target_heaviest hcid id 2 "q" fork one) as (t & Hs & _ & _ & _ & Hmax).
  - eapply rtc_l; [apply step_head, _|]. apply rtc_refl.
  - by vm_compute.
  - by vm_compute.
  - intros a b Ha Hb. vm_compute in Ha, Hb. intros E.
    apply list_elem_of_In in Ha as [<- | [<- | []]]; apply list_elem_of_In in Hb as [<- | [<- | []]]; done.
  - exists t. split; [done|]. apply (Hmax "q" fork). by vm_compute.
Defined.
