(* ===== verification/WdPost.v ===== *)
(** The change handler of the window PoSt scheduler
    (src/storage/wdpost/wdpost_changehandler.go) and what feeds it
    (src/storage/wdpost/wdpost_sched.go): heads of the chain start proofs for the
    deadlines of a miner and submit the proofs that are ready.

    Two goroutines run, the prover and the submitter; a step of the system is one turn of
    the loop of one of them.  A proof or a submission runs on a goroutine of its own until
    it reports; [proving] and [submitting] are those goroutines and [*_aborted] the
    ones whose context was cancelled.  The code compares pointers to a [currentPost] and
    replaces a [postWindow] that a goroutine may still point to: a pointer is a number, and
    windows are in a heap.  Epochs are far from the end of an [int64]. *)

From S2P Require Import Prelude Types Tipset ChainIndex.

(** * Deadlines *)

(** The fields of [dline.Info] that the code reads. *)
Record dline := mkDline {
  PeriodStart : Z;
  Index : Z;
  CurrentEpoch : Z;
  dl_Open : Z;
  dl_Close : Z;
  Challenge : Z;
}.

#[export] Instance dline_eq_dec : EqDecision dline.
Proof. solve_decision. Defined.

(** The package [dline] and the constants of the miner actor, of go-state-types. *)
Class Dline := {
  NewInfo (periodStart deadlineIdx currEpoch deadlines period window lookback cutoff : Z) : dline;
  PeriodStarted : dline → bool;
  WPoStPeriodDeadlines : Z;
  WPoStProvingPeriod : Z;
  WPoStChallengeWindow : Z;
  WPoStChallengeLookback : Z;
  FaultDeclarationCutoff : Z;
}.

(** Deadlines tile the proving period, in windows of one length. *)
Class DlineLaws `{Dline} := {
  deadlines_pos : 0 < WPoStPeriodDeadlines;
  window_pos : 0 < WPoStChallengeWindow;
  period_tiled : WPoStProvingPeriod = WPoStPeriodDeadlines * WPoStChallengeWindow;
  NewInfo_spec start idx now :
    0 <= idx < WPoStPeriodDeadlines →
    NewInfo start idx now WPoStPeriodDeadlines WPoStProvingPeriod WPoStChallengeWindow WPoStChallengeLookback
      FaultDeclarationCutoff =
    let open := start + idx * WPoStChallengeWindow in
    mkDline start idx now open (open + WPoStChallengeWindow) (open - WPoStChallengeLookback);
}.

Section Deadlines.
Context `{Dline}.

Definition NewDeadlineInfo (periodStart deadlineIdx currEpoch : Z) : dline :=
  NewInfo periodStart deadlineIdx currEpoch WPoStPeriodDeadlines WPoStProvingPeriod WPoStChallengeWindow
    WPoStChallengeLookback FaultDeclarationCutoff.

Definition nextDeadline (di : dline) : dline :=
  let newDeadline := Index di + 1 in
  if newDeadline =? WPoStPeriodDeadlines then NewDeadlineInfo (PeriodStart di + WPoStProvingPeriod) 0 (CurrentEpoch di)
  else NewDeadlineInfo (PeriodStart di) newDeadline (CurrentEpoch di).
End Deadlines.

(** * Head changes *)

Inductive hc_type := HCRevert | HCApply | HCCurrent.

(** The lowest reverted and the highest applied tipset, as [Run] takes them. *)
Definition net_change (changes : list (hc_type * TipSet)) : option TipSet * option TipSet :=
  foldl (fun '(lowest, highest) '(t, val) =>
           match t with
           | HCRevert => (Some val, highest)
           | HCApply => (lowest, Some val)
           | HCCurrent => (lowest, highest)
           end) (None, None) changes.

(** A turn of [Run]: whether the current head was seen, and the call of [update]. *)
Definition Run_changes (gotCur : bool) (changes : list (hc_type * TipSet)) : bool * option (option TipSet * option TipSet) :=
  if gotCur then (true, Some (net_change changes))
  else
    match changes with
    | [(HCCurrent, val)] => (true, Some (None, Some val))
    | _ => (false, None)
    end.

Record headChange := mkHeadChange { hc_revert : option TipSet; hc_advance : TipSet; hc_di : dline }.

(** [StateMinerProvingDeadline] is an argument; [None] when there is nothing to do. *)
Definition changeHandler_update `{Dline} {E} (StateMinerProvingDeadline : TipSet → result E dline)
    (revert : option TipSet) (advance : TipSet) : result E (option headChange) :=
  let? di := StateMinerProvingDeadline advance in
  if negb (PeriodStarted di) then Ok None else Ok (Some (mkHeadChange revert advance di)).

(** [WindowPoStScheduler.update] logs the errors. *)
Definition scheduler_update `{Dline} {E} (StateMinerProvingDeadline : TipSet → result E dline)
    (revert apply : option TipSet) : option headChange :=
  match apply with
  | None => None
  | Some apply =>
      match changeHandler_update StateMinerProvingDeadline revert apply with
      | Ok hc => hc
      | Err _ => None
      end
  end.

(** * The handler *)

Definition SubmitConfidence : Z := 4.
Definition ChallengeConfidence : Z := 1.

Section Handler.
Context `{Dline} {post : Type}.

(** ** The cache of proofs *)

Record postsCache := mkPostsCache {
  cache : gmap Z (list post);
  added : list (dline * list post);
}.

Definition newPostsCache : postsCache := mkPostsCache ∅ [].

Definition cache_add (di : dline) (posts : list post) (c : postsCache) : postsCache :=
  mkPostsCache (<[dl_Open di := posts]> (cache c)) (added c ++ [(di, posts)]).

Definition cache_get (di : dline) (c : postsCache) : option (list post) := cache c !! dl_Open di.

(** ** The prover *)

(** What the handlers do to their surroundings, in order. *)
Inductive command :=
  | StartGeneratePoST (id : nat) (ts : TipSet) (di : dline)
  | AbortProof (id : nat)
  | StartSubmitPoST (w : nat) (ts : TipSet) (di : dline) (posts : list post)
  | AbortSubmit (w : nat)
  | RecordPoStFailure (ts : TipSet) (di : dline)
  | OnAbort (ts : TipSet) (di : dline).

Record currentPost := mkCurrentPost { cp_id : nat; cp_di : dline }.

Record proveHandler := mkProveHandler {
  current : option currentPost;
  next_post : nat;
  proving : gmap nat (TipSet * dline);
  proofs_aborted : gset nat;
}.

Definition newProver : proveHandler := mkProveHandler None 0 ∅ ∅.

(** [p.current.abort()], and [p.current = nil]. *)
Definition abort_current (cp : currentPost) (p : proveHandler) : proveHandler :=
  mkProveHandler None (next_post p) (proving p) ({[cp_id cp]} ∪ proofs_aborted p).

Definition startGeneratePoST (ts : TipSet) (di : dline) (p : proveHandler) : proveHandler :=
  mkProveHandler (Some (mkCurrentPost (next_post p) di)) (S (next_post p)) (<[next_post p := (ts, di)]> (proving p))
    (proofs_aborted p).

(** The loop over the deadlines whose proofs are in the cache. *)
Fixpoint next_unproved (fuel : nat) (di : dline) (c : postsCache) : dline :=
  match fuel with
  | O => di
  | S fuel => if cache_get di c then next_unproved fuel (nextDeadline di) c else di
  end.

Definition prove_if_due (newTS : TipSet) (di : dline) (c : postsCache) (p : proveHandler) : proveHandler * list command :=
  let di := next_unproved (S (size (cache c))) di c in
  if ts_height newTS <? Challenge di + ChallengeConfidence then (p, [])
  else (startGeneratePoST newTS di p, [StartGeneratePoST (next_post p) newTS di]).

Definition prove_processHeadChange (newTS : TipSet) (di : dline) (c : postsCache) (p : proveHandler) :
    proveHandler * list command :=
  match current p with
  | Some cp =>
      if dl_Close (cp_di cp) <=? ts_height newTS then
        let '(p, cmds) := prove_if_due newTS di c (abort_current cp p) in (p, AbortProof (cp_id cp) :: cmds)
      else (p, [])
  | None => prove_if_due newTS di c p
  end.

Definition set_current (p : proveHandler) (o : option currentPost) : proveHandler :=
  mkProveHandler o (next_post p) (proving p) (proofs_aborted p).

(** The proof [id] of [ts] and [di] has come to [res]. *)
Definition processPostResult (id : nat) (ts : TipSet) (di : dline) (res : option (list post)) (c : postsCache)
    (p : proveHandler) : proveHandler * postsCache * list command :=
  match res with
  | None =>
      let clear := match current p with Some cp => Nat.eqb (cp_id cp) id | None => false end in
      ((if clear then set_current p None else p), c, [RecordPoStFailure ts di; OnAbort ts di])
  | Some posts => (set_current p None, cache_add di posts c, [])
  end.

(** ** The submitter *)

Inductive SubmitState := SubmitStateStart | SubmitStateSubmitting | SubmitStateComplete.

#[export] Instance SubmitState_eq_dec : EqDecision SubmitState.
Proof. solve_decision. Defined.

(** [pw_abort]: the field [abort] is not nil. *)
Record postWindow := mkPostWindow {
  pw_ts : TipSet;
  pw_di : dline;
  submitState : SubmitState;
  pw_abort : bool;
}.

Record submitHandler := mkSubmitHandler {
  heap : gmap nat postWindow;
  next_window : nat;
  postWindows : gmap Z nat;
  currentTS : option TipSet;
  currentDI : option dline;
  submitting : list nat;
  submits_aborted : gset nat;
}.

Definition newSubmitter : submitHandler := mkSubmitHandler ∅ 0 ∅ None None [] ∅.

Definition set_window (w : nat) (pw : postWindow) (s : submitHandler) : submitHandler :=
  mkSubmitHandler (<[w := pw]> (heap s)) (next_window s) (postWindows s) (currentTS s) (currentDI s) (submitting s) (submits_aborted s).

(** [s.postWindows[di.Open] = &postWindow{...}] *)
Definition track_window (di : dline) (ts : TipSet) (s : submitHandler) : submitHandler :=
  mkSubmitHandler (<[next_window s := mkPostWindow ts di SubmitStateStart false]> (heap s)) (S (next_window s))
    (<[dl_Open di := next_window s]> (postWindows s)) (currentTS s) (currentDI s) (submitting s) (submits_aborted s).

Definition abort_submit (w : nat) (s : submitHandler) : submitHandler :=
  mkSubmitHandler (heap s) (next_window s) (postWindows s) (currentTS s) (currentDI s) (submitting s) ({[w]} ∪ submits_aborted s).

Definition startSubmitPoST (w : nat) (s : submitHandler) : submitHandler :=
  mkSubmitHandler (heap s) (next_window s) (postWindows s) (currentTS s) (currentDI s) (submitting s ++ [w]) (submits_aborted s).

Definition with_state (pw : postWindow) (st : SubmitState) (abort : bool) : postWindow :=
  mkPostWindow (pw_ts pw) (pw_di pw) st abort.

Definition submitIfReady (advance : TipSet) (w : nat) (pw : postWindow) (c : postsCache) (s : submitHandler) :
    submitHandler * list command :=
  if dl_Close (pw_di pw) <=? ts_height advance then (s, [])
  else if negb (bool_decide (submitState pw = SubmitStateStart)) then (s, [])
  else if ts_height advance <? dl_Open (pw_di pw) + SubmitConfidence then (s, [])
  else
    match cache_get (pw_di pw) c with
    | None => (s, [])
    | Some [] => (set_window w (with_state pw SubmitStateComplete (pw_abort pw)) s, [])
    | Some posts =>
        (startSubmitPoST w (set_window w (with_state pw SubmitStateSubmitting true) s),
         [StartSubmitPoST w advance (pw_di pw) posts])
    end.

Definition processHeadChangeForPW (revert : option TipSet) (advance : TipSet) (w : nat) (pw : postWindow) (c : postsCache)
    (s : submitHandler) : submitHandler * list command :=
  let revertedToPrevDL := match revert with Some r => ts_height r <? dl_Open (pw_di pw) | None => false end in
  let expired := dl_Close (pw_di pw) <=? ts_height advance in
  if bool_decide (submitState pw = SubmitStateSubmitting) && (revertedToPrevDL || expired) then
    if pw_abort pw then
      let '(s', cmds) := submitIfReady advance (next_window s) (mkPostWindow advance (pw_di pw) SubmitStateStart false) c
                           (abort_submit w (track_window (pw_di pw) advance s)) in
      (s', AbortSubmit w :: cmds)
    else submitIfReady advance w pw c s
  else if bool_decide (submitState pw = SubmitStateComplete) && revertedToPrevDL then
    let pw := with_state pw SubmitStateStart (pw_abort pw) in submitIfReady advance w pw c (set_window w pw s)
  else submitIfReady advance w pw c s.

(** The loop over the windows; a pointer is never nil. *)
Fixpoint for_windows (revert : option TipSet) (advance : TipSet) (ws : list nat) (c : postsCache) (s : submitHandler) :
    submitHandler * list command :=
  match ws with
  | [] => (s, [])
  | w :: ws =>
      let '(s, cmds) := match heap s !! w with
                        | Some pw => processHeadChangeForPW revert advance w pw c s
                        | None => (s, [])
                        end in
      let '(s, cmds') := for_windows revert advance ws c s in (s, cmds ++ cmds')
  end.

Definition set_head (ts : TipSet) (di : dline) (s : submitHandler) : submitHandler :=
  mkSubmitHandler (heap s) (next_window s) (postWindows s) (Some ts) (Some di) (submitting s) (submits_aborted s).

Definition ensure_window (di : dline) (ts : TipSet) (s : submitHandler) : submitHandler :=
  if postWindows s !! dl_Open di then s else track_window di ts s.

(** [range_windows] is the order in which the map is ranged over. *)
Definition submit_processHeadChange (range_windows : gmap Z nat → list nat) (revert : option TipSet) (advance : TipSet)
    (di : dline) (c : postsCache) (s : submitHandler) : submitHandler * list command :=
  let s := ensure_window di advance (set_head advance di s) in
  for_windows revert advance (range_windows (postWindows s)) c s.

Definition processPostReady (di : dline) (c : postsCache) (s : submitHandler) : submitHandler * list command :=
  match postWindows s !! dl_Open di, currentTS s with
  | Some w, Some ts => match heap s !! w with Some pw => submitIfReady ts w pw c s | None => (s, []) end
  | _, _ => (s, [])
  end.

(** The submission for the window [w] has come to its end. *)
Definition processSubmitResult (w : nat) (pw : postWindow) (err : bool) (s : submitHandler) : submitHandler * list command :=
  if err then
    (set_window w (with_state pw SubmitStateStart (pw_abort pw)) s,
     [RecordPoStFailure (pw_ts pw) (pw_di pw); OnAbort (pw_ts pw) (pw_di pw)])
  else (set_window w (with_state pw SubmitStateComplete (pw_abort pw)) s, []).

(** ** The system *)

Record changeHandler := mkChangeHandler {
  proveHdlr : proveHandler;
  submitHdlr : submitHandler;
  posts : postsCache;
}.

Definition newChangeHandler : changeHandler := mkChangeHandler newProver newSubmitter newPostsCache.

(** The goroutine of the proof [id] ends; so does one of the window [w]. *)
Definition proof_ends (id : nat) (p : proveHandler) : proveHandler :=
  mkProveHandler (current p) (next_post p) (delete id (proving p)) (proofs_aborted p).

Definition submit_ends (w : nat) (rest : list nat) (s : submitHandler) : submitHandler :=
  mkSubmitHandler (heap s) (next_window s) (postWindows s) (currentTS s) (currentDI s) rest (submits_aborted s).

Definition cache_taken (rest : list (dline * list post)) (c : postsCache) : postsCache := mkPostsCache (cache c) rest.

(** A deadline of the chain. *)
Definition dline_wf (di : dline) : Prop :=
  0 <= Index di < WPoStPeriodDeadlines ∧ di = NewDeadlineInfo (PeriodStart di) (Index di) (CurrentEpoch di).

(** What the loops wait for: heads, at the prover and at the submitter, the end of a proof
    or of a submission, and proofs that were added to the cache. *)
Inductive wd_event :=
  | ProverHead (ts : TipSet) (di : dline)
  | ProofDone (id : nat) (res : option (list post))
  | SubmitterHead (revert : option TipSet) (advance : TipSet) (di : dline)
  | PostReady (di : dline)
  | SubmitDone (w : nat) (err : bool).

(** A turn of one of the loops: what it was waiting for, and what it does. *)
Inductive wd_step : changeHandler → wd_event → list command → changeHandler → Prop :=
  | wd_prove ts di p s c p' cmds :
      dline_wf di → prove_processHeadChange ts di c p = (p', cmds) →
      wd_step (mkChangeHandler p s c) (ProverHead ts di) cmds (mkChangeHandler p' s c)
  | wd_proved id ts di res p s c p' c' cmds :
      proving p !! id = Some (ts, di) →
      processPostResult id ts di res c (proof_ends id p) = (p', c', cmds) →
      wd_step (mkChangeHandler p s c) (ProofDone id res) cmds (mkChangeHandler p' s c')
  | wd_head range_windows revert advance di p s c s' cmds :
      dline_wf di → (∀ m, range_windows m ≡ₚ (map_to_list m).*2) →
      submit_processHeadChange range_windows revert advance di c s = (s', cmds) →
      wd_step (mkChangeHandler p s c) (SubmitterHead revert advance di) cmds (mkChangeHandler p s' c)
  | wd_ready di ps rest p s c s' cmds :
      added c = (di, ps) :: rest → processPostReady di (cache_taken rest c) s = (s', cmds) →
      wd_step (mkChangeHandler p s c) (PostReady di) cmds (mkChangeHandler p s' (cache_taken rest c))
  | wd_submitted w pw err before after p s c s' cmds :
      submitting s = before ++ w :: after → heap s !! w = Some pw →
      processSubmitResult w pw err (submit_ends w (before ++ after) s) = (s', cmds) →
      wd_step (mkChangeHandler p s c) (SubmitDone w err) cmds (mkChangeHandler p s' c).

Definition wd_steps (a b : changeHandler) : Prop := rtc (fun x y => ∃ e cmds, wd_step x e cmds y) a b.

(** A run from the start, with its history. *)
Inductive wd_run : list (wd_event * list command) → changeHandler → Prop :=
  | run_new : wd_run [] newChangeHandler
  | run_step tr s e cmds s' : wd_run tr s → wd_step s e cmds s' → wd_run (tr ++ [(e, cmds)]) s'.
End Handler.

Arguments postsCache : clear implicits.
Arguments command : clear implicits.
Arguments wd_event : clear implicits.
Arguments changeHandler : clear implicits.
