(* ===== verification/WdPostProps.v ===== *)
(** The theory of the window PoSt change handler: which proofs it starts, which
    it submits, and what runs at one time. *)

From S2P Require Import Prelude Types Tipset ChainIndex WdPost.

(** * Deadlines *)

Section Deadlines.
Context `{DlineLaws}.

Lemma NewDeadlineInfo_eq start idx now : 0 <= idx < WPoStPeriodDeadlines →
  NewDeadlineInfo start idx now =
  mkDline start idx now (start + idx * WPoStChallengeWindow) (start + idx * WPoStChallengeWindow + WPoStChallengeWindow)
    (start + idx * WPoStChallengeWindow - WPoStChallengeLookback).
Proof. intros Hi. apply NewInfo_spec, Hi. Qed.

Lemma NewDeadlineInfo_wf start idx now : 0 <= idx < WPoStPeriodDeadlines → dline_wf (NewDeadlineInfo start idx now).
Proof. intros Hi. rewrite (NewDeadlineInfo_eq start idx now Hi). split; [done|]. simpl. symmetry. by apply NewDeadlineInfo_eq. Qed.

Lemma dline_open di : dline_wf di →
  dl_Open di = PeriodStart di + Index di * WPoStChallengeWindow ∧ dl_Close di = dl_Open di + WPoStChallengeWindow.
Proof. intros [Hi E]. rewrite E, (NewDeadlineInfo_eq _ _ _ Hi). done. Qed.

(** The next window opens when this one closes. *)
Lemma nextDeadline_spec di : dline_wf di →
  dline_wf (nextDeadline di) ∧ dl_Open (nextDeadline di) = dl_Close di ∧ dl_Open di < dl_Open (nextDeadline di).
Proof.
  intros Hwf. pose proof (dline_open di Hwf) as [Eo Ec]. destruct Hwf as [Hi _]. pose proof deadlines_pos. pose proof window_pos.
  pose proof period_tiled. unfold nextDeadline. destruct (Z.eqb_spec (Index di + 1) WPoStPeriodDeadlines) as [E|Hne].
  - split; [apply NewDeadlineInfo_wf; lia|]. rewrite NewDeadlineInfo_eq by lia. simpl. nia.
  - split; [apply NewDeadlineInfo_wf; lia|]. rewrite NewDeadlineInfo_eq by lia. simpl. lia.
Qed.

Lemma iter_wf di k : dline_wf di → dline_wf (Nat.iter k nextDeadline di).
Proof. intros Hwf. induction k as [|k IH]; simpl; [done|]. by apply nextDeadline_spec. Qed.

Context {post : Type}.
Implicit Types (c : postsCache post).

(** The deadlines in the cache from [di] on. *)
Definition cached_from (di : dline) c : gset Z := filter (fun k => dl_Open di <= k) (dom (cache c)).

Lemma cached_from_next di c : dline_wf di → is_Some (cache_get di c) →
  (size (cached_from (nextDeadline di) c) < size (cached_from di c))%nat.
Proof.
  intros Hwf Hc. pose proof (nextDeadline_spec di Hwf) as (_ & _ & Hlt). apply subset_size. split.
  - intros k. unfold cached_from. rewrite !elem_of_filter. intros [? ?]. split; [lia|done].
  - intros Hs. assert (dl_Open di ∈ cached_from di c) as Hin.
    { unfold cached_from. rewrite elem_of_filter. split; [lia|]. by apply elem_of_dom. }
    apply Hs in Hin. unfold cached_from in Hin. rewrite elem_of_filter in Hin. lia.
Qed.

(** [di'] is the first deadline from [di] on without a proof. *)
Definition first_unproved (di di' : dline) c : Prop :=
  cache_get di' c = None ∧
  ∃ k, di' = Nat.iter k nextDeadline di ∧ ∀ j, (j < k)%nat → is_Some (cache_get (Nat.iter j nextDeadline di) c).

Lemma next_unproved_loop fuel : ∀ di c, dline_wf di → (size (cached_from di c) < fuel)%nat →
  first_unproved di (next_unproved fuel di c) c.
Proof.
  induction fuel as [|fuel IH]; intros di c Hwf Hlt; [lia|]. simpl. destruct (cache_get di c) eqn:E.
  - destruct (IH (nextDeadline di) c) as (Hn & k & Ek & Hk).
    + by apply nextDeadline_spec.
    + pose proof (cached_from_next di c Hwf ltac:(by rewrite E)). lia.
    + split; [done|]. exists (S k). rewrite Nat.iter_succ_r. split; [done|]. intros [|j] Hj; [simpl; by rewrite E|].
      rewrite Nat.iter_succ_r. apply Hk. lia.
  - split; [done|]. exists 0%nat. split; [done|]. lia.
Qed.

Lemma next_unproved_spec di c : dline_wf di → first_unproved di (next_unproved (S (size (cache c))) di c) c.
Proof.
  intros Hwf. apply next_unproved_loop; [done|]. apply Nat.lt_succ_r. rewrite <- size_dom. apply subseteq_size.
  intros k. unfold cached_from. rewrite elem_of_filter. by intros [_ ?].
Qed.
End Deadlines.

(** * The submitter *)

Section Submitter.
Context `{Dline} {post : Type}.
Implicit Types (s : submitHandler) (c : postsCache post).

(** The window that a pointer stands for. *)
Definition submits s (w : nat) (pw : postWindow) : Prop :=
  heap s !! w = Some pw ∧ submitState pw = SubmitStateSubmitting.

Definition tracked s (w : nat) (pw : postWindow) : Prop :=
  heap s !! w = Some pw ∧ postWindows s !! dl_Open (pw_di pw) = Some w.

(** The windows whose state is submitting are the ones that a goroutine submits for, one
    each; those that are not tracked any longer were aborted. *)
Record sub_inv s : Prop := mkSubInv {
  si_track : ∀ k w, postWindows s !! k = Some w → ∃ pw, heap s !! w = Some pw ∧ dl_Open (pw_di pw) = k;
  si_fresh : ∀ w, is_Some (heap s !! w) → (w < next_window s)%nat;
  si_live : ∀ w, w ∈ submitting s ↔ ∃ pw, submits s w pw;
  si_nodup : NoDup (submitting s);
  si_abort : ∀ w pw, submits s w pw → pw_abort pw = true;
  si_stale : ∀ w pw, submits s w pw → postWindows s !! dl_Open (pw_di pw) = Some w ∨ w ∈ submits_aborted s;
}.

Lemma newSubmitter_inv : sub_inv newSubmitter.
Proof.
  split; simpl.
  - intros k w E. by rewrite lookup_empty in E.
  - intros w [? E]. by rewrite lookup_empty in E.
  - intros w. split; [set_solver|]. intros (pw & E & _). simpl in E. by rewrite lookup_empty in E.
  - constructor.
  - intros w pw [E _]. simpl in E. by rewrite lookup_empty in E.
  - intros w pw [E _]. simpl in E. by rewrite lookup_empty in E.
Qed.

(** What [StartSubmitPoST w ts di ps] asks for, in a step from [s] to [s']. *)
Definition start_ok c s s' (ts : TipSet) (di : dline) (ps : list post) : Prop :=
  dl_Open di + SubmitConfidence <= ts_height ts < dl_Close di ∧ ps ≠ [] ∧ cache_get di c = Some ps ∧
  ∀ w pw, submits s w pw → dl_Open (pw_di pw) = dl_Open di → w ∈ submits_aborted s'.

(** From [s] to [s'], no submission ended. *)
Record grows s s' : Prop := mkGrows {
  g_heap : ∀ w pw, submits s w pw → ∃ pw', submits s' w pw' ∧ pw_di pw' = pw_di pw;
  g_aborted : submits_aborted s ⊆ submits_aborted s';
}.

Definition good c s (cmds : list (command post)) s' : Prop :=
  sub_inv s' ∧ grows s s' ∧ (∀ id ts di, StartGeneratePoST id ts di ∉ cmds) ∧
  ∀ w ts di ps, StartSubmitPoST w ts di ps ∈ cmds → start_ok c s s' ts di ps.

Lemma grows_refl s : grows s s.
Proof. split; [eauto|done]. Qed.

Lemma good_refl c s : sub_inv s → good c s [] s.
Proof. intros Hi. split_and!; [done|apply grows_refl|set_solver|]. intros w ts di ps Hin. by apply not_elem_of_nil in Hin. Qed.

Lemma good_trans c s a s1 b s2 : good c s a s1 → good c s1 b s2 → good c s (a ++ b) s2.
Proof.
  intros (_ & [Hh1 Ha1] & Hn1 & H1) (Hi & [Hh2 Ha2] & Hn2 & H2). split_and!; [done| |set_solver|].
  - split; [|set_solver]. intros w pw Hs. destruct (Hh1 w pw Hs) as (pw1 & Hs1 & E1).
    destruct (Hh2 w pw1 Hs1) as (pw2 & Hs2 & E2). exists pw2. split; [done | by rewrite E2].
  - intros w ts di ps [Hin|Hin]%elem_of_app.
    + destruct (H1 w ts di ps Hin) as (? & ? & ? & Hw). do 3 (split; [done|]). intros w' pw' Hs E. by eapply Ha2, Hw.
    + destruct (H2 w ts di ps Hin) as (? & ? & ? & Hw). do 3 (split; [done|]). intros w' pw' Hs E.
      destruct (Hh1 w' pw' Hs) as (pw1 & Hs1 & E1). apply (Hw w' pw1 Hs1). by rewrite E1.
Qed.

Lemma good_inv c s cmds s' : good c s cmds s' → sub_inv s'.
Proof. by intros [? _]. Qed.

(** ** Updates of a window *)

Lemma submits_set_window s w pw w' pw' :
  submits (set_window w pw s) w' pw' ↔
  (w' = w ∧ pw' = pw ∧ submitState pw = SubmitStateSubmitting) ∨ (w' ≠ w ∧ submits s w' pw').
Proof.
  unfold submits. simpl. destruct (decide (w' = w)) as [->|Hne].
  - rewrite lookup_insert_eq. naive_solver.
  - rewrite lookup_insert_ne by done. naive_solver.
Qed.

(** A window that does not submit, before and after. *)
Lemma set_window_good c s w pw st :
  sub_inv s → heap s !! w = Some pw → submitState pw ≠ SubmitStateSubmitting → st ≠ SubmitStateSubmitting →
  good c s [] (set_window w (with_state pw st (pw_abort pw)) s).
Proof.
  intros [] Hw Hst Hst'. set (s' := set_window _ _ s).
  assert (Hsub : ∀ w' pw', submits s' w' pw' ↔ submits s w' pw').
  { intros w' pw'. unfold s'. rewrite submits_set_window. simpl. split; [naive_solver|].
    intros Hs. right. split; [|done]. intros ->. destruct Hs as [E ?]. congruence. }
  split_and!.
  - split; try done.
    + intros k w' Hk. destruct (si_track0 k w' Hk) as (pw' & E & Ek). simpl. destruct (decide (w' = w)) as [->|Hne].
      * rewrite lookup_insert_eq. exists (with_state pw st (pw_abort pw)). split; [done|]. simpl. congruence.
      * rewrite lookup_insert_ne by done. by exists pw'.
    + intros w' Hs. apply si_fresh0. simpl in Hs. destruct (decide (w' = w)) as [->|Hne]; [by rewrite Hw|].
      by rewrite lookup_insert_ne in Hs.
    + intros w'. simpl. rewrite si_live0. by setoid_rewrite Hsub.
    + intros w' pw' Hs%Hsub. by eapply si_abort0.
    + intros w' pw' Hs%Hsub. by apply si_stale0.
  - split; [|done]. intros w' pw' Hs. exists pw'. by rewrite Hsub.
  - set_solver.
  - intros ? ? ? ? Hin. by apply not_elem_of_nil in Hin.
Qed.

(** A tracked window in the start state is submitted. *)
Lemma start_submit_good c s w pw ts ps :
  sub_inv s → tracked s w pw → submitState pw = SubmitStateStart →
  dl_Open (pw_di pw) + SubmitConfidence <= ts_height ts < dl_Close (pw_di pw) → ps ≠ [] → cache_get (pw_di pw) c = Some ps →
  good c s [StartSubmitPoST w ts (pw_di pw) ps]
    (startSubmitPoST w (set_window w (with_state pw SubmitStateSubmitting true) s)).
Proof.
  intros [] [Hw Hk] Hst Ht Hps Hc. set (pw1 := with_state pw SubmitStateSubmitting true). set (s' := startSubmitPoST _ _).
  assert (Hsub : ∀ w' pw', submits s' w' pw' ↔ (w' = w ∧ pw' = pw1) ∨ (w' ≠ w ∧ submits s w' pw')).
  { intros w' pw'. change (submits s' w' pw') with (submits (set_window w pw1 s) w' pw'). rewrite submits_set_window.
    simpl. naive_solver. }
  assert (Hnot : ∀ pw', ¬ submits s w pw') by (intros pw' [E ?]; congruence).
  split_and!.
  - split; simpl.
    + intros k w' Hk'. destruct (si_track0 k w' Hk') as (pw' & E & Ek). destruct (decide (w' = w)) as [->|Hne].
      * rewrite lookup_insert_eq. exists pw1. split; [done|]. simpl. congruence.
      * rewrite lookup_insert_ne by done. by exists pw'.
    + intros w' Hs. apply si_fresh0. destruct (decide (w' = w)) as [->|Hne]; [by rewrite Hw|].
      by rewrite lookup_insert_ne in Hs.
    + intros w'. setoid_rewrite Hsub. rewrite elem_of_app, list_elem_of_singleton, si_live0. split.
      * intros [(pw' & Hs) | ->]; [|by exists pw1; left]. exists pw'. right. split; [|done]. intros ->. by apply (Hnot pw').
      * intros (pw' & [[-> _] | [_ Hs]]); [by right | left; by exists pw'].
    + apply NoDup_app. split_and!; [done| |apply NoDup_singleton]. intros w' Hin Hin'%list_elem_of_singleton. subst w'.
      apply si_live0 in Hin as (pw' & Hs). by apply (Hnot pw').
    + intros w' pw' [[-> ->] | [_ Hs]]%Hsub; [done | by eapply si_abort0].
    + intros w' pw' [[-> ->] | [_ Hs]]%Hsub; [by left | by apply si_stale0].
  - split; [|done]. intros w' pw' Hs. exists pw'. split; [|done]. apply Hsub. right. split; [|done]. intros ->. by apply (Hnot pw').
  - set_solver.
  - intros w' ts' di ps' Hin. apply list_elem_of_singleton in Hin. injection Hin as -> -> -> ->. do 3 (split; [done|]).
    intros w' pw' Hs E. destruct (si_stale0 w' pw' Hs) as [Ew|?]; [|done]. rewrite E, Hk in Ew. injection Ew as <-. by destruct (Hnot pw').
Qed.

Lemma submitIfReady_good c s w pw ts :
  sub_inv s → tracked s w pw → good c s (submitIfReady ts w pw c s).2 (submitIfReady ts w pw c s).1.
Proof.
  intros Hi Ht. unfold submitIfReady. destruct (Z.leb_spec (dl_Close (pw_di pw)) (ts_height ts)); [by apply good_refl|].
  destruct (bool_decide_reflect (submitState pw = SubmitStateStart)) as [Es|Es]; simpl; [|by apply good_refl].
  destruct (Z.ltb_spec (ts_height ts) (dl_Open (pw_di pw) + SubmitConfidence)); [by apply good_refl|].
  destruct (cache_get (pw_di pw) c) as [[|p ps]|] eqn:Ec; simpl; [| |by apply good_refl].
  - apply set_window_good; [done|by apply Ht| |]; congruence.
  - by apply start_submit_good.
Qed.

(** A window is tracked anew: of the submissions for its deadline, the tracked one is
    aborted. *)
Lemma track_good c s di ts (A : gset nat) cmds :
  sub_inv s → (∀ w pw, submits s w pw → dl_Open (pw_di pw) = dl_Open di → w ∈ A ∪ submits_aborted s) →
  (∀ w ts di ps, StartSubmitPoST w ts di ps ∉ cmds) → (∀ id ts di, StartGeneratePoST id ts di ∉ cmds) →
  let s1 := track_window di ts s in
  good c s cmds (mkSubmitHandler (heap s1) (next_window s1) (postWindows s1) (currentTS s1) (currentDI s1) (submitting s1)
                   (A ∪ submits_aborted s1)).
Proof.
  intros [] Hab Hcmds Hgen s1. set (s' := mkSubmitHandler _ _ _ _ _ _ _).
  assert (Hne : ∀ w pw, heap s !! w = Some pw → w ≠ next_window s).
  { intros w pw E ->. specialize (si_fresh0 (next_window s) ltac:(by rewrite E)). lia. }
  assert (Hsub : ∀ w pw, submits s' w pw ↔ submits s w pw).
  { intros w pw. unfold submits. simpl. destruct (decide (w = next_window s)) as [->|Hw].
    - rewrite lookup_insert_eq. split; [intros [[= <-] ?]; done|]. intros [E _]. by apply Hne in E.
    - by rewrite lookup_insert_ne by done. }
  split_and!.
  - split; simpl.
    + intros k w. destruct (decide (k = dl_Open di)) as [->|Hk].
      * rewrite lookup_insert_eq. intros [= <-]. eexists. by rewrite lookup_insert_eq.
      * rewrite lookup_insert_ne by done. intros E. destruct (si_track0 k w E) as (pw & Ew & Ek). exists pw.
        rewrite lookup_insert_ne; [done|]. apply not_eq_sym. by eapply Hne.
    + intros w. destruct (decide (w = next_window s)) as [->|Hw]; [lia|]. rewrite lookup_insert_ne by done.
      intros Hs. specialize (si_fresh0 w Hs). lia.
    + intros w. rewrite si_live0. by setoid_rewrite Hsub.
    + done.
    + intros w pw Hs%Hsub. by eapply si_abort0.
    + intros w pw Hs%Hsub. destruct (decide (dl_Open (pw_di pw) = dl_Open di)) as [E|Hk]; [right; by apply (Hab w pw)|].
      rewrite lookup_insert_ne by done. destruct (si_stale0 w pw Hs); [by left | right; set_solver].
  - split; [|simpl; set_solver]. intros w pw Hs. exists pw. by rewrite Hsub.
  - exact Hgen.
  - intros w ts' di' ps Hin. by apply Hcmds in Hin.
Qed.

(** ** Windows by deadline *)

Definition view s (k : Z) : option postWindow := w ← postWindows s !! k; heap s !! w.

Lemma tracked_view s w pw : tracked s w pw → view s (dl_Open (pw_di pw)) = Some pw.
Proof. intros [Hw Hk]. unfold view. by rewrite Hk. Qed.

Lemma view_tracked s k pw : sub_inv s → view s k = Some pw → dl_Open (pw_di pw) = k ∧ ∃ w, tracked s w pw.
Proof.
  intros Hi. unfold view. destruct (postWindows s !! k) as [w|] eqn:E; simpl; [|done]. intros Ew.
  destruct (si_track _ Hi k w E) as (pw' & E' & Ek). assert (pw' = pw) as -> by congruence.
  split; [done|]. exists w. split; [done | by rewrite Ek].
Qed.

(** Only the window of [k] changes, to [pw]. *)
Definition updates s s' (k : Z) (pw : postWindow) : Prop :=
  view s' k = Some pw ∧ ∀ k', k' ≠ k → view s' k' = view s k' ∧ postWindows s' !! k' = postWindows s !! k'.

Lemma updates_refl s w pw : tracked s w pw → updates s s (dl_Open (pw_di pw)) pw.
Proof. intros Ht. split; [by eapply tracked_view | done]. Qed.

Lemma updates_trans s s1 s2 k pw1 pw2 : updates s s1 k pw1 → updates s1 s2 k pw2 → updates s s2 k pw2.
Proof.
  intros [_ H1] [E2 H2]. split; [done|]. intros k' Hk. destruct (H1 k' Hk) as [<- <-]. by apply H2.
Qed.

Lemma set_window_updates s w pw pw' : sub_inv s → tracked s w pw → pw_di pw' = pw_di pw →
  updates s (set_window w pw' s) (dl_Open (pw_di pw)) pw' ∧ tracked (set_window w pw' s) w pw'.
Proof.
  intros Hi [Hw Hk] Ed. split_and!; [|by split; simpl; [rewrite lookup_insert_eq | rewrite Ed]]. split.
  - unfold view. simpl. rewrite Hk. simpl. by rewrite lookup_insert_eq.
  - intros k' Hne. split; [|done]. unfold view. simpl. destruct (postWindows s !! k') as [w'|] eqn:E; [|done]. simpl.
    destruct (si_track _ Hi k' w' E) as (pw2 & E2 & Ek). rewrite lookup_insert_ne; [done|]. intros <-. congruence.
Qed.

Lemma track_updates s di ts : sub_inv s →
  let pw := mkPostWindow ts di SubmitStateStart false in
  updates s (track_window di ts s) (dl_Open di) pw ∧ tracked (track_window di ts s) (next_window s) pw.
Proof.
  intros Hi pw. split; [split|split; simpl; by rewrite lookup_insert_eq].
  - unfold view. simpl. rewrite lookup_insert_eq. simpl. by rewrite lookup_insert_eq.
  - intros k Hne. split; [|simpl; by rewrite lookup_insert_ne by done]. unfold view. simpl. rewrite lookup_insert_ne by done.
    destruct (postWindows s !! k) as [w|] eqn:E; [|done]. simpl. destruct (si_track _ Hi k w E) as (pw2 & E2 & _).
    pose proof (si_fresh _ Hi w ltac:(by rewrite E2)). rewrite lookup_insert_ne; [done|lia].
Qed.

(** What [submitIfReady] makes of a window. *)
Definition submit_after (ts : TipSet) c (pw : postWindow) : postWindow :=
  if bool_decide (submitState pw = SubmitStateStart) && (dl_Open (pw_di pw) + SubmitConfidence <=? ts_height ts)
     && (ts_height ts <? dl_Close (pw_di pw)) then
    match cache_get (pw_di pw) c with
    | None => pw
    | Some [] => with_state pw SubmitStateComplete (pw_abort pw)
    | Some _ => with_state pw SubmitStateSubmitting true
    end
  else pw.

(** What a head change makes of a window: a submission is given up when the window has
    expired or the chain went back before it, and a submitted window starts again in the
    latter case. *)
Definition reset_window (revert : option TipSet) (advance : TipSet) (pw : postWindow) : postWindow :=
  let reverted := match revert with Some r => ts_height r <? dl_Open (pw_di pw) | None => false end in
  match submitState pw with
  | SubmitStateSubmitting =>
      if reverted || (dl_Close (pw_di pw) <=? ts_height advance)
      then mkPostWindow advance (pw_di pw) SubmitStateStart false else pw
  | SubmitStateComplete => if reverted then with_state pw SubmitStateStart (pw_abort pw) else pw
  | SubmitStateStart => pw
  end.

Definition window_after (revert : option TipSet) (advance : TipSet) c (pw : postWindow) : postWindow :=
  submit_after advance c (reset_window revert advance pw).

Lemma submitIfReady_updates c s w pw ts :
  sub_inv s → tracked s w pw → updates s (submitIfReady ts w pw c s).1 (dl_Open (pw_di pw)) (submit_after ts c pw).
Proof.
  intros Hi Ht. unfold submitIfReady, submit_after.
  destruct (Z.leb_spec (dl_Close (pw_di pw)) (ts_height ts)); destruct (Z.ltb_spec (ts_height ts) (dl_Close (pw_di pw))); try lia.
  { rewrite andb_false_r. by eapply updates_refl. }
  rewrite andb_true_r. destruct (bool_decide_reflect (submitState pw = SubmitStateStart)) as [Es|Es]; simpl; [|by eapply updates_refl].
  destruct (Z.ltb_spec (ts_height ts) (dl_Open (pw_di pw) + SubmitConfidence));
    destruct (Z.leb_spec (dl_Open (pw_di pw) + SubmitConfidence) (ts_height ts)); try lia; [by eapply updates_refl|].
  destruct (cache_get (pw_di pw) c) as [[|p ps]|]; simpl; [| |by eapply updates_refl];
    by apply (set_window_updates s w pw).
Qed.

Lemma processHeadChangeForPW_spec revert advance c s w pw :
  sub_inv s → tracked s w pw →
  let r := processHeadChangeForPW revert advance w pw c s in
  good c s r.2 r.1 ∧ updates s r.1 (dl_Open (pw_di pw)) (window_after revert advance c pw).
Proof.
  intros Hi Ht. unfold processHeadChangeForPW, window_after, reset_window.
  set (reverted := match revert with Some r => _ | None => _ end). set (expired := dl_Close _ <=? _).
  assert (Hkeep : good c s (submitIfReady advance w pw c s).2 (submitIfReady advance w pw c s).1 ∧
    updates s (submitIfReady advance w pw c s).1 (dl_Open (pw_di pw)) (submit_after advance c pw)).
  { split; [by apply submitIfReady_good | by apply submitIfReady_updates]. }
  destruct (submitState pw) eqn:Es; simpl.
  - exact Hkeep.
  - destruct (reverted || expired); [|exact Hkeep].
    rewrite (si_abort _ Hi w pw (conj (proj1 Ht) Es)). set (s1 := abort_submit _ _).
    assert (Hg : good c s [AbortSubmit w] s1).
    { apply (track_good c s (pw_di pw) advance {[w]}); [done| |set_solver|set_solver]. intros w' pw' Hs E.
      destruct (si_stale _ Hi w' pw' Hs) as [Ew|?]; [|set_solver]. rewrite E, (proj2 Ht) in Ew. set_solver. }
    destruct (track_updates s (pw_di pw) advance Hi) as [Hu Htr].
    pose proof (submitIfReady_good c s1 _ _ advance (good_inv _ _ _ _ Hg) Htr) as Hg'.
    pose proof (submitIfReady_updates c s1 _ _ advance (good_inv _ _ _ _ Hg) Htr) as Hu'.
    clear Hkeep. destruct (submitIfReady _ _ _ _ s1) as [s2 cmds]. simpl in *.
    split; [by apply (good_trans _ _ [AbortSubmit w] s1) | by eapply updates_trans].
  - destruct reverted; [|exact Hkeep]. set (pw1 := with_state _ _ _).
    destruct (set_window_updates s w pw pw1 Hi Ht eq_refl) as [Hu Htr].
    assert (Hg : good c s [] (set_window w pw1 s)) by (apply set_window_good; [done|apply Ht|congruence|done]).
    split.
    + apply (good_trans _ _ [] _ _ _ Hg), submitIfReady_good; [by eapply good_inv|done].
    + eapply updates_trans; [exact Hu|]. apply (submitIfReady_updates c _ w pw1); [by eapply good_inv|done].
Qed.

(** ** The loop over the windows *)

Lemma tracked_other s w pw w' pw' : tracked s w pw → tracked s w' pw' → w ≠ w' → dl_Open (pw_di pw') ≠ dl_Open (pw_di pw).
Proof. intros [_ Hk] [_ Hk'] Hne E. rewrite E in Hk'. congruence. Qed.

Lemma for_windows_spec revert advance c ws : ∀ s,
  sub_inv s → NoDup ws → (∀ w, w ∈ ws → ∃ pw, tracked s w pw) →
  let r := for_windows revert advance ws c s in
  good c s r.2 r.1 ∧
  (∀ w pw, w ∈ ws → tracked s w pw → view r.1 (dl_Open (pw_di pw)) = Some (window_after revert advance c pw)) ∧
  (∀ k, (∀ w, w ∈ ws → postWindows s !! k ≠ Some w) → view r.1 k = view s k).
Proof.
  induction ws as [|w ws IH]; intros s Hi Hnd Htr; simpl.
  { split_and!; [by apply good_refl| |done]. intros w pw Hin. by apply not_elem_of_nil in Hin. }
  apply NoDup_cons in Hnd as [Hnin Hnd]. destruct (Htr w (list_elem_of_here _ _)) as [pw Ht]. rewrite (proj1 Ht).
  destruct (processHeadChangeForPW_spec revert advance c s w pw Hi Ht) as [Hg [Hv Hk]].
  destruct (processHeadChangeForPW revert advance w pw c s) as [s1 cmds1]. simpl in Hg, Hv, Hk.
  assert (Hother : ∀ w' pw', w' ∈ ws → tracked s w' pw' → dl_Open (pw_di pw') ≠ dl_Open (pw_di pw) ∧ tracked s1 w' pw').
  { intros w' pw' Hin Ht'. assert (w ≠ w') as Hne by (by intros ->). pose proof (tracked_other _ _ _ _ _ Ht Ht' Hne) as Ho.
    split; [done|]. destruct (Hk _ Ho) as [Ev Ep]. rewrite (tracked_view _ _ _ Ht') in Ev. unfold view in Ev.
    rewrite Ep, (proj2 Ht') in Ev. simpl in Ev. split; [done|]. rewrite Ep. apply Ht'. }
  destruct (IH s1) as (Hg2 & Hin2 & Hout2); [by eapply good_inv|done| |].
  { intros w' Hin. destruct (Htr w' (list_elem_of_further _ _ _ Hin)) as [pw' Ht']. exists pw'. by apply Hother. }
  destruct (for_windows revert advance ws c s1) as [s2 cmds2]. simpl in *. split_and!; [by eapply good_trans| |].
  - intros w' pw' [-> | Hin]%elem_of_cons Ht'.
    + assert (pw' = pw) as -> by (destruct Ht, Ht'; congruence). rewrite <- Hv. apply Hout2. intros w' Hin Ew.
      destruct (Htr w' (list_elem_of_further _ _ _ Hin)) as [pw' Ht2]. destruct (Hother w' pw' Hin Ht2) as [Hne Ht3].
      destruct (si_track _ (good_inv _ _ _ _ Hg) _ _ Ew) as (pw2 & E2 & Ek2). destruct Ht3. congruence.
    + apply (Hin2 w' pw' Hin). by apply Hother.
  - intros k Hno. assert (k ≠ dl_Open (pw_di pw)) as Hne.
    { intros ->. apply (Hno w (list_elem_of_here _ _)), Ht. }
    destruct (Hk k Hne) as [Ev Ep]. rewrite <- Ev. apply Hout2. intros w' Hin. rewrite Ep. apply Hno. by right.
Qed.

(** The windows once the head's own is tracked. *)
Lemma ensure_good c s di ts : sub_inv s → good c s [] (ensure_window di ts s).
Proof.
  intros Hi. unfold ensure_window. destruct (postWindows s !! dl_Open di) eqn:E; [by apply good_refl|].
  pose proof (track_good c s di ts ∅ [] Hi) as Hg. simpl in Hg. rewrite (left_id_L ∅ (∪)) in Hg. apply Hg; [|set_solver|set_solver].
  intros w pw Hs Eo. destruct (si_stale _ Hi w pw Hs) as [Ew|?]; [|set_solver]. congruence.
Qed.

Lemma set_head_good c s di ts : sub_inv s → good c s [] (set_head ts di s).
Proof.
  intros []. split_and!; [by split|by split; [intros w pw Hs; exists pw|]|set_solver|]. intros ? ? ? ? Hin. by apply not_elem_of_nil in Hin.
Qed.

Lemma submit_processHeadChange_spec range revert advance di c s :
  (∀ m, range m ≡ₚ (map_to_list m).*2) → sub_inv s →
  let r := submit_processHeadChange range revert advance di c s in
  good c s r.2 r.1 ∧
  ∀ k, view r.1 k = window_after revert advance c <$> view (ensure_window di advance (set_head advance di s)) k.
Proof.
  intros Hperm Hi. unfold submit_processHeadChange. set (s1 := ensure_window _ _ _).
  assert (Hg : good c s [] s1).
  { apply (good_trans c s [] (set_head advance di s) []); [by apply set_head_good|]. apply ensure_good.
    eapply good_inv. by apply (set_head_good c s di advance). }
  pose proof (good_inv _ _ _ _ Hg) as Hi1.
  assert (Hin : ∀ w, w ∈ range (postWindows s1) ↔ ∃ k, postWindows s1 !! k = Some w).
  { intros w. rewrite Hperm, list_elem_of_fmap. split.
    - intros ([k w'] & -> & Hk%elem_of_map_to_list). by exists k.
    - intros [k Hk]. exists (k, w). split; [done | by apply elem_of_map_to_list]. }
  assert (Htr : ∀ k w, postWindows s1 !! k = Some w → ∃ pw, tracked s1 w pw ∧ dl_Open (pw_di pw) = k).
  { intros k w Hk. destruct (si_track _ Hi1 k w Hk) as (pw & E & Ek). exists pw. split; [|done]. split; [done | by rewrite Ek]. }
  destruct (for_windows_spec revert advance c (range (postWindows s1)) s1 Hi1) as (Hg2 & Hv & Ho).
  - rewrite Hperm. apply NoDup_fmap_2_strong; [|apply NoDup_map_to_list].
    intros [k1 w1] [k2 w2] H1%elem_of_map_to_list H2%elem_of_map_to_list E. simpl in E. subst w2.
    destruct (Htr _ _ H1) as (pw1 & [? ?] & <-). destruct (Htr _ _ H2) as (pw2 & [? ?] & <-). congruence.
  - intros w [k Hk]%Hin. destruct (Htr k w Hk) as (pw & ? & _). by exists pw.
  - split; [exact (good_trans _ _ _ _ _ _ Hg Hg2)|]. intros k. destruct (view s1 k) as [pw|] eqn:Ev; simpl.
    + destruct (view_tracked s1 k pw Hi1 Ev) as (<- & w & Ht). apply (Hv w pw); [|done]. apply Hin. eexists. apply Ht.
    + rewrite Ho, Ev; [done|]. intros w _ Hk. destruct (Htr k w Hk) as (pw & Ht & <-). by rewrite (tracked_view _ _ _ Ht) in Ev.
Qed.

(** ** Results *)

Lemma processPostReady_good di c s : sub_inv s → good c s (processPostReady di c s).2 (processPostReady di c s).1.
Proof.
  intros Hi. unfold processPostReady. destruct (postWindows s !! dl_Open di) as [w|] eqn:E; [|by apply good_refl].
  destruct (currentTS s) as [ts|]; [|by apply good_refl]. destruct (si_track _ Hi _ _ E) as (pw & Ew & Ek). rewrite Ew.
  apply submitIfReady_good; [done|]. split; [done | by rewrite Ek].
Qed.

Lemma submit_result_inv s w pw before after st :
  sub_inv s → submitting s = before ++ w :: after → heap s !! w = Some pw → st ≠ SubmitStateSubmitting →
  sub_inv (set_window w (with_state pw st (pw_abort pw)) (submit_ends w (before ++ after) s)).
Proof.
  intros [] El Hw Hst. set (s' := set_window _ _ _).
  assert (Hsub : ∀ w' pw', submits s' w' pw' ↔ w' ≠ w ∧ submits s w' pw').
  { intros w' pw'. unfold s'. rewrite submits_set_window. simpl. split; [|by right].
    intros [(_ & _ & ?) | [? ?]]; [done|]. split; [done|]. done. }
  assert (Hnd : NoDup (w :: before ++ after)).
  { rewrite El in si_nodup0. by rewrite <- Permutation_middle in si_nodup0. }
  apply NoDup_cons in Hnd as [Hnin Hnd]. split.
  - intros k w' Hk. destruct (si_track0 k w' Hk) as (pw' & E & Ek). simpl. destruct (decide (w' = w)) as [->|Hne].
    + rewrite lookup_insert_eq. eexists. split; [done|]. simpl. congruence.
    + rewrite lookup_insert_ne by done. by exists pw'.
  - intros w' Hs. apply si_fresh0. simpl in Hs. destruct (decide (w' = w)) as [->|Hne]; [by rewrite Hw|].
    by rewrite lookup_insert_ne in Hs.
  - intros w'. setoid_rewrite Hsub. simpl. specialize (si_live0 w'). rewrite El, <- Permutation_middle, elem_of_cons in si_live0. split.
    + intros Hin. destruct (proj1 si_live0 (or_intror Hin)) as (pw' & Hs). exists pw'. split; [|done]. by intros ->.
    + intros (pw' & Hne & Hs). destruct (proj2 si_live0 (ex_intro _ pw' Hs)) as [?|?]; done.
  - exact Hnd.
  - intros w' pw' [_ Hs]%Hsub. by eapply si_abort0.
  - intros w' pw' [_ Hs]%Hsub. by apply si_stale0.
Qed.

Lemma processSubmitResult_inv s w pw err before after :
  sub_inv s → submitting s = before ++ w :: after → heap s !! w = Some pw →
  let r := processSubmitResult w pw err (submit_ends w (before ++ after) s) in
  sub_inv r.1 ∧ (∀ id ts di, (StartGeneratePoST id ts di : command post) ∉ r.2) ∧
  ∀ w ts di (ps : list post), StartSubmitPoST w ts di ps ∉ r.2.
Proof.
  intros Hi El Hw. unfold processSubmitResult. destruct err; simpl; (split; [by apply submit_result_inv | split; set_solver]).
Qed.
End Submitter.

(** * The prover *)

Section Prover.
Context `{DlineLaws} {post : Type}.
Implicit Types (p : proveHandler) (c : postsCache post).

(** A proof runs and was not aborted. *)
Definition live p (id : nat) : Prop := is_Some (proving p !! id) ∧ id ∉ proofs_aborted p.

Record prove_inv p : Prop := mkProveInv {
  pi_fresh : ∀ id, is_Some (proving p !! id) → (id < next_post p)%nat;
  pi_current : ∀ cp, current p = Some cp → (cp_id cp < next_post p)%nat;
  pi_aborted : ∀ id, id ∈ proofs_aborted p → (id < next_post p)%nat;
}.

(** Every proof that was not aborted is the current one. *)
Definition exclusive p : Prop := ∀ id, live p id → ∃ cp, current p = Some cp ∧ cp_id cp = id.

Lemma newProver_inv : prove_inv newProver.
Proof. split; simpl; [intros id [? E]; by rewrite lookup_empty in E|done|set_solver]. Qed.

Lemma startGenerate_inv ts di p : prove_inv p → prove_inv (startGeneratePoST ts di p).
Proof.
  intros []. split; simpl.
  - intros id. destruct (decide (id = next_post p)) as [->|Hne]; [lia|]. rewrite lookup_insert_ne by done.
    intros Hs. specialize (pi_fresh0 id Hs). lia.
  - intros cp [= <-]. simpl. lia.
  - intros id Hin. specialize (pi_aborted0 id Hin). lia.
Qed.

Lemma abort_current_inv cp p : prove_inv p → current p = Some cp → prove_inv (abort_current cp p).
Proof.
  intros [] E. split; simpl; [done|done|]. intros id [->%elem_of_singleton|Hin]%elem_of_union; [by apply pi_current0 | auto].
Qed.

(** What [StartGeneratePoST id ts di] asks for. *)
Definition proof_ok c (newTS : TipSet) (di0 : dline) p p' (id : nat) (ts : TipSet) (di : dline) : Prop :=
  ts = newTS ∧ Challenge di + ChallengeConfidence <= ts_height ts ∧ first_unproved di0 di c ∧
  id = next_post p ∧ current p' = Some (mkCurrentPost id di) ∧ proving p' = <[id := (ts, di)]> (proving p).

Lemma prove_if_due_spec ts di c p : dline_wf di → prove_inv p →
  let r := prove_if_due ts di c p in
  prove_inv r.1 ∧ (current p = None → exclusive p → exclusive r.1) ∧
  (∀ w ts di (ps : list post), StartSubmitPoST w ts di ps ∉ r.2) ∧
  ∀ id ts' di', StartGeneratePoST id ts' di' ∈ r.2 → proof_ok c ts di p r.1 id ts' di'.
Proof.
  intros Hwf Hi. unfold prove_if_due. set (di1 := next_unproved _ _ _).
  destruct (Z.ltb_spec (ts_height ts) (Challenge di1 + ChallengeConfidence)); simpl.
  { split_and!; [done|done|set_solver|]. intros ? ? ? Hin. by apply not_elem_of_nil in Hin. }
  split_and!; [by apply startGenerate_inv| |set_solver|].
  - intros En Hex id [Hs Ha]. simpl in *. destruct (decide (id = next_post p)) as [->|Hne]; [by eexists|].
    rewrite lookup_insert_ne in Hs by done. destruct (Hex id) as (cp & Ec & _); [done|]. congruence.
  - intros id ts' di' Hin%list_elem_of_singleton. injection Hin as -> -> ->. split_and!; try done. by apply next_unproved_spec.
Qed.

Lemma prove_head_spec ts di c p : dline_wf di → prove_inv p →
  let r := prove_processHeadChange ts di c p in
  prove_inv r.1 ∧ (exclusive p → exclusive r.1) ∧
  (∀ w ts di (ps : list post), StartSubmitPoST w ts di ps ∉ r.2) ∧
  ∀ id ts' di', StartGeneratePoST id ts' di' ∈ r.2 → proof_ok c ts di p r.1 id ts' di'.
Proof.
  intros Hwf Hi. unfold prove_processHeadChange. destruct (current p) as [cp|] eqn:Ec.
  - destruct (Z.leb_spec (dl_Close (cp_di cp)) (ts_height ts)).
    + destruct (prove_if_due_spec ts di c (abort_current cp p) Hwf (abort_current_inv cp p Hi Ec)) as (Q1 & Q2 & Q3 & Q4).
      destruct (prove_if_due ts di c (abort_current cp p)) as [p1 cmds]. simpl in *. split_and!; [done| |set_solver|].
      * intros Hex. apply Q2; [done|]. intros id [Hs Ha]. simpl in *. exfalso.
        destruct (Hex id) as (cp' & Ec' & <-); [split; [done|set_solver]|]. assert (cp' = cp) as -> by congruence. set_solver.
      * intros id ts' di' [?|Hin]%elem_of_cons; [done|]. by apply Q4.
    + split_and!; [done|done|set_solver|]. intros ? ? ? Hin. by apply not_elem_of_nil in Hin.
  - destruct (prove_if_due_spec ts di c p Hwf Hi) as (Q1 & Q2 & Q3 & Q4). split_and!; [done|by apply Q2|done|done].
Qed.

Lemma proof_ends_inv id p : prove_inv p → prove_inv (proof_ends id p).
Proof. intros []. split; simpl; [|done|done]. intros id' [? E%lookup_delete_Some]. apply pi_fresh0. destruct E as [_ E]. by rewrite E. Qed.

Lemma set_current_none_inv p : prove_inv p → prove_inv (set_current p None).
Proof. intros []. by split. Qed.

(** An aborted proof that reports a success clears the current one. *)
Lemma processPostResult_spec id ts di res c p : prove_inv p → proving p !! id = Some (ts, di) →
  let r := processPostResult id ts di res c (proof_ends id p) in
  prove_inv r.1.1 ∧ (exclusive p → (is_Some res → id ∉ proofs_aborted p) → exclusive r.1.1) ∧
  (∀ w ts di (ps : list post), StartSubmitPoST w ts di ps ∉ r.2) ∧ (∀ id ts di, StartGeneratePoST id ts di ∉ r.2).
Proof.
  intros Hi Hp. pose proof (proof_ends_inv id p Hi) as Hi'.
  assert (Hlive : ∀ o id', live (set_current (proof_ends id p) o) id' → id' ≠ id ∧ live p id').
  { intros o id' [[? E] Ha]. simpl in *. apply lookup_delete_Some in E as [? E]. split; [done|]. split; [by rewrite E | done]. }
  destruct res as [ps|]; simpl; split_and!; try set_solver.
  - by apply set_current_none_inv.
  - intros Hex Ha id' [Hne Hl]%Hlive. destruct (Hex id' Hl) as (cp & Ec & <-). destruct (Hex id) as (cp' & Ec' & <-);
      [split; [by rewrite Hp | by apply Ha]|]. congruence.
  - destruct (current p) as [cp|]; [|done]. destruct (Nat.eqb _ _); [by apply set_current_none_inv|done].
  - intros Hex _ id' Hl. assert (Hn : id' ≠ id ∧ live p id').
    { apply (Hlive (current p)). destruct (current p) as [cp|]; [destruct (Nat.eqb _ _)|]; done. }
    destruct Hn as [Hne Hl']. destruct (Hex id' Hl') as (cp & Ec & <-). exists cp. rewrite Ec in *. simpl.
    destruct (Nat.eqb_spec (cp_id cp) id) as [<-|?]; done.
Qed.

(** * When proofs start *)

(** No proof stands in the way: there is none, or its window has closed. *)
Definition prover_free (ts : TipSet) p : Prop := ∀ cp, current p = Some cp → dl_Close (cp_di cp) <= ts_height ts.

Lemma first_unproved_unique di d d' c : first_unproved di d c → first_unproved di d' c → d = d'.
Proof.
  intros (Hn & k & -> & Hk) (Hn' & k' & -> & Hk'). destruct (lt_eq_lt_dec k k') as [[Hlt| ->]|Hlt]; [|done|].
  - destruct (Hk' k Hlt) as [? E]. congruence.
  - destruct (Hk k' Hlt) as [? E]. congruence.
Qed.

Lemma prove_if_due_starts ts di c p id ts' di' : dline_wf di →
  StartGeneratePoST id ts' di' ∈ (prove_if_due ts di c p).2 ↔
  ts' = ts ∧ first_unproved di di' c ∧ Challenge di' + ChallengeConfidence <= ts_height ts ∧ id = next_post p.
Proof.
  intros Hwf. unfold prove_if_due. pose proof (next_unproved_spec di c Hwf) as Hf. set (di1 := next_unproved _ _ _) in *.
  destruct (Z.ltb_spec (ts_height ts) (Challenge di1 + ChallengeConfidence)); simpl.
  - split; [intros Hin; by apply not_elem_of_nil in Hin|]. intros (-> & Hf' & ? & _). rewrite (first_unproved_unique _ _ _ _ Hf' Hf) in *. lia.
  - rewrite list_elem_of_singleton. split; [by intros [= -> -> ->]|]. intros (-> & Hf' & ? & ->). by rewrite (first_unproved_unique _ _ _ _ Hf' Hf).
Qed.

Lemma prove_starts ts di c p id ts' di' : dline_wf di →
  StartGeneratePoST id ts' di' ∈ (prove_processHeadChange ts di c p).2 ↔
  prover_free ts p ∧ ts' = ts ∧ first_unproved di di' c ∧ Challenge di' + ChallengeConfidence <= ts_height ts ∧ id = next_post p.
Proof.
  intros Hwf. unfold prove_processHeadChange, prover_free. destruct (current p) as [cp|].
  - destruct (Z.leb_spec (dl_Close (cp_di cp)) (ts_height ts)).
    + pose proof (prove_if_due_starts ts di c (abort_current cp p) id ts' di' Hwf) as Hd.
      destruct (prove_if_due ts di c (abort_current cp p)) as [p1 cmds]. simpl in *. rewrite elem_of_cons, Hd. split.
      * intros [?|Hr]; [done|]. split; [|done]. by intros ? [= <-].
      * intros [_ Hr]. by right.
    + split; [intros Hin; by apply not_elem_of_nil in Hin|]. intros [Hfree _]. specialize (Hfree cp eq_refl). lia.
  - rewrite prove_if_due_starts by done. split; [|tauto]. intros ?. split; [done|done].
Qed.

(** The proofs that run were started. *)
Lemma proving_started ts di c p id x : proving (prove_processHeadChange ts di c p).1 !! id = Some x →
  proving p !! id = Some x ∨ StartGeneratePoST id x.1 x.2 ∈ (prove_processHeadChange ts di c p).2.
Proof.
  assert (Hd : ∀ q, proving (prove_if_due ts di c q).1 !! id = Some x →
    proving q !! id = Some x ∨ StartGeneratePoST id x.1 x.2 ∈ (prove_if_due ts di c q).2).
  { intros q. unfold prove_if_due. destruct (_ <? _); simpl; [by left|].
    intros [[<- <-]|[_ ?]]%lookup_insert_Some; [right; by apply list_elem_of_singleton|by left]. }
  unfold prove_processHeadChange. destruct (current p) as [cp|]; [|apply Hd]. destruct (_ <=? _); [|by left].
  specialize (Hd (abort_current cp p)). destruct (prove_if_due ts di c (abort_current cp p)) as [p1 cmds]. simpl in *.
  intros [?|?]%Hd; [by left|right; by right].
Qed.
End Prover.
