(* ===== verification/WdPostTheorems.v ===== *)
(** The theorems on the window PoSt change handler, with their examples. *)

From S2P Require Import Prelude Types Tipset ChainIndex WdPost WdPostProps.

Section System.
Context `{DlineLaws} {post : Type}.
Implicit Types (s : changeHandler post).

Definition wd_inv s : Prop := sub_inv (submitHdlr s) ∧ prove_inv (proveHdlr s).

(** An aborted proof reports a success. *)
Definition stale_success s s' : Prop :=
  ∃ id ts di ps, proving (proveHdlr s) !! id = Some (ts, di) ∧ id ∈ proofs_aborted (proveHdlr s) ∧
    processPostResult id ts di (Some ps) (posts s) (proof_ends id (proveHdlr s)) = (proveHdlr s', posts s', []).

Definition timely_step s s' : Prop := (∃ e cmds, wd_step s e cmds s') ∧ ¬ stale_success s s'.

(** A step as each part sees it. *)
Lemma wd_step_spec s e cmds s' : wd_inv s → wd_step s e cmds s' →
  wd_inv s' ∧ (exclusive (proveHdlr s) → ¬ stale_success s s' → exclusive (proveHdlr s')) ∧
  (∀ w ts di ps, StartSubmitPoST w ts di ps ∈ cmds → start_ok (posts s) (submitHdlr s) (submitHdlr s') ts di ps) ∧
  (∀ id ts di, StartGeneratePoST id ts di ∈ cmds →
     ∃ di0, e = ProverHead ts di0 ∧ dline_wf di0 ∧ proof_ok (posts s) ts di0 (proveHdlr s) (proveHdlr s') id ts di).
Proof.
  intros Hi Hst. revert Hi. destruct Hst as [ts di p s0 c p' cmds0 Hwf E|id ts di res p s0 c p' c' cmds0 Hid E|range revert advance di p s0 c s1 cmds0 Hwf Hr E
                 |di ps rest p s0 c s1 cmds0 Ha E|w pw err before after p s0 c s1 cmds0 El Hw E]; intros [Hs Hp]; simpl in *.
  - destruct (prove_head_spec ts di c p Hwf Hp) as (Q1 & Q2 & Q3 & Q4). rewrite E in *. simpl in *.
    split_and!; [done|auto|by intros w t d l Hin; apply Q3 in Hin|]. intros id t d Hin. exists di.
    destruct (Q4 id t d Hin) as [-> ?]. done.
  - destruct (processPostResult_spec id ts di res c p Hp Hid) as (Q1 & Q2 & Q3 & Q4). rewrite E in *. simpl in *.
    split_and!; [done| |by intros w t d l Hin; apply Q3 in Hin|by intros i t d Hin; apply Q4 in Hin].
    intros Hex Hst. apply Q2; [done|]. intros [l ->] Hin. apply Hst. exists id, ts, di, l. simpl in *. split_and!; [done..|].
    by injection E as <- <- <-.
  - destruct (submit_processHeadChange_spec range revert advance di c s0 Hr Hs) as [(Q1 & _ & Q2 & Q3) _]. rewrite E in *. simpl in *.
    split_and!; [done|auto|done|by intros i t d Hin; apply Q2 in Hin].
  - destruct (processPostReady_good di (cache_taken rest c) s0 Hs) as (Q1 & _ & Q2 & Q3). rewrite E in *. simpl in *.
    split_and!; [done|auto|exact Q3|by intros i t d Hin; apply Q2 in Hin].
  - destruct (processSubmitResult_inv (post := post) s0 w pw err before after Hs El Hw) as (Q1 & Q2 & Q3). rewrite E in *. simpl in *.
    split_and!; [done|auto|by intros i t d l Hin; apply Q3 in Hin|by intros i t d Hin; apply Q2 in Hin].
Qed.

Lemma new_inv : wd_inv newChangeHandler.
Proof. split; [apply newSubmitter_inv | apply newProver_inv]. Qed.

Lemma wd_reachable s : wd_steps newChangeHandler s → wd_inv s.
Proof.
  intros Hr. revert Hr. apply (rtc_ind_r (fun s => wd_inv s)); [apply new_inv|].
  intros y z _ (e & cmds & Hs) Hi. by apply (wd_step_spec y e cmds z).
Qed.

Lemma timely_reachable s : rtc timely_step newChangeHandler s → wd_inv s ∧ exclusive (proveHdlr s).
Proof.
  intros Hr. revert Hr. apply (rtc_ind_r (fun s => wd_inv s ∧ exclusive (proveHdlr s))).
  - split; [apply new_inv|]. intros id [[? E] _]. simpl in E. by rewrite lookup_empty in E.
  - intros y z _ [(e & cmds & Hs) Hst] [Hi Hex]. destruct (wd_step_spec y e cmds z Hi Hs) as (? & ? & _). auto.
Qed.

(** ** Where cached proofs come from *)

Abbreviation history := (list (wd_event post * list (command post))).

Definition started (tr : history) (id : nat) (ts : TipSet) (di : dline) : Prop :=
  ∃ e cmds, (e, cmds) ∈ tr ∧ StartGeneratePoST id ts di ∈ cmds.

(** The proof [id] was started for [di], and then ended with [ps]. *)
Definition generated (tr : history) (di : dline) (ps : list post) : Prop :=
  ∃ before cmds after id ts, tr = before ++ (ProofDone id (Some ps), cmds) :: after ∧ started before id ts di.

Lemma started_app tr tr' id ts di : started tr id ts di → started (tr ++ tr') id ts di.
Proof. intros (e & cmds & Hin & ?). exists e, cmds. split; [set_solver|done]. Qed.

Lemma generated_app tr tr' di ps : generated tr di ps → generated (tr ++ tr') di ps.
Proof.
  intros (before & cmds & after & id & ts & -> & Hs). exists before, cmds, (after ++ tr'), id, ts. by rewrite <- (assoc_L (++)).
Qed.

Definition traced (tr : history) s : Prop :=
  (∀ id x, proving (proveHdlr s) !! id = Some x → started tr id x.1 x.2) ∧
  (∀ k ps, cache (posts s) !! k = Some ps → ∃ di, dl_Open di = k ∧ generated tr di ps).

Lemma traced_app tr tr' s p : traced tr s → proving p = proving (proveHdlr s) →
  ∀ sub c, cache c = cache (posts s) → traced (tr ++ tr') (mkChangeHandler p sub c).
Proof.
  intros [Hp Hc] Ep sub c Ec. split; simpl; rewrite ?Ep, ?Ec.
  - intros id x Hx. by apply started_app, Hp.
  - intros k ps Hk. destruct (Hc k ps Hk) as (di & ? & ?). exists di. split; [done|by apply generated_app].
Qed.

Lemma run_traced tr s : wd_run tr s → traced tr s.
Proof.
  induction 1 as [|tr s e cmds s' _ IH Hst]; [split; intros ? ? E; simpl in E; by rewrite lookup_empty in E|].
  destruct Hst as [ts di p s0 c p' cmds0 Hwf E|id ts di res p s0 c p' c' cmds0 Hid E|range revert advance di p s0 c s1 cmds0 Hwf Hr E
                 |di ps rest p s0 c s1 cmds0 Ha E|w pw err before after p s0 c s1 cmds0 El Hw E];
    [| |by apply (traced_app _ _ _ p IH)..].
  - destruct IH as [Hp Hc]. split; simpl in *.
    + intros i x Hx. destruct (proving_started ts di c p i x) as [?|Hin]; [by rewrite E|by apply started_app, Hp|].
      rewrite E in Hin. exists (ProverHead ts di), cmds0. split; [set_solver|done].
    + intros k l Hk. destruct (Hc k l Hk) as (d & ? & ?). exists d. split; [done|by apply generated_app].
  - destruct IH as [Hp Hc]. simpl in *. assert (Hp' : ∀ i x, delete id (proving p) !! i = Some x → started (tr ++ [(ProofDone id res, cmds0)]) i x.1 x.2).
    { intros i x [_ Hx]%lookup_delete_Some. by apply started_app, Hp. }
    assert (Hc' : ∀ k l, cache c !! k = Some l → ∃ d, dl_Open d = k ∧ generated (tr ++ [(ProofDone id res, cmds0)]) d l).
    { intros k l Hk. destruct (Hc k l Hk) as (d & ? & ?). exists d. split; [done|by apply generated_app]. }
    destruct res as [ps|]; simpl in E; injection E as <- <- <-.
    + split; [exact Hp'|]. simpl. intros k l [[<- <-]|[_ Hk]]%lookup_insert_Some; [|by apply Hc'].
      exists di. split; [done|]. exists tr, [], [], id, ts. split; [done|]. by apply (Hp id (ts, di)).
    + split; [|exact Hc']. simpl. intros i x Hx. apply Hp'. revert Hx. by destruct (match current p with Some _ => _ | None => _ end).
Qed.

Lemma run_steps tr s : wd_run tr s → wd_steps newChangeHandler s.
Proof. induction 1 as [|tr s e cmds s' _ IH Hst]; [apply rtc_refl|]. eapply rtc_r; [exact IH|]. by exists e, cmds. Qed.
End System.

(** * Theorems *)

(** C13: Whatever the order of heads, proofs and results, a submission starts only with
    proofs that a proof reported which was started for a deadline with the same window,
    at a height from [SubmitConfidence] epochs after the window opens until it closes,
    and with every submission that still runs for that window aborted; no window has two
    submissions running. *)
Theorem submissions_sound `{DlineLaws} {post : Type} tr (s s' : changeHandler post) e cmds w ts di ps :
  wd_run tr s → wd_step s e cmds s' → StartSubmitPoST w ts di ps ∈ cmds →
  dl_Open di + SubmitConfidence <= ts_height ts < dl_Close di ∧ ps ≠ [] ∧
  (∃ di0, dl_Open di0 = dl_Open di ∧ generated tr di0 ps) ∧
  NoDup (submitting (submitHdlr s')) ∧
  ∀ w' pw, w' ∈ submitting (submitHdlr s) → heap (submitHdlr s) !! w' = Some pw → dl_Open (pw_di pw) = dl_Open di →
    w' ∈ submits_aborted (submitHdlr s').
Proof.
  intros Hr Hs Hin. pose proof (wd_reachable s (run_steps tr s Hr)) as Hi.
  destruct (wd_step_spec s e cmds s' Hi Hs) as ([Hi' _] & _ & Hst & _).
  destruct (Hst w ts di ps Hin) as (Q1 & Q2 & Q3 & Q4). do 2 (split; [done|]). split; [by apply (run_traced tr s Hr)|]. split; [apply Hi'|].
  intros w' pw Hw E Ho. apply (Q4 w' pw); [|done]. apply Hi in Hw as (pw' & E' & Est). split; [done|]. congruence.
Qed.

(** C26: The prover starts a proof exactly when a head arrives while no proof stands in the
    way, either because there is none or because its window has closed, and the head is
    above the challenge height of the first deadline, from the deadline of the head on,
    that has no proof in the cache; the loop over the cache always finds that deadline.
    The proof is for it, under a fresh identity, and becomes the current one. *)
Theorem proofs_sound `{DlineLaws} {post : Type} (s s' : changeHandler post) e cmds id ts di :
  wd_steps newChangeHandler s → wd_step s e cmds s' →
  (StartGeneratePoST id ts di ∈ cmds ↔
   ∃ di0, e = ProverHead ts di0 ∧ prover_free ts (proveHdlr s) ∧ first_unproved di0 di (posts s) ∧
     Challenge di + ChallengeConfidence <= ts_height ts ∧ id = next_post (proveHdlr s)) ∧
  (StartGeneratePoST id ts di ∈ cmds →
   proving (proveHdlr s) !! id = None ∧ current (proveHdlr s') = Some (mkCurrentPost id di)).
Proof.
  intros Hr Hs. pose proof (wd_reachable s Hr) as Hi. destruct (wd_step_spec s e cmds s' Hi Hs) as (_ & _ & _ & Hg). split.
  - assert (Hhead : ∀ di0, e = ProverHead ts di0 → StartGeneratePoST id ts di ∈ cmds ↔
      prover_free ts (proveHdlr s) ∧ ts = ts ∧ first_unproved di0 di (posts s) ∧
      Challenge di + ChallengeConfidence <= ts_height ts ∧ id = next_post (proveHdlr s)).
    { intros di0 ->. inversion Hs as [? ? p s0 c p' ? Hwf E| | | |]; subst. simpl.
      rewrite <- (prove_starts ts di0 c p id ts di Hwf). by rewrite E. }
    split; [intros Hin; destruct (Hg id ts di Hin) as (di0 & E & _); exists di0; apply (Hhead di0 E) in Hin; tauto|].
    intros (di0 & E & ?). apply (Hhead di0 E). tauto.
  - intros Hin. destruct (Hg id ts di Hin) as (di0 & _ & _ & _ & _ & _ & -> & Q3 & _). split; [|done].
    destruct (proving (proveHdlr s) !! next_post (proveHdlr s)) eqn:E; [|done].
    pose proof (pi_fresh _ (proj2 Hi) _ ltac:(by rewrite E)). lia.
Qed.

(** As long as no aborted proof reports a success, at most one proof runs that was
    not aborted: the current one. *)
Theorem one_proof_at_a_time `{DlineLaws} {post : Type} (s : changeHandler post) id :
  rtc timely_step newChangeHandler s → live (proveHdlr s) id →
  ∃ cp, current (proveHdlr s) = Some cp ∧ cp_id cp = id.
Proof. intros Hr. by apply timely_reachable. Qed.

(** C27: A head change takes every window, its own included, to the state that the
    window alone determines, whatever the order in which the map is ranged over. *)
Theorem head_change_windows `{DlineLaws} {post : Type} range revert advance di (s : changeHandler post) s1 cmds :
  wd_steps newChangeHandler s → (∀ m, range m ≡ₚ (map_to_list m).*2) →
  submit_processHeadChange range revert advance di (posts s) (submitHdlr s) = (s1, cmds) →
  ∀ k, view s1 k =
       window_after revert advance (posts s) <$>
         (if decide (k = dl_Open di) then
            Some (default (mkPostWindow advance di SubmitStateStart false) (view (submitHdlr s) k))
          else view (submitHdlr s) k).
Proof.
  intros Hr Hrange E k. pose proof (wd_reachable s Hr) as [Hi _].
  destruct (submit_processHeadChange_spec range revert advance di (posts s) (submitHdlr s) Hrange Hi) as [_ Hv]. rewrite E in Hv.
  rewrite Hv. f_equal. unfold ensure_window. set (s0 := set_head advance di (submitHdlr s)).
  assert (Hi0 : sub_inv s0) by (eapply good_inv; by apply (set_head_good (posts s) (submitHdlr s) di advance)).
  change (view (submitHdlr s) k) with (view s0 k). destruct (postWindows s0 !! dl_Open di) as [w|] eqn:Ew.
  - destruct (si_track _ Hi0 _ _ Ew) as (pw & Epw & Ek). case_decide as Hk; [subst k|done].
    assert (view s0 (dl_Open di) = Some pw) as -> by (unfold view; by rewrite Ew). done.
  - destruct (track_updates s0 di advance Hi0) as [[Hk Ho] _]. case_decide as Hkd; [subst k|by apply Ho].
    rewrite Hk. assert (view s0 (dl_Open di) = None) as -> by (unfold view; by rewrite Ew). done.
Qed.

(** * Examples *)

Module WdExample.
#[export] Instance mainnet : Dline := {|
  NewInfo start idx now deadlines period window lookback cutoff :=
    mkDline start idx now (start + idx * window) (start + idx * window + window) (start + idx * window - lookback);
  PeriodStarted di := PeriodStart di <=? CurrentEpoch di;
  WPoStPeriodDeadlines := 48;
  WPoStProvingPeriod := 2880;
  WPoStChallengeWindow := 60;
  WPoStChallengeLookback := 20;
  FaultDeclarationCutoff := 70;
|}.

#[export] Instance mainnet_laws : DlineLaws.
Proof. by split. Qed.

Definition at_height (h : Z) : TipSet := mkTipSet [] [] h.

(** The deadline [i] of the period that starts at 0. *)
Definition deadline (i : Z) : dline := NewDeadlineInfo 0 i (60 * i).

Lemma deadline_wf i : 0 <= i < 48 → dline_wf (deadline i).
Proof. intros Hi. by apply NewDeadlineInfo_wf. Qed.

Abbreviation state := (changeHandler string).

Definition prove_at (h i : Z) (s : state) : state :=
  mkChangeHandler (prove_processHeadChange (at_height h) (deadline i) (posts s) (proveHdlr s)).1 (submitHdlr s) (posts s).

Definition proved (id : nat) (h i : Z) (res : option (list string)) (s : state) : state :=
  let r := processPostResult id (at_height h) (deadline i) res (posts s) (proof_ends id (proveHdlr s)) in
  mkChangeHandler r.1.1 (submitHdlr s) r.1.2.

Lemma prove_at_step h i s : 0 <= i < 48 → ∃ e cmds, wd_step s e cmds (prove_at h i s).
Proof. intros Hi. destruct s as [p sh c]. eexists _, _. eapply wd_prove; [by apply deadline_wf|]. apply surjective_pairing. Qed.

Lemma proved_step id h i res s : proving (proveHdlr s) !! id = Some (at_height h, deadline i) →
  ∃ e cmds, wd_step s e cmds (proved id h i res s).
Proof.
  intros Hp. destruct s as [p sh c]. eexists _, _. eapply wd_proved; [exact Hp|]. simpl.
  rewrite (surjective_pairing (processPostResult _ _ _ _ _ _)) at 1. f_equal. apply surjective_pairing.
Qed.

Definition one : state := prove_at 10 0 newChangeHandler.
Definition two : state := prove_at 60 1 one.
Definition three : state := proved 0 10 0 (Some ["proof"%string]) two.
Definition four : state := prove_at 61 1 three.

Lemma run_one : wd_steps newChangeHandler one.
Proof. apply rtc_once. by apply prove_at_step. Qed.

Lemma run_two : wd_steps newChangeHandler two.
Proof. eapply rtc_r; [apply run_one|]. by apply prove_at_step. Qed.

Lemma run_four : wd_steps newChangeHandler four.
Proof.
  eapply rtc_r; [|by apply prove_at_step]. eapply rtc_r; [apply run_two|]. apply proved_step. by vm_compute.
Qed.

Definition submitted : state := proved 0 10 0 (Some ["proof"%string]) one.

Lemma run_submitted : wd_steps newChangeHandler submitted.
Proof. eapply rtc_r; [apply run_one|]. apply proved_step. by vm_compute. Qed.

Lemma history_submitted : ∃ tr, wd_run tr submitted.
Proof.
  eexists. eapply run_step; [eapply (run_step _ newChangeHandler); [apply run_new|]|].
  - by apply (wd_prove (at_height 10) (deadline 0)); [apply deadline_wf|apply surjective_pairing].
  - eapply (wd_proved 0 (at_height 10) (deadline 0) (Some ["proof"%string])); [by vm_compute|reflexivity].
Qed.

Definition range (m : gmap Z nat) : list nat := (map_to_list m).*2.

Definition head_at (h i : Z) (s : state) : submitHandler * list (command string) :=
  submit_processHeadChange range None (at_height h) (deadline i) (posts s) (submitHdlr s).

Lemma head_at_step h i s : 0 <= i < 48 →
  wd_step s (SubmitterHead None (at_height h) (deadline i)) (head_at h i s).2 (mkChangeHandler (proveHdlr s) (head_at h i s).1 (posts s)).
Proof.
  intros Hi. destruct s as [p sh c]. eapply (wd_head range None (at_height h) (deadline i)); [by apply deadline_wf|done|].
  apply surjective_pairing.
Qed.
End WdExample.
Import WdExample.

(** C39: The handler can run two proofs for one deadline, neither of them aborted: an
    aborted proof that still succeeds clears the current one. *)
Theorem stale_proof_overlaps :
  ∃ (s : changeHandler string) id id' ts ts' di,
    wd_steps newChangeHandler s ∧ id ≠ id' ∧ live (proveHdlr s) id ∧ live (proveHdlr s) id' ∧
    proving (proveHdlr s) !! id = Some (ts, di) ∧ proving (proveHdlr s) !! id' = Some (ts', di).
Proof.
  exists four, 1%nat, 2%nat, (at_height 60), (at_height 61), (deadline 1). split; [apply run_four|]. split; [done|].
  unfold live. split_and!; try (apply (bool_decide_unpack _); by vm_compute); by vm_compute.
Qed.

Lemma submissions_sound_witness :
  ∃ tr di, wd_run tr submitted ∧ dl_Open di = 0 ∧ generated tr di ["proof"%string].
Proof.
  destruct history_submitted as [tr Hr]. exists tr.
  destruct (submissions_sound tr submitted _ _ (head_at 10 0 submitted).2 0 (at_height 10) (deadline 0) ["proof"%string] Hr
              (head_at_step 10 0 submitted ltac:(done))) as (_ & _ & (di & ? & ?) & _); [|by exists di].
  assert (E : (head_at 10 0 submitted).2 = [StartSubmitPoST 0 (at_height 10) (deadline 0) ["proof"%string]]) by (by vm_compute).
  rewrite E. by apply list_elem_of_here.
Defined.

Lemma proofs_sound_witness : current (proveHdlr two) = Some (mkCurrentPost 1 (deadline 1)).
Proof.
  apply (proofs_sound one two (ProverHead (at_height 60) (deadline 1))
           (prove_processHeadChange (at_height 60) (deadline 1) (posts one) (proveHdlr one)).2 1 (at_height 60) (deadline 1) run_one).
  - unfold two, prove_at. destruct one as [p sh c]. apply (wd_prove (at_height 60) (deadline 1)); [by apply deadline_wf|].
    apply surjective_pairing.
  - assert (E : (prove_processHeadChange (at_height 60) (deadline 1) (posts one) (proveHdlr one)).2 =
                [AbortProof 0; StartGeneratePoST 1 (at_height 60) (deadline 1)]) by (by vm_compute).
    rewrite E. apply list_elem_of_further, list_elem_of_here.
Defined.

Lemma one_proof_at_a_time_witness : live (proveHdlr one) 0 ∧ ∃ cp, current (proveHdlr one) = Some cp ∧ cp_id cp = 0%nat.
Proof.
  assert (Hl : live (proveHdlr one) 0) by (split; apply (bool_decide_unpack _); by vm_compute). split; [done|].
  apply (one_proof_at_a_time one 0); [|done]. apply rtc_once. split; [by apply prove_at_step|].
  intros (id & ts & di & ps & E & _). vm_compute in E. by destruct id.
Defined.

Lemma head_change_windows_witness :
  view (head_at 10 0 submitted).1 0 =
  Some (mkPostWindow (at_height 10) (deadline 0) SubmitStateSubmitting true).
Proof.
  rewrite (head_change_windows range None (at_height 10) (deadline 0) submitted _ (head_at 10 0 submitted).2 run_submitted
             (fun m => Permutation_refl _) (surjective_pairing _)). by vm_compute.
Defined.
