(* ===== verification/WdPostRun.v ===== *)
(** What the window PoSt scheduler runs (src/storage/wdpost/wdpost_run.go,
    wdpost_run_faults.go): the batches of partitions, the cycle that proves them with its
    retries, submissions, recoveries and faults.

    Calls of the node, the prover, the verifier and the message pool read and change a
    world [W], and may fail or panic; the functions are in the monad [M] of such
    computations.  Logging, the journal, timers and the environment variables of the
    process are left out, but for the numbers of [PARTITIONS] and the flag [PLEDGE_MINER],
    which are arguments. *)

From S2P Require Import Prelude Types Tipset ChainIndex WdPost.

(** * Computations *)

Inductive outcome (A : Type) :=
  | Ret (a : A)
  | Fail (e : string)
  | Panic
  | OutOfFuel.
Arguments Ret {A}.
Arguments Fail {A}.
Arguments Panic {A}.
Arguments OutOfFuel {A}.

Definition M (W A : Type) : Type := W → outcome A * W.

Definition ret {W A} (a : A) : M W A := fun w => (Ret a, w).
Definition fail {W A} (e : string) : M W A := fun w => (Fail e, w).

Definition bind {W A B} (m : M W A) (k : A → M W B) : M W B := fun w =>
  match m w with
  | (Ret a, w) => k a w
  | (Fail e, w) => (Fail e, w)
  | (Panic, w) => (Panic, w)
  | (OutOfFuel, w) => (OutOfFuel, w)
  end.

(** An error that the code looks at. *)
Definition attempt {W A} (m : M W A) : M W (option A) := fun w =>
  match m w with
  | (Ret a, w) => (Ret (Some a), w)
  | (Fail _, w) => (Ret None, w)
  | (Panic, w) => (Panic, w)
  | (OutOfFuel, w) => (OutOfFuel, w)
  end.

(** An error value, returned to the caller. *)
Definition lift {W A} (r : result string A) : M W A := match r with Ok a => ret a | Err e => fail e end.

Declare Scope wd_scope.
Delimit Scope wd_scope with wd.
Notation "'let!' x := m 'in' k" := (bind m (fun x => k)) (at level 200, x pattern, m at level 100, k at level 200) : wd_scope.
Open Scope wd_scope.

(** * Sectors *)

(** go-bitfield: sets of sector numbers, whose encoding may be malformed. *)
Class BitFields := {
  bitfield : Type;
  bf_New : bitfield;
  bf_Set : Z → bitfield → bitfield;
  bf_Copy : bitfield → result string bitfield;
  SubtractBitField : bitfield → bitfield → result string bitfield;
  MergeBitFields : bitfield → bitfield → result string bitfield;
  bf_Count : bitfield → result string Z;
  bf_All : bitfield → result string (list Z);
  NewFromSet : list Z → bitfield;
}.

(** What the operations do on sets; [bf_All] is in ascending order. *)
Class BitFieldLaws `{BitFields} := {
  bits : bitfield → gset Z;
  bits_New : bits bf_New = ∅;
  bits_Set n b : bits (bf_Set n b) = {[n]} ∪ bits b;
  bits_Copy a b : bf_Copy a = Ok b → bits b = bits a;
  bits_Subtract a b c : SubtractBitField a b = Ok c → bits c = bits a ∖ bits b;
  bits_Merge a b c : MergeBitFields a b = Ok c → bits c = bits a ∪ bits b;
  bits_Count a n : bf_Count a = Ok n → n = Z.of_nat (size (bits a));
  bits_All a l : bf_All a = Ok l → NoDup l ∧ list_to_set l = bits a;
  bits_NewFromSet l : bits (NewFromSet l) = list_to_set l;
}.

Record SectorOnChainInfo := mkSectorInfo {
  SectorNumber : Z;
  SealProof : Z;
  SealedCID : cid;
  SectorKeyCID : option cid;
}.

(** [proof7.ExtendedSectorInfo] has the same fields. *)
Abbreviation ExtendedSectorInfo := SectorOnChainInfo (only parsing).

(** * Checks of past deadlines *)

(** The deadline that [ComputePoSt] checks: the index is a uint64, and so is the difference,
    which is converted to an int64. *)
Definition ComputePoSt_deadline `{Dline} (dl : dline) (dlIdx : Z) : dline :=
  let curIdx := Index dl in
  let dlDiff := wrapu64 (dlIdx - curIdx) in
  let '(dlDiff, start) :=
    if curIdx <? dlIdx then (wrapu64 (dlDiff - WPoStPeriodDeadlines), PeriodStart dl - WPoStProvingPeriod)
    else (dlDiff, PeriodStart dl) in
  let epochDiff := (Z.quot WPoStProvingPeriod WPoStPeriodDeadlines) * wrap64 dlDiff in
  mkDline start dlIdx (CurrentEpoch dl) (dl_Open dl) (dl_Close dl) (Challenge dl + epochDiff).

Section Run.
Context `{BitFields} {W : Type} {proof : Type}.

Record Partition := mkPartition {
  AllSectors : bitfield;
  FaultySectors : bitfield;
  RecoveringSectors : bitfield;
  LiveSectors : bitfield;
  ActiveSectors : bitfield;
}.

Record PoStPartition := mkPoStPartition { pp_Index : Z; Skipped : bitfield }.

Record SubmitWindowedPoStParams := mkSubmitParams {
  Deadline : Z;
  Partitions : list PoStPartition;
  Proofs : list proof;
  ChainCommitEpoch : Z;
  ChainCommitRand : bytes;
}.

(** The configuration of the scheduler. *)
Record wd_config := mkWdConfig {
  disablePreChecks : bool;
  maxPartitionsPerPostMessage : Z;
  maxPartitionsPerRecoveryMessage : Z;
  singleRecoveringPartitionPerPostMessage : bool;
  RecoveringSectorLimit : Z;
  PARTITIONS : list Z;
  PLEDGE_MINER : bool;
}.

(** What the scheduler calls. *)
Record services := mkServices {
  ChainHead : M W TipSet;
  GetRandomnessFromBeacon : Z → TipSet → M W bytes;
  GetRandomnessFromTickets : Z → TipSet → M W bytes;
  StateMinerPartitions : Z → TipSet → M W (list Partition);
  (** at a tipset, or at the head *)
  StateNetworkVersion : option TipSet → M W Z;
  StateMinerSectors : bitfield → TipSet → M W (list SectorOnChainInfo);
  CheckProvable : list SectorOnChainInfo → (Z → option (cid * bool)) → M W (list Z);
  ReacquireSectors : M W unit;
  (** the proofs, the skipped sectors and whether it failed *)
  GenerateWindowPoSt : list ExtendedSectorInfo → bytes → M W (list proof * list Z * bool);
  VerifyWindowPoSt : bytes → list proof → list ExtendedSectorInfo → M W bool;
  ctx_Err : M W bool;
  submitPoStMessage : SubmitWindowedPoStParams → M W cid;
  GetMaxPoStPartitions : Z → result string Z;
  GetDeclarationsMax : Z → result string Z;
}.

Context (cfg : wd_config) (svc : services).

(** ** Batches *)

Fixpoint batch_loop (partitionsPerMsg : Z) (partitions : list Partition) (batches : list (list Partition))
    (currBatch : list Partition) : result string (list (list Partition)) :=
  match partitions with
  | [] => Ok (if decide (0 < length currBatch)%nat then batches ++ [currBatch] else batches)
  | p :: partitions =>
      let? recSectors := bf_Count (RecoveringSectors p) in
      if singleRecoveringPartitionPerPostMessage cfg && (0 <? recSectors) then
        let batches := if decide (0 < length currBatch)%nat then batches ++ [currBatch] else batches in
        batch_loop partitionsPerMsg partitions (batches ++ [[p]]) []
      else if partitionsPerMsg <=? Z.of_nat (length currBatch) then
        batch_loop partitionsPerMsg partitions (batches ++ [currBatch]) [p]
      else batch_loop partitionsPerMsg partitions batches (currBatch ++ [p])
  end.

Definition partitions_per_message (nv : Z) : result string Z :=
  let? perMsg := GetMaxPoStPartitions svc nv in
  let? declMax := GetDeclarationsMax svc nv in
  let perMsg := if declMax <? perMsg then declMax else perMsg in
  Ok (if (0 <? maxPartitionsPerPostMessage cfg) && (maxPartitionsPerPostMessage cfg <? perMsg)
      then maxPartitionsPerPostMessage cfg else perMsg).

Definition BatchPartitions (partitions : list Partition) (nv : Z) : result string (list (list Partition)) :=
  let? partitionsPerMsg := partitions_per_message nv in
  batch_loop partitionsPerMsg partitions [] [].

(** ** Sectors to prove *)

(** The map from sector numbers, filled in order. *)
Definition sector_map {A} (f : SectorOnChainInfo → A) (infos : list SectorOnChainInfo) : gmap Z A :=
  foldl (fun m i => <[SectorNumber i := f i]> m) ∅ infos.

(** The order in which the remaining sectors are ranged over. *)
Context (range_sectors : gmap Z (cid * bool) → list Z).

Definition checkSectors (check : bitfield) (ts : TipSet) : M W bitfield :=
  let! sectorInfos := StateMinerSectors svc check ts in
  let sectors := sector_map (fun i => (SealedCID i, if SectorKeyCID i then true else false)) sectorInfos in
  let! bad := CheckProvable svc sectorInfos (fun n => sectors !! n) in
  let sectors := foldl (fun m n => delete n m) sectors bad in
  ret (foldl (fun b n => bf_Set n b) bf_New (range_sectors sectors)).

Definition sectorsForProof (goodSectors allSectors : bitfield) (ts : TipSet) : M W (list ExtendedSectorInfo) :=
  let! sset := StateMinerSectors svc goodSectors ts in
  match sset with
  | [] => ret []
  | substitute :: _ =>
      let sectorByID := sector_map id sset in
      let! all := lift (bf_All allSectors) in
      ret ((fun n => default substitute (sectorByID !! n)) <$> all)
  end.

(** ** The cycle *)

Definition count_or_zero (b : bitfield) : Z := match bf_Count b with Ok n => n | Err _ => 0 end.

(** The sectors are acquired again before the last partition of a batch is proved, when
    some of it are not active. *)
Definition reacquire (partition : Partition) (last : bool) (addsector : bool) : M W bool :=
  if negb addsector && last && negb (PLEDGE_MINER cfg)
     && (count_or_zero (ActiveSectors partition) + count_or_zero (RecoveringSectors partition) <? count_or_zero (LiveSectors partition))
  then let! r := attempt (ReacquireSectors svc) in ret (if r then true else addsector)
  else ret addsector.

(** The sectors of a partition to prove, and those to skip. *)
Definition partition_sectors (manual : bool) (ts : TipSet) (postSkipped : bitfield) (p : Partition) : M W (bitfield * bitfield) :=
  let! toProve := lift (SubtractBitField (LiveSectors p) (FaultySectors p)) in
  let toProve := if manual then LiveSectors p else toProve in
  let! toProve := lift (MergeBitFields toProve (RecoveringSectors p)) in
  let! good := lift (bf_Copy toProve) in
  let! good := if disablePreChecks cfg then ret good else checkSectors toProve ts in
  let! good := lift (SubtractBitField good postSkipped) in
  let! skipped := lift (SubtractBitField toProve good) in
  let! _ := lift (bf_Count skipped) in
  ret (good, skipped).

(** The loop over the partitions of a batch of [n]: [addsector], the partitions and the sectors. *)
Fixpoint collect (manual : bool) (ts : TipSet) (n startIdx : Z) (postSkipped : bitfield) (partIdx : Z) (batch : list Partition)
    (addsector : bool) (partitions : list PoStPartition) (xsinfos : list ExtendedSectorInfo) :
    M W (bool * list PoStPartition * list ExtendedSectorInfo) :=
  match batch with
  | [] => ret (addsector, partitions, xsinfos)
  | p :: batch =>
      if negb (bool_decide (PARTITIONS cfg = [])) && negb (bool_decide (partIdx ∈ PARTITIONS cfg)) then
        collect manual ts n startIdx postSkipped (partIdx + 1) batch addsector partitions xsinfos
      else
        let! addsector := reacquire p (partIdx =? n - 1) addsector in
        let! (good, skipped) := partition_sectors manual ts postSkipped p in
        let! ssi := sectorsForProof good (AllSectors p) ts in
        match ssi with
        | [] => collect manual ts n startIdx postSkipped (partIdx + 1) batch addsector partitions xsinfos
        | _ => collect manual ts n startIdx postSkipped (partIdx + 1) batch addsector
                 (partitions ++ [mkPoStPartition (startIdx + partIdx) skipped]) (xsinfos ++ ssi)
        end
  end.

(** The randomness and whether sectors were acquired, which outlive a batch. *)
Record cycle_state := mkCycle { cs_rand : bytes; cs_addsector : bool }.

(** The retries of a batch; [None] when there was nothing to prove. *)
Fixpoint prove_batch (fuel : nat) (manual : bool) (di : dline) (ts : TipSet) (startIdx : Z) (batch : list Partition)
    (postSkipped : bitfield) (st : cycle_state) : M W (option (list PoStPartition * list proof) * cycle_state) :=
  match fuel with
  | O => fun w => (OutOfFuel, w)
  | S fuel =>
      let! (addsector, partitions, xsinfos) :=
        collect manual ts (Z.of_nat (length batch)) startIdx postSkipped 0 batch (cs_addsector st) [] [] in
      let st := mkCycle (cs_rand st) addsector in
      match xsinfos with
      | [] => ret (None, st)
      | _ =>
          let! (postOut, ps, failed) := GenerateWindowPoSt svc xsinfos (cs_rand st) in
          if negb failed then
            match postOut with
            | [] => fail "received no proofs back from generate window post"
            | _ =>
                let! headTs := ChainHead svc in
                let! checkRand := GetRandomnessFromBeacon svc (Challenge di) headTs in
                if negb (bool_decide (checkRand = cs_rand st)) then
                  prove_batch fuel manual di ts startIdx batch postSkipped (mkCycle checkRand addsector)
                else
                  let! correct := attempt (VerifyWindowPoSt svc checkRand postOut xsinfos) in
                  match correct with
                  | Some true => ret (Some (partitions, postOut), st)
                  | _ => prove_batch fuel manual di ts startIdx batch postSkipped st
                  end
            end
          else
            match ps with
            | [] => fail "running window post failed"
            | _ =>
                let! aborted := ctx_Err svc in
                if (aborted : bool) then fail "context canceled"
                else prove_batch fuel manual di ts startIdx batch (foldl (fun b n => bf_Set n b) postSkipped ps) st
            end
      end
  end.

(** The loop over the batches; [startIdx] is the number of partitions before them. *)
Fixpoint prove_batches (fuel : nat) (manual : bool) (di : dline) (ts : TipSet) (startIdx : Z) (batches : list (list Partition))
    (st : cycle_state) (posts : list SubmitWindowedPoStParams) : M W (list SubmitWindowedPoStParams) :=
  match batches with
  | [] => ret posts
  | batch :: batches =>
      let! (r, st) := prove_batch fuel manual di ts startIdx batch bf_New st in
      prove_batches fuel manual di ts (startIdx + Z.of_nat (length batch)) batches st
        match r with
        | None => posts
        | Some (partitions, proofs) => posts ++ [mkSubmitParams (Index di) partitions proofs 0 ""]
        end
  end.

(** The deferred [recover]: a panic becomes the zero values of the results. *)
Definition recovered {A} (m : M W (list A)) : M W (list A) := fun w =>
  match m w with
  | (Panic, w) => (Ret [], w)
  | r => r
  end.

(** [fuel] bounds the retries of one batch. The goroutine that [asyncFaultRecover] starts for a
    cycle of the scheduler runs beside the cycle and is a definition of its own below. *)
Definition runPoStCycle (fuel : nat) (manual : bool) (di : dline) (ts : TipSet) : M W (list SubmitWindowedPoStParams) :=
  let! headTs := ChainHead svc in
  let! rand := GetRandomnessFromBeacon svc (Challenge di) headTs in
  let! partitions := StateMinerPartitions svc (Index di) ts in
  let! nv := StateNetworkVersion svc (Some ts) in
  let! partitionBatches := lift (BatchPartitions partitions nv) in
  recovered (prove_batches fuel manual di ts 0 partitionBatches (mkCycle rand false) []).

(** ** Submission *)

(** The messages of [posts]; the last error, if there was one. *)
Fixpoint submit_posts (commEpoch : Z) (commRand : bytes) (posts : list SubmitWindowedPoStParams) (submitErr : bool) : M W bool :=
  match posts with
  | [] => ret submitErr
  | p :: posts =>
      let post := mkSubmitParams (Deadline p) (Partitions p) (Proofs p) commEpoch commRand in
      let! r := attempt (submitPoStMessage svc post) in
      submit_posts commEpoch commRand posts (if r then submitErr else true)
  end.

(** Whether it failed. *)
Definition runSubmitPoST (ts : TipSet) (di : dline) (posts : list SubmitWindowedPoStParams) : M W bool :=
  match posts with
  | [] => ret false
  | _ =>
      let! ver := attempt (StateNetworkVersion svc None) in
      let commEpoch := match ver with Some v => if 4 <=? v then Challenge di else dl_Open di | None => dl_Open di end in
      let! commRand := attempt (GetRandomnessFromTickets svc commEpoch ts) in
      match commRand with
      | None => ret true
      | Some commRand => submit_posts commEpoch commRand posts false
      end
  end.

(** ** Recoveries and faults *)

Record SectorDeclaration := mkDeclaration { sd_Deadline : Z; sd_Partition : Z; Sectors : bitfield }.

(** The last batch gets the declaration, or a new one when it is full. *)
Definition add_declaration (d : SectorDeclaration) (batches : list (list SectorDeclaration)) : list (list SectorDeclaration) :=
  let cur := default [] (last batches) in
  if (0 <? maxPartitionsPerRecoveryMessage cfg) && (maxPartitionsPerRecoveryMessage cfg <=? Z.of_nat (length cur))
  then batches ++ [[d]]
  else removelast batches ++ [cur ++ [d]].

(** The loop of [declareRecoveries]; uint64 sums of counts do not wrap. *)
Fixpoint recovery_loop (ts : TipSet) (dlIdx partIdx : Z) (partitions : list Partition) (batches : list (list SectorDeclaration)) (total : Z) :
    M W (list (list SectorDeclaration) * Z) :=
  match partitions with
  | [] => ret (batches, total)
  | p :: partitions =>
      let! unrecovered := lift (SubtractBitField (FaultySectors p) (RecoveringSectors p)) in
      let! uc := lift (bf_Count unrecovered) in
      if uc =? 0 then recovery_loop ts dlIdx (partIdx + 1) partitions batches total
      else
        let! recovered := checkSectors unrecovered ts in
        let! recoveredCount := lift (bf_Count recovered) in
        if recoveredCount =? 0 then recovery_loop ts dlIdx (partIdx + 1) partitions batches total
        else
          let limit := RecoveringSectorLimit cfg in
          let declare recovered count :=
            let batches := add_declaration (mkDeclaration dlIdx partIdx recovered) batches in
            let total := total + count in
            if (0 <? limit) && (limit <=? total) then ret (batches, total)
            else recovery_loop ts dlIdx (partIdx + 1) partitions batches total in
          if 0 <? limit then
            if limit <? total then ret (batches, total)
            else if limit - total <? recoveredCount then
              match bf_All recovered with
              | Err _ => ret (batches, total)
              | Ok l => declare (NewFromSet (take (Z.to_nat (limit - total)) l)) (limit - total)
              end
            else declare recovered recoveredCount
          else declare recovered recoveredCount
  end.

(** [push] sends the declarations of a message; [wait] waits for it. *)
Fixpoint send_all {A} (push : A → M W cid) (l : list A) : M W (list cid) :=
  match l with
  | [] => ret []
  | a :: l => let! c := push a in let! cs := send_all push l in ret (c :: cs)
  end.

Definition declareRecoveries (push : list SectorDeclaration → M W cid) (wait : cid → M W unit) (dlIdx : Z)
    (partitions : list Partition) (ts : TipSet) : M W (list (list SectorDeclaration) * list cid) :=
  let! (batches, total) := recovery_loop ts dlIdx 0 partitions [[]] 0 in
  if total =? 0 then ret ([], [])
  else
    let! msgs := send_all push batches in
    let! _ := send_all (fun c => let! _ := wait c in ret c) msgs in
    ret (batches, msgs).

Fixpoint fault_loop (ts : TipSet) (dlIdx partIdx : Z) (partitions : list Partition) (faults : list SectorDeclaration) :
    M W (list SectorDeclaration) :=
  match partitions with
  | [] => ret faults
  | p :: partitions =>
      let! nonFaulty := lift (SubtractBitField (LiveSectors p) (FaultySectors p)) in
      let! good := checkSectors nonFaulty ts in
      let! newFaulty := lift (SubtractBitField nonFaulty good) in
      let! c := lift (bf_Count newFaulty) in
      fault_loop ts dlIdx (partIdx + 1) partitions
        (if c =? 0 then faults else faults ++ [mkDeclaration dlIdx partIdx newFaulty])
  end.

Definition declareFaults (push : list SectorDeclaration → M W cid) (wait : cid → M W unit) (dlIdx : Z)
    (partitions : list Partition) (ts : TipSet) : M W (list SectorDeclaration * option cid) :=
  let! faults := fault_loop ts dlIdx 0 partitions [] in
  match faults with
  | [] => ret ([], None)
  | _ => let! c := push faults in let! _ := wait c in ret (faults, Some c)
  end.

(** ** Manual recoveries *)

(** The sectors by deadline and partition. *)
Fixpoint group_sectors (StateSectorPartition : Z → M W (Z * Z)) (sectors : list Z) (smap : gmap (Z * Z) (list Z)) :
    M W (gmap (Z * Z) (list Z)) :=
  match sectors with
  | [] => ret smap
  | s :: sectors =>
      let! ptx := StateSectorPartition s in
      group_sectors StateSectorPartition sectors (<[ptx := default [] (smap !! ptx) ++ [s]]> smap)
  end.

(** Slicing panics when a bound is negative; the configured limits are not. *)
Fixpoint manual_batches {A} (fuel : nat) (decls : list A) (batches : list (list A)) : M W (list (list A)) :=
  let n := Z.of_nat (length decls) in
  if maxPartitionsPerPostMessage cfg <? n then
    match fuel with
    | O => fun w => (OutOfFuel, w)
    | S fuel =>
        if (n - maxPartitionsPerRecoveryMessage cfg <? 0) || (n - maxPartitionsPerPostMessage cfg <? 0) then fun w => (Panic, w)
        else manual_batches fuel (take (Z.to_nat (n - maxPartitionsPerPostMessage cfg)) decls)
               (batches ++ [drop (Z.to_nat (n - maxPartitionsPerRecoveryMessage cfg)) decls])
    end
  else ret (batches ++ [decls]).

Definition recovery_batches {A} (fuel : nat) (decls : list A) : M W (list (list A)) :=
  if 0 <? maxPartitionsPerRecoveryMessage cfg then manual_batches fuel decls [] else ret [decls].

Definition declareManualRecoveries (range_decls : gmap (Z * Z) (list Z) → list ((Z * Z) * list Z))
    (StateSectorPartition : Z → M W (Z * Z)) (manualRecoveryMsg : list SectorDeclaration → M W cid) (fuel : nat)
    (sectors : list Z) : M W (list cid) :=
  let! smap := group_sectors StateSectorPartition sectors ∅ in
  let decls := (fun '(i, v) => mkDeclaration i.1 i.2 (NewFromSet v)) <$> range_decls smap in
  let! batches := recovery_batches fuel decls in
  send_all manualRecoveryMsg batches.

(** ** Entry points *)

(** The goroutine of [asyncFaultRecover]: recoveries of the deadline after the next; errors are logged. *)
Definition asyncFaultRecover `{Dline} (push : list SectorDeclaration → M W cid) (wait : cid → M W unit) (di : dline)
    (ts : TipSet) : M W unit :=
  let declDeadline := wrapu64 (Index di + 2) mod WPoStPeriodDeadlines in
  let! partitions := attempt (StateMinerPartitions svc declDeadline ts) in
  match partitions with
  | None => ret tt
  | Some partitions => let! _ := attempt (declareRecoveries push wait declDeadline partitions ts) in ret tt
  end.

Definition ComputePoSt `{Dline} (StateMinerProvingDeadline : TipSet → M W dline) (fuel : nat) (dlIdx : Z) (ts : TipSet) :
    M W (list SubmitWindowedPoStParams) :=
  let! dl := StateMinerProvingDeadline ts in
  runPoStCycle fuel true (ComputePoSt_deadline dl dlIdx) ts.
End Run.
