(* ===== verification/WdPostRunProps.v ===== *)
(** What the window PoSt scheduler proves, submits and declares: batches keep the
    partitions, the cycle returns proofs that were verified, recoveries stay within their
    limits. *)

From S2P Require Import Prelude Types Tipset ChainIndex WdPost WdPostProps WdPostTheorems WdPostRun.

Lemma bind_ret {W A B} (m : M W A) (k : A → M W B) w b w' :
  bind m k w = (Ret b, w') → ∃ a w1, m w = (Ret a, w1) ∧ k a w1 = (Ret b, w').
Proof. unfold bind. destruct (m w) as [[a|e| |] w1]; try done. eauto. Qed.

Lemma lift_ret {W A} (r : result string A) (w : W) a w' : lift r w = (Ret a, w') → r = Ok a ∧ w' = w.
Proof. destruct r; simpl; by intros [= <- <-]. Qed.

Lemma attempt_some {W A} (m : M W A) w a w' : attempt m w = (Ret (Some a), w') → m w = (Ret a, w').
Proof. unfold attempt. destruct (m w) as [[b|e| |] w1]; try done. by intros [= <- <-]. Qed.

(** Goes through the computations before the one that returned. *)
Ltac step_ret Hr :=
  let a := fresh "a" in let w := fresh "w" in let Hm := fresh "Hm" in
  apply bind_ret in Hr as (a & w & Hm & Hr).

Section Theory.
Context `{BitFieldLaws} {W proof : Type}.
Context (cfg : wd_config) (svc : services (W := W) (proof := proof)) (range_sectors : gmap Z (cid * bool) → list Z).

(** * Batches *)

Definition recovering (p : Partition) : Prop := ∃ n, bf_Count (RecoveringSectors p) = Ok n ∧ 0 < n.

(** A batch that goes into one message. *)
Record batch_ok (perMsg : Z) (b : list Partition) : Prop := mkBatchOk {
  bo_some : b ≠ [];
  bo_size : Z.of_nat (length b) <= perMsg;
  bo_single : singleRecoveringPartitionPerPostMessage cfg = true → Forall (fun p => ¬ recovering p) b ∨ ∃ p, b = [p];
}.

Lemma closed_batches perMsg batches curr :
  Forall (batch_ok perMsg) batches → (curr ≠ [] → batch_ok perMsg curr) →
  let bs := if decide (0 < length curr)%nat then batches ++ [curr] else batches in
  Forall (batch_ok perMsg) bs ∧ concat bs = concat batches ++ curr.
Proof.
  intros Hb Hc bs. subst bs. destruct (decide _) as [Hl|Hl].
  - rewrite concat_app. simpl. rewrite app_nil_r. split; [|done]. apply Forall_app. split; [done|]. apply Forall_singleton, Hc.
    by intros ->; simpl in Hl; lia.
  - destruct curr; [|simpl in Hl; lia]. by rewrite app_nil_r.
Qed.

Lemma batch_loop_ok perMsg partitions : ∀ batches curr r,
  0 < perMsg → Forall (batch_ok perMsg) batches → Z.of_nat (length curr) <= perMsg →
  (singleRecoveringPartitionPerPostMessage cfg = true → Forall (fun p => ¬ recovering p) curr) →
  batch_loop cfg perMsg partitions batches curr = Ok r →
  Forall (batch_ok perMsg) r ∧ concat r = concat batches ++ curr ++ partitions.
Proof.
  induction partitions as [|p partitions IH]; intros batches curr r Hpos Hb Hl Hs; simpl.
  { intros [= <-]. rewrite app_nil_r. apply closed_batches; [done|]. intros Hne. split; [done|done|]. intros E. left. auto. }
  destruct (closed_batches perMsg batches curr Hb) as [Hbs Ebs]; [intros Hne; split; auto|].
  destruct (bf_Count (RecoveringSectors p)) as [n|e] eqn:En; simpl; [|done].
  assert (Hnot : singleRecoveringPartitionPerPostMessage cfg && (0 <? n) = false →
    singleRecoveringPartitionPerPostMessage cfg = true → ¬ recovering p).
  { intros Ec E (m & Em & Hm). rewrite E, En in *. injection Em as <-. simpl in Ec. apply Z.ltb_ge in Ec. lia. }
  destruct (_ && _) eqn:Ec.
  - intros Hr. apply IH in Hr as [? ->]; [|done| |simpl; lia|by constructor].
    + split; [done|]. rewrite concat_app, Ebs. simpl. by rewrite <- !(assoc_L (++)).
    + apply Forall_app. split; [done|]. apply Forall_singleton. split; [done|simpl; lia|]. intros _. right. by exists p.
  - specialize (Hnot eq_refl). destruct (Z.leb_spec perMsg (Z.of_nat (length curr))) as [Hge|Hlt].
    + assert (curr ≠ []) as Hne by (intros ->; simpl in Hge; lia). rewrite decide_True in Hbs, Ebs by (destruct curr; simpl; [done|lia]).
      intros Hr. apply IH in Hr as [? ->]; [|done|done|simpl; lia|intros E; apply Forall_singleton; auto].
      split; [done|]. rewrite Ebs. by rewrite <- !(assoc_L (++)).
    + intros Hr. apply IH in Hr as [? ->]; [|done|done|rewrite length_app; simpl; lia|].
      * split; [done|]. by rewrite <- !(assoc_L (++)).
      * intros E. apply Forall_app. split; [auto|]. apply Forall_singleton. auto.
Qed.

Lemma batch_loop_concat perMsg partitions : ∀ batches curr r,
  batch_loop cfg perMsg partitions batches curr = Ok r → concat r = concat batches ++ curr ++ partitions.
Proof.
  assert (Hclose : ∀ batches curr, concat (if decide (0 < length curr)%nat then batches ++ [curr] else batches) =
    concat batches ++ (curr : list Partition)).
  { intros batches curr. destruct (decide _) as [Hl|Hl]; [by rewrite concat_app; simpl; rewrite app_nil_r|].
    destruct curr; [by rewrite app_nil_r | simpl in Hl; lia]. }
  induction partitions as [|p partitions IH]; intros batches curr r; simpl.
  { intros [= <-]. by rewrite app_nil_r. }
  destruct (bf_Count (RecoveringSectors p)) as [n|e]; simpl; [|done].
  destruct (_ && _); [|destruct (_ <=? _)]; intros Hr; apply IH in Hr as ->; rewrite ?concat_app, ?Hclose; simpl;
    by rewrite ?app_nil_r, <- ?(assoc_L (++)).
Qed.

(** * Sectors *)

Lemma sector_map_dom {A} (f : SectorOnChainInfo → A) infos :
  dom (sector_map f infos) = list_to_set (SectorNumber <$> infos).
Proof.
  enough (∀ m : gmap Z A, dom (foldl (fun m i => <[SectorNumber i := f i]> m) m infos) =
    list_to_set (SectorNumber <$> infos) ∪ dom m) as Hg by (unfold sector_map; rewrite Hg; set_solver).
  induction infos as [|i infos IH]; intros m; simpl; [set_solver|]. rewrite IH, dom_insert_L. set_solver.
Qed.

Lemma delete_all_dom {A} (l : list Z) : ∀ m : gmap Z A, dom (foldl (fun m n => delete n m) m l) = dom m ∖ list_to_set l.
Proof.
  induction l as [|n l IH]; intros m; simpl; [set_solver|]. rewrite IH, dom_delete_L. set_solver.
Qed.

Lemma set_all_bits l : ∀ b, bits (foldl (fun b n => bf_Set n b) b l) = list_to_set l ∪ bits b.
Proof. induction l as [|n l IH]; intros b; simpl; [set_solver|]. rewrite IH, bits_Set. set_solver. Qed.

Context (range_perm : ∀ m, range_sectors m ≡ₚ (map_to_list m).*1).

(** [checkSectors] keeps the sectors that the node knows and that are not bad. *)
Lemma checkSectors_bits check ts w good w' :
  checkSectors svc range_sectors check ts w = (Ret good, w') →
  ∃ infos bad w1 w2, StateMinerSectors svc check ts w = (Ret infos, w1) ∧
    CheckProvable svc infos (fun n => sector_map (fun i => (SealedCID i, if SectorKeyCID i then true else false)) infos !! n) w1
      = (Ret bad, w2) ∧
    bits good = list_to_set (SectorNumber <$> infos) ∖ list_to_set bad.
Proof.
  intros Hr. unfold checkSectors in Hr. step_ret Hr. step_ret Hr. unfold ret in Hr. injection Hr as <- <-.
  exists a, a0, w0, w1. split_and!; [done|done|]. rewrite set_all_bits, bits_New, range_perm, (right_id_L ∅ (∪)).
  rewrite <- (sector_map_dom (fun i => (SealedCID i, if SectorKeyCID i then true else false))), <- delete_all_dom.
  apply set_eq. intros n. rewrite elem_of_list_to_set, elem_of_dom, list_elem_of_fmap. split.
  - intros ([n' x] & -> & Hin%elem_of_map_to_list). by exists x.
  - intros [x Hx]. exists (n, x). split; [done | by apply elem_of_map_to_list].
Qed.

(** * The cycle *)

(** The positions are ascending and from [lo] to before [hi]. *)
Definition ascending (lo hi : Z) (l : list Z) : Prop := StronglySorted Z.lt l ∧ Forall (fun i => lo <= i < hi) l.

Lemma ascending_nil lo hi : ascending lo hi [].
Proof. split; constructor. Qed.

Lemma ascending_app lo mid hi l l' : lo <= mid <= hi → ascending lo mid l → ascending mid hi l' → ascending lo hi (l ++ l').
Proof.
  intros Hm [Hs Hr] [Hs' Hr']. split.
  - apply StronglySorted_app. split_and!; [|done|done]. intros x y Hx Hy. rewrite Forall_forall in Hr, Hr'.
    specialize (Hr x Hx). specialize (Hr' y Hy). simpl in *. lia.
  - apply Forall_app. split; (eapply Forall_impl; [eassumption|]); simpl; lia.
Qed.

Lemma ascending_widen lo hi hi' l : hi <= hi' → ascending lo hi l → ascending lo hi' l.
Proof. intros Hle [Hs Hr]. split; [done|]. eapply Forall_impl; [exact Hr|]. simpl. lia. Qed.

(** ** What a proof is of *)

(** The sectors of a partition that are to be proved. *)
Definition to_prove (manual : bool) (p : Partition) : gset Z :=
  (if manual then bits (LiveSectors p) else bits (LiveSectors p) ∖ bits (FaultySectors p)) ∪ bits (RecoveringSectors p).

(** The sectors [ss] that are proved for [p]: one for each of its sectors, all of them among
    those that the chain has for [good]; what is to be proved and not in [good] is skipped. *)
Definition sectors_of (manual : bool) (ts : TipSet) (p : Partition) (pp : PoStPartition) (ss : list ExtendedSectorInfo) : Prop :=
  ∃ good infos w w', bits (Skipped pp) = to_prove manual p ∖ bits good ∧
    StateMinerSectors svc good ts w = (Ret infos, w') ∧ ss ⊆ infos ∧ length ss = size (bits (AllSectors p)).

(** The sectors [xs] that are proved for the partitions [parts] of the deadline, in order. *)
Definition proof_of (all : list Partition) (manual : bool) (ts : TipSet) (parts : list PoStPartition)
    (xs : list ExtendedSectorInfo) : Prop :=
  ∃ sss, xs = concat sss ∧
    Forall2 (fun pp ss => ∃ p, all !! Z.to_nat (pp_Index pp) = Some p ∧ sectors_of manual ts p pp ss) parts sss.

Lemma sector_map_in {A} (f : SectorOnChainInfo → A) infos n x :
  sector_map f infos !! n = Some x → ∃ i, i ∈ infos ∧ x = f i.
Proof.
  enough (∀ m : gmap Z A, foldl (fun m i => <[SectorNumber i := f i]> m) m infos !! n = Some x →
    m !! n = Some x ∨ ∃ i, i ∈ infos ∧ x = f i) as Hg.
  { intros [E|?]%Hg; [by rewrite lookup_empty in E|done]. }
  induction infos as [|i infos IH]; intros m; simpl; [by left|].
  intros [[[_ <-]|[_ ?]]%lookup_insert_Some|(i' & ? & ->)]%IH; [right; exists i; split; [left|done]|by left|].
  right. exists i'. split; [by right|done].
Qed.

Lemma sectorsForProof_spec good all ts w ss w' : sectorsForProof svc good all ts w = (Ret ss, w') → ss ≠ [] →
  ∃ infos w1, StateMinerSectors svc good ts w = (Ret infos, w1) ∧ ss ⊆ infos ∧ length ss = size (bits all).
Proof.
  intros Hr Hne. unfold sectorsForProof in Hr. step_ret Hr. destruct a as [|sub infos]; [by injection Hr as <- _|].
  step_ret Hr. apply lift_ret in Hm0 as [Ha ->]. unfold ret in Hr. injection Hr as <- _. destruct (bits_All _ _ Ha) as [Hnd Hs].
  exists (sub :: infos), w0. split_and!; [done| |].
  - intros i Hi. apply list_elem_of_fmap in Hi as (n & -> & _). destruct (sector_map id (sub :: infos) !! n) as [x|] eqn:E; simpl; [|left].
    by apply sector_map_in in E as (i & ? & ->).
  - rewrite length_fmap, <- Hs. symmetry. by apply size_list_to_set.
Qed.

Lemma partition_sectors_spec manual ts sk p w good skipped w' :
  partition_sectors cfg svc range_sectors manual ts sk p w = (Ret (good, skipped), w') →
  bits skipped = to_prove manual p ∖ bits good.
Proof.
  intros Hr. unfold partition_sectors in Hr. step_ret Hr. apply lift_ret in Hm as [H1 ->]. step_ret Hr. apply lift_ret in Hm as [H2 ->].
  step_ret Hr. apply lift_ret in Hm as [_ ->]. step_ret Hr. step_ret Hr. apply lift_ret in Hm0 as [_ ->].
  step_ret Hr. apply lift_ret in Hm0 as [H3 ->]. step_ret Hr. unfold ret in Hr. injection Hr as <- <- _.
  rewrite (bits_Subtract _ _ _ H3), (bits_Merge _ _ _ H2). unfold to_prove. by destruct manual; rewrite ?(bits_Subtract _ _ _ H1).
Qed.

Lemma collect_partitions_spec manual ts n startIdx sk all batch : ∀ pre post partIdx add parts xs w add' parts' xs' w',
  all = pre ++ batch ++ post → Z.of_nat (length pre) = startIdx + partIdx → 0 <= partIdx →
  collect cfg svc range_sectors manual ts n startIdx sk partIdx batch add parts xs w = (Ret (add', parts', xs'), w') →
  (parts = [] ↔ xs = []) → ascending startIdx (startIdx + partIdx) (pp_Index <$> parts) → proof_of all manual ts parts xs →
  (parts' = [] ↔ xs' = []) ∧ ascending startIdx (startIdx + partIdx + Z.of_nat (length batch)) (pp_Index <$> parts') ∧
  proof_of all manual ts parts' xs'.
Proof.
  induction batch as [|p batch IH]; intros pre post partIdx add parts xs w add' parts' xs' w' Eall Hpre Hpos; simpl.
  { unfold ret. intros [= <- <- <- <-] ? ? ?. split; [done|]. by rewrite Z.add_0_r. }
  assert (Hskip : ascending startIdx (startIdx + partIdx) (pp_Index <$> parts) →
    ascending startIdx (startIdx + (partIdx + 1)) (pp_Index <$> parts)) by (apply ascending_widen; lia).
  replace (startIdx + partIdx + Z.of_nat (S (length batch))) with (startIdx + (partIdx + 1) + Z.of_nat (length batch)) by lia.
  assert (Eall' : all = (pre ++ [p]) ++ batch ++ post) by (rewrite Eall, <- (assoc_L (++)); done).
  assert (Hpre' : Z.of_nat (length (pre ++ [p])) = startIdx + (partIdx + 1)) by (rewrite length_app; simpl; lia).
  assert (Hpos' : 0 <= partIdx + 1) by lia.
  destruct (_ && _); [intros Hr Hn Ha Hx; by eapply IH in Hr; eauto|].
  intros Hr Hn Ha Hx. step_ret Hr. step_ret Hr. destruct a0 as [good skipped]. step_ret Hr.
  destruct a0 as [|s ssi]; [by eapply IH in Hr; eauto|].
  eapply IH in Hr; eauto.
  - split; intros E; [by destruct parts | by destruct xs].
  - rewrite fmap_app. eapply ascending_app; [|exact Ha|]; [lia|]. simpl.
    split; [repeat constructor | apply Forall_singleton; lia].
  - destruct Hx as (sss & -> & Hf). exists (sss ++ [s :: ssi]). rewrite concat_app. simpl. rewrite app_nil_r. split; [done|].
    apply Forall2_app; [done|]. constructor; [|constructor]. exists p. simpl. split.
    + rewrite Eall. rewrite lookup_app_r by lia. replace (Z.to_nat (startIdx + partIdx) - length pre)%nat with 0%nat by lia. done.
    + apply partition_sectors_spec in Hm0. destruct (sectorsForProof_spec _ _ _ _ _ _ Hm1 ltac:(done)) as (infos & w3 & ? & ? & ?).
      by exists good, infos, w1, w3.
Qed.

(** What the cycle returns for a batch: a proof of partitions of it that was generated for a
    challenge, and verified against it when the chain, asked for its head and the challenge
    after the proof was generated, still had that challenge. *)
Record proved_ok (all : list Partition) (manual : bool) (di : dline) (ts : TipSet) (lo hi : Z)
    (partitions : list PoStPartition) (proofs : list proof) : Prop := mkProvedOk {
  po_partitions : partitions ≠ [];
  po_proofs : proofs ≠ [];
  po_verified : ∃ rand head xs skipped w w1 w2 w3 w4,
    proof_of all manual ts partitions xs ∧
    GenerateWindowPoSt svc xs rand w = (Ret (proofs, skipped, false), w1) ∧
    ChainHead svc w1 = (Ret head, w2) ∧
    GetRandomnessFromBeacon svc (Challenge di) head w2 = (Ret rand, w3) ∧
    VerifyWindowPoSt svc rand proofs xs w3 = (Ret true, w4);
  po_ascending : ascending lo hi (pp_Index <$> partitions);
}.

Lemma prove_batch_spec fuel manual di ts startIdx all pre batch post : all = pre ++ batch ++ post → Z.of_nat (length pre) = startIdx →
  ∀ sk st w r st' w',
  prove_batch cfg svc range_sectors fuel manual di ts startIdx batch sk st w = (Ret (r, st'), w') →
  ∀ partitions proofs, r = Some (partitions, proofs) →
    proved_ok all manual di ts startIdx (startIdx + Z.of_nat (length batch)) partitions proofs.
Proof.
  intros Eall Hpre. induction fuel as [|fuel IH]; intros sk st w r st' w'; simpl; [done|]. intros Hr partitions proofs ->. step_ret Hr.
  destruct a as [[add parts] xs].
  destruct (collect_partitions_spec manual ts _ startIdx sk all batch pre post 0 _ _ _ _ _ _ _ _ Eall ltac:(lia) ltac:(lia) Hm) as (Hn & Ha & Hx);
    [done|apply ascending_nil|by exists []|]. rewrite Z.add_0_r in Ha.
  destruct xs as [|x xs]; [done|]. step_ret Hr. destruct a as [[postOut ps] failed]. destruct failed; simpl in Hr.
  - destruct ps; [done|]. step_ret Hr. destruct a; [done|]. by eapply IH.
  - destruct postOut as [|pf postOut]; [done|]. step_ret Hr. step_ret Hr. case_bool_decide as Erand; simpl in Hr; [|by eapply IH].
    step_ret Hr. destruct a1 as [[|]|]; [|by eapply IH..]. unfold ret in Hr. injection Hr as <- <- <- <-. split; [|done| |done].
    + intros E. by apply Hn in E.
    + apply attempt_some in Hm3. subst a0. by eexists _, _, (x :: xs), _, _, _, _, _, _.
Qed.

Definition post_ok (all : list Partition) (manual : bool) (di : dline) (ts : TipSet) (lo hi : Z)
    (p : SubmitWindowedPoStParams (proof := proof)) : Prop :=
  Deadline p = Index di ∧ proved_ok all manual di ts lo hi (Partitions p) (Proofs p).

(** The positions of all partitions that are proved. *)
Definition proved_positions (ps : list (SubmitWindowedPoStParams (proof := proof))) : list Z :=
  concat ((fun p => pp_Index <$> Partitions p) <$> ps).

Lemma proved_ok_widen all manual di ts lo hi lo' hi' parts proofs :
  lo' <= lo → hi <= hi' → proved_ok all manual di ts lo hi parts proofs → proved_ok all manual di ts lo' hi' parts proofs.
Proof.
  intros ? ? []. split; try done. destruct po_ascending0 as [? Hr]. split; [done|]. eapply Forall_impl; [exact Hr|]. simpl. lia.
Qed.

Lemma prove_batches_spec fuel manual di ts all batches : ∀ pre startIdx st ps w r w',
  all = pre ++ concat batches → Z.of_nat (length pre) = startIdx →
  prove_batches cfg svc range_sectors fuel manual di ts startIdx batches st ps w = (Ret r, w') →
  Forall (post_ok all manual di ts 0 startIdx) ps → ascending 0 startIdx (proved_positions ps) →
  let n := startIdx + Z.of_nat (length (concat batches)) in
  Forall (post_ok all manual di ts 0 n) r ∧ ascending 0 n (proved_positions r).
Proof.
  induction batches as [|batch batches IH]; intros pre startIdx st ps w r w' Eall Hpre; simpl.
  { unfold ret. intros [= <- <-] Hf Ha. by rewrite Z.add_0_r. }
  intros Hr Hf Ha. step_ret Hr. destruct a as [o st']. simpl in Eall.
  pose proof (prove_batch_spec _ _ _ _ _ all pre batch (concat batches) Eall Hpre _ _ _ _ _ _ Hm) as Hp.
  rewrite length_app. replace (startIdx + Z.of_nat (length batch + length (concat batches))) with
    (startIdx + Z.of_nat (length batch) + Z.of_nat (length (concat batches))) by lia.
  assert (Hf' : Forall (post_ok all manual di ts 0 (startIdx + Z.of_nat (length batch))) ps).
  { eapply Forall_impl; [exact Hf|]. intros q [? ?]. split; [done|]. eapply proved_ok_widen; [| |done]; lia. }
  eapply (IH (pre ++ batch)); [by rewrite <- (assoc_L (++))|rewrite length_app; lia|exact Hr| |]; destruct o as [[parts proofs]|].
  - specialize (Hp _ _ eq_refl). apply Forall_app. split; [done|]. apply Forall_singleton. split; [done|].
    eapply proved_ok_widen; [| |done]; lia.
  - done.
  - unfold proved_positions. rewrite fmap_app, concat_app. simpl. rewrite app_nil_r.
    eapply ascending_app; [|exact Ha|]; [lia|]. apply (po_ascending _ _ _ _ _ _ _ _ (Hp _ _ eq_refl)).
  - eapply ascending_widen; [|exact Ha]. lia.
Qed.

(** * Recoveries *)

(** A node returns sectors that were asked for. *)
Context (sectors_filtered : ∀ b ts w infos w', StateMinerSectors svc b ts w = (Ret infos, w') →
  Forall (fun i => SectorNumber i ∈ bits b) infos).

Lemma checkSectors_sub check ts w good w' :
  checkSectors svc range_sectors check ts w = (Ret good, w') → bits good ⊆ bits check.
Proof.
  intros (infos & bad & w1 & w2 & Hi & _ & ->)%checkSectors_bits. apply sectors_filtered in Hi. rewrite Forall_forall in Hi.
  intros n [Hn _]%elem_of_difference. apply elem_of_list_to_set, list_elem_of_fmap in Hn as (i & -> & Hin). by apply Hi.
Qed.

(** A declaration for a partition: faulty sectors of it that are not recovering yet. *)
Definition decl_ok (dlIdx : Z) (partitions : list Partition) (d : SectorDeclaration) : Prop :=
  sd_Deadline d = dlIdx ∧ bits (Sectors d) ≠ ∅ ∧
  ∃ p, partitions !! Z.to_nat (sd_Partition d) = Some p ∧ bits (Sectors d) ⊆ bits (FaultySectors p) ∖ bits (RecoveringSectors p).

Definition declared (l : list SectorDeclaration) : Z := sumZ (fun d => Z.of_nat (size (bits (Sectors d)))) l.

Record batches_inv (dlIdx : Z) (all : list Partition) (hi : Z) (batches : list (list SectorDeclaration)) (total : Z) : Prop := mkBatchesInv {
  bi_total : total = declared (concat batches);
  bi_limit : 0 < RecoveringSectorLimit cfg → total <= RecoveringSectorLimit cfg;
  bi_decls : Forall (decl_ok dlIdx all) (concat batches);
  bi_order : ascending 0 hi (sd_Partition <$> concat batches);
  bi_sizes : 0 < maxPartitionsPerRecoveryMessage cfg → Forall (fun b => Z.of_nat (length b) <= maxPartitionsPerRecoveryMessage cfg) batches;
  bi_filled : batches = [[]] ∨ batches ≠ [] ∧ Forall (fun b => b ≠ []) batches;
}.

Lemma add_declaration_spec d batches :
  (batches = [[]] ∨ batches ≠ [] ∧ Forall (fun b => b ≠ []) batches) →
  (0 < maxPartitionsPerRecoveryMessage cfg → Forall (fun b => Z.of_nat (length b) <= maxPartitionsPerRecoveryMessage cfg) batches) →
  let bs := add_declaration cfg d batches in
  concat bs = concat batches ++ [d] ∧ (bs ≠ [] ∧ Forall (fun b => b ≠ []) bs) ∧
  (0 < maxPartitionsPerRecoveryMessage cfg → Forall (fun b => Z.of_nat (length b) <= maxPartitionsPerRecoveryMessage cfg) bs).
Proof.
  intros Hf Hs. assert (∃ bs cur, batches = bs ++ [cur] ∧ Forall (fun b => b ≠ []) bs) as (bs & cur & -> & Hbs).
  { destruct Hf as [-> | [Hne Hf]]; [by exists [], []|]. destruct (exists_last Hne) as (bs & cur & ->). exists bs, cur.
    split; [done|]. by apply Forall_app in Hf as [? _]. }
  unfold add_declaration. rewrite last_snoc. simpl. rewrite removelast_last.
  destruct ((_ <? _) && _) eqn:E.
  - apply andb_true_iff in E as [E1%Z.ltb_lt E2%Z.leb_le]. rewrite concat_app. simpl. split_and!; [done|by destruct bs| |].
    + apply Forall_app. split; [|by apply Forall_singleton]. apply Forall_app. split; [done|]. apply Forall_singleton.
      intros ->. simpl in E2. lia.
    + intros Hm. apply Forall_app. split; [auto|]. apply Forall_singleton. simpl. lia.
  - rewrite !concat_app. simpl. rewrite !app_nil_r, (assoc_L (++)). split_and!; [done|by destruct bs| |].
    + apply Forall_app. split; [done|]. apply Forall_singleton. by destruct cur.
    + intros Hm. specialize (Hs Hm). apply Forall_app in Hs as [? _]. apply Forall_app. split; [done|]. apply Forall_singleton.
      rewrite length_app. simpl. apply andb_false_iff in E as [E%Z.ltb_ge|E%Z.leb_gt]; lia.
Qed.

Lemma add_declaration_inv dlIdx all pre p rest batches total d count :
  all = pre ++ p :: rest →
  batches_inv dlIdx all (Z.of_nat (length pre)) batches total →
  sd_Deadline d = dlIdx → sd_Partition d = Z.of_nat (length pre) →
  count = Z.of_nat (size (bits (Sectors d))) → 0 < count →
  bits (Sectors d) ⊆ bits (FaultySectors p) ∖ bits (RecoveringSectors p) →
  (0 < RecoveringSectorLimit cfg → total + count <= RecoveringSectorLimit cfg) →
  batches_inv dlIdx all (Z.of_nat (length (pre ++ [p]))) (add_declaration cfg d batches) (total + count).
Proof.
  intros Eall [] Ed Ep Ec Hc Hsub Hlim. destruct (add_declaration_spec d batches bi_filled0 bi_sizes0) as (Ecat & Hne & Hsz).
  split; rewrite ?Ecat.
  - unfold declared. rewrite sumZ_app. simpl. fold (declared (concat batches)). lia.
  - done.
  - apply Forall_app. split; [done|]. apply Forall_singleton. split; [done|]. split.
    + intros E. rewrite E, size_empty in Ec. lia.
    + exists p. split; [|done]. rewrite Ep, Nat2Z.id, Eall. by apply list_lookup_middle.
  - rewrite fmap_app. eapply ascending_app; [|exact bi_order0|]; rewrite length_app; simpl; [lia|].
    split; [repeat constructor | apply Forall_singleton; lia].
  - done.
  - by right.
Qed.

Lemma batches_inv_widen dlIdx all hi hi' batches total :
  hi <= hi' → batches_inv dlIdx all hi batches total → batches_inv dlIdx all hi' batches total.
Proof. intros Hle []. split; try done. by eapply ascending_widen. Qed.

(** Some of the sectors of a bit field. *)
Lemma take_bits a l k : bf_All a = Ok l → (k <= size (bits a))%nat →
  size (bits (NewFromSet (take k l))) = k ∧ bits (NewFromSet (take k l)) ⊆ bits a.
Proof.
  intros [Hnd El]%bits_All Hk. rewrite bits_NewFromSet. split.
  - rewrite size_list_to_set by (by eapply sublist_NoDup, sublist_take). rewrite length_take.
    assert (length l = size (bits a)) as -> by (rewrite <- El; by rewrite size_list_to_set). lia.
  - rewrite <- El. intros x. rewrite !elem_of_list_to_set. intros (i & Hi & _)%elem_of_take. by eapply list_elem_of_lookup_2.
Qed.

Lemma recovery_loop_spec ts dlIdx all : ∀ partitions pre batches total w r w',
  all = pre ++ partitions →
  batches_inv dlIdx all (Z.of_nat (length pre)) batches total →
  (0 < RecoveringSectorLimit cfg → total < RecoveringSectorLimit cfg) →
  recovery_loop cfg svc range_sectors ts dlIdx (Z.of_nat (length pre)) partitions batches total w = (Ret r, w') →
  batches_inv dlIdx all (Z.of_nat (length all)) r.1 r.2.
Proof.
  induction partitions as [|p partitions IH]; intros pre batches total w r w' Eall Hi Hlt; simpl.
  { unfold ret. intros [= <- <-]. rewrite app_nil_r in Eall. by subst pre. }
  assert (Hlen : Z.of_nat (length pre) <= Z.of_nat (length all)) by (rewrite Eall, length_app; lia).
  assert (Hlen' : Z.of_nat (length (pre ++ [p])) <= Z.of_nat (length all)) by (rewrite Eall, !length_app; simpl; lia).
  assert (Hnext : Z.of_nat (length pre) + 1 = Z.of_nat (length (pre ++ [p]))) by (rewrite length_app; simpl; lia).
  assert (Hskip : ∀ w, recovery_loop cfg svc range_sectors ts dlIdx (Z.of_nat (length pre) + 1) partitions batches total w = (Ret r, w') →
    batches_inv dlIdx all (Z.of_nat (length all)) r.1 r.2).
  { intros w0 Hr. rewrite Hnext in Hr. eapply IH; [| |exact Hlt|exact Hr]; [by rewrite <- (assoc_L (++))|].
    eapply batches_inv_widen; [|exact Hi]. lia. }
  intros Hr. step_ret Hr. apply lift_ret in Hm as [Hm ->]. pose proof (bits_Subtract _ _ _ Hm) as Ea.
  step_ret Hr. apply lift_ret in Hm0 as [_ ->]. destruct (a0 =? 0); [by eapply Hskip|].
  step_ret Hr. apply checkSectors_sub in Hm0. rewrite Ea in Hm0.
  step_ret Hr. apply lift_ret in Hm1 as [Hc ->]. apply bits_Count in Hc. destruct (Z.eqb_spec a2 0); [by eapply Hskip|].
  assert (Hdecl : ∀ rec count w, count = Z.of_nat (size (bits rec)) → 0 < count → bits rec ⊆ bits a1 →
    (0 < RecoveringSectorLimit cfg → total + count <= RecoveringSectorLimit cfg) →
    (if (0 <? RecoveringSectorLimit cfg) && (RecoveringSectorLimit cfg <=? total + count)
     then ret (add_declaration cfg (mkDeclaration dlIdx (Z.of_nat (length pre)) rec) batches, total + count)
     else recovery_loop cfg svc range_sectors ts dlIdx (Z.of_nat (length pre) + 1) partitions
            (add_declaration cfg (mkDeclaration dlIdx (Z.of_nat (length pre)) rec) batches) (total + count)) w = (Ret r, w') →
    batches_inv dlIdx all (Z.of_nat (length all)) r.1 r.2).
  { intros rec count w9 Ecount Hpos Hsub Hlim Hr'.
    assert (Hi' : batches_inv dlIdx all (Z.of_nat (length (pre ++ [p])))
      (add_declaration cfg (mkDeclaration dlIdx (Z.of_nat (length pre)) rec) batches) (total + count)).
    { eapply add_declaration_inv; try done. simpl. set_solver. }
    destruct ((0 <? RecoveringSectorLimit cfg) && (RecoveringSectorLimit cfg <=? total + count)) eqn:E.
    - unfold ret in Hr'. injection Hr' as <- <-. eapply batches_inv_widen; [|exact Hi']. lia.
    - rewrite Hnext in Hr'. eapply IH; [|exact Hi'| |exact Hr']; [by rewrite <- (assoc_L (++))|].
      intros Hl. apply andb_false_iff in E as [E%Z.ltb_ge|E%Z.leb_gt]; lia. }
  destruct (Z.ltb_spec 0 (RecoveringSectorLimit cfg)) as [Hl|Hl]; [|eapply Hdecl, Hr; [done|lia|done|lia]].
  specialize (Hlt Hl). destruct (Z.ltb_spec (RecoveringSectorLimit cfg) total); [lia|].
  destruct (Z.ltb_spec (RecoveringSectorLimit cfg - total) a2) as [Htrim|Hfit]; [|eapply Hdecl, Hr; [done|lia|done|lia]].
  destruct (bf_All a1) as [l|e] eqn:El.
  - destruct (take_bits a1 l (Z.to_nat (RecoveringSectorLimit cfg - total)) El) as [Hk Hs]; [lia|]. eapply Hdecl, Hr; [lia|lia|done|lia].
  - unfold ret in Hr. injection Hr as <- <-. eapply batches_inv_widen; [|exact Hi]. lia.
Qed.
End Theory.

(** * Manual recoveries *)

Section Manual.
Context {W A : Type} (cfg : wd_config).
Implicit Types (decls : list A) (w : W).

Lemma manual_batches_equal fuel : ∀ decls batches w,
  0 < maxPartitionsPerRecoveryMessage cfg → maxPartitionsPerPostMessage cfg = maxPartitionsPerRecoveryMessage cfg →
  (length decls <= fuel)%nat →
  ∃ bs, manual_batches cfg fuel decls batches w = (Ret (batches ++ bs), w) ∧ concat (reverse bs) = decls ∧
    Forall (fun b => Z.of_nat (length b) <= maxPartitionsPerRecoveryMessage cfg) bs.
Proof.
  induction fuel as [|fuel IH]; intros decls batches w Hr Ep Hl; simpl; rewrite Ep; set (n := Z.of_nat (length decls)).
  { destruct decls; [|simpl in Hl; lia]. destruct (Z.ltb_spec (maxPartitionsPerRecoveryMessage cfg) n); [simpl in *; lia|].
    exists [[]]. split_and!; [done|done|]. apply Forall_singleton. simpl. lia. }
  destruct (Z.ltb_spec (maxPartitionsPerRecoveryMessage cfg) n) as [Hlt|Hge].
  - rewrite orb_diag. destruct (Z.ltb_spec (n - maxPartitionsPerRecoveryMessage cfg) 0); [lia|].
    set (k := Z.to_nat (n - maxPartitionsPerRecoveryMessage cfg)).
    destruct (IH (take k decls) (batches ++ [drop k decls]) w Hr Ep) as (bs & -> & Ec & Hf); [rewrite length_take; lia|].
    exists (drop k decls :: bs). rewrite <- (assoc_L (++)). split_and!; [done| |].
    + rewrite reverse_cons, concat_app, Ec. simpl. by rewrite app_nil_r, take_drop.
    + constructor; [rewrite length_drop; lia | done].
  - exists [decls]. split_and!; [done|simpl; by rewrite app_nil_r|]. by apply Forall_singleton.
Qed.

(** Without a limit on the partitions of a proof, nothing is ever taken from the list. *)
Lemma manual_batches_stuck fuel : ∀ decls batches w,
  maxPartitionsPerPostMessage cfg = 0 → decls ≠ [] → ∀ r, (manual_batches cfg fuel decls batches w).1 ≠ Ret r.
Proof.
  induction fuel as [|fuel IH]; intros decls batches w Ep Hne r; simpl; rewrite Ep;
    destruct (Z.ltb_spec 0 (Z.of_nat (length decls))); try (destruct decls; [done|simpl in *; lia]); [done|].
  destruct (_ || _); [done|]. apply IH; [done|]. rewrite Z.sub_0_r, Nat2Z.id, take_ge; done.
Qed.
End Manual.

Lemma send_all_length {W A} (push : A → M W cid) l : ∀ w cs w', send_all push l w = (Ret cs, w') → length cs = length l.
Proof.
  induction l as [|a l IH]; intros w cs w' Hr; simpl in Hr; [unfold ret in Hr; by injection Hr as <- <-|].
  step_ret Hr. step_ret Hr. unfold ret in Hr. injection Hr as <- <-. simpl. f_equal. by eapply IH.
Qed.
