(* ===== verification/WdPostRunTheorems.v ===== *)
(** The theorems on what the window PoSt scheduler runs, with their examples. *)

From S2P Require Import Prelude Types Tipset ChainIndex WdPost WdPostProps WdPostTheorems WdPostRun WdPostRunProps.

(** C28: When a message may carry at least one partition, the batches of [BatchPartitions]
    are the partitions in their order; each has at least one, at most as many as a message
    may carry, and a recovering partition is alone in its batch when the configuration asks
    for it. *)
Theorem BatchPartitions_sound `{BitFieldLaws} {W proof} cfg (svc : services (W := W) (proof := proof)) partitions nv perMsg batches :
  partitions_per_message cfg svc nv = Ok perMsg → 0 < perMsg →
  BatchPartitions cfg svc partitions nv = Ok batches →
  concat batches = partitions ∧ Forall (batch_ok cfg perMsg) batches.
Proof.
  intros Hper Hpos Hb. unfold BatchPartitions in Hb. rewrite Hper in Hb. simpl in Hb.
  destruct (batch_loop_ok cfg perMsg partitions [] [] batches) as [? Ec]; [done|constructor|simpl; lia|by constructor|done|done].
Qed.


(** C29: The recoveries that are declared go out in as many messages as there are batches,
    none empty and none with more partitions than configured; each declares sectors of its
    partition that are faulty and not recovering, the partitions are in order, and together
    they keep to [RecoveringSectorLimit]. *)
Theorem recoveries_within_limits `{BitFieldLaws} {W proof} cfg (svc : services (W := W) (proof := proof)) range_sectors
    push wait dlIdx partitions ts w batches msgs w' :
  (∀ m, range_sectors m ≡ₚ (map_to_list m).*1) →
  (∀ b ts w infos w', StateMinerSectors svc b ts w = (Ret infos, w') → Forall (fun i => SectorNumber i ∈ bits b) infos) →
  declareRecoveries cfg svc range_sectors push wait dlIdx partitions ts w = (Ret (batches, msgs), w') →
  length msgs = length batches ∧ Forall (fun b => b ≠ []) batches ∧
  (0 < maxPartitionsPerRecoveryMessage cfg → Forall (fun b => Z.of_nat (length b) <= maxPartitionsPerRecoveryMessage cfg) batches) ∧
  Forall (decl_ok dlIdx partitions) (concat batches) ∧
  ascending 0 (Z.of_nat (length partitions)) (sd_Partition <$> concat batches) ∧
  (0 < RecoveringSectorLimit cfg → declared (concat batches) <= RecoveringSectorLimit cfg).
Proof.
  intros Hperm Hfil Hr. unfold declareRecoveries in Hr. step_ret Hr. destruct a as [bs total].
  apply (recovery_loop_spec cfg svc range_sectors Hperm Hfil ts dlIdx partitions partitions []) in Hm as []; simpl in *.
  - destruct (Z.eqb_spec total 0).
    { unfold ret in Hr. injection Hr as <- <- <-. simpl. split_and!; [done|constructor|by constructor|constructor|apply ascending_nil|].
      change (declared []) with 0. lia. }
    step_ret Hr. step_ret Hr. unfold ret in Hr. injection Hr as <- <- <-. apply send_all_length in Hm.
    split_and!; try done; [|by subst total]. destruct bi_filled as [-> | [_ ?]]; [|done]. by subst total.
  - done.
  - split; simpl; [done|lia|constructor|apply ascending_nil| |by left]. intros Hmax. apply Forall_singleton. simpl. lia.
  - lia.
Qed.

(** With one limit for proofs and for recoveries, the manual recoveries of all
    declarations go out, in batches within the limit.  Without a limit for proofs, which
    [maxPartitionsPerPostMessage] zero stands for, batching never comes to an end: the loop
    shortens the list by the wrong limit. *)
Theorem manual_recoveries_stuck {W A} cfg (decls : list A) (w : W) (Hlim : 0 < maxPartitionsPerRecoveryMessage cfg) :
  (maxPartitionsPerPostMessage cfg = maxPartitionsPerRecoveryMessage cfg →
   ∃ bs, recovery_batches cfg (length decls) decls w = (Ret bs, w) ∧ concat (reverse bs) = decls ∧
     Forall (fun b => Z.of_nat (length b) <= maxPartitionsPerRecoveryMessage cfg) bs) ∧
  (maxPartitionsPerPostMessage cfg = 0 → decls ≠ [] → ∀ fuel bs, (recovery_batches cfg fuel decls w).1 ≠ Ret bs).
Proof.
  unfold recovery_batches. destruct (Z.ltb_spec 0 (maxPartitionsPerRecoveryMessage cfg)); [|lia]. split.
  - intros Ep. destruct (manual_batches_equal cfg (length decls) decls [] w Hlim Ep (le_n _)) as (bs & ? & ? & ?). by exists bs.
  - intros Ep Hne fuel bs. by apply manual_batches_stuck.
Qed.

(** When proving panics, the cycle reports that there was nothing to prove, and not
    an error: the deadline counts as proved, and the first head within its window completes
    it without a submission. *)
Theorem panic_completes_window `{BitFieldLaws} `{DlineLaws} {W proof} cfg (svc : services (W := W) (proof := proof)) range_sectors
    fuel di ts batches st w w' (s : changeHandler SubmitWindowedPoStParams) id range revert advance :
  wd_steps newChangeHandler s → proving (proveHdlr s) !! id = Some (ts, di) →
  (∀ m, range m ≡ₚ (map_to_list m).*2) →
  prove_batches cfg svc range_sectors fuel false di ts 0 batches st [] w = (Panic, w') →
  dl_Open di + SubmitConfidence <= ts_height advance < dl_Close di →
  (∀ pw, view (submitHdlr s) (dl_Open di) = Some pw → pw_di pw = di ∧ submitState pw = SubmitStateStart) →
  ∃ posts, recovered (prove_batches cfg svc range_sectors fuel false di ts 0 batches st []) w = (Ret posts, w') ∧
    let c := (processPostResult id ts di (Some posts) (WdPost.posts s) (proof_ends id (proveHdlr s))).1.2 in
    cache_get di c = Some [] ∧
    ∃ pw, view (submit_processHeadChange range revert advance di c (submitHdlr s)).1 (dl_Open di) = Some pw ∧
      submitState pw = SubmitStateComplete.
Proof.
  intros Hr Hid Hrange Hp Hh Hv. exists []. unfold recovered. rewrite Hp. split; [done|]. simpl. set (c := cache_add di [] _).
  assert (Ec : cache_get di c = Some []) by apply lookup_insert_eq. split; [done|].
  pose proof (wd_reachable s Hr) as [Hi _].
  destruct (submit_processHeadChange_spec range revert advance di c (submitHdlr s) Hrange Hi) as [_ Hview]. rewrite Hview.
  assert (Hdone : ∀ pw, pw_di pw = di → submitState pw = SubmitStateStart →
    submitState (window_after revert advance c pw) = SubmitStateComplete).
  { intros pw Ed Es. unfold window_after, reset_window. rewrite Es. unfold submit_after. rewrite Es, Ed, Ec. simpl.
    destruct (Z.leb_spec (dl_Open di + SubmitConfidence) (ts_height advance)); [|lia].
    by destruct (Z.ltb_spec (ts_height advance) (dl_Close di)); [|lia]. }
  unfold ensure_window. set (s0 := set_head advance di (submitHdlr s)).
  assert (Hi0 : sub_inv s0) by (eapply good_inv; by apply (set_head_good c (submitHdlr s) di advance)).
  destruct (postWindows s0 !! dl_Open di) as [x|] eqn:Ew.
  - destruct (si_track _ Hi0 _ _ Ew) as (pw & Epw & Ek). assert (Ev : view s0 (dl_Open di) = Some pw) by (unfold view; by rewrite Ew).
    rewrite Ev. eexists. split; [done|]. by apply Hdone; apply Hv.
  - destruct (track_updates s0 di advance Hi0) as [[Hk _] _]. rewrite Hk. eexists. split; [done|]. by apply Hdone.
Qed.

(** An unsigned difference converts to the signed one. *)
Lemma wrap64_wrapu64 z : in_i64 z → wrap64 (wrapu64 z) = z.
Proof.
  intros Hz. rewrite <- (wrap64_id z Hz) at 2. unfold wrap64, wrapu64. by rewrite Zplus_mod_idemp_l.
Qed.

Lemma wrapu64_sub a b : wrapu64 (wrapu64 a - b) = wrapu64 (a - b).
Proof. unfold wrapu64. by rewrite Zminus_mod_idemp_l. Qed.

(** [ComputePoSt] checks a deadline with the challenge it had when it was open last:
    in this proving period when it is not after the current one, in the one before
    otherwise, the difference of the unsigned indices notwithstanding. *)
Theorem ComputePoSt_past_deadline `{DlineLaws} dl dlIdx :
  dline_wf dl → 0 <= dlIdx < WPoStPeriodDeadlines → WPoStPeriodDeadlines < 2 ^ 63 →
  let start := if Index dl <? dlIdx then PeriodStart dl - WPoStProvingPeriod else PeriodStart dl in
  let r := ComputePoSt_deadline dl dlIdx in
  Index r = dlIdx ∧ PeriodStart r = start ∧ Challenge r = Challenge (NewDeadlineInfo start dlIdx (CurrentEpoch dl)) ∧
  Challenge r <= Challenge dl.
Proof.
  intros Hwf Hidx Hd start r. pose proof Hwf as [Hi E]. pose proof window_pos. pose proof period_tiled as Ht.
  assert (Hq : Z.quot WPoStProvingPeriod WPoStPeriodDeadlines = WPoStChallengeWindow) by (rewrite Ht, Z.mul_comm; apply Z.quot_mul; lia).
  assert (Hc : Challenge dl = PeriodStart dl + Index dl * WPoStChallengeWindow - WPoStChallengeLookback).
  { rewrite E, (NewDeadlineInfo_eq _ _ _ Hi). done. }
  assert (Hr : r = mkDline start dlIdx (CurrentEpoch dl) (dl_Open dl) (dl_Close dl)
    (Challenge dl + WPoStChallengeWindow * (if Index dl <? dlIdx then dlIdx - Index dl - WPoStPeriodDeadlines else dlIdx - Index dl))).
  { subst r start. unfold ComputePoSt_deadline. rewrite Hq. 
    destruct (Z.ltb_spec (Index dl) dlIdx); rewrite ?wrapu64_sub, wrap64_wrapu64; try done; unfold in_i64; lia. }
  rewrite Hr, NewDeadlineInfo_eq by done. simpl. rewrite Hc. subst start. destruct (Z.ltb_spec (Index dl) dlIdx); split_and!; try done; nia.
Qed.

(** * Examples *)

Module RunExample.
Import WdExample.

#[export] Instance set_bits : BitFields := {|
  bitfield := gset Z;
  bf_New := ∅;
  bf_Set n b := {[n]} ∪ b;
  bf_Copy b := Ok b;
  SubtractBitField a b := Ok (a ∖ b);
  MergeBitFields a b := Ok (a ∪ b);
  bf_Count a := Ok (Z.of_nat (size a));
  bf_All a := Ok (elements a);
  NewFromSet l := list_to_set l;
|}.

#[export] Instance set_bits_laws : BitFieldLaws.
Proof.
  refine {| bits := id : bitfield → gset Z |}; simpl; try done.
  - by intros a b [= <-].
  - by intros a b c [= <-].
  - by intros a b c [= <-].
  - by intros a n [= <-].
  - intros a l [= <-]. split; [apply NoDup_elements | apply list_to_set_elements_L].
Defined.

(** Sectors 1 and 2 are live, 2 is faulty. *)
Definition part : Partition := mkPartition {[1; 2]} {[2]} ∅ {[1; 2]} {[1]}.
Definition restored : Partition := mkPartition {[3]} ∅ {[3]} {[3]} ∅.

Definition info (n : Z) : SectorOnChainInfo := mkSectorInfo n 8 "sealed" None.

Definition node (gen : M unit (list string * list Z * bool)) : services (W := unit) (proof := string) := {|
  ChainHead := ret (at_height 10);
  GetRandomnessFromBeacon _ _ := ret "rand"%string;
  GetRandomnessFromTickets _ _ := ret "ticket"%string;
  StateMinerPartitions _ _ := ret [part; restored; part];
  StateNetworkVersion _ := ret 17;
  StateMinerSectors b _ := ret (info <$> elements (b : gset Z));
  CheckProvable _ _ := ret [];
  ReacquireSectors := ret ();
  GenerateWindowPoSt _ _ := gen;
  VerifyWindowPoSt _ _ _ := ret true;
  ctx_Err := ret false;
  submitPoStMessage _ := ret "cid"%string;
  GetMaxPoStPartitions _ := Ok 10;
  GetDeclarationsMax _ := Ok 3000;
|}.

Definition good : services (W := unit) (proof := string) := node (ret (["proof"%string], [], false)).
Definition bad : services (W := unit) (proof := string) := node (fun w => (Panic, w)).

(** Two partitions a message, recovering ones alone. *)
Definition config : wd_config := mkWdConfig false 2 2 true 1 [] false.
Definition mixed : wd_config := mkWdConfig false 0 2 true 1 [] false.

Definition keys (m : gmap Z (cid * bool)) : list Z := (map_to_list m).*1.


Definition declaredRecoveries : outcome (list (list SectorDeclaration) * list cid) * unit :=
  declareRecoveries config good keys (fun _ => ret "msg"%string) (fun _ => ret ()) 3 [part; restored; part] (at_height 10) ().

(** Whether a computation returns something of length [n]. *)
Definition returns {A B} (f : A → list B) (n : nat) (r : outcome A * unit) : bool :=
  match r with (Ret a, _) => Nat.eqb (length (f a)) n | _ => false end.

Lemma returns_spec {A B} (f : A → list B) n r : returns f n r = true → ∃ a, r = (Ret a, ()) ∧ length (f a) = n.
Proof. destruct r as [[a|e| |] []]; simpl; try done. intros <-%Nat.eqb_eq. by exists a. Qed.

(** A handler that has started the proof of the first deadline. *)
Definition proving_first : changeHandler (SubmitWindowedPoStParams (proof := string)) :=
  let c := newPostsCache in
  mkChangeHandler (prove_processHeadChange (post := SubmitWindowedPoStParams (proof := string)) (at_height 10) (deadline 0) c newProver).1
    newSubmitter c.

Lemma run_proving_first : wd_steps newChangeHandler proving_first.
Proof. apply rtc_once. eexists _, _. eapply wd_prove; [by apply deadline_wf|]. apply surjective_pairing. Qed.
End RunExample.
Import WdExample RunExample.

Lemma BatchPartitions_sound_witness :
  BatchPartitions config good [part; restored; part] 17 = Ok [[part]; [restored]; [part]] ∧
  Forall (batch_ok config 2) [[part]; [restored]; [part]].
Proof.
  assert (E : BatchPartitions config good [part; restored; part] 17 = Ok [[part]; [restored]; [part]]) by reflexivity.
  split; [done|]. by apply (BatchPartitions_sound config good [part; restored; part] 17 2).
Defined.


Lemma recoveries_within_limits_witness : ∃ batches msgs, declaredRecoveries = (Ret (batches, msgs), ()) ∧
  length (concat batches) = 1%nat ∧ declared (concat batches) <= 1.
Proof.
  destruct (returns_spec (fun r => concat r.1) 1 declaredRecoveries) as ([batches msgs] & E & El); [by vm_compute|].
  exists batches, msgs. split; [done|]. split; [done|].
  refine (proj2 (proj2 (proj2 (proj2 (proj2 (recoveries_within_limits config good keys _ _ 3 [part; restored; part] (at_height 10) ()
            batches msgs () _ _ E))))) _); [done| |by vm_compute].
  intros b ts w infos w' [= <- _]. apply Forall_fmap, Forall_forall. intros n Hn. simpl. by apply elem_of_elements in Hn.
Defined.

Lemma manual_recoveries_stuck_witness :
  recovery_batches config 3 [1; 2; 3] () = (Ret [[2; 3]; [1]], ()) ∧
  ∀ fuel bs, (recovery_batches mixed fuel [1; 2; 3] ()).1 ≠ Ret bs.
Proof. split; [by vm_compute|]. by apply (manual_recoveries_stuck mixed [1; 2; 3] ()). Defined.

Lemma panic_completes_window_witness :
  ∃ posts, recovered (prove_batches config bad keys 5 false (deadline 0) (at_height 10) 0 [[part]] (mkCycle "rand" false) []) () =
    (Ret posts, ()).
Proof.
  destruct (panic_completes_window config bad keys 5 (deadline 0) (at_height 10) [[part]] (mkCycle "rand" false) () ()
              proving_first 0 range None (at_height 20)) as (posts & E & _).
  - apply run_proving_first.
  - by vm_compute.
  - done.
  - by vm_compute.
  - vm_compute. split; [by intros ?|done].
  - by intros pw.
  - by exists posts.
Defined.

Lemma ComputePoSt_past_deadline_witness :
  Challenge (ComputePoSt_deadline (deadline 3) 5) = 5 * 60 - 2880 - 20.
Proof.
  pose proof (ComputePoSt_past_deadline (deadline 3) 5 (deadline_wf 3 ltac:(done))) as Hc.
  destruct Hc as (_ & _ & -> & _); [by vm_compute|by vm_compute|]. by vm_compute.
Defined.
