(* ===== verification/Paych.v ===== *)
(** Payment channels (src/paychmgr/store.go, paych.go, state.go, util.go and the
    voucher calls of manager.go): the channels in the datastore, and the vouchers that are
    created, checked, added and submitted on them.

    The datastore, the chain's view of a channel, the wallet and the message pool are the
    class [PaychNode]; their calls may fail.  A channel without an address is stored with
    a reserved one and read back without it, which is not modelled.  Operations hold a lock
    for their channel, so each is one step. *)

From coqutil Require Import Datatypes.RecordSetters.
From S2P Require Import Prelude Types.
Import DoubleBraceUpdate.

(** * Vouchers and channels *)

(** [paych.SignedVoucher]; lanes and nonces are [uint64]. *)
Record SignedVoucher := mkVoucher {
  ChannelAddr : address;
  TimeLockMin : Z;
  TimeLockMax : Z;
  SecretHash : bytes;
  Extra : option bytes;
  Lane : Z;
  sv_Nonce : Z;
  Amount : Z;
  MinSettleHeight : Z;
  Merges : list (Z * Z);
  Signature : option bytes;
}.

#[export] Instance SignedVoucher_eq_dec : EqDecision SignedVoucher.
Proof. solve_decision. Defined.

Record VoucherInfo := mkVoucherInfo { Voucher : SignedVoucher; Submitted : bool }.

Inductive direction := DirInbound | DirOutbound.

#[export] Instance direction_eq_dec : EqDecision direction.
Proof. solve_decision. Defined.

Record ChannelInfo := mkChannelInfo {
  ChannelID : string;
  Channel : option address;
  Control : address;
  Target : address;
  Direction : direction;
  Vouchers : list VoucherInfo;
  NextLane : Z;
  ci_Amount : Z;
  AvailableAmount : Z;
  PendingAvailableAmount : Z;
  PendingAmount : Z;
  CreateMsg : option cid;
  AddFundsMsg : option cid;
  Settling : bool;
}.

Definition ci_from (ci : ChannelInfo) : address := if decide (Direction ci = DirOutbound) then Control ci else Target ci.
Definition ci_to (ci : ChannelInfo) : address := if decide (Direction ci = DirOutbound) then Target ci else Control ci.

Inductive paych_error :=
  | ErrChannelNotTracked
  | ErrNode
  | ErrAlreadyTracked
  | ErrWrongChannel
  | ErrLocked
  | ErrSignature
  | ErrMerges
  | ErrNonceTooLow
  | ErrAmountTooLow
  | ErrInsufficientFunds (shortfall : Z)
  | ErrDeltaTooLow
  | ErrAlreadySubmitted
  | ErrNotAdded
  | ErrNoKey
  | ErrProofNotSupported.

(** A call that failed. *)
Definition node {A} (o : option A) : result paych_error A := match o with Some a => Ok a | None => Err ErrNode end.

(** An entry of a query: a channel, or a failure to read or to decode it. *)
Inductive ds_entry := Entry (ci : ChannelInfo) | ReadError | DecodeError.

Abbreviation Store := (gmap string ChannelInfo) (only parsing).

Record LaneState := mkLaneState { Redeemed : Z; ls_Nonce : Z }.

(** The actor of a channel: its balance and its state. *)
Record PaychState := mkPaychState {
  Balance : Z;
  ps_From : address;
  ps_To : address;
  SettlingAt : Z;
  LaneStates : list (Z * LaneState);
}.

Class PaychNode := {
  (** the [k]-th query of an operation; one may fail where another does not *)
  ds_Query : nat → Store → option (list ds_entry);
  ds_Put : Store → string → ChannelInfo → option Store;
  ds_Get : Store → string → option ChannelInfo;
  ds_Delete : Store → string → option Store;
  new_uuid : Store → string;
  cbor_Equals : SignedVoucher → SignedVoucher → option bool;
  SigningBytes : SignedVoucher → option bytes;
  sigs_Verify : option bytes → address → bytes → bool;
  WalletSign : address → bytes → option bytes;
  WalletHas : address → option bool;
  GetPaychState : address → option PaychState;
  ResolveToKeyAddress : address → option address;
  StateAccountKey : address → option address;
  (** a message of the builder, pushed to the pool *)
  push_update : address → address → SignedVoucher → bytes → option cid;
  push_settle : address → address → option cid;
  push_collect : address → address → option cid;
  push_create : address → address → Z → option cid;
  push_funds : address → address → Z → option cid;
  (** the reference from a message to its channel *)
  SaveNewMessage : string → cid → option unit;
  (** whether the message succeeds when it is applied *)
  call_update : address → address → SignedVoucher → bytes → option bool;
}.

(** A query gives what is stored, and everything when nothing fails; a voucher equals
    another when their encodings are the same. *)
Class PaychNodeLaws `{PaychNode} := {
  query_sound k s l ci : ds_Query k s = Some l → Entry ci ∈ l → ∃ id, s !! id = Some ci;
  query_complete k s l id ci :
    ds_Query k s = Some l → ReadError ∉ l → DecodeError ∉ l → s !! id = Some ci → Entry ci ∈ l;
  get_spec s id ci : ds_Get s id = Some ci → s !! id = Some ci;
  delete_spec s id s' : ds_Delete s id = Some s' → s' = delete id s;
  put_spec s id ci s' : ds_Put s id ci = Some s' → s' = <[id := ci]> s;
  uuid_fresh s : new_uuid s ≠ "" ∧ s !! new_uuid s = None;
  Equals_spec a b r : cbor_Equals a b = Some r → r = bool_decide (a = b);
}.

Section Vouchers.
Context `{PaychNode}.

(** ** The store *)

(** The loop of [findChans]: a failure to read ends it without an error. *)
Fixpoint find_loop (filter : ChannelInfo → bool) (max : nat) (l : list ds_entry) (matches : list ChannelInfo) :
    result paych_error (list ChannelInfo) :=
  match l with
  | [] => Ok matches
  | ReadError :: _ => Ok []
  | DecodeError :: _ => Err ErrNode
  | Entry ci :: l =>
      if filter ci then
        let matches := matches ++ [ci] in
        if Nat.eqb (length matches) max then Ok matches else find_loop filter max l matches
      else find_loop filter max l matches
  end.

Definition findChans (k : nat) (s : Store) (filter : ChannelInfo → bool) (max : nat) : result paych_error (list ChannelInfo) :=
  let? l := node (ds_Query k s) in find_loop filter max l [].

Definition findChan (k : nat) (s : Store) (filter : ChannelInfo → bool) : result paych_error ChannelInfo :=
  let? cis := findChans k s filter 1 in
  match cis with
  | [] => Err ErrChannelNotTracked
  | ci :: _ => Ok ci
  end.

Definition ByAddress (k : nat) (s : Store) (addr : address) : result paych_error ChannelInfo :=
  findChan k s (fun ci => bool_decide (Channel ci = Some addr)).

(** The channel is given an identifier when it has none. *)
Definition putChannelInfo (s : Store) (ci : ChannelInfo) : result paych_error (ChannelInfo * Store) :=
  let ci := if decide (ChannelID ci = "") then ci{{ChannelID := new_uuid s}} else ci in
  let? s := node (ds_Put s (ChannelID ci) ci) in Ok (ci, s).

Definition ListChannels (s : Store) : result paych_error (list address) :=
  let? cis := findChans 0 s (fun ci => if Channel ci then true else false) 0 in Ok (omap Channel cis).

(** The channel is stored before it is read again, which may fail.  The queries of an
    operation that is a part of others are numbered from [k]. *)
Definition TrackChannel (k : nat) (s : Store) (ci : ChannelInfo) (addr : address) :
    result paych_error (result paych_error ChannelInfo * Store) :=
  match ByAddress k s addr with
  | Ok _ => Err ErrAlreadyTracked
  | Err ErrChannelNotTracked =>
      let? (_, s) := putChannelInfo s ci in
      Ok (ByAddress (S k) s addr, s)
  | Err e => Err e
  end.

Definition VouchersForPaych (k : nat) (s : Store) (ch : address) : result paych_error (list VoucherInfo) :=
  let? ci := ByAddress k s ch in Ok (Vouchers ci).

Definition AllocateLane (s : Store) (ch : address) : result paych_error (Z * Store) :=
  let? ci := ByAddress 0 s ch in
  let? (_, s) := putChannelInfo s (ci{{NextLane := wrapu64 (NextLane ci + 1)}}) in
  Ok (NextLane ci, s).

(** ** Vouchers of a channel *)

(** The position of the voucher among those of the channel. *)
Fixpoint infoForVoucher (sv : SignedVoucher) (vs : list VoucherInfo) : result paych_error (option nat) :=
  match vs with
  | [] => Ok None
  | v :: vs =>
      let? eq := node (cbor_Equals sv (Voucher v)) in
      if (eq : bool) then Ok (Some 0%nat) else let? i := infoForVoucher sv vs in Ok (S <$> i)
  end.

Definition hasVoucher (ci : ChannelInfo) (sv : SignedVoucher) : result paych_error bool :=
  let? i := infoForVoucher sv (Vouchers ci) in Ok (if i then true else false).

Definition set_submitted (v : VoucherInfo) : VoucherInfo := mkVoucherInfo (Voucher v) true.

Definition supersede (sv : SignedVoucher) (v : VoucherInfo) : VoucherInfo :=
  if (Lane (Voucher v) =? Lane sv) && (sv_Nonce (Voucher v) <? sv_Nonce sv) then set_submitted v else v.

Definition markVoucherSubmitted (ci : ChannelInfo) (sv : SignedVoucher) : result paych_error ChannelInfo :=
  let? i := infoForVoucher sv (Vouchers ci) in
  match i with
  | None => Err ErrNotAdded
  | Some i => Ok (ci{{Vouchers := supersede sv <$> alter set_submitted i (Vouchers ci)}})
  end.

Definition wasVoucherSubmitted (ci : ChannelInfo) (sv : SignedVoucher) : result paych_error bool :=
  let? i := infoForVoucher sv (Vouchers ci) in
  match i ≫= fun i => Vouchers ci !! i with
  | None => Err ErrNotAdded
  | Some v => Ok (Submitted v)
  end.

Definition nextNonceForLane (ci : ChannelInfo) (lane : Z) : Z :=
  let maxnonce := foldl (fun m v => if (Lane (Voucher v) =? lane) && (m <? sv_Nonce (Voucher v)) then sv_Nonce (Voucher v) else m)
                    0 (Vouchers ci) in
  wrapu64 (maxnonce + 1).

(** ** Checks *)

(** A voucher replaces the state of its lane, unless that has a higher nonce. *)
Definition apply_voucher (sv : SignedVoucher) (lanes : gmap Z LaneState) : gmap Z LaneState :=
  let skip := match lanes !! Lane sv with Some ls => sv_Nonce sv <? ls_Nonce ls | None => false end in
  if skip then lanes else <[Lane sv := mkLaneState (Amount sv) (sv_Nonce sv)]> lanes.

Fixpoint apply_vouchers (vs : list VoucherInfo) (lanes : gmap Z LaneState) : result paych_error (gmap Z LaneState) :=
  match vs with
  | [] => Ok lanes
  | v :: vs =>
      match Merges (Voucher v) with
      | _ :: _ => Err ErrMerges
      | [] => apply_vouchers vs (apply_voucher (Voucher v) lanes)
      end
  end.

Definition laneState (k : nat) (s : Store) (st : PaychState) (ch : address) : result paych_error (gmap Z LaneState) :=
  let lanes := foldl (fun m '(idx, ls) => <[idx := ls]> m) (∅ : gmap Z LaneState) (LaneStates st) in
  match VouchersForPaych k s ch with
  | Ok vouchers => apply_vouchers vouchers lanes
  | Err ErrChannelNotTracked => Ok lanes
  | Err e => Err e
  end.

Definition totalRedeemedWithVoucher (lanes : gmap Z LaneState) (sv : SignedVoucher) : result paych_error Z :=
  match Merges sv with
  | _ :: _ => Err ErrMerges
  | [] =>
      let total := map_sumZ Redeemed lanes in
      Ok match lanes !! Lane sv with
         | Some lane => if ls_Nonce lane <? sv_Nonce sv then total + (Amount sv - Redeemed lane) else total
         | None => total + Amount sv
         end
  end.

(** The checks on a voucher against the lanes and the balance. *)
Definition check_lane (lanes : gmap Z LaneState) (sv : SignedVoucher) (balance : Z) : result paych_error unit :=
  let? _ := match lanes !! Lane sv with
            | Some ls =>
                if sv_Nonce sv <=? ls_Nonce ls then Err ErrNonceTooLow
                else if Amount sv <=? Redeemed ls then Err ErrAmountTooLow
                else Ok tt
            | None => Ok tt
            end in
  let? totalRedeemed := totalRedeemedWithVoucher lanes sv in
  if balance <? totalRedeemed then Err (ErrInsufficientFunds (totalRedeemed - balance))
  else match Merges sv with [] => Ok tt | _ => Err ErrMerges end.

Definition checkVoucherValidUnlocked (k : nat) (s : Store) (ch : address) (sv : SignedVoucher) : result paych_error (gmap Z LaneState) :=
  if negb (bool_decide (ChannelAddr sv = ch)) then Err ErrWrongChannel
  else if Extra sv then Err ErrLocked
  else if negb (TimeLockMax sv =? 0) then Err ErrLocked
  else if negb (TimeLockMin sv =? 0) then Err ErrLocked
  else if negb (bool_decide (SecretHash sv = "")) then Err ErrLocked
  else
    let? st := node (GetPaychState ch) in
    let? from := node (ResolveToKeyAddress (ps_From st)) in
    let? vb := node (SigningBytes sv) in
    if negb (sigs_Verify (Signature sv) from vb) then Err ErrSignature
    else
      let? lanes := laneState k s st ch in
      let? _ := check_lane lanes sv (Balance st) in
      Ok lanes.

(** ** Operations *)

(** The delta in value and the store. *)
Definition addVoucherUnlocked (k : nat) (s : Store) (ch : address) (sv : SignedVoucher) (minDelta : Z) : result paych_error (Z * Store) :=
  let? ci := ByAddress k s ch in
  let? dup := infoForVoucher sv (Vouchers ci) in
  match dup with
  | Some _ => Ok (0, s)
  | None =>
      let? lanes := checkVoucherValidUnlocked (S k) s ch sv in
      let redeemed := match lanes !! Lane sv with Some ls => Redeemed ls | None => 0 end in
      let delta := Amount sv - redeemed in
      if delta <? minDelta then Err ErrDeltaTooLow
      else
        let ci := ci{{Vouchers := Vouchers ci ++ [mkVoucherInfo sv false] }} in
        let ci := if NextLane ci <=? Lane sv then ci{{NextLane := wrapu64 (Lane sv + 1)}} else ci in
        let? (_, s) := putChannelInfo s ci in
        Ok (delta, s)
  end.

(** The voucher, or the shortfall. *)
Definition createVoucher (s : Store) (ch : address) (voucher : SignedVoucher) :
    result paych_error (SignedVoucher * Store + Z) :=
  let? ci := ByAddress 0 s ch in
  let sv := voucher{{ChannelAddr := ch}}{{sv_Nonce := nextNonceForLane ci (Lane voucher)}} in
  let? vb := node (SigningBytes sv) in
  let? sig := node (WalletSign (Control ci) vb) in
  let sv := sv{{Signature := Some sig}} in
  match addVoucherUnlocked 1 s ch sv 0 with
  | Ok (_, s) => Ok (inl (sv, s))
  | Err (ErrInsufficientFunds shortfall) => Ok (inr shortfall)
  | Err e => Err e
  end.

Definition submitVoucher (s : Store) (ch : address) (sv : SignedVoucher) (secret : bytes) : result paych_error (cid * Store) :=
  let? ci := ByAddress 0 s ch in
  let? has := hasVoucher ci sv in
  let? _ := if (has : bool) then
              let? submitted := wasVoucherSubmitted ci sv in
              if (submitted : bool) then Err ErrAlreadySubmitted else Ok tt
            else Ok tt in
  let? c := node (push_update (Control ci) ch sv secret) in
  let ci := if has then ci else ci{{Vouchers := Vouchers ci ++ [mkVoucherInfo sv false] }} in
  let? ci := markVoucherSubmitted ci sv in
  let? (_, s) := putChannelInfo s ci in
  Ok (c, s).

Definition checkVoucherSpendable (s : Store) (ch : address) (sv : SignedVoucher) (secret : bytes) : result paych_error bool :=
  let? st := node (GetPaychState ch) in
  let? ci := ByAddress 0 s ch in
  let? submitted := wasVoucherSubmitted ci sv in
  if (submitted : bool) then Ok false else node (call_update (ps_To st) ch sv secret).

(** The message and the store, whose update may fail. *)
Definition settle (s : Store) (ch : address) : result paych_error (cid * result paych_error Store) :=
  let? ci := ByAddress 0 s ch in
  let? c := node (push_settle (Control ci) ch) in
  Ok (c, let? (_, s) := putChannelInfo s (ci{{Settling := true}}) in Ok s).

Definition collect (s : Store) (ch : address) : result paych_error cid :=
  let? ci := ByAddress 0 s ch in node (push_collect (Control ci) ch).

(** ** Inbound channels *)

Definition nextLaneFromState (st : PaychState) : Z :=
  match LaneStates st with
  | [] => 0
  | lanes => wrapu64 (foldl (fun m '(idx, _) => if m <? idx then idx else m) 0 lanes + 1)
  end.

Definition loadStateChannelInfo (ch : address) (dir : direction) : result paych_error ChannelInfo :=
  let? st := node (GetPaychState ch) in
  let? from := node (ResolveToKeyAddress (ps_From st)) in
  let? to := node (ResolveToKeyAddress (ps_To st)) in
  let '(control, target) := match dir with DirOutbound => (from, to) | DirInbound => (to, from) end in
  Ok (mkChannelInfo "" (Some ch) control target dir [] (nextLaneFromState st) 0 0 0 0 None None false).

Definition trackInboundChannel (s : Store) (ch : address) : result paych_error (result paych_error ChannelInfo * Store) :=
  match ByAddress 0 s ch with
  | Ok ci => Ok (Ok ci, s)
  | Err ErrChannelNotTracked =>
      let? ci := loadStateChannelInfo ch DirInbound in
      let? toKey := node (StateAccountKey (Control ci)) in
      let? has := node (WalletHas toKey) in
      if (has : bool) then TrackChannel 1 s ci ch else Err ErrNoKey
  | Err e => Err e
  end.

(** A channel that was tracked stays so when the voucher is refused. *)
Definition AddVoucherInbound (s : Store) (ch : address) (sv : SignedVoucher) (proof : bytes) (minDelta : Z) :
    result paych_error (Z * Store) :=
  if bool_decide (proof = "") then
    let? (r, s) := trackInboundChannel s ch in
    let? _ := r in addVoucherUnlocked 3 s ch sv minDelta
  else Err ErrProofNotSupported.

Definition CheckVoucherValid (s : Store) (ch : address) (sv : SignedVoucher) : result paych_error Store :=
  let? (r, s) := trackInboundChannel s ch in
  let? _ := r in
  let? _ := checkVoucherValidUnlocked 3 s ch sv in Ok s.

(** ** Redeeming *)

(** The best spendable voucher of each lane. *)
Fixpoint BestSpendableByLane (spendable : SignedVoucher → result paych_error bool) (vouchers : list SignedVoucher)
    (best : gmap Z SignedVoucher) : result paych_error (gmap Z SignedVoucher) :=
  match vouchers with
  | [] => Ok best
  | v :: vouchers =>
      let? ok := spendable v in
      let better := match best !! Lane v with None => true | Some b => Amount b <? Amount v end in
      BestSpendableByLane spendable vouchers (if (ok && better : bool) then <[Lane v := v]> best else best)
  end.
End Vouchers.
