(* ===== verification/PaychProps.v ===== *)
(** The theory of payment channel vouchers: what an accepted voucher is worth, which
    nonce and lane it has, and what a submission marks. *)

From coqutil Require Import Datatypes.RecordSetters.
From S2P Require Import Prelude Types Paych.
Import DoubleBraceUpdate.

(** * Finding channels *)

Section Find.
Context `{PaychNodeLaws}.

Lemma find_loop_in filter max l : ∀ matches r ci,
  find_loop filter max l matches = Ok r → ci ∈ r → ci ∈ matches ∨ Entry ci ∈ l ∧ filter ci = true.
Proof.
  induction l as [|e l IH]; intros matches r ci; simpl; [intros [= <-]; by left|].
  destruct e as [c| |]; [|intros [= <-] Hin; by apply not_elem_of_nil in Hin|done].
  assert (Hsnoc : filter c = true → ci ∈ matches ++ [c] → ci ∈ matches ∨ Entry ci ∈ Entry c :: l ∧ filter ci = true).
  { intros Ef [?| ->%list_elem_of_singleton]%elem_of_app; [by left|]. right. split; [left|done]. }
  destruct (filter c) eqn:Ef.
  - destruct (Nat.eqb _ _); [intros [= <-]; by apply Hsnoc|]. intros Hr Hin.
    destruct (IH _ _ _ Hr Hin) as [?|[? ?]]; [by apply Hsnoc | right; split; [by right|done]].
  - intros Hr Hin. destruct (IH _ _ _ Hr Hin) as [?|[? ?]]; [by left | right; split; [by right|done]].
Qed.

Lemma find_loop_error filter max l : ∀ matches e, find_loop filter max l matches = Err e → e = ErrNode.
Proof.
  induction l as [|x l IH]; intros matches e; simpl; [done|]. destruct x as [c| |]; [|done|by intros [= <-]].
  destruct (filter c); [destruct (Nat.eqb _ _); [done|]|]; apply IH.
Qed.

(** A channel that is found is stored and passes the filter. *)
Lemma findChan_spec k s filter ci : findChan k s filter = Ok ci → (∃ id, s !! id = Some ci) ∧ filter ci = true.
Proof.
  unfold findChan, findChans. destruct (ds_Query k s) as [l|] eqn:Eq; simpl; [|done].
  destruct (find_loop filter 1 l []) as [[|c r]|] eqn:El; simpl; try done. intros [= <-].
  destruct (find_loop_in _ _ _ _ _ c El (list_elem_of_here _ _)) as [Hin|[Hin Hf]]; [by apply not_elem_of_nil in Hin|].
  split; [by eapply query_sound | done].
Qed.

Lemma ByAddress_spec k s ch ci : ByAddress k s ch = Ok ci → (∃ id, s !! id = Some ci) ∧ Channel ci = Some ch.
Proof. intros [? Hb]%findChan_spec. split; [done|]. by apply bool_decide_eq_true in Hb. Qed.

(** The [k]-th query of the operation does not fail to read an entry. *)
Definition readable (k : nat) (s : gmap string ChannelInfo) : Prop := ∀ q, ds_Query k s = Some q → ReadError ∉ q.

(** Without failures to read, a channel that is not found is not there. *)
Lemma not_tracked k s ch : readable k s → ByAddress k s ch = Err ErrChannelNotTracked →
  ∀ id ci, s !! id = Some ci → Channel ci ≠ Some ch.
Proof.
  intros Hread. unfold ByAddress, findChan, findChans. destruct (ds_Query k s) as [q|] eqn:Eq; simpl; [|done].
  specialize (Hread q Eq). set (f := fun ci => bool_decide (Channel ci = Some ch)).
  enough (Hg : ∀ l, ReadError ∉ l → (find_loop f 1 l [] = Ok [] → DecodeError ∉ l ∧ ∀ ci, Entry ci ∈ l → f ci = false) ∧
    find_loop f 1 l [] ≠ Err ErrChannelNotTracked).
  { destruct (Hg q Hread) as [Hnil Herr]. destruct (find_loop f 1 q []) as [[|c r]|e]; simpl; intros E; [|done|by injection E as ->].
    destruct (Hnil eq_refl) as [Hd Hf]. intros id ci Hci Hch. pose proof (query_complete _ _ _ _ _ Eq Hread Hd Hci) as Hin.
    apply Hf, bool_decide_eq_false in Hin. done. }
  clear. induction l as [|e l IH]; intros Hr; simpl; [split; [intros _; split; [set_solver|]; intros ci Hin; by apply not_elem_of_nil in Hin|done]|].
  apply not_elem_of_cons in Hr as [He Hr]. destruct (IH Hr) as [Hnil Herr]. destruct e as [c| |]; [|done|by split].
  destruct (f c) eqn:Ef; [by split|]. split; [|done]. intros E. destruct (Hnil E) as [Hd Hf]. split; [set_solver|].
  intros ci [[= ->]|Hin]%elem_of_cons; [done|by apply Hf].
Qed.

Lemma putChannelInfo_spec s ci ci' s' : ChannelID ci ≠ "" → putChannelInfo s ci = Ok (ci', s') → ci' = ci ∧ s' = <[ChannelID ci := ci]> s.
Proof.
  intros Hid. unfold putChannelInfo. rewrite decide_False by done. destruct (ds_Put s (ChannelID ci) ci) eqn:E; simpl; [|done].
  intros [= <- <-]. split; [done|]. by apply put_spec.
Qed.
End Find.

(** * Lanes *)

Definition chain_lanes (st : PaychState) : gmap Z LaneState := foldl (fun m '(idx, ls) => <[idx := ls]> m) ∅ (LaneStates st).

Definition lane_of (v : VoucherInfo) : LaneState := mkLaneState (Amount (Voucher v)) (sv_Nonce (Voucher v)).

Lemma apply_vouchers_app vs vs' : ∀ lanes,
  apply_vouchers (vs ++ vs') lanes = let? lanes := apply_vouchers vs lanes in apply_vouchers vs' lanes.
Proof. induction vs as [|v vs IH]; intros lanes; simpl; [done|]. destruct (Merges (Voucher v)); [apply IH | done]. Qed.

(** The lane of a voucher is at its nonce at least. *)
Lemma apply_voucher_nonce sv lanes :
  (∀ l ls, lanes !! l = Some ls → ∃ ls', apply_voucher sv lanes !! l = Some ls' ∧ ls_Nonce ls <= ls_Nonce ls') ∧
  ∃ ls', apply_voucher sv lanes !! Lane sv = Some ls' ∧ sv_Nonce sv <= ls_Nonce ls'.
Proof.
  unfold apply_voucher. destruct (lanes !! Lane sv) as [l0|] eqn:E0; [destruct (Z.ltb_spec (sv_Nonce sv) (ls_Nonce l0))|].
  - split; [intros l ls E; exists ls; split; [done|lia]|]. exists l0. split; [done|lia].
  - split; [|rewrite lookup_insert_eq; eexists; split; [done|simpl; lia]]. intros l ls E.
    destruct (decide (l = Lane sv)) as [->|Hne]; [|exists ls; rewrite lookup_insert_ne by done; split; [done|lia]].
    rewrite lookup_insert_eq. eexists. split; [done|]. rewrite E0 in E. injection E as <-. simpl. lia.
  - split; [|rewrite lookup_insert_eq; eexists; split; [done|simpl; lia]]. intros l ls E.
    exists ls. rewrite lookup_insert_ne by congruence. split; [done|lia].
Qed.

Lemma apply_vouchers_nonce vs : ∀ lanes lanes', apply_vouchers vs lanes = Ok lanes' →
  (∀ l ls, lanes !! l = Some ls → ∃ ls', lanes' !! l = Some ls' ∧ ls_Nonce ls <= ls_Nonce ls') ∧
  (∀ v, v ∈ vs → ∃ ls', lanes' !! Lane (Voucher v) = Some ls' ∧ sv_Nonce (Voucher v) <= ls_Nonce ls').
Proof.
  induction vs as [|v vs IH]; intros lanes lanes'; simpl.
  { intros [= <-]. split; [intros l ls E; by exists ls|]. intros v Hin. by apply not_elem_of_nil in Hin. }
  destruct (Merges (Voucher v)); [|done]. intros [Hl Hv]%IH.
  destruct (apply_voucher_nonce (Voucher v) lanes) as [Hl1 (ls1 & E1 & Hn1)]. split.
  - intros l ls E. destruct (Hl1 l ls E) as (ls' & E' & ?). destruct (Hl l ls' E') as (ls2 & ? & ?). exists ls2. split; [done|lia].
  - intros v' [-> | Hin]%elem_of_cons; [|by apply Hv]. destruct (Hl _ ls1 E1) as (ls2 & ? & ?). exists ls2. split; [done|lia].
Qed.

(** The lanes with the voucher on them. *)
Definition with_voucher (sv : SignedVoucher) (lanes : gmap Z LaneState) : gmap Z LaneState :=
  <[Lane sv := mkLaneState (Amount sv) (sv_Nonce sv)]> lanes.

Definition lane_ok (lanes : gmap Z LaneState) (sv : SignedVoucher) : Prop :=
  ∀ ls, lanes !! Lane sv = Some ls → ls_Nonce ls < sv_Nonce sv ∧ Redeemed ls < Amount sv.

(** The checks pass from a balance on that covers the lanes with the voucher. *)
Lemma check_lane_iff lanes sv balance :
  check_lane lanes sv balance = Ok tt ↔
  Merges sv = [] ∧ lane_ok lanes sv ∧ map_sumZ Redeemed (with_voucher sv lanes) <= balance.
Proof.
  unfold check_lane, totalRedeemedWithVoucher, lane_ok, with_voucher. destruct (Merges sv) as [|m ms].
  2: { split; [|by intros [? _]]. destruct (lanes !! Lane sv) as [ls|]; [|done]. by repeat case_match. }
  destruct (lanes !! Lane sv) as [ls|] eqn:E; simpl.
  - rewrite (map_sumZ_insert_Some _ _ _ _ _ E). simpl. destruct (Z.leb_spec (sv_Nonce sv) (ls_Nonce ls)); simpl.
    { split; [done|]. intros (_ & Hl & _). destruct (Hl ls eq_refl). lia. }
    destruct (Z.leb_spec (Amount sv) (Redeemed ls)); simpl.
    { split; [done|]. intros (_ & Hl & _). destruct (Hl ls eq_refl). lia. }
    destruct (Z.ltb_spec (ls_Nonce ls) (sv_Nonce sv)); [|lia]. destruct (Z.ltb_spec balance (map_sumZ Redeemed lanes + (Amount sv - Redeemed ls))).
    + split; [done|]. intros (_ & _ & ?). lia.
    + split; [|done]. intros _. split_and!; [done| |lia]. intros ls' [= <-]. lia.
  - rewrite (map_sumZ_insert_None _ _ _ _ E). simpl. destruct (Z.ltb_spec balance (map_sumZ Redeemed lanes + Amount sv)).
    + split; [done|]. intros (_ & _ & ?). lia.
    + split; [|done]. intros _. split_and!; [done|done|lia].
Qed.

(** What is missing is exactly the shortfall. *)
Lemma check_lane_shortfall lanes sv balance shortfall :
  check_lane lanes sv balance = Err (ErrInsufficientFunds shortfall) →
  0 < shortfall ∧ ∀ b, check_lane lanes sv b = Ok tt ↔ balance + shortfall <= b.
Proof.
  intros Hc. assert (Hs : Merges sv = [] ∧ lane_ok lanes sv ∧ shortfall = map_sumZ Redeemed (with_voucher sv lanes) - balance ∧ 0 < shortfall).
  { revert Hc. unfold check_lane, totalRedeemedWithVoucher, lane_ok, with_voucher.
    destruct (lanes !! Lane sv) as [ls|] eqn:E; simpl.
    - rewrite (map_sumZ_insert_Some _ _ _ _ _ E). simpl. destruct (Z.leb_spec (sv_Nonce sv) (ls_Nonce ls)); simpl; [done|].
      destruct (Z.leb_spec (Amount sv) (Redeemed ls)); simpl; [done|]. destruct (Merges sv); simpl; [|done].
      destruct (Z.ltb_spec (ls_Nonce ls) (sv_Nonce sv)); [|lia]. destruct (Z.ltb_spec balance (map_sumZ Redeemed lanes + (Amount sv - Redeemed ls))); [|done].
      intros [= <-]. split_and!; [done| |lia|lia]. intros ls' [= <-]. lia.
    - rewrite (map_sumZ_insert_None _ _ _ _ E). simpl. destruct (Merges sv); simpl; [|done].
      destruct (Z.ltb_spec balance (map_sumZ Redeemed lanes + Amount sv)); [|done]. intros [= <-]. split_and!; [done|done|lia|lia]. }
  destruct Hs as (Hm & Hl & Hs & Hpos). split; [done|]. intros b. rewrite check_lane_iff. split; [intros (_ & _ & ?); lia|].
  intros Hb. split_and!; [done|done|lia].
Qed.

Lemma apply_accepted lanes sv : Merges sv = [] → lane_ok lanes sv →
  apply_vouchers [mkVoucherInfo sv false] lanes = Ok (with_voucher sv lanes).
Proof.
  intros Hm Hl. simpl. rewrite Hm. unfold apply_voucher. destruct (lanes !! Lane sv) as [ls|] eqn:E; [|done].
  destruct (Hl ls E). by destruct (Z.ltb_spec (sv_Nonce sv) (ls_Nonce ls)); [lia|].
Qed.

(** * Vouchers of a channel *)

Section Store.
Context `{PaychNodeLaws}.

(** Channels are stored under their identifiers, one for an address, no voucher of a
    channel is there twice, and a channel that is being created has no address yet. *)
Record store_ok (s : gmap string ChannelInfo) : Prop := mkStoreOk {
  so_id : ∀ id ci, s !! id = Some ci → ChannelID ci = id ∧ id ≠ "";
  so_addr : ∀ id id' ci ci' a, s !! id = Some ci → s !! id' = Some ci' → Channel ci = Some a → Channel ci' = Some a → id = id';
  so_vouchers : ∀ id ci, s !! id = Some ci → NoDup (Voucher <$> Vouchers ci);
  so_create : ∀ id ci, s !! id = Some ci → CreateMsg ci ≠ None → Channel ci = None;
}.

(** What the operations on a tracked channel keep. *)
Definition same_channel (ci ci' : ChannelInfo) : Prop :=
  ChannelID ci' = ChannelID ci ∧ Channel ci' = Channel ci ∧ CreateMsg ci' = CreateMsg ci.

(** Where a voucher is; its flags do not matter. *)
Lemma infoForVoucher_spec sv vs i : infoForVoucher sv vs = Ok i →
  match i with
  | Some i => (Voucher <$> vs) !! i = Some sv
  | None => sv ∉ Voucher <$> vs
  end.
Proof.
  revert i. induction vs as [|v vs IH]; intros i; simpl; [intros [= <-]; set_solver|].
  destruct (cbor_Equals sv (Voucher v)) as [r|] eqn:E; simpl; [|done]. apply Equals_spec in E. subst r.
  case_bool_decide as Hd; [intros [= <-]; by rewrite Hd|]. destruct (infoForVoucher sv vs) as [j|]; simpl; [|done].
  intros [= <-]. specialize (IH j eq_refl). destruct j as [j|]; simpl; [done|]. apply not_elem_of_cons. done.
Qed.

Lemma infoForVoucher_flags sv vs : ∀ vs', Voucher <$> vs' = Voucher <$> vs → infoForVoucher sv vs' = infoForVoucher sv vs.
Proof.
  induction vs as [|v vs IH]; intros [|v' vs'] E; try done. simpl in *. injection E as Ev E. rewrite Ev. by rewrite (IH vs' E).
Qed.

Lemma infoForVoucher_snoc sv vs : infoForVoucher sv vs = Ok None →
  ∀ i, infoForVoucher sv (vs ++ [mkVoucherInfo sv false]) = Ok i → i = Some (length vs).
Proof.
  induction vs as [|v vs IH]; simpl.
  - intros _ i. destruct (cbor_Equals sv sv) as [r|] eqn:E; simpl; [|done]. apply Equals_spec in E. subst r.
    rewrite bool_decide_eq_true_2 by done. by intros [= <-].
  - destruct (cbor_Equals sv (Voucher v)) as [[|]|]; simpl; try done.
    destruct (infoForVoucher sv vs) as [[j|]|]; simpl; try done. intros _ i.
    destruct (infoForVoucher sv (vs ++ _)) as [k|]; simpl; [|done]. intros [= <-]. by rewrite (IH eq_refl k eq_refl).
Qed.

(** Two queries that find the channel find the same. *)
Lemma ByAddress_agree k k' s ch ci ci' : store_ok s → ByAddress k s ch = Ok ci → ByAddress k' s ch = Ok ci' → ci' = ci.
Proof.
  intros Hok [[id E] Ec]%ByAddress_spec [[id' E'] Ec']%ByAddress_spec. rewrite (so_addr _ Hok id' id ci' ci ch E' E Ec' Ec) in E'. congruence.
Qed.

(** The lanes are those on chain, with the vouchers of the channel unless the second
    query misses it. *)
Lemma lanes_of_channel k k' s st ch ci : store_ok s → ByAddress k s ch = Ok ci →
  laneState k' s st ch = match ByAddress k' s ch with
                         | Ok _ => apply_vouchers (Vouchers ci) (chain_lanes st)
                         | Err ErrChannelNotTracked => Ok (chain_lanes st)
                         | Err e => Err e
                         end.
Proof.
  intros Hok Hb. unfold laneState, VouchersForPaych. destruct (ByAddress k' s ch) as [ci'|e] eqn:E; [|done]. simpl.
  by rewrite (ByAddress_agree _ _ _ _ _ _ Hok Hb E).
Qed.

Lemma lanes_read k k' s st ch ci lanes : store_ok s → ByAddress k s ch = Ok ci → readable k' s →
  laneState k' s st ch = Ok lanes → apply_vouchers (Vouchers ci) (chain_lanes st) = Ok lanes.
Proof.
  intros Hok Hb Hread. rewrite (lanes_of_channel _ _ _ _ _ _ Hok Hb). destruct (ByAddress k' s ch) as [?|e] eqn:E; [done|].
  destruct e; try done. destruct (ByAddress_spec _ _ _ _ Hb) as [[id Hci] Hch]. by destruct (not_tracked _ _ _ Hread E id ci Hci).
Qed.

Lemma checkVoucherValid_spec k s ch sv lanes : checkVoucherValidUnlocked k s ch sv = Ok lanes →
  ∃ st from vb, GetPaychState ch = Some st ∧ ResolveToKeyAddress (ps_From st) = Some from ∧ SigningBytes sv = Some vb ∧
    sigs_Verify (Signature sv) from vb = true ∧ laneState k s st ch = Ok lanes ∧ check_lane lanes sv (Balance st) = Ok tt.
Proof.
  unfold checkVoucherValidUnlocked. destruct (negb _); [done|]. destruct (Extra sv); [done|]. do 3 (destruct (negb _); [done|]).
  destruct (GetPaychState ch) as [st|]; simpl; [|done]. destruct (ResolveToKeyAddress _) as [from|] eqn:Ef; simpl; [|done].
  destruct (SigningBytes sv) as [vb|]; simpl; [|done]. destruct (sigs_Verify _ _ _) eqn:Es; simpl; [|done].
  destruct (laneState k s st ch) as [l|] eqn:El; simpl; [|done]. destruct (check_lane l sv (Balance st)) as [[]|] eqn:Ec; simpl; [|done].
  intros [= <-]. exists st, from, vb. by split_and!.
Qed.

(** A shortfall comes from the check of the lanes. *)
Lemma apply_vouchers_error vs : ∀ lanes e, apply_vouchers vs lanes = Err e → e = ErrMerges.
Proof. induction vs as [|v vs IH]; intros lanes e; simpl; [done|]. destruct (Merges (Voucher v)); [apply IH | by intros [= <-]]. Qed.

Lemma infoForVoucher_error sv vs e : infoForVoucher sv vs = Err e → e = ErrNode.
Proof.
  revert e. induction vs as [|v vs IH]; intros e; simpl; [done|]. destruct (cbor_Equals sv (Voucher v)) as [[|]|]; simpl; [done| |by intros [= <-]].
  destruct (infoForVoucher sv vs); simpl; [done|]. intros [= <-]. by apply IH.
Qed.

Lemma putChannelInfo_error s ci e : putChannelInfo s ci = Err e → e = ErrNode.
Proof. unfold putChannelInfo. destruct (ds_Put _ _ _); simpl; [done|]. by intros [= <-]. Qed.

Lemma ByAddress_error k s ch e : ByAddress k s ch = Err e → e = ErrChannelNotTracked ∨ e = ErrNode.
Proof.
  unfold ByAddress, findChan, findChans. destruct (ds_Query k s) as [l|]; simpl; [|intros [= <-]; by right].
  destruct (find_loop _ _ l []) as [[|ci cis]|e'] eqn:El; simpl; [intros [= <-]; by left|done|].
  apply find_loop_error in El. subst e'. intros [= <-]. by right.
Qed.

Lemma laneState_error k s st ch e : laneState k s st ch = Err e → e = ErrMerges ∨ e = ErrNode.
Proof.
  unfold laneState, VouchersForPaych. destruct (ByAddress k s ch) as [ci|e'] eqn:E; simpl; [intros ?%apply_vouchers_error; by left|].
  apply ByAddress_error in E as [->| ->]; [done|]. intros [= <-]. by right.
Qed.

Lemma checkVoucherValid_short k s ch sv shortfall :
  checkVoucherValidUnlocked k s ch sv = Err (ErrInsufficientFunds shortfall) →
  ∃ st lanes, GetPaychState ch = Some st ∧ laneState k s st ch = Ok lanes ∧
    check_lane lanes sv (Balance st) = Err (ErrInsufficientFunds shortfall).
Proof.
  unfold checkVoucherValidUnlocked. destruct (negb _); [done|]. destruct (Extra sv); [done|]. do 3 (destruct (negb _); [done|]).
  destruct (GetPaychState ch) as [st|]; simpl; [|done]. destruct (ResolveToKeyAddress _) as [from|]; simpl; [|done].
  destruct (SigningBytes sv) as [vb|]; simpl; [|done]. destruct (sigs_Verify _ _ _); simpl; [|done].
  destruct (laneState k s st ch) as [lanes|e] eqn:El; simpl.
  - destruct (check_lane lanes sv (Balance st)) as [[]|e] eqn:Ec; simpl; [done|]. intros [= ->]. by exists st, lanes.
  - intros [= ->]. by apply laneState_error in El as [?|?].
Qed.

Lemma addVoucher_short k s ch sv minDelta shortfall :
  addVoucherUnlocked k s ch sv minDelta = Err (ErrInsufficientFunds shortfall) →
  checkVoucherValidUnlocked (S k) s ch sv = Err (ErrInsufficientFunds shortfall).
Proof.
  unfold addVoucherUnlocked. destruct (ByAddress k s ch) as [ci|e] eqn:Eb; simpl.
  2: { intros [= ->]. by apply ByAddress_error in Eb as [?|?]. }
  destruct (infoForVoucher sv (Vouchers ci)) as [[i|]|e] eqn:Ei; simpl; [done| |intros [= ->]; by apply infoForVoucher_error in Ei].
  destruct (checkVoucherValidUnlocked (S k) s ch sv) as [lanes|e] eqn:Ec; simpl; [|by intros [= ->]].
  destruct (_ <? _); [done|]. destruct (putChannelInfo _ _) as [[? ?]|e] eqn:Ep; simpl; [done|]. intros [= ->].
  by apply putChannelInfo_error in Ep.
Qed.

(** A voucher that is added. *)
Lemma addVoucher_spec k s ch sv minDelta delta s' : store_ok s → addVoucherUnlocked k s ch sv minDelta = Ok (delta, s') →
  ∃ ci, ByAddress k s ch = Ok ci ∧
  (s' = s ∧ delta = 0 ∧ sv ∈ Voucher <$> Vouchers ci ∨
   sv ∉ Voucher <$> Vouchers ci ∧
   ∃ st from vb lanes ci', GetPaychState ch = Some st ∧ ResolveToKeyAddress (ps_From st) = Some from ∧ SigningBytes sv = Some vb ∧
     sigs_Verify (Signature sv) from vb = true ∧ laneState (S k) s st ch = Ok lanes ∧
     check_lane lanes sv (Balance st) = Ok tt ∧
     delta = Amount sv - match lanes !! Lane sv with Some ls => Redeemed ls | None => 0 end ∧ minDelta <= delta ∧
     s' = <[ChannelID ci := ci']> s ∧ same_channel ci ci' ∧
     Vouchers ci' = Vouchers ci ++ [mkVoucherInfo sv false] ∧
     NextLane ci' = if NextLane ci <=? Lane sv then wrapu64 (Lane sv + 1) else NextLane ci).
Proof.
  intros Hok. unfold addVoucherUnlocked. destruct (ByAddress k s ch) as [ci|] eqn:Eb; simpl; [|done].
  destruct (ByAddress_spec _ _ _ _ Eb) as [[id Hci] _]. destruct (so_id _ Hok _ _ Hci) as [<- Hid].
  destruct (infoForVoucher sv (Vouchers ci)) as [i|] eqn:Ei; simpl; [|done]. apply infoForVoucher_spec in Ei.
  intros Hr. exists ci. split; [done|]. destruct i as [i|].
  { injection Hr as <- <-. left. split_and!; [done|done|]. by eapply list_elem_of_lookup_2. }
  right. split; [done|]. destruct (checkVoucherValidUnlocked (S k) s ch sv) as [lanes|] eqn:Ec; simpl in Hr; [|done].
  apply checkVoucherValid_spec in Ec as (st & from & vb & ? & ? & ? & ? & Hl & ?).
  destruct (Z.ltb_spec (Amount sv - match lanes !! Lane sv with Some ls => Redeemed ls | None => 0 end) minDelta); [done|].
  exists st, from, vb, lanes. match type of Hr with context [putChannelInfo s ?c] => exists c; destruct (putChannelInfo s c) as [[ci1 s1]|] eqn:Ep end;
    simpl in Hr; [|done]. injection Hr as <- <-.
  apply putChannelInfo_spec in Ep as [_ ->]; [|by destruct ci; simpl; destruct (_ <=? _)].
  destruct ci as [? ? ? ? ? ? nl]. simpl in *. destruct (nl <=? Lane sv); by split_and!; try done.
Qed.

Lemma wasVoucherSubmitted_at ci sv i v :
  infoForVoucher sv (Vouchers ci) = Ok (Some i) → Vouchers ci !! i = Some v → wasVoucherSubmitted ci sv = Ok (Submitted v).
Proof. intros Ei Ev. unfold wasVoucherSubmitted. rewrite Ei. simpl. by rewrite Ev. Qed.

(** What a submission does to a voucher of the channel. *)
Definition marked (sv : SignedVoucher) (v v' : VoucherInfo) : Prop :=
  Voucher v' = Voucher v ∧
  Submitted v' = Submitted v || bool_decide (Voucher v = sv) || (Lane (Voucher v) =? Lane sv) && (sv_Nonce (Voucher v) <? sv_Nonce sv).

Lemma supersede_spec sv v : Voucher (supersede sv v) = Voucher v ∧
  Submitted (supersede sv v) = Submitted v || (Lane (Voucher v) =? Lane sv) && (sv_Nonce (Voucher v) <? sv_Nonce sv).
Proof. unfold supersede. destruct (_ && _); simpl; [by rewrite orb_true_r | by rewrite orb_false_r]. Qed.

Lemma markVoucherSubmitted_spec ci sv ci' : NoDup (Voucher <$> Vouchers ci) → markVoucherSubmitted ci sv = Ok ci' →
  ci' = ci{{Vouchers := Vouchers ci'}} ∧ sv ∈ Voucher <$> Vouchers ci ∧ Forall2 (marked sv) (Vouchers ci) (Vouchers ci') ∧
  wasVoucherSubmitted ci' sv = Ok true.
Proof.
  intros Hnd. unfold markVoucherSubmitted. destruct (infoForVoucher sv (Vouchers ci)) as [[i|]|] eqn:Ei; simpl; try done.
  intros [= <-]. simpl. pose proof (infoForVoucher_spec _ _ _ Ei) as Hi. simpl in Hi. rewrite list_lookup_fmap in Hi.
  destruct (Vouchers ci !! i) as [v|] eqn:Ev; [|done]. simpl in Hi. injection Hi as Hv.
  assert (Hm : Forall2 (marked sv) (Vouchers ci) (supersede sv <$> alter set_submitted i (Vouchers ci))).
  { apply Forall2_fmap_r, Forall2_same_length_lookup_2; [by rewrite length_alter|]. intros j x y Hx Hy.
    destruct (decide (j = i)) as [->|Hne].
    - rewrite list_lookup_alter_eq, Ev in Hy. simpl in Hy. injection Hy as <-. assert (x = v) as -> by congruence.
      destruct (supersede_spec sv (set_submitted v)) as [E1 E2]. split; [done|]. rewrite E2, bool_decide_eq_true_2 by done.
      simpl. by rewrite orb_true_r.
    - rewrite list_lookup_alter_ne, Hx in Hy by done. injection Hy as <-. destruct (supersede_spec sv x) as [E1 E2]. split; [done|].
      rewrite E2, bool_decide_eq_false_2; [by rewrite orb_false_r|]. intros Ex. apply Hne.
      apply (NoDup_lookup (Voucher <$> Vouchers ci) j i sv Hnd); rewrite list_lookup_fmap; [rewrite Hx | rewrite Ev]; simpl; congruence. }
  assert (Hflags : Voucher <$> (supersede sv <$> alter set_submitted i (Vouchers ci)) = Voucher <$> Vouchers ci).
  { symmetry. apply list_eq_Forall2, Forall2_fmap. eapply Forall2_impl; [exact Hm|]. by intros x y [? _]. }
  split_and!; [done|eapply list_elem_of_lookup_2; rewrite list_lookup_fmap, Ev; simpl; by rewrite Hv|done|].
  assert (Ei' : (supersede sv <$> alter set_submitted i (Vouchers ci)) !! i = Some (supersede sv (set_submitted v))).
  { by rewrite list_lookup_fmap, list_lookup_alter_eq, Ev. }
  rewrite (wasVoucherSubmitted_at _ _ i (supersede sv (set_submitted v))); [|by simpl; rewrite (infoForVoucher_flags _ _ _ Hflags)|done].
  f_equal. exact (proj2 (supersede_spec sv (set_submitted v))).
Qed.

(** A voucher that is submitted. *)
Lemma submitVoucher_spec s ch sv secret c s' : store_ok s → submitVoucher s ch sv secret = Ok (c, s') →
  ∃ ci ci' vs, ByAddress 0 s ch = Ok ci ∧ s' = <[ChannelID ci := ci']> s ∧ same_channel ci ci' ∧
    (vs = Vouchers ci ∧ sv ∈ Voucher <$> Vouchers ci ∨
     vs = Vouchers ci ++ [mkVoucherInfo sv false] ∧ sv ∉ Voucher <$> Vouchers ci) ∧
    NoDup (Voucher <$> vs) ∧ Forall2 (marked sv) vs (Vouchers ci') ∧ wasVoucherSubmitted ci' sv = Ok true.
Proof.
  intros Hok. unfold submitVoucher. destruct (ByAddress 0 s ch) as [ci|] eqn:Eb; simpl; [|done].
  destruct (ByAddress_spec _ _ _ _ Eb) as [[id Hci] _]. destruct (so_id _ Hok _ _ Hci) as [<- Hid]. pose proof (so_vouchers _ Hok _ _ Hci) as Hnd.
  unfold hasVoucher. destruct (infoForVoucher sv (Vouchers ci)) as [i|] eqn:Ei; simpl; [|done]. apply infoForVoucher_spec in Ei.
  destruct (if (if i then true else false) then _ else _) as [[]|]; simpl; [|done].
  destruct (push_update _ _ _ _) as [m|]; simpl; [|done]. intros Hsub.
  match type of Hsub with context [markVoucherSubmitted ?x sv] => set (ci1 := x) in Hsub end.
  destruct (markVoucherSubmitted ci1 sv) as [ci2|] eqn:Em; simpl in Hsub; [|done].
  assert (H1 : same_channel ci ci1 ∧ NoDup (Voucher <$> Vouchers ci1)).
  { subst ci1. destruct i; [done|]. destruct ci. simpl in *. split; [done|]. unfold constant. rewrite fmap_app. apply NoDup_app.
    split_and!; [done| |apply NoDup_singleton]. intros v Hv Hn%list_elem_of_singleton. subst v. by apply Ei. }
  destruct H1 as ((Eid & Ech & Ecr) & Hnd1). apply (markVoucherSubmitted_spec _ _ _ Hnd1) in Em as (E2 & _ & Hm & Hw).
  assert (E2' : same_channel ci ci2) by (rewrite E2; destruct ci1; simpl in *; done).
  destruct (putChannelInfo s ci2) as [[ci3 s3]|] eqn:Ep; simpl in Hsub; [|done]. injection Hsub as <- <-.
  apply putChannelInfo_spec in Ep as [-> ->]; [|by rewrite (proj1 E2')]. rewrite (proj1 E2').
  exists ci, ci2, (Vouchers ci1). split_and!; try done.
  subst ci1. destruct i as [i|]; [left; split; [done|by eapply list_elem_of_lookup_2] | right; split; [by destruct ci|done]].
Qed.

Lemma marked_vouchers sv vs vs' : Forall2 (marked sv) vs vs' → Voucher <$> vs' = Voucher <$> vs.
Proof. induction 1 as [|v v' vs vs' [E _] _ IH]; [done|]. rewrite !fmap_cons. by rewrite E, IH. Qed.

(** The voucher that is submitted is marked. *)
Lemma marked_voucher sv vs vs' : Forall2 (marked sv) vs vs' → sv ∈ Voucher <$> vs →
  ∃ v, v ∈ vs' ∧ Voucher v = sv ∧ Submitted v = true.
Proof.
  intros Hm (v & -> & [i Hi]%list_elem_of_lookup)%list_elem_of_fmap. destruct (Forall2_lookup_l _ _ _ _ _ Hm Hi) as (v' & Hv' & Ev & Es).
  exists v'. split; [by eapply list_elem_of_lookup_2|]. split; [done|]. by rewrite Es, bool_decide_eq_true_2, orb_true_r.
Qed.

(** A submitted voucher of the channel. *)
Definition submitted (s : gmap string ChannelInfo) (ch : address) (sv : SignedVoucher) : Prop :=
  ∃ id ci v, s !! id = Some ci ∧ Channel ci = Some ch ∧ v ∈ Vouchers ci ∧ Voucher v = sv ∧ Submitted v = true.

Lemma submitted_refused s ch sv secret r : store_ok s → submitted s ch sv → submitVoucher s ch sv secret ≠ Ok r.
Proof.
  intros Hok (id & ci & v & Hci & Hch & [j Hj]%list_elem_of_lookup & Hv & Hs). unfold submitVoucher, hasVoucher.
  destruct (ByAddress 0 s ch) as [x|] eqn:Eb; simpl; [|done]. destruct (ByAddress_spec _ _ _ _ Eb) as [[id' Hx] Hxc].
  assert (id' = id) as -> by (by eapply (so_addr _ Hok id' id x ci ch)). assert (x = ci) as -> by congruence.
  assert (Hj' : (Voucher <$> Vouchers ci) !! j = Some sv) by (by rewrite list_lookup_fmap, Hj; simpl; rewrite Hv).
  destruct (infoForVoucher sv (Vouchers ci)) as [i|] eqn:Ei; simpl; [|done]. pose proof (infoForVoucher_spec _ _ _ Ei) as Hi.
  destruct i as [i|]; [|by destruct Hi; eapply list_elem_of_lookup_2]. simpl in Hi.
  assert (i = j) as -> by (by eapply (NoDup_lookup _ i j sv (so_vouchers _ Hok _ _ Hci))).
  by rewrite (wasVoucherSubmitted_at ci sv j v Ei Hj), Hs.
Qed.
End Store.
