(* ===== verification/PaychFunds.v ===== *)
(** Funding of payment channels (src/paychmgr/simple.go): requests for funds wait in a
    queue, are merged, filled from what is available in the channel, and covered by one
    message for the rest; the result of the message ends the wait.

    A request is cancelled when its context is; [active k r] is whether [r] is active when
    [processQueue] looks at it for the [k]th time.  The promise of a request is the list of
    results that were sent for it, and a goroutine that waits for a message is an element of
    [waits].  The listeners for messages ([getPaychWaitReady]) are not modelled. *)

From coqutil Require Import Datatypes.RecordSetters.
From S2P Require Import Prelude Types Paych.
Import DoubleBraceUpdate.

Record fundsReq := mkFundsReq {
  rq_id : nat;
  rq_amt : Z;
  Reserve : bool;
  OffChain : bool;
}.

(** The channel, the message and whether there was an error. *)
Record paychFundsRes := mkFundsRes {
  res_channel : option address;
  res_mcid : option cid;
  res_err : bool;
}.

Abbreviation sent := (list (fundsReq * paychFundsRes)) (only parsing).

(** The comparison of [newMergedFundsReq]. *)
Definition req_less (a b : fundsReq) : bool :=
  if negb (eqb (OffChain a) (OffChain b)) then OffChain a
  else if negb (eqb (Reserve a) (Reserve b)) then Reserve a
  else rq_amt a <? rq_amt b.

(** [sort.Slice]: any permutation that the comparison allows. *)
Class ReqSort := { sort_reqs : list fundsReq → list fundsReq }.
Class ReqSortLaws `{ReqSort} := {
  sort_reqs_perm l : sort_reqs l ≡ₚ l;
  sort_reqs_sorted l : StronglySorted (fun a b => req_less b a = false) (sort_reqs l);
}.

Section Merge.
Context (act : fundsReq → bool).

Definition onComplete (reqs : list fundsReq) (res : paychFundsRes) : sent := (fun r => (r, res)) <$> filter (fun r => act r = true) reqs.

(** The amounts of all requests and of those that do not reserve. *)
Definition req_sum (reqs : list fundsReq) : Z * Z :=
  foldl (fun '(sum, avail) r =>
           if act r then (sum + rq_amt r, if Reserve r then avail else avail + rq_amt r) else (sum, avail))
    (0, 0) reqs.

(** The loop of [completeAmount]: the requests that are done with, the amounts used and
    failed, the results. *)
Fixpoint complete_loop (avail : Z) (ch : option address) (i next : nat) (used failed : Z) (out : sent) (reqs : list fundsReq) :
    nat * Z * Z * sent :=
  match reqs with
  | [] => (next, used, failed, out)
  | r :: reqs =>
      if negb (Reserve r) then (next, used, failed, out)
      else if negb (act r) then complete_loop avail ch (S i) next used failed out reqs
      else if avail - used <? rq_amt r then
        if OffChain r then
          complete_loop avail ch (S i) (S i) used (failed + rq_amt r) (out ++ [(r, mkFundsRes ch None true)]) reqs
        else (next, used, failed, out)
      else complete_loop avail ch (S i) (S i) (used + rq_amt r) failed (out ++ [(r, mkFundsRes ch None false)]) reqs
  end.

(** A result when no request is left; the requests that are. *)
Definition completeAmount (avail : Z) (ch : option address) (reqs : list fundsReq) :
    option paychFundsRes * Z * Z * sent * list fundsReq :=
  let '(next, used, failed, out) := complete_loop avail ch 0 0 0 0 [] reqs in
  let reqs := drop next reqs in
  (match reqs with [] => Some (mkFundsRes ch None false) | _ => None end, used, failed, out, reqs).

Fixpoint fail_loop (i next : nat) (freed : Z) (out : sent) (reqs : list fundsReq) : nat * Z * sent :=
  match reqs with
  | [] => (next, freed, out)
  | r :: reqs =>
      if negb (OffChain r) then (next, freed, out)
      else
        let freed := freed + rq_amt r in
        if negb (act r) then fail_loop (S i) next freed out reqs
        else fail_loop (S i) (S i) freed (out ++ [(r, mkFundsRes None None true)]) reqs
  end.

Definition failOffChainNoChannel (reqs : list fundsReq) : option paychFundsRes * Z * sent * list fundsReq :=
  let '(next, freed, out) := fail_loop 0 0 0 [] reqs in
  let reqs := drop next reqs in
  (match reqs with [] => Some (mkFundsRes None None true) | _ => None end, freed, out, reqs).
End Merge.

(** * The accessor of a channel *)

Record channelAccessor := mkAccessor {
  ca_store : gmap string ChannelInfo;
  fundsReqQueue : list fundsReq;
  promises : sent;
  waits : list (string * cid);
}.

Section Accessor.
Context `{PaychNode} `{ReqSort} (from to : address).

Definition with_store (ca : channelAccessor) (s : gmap string ChannelInfo) : channelAccessor :=
  mkAccessor s (fundsReqQueue ca) (promises ca) (waits ca).

Definition with_wait (ca : channelAccessor) (w : string * cid) : channelAccessor :=
  mkAccessor (ca_store ca) (fundsReqQueue ca) (promises ca) (waits ca ++ [w]).

Definition with_results (ca : channelAccessor) (out : sent) : channelAccessor :=
  mkAccessor (ca_store ca) (fundsReqQueue ca) (promises ca ++ out) (waits ca).

Definition with_queue (ca : channelAccessor) (q : list fundsReq) : channelAccessor :=
  mkAccessor (ca_store ca) q (promises ca) (waits ca).

(** Errors of the datastore are only logged. *)
Definition mutateChannelInfo (s : gmap string ChannelInfo) (id : string) (mutate : ChannelInfo → ChannelInfo) :
    gmap string ChannelInfo :=
  match ds_Get s id with
  | None => s
  | Some ci => match putChannelInfo s (mutate ci) with Ok (_, s) => s | Err _ => s end
  end.

Definition outbound_active (ci : ChannelInfo) : bool :=
  match Direction ci with
  | DirInbound => false
  | DirOutbound =>
      if Settling ci then false
      else
        match Channel ci with
        | None => true
        | Some ch => match GetPaychState ch with Some st => SettlingAt st =? 0 | None => false end
        end && bool_decide (Control ci = from) && bool_decide (Target ci = to)
  end.

Definition OutboundActiveByFromTo (s : gmap string ChannelInfo) : result paych_error ChannelInfo := findChan 0 s outbound_active.

Definition CreateChannel (s : gmap string ChannelInfo) (mcid : cid) (amt avail : Z) : result paych_error (string * gmap string ChannelInfo) :=
  let? (ci, s) := putChannelInfo s (mkChannelInfo "" None from to DirOutbound [] 0 0 0 avail amt (Some mcid) None false) in
  Ok (ChannelID ci, s).

(** The channel is stored before the reference to its message, which may fail. *)
Definition createPaych (ca : channelAccessor) (amt avail : Z) : result paych_error cid * channelAccessor :=
  match push_create from to amt with
  | None => (Err ErrNode, ca)
  | Some mcid =>
      match CreateChannel (ca_store ca) mcid amt avail with
      | Err e => (Err e, ca)
      | Ok (id, s) =>
          match SaveNewMessage id mcid with
          | None => (Err ErrNode, with_store ca s)
          | Some _ => (Ok mcid, with_wait (with_store ca s) (id, mcid))
          end
      end
  end.

Definition completeAvailable (act : fundsReq → bool) (reqs : list fundsReq) (ci : ChannelInfo) (amt av : Z) (ca : channelAccessor) :
    option paychFundsRes * Z * list fundsReq * channelAccessor :=
  let toReserve := amt - av in
  let id := ChannelID ci in
  let avail := match ds_Get (ca_store ca) id with Some ci => Z.min (AvailableAmount ci) toReserve | None => 0 end in
  let s := mutateChannelInfo (ca_store ca) id (fun ci => ci{{AvailableAmount := AvailableAmount ci - Z.min (AvailableAmount ci) toReserve}}) in
  let '(res, used, failed, out, reqs) := completeAmount act avail (Channel ci) reqs in
  let s := mutateChannelInfo s id (fun ci => ci{{AvailableAmount := AvailableAmount ci + (avail - used)}}) in
  (res, amt - (used + failed), reqs, with_results (with_store ca s) out).

Definition addFunds (ci : ChannelInfo) (amt avail : Z) (ca : channelAccessor) : result paych_error cid * channelAccessor :=
  match Channel ci with
  | None => (Err ErrNotAdded, ca)
  | Some ch =>
      match push_funds (Control ci) ch amt with
      | None => (Err ErrNode, ca)
      | Some mcid =>
          let s := mutateChannelInfo (ca_store ca) (ChannelID ci)
                     (fun ci => ci{{PendingAmount := amt}}{{PendingAvailableAmount := avail}}{{AddFundsMsg := Some mcid}}) in
          (Ok mcid, with_wait (with_store ca s) (ChannelID ci, mcid))
      end
  end.

Definition error_res : paychFundsRes := mkFundsRes None None true.

(** [None] when the task waits for a message; the requests that are left. *)
Definition processTask (act : fundsReq → bool) (reqs : list fundsReq) (amt avail : Z) (ca : channelAccessor) :
    option paychFundsRes * list fundsReq * channelAccessor :=
  match OutboundActiveByFromTo (ca_store ca) with
  | Err ErrChannelNotTracked =>
      let '(res, freed, out, reqs) := failOffChainNoChannel act reqs in
      let ca := with_results ca out in
      match res with
      | Some _ => (res, reqs, ca)
      | None =>
          match createPaych ca (amt - freed) avail with
          | (Err _, ca) => (Some error_res, reqs, ca)
          | (Ok mcid, ca) => (Some (mkFundsRes None (Some mcid) false), reqs, ca)
          end
      end
  | Err _ => (Some error_res, reqs, ca)
  | Ok ci =>
      if CreateMsg ci then (None, reqs, ca)
      else if AddFundsMsg ci then (None, reqs, ca)
      else
        let '(res, amt, reqs, ca) := completeAvailable act reqs ci amt avail ca in
        if match res with Some _ => true | None => amt <=? 0 end then (res, reqs, ca)
        else
          match addFunds ci amt avail ca with
          | (Err _, ca) => (Some error_res, reqs, ca)
          | (Ok mcid, ca) => (Some (mkFundsRes (Channel ci) (Some mcid) false), reqs, ca)
          end
  end.

(** The queue is processed; the context of a request may end between the looks at it. *)
Definition processQueue (active : nat → fundsReq → bool) (ca : channelAccessor) : channelAccessor :=
  let ca := with_queue ca (filter (fun r => active 0%nat r = true) (fundsReqQueue ca)) in
  match fundsReqQueue ca with
  | [] => ca
  | _ =>
      let merged := sort_reqs (fundsReqQueue ca) in
      let '(amt, avail) := req_sum (active 1%nat) merged in
      if amt =? 0 then ca
      else
        match processTask (active 2%nat) merged amt avail ca with
        | (None, _, ca) => ca
        | (Some res, reqs, ca) => with_results (with_queue ca []) (onComplete (active 3%nat) reqs res)
        end
  end.

Definition enqueue (r : fundsReq) (ca : channelAccessor) : channelAccessor := with_queue ca (fundsReqQueue ca ++ [r]).

(** ** Results of messages *)

Inductive wait_result :=
  | WaitError
  | WaitFailed
  | WaitDone (robust : address).

(** The message that created the channel. *)
Definition waitPaychCreateMsg (id : string) (r : wait_result) (ca : channelAccessor) : channelAccessor :=
  match r with
  | WaitError => ca
  | WaitFailed => match ds_Delete (ca_store ca) id with Some s => with_store ca s | None => ca end
  | WaitDone robust =>
      with_store ca (mutateChannelInfo (ca_store ca) id (fun ci =>
        ci{{Channel := Some robust}}{{ci_Amount := PendingAmount ci}}{{AvailableAmount := PendingAvailableAmount ci}}
          {{PendingAmount := 0}}{{PendingAvailableAmount := 0}}{{CreateMsg := None}}))
  end.

Definition waitAddFundsMsg (id : string) (r : wait_result) (ca : channelAccessor) : channelAccessor :=
  match r with
  | WaitError => ca
  | WaitFailed =>
      with_store ca (mutateChannelInfo (ca_store ca) id (fun ci =>
        ci{{PendingAmount := 0}}{{PendingAvailableAmount := 0}}{{AddFundsMsg := None}}))
  | WaitDone _ =>
      with_store ca (mutateChannelInfo (ca_store ca) id (fun ci =>
        ci{{ci_Amount := ci_Amount ci + PendingAmount ci}}{{AvailableAmount := AvailableAmount ci + PendingAvailableAmount ci}}
          {{PendingAmount := 0}}{{PendingAvailableAmount := 0}}{{AddFundsMsg := None}}))
  end.

(** ** Available funds *)

Record ChannelAvailableFunds := mkAvailableFunds {
  af_Channel : option address;
  af_From : address;
  af_To : address;
  ConfirmedAmt : Z;
  PendingAmt : Z;
  NonReservedAmt : Z;
  PendingAvailableAmt : Z;
  PendingWaitSentinel : option cid;
  QueuedAmt : Z;
  VoucherRedeemedAmt : Z;
}.

Definition currentAvailableFunds (s : gmap string ChannelInfo) (id : string) (queuedAmt : Z) :
    result paych_error (option ChannelAvailableFunds) :=
  if decide (id = "") then Ok None
  else
    let? ci := node (ds_Get s id) in
    let? redeemed := match Channel ci with
                     | None => Ok 0
                     | Some ch =>
                         let? st := node (GetPaychState ch) in
                         let? lanes := laneState 0 s st ch in Ok (map_sumZ Redeemed lanes)
                     end in
    Ok (Some (mkAvailableFunds (Channel ci) (ci_from ci) (ci_to ci) (ci_Amount ci) (PendingAmount ci) (AvailableAmount ci)
                (PendingAvailableAmount ci) (match CreateMsg ci with Some m => Some m | None => AddFundsMsg ci end) queuedAmt redeemed)).
End Accessor.

(** * Steps *)

Section Steps.
Context `{PaychNode} `{ReqSort} (from to : address).

(** A request comes in, the queue is processed, a message has come to its end.  A context
    that has ended stays so.  In a [calm] run no context of an off-chain request ends
    between the filter of the queue and the sum of its amounts. *)
Inductive fund_step (calm : bool) : channelAccessor → channelAccessor → Prop :=
  | fs_enqueue r ca : 0 <= rq_amt r → (OffChain r = true → Reserve r = true) → fund_step calm ca (enqueue r ca)
  | fs_process active ca :
      (∀ k r, active (S k) r = true → active k r = true) →
      (calm = true → ∀ r, OffChain r = true → active 0%nat r = true → active 1%nat r = true) →
      fund_step calm ca (processQueue from to active ca)
  | fs_created id mcid r ca : (id, mcid) ∈ waits ca → fund_step calm ca (waitPaychCreateMsg id r ca)
  | fs_added id mcid r ca : (id, mcid) ∈ waits ca → fund_step calm ca (waitAddFundsMsg id r ca).
End Steps.
