(* ===== verification/PaychFundsProps.v ===== *)
(** The theory of payment channel funding: every request is answered once or left, what is
    available stays within what was confirmed while no off-chain request is cancelled as
    the queue is merged. *)

From coqutil Require Import Datatypes.RecordSetters.
From S2P Require Import Prelude Types Paych PaychProps PaychFunds.
Import DoubleBraceUpdate.

(** * Merged requests *)

Section Merge.
Context (act : fundsReq → bool).

Abbreviation actives := (filter (fun r => act r = true)).

Definition amounts (l : list fundsReq) : Z := sumZ rq_amt l.

(** The amounts that were filled and that failed. *)
Definition filled (out : list (fundsReq * paychFundsRes)) : Z := sumZ (fun p => if res_err p.2 then 0 else rq_amt p.1) out.
Definition failed_amounts (out : list (fundsReq * paychFundsRes)) : Z := sumZ (fun p => if res_err p.2 then rq_amt p.1 else 0) out.

Lemma amounts_app l l' : amounts (l ++ l') = amounts l + amounts l'.
Proof. apply sumZ_app. Qed.

Lemma amounts_out out : amounts out.*1 = filled out + failed_amounts out.
Proof.
  induction out as [|[r res] out IH]; [done|]. change (amounts ((r, res) :: out).*1) with (rq_amt r + amounts out.*1).
  rewrite IH. unfold filled, failed_amounts. rewrite !sumZ_cons. simpl. destruct (res_err res); lia.
Qed.

Lemma req_sum_spec l : req_sum act l = (amounts (actives l), amounts (filter (fun r => Reserve r = false) (actives l))).
Proof.
  unfold req_sum. enough (∀ a b, foldl (fun '(sum, avail) r =>
      if act r then (sum + rq_amt r, if Reserve r then avail else avail + rq_amt r) else (sum, avail)) (a, b) l =
    (a + amounts (actives l), b + amounts (filter (fun r => Reserve r = false) (actives l)))) as Hg by (rewrite Hg; f_equal; lia).
  induction l as [|r l IH]; intros a b; simpl; [unfold amounts, sumZ; simpl; f_equal; lia|].
  destruct (act r) eqn:E; rewrite IH.
  - rewrite filter_cons_True by done. destruct (Reserve r) eqn:Er.
    + rewrite filter_cons_False by congruence. unfold amounts, sumZ. simpl. f_equal; lia.
    + rewrite filter_cons_True by done. unfold amounts, sumZ. simpl. f_equal; lia.
  - rewrite filter_cons_False by congruence. done.
Qed.

Lemma amounts_nonneg l : Forall (fun r => 0 <= rq_amt r) l → 0 <= amounts l.
Proof. induction 1 as [|r l Hr _ IH]; unfold amounts, sumZ in *; simpl; lia. Qed.

(** What was sent in a run of the loop over [all]: the first [next] requests are answered
    or inactive, the others up to [i] inactive. *)
Record fill_inv (avail : Z) (all : list fundsReq) (i next : nat) (used failed : Z) (out : list (fundsReq * paychFundsRes)) : Prop := mkFill {
  fi_next : (next <= i)%nat;
  fi_sent : out.*1 = actives (take next all);
  fi_idle : actives (take i all) = actives (take next all);
  fi_used : used = filled out;
  fi_failed : failed = failed_amounts out;
  fi_avail : used <= avail;
  fi_reserve : Forall (fun p => Reserve p.1 = true ∧ (res_err p.2 = true → OffChain p.1 = true)) out;
}.

Lemma fill_snoc avail all i next used failed out r res used' failed' :
  fill_inv avail all i next used failed out → all !! i = Some r → act r = true →
  Reserve r = true → (res_err res = true → OffChain r = true) →
  used' = used + (if res_err res then 0 else rq_amt r) → failed' = failed + (if res_err res then rq_amt r else 0) → used' <= avail →
  fill_inv avail all (S i) (S i) used' failed' (out ++ [(r, res)]).
Proof.
  intros [] Hr Ha Hres Herr -> -> Hu. split; try done.
  - rewrite fmap_app. simpl. by rewrite fi_sent0, (take_S_r _ _ _ Hr), filter_app, filter_cons_True, fi_idle0 by done.
  - unfold filled. rewrite sumZ_app. unfold filled in fi_used0. rewrite <- fi_used0. unfold sumZ. simpl. lia.
  - unfold failed_amounts. rewrite sumZ_app. unfold failed_amounts in fi_failed0. rewrite <- fi_failed0. unfold sumZ. simpl. lia.
  - apply Forall_app. split; [done|]. by apply Forall_singleton.
Qed.

Lemma complete_loop_spec avail ch all : ∀ reqs i next used failed out next' used' failed' out',
  drop i all = reqs → fill_inv avail all i next used failed out →
  complete_loop act avail ch i next used failed out reqs = (next', used', failed', out') →
  ∃ i', fill_inv avail all i' next' used' failed' out'.
Proof.
  induction reqs as [|r reqs IH]; intros i next used failed out next' used' failed' out' Hd Hi; simpl.
  { intros [= <- <- <- <-]. eauto. }
  assert (Hr : all !! i = Some r) by (rewrite <- (Nat.add_0_r i), <- lookup_drop, Hd; done).
  assert (Hd' : drop (S i) all = reqs). { rewrite (drop_S _ _ _ Hr) in Hd. by injection Hd. }
  destruct (Reserve r) eqn:Er; simpl; [|intros [= <- <- <- <-]; eauto].
  destruct (act r) eqn:Ea; simpl.
  - destruct (Z.ltb_spec (avail - used) (rq_amt r)).
    + destruct (OffChain r) eqn:Eo; [|intros [= <- <- <- <-]; eauto]. intros Hl. eapply IH; [exact Hd'| |exact Hl].
      eapply fill_snoc; try done; simpl; [lia|]. destruct Hi. lia.
    + intros Hl. eapply IH; [exact Hd'| |exact Hl]. eapply fill_snoc; try done; simpl; lia.
  - intros Hl. eapply IH; [exact Hd'| |exact Hl]. destruct Hi. split; try done; [lia|].
    rewrite (take_S_r _ _ _ Hr), filter_app, filter_cons_False, filter_nil, app_nil_r by congruence. done.
Qed.

(** Every active request is answered once or left, in order; what is filled is within
    what is available. *)
Lemma completeAmount_spec avail ch reqs res used failed out rest :
  0 <= avail → completeAmount act avail ch reqs = (res, used, failed, out, rest) →
  out.*1 ++ actives rest = actives reqs ∧ used = filled out ∧ failed = failed_amounts out ∧ used <= avail ∧
  Forall (fun p => Reserve p.1 = true ∧ (res_err p.2 = true → OffChain p.1 = true)) out ∧
  (res = None ↔ rest ≠ []) ∧ rest `suffix_of` reqs.
Proof.
  intros Hav. unfold completeAmount. destruct (complete_loop _ _ _ _ _ _ _ _ _) as [[[next u] f] o] eqn:El.
  apply (complete_loop_spec avail ch reqs) in El as (i & []); [|done|].
  - intros [= <- <- <- <- <-]. split_and!; try done.
    + by rewrite fi_sent0, <- filter_app, take_drop.
    + by destruct (drop next reqs).
    + exists (take next reqs). by rewrite take_drop.
  - by split; simpl; try constructor.
Qed.

Lemma fail_loop_spec all : ∀ reqs i next freed out next' freed' out',
  drop i all = reqs → (next <= i)%nat → out.*1 = actives (take next all) → actives (take i all) = actives (take next all) →
  freed = amounts (take i all) → Forall (fun r => OffChain r = true) (take i all) →
  fail_loop act i next freed out reqs = (next', freed', out') →
  out'.*1 = actives (take next' all) ∧ ∃ k, freed' = amounts (take k all) ∧ Forall (fun r => OffChain r = true) (take k all).
Proof.
  induction reqs as [|r reqs IH]; intros i next freed out next' freed' out' Hd Hn Ho Hidle Hf Hoff; simpl.
  { intros [= <- <- <-]. eauto. }
  assert (Hr : all !! i = Some r) by (rewrite <- (Nat.add_0_r i), <- lookup_drop, Hd; done).
  assert (Hd' : drop (S i) all = reqs). { rewrite (drop_S _ _ _ Hr) in Hd. by injection Hd. }
  destruct (OffChain r) eqn:Eo; simpl; [|intros [= <- <- <-]; eauto].
  assert (Hf' : freed + rq_amt r = amounts (take (S i) all)).
  { rewrite (take_S_r _ _ _ Hr), amounts_app, Hf. unfold amounts, sumZ. simpl. lia. }
  assert (Hoff' : Forall (fun r => OffChain r = true) (take (S i) all)).
  { rewrite (take_S_r _ _ _ Hr). apply Forall_app. split; [done|]. by apply Forall_singleton. }
  destruct (act r) eqn:Ea; simpl; intros Hl.
  - eapply IH; [exact Hd'| | | |exact Hf'|exact Hoff'|exact Hl]; [done| |done].
    rewrite fmap_app. simpl. by rewrite Ho, (take_S_r _ _ _ Hr), filter_app, filter_cons_True, Hidle by done.
  - eapply IH; [exact Hd'| | | |exact Hf'|exact Hoff'|exact Hl]; [lia|done|].
    by rewrite (take_S_r _ _ _ Hr), filter_app, filter_cons_False, filter_nil, app_nil_r by congruence.
Qed.
End Merge.

Lemma filter_all (P : fundsReq → Prop) `{∀ r, Decision (P r)} (l : list fundsReq) : Forall P l → filter P l = l.
Proof. induction 1 as [|r l Hr _ IH]; [done|]. rewrite filter_cons_True by done. by f_equal. Qed.

Lemma amounts_filter_le (P Q : fundsReq → Prop) `{∀ r, Decision (P r)} `{∀ r, Decision (Q r)} l :
  Forall (fun r => 0 <= rq_amt r) l → (∀ r, r ∈ l → P r → Q r) → amounts (filter P l) <= amounts (filter Q l).
Proof.
  induction 1 as [|r l Hr _ IH]; intros Hpq; [done|].
  assert (amounts (filter P l) <= amounts (filter Q l)) by (apply IH; intros r' Hin; apply Hpq; by right).
  destruct (decide (P r)) as [HP|HP].
  - rewrite !filter_cons_True by first [done | by apply Hpq; [left|]]. unfold amounts in *. rewrite !sumZ_cons. lia.
  - rewrite filter_cons_False by done. destruct (decide (Q r)).
    + rewrite filter_cons_True by done. unfold amounts in *. rewrite sumZ_cons. lia.
    + by rewrite filter_cons_False by done.
Qed.

Lemma amounts_split (P : fundsReq → Prop) `{∀ r, Decision (P r)} (l : list fundsReq) :
  amounts l = amounts (filter P l) + amounts (filter (fun r => ¬ P r) l).
Proof.
  induction l as [|r l IH]; [done|]. destruct (decide (P r)).
  - rewrite (filter_cons_True P), (filter_cons_False (fun r => ¬ P r)) by (by try intros ?). unfold amounts in *. rewrite !sumZ_cons. lia.
  - rewrite (filter_cons_False P), (filter_cons_True (fun r => ¬ P r)) by done. unfold amounts in *. rewrite !sumZ_cons. lia.
Qed.

(** The amounts to reserve. *)
Lemma to_reserve act (l : list fundsReq) :
  amounts (filter (fun r => act r = true) l) - amounts (filter (fun r => Reserve r = false) (filter (fun r => act r = true) l)) =
  amounts (filter (fun r => Reserve r = true ∧ act r = true) l).
Proof.
  rewrite (amounts_split (fun r => Reserve r = false) (filter (fun r => act r = true) l)), (list_filter_filter (fun r => ¬ Reserve r = false)).
  rewrite (list_filter_iff (fun r => ¬ Reserve r = false ∧ act r = true) (fun r => Reserve r = true ∧ act r = true)); [lia|].
  intros r. by rewrite not_false_iff_true.
Qed.

(** * Channels *)

(** No amount is negative; in a calm run what is available is within what there is. *)
Definition funds_ok (calm : bool) (ci : ChannelInfo) : Prop :=
  0 <= AvailableAmount ci ∧ 0 <= PendingAvailableAmount ci ∧
  (calm = true → AvailableAmount ci <= ci_Amount ci ∧ PendingAvailableAmount ci <= PendingAmount ci).

Definition store_funds (calm : bool) (s : gmap string ChannelInfo) : Prop :=
  ∀ id ci, s !! id = Some ci → ChannelID ci = id ∧ id ≠ "" ∧ funds_ok calm ci.

Definition req_ok (r : fundsReq) : Prop := 0 <= rq_amt r ∧ (OffChain r = true → Reserve r = true).

Section Store.
Context `{PaychNodeLaws} `{ReqSortLaws} (from to : address) (calm : bool).

#[local] Ltac funds :=
  unfold funds_ok, constant in *; simpl in *; unfold constant; destruct_and?; split_and!; [lia..|];
  let Hc := fresh in intros Hc; repeat match goal with H : calm = true → _ |- _ => specialize (H Hc) end; lia.

(** The datastore does not fail. *)
Definition reliable : Prop :=
  (∀ s id ci, s !! id = Some ci → ds_Get s id = Some ci) ∧ (∀ s id ci, ∃ s', ds_Put s id ci = Some s').

(** The channel after the requests were filled. *)
Definition reserved (ci : ChannelInfo) (used : Z) : ChannelInfo := ci{{AvailableAmount := AvailableAmount ci - used}}.

(** What is sent does not depend on the datastore. *)
Lemma completeAvailable_spec act reqs ci amt av ca res amt' rest ca' :
  ca_store ca !! ChannelID ci = Some ci → 0 <= AvailableAmount ci → 0 <= amt - av →
  completeAvailable act reqs ci amt av ca = (res, amt', rest, ca') →
  ∃ out, promises ca' = promises ca ++ out ∧ out.*1 ++ filter (fun r => act r = true) rest = filter (fun r => act r = true) reqs ∧
    filled out <= AvailableAmount ci ∧ amt' = amt - amounts out.*1 ∧
    Forall (fun p => Reserve p.1 = true ∧ (res_err p.2 = true → OffChain p.1 = true)) out ∧
    fundsReqQueue ca' = fundsReqQueue ca ∧ waits ca' = waits ca ∧ (res = None ↔ rest ≠ []).
Proof.
  intros Hci Hav Hres. unfold completeAvailable.
  set (avail := match ds_Get _ _ with Some ci => _ | None => 0 end).
  assert (0 <= avail <= AvailableAmount ci).
  { subst avail. destruct (ds_Get _ _) as [c|] eqn:Eg; [|lia]. apply get_spec in Eg. assert (c = ci) as -> by congruence. lia. }
  destruct (completeAmount _ _ _ _) as [[[[r u] f] o] l] eqn:Ec. apply completeAmount_spec in Ec as (Ho & -> & -> & Hu & Hf & Hn & _); [|lia].
  intros [= <- <- <- <-]. exists o. split_and!; try done; [lia|]. rewrite amounts_out. lia.
Qed.

Context (Hrel : reliable).

Lemma put_reliable s ci : ChannelID ci ≠ "" → putChannelInfo s ci = Ok (ci, <[ChannelID ci := ci]> s).
Proof.
  intros Hid. unfold putChannelInfo. rewrite decide_False by done. destruct (proj2 Hrel s (ChannelID ci) ci) as [s' E].
  rewrite E. simpl. by rewrite (put_spec _ _ _ _ E).
Qed.

Lemma put_new s ci : ChannelID ci = "" →
  putChannelInfo s ci = Ok (ci{{ChannelID := new_uuid s}}, <[new_uuid s := ci{{ChannelID := new_uuid s}}]> s).
Proof.
  intros Hid. unfold putChannelInfo. rewrite decide_True by done.
  change (ChannelID (ci{{ChannelID := new_uuid s}})) with (new_uuid s).
  destruct (proj2 Hrel s (new_uuid s) (ci{{ChannelID := new_uuid s}})) as [s' E]. rewrite E. simpl. by rewrite (put_spec _ _ _ _ E).
Qed.

Lemma mutate_reliable s id ci f : s !! id = Some ci → ChannelID (f ci) = id → id ≠ "" →
  mutateChannelInfo s id f = <[id := f ci]> s.
Proof.
  intros Hci Ef Hid. unfold mutateChannelInfo. rewrite (proj1 Hrel s id ci Hci). rewrite put_reliable by congruence. by rewrite Ef.
Qed.

Lemma store_funds_insert s ci : store_funds calm s → ChannelID ci ≠ "" → funds_ok calm ci → store_funds calm (<[ChannelID ci := ci]> s).
Proof.
  intros Hs Hid Hf id ci'. destruct (decide (id = ChannelID ci)) as [->|Hne].
  - rewrite lookup_insert_eq. by intros [= <-].
  - rewrite lookup_insert_ne by done. apply Hs.
Qed.

Lemma mutate_funds s id f : store_funds calm s →
  (∀ ci, s !! id = Some ci → ChannelID (f ci) = ChannelID ci ∧ funds_ok calm (f ci)) → store_funds calm (mutateChannelInfo s id f).
Proof.
  intros Hs Hf. destruct (s !! id) as [ci|] eqn:E.
  - destruct (Hs id ci E) as (Eid & Hid & _). destruct (Hf ci eq_refl) as [Ef Hok].
    rewrite (mutate_reliable s id ci f E) by congruence. replace id with (ChannelID (f ci)) by congruence.
    apply store_funds_insert; [done|congruence|done].
  - unfold mutateChannelInfo. destruct (ds_Get s id) as [ci|] eqn:Eg; [|done]. apply get_spec in Eg. congruence.
Qed.

Lemma completeAvailable_store act reqs ci amt av ca res amt' rest ca' out :
  ca_store ca !! ChannelID ci = Some ci → ChannelID ci ≠ "" → 0 <= AvailableAmount ci → 0 <= amt - av →
  completeAvailable act reqs ci amt av ca = (res, amt', rest, ca') → promises ca' = promises ca ++ out →
  ca_store ca' = <[ChannelID ci := reserved ci (filled out)]> (ca_store ca).
Proof.
  intros Hci Hid Hav Hres. unfold completeAvailable. rewrite (proj1 Hrel _ _ _ Hci).
  destruct (completeAmount _ _ _ _) as [[[[r u] f] o] l] eqn:Ec. apply completeAmount_spec in Ec as (_ & -> & _); [|lia].
  intros [= <- <- <- <-] ->%(inj (app (promises ca))). simpl. rewrite (mutate_reliable _ _ _ _ Hci) by (destruct ci; done).
  rewrite (mutate_reliable _ _ (ci{{AvailableAmount := AvailableAmount ci - Z.min (AvailableAmount ci) (amt - av)}}));
    [|by rewrite lookup_insert_eq|by destruct ci|done].
  rewrite insert_insert_eq. f_equal. unfold reserved. destruct ci. simpl. f_equal. unfold constant. lia.
Qed.

(** * The invariant *)

Lemma createPaych_funds ca amt avail : store_funds calm (ca_store ca) → 0 <= avail → (calm = true → avail <= amt) →
  store_funds calm (ca_store (createPaych from to ca amt avail).2) ∧ fundsReqQueue (createPaych from to ca amt avail).2 = fundsReqQueue ca.
Proof.
  intros Hs Hp Ha. unfold createPaych, CreateChannel. destruct (push_create from to amt) as [mcid|]; [|done].
  rewrite put_new by done. set (ci := (mkChannelInfo _ _ _ _ _ _ _ _ _ _ _ _ _ _){{ChannelID := _}}).
  assert (store_funds calm (<[new_uuid (ca_store ca) := ci]> (ca_store ca))).
  { apply (store_funds_insert (ca_store ca) ci Hs (proj1 (uuid_fresh (ca_store ca)))). funds. }
  simpl. by destruct (SaveNewMessage _ _).
Qed.

Lemma addFunds_funds ci amt avail ca : store_funds calm (ca_store ca) → 0 <= avail → (calm = true → avail <= amt) →
  store_funds calm (ca_store (addFunds ci amt avail ca).2) ∧ fundsReqQueue (addFunds ci amt avail ca).2 = fundsReqQueue ca.
Proof.
  intros Hs Hp Ha. unfold addFunds. destruct (Channel ci); [|done]. destruct (push_funds _ _ _) as [mcid|]; [|done]. simpl.
  split; [|done]. apply mutate_funds; [done|]. intros c Hc. destruct (Hs _ _ Hc) as (_ & _ & Hf). split; [by destruct c|].
  destruct c. funds.
Qed.

(** The amounts of the requests, as the queue has summed them. *)
Record summed (act1 : fundsReq → bool) (reqs : list fundsReq) (amt avail : Z) : Prop := mkSummed {
  su_ok : Forall req_ok reqs;
  su_offchain : calm = true → ∀ r, r ∈ reqs → OffChain r = true → act1 r = true;
  su_sum : req_sum act1 reqs = (amt, avail);
}.

Lemma summed_reserve act1 reqs amt avail : summed act1 reqs amt avail →
  0 <= avail ∧ amt - avail = amounts (filter (fun r => Reserve r = true ∧ act1 r = true) reqs).
Proof.
  intros [Hok _ Hs]. rewrite req_sum_spec in Hs. injection Hs as <- <-. split; [|apply to_reserve].
  apply amounts_nonneg, Forall_forall. intros r [_ [_ Hr]%list_elem_of_filter]%list_elem_of_filter. rewrite Forall_forall in Hok. by apply Hok.
Qed.

Lemma summed_nonneg act1 reqs amt avail : summed act1 reqs amt avail → Forall (fun r => 0 <= rq_amt r) reqs.
Proof. intros [Hok _ _]. eapply Forall_impl; [exact Hok|]. by intros r [? _]. Qed.

(** What was answered is to be reserved. *)
Lemma answered_reserve act1 act2 reqs rest amt avail out :
  summed act1 reqs amt avail → (∀ r, act2 r = true → act1 r = true) →
  out.*1 ++ filter (fun r => act2 r = true) rest = filter (fun r => act2 r = true) reqs →
  Forall (fun p : fundsReq * paychFundsRes => Reserve p.1 = true ∧ (res_err p.2 = true → OffChain p.1 = true)) out →
  0 <= filled out ∧ amounts out.*1 <= amt - avail.
Proof.
  intros Hsu Hact Ho Hres. destruct (summed_reserve _ _ _ _ Hsu) as [_ ->]. pose proof (summed_nonneg _ _ _ _ Hsu) as Hnn.
  assert (Hin : ∀ r, r ∈ out.*1 → r ∈ reqs ∧ act2 r = true ∧ Reserve r = true).
  { intros r Hr. assert (r ∈ filter (fun r => act2 r = true) reqs) as [? ?]%list_elem_of_filter by (rewrite <- Ho; set_solver).
    apply list_elem_of_fmap in Hr as (p & -> & Hp). rewrite Forall_forall in Hres. destruct (Hres p Hp). done. }
  rewrite Forall_forall in Hnn. split.
  - apply sumZ_nonneg, Forall_forall. intros p Hp. destruct (res_err p.2); [lia|]. apply Hnn, Hin. by apply list_elem_of_fmap_2.
  - assert (El : filter (fun r => Reserve r = true) out.*1 = out.*1).
    { apply filter_all, Forall_forall. intros r Hr. by apply Hin. }
    rewrite <- El. etransitivity; [|apply (amounts_filter_le (fun r => Reserve r = true ∧ act2 r = true)); [by apply Forall_forall|naive_solver]].
    rewrite <- list_filter_filter, <- Ho, filter_app, amounts_app.
    assert (0 <= amounts (filter (fun r => Reserve r = true) (filter (fun r => act2 r = true) rest))); [|lia].
    apply amounts_nonneg, Forall_forall. intros r [_ Hr]%list_elem_of_filter. apply Hnn.
    assert (r ∈ filter (fun r => act2 r = true) reqs) as [_ ?]%list_elem_of_filter by (rewrite <- Ho; set_solver). done.
Qed.

(** The amounts of the off-chain requests in front. *)
Lemma freed_reserve act1 reqs amt avail k : summed act1 reqs amt avail → calm = true →
  Forall (fun r => OffChain r = true) (take k reqs) → amounts (take k reqs) <= amt - avail.
Proof.
  intros Hsu Hcalm Hoff. destruct (summed_reserve _ _ _ _ Hsu) as [_ ->]. pose proof (summed_nonneg _ _ _ _ Hsu) as Hnn. destruct Hsu as [Hok Hact _].
  rewrite <- (take_drop k reqs) at 2. rewrite filter_app, amounts_app.
  assert (El : filter (fun r => Reserve r = true ∧ act1 r = true) (take k reqs) = take k reqs).
  { apply filter_all, Forall_forall. intros r Hr. rewrite Forall_forall in Hoff. specialize (Hoff r Hr).
    assert (r ∈ reqs) as Hin by (apply elem_of_take in Hr as (i & ? & _); by eapply list_elem_of_lookup_2).
    rewrite Forall_forall in Hok. split; [by apply Hok | by apply Hact]. }
  rewrite El. assert (0 <= amounts (filter (fun r => Reserve r = true ∧ act1 r = true) (drop k reqs))); [|lia].
  apply amounts_nonneg, Forall_forall. intros r [_ Hr]%list_elem_of_filter. rewrite Forall_forall in Hnn. apply Hnn.
  rewrite <- (take_drop k reqs). set_solver.
Qed.

Lemma processTask_funds act1 act2 reqs amt avail ca :
  store_funds calm (ca_store ca) → summed act1 reqs amt avail → (∀ r, act2 r = true → act1 r = true) →
  let r := processTask from to act2 reqs amt avail ca in
  store_funds calm (ca_store r.2) ∧ fundsReqQueue r.2 = fundsReqQueue ca.
Proof.
  intros Hs Hsu Hact. pose proof (summed_reserve _ _ _ _ Hsu) as [Hav _]. unfold processTask.
  destruct (OutboundActiveByFromTo from to (ca_store ca)) as [ci|e] eqn:Eo.
  - destruct (findChan_spec _ _ _ _ Eo) as [[id Hci] _]. destruct (Hs _ _ Hci) as (<- & Hid & Hf).
    destruct (CreateMsg ci); [done|]. destruct (AddFundsMsg ci); [done|].
    destruct (completeAvailable act2 reqs ci amt avail ca) as [[[res amt'] rest] ca1] eqn:Ec.
    assert (Hamt : 0 <= amt - avail).
    { destruct (summed_reserve _ _ _ _ Hsu) as [_ ->]. apply amounts_nonneg, Forall_forall. intros r [_ Hr]%list_elem_of_filter.
      pose proof (summed_nonneg _ _ _ _ Hsu) as Hnn. rewrite Forall_forall in Hnn. by apply Hnn. }
    pose proof Ec as Hstore. apply completeAvailable_spec in Ec as (out & Hp & Ho & Hfill & -> & Hres & Eq & _ & _); [|done|apply Hf|done].
    apply (fun Hs => completeAvailable_store _ _ _ _ _ _ _ _ _ _ out Hci Hid (proj1 Hf) Hamt Hs Hp) in Hstore as Es.
    destruct (answered_reserve _ _ _ _ _ _ _ Hsu Hact Ho Hres) as [Hpos Hle].
    assert (Hs1 : store_funds calm (ca_store ca1)).
    { rewrite Es. apply (store_funds_insert _ (reserved ci (filled out)) Hs); [by destruct ci|].
      unfold reserved. destruct ci. funds. }
    destruct (match res with Some _ => true | None => _ end); [done|].
    assert (Hb : avail <= amt - amounts out.*1) by lia.
    destruct (addFunds_funds ci (amt - amounts out.*1) avail ca1 Hs1 Hav (fun _ => Hb)) as [? ?].
    destruct (addFunds ci (amt - amounts out.*1) avail ca1) as [[m|e] ca2]; simpl in *; (split; [done|congruence]).
  - destruct e; try done. unfold failOffChainNoChannel. destruct (fail_loop act2 0 0 0 [] reqs) as [[next freed] out] eqn:El.
    destruct (fail_loop_spec act2 reqs reqs 0 0 0 [] next freed out eq_refl (le_n _) eq_refl eq_refl eq_refl (List.Forall_nil _) El)
      as (_ & k & -> & Hoff).
    destruct (drop next reqs); [done|].
    assert (Hb : calm = true → avail <= amt - amounts (take k reqs)).
    { intros Hcalm. pose proof (freed_reserve _ _ _ _ k Hsu Hcalm Hoff). lia. }
    destruct (createPaych_funds (with_results ca out) (amt - amounts (take k reqs)) avail Hs Hav Hb) as [? ?].
    destruct (createPaych from to (with_results ca out) (amt - amounts (take k reqs)) avail) as [[m|e] ca2]; done.
Qed.

Definition acc_inv (ca : channelAccessor) : Prop := store_funds calm (ca_store ca) ∧ Forall req_ok (fundsReqQueue ca).

Lemma processQueue_inv active ca : acc_inv ca →
  (∀ k r, active (S k) r = true → active k r = true) →
  (calm = true → ∀ r, OffChain r = true → active 0%nat r = true → active 1%nat r = true) →
  acc_inv (processQueue from to active ca).
Proof.
  intros [Hs Hq] Hmono Hoff. unfold processQueue. set (ca0 := with_queue ca _).
  assert (Hq0 : Forall req_ok (fundsReqQueue ca0)).
  { apply Forall_forall. intros r [_ Hr]%list_elem_of_filter. rewrite Forall_forall in Hq. by apply Hq. }
  destruct (fundsReqQueue ca0) as [|q qs] eqn:Eq; [by split; [|rewrite Eq]|]. rewrite <- Eq in Hq0.
  destruct (req_sum (active 1%nat) (sort_reqs (q :: qs))) as [amt avail] eqn:Esum. destruct (amt =? 0); [by split|].
  assert (Hsu : summed (active 1%nat) (sort_reqs (q :: qs)) amt avail).
  { split; [|intros Hcalm r Hr Ho; apply (Hoff Hcalm); [done|]|done].
    - rewrite sort_reqs_perm, <- Eq. done.
    - rewrite sort_reqs_perm, <- Eq in Hr. by apply list_elem_of_filter in Hr as [? _]. }
  destruct (processTask_funds _ (active 2%nat) _ _ _ ca0 Hs Hsu (fun r => Hmono 1%nat r)) as [Hs1 Hq1].
  destruct (processTask from to (active 2%nat) _ amt avail ca0) as [[[res|] rest] ca1]; simpl in *.
  - split; [done|constructor].
  - split; [done|]. by rewrite Hq1.
Qed.

Lemma fund_step_inv ca ca' : acc_inv ca → fund_step from to calm ca ca' → acc_inv ca'.
Proof.
  intros Hi Hst. revert Hi. destruct Hst as [r ca0 Hr Ho|active ca0 Hm Ho|id mcid r ca0 _|id mcid r ca0 _]; intros [Hs Hq].
  - split; [done|]. apply Forall_app. split; [done|]. by apply Forall_singleton.
  - by apply processQueue_inv.
  - split; [|by destruct r; [..|]; simpl; try destruct (ds_Delete _ _)]. destruct r as [| |robust]; simpl; [done| |].
    + destruct (ds_Delete (ca_store ca0) id) as [s|] eqn:E; [|done]. apply delete_spec in E. subst s. simpl.
      intros id' ci [_ Hd]%lookup_delete_Some. by apply Hs.
    + apply mutate_funds; [done|]. intros c Hc. destruct (Hs _ _ Hc) as (_ & _ & Hf). split; [by destruct c|].
      destruct c. funds.
  - split; [|by destruct r]. destruct r as [| |robust]; simpl; [done| |];
      (apply mutate_funds; [done|]; intros c Hc; destruct (Hs _ _ Hc) as (_ & _ & Hf); split; [by destruct c|];
       destruct c; funds).
Qed.
End Store.
