(* ===== verification/PaychStore.v ===== *)
(** The store of payment channels as all operations use it: channels are stored under
    their identifiers, one for an address, no voucher of a channel is there twice, and a
    voucher that was submitted stays so. *)

From coqutil Require Import Datatypes.RecordSetters.
From S2P Require Import Prelude Types Paych PaychProps PaychFunds.
Import DoubleBraceUpdate.

(** * Steps *)

(** The operations that change the store, in any order and each with a node of its own.
    A channel is not tracked when the query of [TrackChannel] fails to read an entry;
    the wait for the message that creates a channel ends while the channel has that
    message, and the address it gives is new. *)
Inductive store_step : gmap string ChannelInfo → gmap string ChannelInfo → Prop :=
  | ss_add (n : PaychNode) (l : PaychNodeLaws) k s ch sv minDelta delta s' :
      addVoucherUnlocked k s ch sv minDelta = Ok (delta, s') → store_step s s'
  | ss_create (n : PaychNode) (l : PaychNodeLaws) s ch voucher sv s' :
      createVoucher s ch voucher = Ok (inl (sv, s')) → store_step s s'
  | ss_submit (n : PaychNode) (l : PaychNodeLaws) s ch sv secret c s' :
      submitVoucher s ch sv secret = Ok (c, s') → store_step s s'
  | ss_settle (n : PaychNode) (l : PaychNodeLaws) s ch c s' : settle s ch = Ok (c, Ok s') → store_step s s'
  | ss_lane (n : PaychNode) (l : PaychNodeLaws) s ch lane s' : AllocateLane s ch = Ok (lane, s') → store_step s s'
  | ss_track (n : PaychNode) (l : PaychNodeLaws) s ch r s' :
      readable 1 s → trackInboundChannel s ch = Ok (r, s') → store_step s s'
  | ss_process (n : PaychNode) (l : PaychNodeLaws) (rs : ReqSort) from to active ca :
      store_step (ca_store ca) (ca_store (processQueue from to active ca))
  | ss_created (n : PaychNode) (l : PaychNodeLaws) id r ca :
      (∀ ci, ca_store ca !! id = Some ci → CreateMsg ci ≠ None) →
      (∀ a id' ci, r = WaitDone a → ca_store ca !! id' = Some ci → Channel ci ≠ Some a) →
      store_step (ca_store ca) (ca_store (waitPaychCreateMsg id r ca))
  | ss_added (n : PaychNode) (l : PaychNodeLaws) id r ca :
      store_step (ca_store ca) (ca_store (waitAddFundsMsg id r ca)).

(** * The invariant *)

Lemma store_ok_empty : store_ok ∅.
Proof. by split; intros *; rewrite ?lookup_empty. Qed.

(** The submitted vouchers are still there and submitted. *)
Definition keeps (vs vs' : list VoucherInfo) : Prop :=
  ∀ v, v ∈ vs → Submitted v = true → ∃ v', v' ∈ vs' ∧ Voucher v' = Voucher v ∧ Submitted v' = true.

Lemma keeps_refl vs : keeps vs vs.
Proof. intros v Hv Hs. by exists v. Qed.

Lemma keeps_app vs vs' : keeps vs (vs ++ vs').
Proof. intros v Hv Hs. exists v. split; [set_solver|done]. Qed.

Lemma keeps_trans vs1 vs2 vs3 : keeps vs1 vs2 → keeps vs2 vs3 → keeps vs1 vs3.
Proof. intros H1 H2 v Hv Hs. destruct (H1 v Hv Hs) as (v2 & Hv2 & <- & Hs2). by apply H2. Qed.

Lemma keeps_marked sv vs vs' : Forall2 (marked sv) vs vs' → keeps vs vs'.
Proof.
  intros Hm v [i Hi]%list_elem_of_lookup Hs. destruct (Forall2_lookup_l _ _ _ _ _ Hm Hi) as (v' & Hv' & Ev & Es).
  exists v'. split; [by eapply list_elem_of_lookup_2|]. split; [done|]. by rewrite Es, Hs.
Qed.

(** A channel with an address stays, with its submitted vouchers. *)
Definition extends (s s' : gmap string ChannelInfo) : Prop :=
  ∀ id ci a, s !! id = Some ci → Channel ci = Some a →
  ∃ ci', s' !! id = Some ci' ∧ Channel ci' = Some a ∧ keeps (Vouchers ci) (Vouchers ci').

#[export] Instance extends_preorder : PreOrder extends.
Proof.
  split.
  - intros s id ci a Hci Ha. exists ci. split_and!; [done..|apply keeps_refl].
  - intros s1 s2 s3 H1 H2 id ci a Hci Ha. destruct (H1 id ci a Hci Ha) as (c2 & Hc2 & Ha2 & Hk2).
    destruct (H2 id c2 a Hc2 Ha2) as (c3 & Hc3 & Ha3 & Hk3). exists c3. split_and!; [done..|by eapply keeps_trans].
Qed.

Lemma extends_submitted s s' ch sv : extends s s' → submitted s ch sv → submitted s' ch sv.
Proof.
  intros He (id & ci & v & Hci & Hch & Hv & Ev & Hs). destruct (He id ci ch Hci Hch) as (ci' & Hci' & Hch' & Hk).
  destruct (Hk v Hv Hs) as (v' & Hv' & Ev' & Hs'). exists id, ci', v'. split_and!; [done..|congruence|done].
Qed.

(** What every operation gives. *)
Definition step_ok (s s' : gmap string ChannelInfo) : Prop := store_ok s' ∧ extends s s'.

Lemma step_ok_refl s : store_ok s → step_ok s s.
Proof. by split. Qed.

Lemma step_ok_trans s1 s2 s3 : step_ok s1 s2 → (store_ok s2 → step_ok s2 s3) → step_ok s1 s3.
Proof. intros [Hok He] H2. destruct (H2 Hok) as [? ?]. split; [done|by etransitivity]. Qed.

(** A channel whose address no other one has. *)
Lemma store_ok_put s ci : store_ok s → ChannelID ci ≠ "" → NoDup (Voucher <$> Vouchers ci) →
  (CreateMsg ci ≠ None → Channel ci = None) →
  (∀ id' ci' a, s !! id' = Some ci' → Channel ci' = Some a → Channel ci = Some a → id' = ChannelID ci) →
  store_ok (<[ChannelID ci := ci]> s).
Proof.
  intros [Hi Ha Hv Hc] Hid Hnd Hcr Hnew. split.
  - intros id c [[<- <-]|[_ ?]]%lookup_insert_Some; [done|by apply Hi].
  - intros id id' c c' a [[<- <-]|[? E]]%lookup_insert_Some [[<- <-]|[? E']]%lookup_insert_Some Ec Ec'; [done| | |by eapply Ha].
    + symmetry. by eapply Hnew.
    + by eapply Hnew.
  - intros id c [[<- <-]|[_ ?]]%lookup_insert_Some; [done|by eapply Hv].
  - intros id c [[<- <-]|[_ ?]]%lookup_insert_Some; [done|by eapply Hc].
Qed.

(** A stored channel that stays the same one. *)
Lemma update_ok s ci ci' : store_ok s → s !! ChannelID ci = Some ci → same_channel ci ci' →
  NoDup (Voucher <$> Vouchers ci') → keeps (Vouchers ci) (Vouchers ci') → step_ok s (<[ChannelID ci := ci']> s).
Proof.
  intros Hok Hci (Eid & Ech & Ecr) Hnd Hk. split.
  - rewrite <- Eid. apply store_ok_put; [done| |done| |].
    + rewrite Eid. by apply (so_id _ Hok _ ci).
    + rewrite Ecr, Ech. by eapply so_create.
    + intros id' c a Hc Ec Ea. rewrite Eid. rewrite Ech in Ea. by eapply (so_addr _ Hok id' (ChannelID ci) c ci a).
  - intros id c a Hc Ha. destruct (decide (id = ChannelID ci)) as [->|Hne].
    + exists ci'. rewrite lookup_insert_eq, Ech. assert (c = ci) as -> by congruence. done.
    + exists c. rewrite lookup_insert_ne by done. split_and!; [done..|apply keeps_refl].
Qed.

Section Invariant.
Context `{PaychNodeLaws}.

Lemma ByAddress_stored k s ch ci : store_ok s → ByAddress k s ch = Ok ci → s !! ChannelID ci = Some ci ∧ ChannelID ci ≠ "".
Proof. intros Hok [[id Hci] _]%ByAddress_spec. by destruct (so_id _ Hok _ _ Hci) as [<- ?]. Qed.

Lemma addVoucher_ok k s ch sv minDelta delta s' : store_ok s → addVoucherUnlocked k s ch sv minDelta = Ok (delta, s') → step_ok s s'.
Proof.
  intros Hok (ci & Eb & [(-> & _)|(Hnew & st & from & vb & lanes & ci' & _ & _ & _ & _ & _ & _ & _ & _ & -> & Hsame & Ev & _)])%(addVoucher_spec _ _ _ _ _ _ _ Hok);
    [by apply step_ok_refl|].
  destruct (ByAddress_stored _ _ _ _ Hok Eb) as [Hci _]. apply update_ok; try done; rewrite Ev; [|apply keeps_app]. rewrite fmap_app. apply NoDup_app.
  split_and!; [by eapply so_vouchers| |apply NoDup_singleton]. intros v Hv ->%list_elem_of_singleton. by apply Hnew.
Qed.

Lemma submitVoucher_ok s ch sv secret c s' : store_ok s → submitVoucher s ch sv secret = Ok (c, s') → step_ok s s'.
Proof.
  intros Hok (ci & ci' & vs & Eb & -> & Hsame & Hvs & Hnd & Hm & _)%(submitVoucher_spec _ _ _ _ _ _ Hok).
  destruct (ByAddress_stored _ _ _ _ Hok Eb) as [Hci _]. apply update_ok; try done; [by rewrite (marked_vouchers _ _ _ Hm)|].
  eapply keeps_trans; [|by eapply keeps_marked]. destruct Hvs as [[-> _]|[-> _]]; [apply keeps_refl|apply keeps_app].
Qed.

(** A stored channel, with fields changed that neither name it nor are its vouchers. *)
Lemma put_ok s ci ci' ci1 s' : store_ok s → s !! ChannelID ci = Some ci → same_channel ci ci' → Vouchers ci' = Vouchers ci →
  putChannelInfo s ci' = Ok (ci1, s') → step_ok s s'.
Proof.
  intros Hok Hci Hsame Ev Hp. destruct (so_id _ Hok _ _ Hci) as [_ Hid]. pose proof Hsame as (Eid & _ & _).
  apply putChannelInfo_spec in Hp as [_ ->]; [|by rewrite Eid]. rewrite Eid. apply update_ok; try done; rewrite Ev; [|apply keeps_refl].
  by eapply so_vouchers.
Qed.

Lemma edit_ok k s ch ci ci' ci1 s' : store_ok s → ByAddress k s ch = Ok ci → same_channel ci ci' → Vouchers ci' = Vouchers ci →
  putChannelInfo s ci' = Ok (ci1, s') → step_ok s s'.
Proof. intros Hok Eb. destruct (ByAddress_stored _ _ _ _ Hok Eb) as [Hci Hid]. by apply put_ok. Qed.

(** A new channel, under a fresh identifier. *)
Lemma put_fresh_ok s ci ci1 s' : store_ok s → ChannelID ci = "" → Vouchers ci = [] → (CreateMsg ci ≠ None → Channel ci = None) →
  (∀ id' ci' a, s !! id' = Some ci' → Channel ci' = Some a → Channel ci ≠ Some a) →
  putChannelInfo s ci = Ok (ci1, s') → step_ok s s'.
Proof.
  intros Hok Eid Hnil Hcr Hnew. unfold putChannelInfo. rewrite decide_True by done. set (c := ci{{ChannelID := new_uuid s}}).
  destruct (ds_Put s (ChannelID c) c) as [s1|] eqn:Ep; simpl; [|done]. intros [= <- <-]. apply put_spec in Ep. subst s1.
  assert (Hc : ChannelID c = new_uuid s ∧ Vouchers c = Vouchers ci ∧ Channel c = Channel ci ∧ CreateMsg c = CreateMsg ci) by (by destruct ci).
  destruct Hc as (E1 & E2 & E3 & E4). destruct (uuid_fresh s) as [Hu Hf]. split.
  - apply store_ok_put; [done|by rewrite E1|rewrite E2, Hnil; constructor|by rewrite E3, E4|].
    intros id' ci' a Hs Ha Hca. rewrite E3 in Hca. by destruct (Hnew id' ci' a).
  - intros id x a Hx Ha. exists x. rewrite E1, lookup_insert_ne by congruence. split_and!; [done..|apply keeps_refl].
Qed.

Lemma track_ok s ch r s' : store_ok s → readable 1 s → trackInboundChannel s ch = Ok (r, s') → step_ok s s'.
Proof.
  intros Hok Hread. unfold trackInboundChannel, TrackChannel. destruct (ByAddress 0 s ch) as [ci|e]; [intros [= _ <-]; by apply step_ok_refl|].
  destruct e; try done. unfold loadStateChannelInfo. destruct (GetPaychState ch) as [st|]; simpl; [|done].
  destruct (ResolveToKeyAddress (ps_From st)) as [from|]; simpl; [|done]. destruct (ResolveToKeyAddress (ps_To st)) as [to|]; simpl; [|done].
  destruct (StateAccountKey to) as [key|]; simpl; [|done]. destruct (WalletHas key) as [[|]|]; simpl; try done.
  destruct (ByAddress 1 s ch) as [ci|e] eqn:Eb; [done|]. destruct e; try done.
  destruct (putChannelInfo s _) as [[ci1 s1]|] eqn:Ep; simpl; [|done]. intros [= _ <-].
  eapply put_fresh_ok; [done|..|exact Ep]; [done..|]. intros id' ci' a Hs Ha [= <-]. by apply (not_tracked 1 s ch Hread Eb id' ci' Hs).
Qed.

(** Changes to the amounts and messages of a channel. *)
Lemma mutate_ok s id mutate : store_ok s →
  (∀ ci, same_channel ci (mutate ci) ∧ Vouchers (mutate ci) = Vouchers ci) → step_ok s (mutateChannelInfo s id mutate).
Proof.
  intros Hok Hm. unfold mutateChannelInfo. destruct (ds_Get s id) as [ci|] eqn:Eg; [|by apply step_ok_refl]. apply get_spec in Eg.
  destruct (so_id _ Hok _ _ Eg) as [<- Hid]. destruct (putChannelInfo s (mutate ci)) as [[c s1]|] eqn:Ep; [|by apply step_ok_refl].
  destruct (Hm ci) as [? ?]. by eapply put_ok.
Qed.
End Invariant.

Section Funds.
Context `{PaychNodeLaws} `{ReqSort} (from to : address).

#[local] Ltac same_fields := intros c; destruct c; by repeat split.

Lemma createPaych_ok ca amt avail : store_ok (ca_store ca) → step_ok (ca_store ca) (ca_store (createPaych from to ca amt avail).2).
Proof.
  intros Hok. unfold createPaych, CreateChannel. destruct (push_create from to amt) as [mcid|]; [|by apply step_ok_refl].
  destruct (putChannelInfo (ca_store ca) _) as [[c s1]|] eqn:Ep; simpl; [|by apply step_ok_refl].
  assert (step_ok (ca_store ca) s1) by (eapply put_fresh_ok; [done|..|exact Ep]; done).
  by destruct (SaveNewMessage (ChannelID c) mcid).
Qed.

Lemma addFunds_ok ci amt avail ca : store_ok (ca_store ca) → step_ok (ca_store ca) (ca_store (addFunds ci amt avail ca).2).
Proof.
  intros Hok. unfold addFunds. destruct (Channel ci); [|by apply step_ok_refl]. destruct (push_funds _ _ _); [|by apply step_ok_refl].
  simpl. apply mutate_ok; [done|same_fields].
Qed.

Lemma completeAvailable_ok act reqs ci amt av ca : store_ok (ca_store ca) →
  step_ok (ca_store ca) (ca_store (completeAvailable act reqs ci amt av ca).2).
Proof.
  intros Hok. unfold completeAvailable. destruct (completeAmount _ _ _ _) as [[[[res used] failed] out] rest]. simpl.
  eapply step_ok_trans; [|intros Hok'; apply mutate_ok; [done|same_fields]]. apply mutate_ok; [done|same_fields].
Qed.

Lemma processTask_ok act reqs amt avail ca : store_ok (ca_store ca) →
  step_ok (ca_store ca) (ca_store (processTask from to act reqs amt avail ca).2).
Proof.
  intros Hok. pose proof (step_ok_refl _ Hok) as Hrefl. unfold processTask. destruct (OutboundActiveByFromTo from to (ca_store ca)) as [ci|e].
  - destruct (CreateMsg ci); [done|]. destruct (AddFundsMsg ci); [done|].
    pose proof (completeAvailable_ok act reqs ci amt avail ca Hok) as Hc.
    destruct (completeAvailable act reqs ci amt avail ca) as [[[res amt'] rest] ca1]. simpl in Hc.
    destruct (match res with Some _ => true | None => _ end); [done|]. pose proof (step_ok_trans _ _ _ Hc (addFunds_ok ci amt' avail ca1)).
    by destruct (addFunds ci amt' avail ca1) as [[m|e] ca2].
  - destruct e; try done. destruct (failOffChainNoChannel act reqs) as [[[res freed] out] rest]. destruct res; [done|].
    pose proof (createPaych_ok (with_results ca out) (amt - freed) avail Hok).
    by destruct (createPaych from to (with_results ca out) (amt - freed) avail) as [[m|e] ca2].
Qed.

Lemma processQueue_ok active ca : store_ok (ca_store ca) → step_ok (ca_store ca) (ca_store (processQueue from to active ca)).
Proof.
  intros Hok. pose proof (step_ok_refl _ Hok). unfold processQueue. set (ca0 := with_queue ca _). destruct (fundsReqQueue ca0) as [|q qs]; [done|].
  destruct (req_sum _ _) as [amt avail]. destruct (amt =? 0); [done|].
  pose proof (processTask_ok (active 2%nat) (sort_reqs (q :: qs)) amt avail ca0 Hok).
  by destruct (processTask from to _ _ amt avail ca0) as [[[res|] rest] ca1].
Qed.

(** The channel that the message creates has no address yet, so none that has one changes. *)
Lemma created_ok id r ca : store_ok (ca_store ca) →
  (∀ ci, ca_store ca !! id = Some ci → CreateMsg ci ≠ None) →
  (∀ a id' ci, r = WaitDone a → ca_store ca !! id' = Some ci → Channel ci ≠ Some a) →
  step_ok (ca_store ca) (ca_store (waitPaychCreateMsg id r ca)).
Proof.
  intros Hok Hcr Hnew. pose proof (step_ok_refl _ Hok). destruct r as [| |a]; simpl; [done| |].
  - destruct (ds_Delete (ca_store ca) id) as [s|] eqn:Ed; [|done]. apply delete_spec in Ed. subst s. simpl. split.
    + destruct Hok as [Hi Ha Hv Hc]. split; intros *; rewrite ?lookup_delete_Some; naive_solver.
    + intros id' ci a Hci Ha. exists ci. rewrite lookup_delete_Some. split_and!; [|done..|apply keeps_refl].
      intros <-. by rewrite (so_create _ Hok id ci Hci (Hcr ci Hci)) in Ha.
  - unfold mutateChannelInfo. destruct (ds_Get (ca_store ca) id) as [ci|] eqn:Eg; [|done]. apply get_spec in Eg.
    destruct (so_id _ Hok _ _ Eg) as [<- Hid]. pose proof (so_vouchers _ Hok _ _ Eg) as Hnd.
    match goal with |- context [putChannelInfo _ ?x] => set (ci' := x); destruct (putChannelInfo _ ci') as [[c s1]|] eqn:Ep end; [|done].
    assert (Hc : ChannelID ci' = ChannelID ci ∧ Channel ci' = Some a ∧ Vouchers ci' = Vouchers ci ∧ CreateMsg ci' = None) by (subst ci'; by destruct ci).
    destruct Hc as (E1 & E2 & E3 & E4). apply putChannelInfo_spec in Ep as [_ ->]; [|by rewrite E1]. split.
    + apply store_ok_put; [done|by rewrite E1|by rewrite E3|by rewrite E4|].
      intros id' c' b Hs Hb Hb'. rewrite E2 in Hb'. injection Hb' as <-. by destruct (Hnew a id' c' eq_refl Hs).
    + intros id' x b Hx Hb. exists x. rewrite E1, lookup_insert_ne; [split_and!; [done..|apply keeps_refl]|].
      intros <-. by rewrite (so_create _ Hok _ _ Hx (Hcr x Hx)) in Hb.
Qed.

Lemma added_ok id r ca : store_ok (ca_store ca) → step_ok (ca_store ca) (ca_store (waitAddFundsMsg id r ca)).
Proof. intros Hok. destruct r; simpl; [by apply step_ok_refl|apply mutate_ok; [done|same_fields]..]. Qed.
End Funds.

Lemma store_step_ok s s' : store_ok s → store_step s s' → step_ok s s'.
Proof.
  intros Hok Hst. revert Hok. destruct Hst as [n l k s ch sv d delta s' Hr|n l s ch v sv s' Hr|n l s ch sv secret c s' Hr|n l s ch c s' Hr
    |n l s ch lane s' Hr|n l s ch r s' Hq Hr|n l rs from to active ca|n l id r ca Hcr Hnew|n l id r ca]; intros Hok.
  - by eapply addVoucher_ok.
  - unfold createVoucher in Hr. destruct (ByAddress 0 s ch) as [ci|]; simpl in Hr; [|done].
    destruct (SigningBytes _) as [vb|]; simpl in Hr; [|done]. destruct (WalletSign _ _) as [sig|]; simpl in Hr; [|done].
    destruct (addVoucherUnlocked 1 s ch _ 0) as [[delta s1]|[]] eqn:Ea; try done. injection Hr as _ <-. by eapply addVoucher_ok.
  - by eapply submitVoucher_ok.
  - unfold settle in Hr. destruct (ByAddress 0 s ch) as [ci|] eqn:Eb; simpl in Hr; [|done]. destruct (push_settle _ _); simpl in Hr; [|done].
    destruct (putChannelInfo s _) as [[c1 s1]|] eqn:Ep; simpl in Hr; [|done]. injection Hr as _ <-.
    eapply edit_ok; [done|done|..|exact Ep]; by destruct ci.
  - unfold AllocateLane in Hr. destruct (ByAddress 0 s ch) as [ci|] eqn:Eb; simpl in Hr; [|done].
    destruct (putChannelInfo s _) as [[c1 s1]|] eqn:Ep; simpl in Hr; [|done]. injection Hr as _ <-.
    eapply edit_ok; [done|done|..|exact Ep]; by destruct ci.
  - by eapply track_ok.
  - by apply processQueue_ok.
  - by apply created_ok.
  - by apply added_ok.
Qed.

Lemma steps_ok s s' : store_ok s → rtc store_step s s' → step_ok s s'.
Proof.
  intros Hok. induction 1 as [s|s s1 s' Hst _ IH]; [by apply step_ok_refl|]. eapply step_ok_trans; [by apply store_step_ok|]. exact IH.
Qed.

Lemma store_reachable s : rtc store_step ∅ s → store_ok s.
Proof. intros Hr. by apply (steps_ok ∅ s store_ok_empty). Qed.
