(* ===== verification/PaychTheorems.v ===== *)
(** The theorems on payment channels, with their examples. *)

From coqutil Require Import Datatypes.RecordSetters.
From S2P Require Import Prelude Types Paych PaychProps PaychFunds PaychFundsProps PaychStore.
Import DoubleBraceUpdate.

(** * Vouchers *)


(** When [createVoucher] reports a shortfall, it is what the balance of the channel
    lacks for the voucher it made, exactly: the checks against the lanes pass from that
    balance on and not below. *)
Theorem shortfall_exact `{PaychNodeLaws} s ch voucher shortfall (Hcr : createVoucher s ch voucher = Ok (inr shortfall)) :
  ∃ ci st lanes sv, ByAddress 0 s ch = Ok ci ∧ GetPaychState ch = Some st ∧ laneState 2 s st ch = Ok lanes ∧
    Lane sv = Lane voucher ∧ Amount sv = Amount voucher ∧ sv_Nonce sv = nextNonceForLane ci (Lane voucher) ∧
    0 < shortfall ∧ ∀ b, check_lane lanes sv b = Ok tt ↔ Balance st + shortfall <= b.
Proof.
  unfold createVoucher in Hcr. destruct (ByAddress 0 s ch) as [ci|] eqn:Eb; simpl in Hcr; [|done].
  destruct (SigningBytes _) as [vb|]; simpl in Hcr; [|done]. destruct (WalletSign _ _) as [sig|]; simpl in Hcr; [|done].
  match type of Hcr with context [addVoucherUnlocked 1 s ch ?x 0] => set (sv := x) in Hcr end.
  destruct (addVoucherUnlocked 1 s ch sv 0) as [[? ?]|e] eqn:Ea; [done|]. destruct e; try done. injection Hcr as ->.
  apply addVoucher_short, checkVoucherValid_short in Ea as (st & lanes & Est & Hl & Hc). destruct (check_lane_shortfall _ _ _ _ Hc) as [? ?].
  exists ci, st, lanes, sv. split_and!; try done; by destruct voucher.
Qed.



(** * Funds *)

(** C16: However requests come in, are cancelled and merged, and messages succeed or fail,
    what a channel has available and pending available is never negative; in a calm run,
    where no off-chain request is cancelled between the filter of the queue and the sum of
    its amounts, a channel never has more available than was confirmed, nor more pending
    available than pending.  The datastore does not fail. *)
Theorem channel_funds_bounded `{PaychNodeLaws} `{ReqSortLaws} from to calm (Hrel : reliable) ca
    (Hrun : rtc (fund_step from to calm) (mkAccessor ∅ [] [] []) ca) id ci :
  ca_store ca !! id = Some ci →
  0 <= AvailableAmount ci ∧ 0 <= PendingAvailableAmount ci ∧
  (calm = true → AvailableAmount ci <= ci_Amount ci ∧ PendingAvailableAmount ci <= PendingAmount ci).
Proof.
  assert (Hi : acc_inv calm ca).
  { revert ca Hrun. apply (rtc_ind_r (fun ca => acc_inv calm ca)).
    - split; [|constructor]. intros i c E. simpl in E. by rewrite lookup_empty in E.
    - intros a b _ Hst Ha. by eapply fund_step_inv. }
  intros Hc. by destruct (proj1 Hi id ci Hc) as (_ & _ & ?).
Qed.

(** C31: The requests active in [act] are summed, then those still active in [act'] are
    filled from the available funds of the channel: every one of these is answered or
    left, once and in order; what is filled was available, only off-chain requests fail,
    and what remains to be paid for is the sum without what was answered, which covers the
    requests that are left and is their amount when nothing was cancelled in between.
    When the datastore does not fail, what is filled is deducted from what is available. *)
Theorem requests_filled_once `{PaychNodeLaws} act act' reqs ci amt av ca res amt' rest ca'
    (Hci : ca_store ca !! ChannelID ci = Some ci) (Hid : ChannelID ci ≠ "") (Hav : 0 <= AvailableAmount ci)
    (Hreqs : Forall req_ok reqs) (Hact : ∀ r, act' r = true → act r = true) (Hsum : req_sum act reqs = (amt, av))
    (Hfill : completeAvailable act' reqs ci amt av ca = (res, amt', rest, ca')) :
  ∃ out, promises ca' = promises ca ++ out ∧
    out.*1 ++ filter (fun r => act' r = true) rest = filter (fun r => act' r = true) reqs ∧
    Forall (fun p => Reserve p.1 = true ∧ (res_err p.2 = true → OffChain p.1 = true)) out ∧
    filled out <= AvailableAmount ci ∧
    amt' = amt - amounts out.*1 ∧ amounts (filter (fun r => act' r = true) rest) <= amt' ∧
    ((∀ r, r ∈ reqs → act r = true → act' r = true) → amt' = amounts (filter (fun r => act' r = true) rest)) ∧
    (reliable → ca_store ca' = <[ChannelID ci := ci{{AvailableAmount := AvailableAmount ci - filled out}}]> (ca_store ca)).
Proof.
  assert (Hnn : Forall (fun r => 0 <= rq_amt r) reqs) by (eapply Forall_impl; [exact Hreqs|by intros r []]).
  rewrite req_sum_spec in Hsum. injection Hsum as <- <-.
  assert (Hres : 0 <= amounts (filter (fun r => act r = true) reqs) -
                      amounts (filter (fun r => Reserve r = false) (filter (fun r => act r = true) reqs))).
  { rewrite to_reserve. apply amounts_nonneg, Forall_forall. intros r [_ Hr]%list_elem_of_filter. rewrite Forall_forall in Hnn. by apply Hnn. }
  pose proof Hfill as Hstore. apply completeAvailable_spec in Hfill as (out & Hp & Ho & ? & -> & ? & _); try done. exists out.
  assert (Hsplit : amounts out.*1 + amounts (filter (fun r => act' r = true) rest) = amounts (filter (fun r => act' r = true) reqs))
    by (by rewrite <- Ho, amounts_app).
  pose proof (amounts_filter_le (fun r => act' r = true) (fun r => act r = true) reqs Hnn (fun r _ => Hact r)).
  split_and!; try done; [lia| |intros Hrel; by eapply completeAvailable_store].
  intros Hback. pose proof (amounts_filter_le (fun r => act r = true) (fun r => act' r = true) reqs Hnn Hback). lia.
Qed.

(** Requests for nothing are neither answered nor taken from the queue. *)
Lemma zero_requests_wait `{PaychNode} `{ReqSortLaws} from to active ca :
  Forall (fun r => rq_amt r = 0) (fundsReqQueue ca) →
  promises (processQueue from to active ca) = promises ca ∧
  fundsReqQueue (processQueue from to active ca) = filter (fun r => active 0%nat r = true) (fundsReqQueue ca).
Proof.
  intros Hz. unfold processQueue. set (ca0 := with_queue ca _). destruct (fundsReqQueue ca0) as [|q qs] eqn:Eq.
  { done. }
  assert (Hzero : ∀ l, Forall (fun r => rq_amt r = 0) l → amounts l = 0).
  { intros l. induction 1 as [|r l Hr _ IH]; [done|]. unfold amounts in *. rewrite sumZ_cons. lia. }
  rewrite req_sum_spec, Hzero; [done|]. apply Forall_forall. intros r [_ Hr]%list_elem_of_filter.
  rewrite sort_reqs_perm, <- Eq in Hr. apply list_elem_of_filter in Hr as [_ Hr]. rewrite Forall_forall in Hz. by apply Hz.
Qed.

Section Twice.
Context `{PaychNodeLaws} `{ReqSortLaws} (from to : address).

(** The request that reserves comes before the one for nothing. *)
Lemma sort_pair r z : Reserve r = true → Reserve z = false → OffChain z = false → sort_reqs [r; z] = [r; z].
Proof.
  intros Hr Hz Ho. pose proof (sort_reqs_perm [r; z]) as Hp. pose proof (sort_reqs_sorted [r; z]) as Hs.
  destruct (Permutation_length_2_inv (symmetry Hp)) as [?|E]; [done|]. exfalso. rewrite E in Hs. apply StronglySorted_inv in Hs as [_ Hf].
  rewrite Forall_singleton in Hf. unfold req_less in Hf. rewrite Hr, Hz, Ho in Hf. by destruct (OffChain r).
Qed.

(** A run over the queue fills the request and leaves the queue as it was. *)
Lemma filled_stays (Hrel : reliable) active ca ci r z :
  fundsReqQueue ca = [r; z] → (∀ k, active k r = true ∧ active k z = true) →
  OutboundActiveByFromTo from to (ca_store ca) = Ok ci → ca_store ca !! ChannelID ci = Some ci → ChannelID ci ≠ "" →
  CreateMsg ci = None → AddFundsMsg ci = None → Reserve r = true → Reserve z = false → OffChain z = false →
  0 < rq_amt r <= AvailableAmount ci → rq_amt z = 0 →
  processQueue from to active ca =
    mkAccessor (<[ChannelID ci := reserved ci (rq_amt r)]> (ca_store ca)) [r; z]
      (promises ca ++ [(r, mkFundsRes (Channel ci) None false)]) (waits ca).
Proof.
  intros Hq Hact Ho Hci Hid Hcr Hadd Hr Hz Hoz Ha Hz0. unfold processQueue. rewrite Hq. simpl.
  rewrite !filter_cons_True, filter_nil by apply Hact. rewrite (sort_pair r z Hr Hz Hoz). unfold req_sum. simpl.
  rewrite (proj1 (Hact 1%nat)), (proj2 (Hact 1%nat)), Hr, Hz, Hz0, !Z.add_0_l, Z.add_0_r. simpl.
  destruct (Z.eqb_spec (rq_amt r) 0) as [?|_]; [lia|].
  unfold processTask. simpl. rewrite Ho, Hcr, Hadd.
  destruct (completeAvailable _ _ _ _ _ _) as [[[res amt'] rest] ca'] eqn:Ec.
  assert (Hfill : res = None ∧ amt' = 0 ∧ promises ca' = promises ca ++ [(r, mkFundsRes (Channel ci) None false)] ∧
    fundsReqQueue ca' = [r; z] ∧ waits ca' = waits ca).
  { revert Ec. unfold completeAvailable, completeAmount. simpl. rewrite (proj1 Hrel _ _ _ Hci), Hr, Hz, (proj1 (Hact 2%nat)). simpl.
    destruct (Z.ltb_spec (Z.min (AvailableAmount ci) (rq_amt r - 0) - 0) (rq_amt r)); [lia|]. simpl.
    intros [= <- <- <- <-]. split_and!; [done|lia|done..]. }
  destruct Hfill as (-> & -> & Hp & Hqu & Hw). simpl.
  apply (fun E => completeAvailable_store Hrel _ _ ci (rq_amt r) 0 (with_queue ca [r; z]) _ _ _ _ [(r, mkFundsRes (Channel ci) None false)] Hci Hid ltac:(lia) ltac:(lia) E Hp) in Ec as Hs.
  destruct ca' as [s q p w]. simpl in *. subst. f_equal. f_equal. f_equal. unfold filled, sumZ. simpl. lia.
Qed.

(** C40: A request that was filled can stay in the queue and be filled again: when a request
    that reserves waits with one for nothing, the channel is there, has no message in
    progress and twice the amount available, two runs over the queue answer the request
    twice, take its amount twice from what is available and still leave both in the queue. *)
Theorem request_filled_twice (Hrel : reliable) active ca ci r z
    (Hq : fundsReqQueue ca = [r; z]) (Hact : ∀ k, active k r = true ∧ active k z = true)
    (Hfind : ∀ d, let c := ci{{AvailableAmount := d}} in OutboundActiveByFromTo from to (<[ChannelID ci := c]> (ca_store ca)) = Ok c)
    (Hci : ca_store ca !! ChannelID ci = Some ci) (Hid : ChannelID ci ≠ "") (Hcr : CreateMsg ci = None) (Hadd : AddFundsMsg ci = None)
    (Hr : Reserve r = true) (Hz : Reserve z = false) (Hoz : OffChain z = false)
    (Ha : 0 < rq_amt r) (Ha2 : 2 * rq_amt r <= AvailableAmount ci) (Hz0 : rq_amt z = 0) :
  let answer := (r, mkFundsRes (Channel ci) None false) in
  processQueue from to active (processQueue from to active ca) =
    mkAccessor (<[ChannelID ci := ci{{AvailableAmount := AvailableAmount ci - 2 * rq_amt r}}]> (ca_store ca)) [r; z]
      (promises ca ++ [answer; answer]) (waits ca).
Proof.
  intros answer. assert (Eci : ci{{AvailableAmount := AvailableAmount ci}} = ci) by (by destruct ci).
  pose proof (Hfind (AvailableAmount ci)) as Hf0. cbv zeta in Hf0. rewrite Eci, insert_id in Hf0 by done.
  rewrite (filled_stays Hrel active ca ci r z) by (done || lia).
  set (ci1 := reserved ci (rq_amt r)). assert (Hid1 : ChannelID ci1 = ChannelID ci) by (by destruct ci).
  rewrite (filled_stays Hrel active _ ci1 r z); simpl; rewrite ?Hid1; try done.
  - rewrite insert_insert_eq, <- app_assoc. simpl. f_equal. f_equal. subst ci1. unfold reserved. destruct ci. simpl. unfold constant. f_equal. lia.
  - apply (Hfind (AvailableAmount ci - rq_amt r)).
  - apply lookup_insert_eq.
  - subst ci1. unfold reserved. destruct ci. simpl in *. unfold constant. lia.
Qed.
End Twice.

(** * Examples *)

Module PaychExample.
Definition payer : address := IDAddr 100.
Definition payee : address := IDAddr 101.
Definition chan : address := IDAddr 200.

(** The channel has 10 on chain and no lanes yet. *)
#[export] Instance node : PaychNode := {|
  ds_Query _ s := Some ((fun p => Entry p.2) <$> map_to_list s);
  ds_Put s id ci := Some (<[id := ci]> s);
  ds_Get s id := s !! id;
  ds_Delete s id := Some (delete id s);
  new_uuid s := if s !! "id" then fresh ({[""]} ∪ dom s) else "id";
  cbor_Equals a b := Some (bool_decide (a = b));
  SigningBytes _ := Some "bytes";
  sigs_Verify sig _ _ := bool_decide (sig = Some "signed");
  WalletSign _ _ := Some "signed";
  WalletHas _ := Some true;
  GetPaychState _ := Some (mkPaychState 10 payer payee 0 []);
  ResolveToKeyAddress a := Some a;
  StateAccountKey a := Some a;
  push_update _ _ _ _ := Some "update";
  push_settle _ _ := Some "settle";
  push_collect _ _ := Some "collect";
  push_create _ _ _ := Some "create";
  push_funds _ _ _ := Some "funds";
  SaveNewMessage _ _ := Some tt;
  call_update _ _ _ _ := Some true;
|}%string.

#[export] Instance node_laws : PaychNodeLaws.
Proof.
  split; simpl.
  - intros _ s l ci [= <-] Hin. apply list_elem_of_fmap in Hin as ([id c] & E & Hin). injection E as ->.
    exists id. by apply elem_of_map_to_list.
  - intros _ s l id ci [= <-] _ _ Hs. apply list_elem_of_fmap. exists (id, ci). split; [done|]. by apply elem_of_map_to_list.
  - done.
  - by intros s id s' [= <-].
  - by intros s id ci s' [= <-].
  - intros s. destruct (s !! "id"%string) eqn:E; [|done]. pose proof (is_fresh ({[""]} ∪ dom s)) as Hf.
    split; [set_solver|]. apply not_elem_of_dom. set_solver.
  - by intros a b r [= <-].
Qed.

Lemma node_readable k s : readable k s.
Proof. intros q [= <-]. set_solver. Qed.

Lemma node_reliable : reliable.
Proof. split; simpl; eauto. Qed.

#[export] Instance insertion : ReqSort := {| sort_reqs := sort_by req_less |}.

#[export] Instance insertion_laws : ReqSortLaws.
Proof.
  split; simpl.
  - apply sort_by_perm.
  - intros l. apply (sort_by_sorted req_less (fun _ => True)); [| |by apply Forall_true].
    + intros [i a [|] [|]] [j b [|] [|]] _ _; unfold req_less; simpl; try done; intros E%Z.ltb_lt; apply Z.ltb_ge; lia.
    + intros [i a [|] [|]] [j b [|] [|]] [k c [|] [|]] _ _ _; unfold not_after, req_less; simpl; try done;
        intros E1%Z.ltb_ge E2%Z.ltb_ge; apply Z.ltb_ge; lia.
Qed.

Definition voucher (lane nonce amount : Z) : SignedVoucher :=
  mkVoucher chan 0 0 "" None lane nonce amount 0 [] (Some "signed"%string).

Definition channel (vs : list VoucherInfo) : ChannelInfo :=
  mkChannelInfo "id" (Some chan) payer payee DirOutbound vs 0 10 10 0 0 None None false.

(** The channel from the side of the payee, tracked with its first voucher. *)
Definition inbound (lane : Z) (vs : list VoucherInfo) : ChannelInfo :=
  mkChannelInfo "id" (Some chan) payee payer DirInbound vs lane 0 0 0 0 None None false.

Definition start : gmap string ChannelInfo := {["id"%string := inbound 1 [mkVoucherInfo (voucher 0 1 4) false]]}.

Lemma run_start : rtc store_step ∅ start.
Proof.
  eapply (rtc_l _ _ {["id"%string := inbound 0 []]}).
  - apply (ss_track node node_laws _ chan (Ok (inbound 0 []))); [apply node_readable|reflexivity].
  - apply rtc_once, (ss_add node node_laws 0 _ chan (voucher 0 1 4) 0 4). reflexivity.
Qed.


(** A voucher on the last lane: the next lane that is allocated is the first. *)
Lemma last_lane_wraps : ∃ delta s s', addVoucherUnlocked 0 start chan (voucher (2 ^ 64 - 1) 1 6) 0 = Ok (delta, s) ∧
  AllocateLane s chan = Ok (0, s').
Proof. eexists _, _, _. split; reflexivity. Qed.

(** Five are to be reserved, and nothing is to be added. *)
Definition reserving : fundsReq := mkFundsReq 0 5 true false.
Definition nothing : fundsReq := mkFundsReq 1 0 false false.
Definition paying : fundsReq := mkFundsReq 2 10 false false.

Definition no_channels : channelAccessor := mkAccessor ∅ [] [] [].
Definition all_active (k : nat) (r : fundsReq) : bool := true.

(** The channel is created with ten available, then both requests come in. *)
Definition created : channelAccessor := processQueue payer payee all_active (enqueue paying no_channels).
Definition queued : channelAccessor := enqueue nothing (enqueue reserving (waitPaychCreateMsg "id" (WaitDone chan) created)).

Lemma run_created calm : rtc (fund_step payer payee calm) no_channels created.
Proof. eapply rtc_l; [by apply (fs_enqueue _ _ _ paying)|]. apply rtc_once. by apply fs_process. Qed.

Lemma run_queued calm : rtc (fund_step payer payee calm) no_channels queued.
Proof.
  etransitivity; [apply run_created|]. eapply rtc_l; [apply (fs_created _ _ _ "id" "create" (WaitDone chan)); left|].
  eapply rtc_l; [by apply (fs_enqueue _ _ _ reserving)|]. apply rtc_once. by apply fs_enqueue.
Qed.

(** An off-chain request that is cancelled after the queue was filtered: its amount was
    not summed and is still taken off what the channel is created with, so that the
    channel ends with more available than it has. *)
Definition off_chain : fundsReq := mkFundsReq 3 5 true true.
Definition cancelled (k : nat) (r : fundsReq) : bool := Nat.eqb k 0 || negb (OffChain r).

Theorem cancelled_request_overcommits : ∃ ca ci, rtc (fund_step payer payee false) no_channels ca ∧
  ca_store ca !! "id"%string = Some ci ∧ ci_Amount ci = 5 ∧ AvailableAmount ci = 10.
Proof.
  exists (waitPaychCreateMsg "id" (WaitDone chan) (processQueue payer payee cancelled (enqueue paying (enqueue off_chain no_channels)))).
  eexists. split; [|split; [reflexivity|done]].
  eapply rtc_l; [by apply (fs_enqueue _ _ _ off_chain)|]. eapply rtc_l; [by apply (fs_enqueue _ _ _ paying)|].
  eapply rtc_l; [apply (fs_process _ _ _ cancelled)|apply rtc_once, (fs_created _ _ _ "id" "create"); left]; [|done].
  by intros [|k] r.
Qed.

(** A node whose second query fails to read: the voucher is checked against the lanes on
    chain alone, and the channel ends with vouchers for more than its balance. *)
Definition unreadable : PaychNode := {|
  ds_Query k s := Some (if Nat.eqb k 1 then [ReadError] else (fun p => Entry p.2) <$> map_to_list s);
  ds_Put := ds_Put;
  ds_Get := ds_Get;
  ds_Delete := ds_Delete;
  new_uuid := new_uuid;
  cbor_Equals := cbor_Equals;
  SigningBytes := SigningBytes;
  sigs_Verify := sigs_Verify;
  WalletSign := WalletSign;
  WalletHas := WalletHas;
  GetPaychState := GetPaychState;
  ResolveToKeyAddress := ResolveToKeyAddress;
  StateAccountKey := StateAccountKey;
  push_update := push_update;
  push_settle := push_settle;
  push_collect := push_collect;
  push_create := push_create;
  push_funds := push_funds;
  SaveNewMessage := SaveNewMessage;
  call_update := call_update;
|}.

Theorem unread_vouchers_overspend : rtc store_step ∅ start ∧
  ∃ s' ci, @addVoucherUnlocked unreadable 0 start chan (voucher 1 1 10) 0 = Ok (10, s') ∧ ByAddress 0 s' chan = Ok ci ∧
    sumZ (fun v => Amount (Voucher v)) (Vouchers ci) = 14 ∧ option_map Balance (GetPaychState chan) = Some 10.
Proof. split; [apply run_start|]. eexists _, _. split_and!; reflexivity. Qed.
End PaychExample.
Import PaychExample.


Lemma shortfall_exact_witness : ∃ lanes sv, 0 < 2 ∧ ∀ b, check_lane lanes sv b = Ok tt ↔ 10 + 2 <= b.
Proof.
  assert (E : createVoucher start chan (voucher 1 0 8) = Ok (inr 2)) by (by vm_compute).
  destruct (shortfall_exact start chan (voucher 1 0 8) 2 E) as (ci & st & lanes & sv & _ & Est & _ & _ & _ & _ & Hp & Hb).
  exists lanes, sv. split; [done|]. injection Est as <-. exact Hb.
Defined.


Lemma channel_funds_bounded_witness : ∃ ci, ca_store created !! "id"%string = Some ci ∧ PendingAmount ci = 10 ∧
  PendingAvailableAmount ci <= PendingAmount ci.
Proof.
  assert (∃ ci, ca_store created !! "id"%string = Some ci ∧ PendingAmount ci = 10) as (ci & Hc & E) by (eexists; split; reflexivity).
  exists ci. split; [done|]. split; [done|].
  apply (channel_funds_bounded payer payee true node_reliable created (run_created true) "id" ci Hc). done.
Defined.

(** The second request is cancelled after the sum. *)
Lemma requests_filled_once_witness : ∃ out rest amt' ca',
  completeAvailable (fun r => negb (Nat.eqb (rq_id r) 2)) [reserving; paying] (channel []) 15 10 queued = (None, amt', rest, ca') ∧
  promises ca' = promises queued ++ out ∧ filled out <= 10 ∧ amounts (filter (fun r => negb (Nat.eqb (rq_id r) 2) = true) rest) <= amt'.
Proof.
  destruct (completeAvailable (fun r => negb (Nat.eqb (rq_id r) 2)) [reserving; paying] (channel []) 15 10 queued) as [[[res amt'] rest] ca'] eqn:E.
  destruct (requests_filled_once (fun _ => true) (fun r => negb (Nat.eqb (rq_id r) 2)) [reserving; paying] (channel []) 15 10 queued res amt' rest ca'
              eq_refl ltac:(done) ltac:(done) ltac:(by repeat constructor) ltac:(done) eq_refl E) as (out & Hp & _ & _ & Hf & _ & Ha & _).
  exists out, rest, amt', ca'. assert (res = None) as -> by (by injection E as <-). done.
Defined.

Lemma request_filled_twice_witness : rtc (fund_step payer payee true) no_channels queued ∧
  AvailableAmount <$> ca_store queued !! "id"%string = Some 10 ∧
  AvailableAmount <$> ca_store (processQueue payer payee all_active (processQueue payer payee all_active queued)) !! "id"%string = Some 0.
Proof.
  split; [apply run_queued|]. split; [reflexivity|].
  rewrite (request_filled_twice payer payee node_reliable all_active queued (channel []) reserving nothing); try done.
Defined.
