(* ===== verification/TsCache.v ===== *)
(** The tipset cache of the event subsystem (src/chain/events/tscache.go): a ring
    buffer over the last epochs of the chain, with an index by key.

    The theorems relate the ring to the chain it follows: it agrees with the chain
    on the epochs it covers, and finds tipsets by height there. *)

From S2P Require Import Prelude Types Tipset ChainIndex.

(** The node behind the cache; [None] is an error. *)
Record tsCacheAPI := mkTsCacheAPI {
  api_GetTipSetAfterHeight : Z → bytes → option TipSet;
  api_GetTipSetByHeight : Z → bytes → option TipSet;
  api_GetTipSet : bytes → option TipSet;
  api_Head : option TipSet;
}.

Record tipSetCache := mkTipSetCache {
  byKey : gmap bytes TipSet;
  byHeight : list (option TipSet);
  start : Z;
  len : Z;
}.

Definition newTSCache (cap : nat) : tipSetCache := mkTipSetCache ∅ (replicate cap None) 0 0.

(** Go's [%] truncates. *)
Definition normalModulo (n m : Z) : Z := Z.rem (Z.rem n m + m) m.

Definition cap (c : tipSetCache) : Z := Z.of_nat (length (byHeight c)).
(** [tsc.byHeight[i]] for an index in range. *)
Definition at_index (c : tipSetCache) (i : Z) : option TipSet := byHeight c !!! Z.to_nat i.

Section Cache.
Variable storage : tsCacheAPI.

Definition ChainGetTipSet (tsk : bytes) (c : tipSetCache) : option TipSet :=
  match byKey c !! tsk with
  | Some ts => Some ts
  | None => api_GetTipSet storage tsk
  end.

(** The results of [get]: an error, a tipset that may be nil, a panic, or no result
    at all. *)
Inductive get_result := GetErr | Got (ts : option TipSet) | GetPanic | Diverges.

Definition fallback (prev : bool) (height : Z) (tsk : bytes) : get_result :=
  match (if prev then api_GetTipSetByHeight storage height tsk else api_GetTipSetAfterHeight storage height tsk) with
  | Some ts => Got (Some ts)
  | None => GetErr
  end.

(** [for i := 0; i < tsc.len && ts == nil; i += direction]. *)
Fixpoint get_loop (fuel : nat) (c : tipSetCache) (base i direction : Z) (ts : option TipSet) : get_result :=
  if (i <? len c) && negb (bool_decide (is_Some ts)) then
    match fuel with
    | O => Diverges
    | S fuel => get_loop fuel c base (i + direction) direction (at_index c (normalModulo (base + i) (cap c)))
    end
  else Got ts.

(** [get] from the tipset [head] on. *)
Definition get_from (head : TipSet) (height : Z) (prev : bool) (c : tipSetCache) : get_result :=
  let headH := ts_height head in
  let tailH := headH - len c in
  if headH =? height then Got (Some head)
  else if headH <? height then GetErr
  else if height <? tailH then fallback prev height (ts_Key head)
  else get_loop (length (byHeight c)) c (start c - (headH - height)) 0 (if prev then -1 else 1) None.

Definition get (height : Z) (tsk : bytes) (prev : bool) (c : tipSetCache) : get_result :=
  if len c =? 0 then fallback prev height tsk
  else if bool_decide (tsk = EmptyString) then
    match at_index c (start c) with
    | Some head => get_from head height prev c
    | None => GetPanic
    end
  else match byKey c !! tsk with
  | Some head => get_from head height prev c
  | None => fallback prev height tsk
  end.

Definition ChainGetTipSetByHeight (height : Z) (tsk : bytes) (c : tipSetCache) : get_result := get height tsk true c.
Definition ChainGetTipSetAfterHeight (height : Z) (tsk : bytes) (c : tipSetCache) : get_result := get height tsk false c.

Definition ChainHead (c : tipSetCache) : option TipSet :=
  match at_index c (start c) with
  | None => api_Head storage
  | Some best => Some best
  end.
End Cache.

(** [if was != nil { delete(tsc.byKey, was.Key()) }]. *)
Definition drop_key (was : option TipSet) (keys : gmap bytes TipSet) : gmap bytes TipSet :=
  match was with
  | Some was => delete (ts_Key was) keys
  | None => keys
  end.

(** [if tsc.len < len(tsc.byHeight) { tsc.len++ }]. *)
Definition grow (c : tipSetCache) : Z := if len c <? cap c then len c + 1 else len c.

(** One round of the loop over null rounds. *)
Definition add_null (c : tipSetCache) : tipSetCache :=
  let s := normalModulo (start c + 1) (cap c) in
  mkTipSetCache (drop_key (at_index c s) (byKey c)) (<[Z.to_nat s := None]> (byHeight c)) s (grow c).

(** The errors of [add] and [revert]; reading a nil tipset panics. *)
Inductive tsc_error := WrongHeight | WrongParents | RevertMismatch | NilTipSet.

(** The checks of [add] when the cache is not empty. *)
Definition add_check (to : TipSet) (c : tipSetCache) : option tsc_error :=
  if 0 <? len c then
    match at_index c (start c) with
    | Some best =>
        if ts_height to <=? ts_height best then Some WrongHeight
        else if negb (bool_decide (ts_Key best = ts_Parents to)) then Some WrongParents else None
    | None => Some NilTipSet
    end
  else None.

(** The number of null rounds before [to]. *)
Definition null_rounds (to : TipSet) (c : tipSetCache) : nat :=
  if 0 <? len c then
    match at_index c (start c) with
    | Some best => Z.to_nat (ts_height to - (ts_height best + 1))
    | None => 0
    end
  else 0.

Definition add (to : TipSet) (c : tipSetCache) : option tsc_error * tipSetCache :=
  match add_check to c with
  | Some err => (Some err, c)
  | None =>
      let c := Nat.iter (null_rounds to c) add_null c in
      let s := normalModulo (start c + 1) (cap c) in
      (None, mkTipSetCache (<[ts_Key to := to]> (drop_key (at_index c s) (byKey c)))
               (<[Z.to_nat s := Some to]> (byHeight c)) s (grow c))
  end.

(** [Key] of a pointer that may be nil. *)
Definition Key (ts : option TipSet) : bytes :=
  match ts with
  | None => EmptyString
  | Some ts => ts_Key ts
  end.

(** [revertUnlocked]; the recursion drops one epoch at a time. *)
Fixpoint revertUnlocked (fuel : nat) (ts : option TipSet) (c : tipSetCache) : option tsc_error * tipSetCache :=
  match fuel with
  | O => (None, c)
  | S fuel =>
      if len c =? 0 then (None, c)
      else
        let was := at_index c (start c) in
        if negb (TipSet_Equals was ts) then (Some RevertMismatch, c)
        else
          let c := mkTipSetCache (delete (Key was) (byKey c)) (<[Z.to_nat (start c) := None]> (byHeight c))
                     (normalModulo (start c - 1) (cap c)) (len c - 1) in
          (None, (revertUnlocked fuel None c).2)
  end.

Definition revert (from : TipSet) (c : tipSetCache) : option tsc_error * tipSetCache :=
  revertUnlocked (S (length (byHeight c))) (Some from) c.

(** The observer. *)
Definition Apply (to : TipSet) (c : tipSetCache) : option tsc_error * tipSetCache := add to c.
Definition Revert (from : TipSet) (c : tipSetCache) : option tsc_error * tipSetCache := revert from c.

(** * The ring *)

Lemma normalModulo_mod n m : 0 < m -> normalModulo n m = n mod m.
Proof.
  intros Hm. unfold normalModulo. pose proof (Z.rem_bound_abs n m ltac:(lia)) as Hb.
  rewrite Z.rem_mod_nonneg by lia. pose proof (Z.quot_rem' n m) as Hq.
  rewrite (Zplus_mod (Z.rem n m) m), Z_mod_same_full, Z.add_0_r, Zmod_mod.
  rewrite Hq at 2. by rewrite Z.add_comm, Z.mul_comm, Z_mod_plus_full.
Qed.

(** The entry [i] epochs before the last one. *)
Definition slot (c : tipSetCache) (i : Z) : option TipSet := at_index c ((start c - i) mod cap c).

Lemma mod_index x m : 0 < m -> (Z.to_nat (x mod m) < Z.to_nat m)%nat.
Proof. intros Hm. pose proof (Z.mod_pos_bound x m Hm). lia. Qed.

Lemma ring_set (l : list (option TipSet)) x y v m : Z.of_nat (length l) = m -> 0 < m ->
  <[Z.to_nat (x mod m) := v]> l !!! Z.to_nat (y mod m) = if decide (x mod m = y mod m) then v else l !!! Z.to_nat (y mod m).
Proof.
  intros Hl Hm. pose proof (Z.mod_pos_bound x m Hm). pose proof (Z.mod_pos_bound y m Hm). case_decide as He.
  - rewrite He, list_lookup_total_insert_eq; [done|lia].
  - rewrite list_lookup_total_insert_ne; [done|lia].
Qed.

Lemma mod_sub_ne x i m : 0 < i < m -> x mod m ≠ (x - i) mod m.
Proof.
  intros Hi He. assert (H : (x - (x - i)) mod m = 0) by (rewrite Zminus_mod, He, Z.sub_diag; apply Zmod_0_l).
  replace (x - (x - i)) with i in H by lia. rewrite Z.mod_small in H; lia.
Qed.

(** A new epoch, with the tipset [x] or none. *)
Definition push (x : option TipSet) (c : tipSetCache) : tipSetCache :=
  let s := (start c + 1) mod cap c in
  let keys := drop_key (at_index c s) (byKey c) in
  mkTipSetCache (match x with Some t => <[ts_Key t := t]> keys | None => keys end)
    (<[Z.to_nat s := x]> (byHeight c)) s (grow c).

Lemma add_null_push c : 0 < cap c -> add_null c = push None c.
Proof. intros Hc. unfold add_null, push. by rewrite normalModulo_mod by done. Qed.

Lemma push_slot x c i : 0 < cap c -> 0 <= i < cap c -> slot (push x c) i = if decide (i = 0) then x else slot c (i - 1).
Proof.
  intros Hc Hi. unfold slot, at_index, push, cap in *. cbn [byHeight start]. rewrite length_insert. set (m := Z.of_nat _) in *.
  rewrite (Zminus_mod_idemp_l (start c + 1)), ring_set by done. replace (start c + 1 - i) with (start c - (i - 1)) by lia.
  destruct (decide (i = 0)) as [->|Hne].
  - rewrite decide_True; [done|]. f_equal; lia.
  - rewrite decide_False; [done|]. replace (start c - (i - 1)) with (start c + 1 - i) by lia. apply mod_sub_ne. lia.
Qed.

(** The last epoch dropped. *)
Definition pop (c : tipSetCache) : tipSetCache :=
  mkTipSetCache (delete (Key (slot c 0)) (byKey c))
    (<[Z.to_nat (start c mod cap c) := None]> (byHeight c)) ((start c - 1) mod cap c) (len c - 1).

Lemma pop_slot c i : 0 < cap c -> 0 <= i < cap c -> slot (pop c) i = if decide (i = cap c - 1) then None else slot c (i + 1).
Proof.
  intros Hc Hi. unfold slot, at_index, pop, cap in *. cbn [byHeight start]. rewrite length_insert. set (m := Z.of_nat _) in *.
  rewrite (Zminus_mod_idemp_l (start c - 1)), ring_set by done. replace (start c - 1 - i) with (start c - (i + 1)) by lia.
  destruct (decide (i = m - 1)) as [->|Hne].
  - rewrite decide_True; [done|]. replace (start c - (m - 1 + 1)) with (start c + (-1) * m) by lia. by rewrite Z_mod_plus_full.
  - rewrite decide_False; [done|]. apply mod_sub_ne. lia.
Qed.

Lemma push_cap x c : cap (push x c) = cap c.
Proof. unfold cap, push. cbn [byHeight]. by rewrite length_insert. Qed.

Lemma pop_cap c : cap (pop c) = cap c.
Proof. unfold cap, pop. cbn [byHeight]. by rewrite length_insert. Qed.

(** * The window

    The cache stands for a list of epochs, the last one first. *)

Record represents (c : tipSetCache) (w : list (option TipSet)) : Prop := {
  rep_start : 0 <= start c < cap c;
  rep_len : len c = Z.of_nat (length w);
  rep_fits : len c <= cap c;
  rep_slot i : 0 <= i < cap c -> slot c i = mjoin (w !! Z.to_nat i);
  rep_keys k ts : byKey c !! k = Some ts <-> Some ts ∈ w ∧ ts_Key ts = k;
}.

(** Tipsets have a key of their own, which is not empty. *)
Definition distinct_keys (w : list (option TipSet)) : Prop :=
  NoDup (ts_Key <$> omap id w) ∧ Forall (fun ts => ts_Key ts ≠ EmptyString) (omap id w).

Lemma represents_new n : (0 < n)%nat -> represents (newTSCache n) [].
Proof.
  intros Hn. constructor; unfold newTSCache, slot, at_index, cap; cbn [byKey byHeight start len]; rewrite ?length_replicate.
  - lia.
  - done.
  - lia.
  - intros i Hi. rewrite lookup_total_replicate_2; [done|]. pose proof (mod_index (0 - i) (Z.of_nat n)). lia.
  - intros k ts. rewrite lookup_empty. split; [done|]. intros [H _]. by apply not_elem_of_nil in H.
Qed.

Lemma elem_of_omap_id (w : list (option TipSet)) ts : ts ∈ omap id w <-> Some ts ∈ w.
Proof. rewrite list_elem_of_omap. split; [intros (o & ? & Ho); cbn in Ho; by subst o|intros ?; by exists (Some ts)]. Qed.

Lemma distinct_tail x w : distinct_keys (x :: w) -> distinct_keys w.
Proof.
  intros [Hd Hn]. destruct x as [t|]; [|done]. cbn in Hd, Hn.
  split; [by apply NoDup_cons_1_2 in Hd|by apply Forall_cons_1 in Hn as [_ ?]].
Qed.

Lemma evicted_slot c : at_index c ((start c + 1) mod cap c) = slot c (cap c - 1).
Proof. unfold slot. f_equal. replace (start c - (cap c - 1)) with (start c + 1 + (-1) * cap c) by lia. by rewrite Z_mod_plus_full. Qed.

(** Dropping the key of the oldest epoch of a full ring. *)
Lemma evict_keys c w k ts : represents c w -> distinct_keys w ->
  drop_key (slot c (cap c - 1)) (byKey c) !! k = Some ts <-> Some ts ∈ take (Z.to_nat (cap c - 1)) w ∧ ts_Key ts = k.
Proof.
  intros Hr [Hd _]. destruct Hr as [Hs Hl Hf Hslot Hk]. rewrite Hslot by lia.
  destruct (decide (length w <= Z.to_nat (cap c - 1))%nat) as [Hle|Hgt].
  { rewrite lookup_ge_None_2, take_ge by done. cbn. apply Hk. }
  destruct w as [|o w' _] using rev_ind; [simpl in Hgt; lia|].
  assert (Hw : length w' = Z.to_nat (cap c - 1)) by (rewrite length_app in *; simpl in *; lia).
  rewrite <- Hw, lookup_app_r, Nat.sub_diag, take_app_length by done. cbn.
  destruct o as [e|]; cbn; rewrite ?lookup_delete_Some, Hk, elem_of_app, list_elem_of_singleton.
  - rewrite omap_app, fmap_app in Hd. apply NoDup_app in Hd as (_ & Hd & _). split.
    + intros (Hne & [?|[= ->]] & ?); done.
    + intros [Hin He]. split; [|by split; [left|]]. intros Heq. apply (Hd k); [|cbn; apply list_elem_of_singleton; done].
      rewrite <- He. apply list_elem_of_fmap. exists ts. by rewrite elem_of_omap_id.
  - split; intros [H ?]; (split; [|done]); [by destruct H|by left].
Qed.

(** An epoch enters; the oldest one leaves a full ring. *)
Lemma represents_push x c w : represents c w -> distinct_keys (x :: w) ->
  represents (push x c) (take (Z.to_nat (cap c)) (x :: w)).
Proof.
  intros Hr Hd. pose proof Hr as [Hs Hl Hf Hslot Hk]. pose proof (distinct_tail _ _ Hd) as Hd'.
  assert (Hcap : Z.to_nat (cap c) = S (Z.to_nat (cap c - 1))) by lia. rewrite Hcap. cbn [take].
  constructor; rewrite ?push_cap.
  - cbn. apply Z.mod_pos_bound. lia.
  - cbn [push len]. unfold grow. cbn [length]. rewrite length_take. destruct (Z.ltb_spec (len c) (cap c)); lia.
  - cbn [push len]. unfold grow. destruct (Z.ltb_spec (len c) (cap c)); lia.
  - intros i Hi. rewrite push_slot by lia. case_decide as H0; [by subst i|]. rewrite Hslot by lia.
    replace (Z.to_nat i) with (S (Z.to_nat (i - 1))) by lia.
    change (_ !! S ?n) with (take (Z.to_nat (cap c - 1)) w !! n). by rewrite lookup_take_lt by lia.
  - intros k ts. unfold push. cbn [byKey]. rewrite evicted_slot. pose proof (evict_keys c w) as He.
    rewrite elem_of_cons. destruct x as [t|].
    + destruct (decide (ts_Key t = k)) as [<-|Hne].
      * rewrite lookup_insert_eq. split; [intros [= ->]; auto|].
        intros [[[= ->]|Hin] Hkey]; [done|]. exfalso. destruct Hd as [Hd _]. cbn in Hd. apply NoDup_cons in Hd as [Hd _]. apply Hd.
        rewrite <- Hkey. apply list_elem_of_fmap. exists ts. rewrite elem_of_omap_id. split; [done|].
        eapply subseteq_take, Hin.
      * rewrite lookup_insert_ne, He by done. split; intros [H ?]; (split; [|done]); [by right|].
        destruct H as [[= ->]|?]; done.
    + rewrite He by done. split; intros [H ?]; (split; [|done]); [by right|by destruct H].
Qed.

(** The last epoch leaves. *)
Lemma represents_pop c x w : represents c (x :: w) -> distinct_keys (x :: w) -> represents (pop c) w.
Proof.
  intros Hr Hd. pose proof Hr as [Hs Hl Hf Hslot Hk]. cbn [length] in Hl. constructor; rewrite ?pop_cap.
  - cbn. apply Z.mod_pos_bound. lia.
  - cbn [pop len]. lia.
  - cbn [pop len]. lia.
  - intros i Hi. rewrite pop_slot by lia. case_decide as H0.
    + by rewrite lookup_ge_None_2 by lia.
    + rewrite Hslot by lia. by replace (Z.to_nat (i + 1)) with (S (Z.to_nat i)) by lia.
  - intros k ts. unfold pop. cbn [byKey]. rewrite (Hslot 0) by lia. change (mjoin _) with x. rewrite lookup_delete_Some, Hk, elem_of_cons.
    destruct Hd as [Hd Hn]. destruct x as [t|]; cbn in *.
    + apply NoDup_cons in Hd as [Hd _]. split.
      * intros (Hne & [[= ->]|?] & ?); done.
      * intros [Hin He]. split; [|by split; [right|]]. intros Heq. apply Hd. cbn in Heq. rewrite Heq, <- He. apply list_elem_of_fmap.
        exists ts. by rewrite elem_of_omap_id.
    + split; [by intros (_ & [?|?] & ?)|]. intros [Hin He]. split; [|by split; [right|]].
      rewrite <- He. rewrite Forall_forall in Hn. intros H. by apply (Hn ts); [rewrite elem_of_omap_id|].
Qed.

(** * Following the chain *)

(** The epochs of a chain of tipsets, newest first; null rounds have no tipset. *)
Fixpoint epochs (ch : list TipSet) : list (option TipSet) :=
  match ch with
  | [] => []
  | t :: r =>
      Some t :: match r with
                | [] => []
                | p :: _ => replicate (Z.to_nat (ts_height t - ts_height p - 1)) None ++ epochs r
                end
  end.

Fixpoint linked (ch : list TipSet) : Prop :=
  match ch with
  | [] => True
  | t :: r =>
      match r with
      | [] => True
      | p :: _ => ts_height p < ts_height t ∧ ts_Parents t = ts_Key p ∧ linked r
      end
  end.

Record chain_ok (ch : list TipSet) : Prop := {
  ok_linked : linked ch;
  ok_distinct : NoDup (ts_Key <$> ch);
  ok_nonempty : Forall (fun ts => ts_Key ts ≠ EmptyString) ch;
}.

(** The cache holds the last epochs of the chain. *)
Definition coherent (c : tipSetCache) (ch : list TipSet) : Prop := ∃ n, represents c (take n (epochs ch)).

Lemma chain_ok_tail t ch : chain_ok (t :: ch) -> chain_ok ch.
Proof.
  intros [Hl Hd Hn]. split; [by destruct ch as [|p ch]; [|destruct Hl as (_ & _ & ?)]| |].
  - by apply NoDup_cons in Hd as [_ ?].
  - by apply Forall_cons in Hn as [_ ?].
Qed.

Lemma omap_replicate_None n : omap id (replicate n (@None TipSet)) = [].
Proof. by induction n. Qed.

Lemma omap_epochs ch : omap id (epochs ch) = ch.
Proof.
  induction ch as [|t r IH]; [done|]. cbn [epochs]. destruct r as [|p r]; [done|].
  change (t :: omap id (replicate (Z.to_nat (ts_height t - ts_height p - 1)) None ++ epochs (p :: r)) = t :: p :: r).
  by rewrite omap_app, omap_replicate_None, IH.
Qed.

Lemma distinct_take n w : distinct_keys w -> distinct_keys (take n w).
Proof.
  unfold distinct_keys. rewrite <- (take_drop n w) at 1 2. rewrite omap_app, fmap_app, Forall_app.
  intros [(? & _)%NoDup_app [? _]]. done.
Qed.

Lemma distinct_nulls n w : distinct_keys w -> distinct_keys (replicate n None ++ w).
Proof. unfold distinct_keys. by rewrite omap_app, omap_replicate_None. Qed.

Lemma chain_distinct ch : chain_ok ch -> distinct_keys (epochs ch).
Proof. intros [_ Hd Hn]. unfold distinct_keys. by rewrite omap_epochs. Qed.

Lemma take_cons_take (n : nat) {A} (x : A) l : take n (x :: take n l) = take n (x :: l).
Proof. destruct n as [|n]; [done|]. cbn. by rewrite take_take, Nat.min_l by lia. Qed.

Lemma iter_null n c w : represents c w -> distinct_keys w ->
  represents (Nat.iter n add_null c) (take (Z.to_nat (cap c)) (replicate n None ++ w)) ∧ cap (Nat.iter n add_null c) = cap c.
Proof.
  intros Hr Hd. induction n as [|n [IH Hcap]]; [cbn [Nat.iter replicate app]|].
  - split; [|done]. rewrite take_ge; [done|]. destruct Hr. lia.
  - assert (0 < cap c) by (destruct Hr; lia). change (Nat.iter (S n) add_null c) with (add_null (Nat.iter n add_null c)).
    change (replicate (S n) None ++ w) with (None :: replicate n None ++ w). rewrite add_null_push, push_cap by lia. split; [|done].
    rewrite <- take_cons_take, <- Hcap at 1. apply represents_push; [done|].
    change (distinct_keys (take (Z.to_nat (cap c)) (replicate n None ++ w))). by apply distinct_take, distinct_nulls.
Qed.

Lemma TipSet_Equals_refl ts : TipSet_Equals ts ts = true.
Proof. destruct ts as [ts|]; [|done]. cbn. by rewrite Z.eqb_refl, Nat.eqb_refl, bool_decide_true. Qed.

Lemma head_slot c x w : represents c (x :: w) -> at_index c (start c) = x.
Proof.
  intros [Hs Hl Hf Hslot _]. cbn in Hl. specialize (Hslot 0 ltac:(lia)). unfold slot in Hslot.
  by rewrite Z.sub_0_r, Z.mod_small in Hslot by lia.
Qed.

Lemma represents_nonempty c x w : represents c (x :: w) -> 0 < len c.
Proof. intros [_ -> _ _ _]. cbn. lia. Qed.

Lemma distinct_gap x k w : distinct_keys (x :: w) -> distinct_keys (x :: replicate k None ++ w).
Proof. unfold distinct_keys. change (x :: ?l) with ([x] ++ l). by rewrite !omap_app, omap_replicate_None. Qed.

Lemma add_nulls to c w : represents c w -> distinct_keys (Some to :: w) -> add_check to c = None ->
  ∃ c', add to c = (None, c') ∧ cap c' = cap c ∧
    represents c' (take (Z.to_nat (cap c)) (Some to :: replicate (null_rounds to c) None ++ w)).
Proof.
  intros Hr Hd Hchk. assert (0 < cap c) by (destruct Hr; lia). unfold add. rewrite Hchk. set (k := null_rounds to c).
  destruct (iter_null k c w Hr (distinct_tail _ _ Hd)) as [Hi Hcap]. eexists. split; [done|].
  rewrite normalModulo_mod by lia. change (mkTipSetCache _ _ _ _) with (push (Some to) (Nat.iter k add_null c)).
  rewrite push_cap. split; [done|]. rewrite <- take_cons_take, <- Hcap at 1. apply represents_push; [done|].
  apply (distinct_take (S (Z.to_nat (cap c))) (Some to :: replicate k None ++ w)), distinct_gap, Hd.
Qed.

(** A tipset that extends the chain is added, after the null rounds before it. *)
Lemma add_coherent to c ch : chain_ok (to :: ch) -> coherent c ch ->
  ∃ c', add to c = (None, c') ∧ cap c' = cap c ∧ coherent c' (to :: ch).
Proof.
  intros Hok [n Hr]. pose proof (chain_distinct _ Hok) as Hdist.
  assert (Hd : distinct_keys (Some to :: take n (epochs ch))).
  { destruct Hok as [_ Hd Hn]. unfold distinct_keys. change (omap id (Some to :: ?l)) with (to :: omap id l).
    rewrite <- (omap_epochs ch) in Hd, Hn. rewrite <- (take_drop n (epochs ch)), omap_app in Hd, Hn.
    change (to :: ?a ++ ?b) with ((to :: a) ++ b) in Hd, Hn. rewrite fmap_app in Hd.
    apply NoDup_app in Hd as (Hd & _). apply Forall_app in Hn as [Hn _]. done. }
  destruct (take n (epochs ch)) as [|x w] eqn:E.
  - assert (Hl : len c = 0) by by destruct Hr.
    destruct (add_nulls to c [] Hr Hd) as (c' & Ha & Hcap & Hc'); [unfold add_check; by rewrite Hl|].
    exists c'. split; [done|]. split; [done|]. exists 1%nat. unfold null_rounds in Hc'. rewrite Hl in Hc'.
    destruct (Z.to_nat (cap c)) eqn:Ec; [destruct Hr; lia|].
    cbn [Z.ltb Z.compare replicate app take] in Hc'. rewrite take_nil in Hc'. exact Hc'.
  - destruct ch as [|h r]; [cbn [epochs] in E; by rewrite take_nil in E|]. destruct n as [|n]; [done|].
    cbn [epochs take] in E. injection E as <- <-. pose proof (head_slot _ _ _ Hr) as Hh.
    pose proof (represents_nonempty _ _ _ Hr) as Hpos. destruct Hok as [(Hlt & Hp & _) _ _].
    destruct (add_nulls to c _ Hr Hd) as (c' & Ha & Hcap & Hc').
    { unfold add_check. rewrite Hh, Hp. apply Z.ltb_lt in Hpos as ->. rewrite bool_decide_true by done.
      by destruct (Z.leb_spec (ts_height to) (ts_height h)); [lia|]. }
    exists c'. split; [done|]. split; [done|].
    unfold null_rounds in Hc'. rewrite Hh in Hc'. apply Z.ltb_lt in Hpos as Hpos'. rewrite Hpos' in Hc'.
    exists (Nat.min (Z.to_nat (cap c)) (S (Z.to_nat (ts_height to - (ts_height h + 1)) + S n))).
    rewrite <- take_take. cbn [epochs take]. replace (ts_height to - ts_height h - 1) with (ts_height to - (ts_height h + 1)) by lia.
    rewrite take_app_ge by (rewrite length_replicate; lia). rewrite length_replicate.
    replace (_ - _)%nat with (S n) by lia. exact Hc'.
Qed.

Lemma revert_step fuel c x w ts : represents c (x :: w) -> TipSet_Equals x ts = true ->
  revertUnlocked (S fuel) ts c = (None, (revertUnlocked fuel None (pop c)).2).
Proof.
  intros Hr He. pose proof (head_slot _ _ _ Hr) as Hh. pose proof (represents_nonempty _ _ _ Hr) as Hpos.
  pose proof (rep_start _ _ Hr) as Hs. cbn [revertUnlocked]. rewrite (proj2 (Z.eqb_neq _ _)) by lia. rewrite Hh, He. cbn [negb].
  unfold pop. rewrite normalModulo_mod by lia. unfold slot. by rewrite Z.sub_0_r, (Z.mod_small (start c)), Hh by lia.
Qed.

(** The null rounds at the end are dropped. *)
Lemma revert_nulls g : ∀ fuel c n r, represents c (take n (replicate g None ++ epochs r)) ->
  distinct_keys (replicate g None ++ epochs r) -> (Z.to_nat (len c) < fuel)%nat ->
  coherent (revertUnlocked fuel None c).2 r ∧ cap (revertUnlocked fuel None c).2 = cap c.
Proof.
  induction g as [|g IH]; intros [|fuel] c n r Hr Hd Hf; try lia.
  - cbn [replicate app] in *. enough ((revertUnlocked (S fuel) None c).2 = c) as -> by (split; [by exists n|done]).
    cbn [revertUnlocked]. destruct (Z.eqb_spec (len c) 0) as [|Hne]; [done|].
    destruct r as [|p r]; [cbn [epochs] in Hr; rewrite take_nil in Hr; by destruct Hr|]. destruct n as [|n]; [by destruct Hr|].
    by rewrite (head_slot _ _ _ Hr).
  - destruct n as [|n].
    + assert (Hl : len c = 0) by by destruct Hr. cbn [revertUnlocked]. rewrite Hl. cbn. split; [by exists 0%nat|done].
    + pose proof (represents_nonempty _ _ _ Hr). rewrite (revert_step _ _ _ _ _ Hr) by done. cbn [snd]. rewrite <- (pop_cap c).
      apply (IH fuel (pop c) n r); [|done|cbn; lia].
      eapply represents_pop; [exact Hr|]. apply (distinct_take (S n) (None :: _)), Hd.
Qed.

(** The head of the chain is reverted, with the null rounds before it. *)
Lemma revert_coherent h r c : chain_ok (h :: r) -> coherent c (h :: r) ->
  ∃ c', revert h c = (None, c') ∧ cap c' = cap c ∧ coherent c' r.
Proof.
  intros Hok [n Hr]. pose proof (chain_distinct _ Hok) as Hd. unfold revert. destruct n as [|n].
  - exists c. assert (Hl : len c = 0) by by destruct Hr. cbn [revertUnlocked]. rewrite Hl. split; [done|].
    split; [done|]. by exists 0%nat.
  - cbn [epochs take] in Hr. pose proof (represents_nonempty _ _ _ Hr) as Hpos. pose proof (rep_fits _ _ Hr) as Hfit.
    rewrite (revert_step _ _ _ _ _ Hr) by apply TipSet_Equals_refl.
    eexists. split; [done|]. rewrite <- (pop_cap c). apply and_comm.
    set (g := match r with [] => 0%nat | p :: _ => Z.to_nat (ts_height h - ts_height p - 1) end).
    assert (Hg : epochs (h :: r) = Some h :: replicate g None ++ epochs r) by by destruct r.
    rewrite Hg in Hd.
    assert (Ht : match r with [] => [] | p :: _ => replicate (Z.to_nat (ts_height h - ts_height p - 1)) None ++ epochs r end
      = replicate g None ++ epochs r) by by destruct r.
    rewrite Ht in Hr. apply (revert_nulls g _ _ n); [|by apply distinct_tail in Hd|cbn; unfold cap in *; lia].
    eapply represents_pop; [exact Hr|]. apply (distinct_take (S n) (Some h :: _)), Hd.
Qed.

(** * Tipsets by height *)

(** The tipset at a height or, in a null round, the one before or after it. *)
Definition at_or_before (H : Z) (ch : list TipSet) : option TipSet := find (fun t => ts_height t <=? H) ch.
Definition at_or_after (H : Z) (ch : list TipSet) : option TipSet := last (List.filter (fun t => H <=? ts_height t) ch).

Lemma linked_below t r x : linked (t :: r) -> x ∈ r -> ts_height x < ts_height t.
Proof.
  revert t. induction r as [|p r IH]; intros t Hl Hx; [by apply not_elem_of_nil in Hx|].
  destruct Hl as (Hlt & _ & Hl). apply elem_of_cons in Hx as [->|Hx]; [done|]. specialize (IH p Hl Hx). lia.
Qed.

Lemma linked_tail t r : linked (t :: r) -> linked r.
Proof. destruct r as [|p r]; [done|]. by intros (_ & _ & ?). Qed.

Lemma at_or_before_spec H ch t : linked ch -> at_or_before H ch = Some t ->
  t ∈ ch ∧ ts_height t <= H ∧ ∀ x, x ∈ ch -> ts_height x <= H -> ts_height x <= ts_height t.
Proof.
  unfold at_or_before. induction ch as [|a r IH]; intros Hl Hf; [done|]. cbn in Hf.
  destruct (Z.leb_spec (ts_height a) H) as [Hle|Hgt].
  - injection Hf as <-. split; [left|]. split; [done|]. intros x [->|Hx]%elem_of_cons _; [lia|].
    pose proof (linked_below _ _ _ Hl Hx). lia.
  - destruct (IH (linked_tail _ _ Hl) Hf) as (Hin & Ht & Hmax). split; [by right|]. split; [done|].
    intros x [->|Hx]%elem_of_cons Hxh; [lia|by apply Hmax].
Qed.

Lemma at_or_before_exists H ch x : x ∈ ch -> ts_height x <= H -> is_Some (at_or_before H ch).
Proof.
  intros Hx Hh. unfold at_or_before. destruct (find _ ch) eqn:E; [done|].
  pose proof (find_none _ _ E x ltac:(by apply list_elem_of_In)) as Hn. cbn in Hn. apply Z.leb_gt in Hn. lia.
Qed.

Lemma at_or_after_spec H ch t : linked ch -> at_or_after H ch = Some t ->
  t ∈ ch ∧ H <= ts_height t ∧ ∀ x, x ∈ ch -> H <= ts_height x -> ts_height t <= ts_height x.
Proof.
  unfold at_or_after. induction ch as [|a r IH]; intros Hl Hf; [done|]. cbn [List.filter] in Hf.
  destruct (Z.leb_spec H (ts_height a)) as [Hle|Hgt].
  - destruct (List.filter _ r) as [|y ys] eqn:E.
    + injection Hf as <-. split; [left|]. split; [done|]. intros x [->|Hx]%elem_of_cons Hh; [lia|].
      apply list_elem_of_In in Hx. assert (Hin : In x []) by (rewrite <- E; apply filter_In; split; [done|by apply Z.leb_le]). done.
    + rewrite last_cons_cons in Hf. destruct (IH (linked_tail _ _ Hl) Hf) as (Hin & Ht & Hmin). split; [by right|]. split; [done|].
      intros x [->|Hx]%elem_of_cons Hxh; [pose proof (linked_below _ _ _ Hl Hin); lia|by apply Hmin].
  - destruct (IH (linked_tail _ _ Hl) Hf) as (Hin & Ht & Hmin). split; [by right|]. split; [done|].
    intros x [->|Hx]%elem_of_cons Hxh; [lia|by apply Hmin].
Qed.

Lemma at_or_after_exists H h r : H <= ts_height h -> is_Some (at_or_after H (h :: r)).
Proof. intros Hh. unfold at_or_after. cbn [List.filter]. apply Z.leb_le in Hh as ->. rewrite last_cons. by destruct (last _). Qed.

(** The epochs hold the tipsets of the chain at their heights. *)
Lemma epochs_at r : ∀ h i t, linked (h :: r) ->
  mjoin (epochs (h :: r) !! i) = Some t <-> t ∈ h :: r ∧ ts_height t = ts_height h - Z.of_nat i.
Proof.
  induction r as [|p r IH]; intros h [|i] t Hl; rewrite elem_of_cons.
  - cbn. split; [intros [= ->]; split; [by left|lia]|intros [[->|Hin] _]; [done|by apply not_elem_of_nil in Hin]].
  - cbn. split; [done|]. intros [[->|Hin] ?]; [lia|by apply not_elem_of_nil in Hin].
  - cbn. split; [intros [= ->]; split; [by left|lia]|]. intros [[->|Hin] Hh]; [done|].
    pose proof (linked_below _ _ _ Hl Hin). lia.
  - pose proof Hl as (Hlt & _ & Hl'). set (g := Z.to_nat (ts_height h - ts_height p - 1)).
    change (epochs (h :: p :: r) !! S i) with ((replicate g None ++ epochs (p :: r)) !! i).
    destruct (decide (i < g)%nat) as [Hi|Hi].
    + rewrite lookup_app_l, lookup_replicate_2 by (rewrite ?length_replicate; lia). cbn. split; [done|].
      intros [[->|Hin] Hh]; [lia|]. apply elem_of_cons in Hin as [->|Hin]; [lia|]. pose proof (linked_below _ _ _ Hl' Hin). lia.
    + rewrite lookup_app_r by (rewrite length_replicate; lia). rewrite length_replicate, IH by done.
      replace (ts_height p - Z.of_nat (i - g)) with (ts_height h - Z.of_nat (S i)) by lia.
      split; [intros [? ?]; auto|]. intros [[->|Hin] Hh]; [lia|done].
Qed.

(** The entries of the ring. *)
Lemma slot_chain c n h r i t : represents c (take n (epochs (h :: r))) -> linked (h :: r) -> 0 <= i < len c ->
  slot c i = Some t <-> t ∈ h :: r ∧ ts_height t = ts_height h - i.
Proof.
  intros Hr Hl Hi. pose proof (rep_len _ _ Hr) as Hlen. rewrite length_take in Hlen. pose proof (rep_fits _ _ Hr).
  rewrite (rep_slot _ _ Hr), lookup_take_lt, epochs_at by (lia || done). by rewrite Z2Nat.id by lia.
Qed.

(** The loop of [get] stops at the first entry that is not nil. *)
Lemma get_loop_finds n : ∀ fuel c base i d t, 0 < cap c -> (n < fuel)%nat -> (d = -1 ∨ d = 1) ->
  i < len c -> i + d * Z.of_nat n < len c ->
  (∀ m : nat, (m < n)%nat -> at_index c ((base + (i + d * Z.of_nat m)) mod cap c) = None) ->
  at_index c ((base + (i + d * Z.of_nat n)) mod cap c) = Some t -> get_loop fuel c base i d None = Got (Some t).
Proof.
  induction n as [|n IH]; intros [|fuel] c base i d t Hc Hf Hd Hi0 Hi Hnone Hsome; try lia; cbn [get_loop].
  - rewrite (proj2 (Z.ltb_lt i (len c))) by done. cbn. rewrite Z.mul_0_r, Z.add_0_r in Hsome. rewrite normalModulo_mod, Hsome by done.
    destruct fuel; cbn [get_loop]; by rewrite bool_decide_true, andb_false_r by done.
  - rewrite (proj2 (Z.ltb_lt i (len c))) by done. cbn [andb negb]. rewrite bool_decide_false by (by intros []). cbn [andb negb].
    rewrite normalModulo_mod by done. specialize (Hnone O ltac:(lia)) as H0. rewrite Z.mul_0_r, Z.add_0_r in H0. rewrite H0.
    apply (IH fuel); [done|lia|done|lia|lia| |].
    + intros m Hm. rewrite <- (Hnone (S m)) by lia. do 2 f_equal. lia.
    + rewrite <- Hsome. do 2 f_equal. lia.
Qed.

(** The ring entries the loop visits. *)
Lemma get_loop_slots c w D d n t : represents c w -> (d = -1 ∨ d = 1) -> 0 < len c -> d * Z.of_nat n < len c ->
  Z.of_nat n < cap c -> (∀ m : nat, (m < n)%nat -> slot c (D - d * Z.of_nat m) = None) -> slot c (D - d * Z.of_nat n) = Some t ->
  get_loop (length (byHeight c)) c (start c - D) 0 d None = Got (Some t).
Proof.
  intros Hr Hd Hl Hn Hc Hnone Hsome. assert (He : ∀ m, slot c (D - d * m) = at_index c ((start c - D + (0 + d * m)) mod cap c)).
  { intros m. unfold slot. do 2 f_equal. lia. }
  apply (get_loop_finds n); [lia|unfold cap in *; lia|done|lia|lia| |by rewrite <- He].
  intros m Hm. rewrite <- He. by apply Hnone.
Qed.

(** The tipset the chain has at a height, as the two queries ask for it. *)
Definition chain_answer (prev : bool) (H : Z) (ch : list TipSet) : option TipSet :=
  if prev then at_or_before H ch else at_or_after H ch.

(** The epochs the cache covers: in [get] the next lower epoch counts as cached. *)
Definition covered (prev : bool) (H : Z) (c : tipSetCache) (h : TipSet) (ch : list TipSet) : Prop :=
  ts_height h - len c < H ∧ (prev = true -> ∃ x, x ∈ ch ∧ ts_height h - len c < ts_height x <= H).

Lemma get_covered c n h r H prev : represents c (take n (epochs (h :: r))) -> linked (h :: r) -> H < ts_height h ->
  covered prev H c h (h :: r) ->
  ∃ t, chain_answer prev H (h :: r) = Some t ∧
    get_loop (length (byHeight c)) c (start c - (ts_height h - H)) 0 (if prev then -1 else 1) None = Got (Some t).
Proof.
  intros Hr Hl Hlt [Hlo Hex]. pose proof (rep_fits _ _ Hr) as Hfit.
  assert (Hno : ∀ i, 0 <= i < len c -> (∀ x, x ∈ h :: r -> ts_height x ≠ ts_height h - i) -> slot c i = None).
  { intros i Hi Hx. destruct (slot c i) as [x|] eqn:E; [|done]. apply (slot_chain _ n h r) in E as [Hin He]; [|done..]. by apply Hx in Hin. }
  destruct prev; cbn [chain_answer].
  - destruct (Hex eq_refl) as (x & Hx & Hxh). destruct (at_or_before_exists H (h :: r) x Hx ltac:(lia)) as [t Ht].
    exists t. split; [done|]. apply at_or_before_spec in Ht as (Hin & Hle & Hmax); [|done]. specialize (Hmax x Hx ltac:(lia)) as Hmx.
    apply (get_loop_slots c _ _ _ (Z.to_nat (H - ts_height t)) _ Hr); [by left|lia|lia|lia| |].
    + intros m Hm. apply Hno; [lia|]. intros y Hy Hyh. specialize (Hmax y Hy ltac:(lia)). lia.
    + apply (slot_chain _ n h r); [done|done|lia|]. split; [done|lia].
  - destruct (at_or_after_exists H h r ltac:(lia)) as [t Ht]. exists t. split; [done|].
    apply at_or_after_spec in Ht as (Hin & Hle & Hmin); [|done]. pose proof (Hmin h ltac:(left) ltac:(lia)) as Hth.
    apply (get_loop_slots c _ _ _ (Z.to_nat (ts_height t - H)) _ Hr); [by right|lia|lia|lia| |].
    + intros m Hm. apply Hno; [lia|]. intros y Hy Hyh. specialize (Hmin y Hy ltac:(lia)). lia.
    + apply (slot_chain _ n h r); [done|done|lia|]. split; [done|lia].
Qed.

(** The caches the observer reaches while it follows the chain, whatever [Apply] and
    [Revert] return. *)
Inductive followed (n : nat) : tipSetCache -> list TipSet -> Prop :=
  | followed_new ch : chain_ok ch -> followed n (newTSCache n) ch
  | followed_Apply c ch to e c' : followed n c ch -> chain_ok (to :: ch) -> Apply to c = (e, c') -> followed n c' (to :: ch)
  | followed_Revert c h ch e c' : followed n c (h :: ch) -> Revert h c = (e, c') -> followed n c' ch.

Lemma followed_coherent n c ch : (0 < n)%nat -> followed n c ch -> chain_ok ch ∧ coherent c ch.
Proof.
  intros Hn. induction 1 as [ch Hok|c ch to e c' _ [_ IH] Hok Ha|c h ch e c' _ [Hok IH] Ha].
  - split; [done|]. exists 0%nat. by apply represents_new.
  - split; [done|]. destruct (add_coherent to c ch Hok IH) as (c1 & H1 & _ & H2). unfold Apply in Ha. rewrite H1 in Ha. by injection Ha as _ <-.
  - split; [by eapply chain_ok_tail|]. destruct (revert_coherent h ch c Hok IH) as (c1 & H1 & _ & H2). unfold Revert in Ha. rewrite H1 in Ha. by injection Ha as _ <-.
Qed.

(** A node that answers for the chain. *)
Definition serves (storage : tsCacheAPI) (h : TipSet) (ch : list TipSet) : Prop :=
  ∀ k H, (k = EmptyString ∨ k = ts_Key h) -> H <= ts_height h ->
    api_GetTipSetByHeight storage H k = at_or_before H ch ∧ api_GetTipSetAfterHeight storage H k = at_or_after H ch.

Definition answer (ts : option TipSet) : get_result := match ts with Some ts => Got (Some ts) | None => GetErr end.

Lemma fallback_serves storage h ch prev H k : serves storage h ch -> (k = EmptyString ∨ k = ts_Key h) -> H <= ts_height h ->
  fallback storage prev H k = answer (chain_answer prev H ch).
Proof. intros Hs Hk Hh. destruct (Hs k H Hk Hh) as [H1 H2]. unfold fallback, chain_answer. destruct prev; [by rewrite H1|by rewrite H2]. Qed.

Lemma chain_answer_head prev h r : linked (h :: r) -> chain_answer prev (ts_height h) (h :: r) = Some h.
Proof.
  intros Hl. destruct prev; cbn [chain_answer].
  - unfold at_or_before. cbn. by rewrite Z.leb_refl.
  - destruct (at_or_after_exists (ts_height h) h r ltac:(lia)) as [t Ht]. rewrite Ht.
    apply at_or_after_spec in Ht as (Hin & Hle & _); [|done]. apply elem_of_cons in Hin as [->|Hin]; [done|].
    pose proof (linked_below _ _ _ Hl Hin). lia.
Qed.

(** C20: The tipset cache is transparent: after any sequence of applied and reverted
    tipsets (null rounds, evictions from a full ring and reverts below the cached
    epochs included), [get] at the head answers what the chain itself answers, the
    tipset at that height or the nearest one before or after it.  The height is among the
    epochs the ring holds (with, for the search downwards, a tipset at or below it in
    the ring), or it lies below the epoch under them. *)
Theorem get_transparent storage n c h r H k prev : (0 < n)%nat -> followed n c (h :: r) -> serves storage h (h :: r) ->
  k = EmptyString ∨ k = ts_Key h -> H <= ts_height h ->
  len c = 0 ∨ H < ts_height h - len c ∨ covered prev H c h (h :: r) ->
  get storage H k prev c = answer (chain_answer prev H (h :: r)).
Proof.
  intros Hn Hf Hs Hk Hh Hcov. destruct (followed_coherent _ _ _ Hn Hf) as [Hok [m Hr]]. pose proof (ok_linked _ Hok) as Hl.
  unfold get. destruct (Z.eqb_spec (len c) 0) as [H0|H0]; [by apply (fallback_serves _ h)|].
  assert (Hhead : get_from storage h H prev c = answer (chain_answer prev H (h :: r))).
  { unfold get_from. destruct (Z.eqb_spec (ts_height h) H) as [<-|Hne]; [by rewrite chain_answer_head|].
    rewrite (proj2 (Z.ltb_ge _ _)) by lia. destruct (Z.ltb_spec H (ts_height h - len c)) as [Hlo|Hlo].
    - apply (fallback_serves _ h); auto.
    - destruct (get_covered c m h r H prev) as (t & -> & ->); [done|done|lia| |done]. destruct Hcov as [?|[?|?]]; [done|lia|done]. }
  destruct m as [|m]; [by destruct Hr|]. destruct Hk as [-> | ->].
  - rewrite bool_decide_true by done. by rewrite (head_slot _ _ _ Hr).
  - pose proof (ok_nonempty _ Hok) as Hne. apply Forall_cons in Hne as [Hne _]. rewrite bool_decide_false by done.
    rewrite (proj2 (rep_keys _ _ Hr (ts_Key h) h)); [done|]. split; [left|done].
Qed.

(** The slot after the last one is the first. *)
Lemma slot_wrap c : 0 < cap c -> slot c (cap c) = slot c 0.
Proof. intros Hc. unfold slot. f_equal. replace (start c - cap c) with (start c - 0 + (-1) * cap c) by lia. apply Z_mod_plus_full. Qed.

(** [get] counts one epoch too many as cached: asked for the tipset at or before
    the epoch under the ones the ring holds, it walks round the ring and returns the
    head of the chain, which is above that epoch. *)
Theorem get_tail_wraps storage n c h r : (0 < n)%nat -> followed n c (h :: r) -> 0 < len c ->
  get storage (ts_height h - len c) EmptyString true c = Got (Some h).
Proof.
  intros Hn Hf Hpos. destruct (followed_coherent _ _ _ Hn Hf) as [Hok [m Hr]].
  destruct m as [|m]; [pose proof (rep_len _ _ Hr) as E; cbn in E; lia|]. unfold get. rewrite (proj2 (Z.eqb_neq _ _)) by lia. rewrite bool_decide_true by done.
  rewrite (head_slot _ _ _ Hr). unfold get_from. rewrite (proj2 (Z.eqb_neq _ _)), !(proj2 (Z.ltb_ge _ _)) by lia.
  replace (ts_height h - (ts_height h - len c)) with (len c) by lia. pose proof (rep_fits _ _ Hr) as Hfit.
  apply (get_loop_slots c _ _ _ (Z.to_nat (cap c - len c)) _ Hr); [by left|lia|lia|lia| |].
  - intros i Hi. rewrite (rep_slot _ _ Hr) by lia. rewrite lookup_ge_None_2; [done|]. pose proof (rep_len _ _ Hr). lia.
  - replace (len c - -1 * _) with (cap c) by lia. rewrite slot_wrap, (rep_slot _ _ Hr) by lia. done.
Qed.

Module TsCacheExample.
Definition a := IndexExample.tipset "a" ["genesis"] 5.
Definition b := IndexExample.tipset "b" ["a"] 6.
Definition head := IndexExample.tipset "head" ["b"] 8.
Definition chain : list TipSet := [head; b; a].
Definition storage : tsCacheAPI :=
  mkTsCacheAPI (fun H _ => at_or_after H chain) (fun H _ => at_or_before H chain) (fun _ => None) (Some head).

Definition after (n : nat) : tipSetCache := (Apply head (Apply b (Apply a (newTSCache n)).2).2).2.

Lemma chain_ok_suffix n : chain_ok (drop n chain).
Proof.
  assert (chain_ok chain).
  { split; [by vm_compute| |]; [|repeat constructor; by vm_compute]. apply (bool_decide_unpack _). by vm_compute. }
  destruct n as [|[|[|n]]]; [done|by eapply chain_ok_tail|do 2 eapply chain_ok_tail; done|].
  replace (drop (S (S (S n))) chain) with (@nil TipSet) by by destruct n. do 3 eapply chain_ok_tail; done.
Qed.

Lemma after_followed n : followed n (after n) chain.
Proof.
  unfold after. eapply followed_Apply; [|apply (chain_ok_suffix 0)|apply surjective_pairing].
  eapply followed_Apply; [|apply (chain_ok_suffix 1)|apply surjective_pairing].
  eapply followed_Apply; [|apply (chain_ok_suffix 2)|apply surjective_pairing]. apply followed_new, (chain_ok_suffix 3).
Qed.
End TsCacheExample.

(** A ring of three epochs over the chain at heights 5, 6 and 8, asked for the null
    round 7. *)
Lemma get_transparent_witness :
  get TsCacheExample.storage 7 EmptyString true (TsCacheExample.after 3) = Got (Some TsCacheExample.b).
Proof.
  rewrite (get_transparent TsCacheExample.storage 3 (TsCacheExample.after 3) TsCacheExample.head [TsCacheExample.b; TsCacheExample.a] 7 EmptyString true).
  - reflexivity.
  - lia.
  - apply TsCacheExample.after_followed.
  - intros k H _ _. done.
  - by left.
  - by vm_compute.
  - right. right. split; [by vm_compute|]. intros _. exists TsCacheExample.b. split; [right; left|]. split; by vm_compute.
Defined.

Lemma get_tail_wraps_witness :
  get TsCacheExample.storage 5 EmptyString true (TsCacheExample.after 3) = Got (Some TsCacheExample.head) ∧
  at_or_before 5 TsCacheExample.chain = Some TsCacheExample.a.
Proof.
  split; [|reflexivity].
  apply (get_tail_wraps TsCacheExample.storage 3 (TsCacheExample.after 3) TsCacheExample.head [TsCacheExample.b; TsCacheExample.a]).
  - lia.
  - apply TsCacheExample.after_followed.
  - by vm_compute.
Defined.

(** Asked from a cached tipset below the head, [get] takes that tipset's height with the
    ring position of the head: from the tipset at height 6 it answers the epoch 5 with
    the tipset at height 6. *)
Lemma get_below_head_wrong :
  get TsCacheExample.storage 5 (ts_Key TsCacheExample.b) true (TsCacheExample.after 8) = Got (Some TsCacheExample.b) ∧
  get TsCacheExample.storage 5 EmptyString true (TsCacheExample.after 8) = Got (Some TsCacheExample.a).
Proof. split; by vm_compute. Qed.
