(* ===== verification/Election.v ===== *)
(** Leader election (src/chain/types/electionproof.go and IsTicketWinner of
    blockheader.go).

    The number of blocks a miner may produce in an epoch is read off an inverted
    Poisson distribution, computed in fixed point with 256 bits: an integer [x]
    stands for [x / 2^256].  The theorems bound the rational approximation of the
    exponential by interval arithmetic, and show that the loop counts the values of
    the distribution above the hash of the proof. *)

From Stdlib Require Import Ascii.
From S2P Require Import Prelude Types.

(** [big.Int.SetBytes]: big-endian. *)
Fixpoint SetBytes (acc : Z) (b : bytes) : Z :=
  match b with
  | EmptyString => acc
  | String c b => SetBytes (acc * 256 + Z.of_nat (nat_of_ascii c)) b
  end.

Definition BigFromBytes (b : bytes) : Z := SetBytes 0 b.

Definition precision : Z := 256.

(** [parse]: the integer parameters as coefficients. *)
Definition parse (coefs : list Z) : list Z := map (fun c => Z.shiftl c (precision - 128)) coefs.

Definition expNumCoef : list Z := parse
  [ -648770010757830093818553637600;
    67469480939593786226847644286976;
    -3197587544499098424029388939001856;
    89244641121992890118377641805348864;
    -1579656163641440567800982336819953664;
    17685496037279256458459817590917169152;
    -115682590513835356866803355398940131328;
    340282366920938463463374607431768211456 ].

Definition expDenoCoef : list Z := parse
  [ 1225524182432722209606361;
    114095592300906098243859450;
    5665570424063336070530214243;
    194450132448609991765137938448;
    5068267641632683791026134915072;
    104716890604972796896895427629056;
    1748338658439454459487681798864896;
    23704654329841312470660182937960448;
    259380097567996910282699886670381056;
    2250336698853390384720606936038375424;
    14978272436876548034486263159246028800;
    72144088983913131323343765784380833792;
    224599776407103106596571252037123047424;
    340282366920938463463374607431768211456 ].

(** The polynomial by Horner's method, from the highest coefficient. *)
Definition polyval (p : list Z) (x : Z) : Z :=
  match p with
  | [] => 0
  | c :: p => foldl (fun res c => Z.shiftr (res * x) precision + c) c p
  end.

Definition expneg (x : Z) : Z :=
  let num := polyval expNumCoef x in
  let deno := polyval expDenoCoef x in
  big_div (Z.shiftl num precision) deno.

Record poiss := mkPoiss {
  lam : Z;
  pmf : Z;
  icdf : Z;
  k : Z;
}.

Definition newPoiss (lambda : Z) : poiss :=
  let pmf := expneg lambda in
  mkPoiss lambda pmf (Z.shiftl 1 precision - pmf) 0.

(** [next]; the returned value is [icdf] of the new state. *)
Definition next (p : poiss) : poiss :=
  let k' := wrapu64 (k p + 1) in
  let pmf' := big_div (pmf p) k' in
  let tmp := pmf' * lam p in
  let pmf' := Z.shiftr tmp precision in
  mkPoiss (lam p) pmf' (icdf p - pmf') k'.

Section Election.
(** The expected number of leaders, and the hash. *)
Context (BlocksPerEpoch : Z) (blake2b_Sum256 : bytes → bytes).

Definition lambda (power totalPower : Z) : Z := big_div (Z.shiftl (power * BlocksPerEpoch) precision) totalPower.

Definition MaxWinCount : Z := 3 ⊠ BlocksPerEpoch.

(** The loop; [fuel] rounds are left of the [MaxWinCount] there can be. *)
Fixpoint win_loop (fuel : nat) (lhs : Z) (p : poiss) (j : Z) : Z :=
  match fuel with
  | O => j
  | S fuel => if lhs <? icdf p then win_loop fuel lhs (next p) (j + 1) else j
  end.

Definition ComputeWinCount (VRFProof : bytes) (power totalPower : Z) : Z :=
  let lhs := BigFromBytes (blake2b_Sum256 VRFProof) in
  let lam := lambda power totalPower in
  win_loop (Z.to_nat MaxWinCount) lhs (newPoiss lam) 0.

Definition IsTicketWinner (vrfTicket : bytes) (mypow totpow : Z) : bool :=
  let lhs := BigFromBytes (blake2b_Sum256 vrfTicket) * totpow in
  let rhs := Z.shiftl mypow 256 * BlocksPerEpoch in
  lhs <? rhs.
End Election.

(** * The exponential *)

(** Horner's method on an interval of arguments. *)
Definition horner_step (a b : Z) (i : Z * Z) (c : Z) : Z * Z :=
  let q := (i.1 * a, i.1 * b, i.2 * a, i.2 * b) in
  let '(q1, q2, q3, q4) := q in
  (Z.shiftr (Z.min (Z.min q1 q2) (Z.min q3 q4)) precision + c, Z.shiftr (Z.max (Z.max q1 q2) (Z.max q3 q4)) precision + c).

Definition polyval_range (p : list Z) (a b : Z) : Z * Z :=
  match p with
  | [] => (0, 0)
  | c :: p => foldl (horner_step a b) (c, c) p
  end.

Lemma shiftr_mono x y : x <= y -> Z.shiftr x precision <= Z.shiftr y precision.
Proof. intros H. rewrite !Z.shiftr_div_pow2 by (unfold precision; lia). apply Z.div_le_mono; [unfold precision; lia|done]. Qed.

Lemma mul_between l u a b r x :
  l <= r <= u -> 0 <= a <= x -> x <= b -> Z.min (Z.min (l * a) (l * b)) (Z.min (u * a) (u * b)) <= r * x <=
    Z.max (Z.max (l * a) (l * b)) (Z.max (u * a) (u * b)).
Proof.
  intros [Hl Hu] [Ha Hax] Hb. assert (l * x <= r * x <= u * x) by (split; apply Z.mul_le_mono_nonneg_r; lia).
  assert (Hl' : Z.min (l * a) (l * b) <= l * x).
  { destruct (Z.le_ge_cases 0 l); [assert (l * a <= l * x) by (apply Z.mul_le_mono_nonneg_l; lia); lia|].
    assert (l * b <= l * x) by (apply Z.mul_le_mono_nonpos_l; lia). lia. }
  assert (Hu' : u * x <= Z.max (u * a) (u * b)).
  { destruct (Z.le_ge_cases 0 u); [assert (u * x <= u * b) by (apply Z.mul_le_mono_nonneg_l; lia); lia|].
    assert (u * x <= u * a) by (apply Z.mul_le_mono_nonpos_l; lia). lia. }
  lia.
Qed.

Lemma horner_fold a b x p : ∀ r i,
  0 <= a <= x -> x <= b -> i.1 <= r <= i.2 ->
  (foldl (horner_step a b) i p).1 <= foldl (fun res c => Z.shiftr (res * x) precision + c) r p <= (foldl (horner_step a b) i p).2.
Proof.
  induction p as [|c p IH]; intros r i Ha Hb Hr; [done|]. cbn [foldl]. apply IH; [done|done|].
  pose proof (mul_between _ _ _ _ _ _ Hr Ha Hb) as [H1 H2]. apply shiftr_mono in H1, H2. unfold horner_step. simpl. lia.
Qed.

Lemma polyval_between p a b x :
  0 <= a <= x -> x <= b -> (polyval_range p a b).1 <= polyval p x <= (polyval_range p a b).2.
Proof. intros Ha Hb. destruct p as [|c p]; [done|]. apply horner_fold; [done|done|simpl; lia]. Qed.

(** Steps of a tenth cover [0, 5]. *)
Definition step : Z := 2 ^ precision / 10 + 1.
Definition cells : list Z := Z.of_nat <$> seq 0 50.

Lemma cell_of x : 0 <= x <= 5 * 2 ^ precision -> ∃ i, i ∈ cells ∧ i * step <= x <= (i + 1) * step.
Proof.
  intros Hx. exists (x / step). assert (Hs : 0 < step) by (by vm_compute).
  pose proof (Z.div_mod x step ltac:(lia)) as Hd. pose proof (Z.mod_pos_bound x step Hs) as Hm. split; [|nia].
  apply list_elem_of_fmap. exists (Z.to_nat (x / step)). assert (0 <= x / step) by (apply Z.div_pos; lia).
  split; [lia|]. apply elem_of_seq. split; [lia|]. assert (x / step < 50); [|lia].
  apply Z.div_lt_upper_bound; [done|]. assert (5 * 2 ^ precision < step * 50) by (by vm_compute). lia.
Qed.

Lemma num_range x : 0 <= x <= 5 * 2 ^ precision -> 0 <= polyval expNumCoef x <= 2 ^ precision.
Proof.
  intros Hx. destruct (cell_of x Hx) as (i & Hi & Hlo & Hhi).
  assert (Hall : forallb (fun i => let r := polyval_range expNumCoef (i * step) ((i + 1) * step) in
    (0 <=? r.1) && (r.2 <=? 2 ^ precision)) cells = true) by (by vm_compute).
  rewrite forallb_forall in Hall. specialize (Hall i). rewrite <- list_elem_of_In in Hall. specialize (Hall Hi). cbv beta zeta in Hall.
  apply andb_true_iff in Hall as [H1 H2]. apply Z.leb_le in H1, H2.
  assert (Hi0 : 0 <= i) by (apply list_elem_of_fmap in Hi as (n & -> & _); lia).
  assert (Hs : 0 < step) by (by vm_compute).
  pose proof (polyval_between expNumCoef (i * step) ((i + 1) * step) x ltac:(nia) Hhi). lia.
Qed.

Lemma deno_range x : 0 <= x -> 2 ^ precision <= polyval expDenoCoef x.
Proof.
  intros Hx. assert (Hgen : ∀ p r, 0 <= r -> Forall (fun c => 0 <= c) p ->
    0 <= foldl (fun res c => Z.shiftr (res * x) precision + c) r p).
  { induction p as [|c p IH]; intros r Hr Hp; simpl; [done|]. apply Forall_cons in Hp as [Hc Hp]. apply IH; [|done].
    assert (0 <= Z.shiftr (r * x) precision) by (apply Z.shiftr_nonneg; nia). lia. }
  unfold polyval, expDenoCoef, parse. cbn [map].
  match goal with |- _ <= foldl ?f ?c ?l => set (g := f); set (c0 := c); set (l0 := l) end.
  assert (Hl : ∃ l1, l0 = l1 ++ [2 ^ precision] ∧ Forall (fun c => 0 <= c) l1).
  { exists (removelast l0). split; [by vm_compute|]. unfold l0. cbn [removelast]. repeat constructor; apply Z.shiftl_nonneg; lia. }
  destruct Hl as (l1 & -> & Hl1). rewrite foldl_app. cbn [foldl]. unfold g at 1.
  assert (Hr : 0 <= foldl g c0 l1) by (apply Hgen; [apply Z.shiftl_nonneg; lia|done]).
  assert (0 <= Z.shiftr (foldl g c0 l1 * x) precision) by (apply Z.shiftr_nonneg; nia). lia.
Qed.

(** The approximation of [e^-x] stays between zero and one for [x] up to five. *)
Lemma expneg_range x : 0 <= x <= 5 * 2 ^ precision -> 0 <= expneg x <= 2 ^ precision.
Proof.
  intros Hx. unfold expneg, big_div. pose proof (num_range x Hx) as Hn. pose proof (deno_range x ltac:(lia)) as Hd.
  set (n := polyval expNumCoef x) in *. set (d := polyval expDenoCoef x) in *. clearbody n d.
  assert (Hp : 0 < 2 ^ precision) by (by vm_compute).
  destruct (Z.ltb_spec d 0); [lia|]. rewrite Z.shiftl_mul_pow2 by (unfold precision; lia).
  split; [apply Z.div_pos; nia|]. apply Z.div_le_upper_bound; nia.
Qed.

(** * The distribution *)

(** [pmf(n)] and [1 - cdf(n)], as they are rounded. *)
Fixpoint pmf_at (lam : Z) (n : nat) : Z :=
  match n with
  | O => expneg lam
  | S n => Z.shiftr (pmf_at lam n / Z.of_nat (S n) * lam) precision
  end.

Fixpoint icdf_at (lam : Z) (n : nat) : Z :=
  match n with
  | O => 2 ^ precision - pmf_at lam 0
  | S n => icdf_at lam n - pmf_at lam (S n)
  end.

Definition state_at (lam : Z) (n : nat) : poiss := mkPoiss lam (pmf_at lam n) (icdf_at lam n) (Z.of_nat n).

Lemma newPoiss_state lam : newPoiss lam = state_at lam 0.
Proof. unfold newPoiss, state_at. cbn [icdf_at pmf_at]. by rewrite Z.shiftl_1_l. Qed.

Lemma next_state lam n : Z.of_nat (S n) < 2 ^ 64 -> next (state_at lam n) = state_at lam (S n).
Proof.
  intros Hn. unfold next, state_at. cbn [k pmf icdf Election.lam]. rewrite wrapu64_id by (unfold in_u64; lia).
  unfold big_div. destruct (Z.ltb_spec (Z.of_nat n + 1) 0); [lia|]. cbn [icdf_at pmf_at].
  replace (Z.of_nat n + 1) with (Z.of_nat (S n)) by lia. done.
Qed.

Section Wins.
Variable lam : Z.
Hypothesis lam_range : 0 <= lam <= 5 * 2 ^ precision.

Lemma pmf_nonneg n : 0 <= pmf_at lam n.
Proof.
  induction n as [|n IH]; cbn [pmf_at]; [by apply expneg_range|]. apply Z.shiftr_nonneg.
  apply Z.mul_nonneg_nonneg; [|lia]. apply Z.div_pos; lia.
Qed.

Lemma icdf_antitone n m : (n <= m)%nat -> icdf_at lam m <= icdf_at lam n.
Proof. induction 1 as [|m Hm IH]; [lia|]. cbn [icdf_at]. pose proof (pmf_nonneg (S m)). lia. Qed.

(** The values above [lhs] among [fuel] of them from [n] on. *)
Definition above (lhs : Z) (n fuel : nat) : list nat := filter (fun m => lhs < icdf_at lam m) (seq n fuel).

Lemma above_none lhs n fuel : icdf_at lam n <= lhs -> above lhs n fuel = [].
Proof.
  intros H. unfold above. induction fuel as [|fuel IH] in n, H |- *; [done|].
  cbn [seq]. rewrite filter_cons_False by lia. apply IH. pose proof (icdf_antitone n (S n) ltac:(lia)). lia.
Qed.

Lemma win_loop_counts lhs fuel : ∀ n j, Z.of_nat (n + fuel) < 2 ^ 64 ->
  win_loop fuel lhs (state_at lam n) j = j + Z.of_nat (length (above lhs n fuel)).
Proof.
  induction fuel as [|fuel IH]; intros n j Hn; cbn [win_loop]; [unfold above; simpl; lia|].
  change (icdf (state_at lam n)) with (icdf_at lam n). destruct (Z.ltb_spec lhs (icdf_at lam n)).
  - rewrite next_state, IH by lia. unfold above. cbn [seq]. rewrite filter_cons_True by done. simpl. lia.
  - rewrite above_none by lia. simpl. lia.
Qed.
End Wins.

Lemma SetBytes_nonneg b : ∀ acc, 0 <= acc -> 0 <= SetBytes acc b.
Proof. induction b as [|c b IH]; intros acc Ha; simpl; [done|]. apply IH. lia. Qed.

Lemma filter_length_mono {A} (P Q : A → Prop) `{!∀ x, Decision (P x)} `{!∀ x, Decision (Q x)} l :
  (∀ x, P x -> Q x) -> (length (filter P l) <= length (filter Q l))%nat.
Proof.
  intros HPQ. induction l as [|x l IH]; [done|]. rewrite !filter_cons.
  destruct (decide (P x)), (decide (Q x)); simpl; try lia. naive_solver.
Qed.

Lemma lambda_range E power totalPower :
  0 <= E <= 5 -> 0 <= power <= totalPower -> 0 < totalPower -> 0 <= lambda E power totalPower <= 5 * 2 ^ precision.
Proof.
  intros HE Hp Ht. unfold lambda, big_div. destruct (Z.ltb_spec totalPower 0); [lia|].
  rewrite Z.shiftl_mul_pow2 by (unfold precision; lia). assert (Hpr : 0 < 2 ^ precision) by (by vm_compute).
  generalize dependent (2 ^ precision). intros one Hone. assert (Hm : 0 <= power * E <= totalPower * 5) by nia.
  split; [apply Z.div_pos; nia|]. apply Z.div_le_upper_bound; nia.
Qed.

(** C23: The number of wins is the number of values of the inverted distribution, of
    which there are [3 * BlocksPerEpoch], that are above the hash of the proof.  In
    particular it is between zero and [MaxWinCount], a smaller hash never wins
    less, and without power there are no wins. *)
Theorem ComputeWinCount_counts E blake2b VRFProof power totalPower :
  0 < E <= 5 -> 0 <= power <= totalPower -> 0 < totalPower ->
  let wins proof := ComputeWinCount E blake2b proof power totalPower in
  let hash proof := BigFromBytes (blake2b proof) in
  wins VRFProof = Z.of_nat (length (above (lambda E power totalPower) (hash VRFProof) 0 (Z.to_nat (3 * E)))) ∧
  0 <= wins VRFProof <= MaxWinCount E ∧
  (∀ proof, hash VRFProof <= hash proof -> wins proof <= wins VRFProof) ∧
  (power = 0 -> wins VRFProof = 0).
Proof.
  intros HE Hp Ht wins hash. pose proof (lambda_range E power totalPower ltac:(lia) Hp Ht) as Hl.
  assert (Hmax : MaxWinCount E = 3 * E) by (apply i64_mul_id; unfold in_i64; lia).
  assert (Hw : ∀ proof, wins proof = Z.of_nat (length (above (lambda E power totalPower) (hash proof) 0 (Z.to_nat (3 * E))))).
  { intros proof. unfold wins, ComputeWinCount. rewrite Hmax, newPoiss_state, win_loop_counts by (done || lia). by rewrite Z.add_0_l. }
  split; [apply Hw|]. split; [|split].
  - rewrite Hw, Hmax. split; [lia|]. unfold above. pose proof (length_filter (fun m => hash VRFProof < icdf_at (lambda E power totalPower) m) (seq 0 (Z.to_nat (3 * E)))) as H.
    rewrite length_seq in H. lia.
  - intros proof Hle. rewrite !Hw. apply inj_le. apply filter_length_mono. intros m. lia.
  - intros ->. rewrite Hw, above_none; [done|done|]. assert (H0 : lambda E 0 totalPower = 0).
    { unfold lambda, big_div. destruct (Z.ltb_spec totalPower 0); [lia|]. rewrite Z.mul_0_l, Z.shiftl_0_l. apply Z.div_0_l. lia. }
    rewrite H0. assert (Hi : icdf_at 0 0 = 0) by (by vm_compute). rewrite Hi. by apply SetBytes_nonneg.
Qed.

(** With all the power and a hash of zero, a miner wins as often as it can. *)
Lemma ComputeWinCount_counts_witness :
  ComputeWinCount 5 (fun b => b) "" 7 7 = 15 ∧
  0 <= ComputeWinCount 5 (fun b => b) "" 7 7 <= MaxWinCount 5.
Proof.
  split; [vm_compute; reflexivity|].
  destruct (ComputeWinCount_counts 5 (fun b => b) "" 7 7) as (_ & H & _); [lia|lia|lia|exact H].
Defined.
