(* ===== verification/SlashFilter.v ===== *)
(** The filter of a miner's own blocks (src/chain/gen/slashfilter/slashfilter.go).

    Before a block is published, [MinedBlock] compares it with the blocks the miner
    has published before; the theorem is that among the blocks that pass there is
    no pair that the chain would punish.  The datastore is a map whose operations
    may fail. *)

From S2P Require Import Prelude Types Tipset.

(** The keys [/miner/height] and [/miner/parents] of the datastore. *)
Record SlashFilter := mkSlashFilter {
  byEpoch : gmap (address * Z) bytes;
  byParents : gmap (address * bytes) bytes;
}.

Definition newSlashFilter : SlashFilter := mkSlashFilter ∅ ∅.

Inductive slash_error :=
  | DsError
  | BadCid
  | DoubleForkMining (other : cid)
  | TimeOffsetMining (other : cid)
  | ParentGrinding (parent : cid).

(** The calls to the datastore in [MinedBlock], any of which may fail. *)
Inductive ds_call := HasEpoch | GetEpoch | HasParents | GetParents | HasParentEpoch | GetParentEpoch | PutParents | PutEpoch.

Section Filter.
(** The CID of a header, the parser of CIDs, and the parameters of the network. *)
Context (header_cid : BlockHeader → cid) (CidFromBytes : bytes → option cid).
Context (Finality UpgradeOrangeHeight : Z).

Definition IsNearUpgrade (epoch upgradeEpoch : Z) : bool :=
  (upgradeEpoch ⊟ Finality <? epoch) && (epoch <? upgradeEpoch ⊞ Finality).

(** [checkFault]; [has] and [get] tell whether the calls succeed. *)
Definition checkFault {K} `{Countable K} (has get : bool) (t : gmap K bytes) (key : K) (bh : BlockHeader)
    (fault : cid → slash_error) : option slash_error :=
  if negb has then Some DsError
  else match t !! key with
  | None => None
  | Some cidb =>
      if negb get then Some DsError
      else match CidFromBytes cidb with
      | None => Some BadCid
      | Some other => if bool_decide (other = header_cid bh) then None else Some (fault other)
      end
  end.

(** The check that the miner's own block of the parent epoch is a parent. *)
Definition checkParent (has get : bool) (t : gmap (address * Z) bytes) (bh : BlockHeader) (parentEpoch : Z)
    : option slash_error :=
  if negb has then Some DsError
  else match t !! (Miner bh, parentEpoch) with
  | None => None
  | Some cidb =>
      if negb get then Some DsError
      else match CidFromBytes cidb with
      | None => Some BadCid
      | Some parent => if existsb (fun c => bool_decide (c = parent)) (Parents bh) then None else Some (ParentGrinding parent)
      end
  end.

Definition MinedBlock (ok : ds_call → bool) (bh : BlockHeader) (parentEpoch : Z) (f : SlashFilter)
    : option slash_error * SlashFilter :=
  if IsNearUpgrade (Height bh) UpgradeOrangeHeight then (None, f)
  else
    let epochKey := (Miner bh, Height bh) in
    match checkFault (ok HasEpoch) (ok GetEpoch) (byEpoch f) epochKey bh DoubleForkMining with
    | Some err => (Some err, f)
    | None =>
        let parentsKey := (Miner bh, NewTipSetKey (Parents bh)) in
        match checkFault (ok HasParents) (ok GetParents) (byParents f) parentsKey bh TimeOffsetMining with
        | Some err => (Some err, f)
        | None =>
            match checkParent (ok HasParentEpoch) (ok GetParentEpoch) (byEpoch f) bh parentEpoch with
            | Some err => (Some err, f)
            | None =>
                if negb (ok PutParents) then (Some DsError, f)
                else
                  let f := mkSlashFilter (byEpoch f) (<[parentsKey := header_cid bh]> (byParents f)) in
                  if negb (ok PutEpoch) then (Some DsError, f)
                  else (None, mkSlashFilter (<[epochKey := header_cid bh]> (byEpoch f)) (byParents f))
            end
        end
    end.

(** * What passes the filter *)

(** A call of [MinedBlock]. *)
Record call := mkCall {
  c_ok : ds_call → bool;
  c_block : BlockHeader;
  c_parentEpoch : Z;
}.

(** The blocks that pass, away from the upgrade during which the filter is off. *)
Fixpoint published (calls : list call) (f : SlashFilter) : list call :=
  match calls with
  | [] => []
  | c :: calls =>
      match MinedBlock (c_ok c) (c_block c) (c_parentEpoch c) f with
      | (Some _, f) => published calls f
      | (None, f) =>
          if IsNearUpgrade (Height (c_block c)) UpgradeOrangeHeight then published calls f else c :: published calls f
      end
  end.

(** No consensus fault of [later] after [earlier]: two blocks of a miner at one
    height or with the same parents are the same block, and a block at the epoch of
    the parents is one of them. *)
Definition faultless (earlier later : call) : Prop :=
  Miner (c_block earlier) = Miner (c_block later) ->
  (Height (c_block earlier) = Height (c_block later) -> header_cid (c_block earlier) = header_cid (c_block later)) ∧
  (Parents (c_block earlier) = Parents (c_block later) -> header_cid (c_block earlier) = header_cid (c_block later)) ∧
  (c_parentEpoch later = Height (c_block earlier) -> header_cid (c_block earlier) ∈ Parents (c_block later)).

Hypothesis cid_roundtrip : ∀ b, CidFromBytes (header_cid b) = Some (header_cid b).

Definition recorded (f : SlashFilter) (c : call) : Prop :=
  byEpoch f !! (Miner (c_block c), Height (c_block c)) = Some (header_cid (c_block c)) ∧
  byParents f !! (Miner (c_block c), NewTipSetKey (Parents (c_block c))) = Some (header_cid (c_block c)).

Lemma checkFault_None {K} `{Countable K} has get (t : gmap K bytes) key bh fault b :
  checkFault has get t key bh fault = None -> t !! key = Some (header_cid b) -> header_cid b = header_cid bh.
Proof.
  unfold checkFault. destruct has; [|done]. simpl. intros Hc Ht. rewrite Ht, cid_roundtrip in Hc.
  destruct get; [|done]. simpl in Hc. by case_bool_decide.
Qed.

Lemma checkParent_None has get t bh parentEpoch b :
  checkParent has get t bh parentEpoch = None -> t !! (Miner bh, parentEpoch) = Some (header_cid b) ->
  header_cid b ∈ Parents bh.
Proof.
  unfold checkParent. destruct has; [|done]. simpl. intros Hc Ht. rewrite Ht, cid_roundtrip in Hc.
  destruct get; [|done]. simpl in Hc. destruct (existsb _ _) eqn:E; [|done].
  apply existsb_exists in E as (c & Hin & Hc'). apply bool_decide_eq_true in Hc' as ->. by apply list_elem_of_In.
Qed.

(** Nothing that was recorded is lost, whatever fails. *)
Lemma insert_same {K} `{Countable K} (t : gmap K bytes) key v k v' :
  (∀ x, t !! key = Some x -> k = key -> x = v) -> t !! k = Some v' -> <[key := v]> t !! k = Some v'.
Proof.
  intros Hs Ht. destruct (decide (k = key)) as [->|]; [|by rewrite lookup_insert_ne].
  rewrite lookup_insert_eq. f_equal. symmetry. by apply Hs.
Qed.

Lemma MinedBlock_spec c f past :
  Forall (recorded f) past ->
  let '(err, f') := MinedBlock (c_ok c) (c_block c) (c_parentEpoch c) f in
  Forall (recorded f') past ∧
  (err = None -> IsNearUpgrade (Height (c_block c)) UpgradeOrangeHeight = false ->
   recorded f' c ∧ Forall (fun e => faultless e c) past).
Proof.
  intros Hpast. unfold MinedBlock. destruct (IsNearUpgrade _ _); [done|].
  destruct (checkFault _ _ (byEpoch f) _ _ _) eqn:E1; [done|]. destruct (checkFault _ _ (byParents f) _ _ _) eqn:E2; [done|].
  destruct (checkParent _ _ _ _ _) eqn:E3; [done|]. rewrite Forall_forall in Hpast.
  assert (Hp : ∀ e, e ∈ past -> byParents f !! (Miner (c_block e), NewTipSetKey (Parents (c_block e))) =
    Some (header_cid (c_block e)) -> <[(Miner (c_block c), NewTipSetKey (Parents (c_block c))) := header_cid (c_block c)]>
      (byParents f) !! (Miner (c_block e), NewTipSetKey (Parents (c_block e))) = Some (header_cid (c_block e))).
  { intros e He H. apply insert_same; [|done]. intros x Hx Hk. rewrite <- Hk, H in Hx. injection Hx as <-.
    rewrite <- Hk in E2. exact (checkFault_None _ _ _ _ _ _ _ E2 H). }
  destruct (c_ok c PutParents); simpl; [|split; [by apply Forall_forall|done]].
  destruct (c_ok c PutEpoch); simpl.
  2: { split; [|done]. apply Forall_forall. intros e He. destruct (Hpast e He) as [H1 H2]. split; [done|by apply Hp]. }
  assert (Hnew : recorded (mkSlashFilter (<[(Miner (c_block c), Height (c_block c)) := header_cid (c_block c)]> (byEpoch f))
    (<[(Miner (c_block c), NewTipSetKey (Parents (c_block c))) := header_cid (c_block c)]> (byParents f))) c).
  { split; simpl; by rewrite lookup_insert_eq. }
  split; [|intros _ _; split; [exact Hnew|]]; apply Forall_forall; intros e He; destruct (Hpast e He) as [H1 H2].
  - split; [|by apply Hp]. apply insert_same; [|done]. intros x Hx Hk. rewrite <- Hk, H1 in Hx. injection Hx as <-.
    rewrite <- Hk in E1. exact (checkFault_None _ _ _ _ _ _ _ E1 H1).
  - intros Hm. rewrite Hm in H1, H2. split; [|split].
    + intros Hh. rewrite Hh in H1. exact (checkFault_None _ _ _ _ _ _ _ E1 H1).
    + intros Hh. rewrite Hh in H2. exact (checkFault_None _ _ _ _ _ _ _ E2 H2).
    + intros Hh. rewrite <- Hh in H1. exact (checkParent_None _ _ _ _ _ _ E3 H1).
Qed.

Lemma StronglySorted_snoc {A} (R : A → A → Prop) l x :
  StronglySorted R l -> Forall (fun y => R y x) l -> StronglySorted R (l ++ [x]).
Proof.
  induction 1 as [|y l Hs IH Hy]; intros Hx; simpl; [by repeat constructor|]. apply Forall_cons in Hx as [Hyx Hx].
  constructor; [by apply IH|]. apply Forall_app. split; [done|by constructor].
Qed.

Lemma published_sorted calls : ∀ past f,
  Forall (recorded f) past -> StronglySorted faultless past -> StronglySorted faultless (past ++ published calls f).
Proof.
  induction calls as [|c calls IH]; intros past f Hp Hs; simpl; [by rewrite app_nil_r|].
  pose proof (MinedBlock_spec c f past Hp) as H. destruct (MinedBlock _ _ _ _) as [[err|] f']; destruct H as [H1 H2]; [by apply IH|].
  destruct (IsNearUpgrade _ _); [by apply IH|]. destruct H2 as [H2 H3]; [done..|].
  change (c :: published calls f') with ([c] ++ published calls f'). rewrite app_assoc.
  apply IH; [|by apply StronglySorted_snoc]. apply Forall_app. split; [done|]. by constructor.
Qed.
End Filter.

(** C18: The slash filter keeps a miner from being punished: among the blocks that
    pass [MinedBlock], over any history of calls and of failures of the datastore
    and away from the upgrade that switches it off, no two different blocks of a
    miner have the same height or the same parents, and a block whose parents are
    at the epoch of an earlier block of the miner has that block among them. *)
Theorem MinedBlock_no_faults header_cid CidFromBytes Finality UpgradeOrangeHeight calls :
  (∀ b, CidFromBytes (header_cid b) = Some (header_cid b)) ->
  StronglySorted (faultless header_cid)
    (published header_cid CidFromBytes Finality UpgradeOrangeHeight calls newSlashFilter).
Proof. intros Hcid. apply (published_sorted _ _ _ _ Hcid calls [] newSlashFilter); constructor. Qed.

Module SlashExample.
Definition miner : address := IDAddr 1000.
Definition block (name : string) (parents : list cid) (height : Z) : BlockHeader :=
  mkBlockHeader miner "ticket" 1 "vrf" [] parents 0 height "state" "receipts" name 0 0 0.
Definition mined (name : string) (parents : list cid) (height parentEpoch : Z) : call :=
  mkCall (fun _ => true) (block name parents height) parentEpoch.

(** The second block forks the first one, the third one grinds. *)
Definition calls : list call :=
  [mined "a" ["genesis"] 10 0; mined "b" ["genesis"] 10 0; mined "c" ["x"] 11 10; mined "d" ["a"] 11 10].
End SlashExample.
Import SlashExample.

Lemma MinedBlock_no_faults_witness :
  (Messages ∘ c_block <$> published Messages Some 900 336458 calls newSlashFilter) = ["a"; "d"] ∧
  StronglySorted (faultless Messages) (published Messages Some 900 336458 calls newSlashFilter).
Proof.
  split; [vm_compute; reflexivity|]. apply MinedBlock_no_faults. intros b. reflexivity.
Defined.
