(* ===== verification/Fr32.v ===== *)
(** Padding of piece data to field elements (src/storage/sealer/fr32).

    Every 127 bytes are spread over 128: four words of 32 bytes whose top two bits
    are zero, so that each is a field element.  [Pad] and [Unpad] split large
    buffers over goroutines, which may run in any order; [padWriter] and
    [unpadReader] pad and unpad streams.  The piece sizes of go-state-types are the
    class [PieceSizes]. *)

From S2P Require Import Prelude.

(** * Bytes *)

Abbreviation bytes := (list Z) (only parsing).

Definition is_byte (b : Z) : Prop := 0 <= b < 256.

(** [v << k] of a [byte]. *)
Definition shl8 (v k : Z) : Z := Z.land (Z.shiftl v k) 255.

(** [b[i:j]]. *)
Definition slice (i j : nat) (b : bytes) : bytes := take (j - i) (drop i b).

(** * One chunk *)

(** The loop [out[i] = (v << s) | t; t = v >> (8 - s)] over the bytes [bs]: what it
    writes, and the last [v] and [t]. *)
Fixpoint pad_run (s t v : Z) (bs : bytes) : bytes * Z * Z :=
  match bs with
  | [] => ([], v, t)
  | b :: bs =>
      let '(out, v, t') := pad_run s (Z.shiftr b (8 - s)) b bs in
      (Z.lor (shl8 b s) t :: out, v, t')
  end.

(** A change of the last byte of a word, and [out[63] &= 0x3f]. *)
Definition on_last (f : Z → Z) (w : bytes) : bytes := alter f (pred (length w)) w.
Definition mask_last (w : bytes) : bytes := on_last (fun b => Z.land b 63) w.

(** The body of the loop of [pad], from 127 bytes to 128. *)
Definition pad_chunk (c : bytes) : bytes :=
  let t := Z.shiftr (c !!! 31%nat) 6 in
  let '(w2, v, _) := pad_run 2 t 0 (slice 32 64 c) in
  let t := Z.shiftr v 4 in
  let '(w3, v, _) := pad_run 4 t v (slice 64 96 c) in
  let t := Z.shiftr v 2 in
  let '(w4, v, t) := pad_run 6 t v (slice 96 127 c) in
  take 31 c ++ [Z.land (c !!! 31%nat) 63] ++ mask_last w2 ++ mask_last w3 ++ w4 ++ [Z.land t 63].

(** The loop [out[i] = at >> s; out[i] |= next << (8 - s); at = next]. *)
Fixpoint unpad_run (s at_ : Z) (nexts : bytes) : bytes * Z :=
  match nexts with
  | [] => ([], at_)
  | next :: nexts =>
      let '(out, at') := unpad_run s next nexts in
      (Z.lor (Z.shiftr at_ s) (shl8 next (8 - s)) :: out, at')
  end.

(** The first loop of [unpad] only copies. *)
Fixpoint copy_run (at_ : Z) (nexts : bytes) : bytes * Z :=
  match nexts with
  | [] => ([], at_)
  | next :: nexts => let '(out, at') := copy_run next nexts in (at_ :: out, at')
  end.

Definition unpad_chunk (c : bytes) : bytes :=
  let '(w1, a) := copy_run (c !!! 0%nat) (slice 1 33 c) in
  let w1 := on_last (fun b => Z.lor b (shl8 a 6)) w1 in
  let '(w2, a) := unpad_run 2 a (slice 33 65 c) in
  let w2 := on_last (fun b => Z.lxor b (Z.lxor (shl8 a 6) (shl8 a 4))) w2 in
  let '(w3, a) := unpad_run 4 a (slice 65 97 c) in
  let w3 := on_last (fun b => Z.lxor b (Z.lxor (shl8 a 4) (shl8 a 2))) w3 in
  let '(w4, _) := unpad_run 6 a (slice 97 128 c) in
  w1 ++ w2 ++ w3 ++ w4.

(** * Buffers *)

(** The chunks from a position on. *)
Fixpoint pad_chunks (chunks : nat) (src : bytes) : bytes :=
  match chunks with
  | O => []
  | S n => pad_chunk (take 127 src) ++ pad_chunks n (drop 127 src)
  end.

Fixpoint unpad_chunks (chunks : nat) (src : bytes) : bytes :=
  match chunks with
  | O => []
  | S n => unpad_chunk (take 128 src) ++ unpad_chunks n (drop 128 src)
  end.

(** [pad(in, out)]: the new contents of [out], or a panic when [in] is too
    short. *)
Definition pad (src out : bytes) : option bytes :=
  let chunks := (length out / 128)%nat in
  if (length src <? chunks * 127)%nat then None
  else Some (pad_chunks chunks src ++ drop (chunks * 128) out).

Definition unpad (out src : bytes) : option bytes :=
  let chunks := (length src / 128)%nat in
  if (length out <? chunks * 127)%nat then None
  else Some (unpad_chunks chunks src ++ drop (chunks * 127) out).

(** [copy] into a buffer at a position. *)
Definition write_at (off : nat) (bs out : bytes) : bytes := take off out ++ bs ++ drop (off + length bs) out.

(** * Goroutines *)

(** [abi.PaddedPieceSize] and [abi.UnpaddedPieceSize]. *)
Class PieceSizes := {
  Unpadded : Z → Z;
  Padded : Z → Z;
  validPadded : Z → bool;
}.

(** 127 bytes of data are 128 bytes padded; a padded size is valid when it is a
    power of two of at least 128. *)
Class PieceSizesLaws `{PieceSizes} := {
  Unpadded_spec s : 0 <= s → Unpadded s = s - s / 128;
  Padded_spec s : 0 <= s → Padded s = s + s / 127;
  validPadded_spec s : validPadded s = true ↔ ∃ k, 7 <= k <= 62 ∧ s = 2 ^ k;
}.

Definition MTTresh : Z := Z.shiftl 512 10.

(** [bits.Len32] for numbers below 2^32. *)
Definition Len32 (n : Z) : Z := if n =? 0 then 0 else Z.log2 n + 1.

(** The machine: the number of CPUs, and the order in which the goroutines for a
    buffer run. *)
Class GoThreads := {
  NumCPU : Z;
  schedule : Z → list Z;
}.

Section Threads.
Context `{PieceSizes} `{GoThreads}.

Definition mtChunkCount (usz : Z) : Z :=
  let threads := usz / MTTresh in
  let threads := if NumCPU <? threads then 2 ^ Len32 NumCPU else threads in
  if threads =? 0 then 1 else if 32 <? threads then 32 else threads.

(** The part of the padded buffer that a goroutine works on. *)
Definition thread_range (padLen thread : Z) : Z * Z :=
  let threadBytes := padLen / mtChunkCount padLen in
  let start := threadBytes * thread in (start, start + threadBytes).

(** [mt] with [pad], and with [unpad]. *)
Definition mt_pad (src out : bytes) : option bytes :=
  let padLen := Z.of_nat (length out) in
  foldl (fun acc thread =>
    out ← acc;
    let '(start, stop) := thread_range padLen thread in
    res ← pad (slice (Z.to_nat (Unpadded start)) (Z.to_nat (Unpadded stop)) src)
              (slice (Z.to_nat start) (Z.to_nat stop) out);
    Some (write_at (Z.to_nat start) res out)) (Some out) (schedule padLen).

Definition mt_unpad (out src : bytes) : option bytes :=
  let padLen := Z.of_nat (length src) in
  foldl (fun acc thread =>
    out ← acc;
    let '(start, stop) := thread_range padLen thread in
    res ← unpad (slice (Z.to_nat (Unpadded start)) (Z.to_nat (Unpadded stop)) out)
                (slice (Z.to_nat start) (Z.to_nat stop) src);
    Some (write_at (Z.to_nat (Unpadded start)) res out)) (Some out) (schedule padLen).

Definition Pad (src out : bytes) : option bytes :=
  if MTTresh <? Z.of_nat (length out) then mt_pad src out else pad src out.

Definition Unpad (src out : bytes) : option bytes :=
  if MTTresh <? Z.of_nat (length src) then mt_unpad out src else unpad out src.

(** * Sizes *)

Fixpoint trailing_zeros (p : positive) : Z :=
  match p with
  | xO p => 1 + trailing_zeros p
  | _ => 0
  end.

Definition TrailingZeros64 (w : Z) : Z := match w with Zpos p => trailing_zeros p | _ => 64 end.

Fixpoint ones_count (p : positive) : nat :=
  match p with
  | xO p => ones_count p
  | xI p => S (ones_count p)
  | xH => 1
  end.

Definition OnesCount64 (w : Z) : nat := match w with Zpos p => ones_count p | _ => 0 end.

(** The sizes of the set bits, the lowest first. *)
Fixpoint bit_sizes (n : nat) (w : Z) : list Z :=
  match n with
  | O => []
  | S n => let psize := Z.shiftl 1 (TrailingZeros64 w) in psize :: bit_sizes n (Z.lxor w psize)
  end.

Definition subPieces (size : Z) : list Z :=
  let w := Padded size in map Unpadded (bit_sizes (OnesCount64 w) w).

(** * The writer *)

(** What [padWriter] needs of its destination: the new state, the number of bytes
    written, and whether there was an error. *)
Context {D : Type} (dst_Write : bytes → D → D * Z * bool).

Record padWriter := mkPadWriter {
  dst : D;
  stash : bytes;
  work : bytes;
}.

Definition NewPadWriter (d : D) : padWriter := mkPadWriter d [] [].

(** [WritePanic] when [Pad] panics. *)
Inductive write_result := Written (n : Z) | WriteErr (n : Z) | WritePanic | WriteFuel.

(** The loop of [Write] over the bytes [bs] that are left, for a call of [Write]
    with [total] bytes. *)
Fixpoint write_loop (fuel : nat) (total : Z) (bs : bytes) (w : padWriter) : write_result * padWriter :=
  match fuel with
  | O => (WriteFuel, w)
  | S fuel =>
      match last (subPieces (Z.of_nat (length bs))) with
      | None => (WritePanic, w)
      | Some biggest =>
          let size := Z.to_nat (Padded biggest) in
          let buf := if (length (work w) <? size)%nat then replicate size 0 else work w in
          match Pad (take (Z.to_nat biggest) bs) (take size buf) with
          | None => (WritePanic, mkPadWriter (dst w) (stash w) buf)
          | Some out =>
              let buf := out ++ drop size buf in
              match dst_Write out (dst w) with
              | (d, n, false) => (WriteErr (Unpadded n), mkPadWriter d (stash w) buf)
              | (d, _, true) =>
                  let bs := drop (Z.to_nat biggest) bs in
                  if (length bs <? 127)%nat then (Written total, mkPadWriter d bs buf)
                  else write_loop fuel total bs (mkPadWriter d (stash w) buf)
              end
          end
      end
  end.

Definition Write (p : bytes) (w : padWriter) : write_result * padWriter :=
  let total := Z.of_nat (length p) in
  if (length p + length (stash w) <? 127)%nat
  then (Written total, mkPadWriter (dst w) (stash w ++ p) (work w))
  else
    let bs := stash w ++ p in
    write_loop (S (length bs)) total bs w.

(** [Close]: whether it succeeds. *)
Definition Close (w : padWriter) : bool := (length (stash w) =? 0)%nat.

(** * The reader *)

Record unpadReader := mkUnpadReader {
  src : bytes;
  left : Z;
  rwork : bytes;
}.

Definition BufSize (sz : Z) : Z := MTTresh * mtChunkCount sz.

Definition NewUnpadReaderBuf (s : bytes) (sz : Z) (buf : bytes) : option unpadReader :=
  if validPadded sz then Some (mkUnpadReader s sz buf) else None.

Definition NewUnpadReader (s : bytes) (sz : Z) : option unpadReader :=
  NewUnpadReaderBuf s sz (replicate (Z.to_nat (BufSize sz)) 0).

Inductive read_result := ReadEOF | ReadErr (n : Z) | ReadPanic | Read_ (out : bytes).

(** [Read] into a buffer [out]; the result holds the bytes that were read. *)
Definition Read (out : bytes) (r : unpadReader) : read_result * unpadReader :=
  if left r =? 0 then (ReadEOF, r)
  else
    let chunks := Z.of_nat (length out) / 127 in
    (** a shift by a negative amount panics *)
    if chunks =? 0 then (ReadPanic, r)
    else
      let outTwoPow := 2 ^ Z.log2 (chunks * 128) in
      if negb (validPadded outTwoPow) then (ReadErr 0, r)
      else
        let todo := if left r <? outTwoPow then 2 ^ Z.log2 (left r) else outTwoPow in
        let r := mkUnpadReader (src r) (left r - todo) (rwork r) in
        let n := Z.to_nat todo in
        (** the buffer is too short *)
        if (length (rwork r) <? n)%nat then (ReadPanic, r)
        else if (length (src r) <? n)%nat
        then (ReadErr (Z.of_nat (length (src r))),
              mkUnpadReader [] (left r) (src r ++ drop (length (src r)) (rwork r)))
        else
          let r := mkUnpadReader (drop n (src r)) (left r) (take n (src r) ++ drop n (rwork r)) in
          match Unpad (take n (rwork r)) (take (Z.to_nat (Unpadded todo)) out) with
          | None => (ReadPanic, r)
          | Some res => (Read_ res, r)
          end.
End Threads.
