(* ===== verification/Fr32Props.v ===== *)
(** Theory of the padding to field elements ([Fr32]): padding can be undone and
    gives field elements. *)

From S2P Require Import Prelude Fr32.

(** * Bytes *)

Definition all_bytes : list Z := Z.of_nat <$> seq 0 256.

Lemma all_bytes_elem b : is_byte b -> b ∈ all_bytes.
Proof.
  intros [H1 H2]. apply list_elem_of_fmap. exists (Z.to_nat b). split; [lia|]. apply elem_of_seq. lia.
Qed.

(** Facts about bytes are checked on all of them. *)
Lemma byte_check (P : Z → bool) : forallb P all_bytes = true -> ∀ b, is_byte b -> P b = true.
Proof.
  intros Hall b Hb. rewrite forallb_forall in Hall. apply Hall. rewrite <- list_elem_of_In. by apply all_bytes_elem.
Qed.

Lemma byte_check2 (P : Z → Z → bool) :
  forallb (fun a => forallb (P a) all_bytes) all_bytes = true -> ∀ a b, is_byte a -> is_byte b -> P a b = true.
Proof. intros Hall a b Ha Hb. apply byte_check; [|done]. by apply (byte_check (fun a => forallb (P a) all_bytes)). Qed.

Definition shift_ok (s : Z) : Prop := s = 2 ∨ s = 4 ∨ s = 6.

Lemma shl8_byte v k : is_byte (shl8 v k).
Proof.
  unfold is_byte, shl8. change 255 with (Z.ones 8). rewrite Z.land_ones by lia. apply Z.mod_pos_bound. lia.
Qed.

Lemma lor_byte a b : is_byte a -> is_byte b -> is_byte (Z.lor a b).
Proof.
  intros Ha Hb. pose proof (byte_check2 (fun a b => (0 <=? Z.lor a b) && (Z.lor a b <? 256)) ltac:(by vm_compute) a b Ha Hb) as H.
  apply andb_true_iff in H as [H1 H2]. unfold is_byte. lia.
Qed.

Lemma shiftr_byte b s : shift_ok s -> is_byte b -> 0 <= Z.shiftr b (8 - s) < 2 ^ s.
Proof.
  unfold is_byte. intros Hs Hb. rewrite Z.shiftr_div_pow2 by (destruct Hs as [->|[->| ->]]; lia).
  destruct Hs as [->|[->| ->]]; (split; [apply Z.div_pos; lia|apply Z.div_lt_upper_bound; lia]).
Qed.

(** The bits of [b] that stay in place, and those that were carried. *)
Lemma low_bits s b t :
  shift_ok s -> is_byte b -> 0 <= t < 2 ^ s -> Z.shiftr (Z.lor (shl8 b s) t) s = Z.land b (2 ^ (8 - s) - 1).
Proof.
  intros Hs Hb Ht. assert (Hbt : is_byte t) by (unfold is_byte; destruct Hs as [->|[->| ->]]; lia).
  pose proof (byte_check2 (fun b t => negb (t <? 2 ^ s) || (Z.shiftr (Z.lor (shl8 b s) t) s =? Z.land b (2 ^ (8 - s) - 1)))
    ltac:(by destruct Hs as [->|[->| ->]]; vm_compute) b t Hb Hbt) as H.
  apply orb_true_iff in H as [H|H]; [|by apply Z.eqb_eq]. apply negb_true_iff, Z.ltb_ge in H. lia.
Qed.

Lemma high_bits s b t :
  shift_ok s -> is_byte b -> 0 <= t < 2 ^ s -> shl8 (Z.lor (shl8 b s) t) (8 - s) = shl8 t (8 - s).
Proof.
  intros Hs Hb Ht. assert (Hbt : is_byte t) by (unfold is_byte; destruct Hs as [->|[->| ->]]; lia).
  pose proof (byte_check2 (fun b t => negb (t <? 2 ^ s) || (shl8 (Z.lor (shl8 b s) t) (8 - s) =? shl8 t (8 - s)))
    ltac:(by destruct Hs as [->|[->| ->]]; vm_compute) b t Hb Hbt) as H.
  apply orb_true_iff in H as [H|H]; [|by apply Z.eqb_eq]. apply negb_true_iff, Z.ltb_ge in H. lia.
Qed.

Lemma rejoin s b : shift_ok s -> is_byte b -> Z.lor (Z.land b (2 ^ (8 - s) - 1)) (shl8 (Z.shiftr b (8 - s)) (8 - s)) = b.
Proof.
  intros Hs Hb. apply Z.eqb_eq.
  apply (byte_check (fun b => Z.lor (Z.land b (2 ^ (8 - s) - 1)) (shl8 (Z.shiftr b (8 - s)) (8 - s)) =? b)); [|done].
  by destruct Hs as [->|[->| ->]]; vm_compute.
Qed.

(** * Runs *)

(** The bytes a run writes. *)
Fixpoint spread (s t : Z) (bs : list Z) : list Z :=
  match bs with
  | [] => []
  | b :: bs => Z.lor (shl8 b s) t :: spread s (Z.shiftr b (8 - s)) bs
  end.

Lemma pad_run_spread s bs z : ∀ t v, pad_run s t v (bs ++ [z]) = (spread s t (bs ++ [z]), z, Z.shiftr z (8 - s)).
Proof. induction bs as [|b bs IH]; intros t v; [done|]. cbn [pad_run spread app]. by rewrite IH. Qed.

(** The carry out of the bytes before the last one. *)
Fixpoint carry (s t : Z) (bs : list Z) : Z :=
  match bs with
  | [] => t
  | b :: bs => carry s (Z.shiftr b (8 - s)) bs
  end.

Lemma spread_snoc s bs z : ∀ t, spread s t (bs ++ [z]) = spread s t bs ++ [Z.lor (shl8 z s) (carry s t bs)].
Proof. induction bs as [|b bs IH]; intros t; [done|]. cbn [spread app carry]. by rewrite IH. Qed.

Lemma spread_length s bs : ∀ t, length (spread s t bs) = length bs.
Proof. induction bs as [|b bs IH]; intros t; simpl; auto. Qed.

Lemma carry_range s bs : shift_ok s -> Forall is_byte bs -> ∀ t, 0 <= t < 2 ^ s -> 0 <= carry s t bs < 2 ^ s.
Proof.
  intros Hs. induction 1 as [|b bs Hb Hbs IH]; intros t Ht; [done|]. cbn [carry]. apply IH. by apply shiftr_byte.
Qed.

Lemma spread_bytes s bs : shift_ok s -> Forall is_byte bs -> ∀ t, 0 <= t < 2 ^ s -> Forall is_byte (spread s t bs).
Proof.
  intros Hs. induction 1 as [|b bs Hb Hbs IH]; intros t Ht; simpl; [constructor|]. constructor; [|by apply IH, shiftr_byte].
  apply lor_byte; [apply shl8_byte|]. unfold is_byte. destruct Hs as [->|[->| ->]]; lia.
Qed.

(** A run is undone up to the byte [m] that follows, of which only the carried bits
    matter. *)
Lemma unpad_spread s m xs bs : shift_ok s -> Forall is_byte bs -> ∀ b t,
  is_byte b -> 0 <= t < 2 ^ s -> shl8 m (8 - s) = shl8 (carry s t (b :: bs)) (8 - s) ->
  unpad_run s (Z.lor (shl8 b s) t) (spread s (Z.shiftr b (8 - s)) bs ++ m :: xs) =
    (b :: bs ++ (unpad_run s m xs).1, (unpad_run s m xs).2).
Proof.
  intros Hs. induction 1 as [|b' bs Hb' Hbs IH]; intros b t Hb Ht Hm; cbn [carry] in Hm.
  - cbn [spread app unpad_run]. destruct (unpad_run s m xs) as [r f]. simpl. rewrite Hm, low_bits, rejoin by done. done.
  - cbn [spread app unpad_run]. pose proof (shiftr_byte b s Hs Hb) as Hc. rewrite (IH b' (Z.shiftr b (8 - s))) by done.
    rewrite high_bits, low_bits, rejoin by done. done.
Qed.

Lemma copy_run_snoc l y : ∀ x, copy_run x (l ++ [y]) = (x :: l, y).
Proof. induction l as [|z l IH]; intros x; [done|]. cbn [app copy_run]. by rewrite IH. Qed.

Lemma on_last_snoc f l z : on_last f (l ++ [z]) = l ++ [f z].
Proof. unfold on_last. rewrite length_app, Nat.add_1_r. simpl. by rewrite alter_app_r_alt, Nat.sub_diag by lia. Qed.

(** ** Ends of words *)

(** The last byte of a word, with its top bits cleared. *)
Definition word_end (s z t : Z) : Z := Z.land (Z.lor (shl8 z s) t) 63.

(** [z] is put together from the end of a word and the first byte of the next. *)
Lemma word_join s z t c :
  s = 2 ∨ s = 4 -> is_byte z -> is_byte c -> 0 <= t < 2 ^ s ->
  let x := Z.lor (shl8 c (s + 2)) (Z.shiftr z (6 - s)) in
  Z.lxor (Z.lor (Z.shiftr (word_end s z t) s) (shl8 x (8 - s))) (Z.lxor (shl8 x (8 - s)) (shl8 x (6 - s))) = z ∧
  shl8 (word_end s z t) (8 - s) = shl8 t (8 - s).
Proof.
  intros Hs Hz Hc Ht x. assert (Hbt : is_byte t) by (unfold is_byte; destruct Hs as [->| ->]; lia).
  assert (H1 : Z.shiftr (word_end s z t) s = Z.land z (2 ^ (6 - s) - 1) ∧ shl8 (word_end s z t) (8 - s) = shl8 t (8 - s)).
  { pose proof (byte_check2 (fun z t => negb (t <? 2 ^ s) || ((Z.shiftr (word_end s z t) s =? Z.land z (2 ^ (6 - s) - 1)) &&
      (shl8 (word_end s z t) (8 - s) =? shl8 t (8 - s)))) ltac:(by destruct Hs as [->| ->]; vm_compute) z t Hz Hbt) as H.
    apply orb_true_iff in H as [H|H]; [apply negb_true_iff, Z.ltb_ge in H; lia|]. apply andb_true_iff in H. lia. }
  destruct H1 as [-> ->]. split; [|done]. apply Z.eqb_eq. unfold x.
  apply (byte_check2 (fun z c => let x := Z.lor (shl8 c (s + 2)) (Z.shiftr z (6 - s)) in
    Z.lxor (Z.lor (Z.land z (2 ^ (6 - s) - 1)) (shl8 x (8 - s))) (Z.lxor (shl8 x (8 - s)) (shl8 x (6 - s))) =? z)); [|done..].
  by destruct Hs as [->| ->]; vm_compute.
Qed.

Lemma first_join z c : is_byte z -> is_byte c -> Z.lor (Z.land z 63) (shl8 (Z.lor (shl8 c 2) (Z.shiftr z 6)) 6) = z.
Proof.
  intros Hz Hc. apply Z.eqb_eq.
  apply (byte_check2 (fun z c => Z.lor (Z.land z 63) (shl8 (Z.lor (shl8 c 2) (Z.shiftr z 6)) 6) =? z)); [by vm_compute|done..].
Qed.

(** * Chunks *)

Lemma slice_mid {A} `{Inhabited A} (l1 l2 l3 : list A) i j :
  length l1 = i -> (length l2 + i = j)%nat -> take (j - i) (drop i (l1 ++ l2 ++ l3)) = l2.
Proof. intros <- <-. rewrite drop_app_length, Nat.add_sub. by rewrite take_app_length. Qed.

(** The bytes of a chunk, by the words they end up in. *)
Inductive chunk_shape : list Z → Prop :=
  | Chunk A z1 b2 B z2 b3 C z3 E :
      length A = 31%nat -> length B = 30%nat -> length C = 30%nat -> length E = 30%nat ->
      ∀ b4, chunk_shape (A ++ [z1] ++ (b2 :: B ++ [z2]) ++ (b3 :: C ++ [z3]) ++ b4 :: E).

Lemma split_len {A} n (l : list A) : (n <= length l)%nat -> ∃ l1 l2, l = l1 ++ l2 ∧ length l1 = n.
Proof. intros Hn. exists (take n l), (drop n l). by rewrite take_drop, length_take_le. Qed.

Lemma chunk_shaped c : length c = 127%nat -> chunk_shape c.
Proof.
  intros Hc. destruct (split_len 31 c) as (A & c1 & -> & HA); [lia|]. rewrite length_app in Hc.
  destruct c1 as [|z1 c1]; simpl in Hc; [lia|]. destruct c1 as [|b2 c1]; simpl in Hc; [lia|].
  destruct (split_len 30 c1) as (B & c2 & -> & HB); [lia|]. rewrite length_app in Hc.
  destruct c2 as [|z2 c2]; simpl in Hc; [lia|]. destruct c2 as [|b3 c2]; simpl in Hc; [lia|].
  destruct (split_len 30 c2) as (C & c3 & -> & HC); [lia|]. rewrite length_app in Hc.
  destruct c3 as [|z3 c3]; simpl in Hc; [lia|]. destruct c3 as [|b4 E]; simpl in Hc; [lia|].
  pose proof (Chunk A z1 b2 B z2 b3 C z3 E HA HB HC ltac:(lia) b4) as H. simpl in H |- *. by rewrite <- !app_assoc in H.
Qed.

(** What the chunk becomes. *)
Definition padded_chunk A z1 b2 B z2 b3 C z3 b4 E : list Z :=
  A ++ [Z.land z1 63] ++
  (Z.lor (shl8 b2 2) (Z.shiftr z1 6) :: spread 2 (Z.shiftr b2 6) B ++ [word_end 2 z2 (carry 2 (Z.shiftr z1 6) (b2 :: B))]) ++
  (Z.lor (shl8 b3 4) (Z.shiftr z2 4) :: spread 4 (Z.shiftr b3 4) C ++ [word_end 4 z3 (carry 4 (Z.shiftr z2 4) (b3 :: C))]) ++
  (Z.lor (shl8 b4 6) (Z.shiftr z3 2) :: spread 6 (Z.shiftr b4 2) E ++ [Z.land (carry 6 (Z.shiftr z3 2) (b4 :: E)) 63]).

Lemma pad_chunk_shape A z1 b2 B z2 b3 C z3 b4 E :
  length A = 31%nat -> length B = 30%nat -> length C = 30%nat -> length E = 30%nat ->
  pad_chunk (A ++ [z1] ++ (b2 :: B ++ [z2]) ++ (b3 :: C ++ [z3]) ++ b4 :: E) = padded_chunk A z1 b2 B z2 b3 C z3 b4 E.
Proof.
  intros HA HB HC HE. set (c := A ++ _).
  assert (H31 : c !!! 31%nat = z1) by (unfold c; rewrite lookup_total_app_r, HA by lia; done).
  assert (H2 : slice 32 64 c = (b2 :: B) ++ [z2]).
  { unfold slice, c. rewrite app_assoc. apply slice_mid; simpl; rewrite ?length_app; simpl; lia. }
  assert (H3 : slice 64 96 c = (b3 :: C) ++ [z3]).
  { unfold slice, c. rewrite 2!app_assoc. apply slice_mid; simpl; rewrite ?length_app; simpl; rewrite ?length_app; simpl; lia. }
  destruct (exists_last (l := b4 :: E)) as (E' & z4 & HE'); [done|].
  assert (H4 : slice 96 127 c = E' ++ [z4]).
  { unfold slice, c. rewrite 3!app_assoc, <- HE'. set (pre := ((A ++ _) ++ _) ++ _).
    pose proof (slice_mid pre (b4 :: E) [] 96 127) as H. rewrite app_nil_r in H. apply H; [|simpl; lia].
    unfold pre. rewrite !length_app. simpl. rewrite !length_app. simpl. lia. }
  unfold pad_chunk. rewrite H31, H2, H3, H4, !pad_run_spread.
  assert (Ht : take 31 c = A) by (unfold c; rewrite take_app_le by lia; by rewrite take_ge by lia).
  rewrite Ht, (spread_snoc 2 (b2 :: B)), (spread_snoc 4 (b3 :: C)). unfold mask_last. rewrite !on_last_snoc.
  assert (Hcar : Z.shiftr z4 (8 - 6) = carry 6 (Z.shiftr z3 2) (b4 :: E)).
  { rewrite HE'. clear. generalize (Z.shiftr z3 2). induction E' as [|e E' IH]; intros t; [done|apply IH]. }
  rewrite Hcar, <- HE'. unfold padded_chunk, word_end. by cbn [spread carry app].
Qed.

Ltac cut := first
  [ done
  | match goal with |- _ = _ ++ _ => rewrite ?app_nil_r; repeat (simpl; rewrite <- app_assoc); reflexivity end
  | repeat (simpl; rewrite ?length_app); lia ].

Lemma unpad_padded A z1 b2 B z2 b3 C z3 b4 E :
  length A = 31%nat -> length B = 30%nat -> length C = 30%nat -> length E = 30%nat ->
  Forall is_byte (A ++ [z1] ++ (b2 :: B ++ [z2]) ++ (b3 :: C ++ [z3]) ++ b4 :: E) ->
  unpad_chunk (padded_chunk A z1 b2 B z2 b3 C z3 b4 E) = A ++ [z1] ++ (b2 :: B ++ [z2]) ++ (b3 :: C ++ [z3]) ++ b4 :: E.
Proof.
  intros HA HB HC HE Hbytes.
  rewrite !Forall_app, !Forall_cons, !Forall_app, !Forall_singleton in Hbytes.
  destruct Hbytes as (HbA & [Hz1 _] & (Hb2 & HbB & Hz2) & (Hb3 & HbC & Hz3) & Hb4 & HbE).
  unfold padded_chunk. set (h2 := Z.lor (shl8 b2 2) _). set (h3 := Z.lor (shl8 b3 4) _). set (h4 := Z.lor (shl8 b4 6) _).
  set (e2 := word_end 2 _ _). set (e3 := word_end 4 _ _). set (e4 := Z.land (carry _ _ _) 63).
  destruct A as [|a A]; [done|]. set (c := (a :: A) ++ _).
  set (t2 := spread 2 (Z.shiftr b2 6) B) in *. set (t3 := spread 4 (Z.shiftr b3 4) C) in *.
  set (t4 := spread 6 (Z.shiftr b4 2) E) in *.
  assert (Hl2 : length t2 = 30%nat) by (unfold t2; by rewrite spread_length).
  assert (Hl3 : length t3 = 30%nat) by (unfold t3; by rewrite spread_length).
  assert (Hl4 : length t4 = 30%nat) by (unfold t4; by rewrite spread_length).
  assert (Hcut : ∀ i j l1 l2 l3, c = l1 ++ l2 ++ l3 -> length l1 = i -> (length l2 + i = j)%nat -> slice i j c = l2).
  { intros i j l1 l2 l3 -> Hi Hj. by apply slice_mid. }
  unfold c in Hcut at 1. simpl in HA. unfold unpad_chunk.
  rewrite (Hcut 1%nat 33%nat [a] ((A ++ [Z.land z1 63]) ++ [h2]) (t2 ++ [e2] ++ h3 :: t3 ++ [e3] ++ h4 :: t4 ++ [e4]))
    by cut.
  rewrite (Hcut 33%nat 65%nat ((a :: A) ++ [Z.land z1 63] ++ [h2]) (t2 ++ e2 :: [h3]) (t3 ++ [e3] ++ h4 :: t4 ++ [e4]))
    by cut.
  rewrite (Hcut 65%nat 97%nat ((a :: A) ++ [Z.land z1 63] ++ h2 :: t2 ++ [e2] ++ [h3]) (t3 ++ e3 :: [h4]) (t4 ++ [e4]))
    by cut.
  rewrite (Hcut 97%nat 128%nat ((a :: A) ++ [Z.land z1 63] ++ h2 :: t2 ++ [e2] ++ h3 :: t3 ++ [e3] ++ [h4]) (t4 ++ e4 :: []) [])
    by cut.
  change (c !!! 0%nat) with a. rewrite copy_run_snoc, (app_comm_cons A), on_last_snoc.
  assert (Hc1 : 0 <= Z.shiftr z1 6 < 2 ^ 2) by (apply (shiftr_byte z1 2); [by left|done]).
  assert (Hc2 : 0 <= Z.shiftr z2 4 < 2 ^ 4) by (apply (shiftr_byte z2 4); [by right; left|done]).
  assert (Hc3 : 0 <= Z.shiftr z3 2 < 2 ^ 6) by (apply (shiftr_byte z3 6); [by right; right|done]).
  pose proof (carry_range 2 (b2 :: B) ltac:(by left) ltac:(by constructor) _ Hc1) as Hd2.
  pose proof (carry_range 4 (b3 :: C) ltac:(by right; left) ltac:(by constructor) _ Hc2) as Hd3.
  pose proof (carry_range 6 (b4 :: E) ltac:(by right; right) ltac:(by constructor) _ Hc3) as Hd4.
  destruct (word_join 2 z2 _ b3 ltac:(by left) Hz2 Hb3 Hd2) as [J2 M2].
  destruct (word_join 4 z3 _ b4 ltac:(by right) Hz3 Hb4 Hd3) as [J3 M3].
  assert (R2 : unpad_run 2 h2 (t2 ++ e2 :: [h3]) = (b2 :: B ++ (unpad_run 2 e2 [h3]).1, h3)).
  { unfold h2, t2. apply (unpad_spread 2 e2 [h3]); [by left|done..]. }
  assert (R3 : unpad_run 4 h3 (t3 ++ e3 :: [h4]) = (b3 :: C ++ (unpad_run 4 e3 [h4]).1, h4)).
  { unfold h3, t3. apply (unpad_spread 4 e3 [h4]); [by right; left|done..]. }
  assert (R4 : unpad_run 6 h4 (t4 ++ e4 :: []) = (b4 :: E ++ [], e4)).
  { unfold h4, t4. apply (unpad_spread 6 e4 []); [by right; right|done..|]. unfold e4.
    change 63 with (Z.ones 6). rewrite Z.land_ones, Z.mod_small by lia. done. }
  rewrite R2, R3, R4, app_nil_r. cbn [unpad_run fst]. rewrite 2!app_comm_cons, 2!on_last_snoc.
  change (Z.lxor (Z.lor (Z.shiftr e2 2) (shl8 h3 (8 - 2))) (Z.lxor (shl8 h3 (8 - 2)) (shl8 h3 (6 - 2))) = z2) in J2.
  change (Z.lxor (Z.lor (Z.shiftr e3 4) (shl8 h4 (8 - 4))) (Z.lxor (shl8 h4 (8 - 4)) (shl8 h4 (6 - 4))) = z3) in J3.
  change (6 - 2) with 4 in J2. change (6 - 4) with 2 in J3. change (8 - 2) with 6 in J2 |- *. change (8 - 4) with 4 in J3 |- *.
  rewrite J2, J3. unfold h2. rewrite first_join by done. by rewrite <- (app_assoc (a :: A)).
Qed.

Theorem unpad_pad_chunk c : length c = 127%nat -> Forall is_byte c -> unpad_chunk (pad_chunk c) = c.
Proof.
  intros Hlen Hb. destruct (chunk_shaped c Hlen). rewrite pad_chunk_shape by done. by apply unpad_padded.
Qed.

(** ** Field elements *)

Fixpoint le_value (w : list Z) : Z :=
  match w with
  | [] => 0
  | b :: w => b + 256 * le_value w
  end.

Lemma le_value_range w : Forall is_byte w -> 0 <= le_value w < 256 ^ Z.of_nat (length w).
Proof.
  unfold is_byte. induction 1 as [|b w Hb Hw IH]; simpl; [lia|]. rewrite Nat2Z.inj_succ, Z.pow_succ_r by lia. lia.
Qed.

Lemma le_value_snoc w z : le_value (w ++ [z]) = le_value w + 256 ^ Z.of_nat (length w) * z.
Proof.
  induction w as [|b w IH]; simpl; [lia|]. rewrite IH, Nat2Z.inj_succ, Z.pow_succ_r by lia. lia.
Qed.

(** A word of 32 bytes whose top two bits are clear. *)
Definition field_word (w : list Z) : Prop := length w = 32%nat ∧ Forall is_byte w ∧ le_value w < 2 ^ 254.

Lemma field_word_intro w z : length w = 31%nat -> Forall is_byte w -> 0 <= z < 64 -> field_word (w ++ [z]).
Proof.
  intros Hl Hw Hz. split; [rewrite length_app, Hl; done|]. split.
  - apply Forall_app. split; [done|]. constructor; [unfold is_byte; lia|constructor].
  - pose proof (le_value_range w Hw) as Hr. rewrite le_value_snoc, Hl in *.
    change (2 ^ 254) with (256 ^ Z.of_nat 31 * 64). nia.
Qed.

Lemma land63 z : 0 <= Z.land z 63 < 64.
Proof. change 63 with (Z.ones 6). rewrite Z.land_ones by lia. apply Z.mod_pos_bound. lia. Qed.

(** A chunk becomes four field elements. *)
Lemma pad_chunk_words c :
  length c = 127%nat -> Forall is_byte c ->
  ∃ w1 w2 w3 w4, pad_chunk c = w1 ++ w2 ++ w3 ++ w4 ∧ Forall field_word [w1; w2; w3; w4].
Proof.
  intros Hlen Hb. destruct (chunk_shaped c Hlen) as [A z1 b2 B z2 b3 C z3 E HA HB HC HE b4].
  rewrite pad_chunk_shape by done. rewrite !Forall_app, !Forall_cons, !Forall_app, !Forall_singleton in Hb.
  destruct Hb as (HbA & [Hz1 _] & (Hb2 & HbB & Hz2) & (Hb3 & HbC & Hz3) & Hb4 & HbE).
  assert (Hrun : ∀ s z b bs, shift_ok s -> is_byte z -> is_byte b -> Forall is_byte bs ->
    Forall is_byte (Z.lor (shl8 b s) (Z.shiftr z (8 - s)) :: spread s (Z.shiftr b (8 - s)) bs)).
  { intros s z b bs Hs Hz Hb Hbs. change (Forall is_byte (spread s (Z.shiftr z (8 - s)) (b :: bs))).
    apply spread_bytes; [done|by constructor|by apply shiftr_byte]. }
  unfold padded_chunk. eexists (A ++ [_]), ((_ :: spread 2 _ B) ++ [_]), ((_ :: spread 4 _ C) ++ [_]), ((_ :: spread 6 _ E) ++ [_]).
  split; [rewrite <- (app_assoc A); reflexivity|].
  repeat apply Forall_cons_2; try apply Forall_nil_2; apply field_word_intro;
    try (simpl; rewrite ?spread_length; lia); try apply land63; try done.
  - by apply (Hrun 2); [left|..].
  - by apply (Hrun 4); [right; left|..].
  - by apply (Hrun 6); [right; right|..].
Qed.

(** * Sequences of chunks *)

Lemma pad_chunk_length c : length c = 127%nat -> Forall is_byte c -> length (pad_chunk c) = 128%nat.
Proof.
  intros Hl Hb. destruct (pad_chunk_words c Hl Hb) as (w1 & w2 & w3 & w4 & -> & Hw).
  rewrite !Forall_cons in Hw. destruct Hw as ([H1 _] & [H2 _] & [H3 _] & [H4 _] & _). rewrite !length_app. lia.
Qed.

Lemma pad_chunks_length n : ∀ l, length l = (127 * n)%nat -> Forall is_byte l -> length (pad_chunks n l) = (128 * n)%nat.
Proof.
  induction n as [|n IH]; intros l Hl Hb; [simpl; lia|]. cbn [pad_chunks].
  rewrite length_app, pad_chunk_length, IH; [lia|rewrite length_drop; lia|by apply Forall_drop|rewrite length_take; lia|by apply Forall_take].
Qed.

Lemma pad_chunks_app a b : ∀ l1 l2, length l1 = (127 * a)%nat ->
  pad_chunks (a + b) (l1 ++ l2) = pad_chunks a l1 ++ pad_chunks b l2.
Proof.
  induction a as [|a IH]; intros l1 l2 Hl.
  - by destruct l1; [|simpl in Hl; lia].
  - cbn [pad_chunks Nat.add]. rewrite take_app_le, drop_app_le, IH by (rewrite ?length_drop; lia). by rewrite app_assoc.
Qed.

Lemma unpad_chunks_app a b : ∀ l1 l2, length l1 = (128 * a)%nat ->
  unpad_chunks (a + b) (l1 ++ l2) = unpad_chunks a l1 ++ unpad_chunks b l2.
Proof.
  induction a as [|a IH]; intros l1 l2 Hl.
  - by destruct l1; [|simpl in Hl; lia].
  - cbn [unpad_chunks Nat.add]. rewrite take_app_le, drop_app_le, IH by (rewrite ?length_drop; lia). by rewrite app_assoc.
Qed.

Lemma unpad_pad_chunks n : ∀ l, length l = (127 * n)%nat -> Forall is_byte l -> unpad_chunks n (pad_chunks n l) = l.
Proof.
  induction n as [|n IH]; intros l Hl Hb; [destruct l; [done|simpl in Hl; lia]|]. cbn [pad_chunks].
  assert (Hc : length (pad_chunk (take 127 l)) = 128%nat).
  { apply pad_chunk_length; [rewrite length_take; lia|by apply Forall_take]. }
  cbn [unpad_chunks]. rewrite take_app_le, drop_app_le by lia. rewrite (take_ge (pad_chunk _)), (drop_ge (pad_chunk _)) by lia.
  rewrite app_nil_l, unpad_pad_chunk, IH; [by rewrite take_drop|rewrite length_drop; lia|by apply Forall_drop|rewrite length_take; lia|by apply Forall_take].
Qed.

(** Padded data is a sequence of field elements. *)
Lemma pad_chunks_words n : ∀ l, length l = (127 * n)%nat -> Forall is_byte l ->
  ∃ ws, pad_chunks n l = mjoin ws ∧ length ws = (4 * n)%nat ∧ Forall field_word ws.
Proof.
  induction n as [|n IH]; intros l Hl Hb; [by exists []|].
  destruct (pad_chunk_words (take 127 l)) as (w1 & w2 & w3 & w4 & Hp & Hw); [rewrite length_take; lia|by apply Forall_take|].
  destruct (IH (drop 127 l)) as (ws & Hp' & Hn & Hws); [rewrite length_drop; lia|by apply Forall_drop|].
  exists (w1 :: w2 :: w3 :: w4 :: ws). cbn [pad_chunks]. rewrite Hp, Hp'. split; [simpl; by rewrite <- !app_assoc|].
  split; [simpl; lia|]. rewrite !Forall_cons in Hw |- *. naive_solver.
Qed.

Lemma chunks_of k n : (k ≠ 0)%nat -> (k * n / k = n)%nat.
Proof. intros Hk. rewrite Nat.mul_comm. by apply Nat.div_mul. Qed.

(** The sequential routines on buffers that fit. *)
Lemma pad_spec n l out : length l = (127 * n)%nat -> length out = (128 * n)%nat -> pad l out = Some (pad_chunks n l).
Proof.
  intros Hl Ho. unfold pad. rewrite Ho, chunks_of by lia. destruct (Nat.ltb_spec (length l) (n * 127)); [lia|].
  rewrite drop_ge by lia. by rewrite app_nil_r.
Qed.

Lemma unpad_spec n l out : length l = (128 * n)%nat -> length out = (127 * n)%nat -> unpad out l = Some (unpad_chunks n l).
Proof.
  intros Hl Ho. unfold unpad. rewrite Hl, chunks_of by lia. destruct (Nat.ltb_spec (length out) (n * 127)); [lia|].
  rewrite drop_ge by lia. by rewrite app_nil_r.
Qed.
