(* ===== verification/Fr32Stream.v ===== *)
(** Theory of [Fr32], continued: the work does not depend on how it is split over
    goroutines, and data streams through the writer and the reader unchanged. *)

From S2P Require Import Prelude Fr32 Fr32Props.

(** * Blocks of a buffer *)

Definition block (k th : nat) (l : list Z) : list Z := take k (drop (th * k) l).

Lemma block_length k th T (l : list Z) : length l = (T * k)%nat -> (th < T)%nat -> length (block k th l) = k.
Proof. intros Hl Ht. unfold block. rewrite length_take, length_drop, Hl. nia. Qed.

Lemma block_S k th (l : list Z) : block k (S th) l = block k th (drop k l).
Proof. unfold block. rewrite drop_drop. do 2 f_equal; lia. Qed.

Lemma blocks_ext k T : ∀ l l' : list Z, length l = (T * k)%nat -> length l' = (T * k)%nat ->
  (∀ th, (th < T)%nat -> block k th l = block k th l') -> l = l'.
Proof.
  induction T as [|T IH]; intros l l' Hl Hl' Hb.
  - destruct l, l'; simpl in *; [done|lia..].
  - rewrite <- (take_drop k l), <- (take_drop k l'). f_equal; [exact (Hb 0%nat ltac:(lia))|].
    apply IH; [rewrite length_drop; lia..|]. intros th Ht. rewrite <- !block_S. apply Hb. lia.
Qed.

Lemma write_at_length off (bs out : list Z) : (off + length bs <= length out)%nat -> length (write_at off bs out) = length out.
Proof. intros H. unfold write_at. rewrite !length_app, length_take, length_drop. lia. Qed.

Lemma block_write k T th th' (bs out : list Z) :
  length out = (T * k)%nat -> length bs = k -> (th < T)%nat -> (th' < T)%nat ->
  block k th' (write_at (th * k) bs out) = if decide (th' = th) then bs else block k th' out.
Proof.
  intros Ho Hb Ht Ht'. unfold write_at, block. destruct (decide (th' = th)) as [->|Hne].
  - rewrite drop_app_ge, length_take, Nat.min_l, Nat.sub_diag by (rewrite ?length_take; nia). rewrite drop_0.
    by rewrite take_app_le, take_ge by lia.
  - destruct (decide (th' < th)%nat) as [Hlt|Hge].
    + rewrite drop_app_le, take_app_le by (rewrite ?length_drop, ?length_take; nia).
      rewrite !take_drop_commute, take_take. f_equal. f_equal. nia.
    + rewrite drop_app_ge by (rewrite length_take; nia). rewrite drop_app_ge by (rewrite length_take; nia).
      rewrite drop_drop, length_take. do 2 f_equal. nia.
Qed.

(** Goroutines that each write their own block, in any order. *)
Lemma fold_blocks k T (f : nat → list Z) (step : list Z → Z → option (list Z)) ts : ∀ out,
  (∀ out th, length out = (T * k)%nat -> (th < T)%nat ->
     step out (Z.of_nat th) = Some (write_at (th * k) (f th) out)) ->
  (∀ th, (th < T)%nat -> length (f th) = k) ->
  Forall (fun t => 0 <= t < Z.of_nat T) ts -> length out = (T * k)%nat ->
  ∃ out', foldl (fun acc t => out ← acc; step out t) (Some out) ts = Some out' ∧ length out' = (T * k)%nat ∧
    ∀ th, (th < T)%nat -> block k th out' = if decide (Z.of_nat th ∈ ts) then f th else block k th out.
Proof.
  intros out Hstep Hf Hts. revert out. induction Hts as [|t ts Ht Hts IH]; intros out Ho; cbn [foldl].
  { exists out. split; [done|]. split; [done|]. intros th Hth. rewrite decide_False; [done|apply not_elem_of_nil]. }
  cbn [mbind option_bind]. replace t with (Z.of_nat (Z.to_nat t)) by lia. rewrite Hstep by (done || lia).
  set (n := Z.to_nat t). assert (Hn : (n < T)%nat) by lia.
  destruct (IH (write_at (n * k) (f n) out)) as (out' & -> & Hl & Hb).
  { rewrite write_at_length; [done|]. rewrite Hf by done. nia. }
  exists out'. split; [done|]. split; [done|]. intros th Hth. rewrite Hb by done.
  rewrite (block_write k T) by auto. destruct (decide (Z.of_nat th ∈ ts)) as [Hin|Hin].
  - rewrite decide_True; [done|]. by right.
  - destruct (decide (th = n)) as [->|Hne]; [rewrite decide_True; [done|by left]|].
    rewrite decide_False; [done|]. rewrite elem_of_cons. intros [?|?]; [lia|done].
Qed.

(** ** Blocks of chunks *)

Lemma unpad_run_length s l : ∀ a, length (unpad_run s a l).1 = length l.
Proof. induction l as [|x l IH]; intros a; [done|]. cbn [unpad_run]. specialize (IH x). by destruct (unpad_run s x l); simpl in *; rewrite IH. Qed.

Lemma copy_run_length l : ∀ a, length (copy_run a l).1 = length l.
Proof. induction l as [|x l IH]; intros a; [done|]. cbn [copy_run]. specialize (IH x). by destruct (copy_run x l); simpl in *; rewrite IH. Qed.

Lemma unpad_chunk_length c : length c = 128%nat -> length (unpad_chunk c) = 127%nat.
Proof.
  intros Hc. assert (Hs : ∀ i j, (i <= j <= 128)%nat -> length (slice i j c) = (j - i)%nat).
  { intros i j Hij. unfold slice. rewrite length_take, length_drop. lia. }
  unfold unpad_chunk, on_last. pose proof (copy_run_length (slice 1 33 c) (c !!! 0%nat)) as H1. destruct (copy_run _ _) as [w1 a].
  pose proof (unpad_run_length 2 (slice 33 65 c) a) as H2. destruct (unpad_run 2 _ _) as [w2 a2].
  pose proof (unpad_run_length 4 (slice 65 97 c) a2) as H3. destruct (unpad_run 4 _ _) as [w3 a3].
  pose proof (unpad_run_length 6 (slice 97 128 c) a3) as H4. destruct (unpad_run 6 _ _) as [w4 a4]. simpl in *.
  rewrite !length_app, !length_alter, H1, H2, H3, H4, !Hs by lia. done.
Qed.

Lemma unpad_chunks_length n : ∀ l, length l = (128 * n)%nat -> length (unpad_chunks n l) = (127 * n)%nat.
Proof.
  induction n as [|n IH]; intros l Hl; [simpl; lia|]. cbn [unpad_chunks].
  rewrite length_app, unpad_chunk_length, IH; [lia|rewrite length_drop; lia|rewrite length_take; lia].
Qed.

(** The blocks of the result are the results of the blocks. *)
Lemma blocks_of (P : list Z → Prop) (f : nat → list Z → list Z) i o m T :
  (∀ a b l1 l2, length l1 = (i * a)%nat -> f (a + b)%nat (l1 ++ l2) = f a l1 ++ f b l2) ->
  (∀ a l, length l = (i * a)%nat -> P l -> length (f a l) = (o * a)%nat) ->
  (∀ l k, P l -> P (take k l) ∧ P (drop k l)) ->
  ∀ l t, length l = (i * (T * m))%nat -> P l -> (t < T)%nat ->
  block (o * m) t (f (T * m)%nat l) = f m (block (i * m) t l).
Proof.
  intros Happ Hlen HP. induction T as [|T IH]; intros l t Hl Hb Ht; [lia|].
  assert (H1 : length (take (i * m) l) = (i * m)%nat) by (rewrite length_take; nia).
  assert (Hf : f (S T * m)%nat l = f m (take (i * m) l) ++ f (T * m)%nat (drop (i * m) l)).
  { rewrite <- Happ by done. by rewrite take_drop. }
  destruct (HP l (i * m)%nat Hb) as [Hp1 Hp2]. pose proof (Hlen _ _ H1 Hp1) as H2. rewrite Hf. destruct t as [|t].
  - unfold block. cbn [Nat.mul]. rewrite !drop_0, take_app_le, take_ge by lia. done.
  - rewrite !block_S, drop_app_le, drop_ge, app_nil_l by lia. apply IH; [rewrite length_drop; nia|done|lia].
Qed.

(** * Goroutines *)

Class GoThreadsLaws `{PieceSizes} `{GoThreads} := {
  NumCPU_range : 1 <= NumCPU < 2 ^ 32;
  schedule_perm n : schedule n ≡ₚ seqZ 0 (mtChunkCount n);
}.

Section Threads.
Context {sizes : PieceSizes} {size_laws : PieceSizesLaws} {threads : GoThreads} {thread_laws : GoThreadsLaws}.

Lemma Unpadded_128 n : 0 <= n -> Unpadded (128 * n) = 127 * n.
Proof. intros Hn. rewrite Unpadded_spec by lia. rewrite (Z.mul_comm 128), Z.div_mul by lia. lia. Qed.

Lemma Padded_127 n : 0 <= n -> Padded (127 * n) = 128 * n.
Proof. intros Hn. rewrite Padded_spec by lia. rewrite (Z.mul_comm 127), Z.div_mul by lia. lia. Qed.

(** Large buffers of a valid size are split into whole chunks. *)
Lemma mtChunkCount_split a : 19 < a <= 62 ->
  ∃ b, 0 <= b <= 5 ∧ b <= a - 19 ∧ mtChunkCount (2 ^ a) = 2 ^ b.
Proof.
  intros Ha. unfold mtChunkCount. assert (Hdiv : 2 ^ a / MTTresh = 2 ^ (a - 19)).
  { change MTTresh with (2 ^ 19). rewrite <- Z.pow_sub_r by lia. done. }
  rewrite Hdiv. pose proof NumCPU_range as Hn. assert (Hlen : Len32 NumCPU = Z.log2 NumCPU + 1).
  { unfold Len32. destruct (Z.eqb_spec NumCPU 0); lia. }
  set (t := if NumCPU <? 2 ^ (a - 19) then 2 ^ Len32 NumCPU else 2 ^ (a - 19)).
  assert (Ht : ∃ b, 0 <= b <= a - 19 ∧ t = 2 ^ b).
  { unfold t. destruct (Z.ltb_spec NumCPU (2 ^ (a - 19))) as [Hlt|]; [|exists (a - 19); split; [lia|done]].
    exists (Len32 NumCPU). pose proof (Z.log2_nonneg NumCPU). apply Z.log2_lt_pow2 in Hlt; [|lia]. split; [lia|done]. }
  destruct Ht as (b & Hb & ->). assert (Hpos : 0 < 2 ^ b) by (apply Z.pow_pos_nonneg; lia).
  destruct (Z.eqb_spec (2 ^ b) 0); [lia|]. destruct (Z.ltb_spec 32 (2 ^ b)) as [H32|H32].
  - exists 5. change 32 with (2 ^ 5) in H32 |- *. apply Z.pow_lt_mono_r_iff in H32; [|lia..]. split; [lia|]. split; [lia|done].
  - exists b. change 32 with (2 ^ 5) in H32. apply Z.pow_le_mono_r_iff in H32; [|lia..]. split; [lia|]. split; [lia|done].
Qed.

(** The number of chunks of a buffer, the threads and the chunks of each. *)
Lemma split_threads n a : Z.of_nat (128 * n) = 2 ^ a -> MTTresh < 2 ^ a -> a <= 62 ->
  ∃ T m, (n = T * m)%nat ∧ (0 < T)%nat ∧ mtChunkCount (Z.of_nat (128 * n)) = Z.of_nat T ∧
    ∀ t, thread_range (Z.of_nat (128 * n)) (Z.of_nat t) = (128 * Z.of_nat (t * m), 128 * Z.of_nat (S t * m)).
Proof.
  intros Hn Hbig Ha. change MTTresh with (2 ^ 19) in Hbig.
  assert (Ha' : 19 < a). { apply (Z.pow_lt_mono_r_iff 2); [lia| |done]. destruct (Z.lt_ge_cases a 0) as [H|H]; [rewrite (Z.pow_neg_r 2 a) in Hbig by lia; lia|lia]. }
  destruct (mtChunkCount_split a) as (b & Hb & Hba & Hc); [lia|].
  exists (Z.to_nat (2 ^ b)), (Z.to_nat (2 ^ (a - b - 7))).
  assert (Hp1 : 0 < 2 ^ b) by (apply Z.pow_pos_nonneg; lia). assert (Hp2 : 0 < 2 ^ (a - b - 7)) by (apply Z.pow_pos_nonneg; lia).
  assert (Hsplit : 2 ^ a = 128 * (2 ^ b * 2 ^ (a - b - 7))).
  { change 128 with (2 ^ 7). rewrite <- !Z.pow_add_r by lia. f_equal. lia. }
  split; [lia|]. split; [lia|]. rewrite Hn. split; [lia|]. intros t. unfold thread_range. rewrite Hc, Hsplit.
  replace (128 * (2 ^ b * 2 ^ (a - b - 7))) with (128 * 2 ^ (a - b - 7) * 2 ^ b) by ring. rewrite Z.div_mul by lia.
  f_equal; lia.
Qed.

Lemma block_slice m t (l : list Z) : slice (t * m) (S t * m) l = block m t l.
Proof. unfold slice, block. f_equal. lia. Qed.

Lemma schedule_all n T : mtChunkCount n = Z.of_nat T ->
  Forall (fun t => 0 <= t < Z.of_nat T) (schedule n) ∧ ∀ t, (t < T)%nat -> Z.of_nat t ∈ schedule n.
Proof.
  intros HT. split; [|intros t Ht]; rewrite schedule_perm, HT; [|apply elem_of_seqZ; lia].
  apply Forall_forall. intros t Ht. apply elem_of_seqZ in Ht. lia.
Qed.

Lemma to_nat_128 t m : Z.to_nat (128 * Z.of_nat (t * m)) = (t * (128 * m))%nat.
Proof. lia. Qed.

Lemma to_nat_Unpadded t m : Z.to_nat (Unpadded (128 * Z.of_nat (t * m))) = (t * (127 * m))%nat.
Proof. rewrite Unpadded_128 by lia. lia. Qed.

(** Padding of buffers of a valid size, whatever the machine does. *)
Lemma Pad_spec n a l out : Z.of_nat (128 * n) = 2 ^ a -> a <= 62 ->
  length l = (127 * n)%nat -> length out = (128 * n)%nat -> Forall is_byte l -> Pad l out = Some (pad_chunks n l).
Proof.
  intros Hn Ha Hl Ho Hb. unfold Pad. rewrite Ho. destruct (Z.ltb_spec MTTresh (Z.of_nat (128 * n))) as [Hbig|]; [|by apply pad_spec].
  destruct (split_threads n a) as (T & m & -> & HT & Hc & Hr); [done|lia|done|].
  assert (Hbl : ∀ t, (t < T)%nat -> length (block (127 * m) t l) = (127 * m)%nat) by (intros t Ht; apply (block_length _ _ T); [lia|done]).
  unfold mt_pad. rewrite Ho.
  destruct (fold_blocks (128 * m) T (fun t => pad_chunks m (block (127 * m) t l)) (fun out t =>
    let '(start, stop) := thread_range (Z.of_nat (128 * (T * m))) t in
    res ← pad (slice (Z.to_nat (Unpadded start)) (Z.to_nat (Unpadded stop)) l) (slice (Z.to_nat start) (Z.to_nat stop) out);
    Some (write_at (Z.to_nat start) res out)) (schedule (Z.of_nat (128 * (T * m)))) out) as (out' & E & Hl' & Hb').
  - intros o t Hlo Ht. rewrite Hr, !to_nat_Unpadded, !to_nat_128, !block_slice, (pad_spec m); [done|by apply Hbl|]. by apply (block_length _ _ T).
  - intros t Ht. apply pad_chunks_length; [by apply Hbl|]. by apply Forall_take, Forall_drop.
  - by apply schedule_all.
  - lia.
  - rewrite E. f_equal. apply (blocks_ext (128 * m) T); [done|rewrite pad_chunks_length by done; lia|].
    intros t Ht. rewrite Hb', decide_True by (done || by apply (schedule_all _ T)). symmetry.
    apply (blocks_of (Forall is_byte)); [apply pad_chunks_app|apply pad_chunks_length| |done..].
    intros l' k Hl''. split; [by apply Forall_take|by apply Forall_drop].
Qed.

Lemma Unpad_spec n a l out : Z.of_nat (128 * n) = 2 ^ a -> a <= 62 ->
  length l = (128 * n)%nat -> length out = (127 * n)%nat -> Unpad l out = Some (unpad_chunks n l).
Proof.
  intros Hn Ha Hl Ho. unfold Unpad. rewrite Hl. destruct (Z.ltb_spec MTTresh (Z.of_nat (128 * n))) as [Hbig|]; [|by apply unpad_spec].
  destruct (split_threads n a) as (T & m & -> & HT & Hc & Hr); [done|lia|done|].
  assert (Hbl : ∀ t, (t < T)%nat -> length (block (128 * m) t l) = (128 * m)%nat) by (intros t Ht; apply (block_length _ _ T); [lia|done]).
  unfold mt_unpad. rewrite Hl.
  destruct (fold_blocks (127 * m) T (fun t => unpad_chunks m (block (128 * m) t l)) (fun out t =>
    let '(start, stop) := thread_range (Z.of_nat (128 * (T * m))) t in
    res ← unpad (slice (Z.to_nat (Unpadded start)) (Z.to_nat (Unpadded stop)) out) (slice (Z.to_nat start) (Z.to_nat stop) l);
    Some (write_at (Z.to_nat (Unpadded start)) res out)) (schedule (Z.of_nat (128 * (T * m)))) out) as (out' & E & Hl' & Hb').
  - intros o t Hlo Ht. rewrite Hr, !to_nat_Unpadded, !to_nat_128, !block_slice, (unpad_spec m); [done|by apply Hbl|]. by apply (block_length _ _ T).
  - intros t Ht. by apply unpad_chunks_length, Hbl.
  - by apply schedule_all.
  - lia.
  - rewrite E. f_equal. apply (blocks_ext (127 * m) T); [done|rewrite unpad_chunks_length by done; lia|].
    intros t Ht. rewrite Hb', decide_True by (done || by apply (schedule_all _ T)). symmetry.
    apply (blocks_of (fun _ => True)); [apply unpad_chunks_app|intros; by apply unpad_chunks_length|done..].
Qed.

(** * Sizes *)

(** The powers of two in a number, the least first. *)
Fixpoint powers (p : positive) : list Z :=
  match p with
  | xH => [1]
  | xO p => Z.mul 2 <$> powers p
  | xI p => 1 :: (Z.mul 2 <$> powers p)
  end.

Definition drop_low (w : Z) : Z := Z.lxor w (Z.shiftl 1 (TrailingZeros64 w)).

Lemma trailing_nonneg p : 0 <= trailing_zeros p.
Proof. induction p; simpl; lia. Qed.

Lemma low_bit_double p : Z.shiftl 1 (TrailingZeros64 (Zpos p~0)) = 2 * Z.shiftl 1 (TrailingZeros64 (Zpos p)).
Proof.
  pose proof (trailing_nonneg p). cbn [TrailingZeros64 trailing_zeros]. rewrite !Z.shiftl_1_l, Z.pow_add_r by lia. done.
Qed.

Lemma drop_low_double p : drop_low (Zpos p~0) = 2 * drop_low (Zpos p).
Proof.
  unfold drop_low. rewrite low_bit_double. change (Zpos p~0) with (2 * Zpos p). set (b := Z.shiftl 1 _).
  rewrite !(Z.mul_comm 2). change 2 with (2 ^ 1). rewrite <- !Z.shiftl_mul_pow2 by lia. symmetry. apply Z.shiftl_lxor.
Qed.

Lemma drop_low_ones p : 0 <= drop_low (Zpos p) ∧ OnesCount64 (drop_low (Zpos p)) = pred (ones_count p).
Proof.
  induction p as [p IH|p IH|]; [by split|..].
  - rewrite drop_low_double. destruct IH as [H1 H2]. split; [lia|].
    assert (Hd : ∀ z, 0 <= z -> OnesCount64 (2 * z) = OnesCount64 z) by (intros [] ?; [done|done|lia]). by rewrite Hd, H2.
  - by split.
Qed.

Lemma bit_sizes_double n : ∀ w, 0 <= w -> n = OnesCount64 w -> bit_sizes n (2 * w) = Z.mul 2 <$> bit_sizes n w.
Proof.
  induction n as [|n IH]; intros w Hw Hn; [done|]. destruct w as [|p|p]; [done| |lia]. cbn [bit_sizes].
  rewrite fmap_cons. change (2 * Zpos p) with (Zpos p~0). rewrite low_bit_double. f_equal.
  destruct (drop_low_ones p) as [H1 H2]. pose proof (drop_low_double p) as H3. unfold drop_low in H3.
  rewrite low_bit_double in H3. rewrite H3. apply IH; [done|]. unfold drop_low in H2. rewrite H2. cbn [OnesCount64] in Hn. lia.
Qed.

Lemma bit_sizes_powers p : bit_sizes (ones_count p) (Zpos p) = powers p.
Proof.
  induction p as [p IH|p IH|]; [..|done]; cbn [ones_count bit_sizes powers].
  - f_equal. rewrite <- IH, <- bit_sizes_double by done. done.
  - rewrite <- IH, <- bit_sizes_double by done. done.
Qed.

Lemma last_powers p : last (powers p) = Some (2 ^ Z.log2 (Zpos p)).
Proof.
  induction p as [p IH|p IH|]; [..|done]; cbn [powers].
  - assert (Hl : last (1 :: (Z.mul 2 <$> powers p)) = last (Z.mul 2 <$> powers p)) by (by destruct (powers p)).
    rewrite Hl, fmap_last, IH. cbn [fmap option_fmap option_map]. f_equal. change (Zpos p~1) with (2 * Zpos p + 1). rewrite Z.log2_succ_double by lia.
    rewrite Z.pow_succ_r by apply Z.log2_nonneg. done.
  - rewrite fmap_last, IH. cbn [fmap option_fmap option_map]. f_equal. change (Zpos p~0) with (2 * Zpos p). rewrite Z.log2_double by lia.
    rewrite Z.pow_succ_r by apply Z.log2_nonneg. done.
Qed.

(** The last of the pieces is the largest that fits. *)
Lemma subPieces_last n : (127 <= n)%nat -> Z.of_nat n < 2 ^ 62 ->
  ∃ m a, last (subPieces (Z.of_nat n)) = Some (127 * Z.of_nat m) ∧ (0 < m <= n / 127)%nat ∧
    Z.of_nat (128 * m) = 2 ^ a ∧ a <= 62.
Proof.
  intros Hn Hmax. unfold subPieces. rewrite Padded_spec by lia. set (w := Z.of_nat n + Z.of_nat n / 127).
  assert (Hdiv : Z.of_nat n / 127 = Z.of_nat (n / 127)) by (by rewrite Nat2Z.inj_div).
  assert (Hq : (1 <= n / 127)%nat) by (apply Nat.div_le_lower_bound; lia).
  pose proof (Nat.div_mod n 127 ltac:(lia)) as Hdm. pose proof (Nat.mod_upper_bound n 127 ltac:(lia)) as Hmb.
  destruct w as [|p|p] eqn:Ew; [lia| |lia]. cbn [OnesCount64]. rewrite bit_sizes_powers.
  change (map Unpadded (powers p)) with (Unpadded <$> powers p). rewrite fmap_last, last_powers. cbn [fmap option_fmap option_map].
  destruct (Z.log2_spec (Zpos p)) as [Hlo Hhi]; [lia|]. set (a := Z.log2 (Zpos p)) in *.
  assert (Ha7 : 7 <= a). { apply Z.log2_le_pow2; lia. }
  assert (Ha62 : a <= 62). { assert (a < 63); [apply Z.log2_lt_pow2; lia|lia]. }
  assert (Hm : 2 ^ a = 128 * 2 ^ (a - 7)) by (change 128 with (2 ^ 7); rewrite <- Z.pow_add_r by lia; f_equal; lia).
  assert (Hp : 0 < 2 ^ (a - 7)) by (apply Z.pow_pos_nonneg; lia).
  exists (Z.to_nat (2 ^ (a - 7))), a. rewrite Hm, Unpadded_128 by lia. split; [f_equal; lia|]. split; [lia|]. split; [lia|done].
Qed.

(** * The writer *)

Context {D : Type} (dst_Write : list Z → D → D * Z * bool) (contents : D → list Z).
(** The destination takes what it is given. *)
Hypothesis dst_appends : ∀ b d, ∃ d', dst_Write b d = (d', Z.of_nat (length b), true) ∧ contents d' = contents d ++ b.

(** The destination holds the whole chunks of [data], padded, the stash the rest. *)
Definition written (data : list Z) (w : padWriter (D := D)) : Prop :=
  let q := (length data / 127)%nat in
  contents (dst w) = pad_chunks q (take (127 * q) data) ∧ stash w = drop (127 * q) data.

Lemma write_loop_spec total fuel : ∀ bs w,
  (length bs < fuel)%nat -> (127 <= length bs)%nat -> Z.of_nat (length bs) < 2 ^ 62 -> Forall is_byte bs ->
  ∃ w', write_loop dst_Write fuel total bs w = (Written total, w') ∧
    contents (dst w') = contents (dst w) ++ pad_chunks (length bs / 127) (take (127 * (length bs / 127)) bs) ∧
    stash w' = drop (127 * (length bs / 127)) bs.
Proof.
  induction fuel as [|fuel IH]; intros bs w Hf Hge Hmax Hb; [lia|]. cbn [write_loop].
  destruct (subPieces_last (length bs)) as (m & a & -> & Hm & Ha & Ha62); [done..|].
  pose proof (Nat.div_mod (length bs) 127 ltac:(lia)) as Hdm. set (q := (length bs / 127)%nat) in *.
  rewrite Padded_127 by lia. replace (Z.to_nat (128 * Z.of_nat m)) with (128 * m)%nat by lia.
  replace (Z.to_nat (127 * Z.of_nat m)) with (127 * m)%nat by lia.
  set (buf := if (length (work w) <? 128 * m)%nat then _ else _).
  assert (Hbuf : length (take (128 * m) buf) = (128 * m)%nat).
  { unfold buf. destruct (Nat.ltb_spec (length (work w)) (128 * m)); rewrite length_take, ?length_replicate; lia. }
  rewrite (Pad_spec m a) by (done || (rewrite length_take; lia) || by apply Forall_take).
  destruct (dst_appends (pad_chunks m (take (127 * m) bs)) (dst w)) as (d & -> & Hd).
  assert (Hlen : length (drop (127 * m) bs) = (length bs - 127 * m)%nat) by apply length_drop. rewrite Hlen.
  assert (Hq : ((length bs - 127 * m) / 127 = q - m)%nat).
  { replace (length bs - 127 * m)%nat with (length bs `mod` 127 + (q - m) * 127)%nat by lia.
    rewrite Nat.div_add, Nat.div_small by (try lia; apply Nat.mod_upper_bound; lia). lia. }
  assert (Hsplit : pad_chunks q (take (127 * q) bs) =
    pad_chunks m (take (127 * m) bs) ++ pad_chunks (q - m) (take (127 * (q - m)) (drop (127 * m) bs))).
  { rewrite <- pad_chunks_app by (rewrite length_take; lia). f_equal; [lia|].
    rewrite <- (take_drop (127 * m) (take (127 * q) bs)), take_take, Nat.min_l by lia. f_equal.
    rewrite take_drop_commute. do 2 f_equal. lia. }
  destruct (Nat.ltb_spec (length bs - 127 * m) 127) as [Hlt|Hge'].
  - eexists. split; [done|]. cbn [dst stash]. rewrite Nat.div_small in Hq by done. replace m with q in * by lia. by rewrite Hd.
  - destruct (IH (drop (127 * m) bs) (mkPadWriter d (stash w) (pad_chunks m (take (127 * m) bs) ++ drop (128 * m) buf)))
      as (w' & -> & Hc & Hs); [lia..|by apply Forall_drop|].
    rewrite Hlen, Hq in Hc, Hs. exists w'. split; [done|]. cbn [dst] in Hc. rewrite Hc, Hd, Hsplit, app_assoc. split; [done|].
    rewrite Hs, drop_drop. f_equal. lia.
Qed.

Lemma div_127 a b : ((127 * a + b) / 127 = a + b / 127)%nat.
Proof. rewrite Nat.mul_comm, Nat.div_add_l by lia. done. Qed.

(** Every write keeps the relation between the data and the writer. *)
Lemma Write_spec data p w :
  written data w -> Forall is_byte (data ++ p) -> Z.of_nat (length (data ++ p)) < 2 ^ 62 ->
  ∃ w', Write dst_Write p w = (Written (Z.of_nat (length p)), w') ∧ written (data ++ p) w'.
Proof.
  intros [Hc Hs] Hb Hmax. unfold Write. set (q := (length data / 127)%nat) in *.
  pose proof (Nat.div_mod (length data) 127 ltac:(lia)) as Hdm. fold q in Hdm.
  pose proof (Nat.mod_upper_bound (length data) 127 ltac:(lia)) as Hmb.
  assert (Hls : length (stash w) = (length data - 127 * q)%nat) by (rewrite Hs; apply length_drop).
  assert (Happ : data ++ p = take (127 * q) data ++ stash w ++ p) by (by rewrite Hs, app_assoc, take_drop).
  assert (Htk : length (take (127 * q) data) = (127 * q)%nat) by (rewrite length_take; lia).
  assert (Hq : (length (data ++ p) / 127 = q + length (stash w ++ p) / 127)%nat).
  { rewrite Happ, length_app, Htk. apply div_127. }
  assert (Hcut : ∀ n, take (127 * (q + n)) (data ++ p) = take (127 * q) data ++ take (127 * n) (stash w ++ p) ∧
    drop (127 * (q + n)) (data ++ p) = drop (127 * n) (stash w ++ p)).
  { intros n. rewrite Happ, take_app_ge, drop_app_ge, Htk by lia. by replace (127 * (q + n) - 127 * q)%nat with (127 * n)%nat by lia. }
  unfold written. rewrite Hq. destruct (Hcut (length (stash w ++ p) / 127)%nat) as [-> ->]. rewrite pad_chunks_app by done.
  destruct (Nat.ltb_spec (length p + length (stash w)) 127) as [Hlt|Hge].
  - eexists. split; [done|]. rewrite (Nat.div_small (length (stash w ++ p))) by (rewrite length_app; lia).
    cbn [dst stash]. by rewrite Hc, app_nil_r.
  - assert (Hge' : (127 <= length (stash w ++ p))%nat) by (rewrite length_app; lia).
    destruct (write_loop_spec (Z.of_nat (length p)) (S (length (stash w ++ p))) (stash w ++ p) w)
      as (w' & -> & Hc' & Hs'); [lia|done| |by rewrite Happ, Forall_app in Hb; destruct Hb|].
    { rewrite Happ, length_app in Hmax. lia. }
    exists w'. by rewrite Hc', Hs', Hc.
Qed.

(** All the writes. *)
Fixpoint write_all (ps : list (list Z)) (w : padWriter) : option padWriter :=
  match ps with
  | [] => Some w
  | p :: ps => match Write dst_Write p w with (Written _, w) => write_all ps w | _ => None end
  end.

Lemma write_all_spec ps : ∀ data w,
  written data w -> Forall is_byte (data ++ mjoin ps) -> Z.of_nat (length (data ++ mjoin ps)) < 2 ^ 62 ->
  ∃ w', write_all ps w = Some w' ∧ written (data ++ mjoin ps) w'.
Proof.
  induction ps as [|p ps IH]; intros data w Hw Hb Hmax; simpl in *.
  { exists w. by rewrite app_nil_r. }
  rewrite app_assoc in Hb, Hmax |- *. pose proof Hb as Hb'. apply Forall_app in Hb' as [Hb1 _].
  destruct (Write_spec data p w) as (w1 & -> & Hw1); [done|done|rewrite length_app in Hmax; lia|]. by apply IH.
Qed.

(** * The reader *)

(** [data] is what remains to be read. *)
Definition reads (data : list Z) (r : unpadReader) : Prop :=
  ∃ n extra, length data = (127 * n)%nat ∧ left r = 128 * Z.of_nat n ∧ src r = pad_chunks n data ++ extra.

(** A buffer that holds a chunk and that the reader can fill at once. *)
Definition fits (buf : nat) (out : list Z) : Prop :=
  (127 <= length out)%nat ∧ (128 * (length out / 127) <= buf)%nat ∧ Z.of_nat (length out) < 2 ^ 62.

Lemma reads_EOF data r out : reads data r -> data = [] -> Read out r = (ReadEOF, r).
Proof.
  intros (n & extra & Hn & Hl & _) ->. unfold Read. simpl in Hn. replace n with 0%nat in Hl by lia. by rewrite Hl.
Qed.

Lemma log2_chunks n : (0 < n)%nat -> Z.of_nat (128 * n) < 2 ^ 63 ->
  ∃ m a, 2 ^ Z.log2 (128 * Z.of_nat n) = 128 * Z.of_nat m ∧ (0 < m <= n)%nat ∧ Z.of_nat (128 * m) = 2 ^ a ∧ 7 <= a <= 62.
Proof.
  intros Hn Hmax. destruct (Z.log2_spec (128 * Z.of_nat n)) as [Hlo Hhi]; [lia|]. set (a := Z.log2 _) in *.
  assert (Ha7 : 7 <= a) by (apply Z.log2_le_pow2; lia). assert (Ha : a < 63) by (apply Z.log2_lt_pow2; lia).
  assert (Hm : 2 ^ a = 128 * 2 ^ (a - 7)) by (change 128 with (2 ^ 7); rewrite <- Z.pow_add_r by lia; f_equal; lia).
  assert (Hp : 0 < 2 ^ (a - 7)) by (apply Z.pow_pos_nonneg; lia).
  exists (Z.to_nat (2 ^ (a - 7))), a. repeat split; lia.
Qed.

Lemma Read_spec data r out :
  reads data r -> data ≠ [] -> Forall is_byte data -> Z.of_nat (length data) < 2 ^ 62 -> fits (length (rwork r)) out ->
  ∃ b data' r', Read out r = (Read_ b, r') ∧ data = b ++ data' ∧ b ≠ [] ∧ reads data' r' ∧ length (rwork r') = length (rwork r).
Proof.
  intros (n & extra & Hn & Hl & Hsrc) Hne Hb Hmax (Ho1 & Ho2 & Ho3). unfold Read. rewrite Hl.
  assert (Hn0 : (0 < n)%nat) by (destruct n; [destruct data; [done|simpl in Hn; lia]|lia]).
  destruct (Z.eqb_spec (128 * Z.of_nat n) 0); [lia|]. assert (Hdiv : Z.of_nat (length out) / 127 = Z.of_nat (length out / 127)) by (by rewrite Nat2Z.inj_div).
  rewrite Hdiv. set (c := (length out / 127)%nat) in *. assert (Hc : (1 <= c)%nat) by (apply Nat.div_le_lower_bound; lia).
  pose proof (Nat.div_mod (length out) 127 ltac:(lia)) as Hdm. fold c in Hdm.
  destruct (Z.eqb_spec (Z.of_nat c) 0); [lia|]. rewrite (Z.mul_comm (Z.of_nat c)).
  destruct (log2_chunks c) as (mo & ao & -> & Hmo & Hao & Hao'); [lia|lia|].
  assert (Hval : validPadded (128 * Z.of_nat mo) = true) by (apply validPadded_spec; exists ao; split; [lia|lia]).
  rewrite Hval. cbn [negb]. set (todo := if _ <? _ then _ else _).
  assert (Ht : ∃ m a, todo = 128 * Z.of_nat m ∧ (0 < m <= n)%nat ∧ (m <= c)%nat ∧ Z.of_nat (128 * m) = 2 ^ a ∧ a <= 62).
  { unfold todo. destruct (Z.ltb_spec (128 * Z.of_nat n) (128 * Z.of_nat mo)).
    - destruct (log2_chunks n) as (m & a & -> & Hm & Ha & Ha'); [lia|lia|]. exists m, a. repeat split; lia.
    - exists mo, ao. repeat split; lia. }
  destruct Ht as (m & a & -> & Hm & Hmc & Ha & Ha62). cbn [left src rwork].
  replace (Z.to_nat (128 * Z.of_nat m)) with (128 * m)%nat by lia. destruct (Nat.ltb_spec (length (rwork r)) (128 * m)); [lia|].
  assert (Hd : data = take (127 * m) data ++ drop (127 * m) data) by (by rewrite take_drop).
  assert (Hb1 : Forall is_byte (take (127 * m) data)) by (by apply Forall_take).
  assert (Htl : length (take (127 * m) data) = (127 * m)%nat) by (rewrite length_take; lia).
  assert (Hpl : length (pad_chunks m (take (127 * m) data)) = (128 * m)%nat) by (by apply pad_chunks_length).
  assert (Hs : src r = pad_chunks m (take (127 * m) data) ++ pad_chunks (n - m) (drop (127 * m) data) ++ extra).
  { rewrite Hsrc, app_assoc, <- pad_chunks_app by done. rewrite <- Hd. do 2 f_equal. lia. }
  rewrite Hs. destruct (Nat.ltb_spec (length (pad_chunks m (take (127 * m) data) ++ pad_chunks (n - m) (drop (127 * m) data) ++ extra)) (128 * m)).
  { rewrite length_app in *. lia. }
  rewrite (take_app_le (pad_chunks m _)), (take_ge (pad_chunks m _)) by lia.
  rewrite (drop_app_le (pad_chunks m _)), (drop_ge (pad_chunks m _)), app_nil_l by lia.
  rewrite (take_app_le (pad_chunks m _)), (take_ge (pad_chunks m _)) by lia.
  rewrite Unpadded_128 by lia. rewrite (Unpad_spec m a); [|done|done|done|rewrite length_take; lia].
  rewrite unpad_pad_chunks by done. eexists _, (drop (127 * m) data), _. split; [done|]. split; [done|]. split.
  { intros E. rewrite E in Htl. simpl in Htl. lia. }
  cbn [rwork]. split; [|rewrite length_app, length_drop; lia].
  exists (n - m)%nat, extra. cbn [left src]. rewrite length_drop. split; [lia|]. split; [lia|done].
Qed.

(** Reading into one buffer after the other, until the end. *)
Fixpoint read_all (outs : list (list Z)) (r : unpadReader) : option (list Z * bool) :=
  match outs with
  | [] => Some ([], false)
  | out :: outs =>
      match Read out r with
      | (ReadEOF, _) => Some ([], true)
      | (Read_ b, r) => '(data, eof) ← read_all outs r; Some (b ++ data, eof)
      | _ => None
      end
  end.

Lemma read_all_spec buf outs : ∀ data r,
  reads data r -> Forall is_byte data -> Z.of_nat (length data) < 2 ^ 62 -> length (rwork r) = buf ->
  Forall (fits buf) outs -> (length data < length outs)%nat -> read_all outs r = Some (data, true).
Proof.
  induction outs as [|out outs IH]; intros data r Hr Hb Hmax Hw Hf Hlen; simpl in Hlen; [lia|]. cbn [read_all].
  apply Forall_cons in Hf as [Hout Hf]. destruct (decide (data = [])) as [->|Hne]; [by erewrite reads_EOF|].
  destruct (Read_spec data r out) as (b & data' & r' & -> & -> & Hb0 & Hr' & Hw'); [done..|by rewrite Hw|].
  apply Forall_app in Hb as [_ Hb']. rewrite length_app in Hlen, Hmax. rewrite (IH data'); [done|done|done|lia|congruence|done|].
  destruct b; [done|simpl in *; lia].
Qed.
End Threads.

(** Padding a piece of a valid size gives field elements, four of 32 bytes for
    every 127 bytes, and unpadding gives the data back; both succeed and do not
    depend on the number of CPUs, on the order in which the goroutines run or on
    what the buffers held before. *)
Theorem Pad_Unpad_roundtrip {sizes : PieceSizes} {size_laws : PieceSizesLaws} {threads : GoThreads}
    {thread_laws : GoThreadsLaws} sz n data out1 out2 :
  validPadded sz = true -> sz = Z.of_nat (128 * n) ->
  length data = (127 * n)%nat -> Forall is_byte data -> length out1 = (128 * n)%nat -> length out2 = (127 * n)%nat ->
  ∃ ws, Pad data out1 = Some (mjoin ws) ∧ length ws = (4 * n)%nat ∧ Forall field_word ws ∧
    Unpad (mjoin ws) out2 = Some data.
Proof.
  intros Hv -> Hd Hb H1 H2. apply validPadded_spec in Hv as (a & Ha & Hsz).
  destruct (pad_chunks_words n data Hd Hb) as (ws & Hp & Hn & Hw). exists ws. rewrite <- Hp.
  split; [apply (Pad_spec n a); [done|lia|done..]|]. split; [done|]. split; [done|].
  rewrite (Unpad_spec n a); [by rewrite unpad_pad_chunks|done|lia|by apply pad_chunks_length|done].
Qed.

(** C19: Data streams through the padding writer and the unpadding reader unchanged:
    when a piece of a valid size is written in any portions to a destination that
    takes all it is given, every write succeeds, the writer closes with nothing left
    over, and reading back with any buffers that hold a chunk and fit the reader's
    own gives the data and then the end of file. *)
Theorem fr32_stream_roundtrip {sizes : PieceSizes} {size_laws : PieceSizesLaws} {threads : GoThreads}
    {thread_laws : GoThreadsLaws} {D : Type} (dst_Write : list Z → D → D * Z * bool) (contents : D → list Z) d0 sz ps outs :
  (∀ b d, ∃ d', dst_Write b d = (d', Z.of_nat (length b), true) ∧ contents d' = contents d ++ b) -> contents d0 = [] ->
  validPadded sz = true -> sz < 2 ^ 62 -> Unpadded sz = Z.of_nat (length (mjoin ps)) -> Forall is_byte (mjoin ps) ->
  Forall (fits (Z.to_nat (BufSize sz))) outs -> (length (mjoin ps) < length outs)%nat ->
  ∃ w r, write_all dst_Write ps (NewPadWriter d0) = Some w ∧ Close w = true ∧
    NewUnpadReader (contents (dst w)) sz = Some r ∧ read_all outs r = Some (mjoin ps, true).
Proof.
  intros Hdst Hd0 Hv Hmax Hsz Hb Hf Hlen. pose proof Hv as Hv'. apply validPadded_spec in Hv' as (a & Ha & ->).
  set (data := mjoin ps) in *. set (n := Z.to_nat (2 ^ (a - 7))).
  assert (Hp : 0 < 2 ^ (a - 7)) by (apply Z.pow_pos_nonneg; lia).
  assert (Hn : 2 ^ a = 128 * Z.of_nat n).
  { unfold n. rewrite Z2Nat.id by lia. change 128 with (2 ^ 7). rewrite <- Z.pow_add_r by lia. f_equal. lia. }
  rewrite Hn, Unpadded_128 in Hsz by lia.
  destruct (write_all_spec dst_Write contents Hdst ps [] (NewPadWriter d0)) as (w & Hw & Hc & Hs); [by split|done|fold data; simpl; lia|].
  rewrite app_nil_l in Hc, Hs. fold data in Hc, Hs. replace (length data) with (127 * n)%nat in Hc, Hs by lia.
  rewrite chunks_of in Hc, Hs by lia. rewrite take_ge in Hc by lia. rewrite drop_ge in Hs by lia.
  assert (Hr : NewUnpadReader (contents (dst w)) (2 ^ a) =
    Some (mkUnpadReader (contents (dst w)) (2 ^ a) (replicate (Z.to_nat (BufSize (2 ^ a))) 0))).
  { unfold NewUnpadReader, NewUnpadReaderBuf. by rewrite Hv. }
  eexists _, _. split; [exact Hw|]. split; [unfold Close; by rewrite Hs|]. split; [exact Hr|].
  eapply read_all_spec; [|done|fold data; lia|cbn [rwork]; apply length_replicate|done|done].
  exists n, []. rewrite app_nil_r. split; [lia|]. split; [exact Hn|exact Hc].
Qed.

(** [Read] panics on a buffer that does not hold a chunk. *)
Lemma Read_short_buffer `{PieceSizes} `{GoThreads} out r :
  left r ≠ 0 -> (length out < 127)%nat -> (Read out r).1 = ReadPanic.
Proof.
  intros Hl Ho. unfold Read. destruct (Z.eqb_spec (left r) 0); [done|]. rewrite Z.div_small by lia. done.
Qed.

(** Whole chunks are not enough for the goroutines: with two CPUs and 8193 chunks,
    the second goroutine starts in the middle of a chunk. *)
Lemma goroutine_splits_chunk `{PieceSizes} `{GoThreads} :
  NumCPU = 2 -> (thread_range (128 * 8193) 1).1 mod 128 = 64.
Proof. intros Hn. unfold thread_range, mtChunkCount. rewrite Hn. by vm_compute. Qed.

(** * An example *)

Module Fr32Example.
#[export] Instance sizes : PieceSizes := {
  Unpadded s := s - s / 128;
  Padded s := s + s / 127;
  validPadded s := (128 <=? s) && (s <=? 2 ^ 62) && (s =? 2 ^ Z.log2 s);
}.

#[export] Instance size_laws : PieceSizesLaws.
Proof.
  split; [done|done|]. intros s. simpl. rewrite !andb_true_iff, !Z.leb_le, Z.eqb_eq. split.
  - intros [[H1 H2] H3]. exists (Z.log2 s). split; [|done]. split; [apply Z.log2_le_pow2; lia|].
    assert (Z.log2 s < 63); [apply Z.log2_lt_pow2; lia|lia].
  - intros (k & Hk & ->). rewrite Z.log2_pow2 by lia. split; [|done]. split.
    + change 128 with (2 ^ 7). apply Z.pow_le_mono_r; lia.
    + apply Z.pow_le_mono_r; lia.
Qed.

(** Four CPUs; the last goroutine runs first. *)
#[export] Instance machine : GoThreads := {
  NumCPU := 4;
  schedule n :=
    let threads := n / MTTresh in
    let threads := if 4 <? threads then 2 ^ Len32 4 else threads in
    rev (seqZ 0 (if threads =? 0 then 1 else if 32 <? threads then 32 else threads));
}.

#[export] Instance machine_laws : GoThreadsLaws.
Proof. split; [simpl; lia|]. intros n. symmetry. apply Permutation_rev. Qed.

Definition data : list Z := map (fun i => Z.of_nat i mod 256) (seq 100 127).
Definition append (b d : list Z) : list Z * Z * bool := (d ++ b, Z.of_nat (length b), true).
End Fr32Example.
Import Fr32Example.

Lemma Pad_Unpad_roundtrip_witness :
  ∃ ws, Pad data (replicate 128 7) = Some (mjoin ws) ∧ Unpad (mjoin ws) (replicate 127 9) = Some data.
Proof.
  destruct (Pad_Unpad_roundtrip 128 1 data (replicate 128 7) (replicate 127 9)) as (ws & H1 & _ & _ & H2).
  - vm_compute. reflexivity.
  - reflexivity.
  - reflexivity.
  - apply Forall_forall. intros b Hb. apply list_elem_of_fmap in Hb as (i & -> & _). unfold is_byte. apply Z.mod_pos_bound. lia.
  - reflexivity.
  - reflexivity.
  - exists ws. split; [exact H1|exact H2].
Defined.

Lemma fr32_stream_roundtrip_witness :
  ∃ w r, write_all append [take 50 data; drop 50 data] (NewPadWriter []) = Some w ∧ Close w = true ∧
    NewUnpadReader (dst w) 128 = Some r ∧ read_all (replicate 128 (replicate 200 0)) r = Some (data, true).
Proof.
  refine (fr32_stream_roundtrip append (fun d => d) [] 128 [take 50 data; drop 50 data] (replicate 128 (replicate 200 0)) _ _ _ _ _ _ _ _).
  - intros b d. exists (d ++ b). split; reflexivity.
  - reflexivity.
  - vm_compute. reflexivity.
  - lia.
  - vm_compute. reflexivity.
  - apply Forall_forall. intros b Hb. assert (Hin : b ∈ data) by exact Hb. clear Hb.
    apply list_elem_of_fmap in Hin as (i & -> & _). unfold is_byte. apply Z.mod_pos_bound. lia.
  - apply Forall_replicate. unfold fits. rewrite length_replicate. split; [lia|]. split; [|lia].
    replace (BufSize 128) with 524288 by (vm_compute; reflexivity). change (200 / 127)%nat with 1%nat. lia.
  - rewrite length_replicate. change (length (mjoin [take 50 data; drop 50 data])) with 127%nat. lia.
Defined.
